(* ===== verification/_CoqProject ===== *)
-Q . S2P
Prelude.v
Io.v
Text.v
Encoding.v
Replica.v
ReplicaTheorems.v
Openraft.v
Admission.v
Types.v
VipLogic.v
VipPlacement.v
VipAssign.v
VipMovement.v
VipRoundRobin.v
VipFence.v
Eligibility.v
State.v
StoreMembership.v
StateMachine.v
StateFrame.v
StateInv.v
StateSettled.v
StateTheorems.v
Guarantees.v
Snapshots.v
JoinProtocol.v
LogStore.v
LogTheorems.v
BindPolicy.v
Config.v
Fingerprint.v
Auth.v
AuthTheorems.v
Controller.v
Lease.v
LeaseTheorems.v
Exclusion.v
Freshness.v
Request.v
Authorization.v
ReplayTheorems.v
Tasks.v
Driver.v
Inbound.v
InboundTheorems.v
Takeover.v
Worker.v
WorkerTheorems.v
Runtime.v
RuntimeTheorems.v
NodeHistory.v
SplitBrain.v
NodeTheorems.v
Recovery.v
Routing.v
VipCommands.v
Ownership.v
LocalVip.v
KernelWorld.v
KernelLogic.v
KernelRules.v
KernelSpecs.v
KernelSound.v
KernelWorker.v
KernelTheorems.v
KernelStartup.v
Framing.v
Outbound.v
Stream.v
TaskStates.v
Transport.v
LinkIdentity.v
TransportTheorems.v
Submission.v
SubmissionTheorems.v
Connections.v
ConnectionTheorems.v
Guard.v
Health.v
Notifications.v
