(* ===== verification/Prelude.v ===== *)
(** * keepAfloatD: a verification development

    keepAfloatD keeps virtual IP addresses (VIPs) alive on a small cluster.  The
    daemons agree through Raft on which node holds which VIP; each daemon binds
    or removes the addresses of its own node.  The cluster is diskless: a daemon
    that restarts is a new boot of its physical member, and an admission
    protocol decides which boots may form, join or keep a cluster.

    ** The program and the files that model it

    - Replicated decision (src/raft/store/): [Types] the commands, [VipLogic] the
      eligibility and assignment functions of vip_logic.rs, [State] the shared
      [KafStorageState] and its snapshot, [StoreMembership] the join protocol,
      [StateMachine] the application of a log entry, [LogStore] the log store.
    - Admission (src/raft/admission.rs, admission/, src/runtime_permission/):
      [Replica] identities and their text, [Admission] genesis, sessions and join
      plans, [Controller] the issuers' reservations and the consumer's quorum,
      [Lease] lifetimes and the local permission that fences the storage;
      [Driver] the state of the runtime and its locked sections, [Runtime] its
      asynchronous tasks, as the event trees of [Tasks].
    - Network (src/auth.rs, src/raft/network/): [Auth] the handshake and the
      signatures of admission records, [Request] the operations of a peer,
      [Authorization] what a peer may send, [Inbound] the gates of a frame and
      its dispatch to the Raft engine; [Framing] the frames of frame.rs and
      wire.rs, [Outbound] the requests of network.rs and client.rs as tasks on a
      cached connection, [LinkIdentity] the boot at the other end of it, [Stream]
      the loop that serves a connection, [Connections]
      the limits of connection_admission.rs, admission.rs and the listeners.
    - Releases (src/submit.rs, src/submit/proof.rs, src/handoff.rs): [Submission]
      both sides of a submitted release, and the handoff when a daemon stops.
    - Health and supervision (src/health.rs, src/health_publication.rs,
      src/raft/guard.rs, probe.rs, control.rs, src/main.rs, src/vip/notify.rs):
      [Health] the probe, the delay of its failures and the loop that publishes
      the result, [Guard] the comparison with the peers and how the daemon ends,
      [Notifications] the queue of the hooks.
    - Effects on the node (src/bind_policy.rs, src/consensus_freshness/,
      src/health/local.rs, src/vip/): [BindPolicy] the decision to bind,
      [Freshness] the quorum proof, its permits and the local health, [Takeover]
      the wait for a silent predecessor, [Worker] a turn of the loop that binds
      and removes one VIP.
    - The kernel of the node (src/vip.rs, src/vip/effects.rs, ownership.rs,
      startup.rs, witness.rs, src/process.rs): [VipCommands] the ip(8) commands and
      the children that run them, [Ownership] the discovery of addresses of a
      previous process, [LocalVip] the operations of the same name as tasks, with
      the turn of the worker that calls them, and [KernelWorld] the host, the
      children and the system of workers on which the tasks run.
    - Configuration (src/config.rs, src/config/): [Config] the record and its
      validation, [Fingerprint] the digest by which nodes compare it.

    Committed entries flow from [LogStore] to [StateMachine]; the assignments it
    commits are what [BindPolicy] and [Worker] read; [Authorization] replays the
    join protocol of [StoreMembership] before the engine sees an entry; and every
    mutation of the storage is fenced by the session that [Controller] and
    [Lease] produce.

    ** How code becomes definitions

    A function of the source is a function here, with the same name where it is
    free.  Fallible code returns [Result] with the source's error, optional values
    are options, panics are a separate outcome.  Unsigned integers are [N] with
    the width written out ([u64_saturating_add], [u64_checked_add],
    [u64_wrapping_add]); a BTreeMap or BTreeSet is a [gmap] or [gset] iterated in
    key order ([btree_iter], [btree_keys]); text is the list of its Unicode
    scalars ([Text]); code on a connection is the monad of [Io].  A reading of
    a clock is an explicit instant argument, in nanoseconds, so two readings of
    one function may differ; only readings that follow each other directly, in
    the check of a session and in the promotion of a learner, are one instant.  Structs are records with the update notation
    [s <| field := value |>].

    An asynchronous function is a tree of events ([Tasks]): a section it runs under
    a lock, or a call it awaits, which the environment answers.  [NodeHistory]
    interleaves the events of any number of tasks with the engine, which may
    change the storage between any two of them.  Futures that run concurrently
    are modelled in the order in which they finish.  The endless loops of the
    driver are unfolded any number of times; the polling loops have the fuel
    their time-out allows, and [Routing] proves the fuel of the search for the
    leader sufficient.  [TaskStates] reads the events of one task as steps of a
    state, with a weakest precondition for them; [Transport] uses it to follow
    both ends of a connection over requests that complete or are cancelled.

    The tasks of [LocalVip] run on a shared host.  A command is started, takes
    effect at some later time or never, and is reaped or lost; a bind may be
    dropped at any of its events, also while its command runs; other workers and
    other programs act in between.  [KernelLogic], [KernelRules] and [KernelSpecs]
    are a rely/guarantee logic for such tasks, and [KernelSound] its soundness.
    Dry runs, in which no command is run, are modelled; the theorems on hosts are
    about the other case.

    Code that is not part of the repository is a parameter: the consensus
    library (class [Openraft], whose documented facts are [OpenraftLaws], with
    the instance [model_openraft] for evaluation), SHA-256 and HMAC (functions on
    byte lists; theorems that need collision resistance have the collision as an
    alternative of their conclusion), ip(8) (class [IpTool], whose documented
    behaviour is [IpToolLaws], with the instance at the end of [KernelSound]), the
    JSON encoder and decoder, and the parser of socket addresses.

    ** What the theorems show

    - The assignment ([VipPlacement], [VipAssign], [VipMovement],
      [VipRoundRobin]): every VIP gets one eligible holder, loads differ by at
      most one, as few VIPs move as any balanced assignment allows, a balanced
      assignment is kept, protected nodes receive nothing, and a cold start is
      round robin.  The rebalance loop runs with fuel quadratic in the number
      of VIPs; more fuel never changes the result.
    - The replicated state ([VipFence], [Eligibility], [StateFrame], [StateInv],
      [StateSettled], [StateTheorems], [Guarantees]): after any sequence of
      entries the holders are eligible voters and cover every VIP, a generation
      names one handoff, a release comes from the previous holder, rejected
      entries change nothing, and incarnation fields move one way.
    - Replication ([Snapshots], [LogTheorems], [JoinProtocol]): replicas that
      applied the same index agree however they got there; the log has no hole
      where the engine reads; every completed join has its evidence in the log.
    - The network ([AuthTheorems], [ReplayTheorems], [InboundTheorems]): two
      completed handshakes with one proof are one session; what the network lets
      through is what the state machine accepts; a vote that reaches the
      engine is of a boot that the applied membership, the genesis or, until it is
      applied, the node's own verified join makes a voter; and an accepted
      snapshot that the store can decode installs as a coherent history.
    - The transport ([Framing], [Transport], [LinkIdentity], [TransportTheorems]):
      frames read back, a request that succeeds returns the response the server
      wrote to this request, whatever requests were cancelled on the link before
      it, and every attempt is authorized and writes to a connection whose
      handshake authenticated the boot it is meant for.
    - Connection limits ([ConnectionTheorems]): in every history of a listener
      the connections and the bytes in flight stay within their limits, no
      permit is lost, and where the limit covers all peers no source keeps
      another one out.
    - Releases ([SubmissionTheorems]): the leader writes a submitted release
      only if the authenticated sender signed it about itself, and a handoff that
      completes leaves no release open.
    - Health and supervision ([Health], [Guard], [Notifications]): what a node
      publishes is what its probes said, exactly a node that a majority differs from
      for three rounds is stopped, and
      hooks run in the order in which they were accepted.
    - Admission ([LeaseTheorems], [Exclusion], [SplitBrain]): permissions never
      come back, and at no time do two storages accept mutations under different
      geneses, whatever the runtime tasks of the members do, across restarts and
      for clocks whose rates differ by up to a factor of two.  Assumed are that
      signatures are not forged, that nonces are fresh and that two boots of one
      member do not overlap.
    - The runtime ([RuntimeTheorems], [NodeTheorems], [Recovery], [Routing]): the
      engine is only asked for the membership changes that a prepared join
      justifies, a health proof is backed by applied progress and a majority, a
      join is given up only when its learner is stalled for a whole reservation,
      and no boot is asked twice for the leader.
    - Effects ([BindPolicy], [Freshness], [Takeover], [WorkerTheorems]): one
      binder per generation, no bind before the fence is open and the wait is
      over, permits never cross a revocation, an address without authority is
      the first thing a turn removes, and a release follows the removal.
    - The kernel ([KernelWorker], [KernelTheorems], [KernelStartup]): in every
      history an attached VIP is remembered, a release is submitted only when the
      address is gone and no child can bring it back, the same holds of the
      acknowledgement when the daemon stops, the tracker counts the right children,
      and a start-up leaves no address of a previous process behind.
    - Encodings ([Encoding], [ReplicaTheorems], [Fingerprint]): the text form of
      an identity is canonical, and the hashed bytes determine what they stand
      for.

    ** Not modelled

    The Raft engine itself and its construction; the JSON form of the messages
    and the system calls of sockets, timers and signals, which answer the events
    of the tasks; the start and stop of the network tasks (raft/mod.rs,
    raft/tasks.rs, shutdown.rs), the probe of an idle cached socket, and the pause
    of a listener after an error (listener.rs), which change no state of the
    protocols; the start of the daemon in main.rs; announcements
    (vip/announce.rs) and the start of a hook's script, which act on other
    systems; captured output of commands; status messages to systemd; reading
    the YAML and secret files; logging. *)

From stdpp Require Export prelude gmap sets list strings sorting fin_maps.

(** ** Machine integers

    Rust's unsigned integers are natural numbers [N] kept inside their width. *)

Definition u64_max : N := 18446744073709551615.
Definition u32_max : N := 4294967295.

(** [u64::saturating_add]. *)
Definition u64_saturating_add (a b : N) : N := N.min (a + b) u64_max.

(** [u64::saturating_sub]: subtraction on [N] is already truncated at zero. *)
Definition u64_saturating_sub (a b : N) : N := (a - b)%N.

(** [u64::saturating_mul]. *)
Definition u64_saturating_mul (a b : N) : N := N.min (a * b) u64_max.

(** Plain [+] on [u64]: it wraps in the release profile. *)
Definition u64_wrapping_add (a b : N) : N := ((a + b) mod (u64_max + 1))%N.

(** [u64::checked_add] and [u64::checked_sub]. *)
Definition u64_checked_add (a b : N) : option N :=
  if bool_decide (a + b ≤ u64_max)%N then Some (a + b)%N else None.
Definition u64_checked_sub (a b : N) : option N :=
  if bool_decide (b ≤ a)%N then Some (a - b)%N else None.

(** ** Results

    Fallible Rust code returns a [Result]; [?] is the bind below. *)

Inductive Result (A E : Type) : Type :=
| Ok (a : A)
| Err (e : E).
Arguments Ok {A E} a.
Arguments Err {A E} e.

Declare Scope kaf_scope.
Delimit Scope kaf_scope with kaf.

Notation "x <-? c ; k" :=
  (match c with Ok x => k | Err e => Err e end)
  (at level 60, c at next level, k at level 200, right associativity,
   format "'[v' x  <-?  c ; '/' k ']'") : kaf_scope.
Notation "c ;? k" :=
  (match c with Ok _ => k | Err e => Err e end)
  (at level 60, k at level 200, right associativity,
   format "'[v' c  ;? '/' k ']'") : kaf_scope.

Definition is_ok {A E} (r : Result A E) : bool :=
  match r with Ok _ => true | Err _ => false end.
Definition is_err {A E} (r : Result A E) : bool := negb (is_ok r).

(** [ensure c e] is [if !c { return Err(e) }]. *)
Definition ensure {E} (c : bool) (e : E) : Result unit E :=
  if c then Ok tt else Err e.

(** ** Ordered keys and B-tree traversal

    Rust's [BTreeMap] and [BTreeSet] are [gmap] and [gset]; what the source
    adds to a finite map is iteration in ascending key order, which the two
    functions [btree_iter] and [btree_keys] give. *)

Class OrdKey (K : Type) := {
  kle : relation K;
  #[global] kle_dec :: RelDecision kle;
  #[global] kle_trans :: Transitive kle;
  #[global] kle_antisymm :: AntiSymm (=) kle;
  #[global] kle_total :: Total kle
}.

#[global] Instance N_ordkey : OrdKey N.
Proof.
  refine {| kle := N.le |}.
Defined.

Definition fst_le {K V} `{OrdKey K} (p q : K * V) : Prop := kle p.1 q.1.

#[global] Instance fst_le_dec {K V} `{OrdKey K} : RelDecision (@fst_le K V _) :=
  λ p q, kle_dec p.1 q.1.

Definition btree_keys {K} `{Countable K, OrdKey K} (s : gset K) : list K :=
  merge_sort kle (elements s).

Definition btree_iter {K V} `{Countable K, OrdKey K} (m : gmap K V) : list (K * V) :=
  merge_sort fst_le (map_to_list m).

(** [sort_unstable] on a totally ordered type. *)
Definition sort_unstable {K} `{OrdKey K} (l : list K) : list K := merge_sort kle l.

(** ** Automation *)

Create HintDb kaf discriminated.

(** Decide every boolean guard of the goal and of the hypotheses. *)
Ltac guards :=
  repeat match goal with
  | H : bool_decide _ = true |- _ => apply bool_decide_eq_true_1 in H
  | H : bool_decide _ = false |- _ => apply bool_decide_eq_false_1 in H
  | H : andb _ _ = true |- _ => apply andb_true_iff in H as [? ?]
  | H : orb _ _ = false |- _ => apply orb_false_iff in H as [? ?]
  | H : negb _ = true |- _ => apply negb_true_iff in H
  | H : negb _ = false |- _ => apply negb_false_iff in H
  end.

(** Split the matches and conditionals of the goal, keeping the equations. *)
Ltac split_matches :=
  repeat match goal with
  | |- context [match ?x with _ => _ end] => destruct x eqn:?; simplify_eq/=
  end.

(** Comparisons of [N] as propositions. *)
Ltac n_compare :=
  repeat match goal with
  | H : (_ <=? _)%N = true |- _ => apply N.leb_le in H
  | H : (_ <=? _)%N = false |- _ => apply N.leb_gt in H
  | H : (_ <? _)%N = true |- _ => apply N.ltb_lt in H
  | H : (_ <? _)%N = false |- _ => apply N.ltb_ge in H
  | |- (_ <=? _)%N = true => apply N.leb_le
  | |- (_ <=? _)%N = false => apply N.leb_gt
  | |- (_ <? _)%N = true => apply N.ltb_lt
  | |- (_ <? _)%N = false => apply N.ltb_ge
  end.

(** Split on the first conditional of the goal. *)
Ltac split_guard H := match goal with |- context [if ?b then _ else _] => destruct b eqn:H end.

(** Split the matches of a hypothesis. *)
Ltac split_matches_in H :=
  repeat match type of H with
  | context [match ?x with _ => _ end] => destruct x eqn:?; simplify_eq/=
  end.

(** ** Machine integer lemmas *)

Lemma u64_saturating_add_bound a b : (u64_saturating_add a b ≤ u64_max)%N.
Proof. unfold u64_saturating_add. lia. Qed.

Lemma u64_saturating_add_ge a b : (a ≤ u64_max → a ≤ u64_saturating_add a b)%N.
Proof. unfold u64_saturating_add. lia. Qed.

Lemma u64_saturating_add_exact a b :
  (a + b ≤ u64_max)%N → u64_saturating_add a b = (a + b)%N.
Proof. unfold u64_saturating_add. lia. Qed.

Lemma u64_wrapping_add_exact a b : (a + b ≤ u64_max)%N → u64_wrapping_add a b = (a + b)%N.
Proof. intros. unfold u64_wrapping_add. apply N.mod_small. lia. Qed.

#[export] Hint Resolve u64_saturating_add_bound u64_saturating_add_ge : kaf.

(** ** Results *)

Lemma ensure_ok {E} (c : bool) (e : E) : ensure c e = Ok tt ↔ c = true.
Proof. by destruct c. Qed.

Lemma ensure_err {E} (c : bool) (e e' : E) : ensure c e = Err e' ↔ c = false ∧ e = e'.
Proof. destruct c; simpl; split; intros Hc; by destruct_and?; simplify_eq. Qed.

(** ** Ordered traversal lemmas *)

Section ordered.
Context {K V : Type} `{Countable K, OrdKey K}.
Implicit Types (s : gset K) (m : gmap K V).

#[global] Instance fst_le_trans : Transitive (@fst_le K V _).
Proof. intros p q r. apply kle_trans. Qed.

#[global] Instance fst_le_total : Total (@fst_le K V _).
Proof. intros p q. apply kle_total. Qed.

Lemma kle_refl (k : K) : kle k k.
Proof. by destruct (kle_total k k). Qed.

Lemma kle_not (j k : K) : ¬ kle j k → kle k j ∧ j ≠ k.
Proof.
  intros Hn. destruct (kle_total j k) as [?|?]; [done|].
  split; [done|]. intros ->. apply Hn, kle_refl.
Qed.

Lemma btree_keys_perm s : btree_keys s ≡ₚ elements s.
Proof. apply merge_sort_Permutation. Qed.

Lemma elem_of_btree_keys s k : k ∈ btree_keys s ↔ k ∈ s.
Proof. by rewrite btree_keys_perm, elem_of_elements. Qed.

Lemma length_btree_keys s : length (btree_keys s) = size s.
Proof. by rewrite btree_keys_perm. Qed.

Lemma btree_keys_NoDup s : NoDup (btree_keys s).
Proof. rewrite btree_keys_perm. apply NoDup_elements. Qed.

Lemma btree_keys_sorted s : StronglySorted kle (btree_keys s).
Proof. apply (StronglySorted_merge_sort kle). Qed.

Lemma btree_iter_perm m : btree_iter m ≡ₚ map_to_list m.
Proof. apply merge_sort_Permutation. Qed.

Lemma elem_of_btree_iter m k v : (k, v) ∈ btree_iter m ↔ m !! k = Some v.
Proof. by rewrite btree_iter_perm, elem_of_map_to_list. Qed.

Lemma btree_iter_sorted m : StronglySorted fst_le (btree_iter m).
Proof. apply (StronglySorted_merge_sort fst_le). Qed.

Lemma btree_iter_NoDup_fst m : NoDup (btree_iter m).*1.
Proof. rewrite btree_iter_perm. apply NoDup_fst_map_to_list. Qed.

Lemma sort_unstable_perm (l : list K) : sort_unstable l ≡ₚ l.
Proof. apply merge_sort_Permutation. Qed.

Lemma sort_unstable_sorted (l : list K) : StronglySorted kle (sort_unstable l).
Proof. apply (StronglySorted_merge_sort kle). Qed.

(** Sorting an already sorted list changes nothing. *)
Lemma sort_unstable_id (l : list K) : StronglySorted kle l → sort_unstable l = l.
Proof.
  intros Hl. apply (StronglySorted_unique kle); [apply sort_unstable_sorted|done|].
  apply sort_unstable_perm.
Qed.

Lemma last_StronglySorted (l : list K) x :
  StronglySorted kle l → last l = Some x → ∀ y, y ∈ l → kle y x.
Proof.
  intros Hs Hl y Hy. apply last_Some in Hl as [l' ->].
  apply elem_of_app in Hy as [Hy|Hy%list_elem_of_singleton].
  - apply (StronglySorted_app_1_elem_of kle l' [x]); set_solver.
  - subst. apply kle_refl.
Qed.

(** [iter().next_back()] of a B-tree set is its greatest element. *)
Lemma last_btree_keys s x :
  last (btree_keys s) = Some x → x ∈ s ∧ ∀ y, y ∈ s → kle y x.
Proof.
  intros Hl. split.
  - apply elem_of_btree_keys. apply last_Some in Hl as [l ->]. set_solver.
  - intros y Hy. apply (last_StronglySorted (btree_keys s)); [|done|].
    + apply btree_keys_sorted.
    + by apply elem_of_btree_keys.
Qed.

(** [iter().next_back()] of a B-tree map is the entry with the greatest key. *)
Lemma last_btree_iter m k v :
  last (btree_iter m) = Some (k, v) → m !! k = Some v ∧ ∀ j, is_Some (m !! j) → kle j k.
Proof.
  intros Hl. pose proof (btree_iter_sorted m) as Hs. apply last_Some in Hl as [l Hl].
  split; [apply elem_of_btree_iter; rewrite Hl; set_solver|].
  intros j [w Hj%elem_of_btree_iter]. rewrite Hl in Hs, Hj.
  apply elem_of_app in Hj as [Hj|Hj%list_elem_of_singleton].
  - apply (StronglySorted_app_1_elem_of fst_le l [(k, v)] (j, w) (k, v)); set_solver.
  - simplify_eq. apply kle_refl.
Qed.

(** Sorted association lists with the same entries and no repeated key are equal. *)
Lemma sorted_assoc_unique (l k : list (K * V)) :
  StronglySorted fst_le l → StronglySorted fst_le k → NoDup l.*1 → NoDup k.*1 →
  (∀ x, x ∈ l ↔ x ∈ k) → l = k.
Proof.
  intros Hl Hk Hnl Hnk Heq. apply (StronglySorted_unique_strong fst_le); [|done..|].
  - intros [a v] [b w] Ha%Heq Hb H1 H2. assert (a = b) as -> by by apply (anti_symm kle).
    f_equal. apply list_elem_of_lookup in Ha as [i Hi]. apply list_elem_of_lookup in Hb as [j Hj].
    assert (i = j) as ->; [|congruence].
    eapply (NoDup_lookup k.*1); [done|by rewrite list_lookup_fmap, Hi|by rewrite list_lookup_fmap, Hj].
  - apply NoDup_Permutation; [by eapply NoDup_fmap_1..|done].
Qed.

Lemma last_btree_keys_None s : last (btree_keys s) = None → s = ∅.
Proof.
  intros Hl%last_None. apply leibniz_equiv, elem_of_equiv_empty. intros x.
  rewrite <- elem_of_btree_keys, Hl. apply not_elem_of_nil.
Qed.
End ordered.



(** ** Lists *)

Lemma NoDup_snoc {A} (l : list A) x : NoDup (l ++ [x]) ↔ x ∉ l ∧ NoDup l.
Proof. rewrite (Permutation_app_comm l [x]). apply NoDup_cons. Qed.

Lemma StronglySorted_lookup_lt {A} (R : relation A) (l : list A) i j a b :
  StronglySorted R l → l !! i = Some a → l !! j = Some b → i < j → R a b.
Proof.
  intros Hs. revert i j. induction Hs as [|x l Hs IH Hall]; intros i j Hi Hj Hlt; [done|].
  destruct i as [|i], j as [|j]; simplify_eq/=; try lia.
  - rewrite Forall_forall in Hall. apply Hall. by eapply list_elem_of_lookup_2.
  - eapply (IH i j); [done|done|lia].
Qed.

Lemma StronglySorted_list_filter {A} (R : relation A) (P : A → Prop) `{∀ x, Decision (P x)} (l : list A) :
  StronglySorted R l → StronglySorted R (filter P l).
Proof.
  induction 1 as [|x l Hs IH Hall]; [constructor|]. rewrite filter_cons.
  case_decide; [|done]. constructor; [done|]. rewrite Forall_forall in *.
  intros y [_ Hy]%list_elem_of_filter. by apply Hall.
Qed.

(** What every step of a fold keeps, the fold keeps. *)
Lemma foldl_preserve {A B C} (g : A → C) (step : A → B → A) (l : list B) (a : A) :
  (∀ a b, g (step a b) = g a) → g (foldl step a l) = g a.
Proof. intros Hstep. revert a. induction l as [|b l IH]; intros a; [done|]. simpl. by rewrite IH. Qed.

(** A map that commutes with every step commutes with the fold. *)
Lemma foldl_commute {A A' B} (φ : A → A') (step : A → B → A) (step' : A' → B → A') (l : list B) (a : A) :
  (∀ a b, step' (φ a) b = φ (step a b)) → foldl step' (φ a) l = φ (foldl step a l).
Proof. intros Hstep. revert a. induction l as [|b l IH]; intros a; [done|]. simpl. by rewrite Hstep, IH. Qed.

(** A fold with steps that keep an invariant keeps it. *)
Lemma foldl_invariant {A B} (P : A → Prop) (step : A → B → A) (l : list B) (a : A) :
  P a → (∀ a b, b ∈ l → P a → P (step a b)) → P (foldl step a l).
Proof.
  revert a. induction l as [|b l IH]; intros a Ha Hstep; [done|]. simpl.
  apply IH; [apply Hstep; set_solver|]. intros; apply Hstep; set_solver.
Qed.

(** ** Sums over lists *)

Section sums.
Context {A : Type}.
Implicit Types (f g : A → nat) (l : list A).

Lemma sum_list_with_ext f g l :
  (∀ x, x ∈ l → f x = g x) → sum_list_with f l = sum_list_with g l.
Proof.
  induction l as [|x l IH]; intros Hfg; [done|]. simpl.
  rewrite Hfg, IH; [done| |]; intros; [apply Hfg|]; set_solver.
Qed.

Lemma sum_list_with_le f g l :
  (∀ x, x ∈ l → f x ≤ g x) → sum_list_with f l ≤ sum_list_with g l.
Proof.
  induction l as [|x l IH]; intros Hfg; [done|]. simpl.
  apply Nat.add_le_mono; [|apply IH; intros]; apply Hfg; set_solver.
Qed.

Lemma sum_list_with_add f g l :
  sum_list_with (λ x, (f x + g x)) l = sum_list_with f l + sum_list_with g l.
Proof. induction l; simpl; lia. Qed.

(** Isolate one element of a duplicate-free list. *)
Lemma sum_list_with_split f l x :
  NoDup l → x ∈ l → ∃ l', l ≡ₚ x :: l' ∧ x ∉ l' ∧ NoDup l'
    ∧ sum_list_with f l = f x + sum_list_with f l'.
Proof.
  intros Hnd (l1 & l2 & ->)%list_elem_of_split. exists (l1 ++ l2).
  apply NoDup_app in Hnd as (?&Hd&Hnd2). apply NoDup_cons in Hnd2 as [??].
  split; [by rewrite Permutation_middle|]. split; [set_solver|].
  split; [apply NoDup_app; set_solver|].
  rewrite !sum_list_with_app. simpl. lia.
Qed.

(** Changing one summand. *)
Lemma sum_list_with_update f g l x :
  NoDup l → x ∈ l → (∀ y, y ∈ l → y ≠ x → f y = g y) →
  sum_list_with f l + g x = sum_list_with g l + f x.
Proof.
  intros Hnd Hx Hfg. destruct (sum_list_with_split f l x) as (l'&Hp&Hx'&Hnd'&Hf); [done..|].
  rewrite Hf, Hp. simpl.
  rewrite (sum_list_with_ext f g l'); [lia|]. intros y Hy. apply Hfg; [|set_solver].
  rewrite Hp. set_solver.
Qed.
End sums.

(** ** Bytes

    A byte is an [N] below 256; [be_bytes w n] is [to_be_bytes] of a [w]-byte
    unsigned integer, and [of_be_bytes] is [from_be_bytes]. *)

Fixpoint be_bytes (w : nat) (n : N) : list N :=
  match w with
  | 0 => []
  | S w => be_bytes w (n / 256) ++ [(n mod 256)%N]
  end.

Definition of_be_bytes (l : list N) : N := foldl (λ acc b, (acc * 256 + b)%N) 0%N l.

Definition is_byte (b : N) : Prop := (b < 256)%N.

(** The bytes of an ASCII string literal of the source. *)
Definition ascii_bytes (s : string) : list N :=
  Ascii.N_of_ascii <$> String.list_ascii_of_string s.

Lemma length_be_bytes w n : length (be_bytes w n) = w.
Proof. revert n. induction w as [|w IH]; intros n; [done|]. simpl. rewrite length_app, IH. simpl. lia. Qed.

Lemma be_bytes_is_byte w n : Forall is_byte (be_bytes w n).
Proof.
  revert n. induction w as [|w IH]; intros n; [constructor|]. simpl.
  apply Forall_app. split; [apply IH|]. constructor; [|constructor].
  unfold is_byte. by apply N.mod_lt.
Qed.

Lemma of_be_bytes_snoc l b : of_be_bytes (l ++ [b]) = (of_be_bytes l * 256 + b)%N.
Proof. unfold of_be_bytes. by rewrite foldl_app. Qed.

Lemma of_be_bytes_be_bytes w n :
  (n < 256 ^ N.of_nat w)%N → of_be_bytes (be_bytes w n) = n.
Proof.
  revert n. induction w as [|w IH]; intros n Hn; simpl.
  { change (256 ^ N.of_nat 0)%N with 1%N in Hn. change (of_be_bytes []) with 0%N. lia. }
  rewrite of_be_bytes_snoc, IH.
  - rewrite N.mul_comm. symmetry. apply N.div_mod. lia.
  - apply N.Div0.div_lt_upper_bound.
    rewrite Nat2N.inj_succ, N.pow_succ_r' in Hn. lia.
Qed.

(** Fixed-width big-endian encodings are injective. *)
Lemma be_bytes_inj w n m :
  (n < 256 ^ N.of_nat w)%N → (m < 256 ^ N.of_nat w)%N →
  be_bytes w n = be_bytes w m → n = m.
Proof.
  intros Hn Hm Heq. rewrite <- (of_be_bytes_be_bytes w n), <- (of_be_bytes_be_bytes w m) by done.
  by rewrite Heq.
Qed.

(** Cut two equal concatenations at a common length. *)
Lemma app_inj_length {A} (l1 l2 k1 k2 : list A) :
  length l1 = length l2 → l1 ++ k1 = l2 ++ k2 → l1 = l2 ∧ k1 = k2.
Proof. intros Hl Heq. by apply app_inj_1. Qed.

(** ** Record update

    [s <| field := v |>] is the assignment [state.field = v] of the source.  A
    record type declares its eta expansion as an [Eta] instance, and the
    setter of a field is found by abstracting the projection out of it. *)

Class Eta (R : Type) := eta_expand : R → R.
Class Setter {R T : Type} (proj : R → T) := set_field : (T → T) → R → R.
Arguments set_field {R T} proj {_} f r /.

Ltac find_setter :=
  match goal with
  | |- @Setter ?R ?T ?proj =>
      let e := eval hnf in (_ : Eta R) in
      let e' := eval pattern proj in e in
      match e' with
      | ?ctx _ => let t := eval cbv beta in (λ (f : T → T), ctx (λ r, f (proj r))) in exact t
      end
  end.

#[global] Hint Extern 0 (Setter _) => find_setter : typeclass_instances.

Notation "s <| proj := v |>" := (set_field proj (λ _, v) s)
  (at level 12, left associativity, proj at next level, v at level 200,
   format "s  <| proj  :=  v |>").

(** ** Stable sorting by key

    [slice::sort_by_key] keeps the order of elements with equal keys; an
    insertion sort that inserts before the first element whose key is not
    smaller does the same. *)

Section sort_by_key.
Context {A K : Type} `{OrdKey K} (key : A → K).

Fixpoint insert_by_key (x : A) (l : list A) : list A :=
  match l with
  | [] => [x]
  | y :: l => if decide (kle (key x) (key y)) then x :: y :: l else y :: insert_by_key x l
  end.

Definition sort_by_key (l : list A) : list A := foldr insert_by_key [] l.

Lemma insert_by_key_Permutation x l : insert_by_key x l ≡ₚ x :: l.
Proof.
  induction l as [|y l IH]; simpl; [done|]. case_decide; [done|]. rewrite IH. apply Permutation_swap.
Qed.

Lemma sort_by_key_Permutation l : sort_by_key l ≡ₚ l.
Proof. induction l as [|x l IH]; simpl; [done|]. by rewrite insert_by_key_Permutation, IH. Qed.

Definition key_le (x y : A) : Prop := kle (key x) (key y).

Lemma insert_by_key_sorted x l :
  StronglySorted key_le l → StronglySorted key_le (insert_by_key x l).
Proof.
  induction 1 as [|y l Hl IH Hy]; simpl; [repeat constructor|].
  case_decide as Hxy.
  - constructor; [by constructor|]. constructor; [done|].
    eapply Forall_impl; [exact Hy|]. intros z Hz. unfold key_le in *. by trans (key y).
  - assert (key_le y x) by (destruct (total kle (key x) (key y)); done).
    constructor; [done|]. rewrite insert_by_key_Permutation. by constructor.
Qed.

Lemma sort_by_key_sorted l : StronglySorted key_le (sort_by_key l).
Proof. induction l as [|x l IH]; simpl; [constructor|by apply insert_by_key_sorted]. Qed.

Lemma sort_by_key_id l : StronglySorted key_le l → sort_by_key l = l.
Proof.
  induction 1 as [|x l Hl IH Hx]; [done|]. simpl. fold (sort_by_key l). rewrite IH.
  destruct l as [|y l]; [done|]. simpl. apply Forall_cons_1 in Hx as [Hx _].
  by rewrite decide_True.
Qed.

(** With distinct keys the sorted list does not depend on the original order. *)
Lemma sort_by_key_proper l k :
  NoDup (key <$> l) → l ≡ₚ k → sort_by_key l = sort_by_key k.
Proof.
  intros Hnd Hp.
  assert (Hs : sort_by_key l ≡ₚ sort_by_key k) by by rewrite !sort_by_key_Permutation.
  assert (Hnd' : NoDup (key <$> sort_by_key l)) by by rewrite sort_by_key_Permutation.
  generalize (sort_by_key_sorted l), (sort_by_key_sorted k), Hs, Hnd'.
  generalize (sort_by_key l), (sort_by_key k). clear.
  induction l as [|x l IH]; intros k Hl Hk Hp Hnd.
  { by apply Permutation_nil_l in Hp. }
  destruct k as [|y k]; [by apply Permutation_nil_r in Hp|].
  inversion Hl as [|? ? Hl' Hx]; subst. inversion Hk as [|? ? Hk' Hy]; subst.
  assert (x = y) as ->.
  { assert (Hin : x ∈ y :: k) by (rewrite <- Hp; left).
    assert (Hin' : y ∈ x :: l) by (rewrite Hp; left).
    apply elem_of_cons in Hin as [?|Hin]; [done|]. apply elem_of_cons in Hin' as [?|Hin']; [done|].
    rewrite Forall_forall in Hx, Hy. exfalso. apply NoDup_cons in Hnd as [Hnd _]. apply Hnd.
    rewrite (anti_symm kle (key x) (key y)) by (apply Hx || apply Hy; done).
    by apply list_elem_of_fmap_2. }
  f_equal. apply IH; [done|done|by eapply Permutation_cons_inv|]. by apply NoDup_cons in Hnd as [_ Hnd].
Qed.
End sort_by_key.

(** ** Byte strings read back *)

Lemma be_bytes_of_be_bytes l : Forall is_byte l → be_bytes (length l) (of_be_bytes l) = l.
Proof.
  induction l as [|b l IH] using rev_ind; [done|]. intros [Hl Hb]%Forall_app.
  apply Forall_cons_1 in Hb as [Hb _]. unfold is_byte in Hb.
  rewrite length_app, Nat.add_comm, of_be_bytes_snoc. cbn [length Nat.add be_bytes].
  rewrite N.add_comm, N.div_add, (N.div_small b), N.add_0_l by lia.
  rewrite N.Div0.mod_add, N.mod_small by lia. by rewrite IH.
Qed.

Lemma of_be_bytes_fits l :
  Forall is_byte l → (of_be_bytes l < 256 ^ N.of_nat (length l))%N.
Proof.
  induction l as [|b l IH] using rev_ind; [done|]. intros [Hl Hb]%Forall_app.
  apply Forall_cons_1 in Hb as [Hb _]. unfold is_byte in Hb. specialize (IH Hl).
  rewrite length_app, Nat.add_comm, of_be_bytes_snoc. cbn [length Nat.add].
  rewrite Nat2N.inj_succ, N.pow_succ_r'. lia.
Qed.
