(* ===== verification/Io.v ===== *)
(** * I/O errors and byte streams

    [io::Error] with the kinds the source uses, and the effect of code that
    reads and writes one connection: the bytes the peer will have sent before
    it closes, the bytes written so far, and how many more writes the
    connection accepts before it breaks.  A failed operation keeps the state
    it reached. *)

From S2P Require Import Prelude.

Inductive ErrorKind :=
| PermissionDenied | NotFound | InvalidData | InvalidInput | UnexpectedEof | BrokenPipe | TimedOut
| ConnectionAborted | ConnectionReset | ConnectionRefused | NotConnected | HostUnreachable | NetworkUnreachable | NetworkDown
| Interrupted | OutOfMemory | WriteZero | WouldBlock | OtherError.

#[global] Instance ErrorKind_eq_dec : EqDecision ErrorKind.
Proof. solve_decision. Defined.

Record IoError := mkIoError { error_kind : ErrorKind; error_message : string }.

Record Stream := mkStream {
  incoming : list N;
  outgoing : list N;
  write_budget : nat
}.

Definition Io (A : Type) : Type := Stream → Result A IoError * Stream.

Definition io_ok {A} (a : A) : Io A := λ s, (Ok a, s).
Definition io_err {A} (e : IoError) : Io A := λ s, (Err e, s).
Definition io_lift {A} (r : Result A IoError) : Io A := λ s, (r, s).
Definition io_bind {A B} (m : Io A) (k : A → Io B) : Io B := λ s,
  match m s with
  | (Ok a, s) => k a s
  | (Err e, s) => (Err e, s)
  end.

Declare Scope io_scope.
Delimit Scope io_scope with io.
Notation "x <~ m ; k" := (io_bind m (λ x, k))
  (at level 100, m at next level, right associativity) : io_scope.
Notation "m ;~ k" := (io_bind m (λ _, k)) (at level 100, right associativity) : io_scope.

(** [read_exact] of [n] bytes; at the end of the stream the rest is consumed. *)
Definition read_exact (n : nat) : Io (list N) := λ s,
  if n <=? length (incoming s)
  then (Ok (take n (incoming s)),
        mkStream (drop n (incoming s)) (outgoing s) (write_budget s))
  else (Err (mkIoError UnexpectedEof "early eof"),
        mkStream [] (outgoing s) (write_budget s)).

(** [write_all]. *)
Definition write_all (bytes : list N) : Io unit := λ s,
  match write_budget s with
  | 0 => (Err (mkIoError BrokenPipe "broken pipe"), s)
  | S n => (Ok tt, mkStream (incoming s) (outgoing s ++ bytes) n)
  end.

(** [tokio::time::timeout]: [elapsed] says whether the timer fired first. *)
Definition timeout {A} (elapsed : bool) (e : IoError) (m : Io A) : Io A := λ s,
  if elapsed then (Err e, (m s).2) else m s.

(** ** Lemmas *)

Lemma read_exact_app n l k o b :
  length l = n → read_exact n (mkStream (l ++ k) o b) = (Ok l, mkStream k o b).
Proof.
  intros <-. unfold read_exact. simpl. rewrite length_app, (proj2 (Nat.leb_le _ _)) by lia.
  by rewrite take_app_length, drop_app_length.
Qed.

Lemma read_exact_ok n s l s' :
  read_exact n s = (Ok l, s') →
  incoming s = l ++ incoming s' ∧ length l = n ∧ outgoing s' = outgoing s ∧
  write_budget s' = write_budget s.
Proof.
  unfold read_exact. case_match eqn:Hn; [|done]. intros [= <- <-]. simpl.
  apply Nat.leb_le in Hn. rewrite take_drop, length_take. split_and!; [done|lia|done|done].
Qed.

Lemma io_bind_ok {A B} (m : Io A) (k : A → Io B) s b s' :
  io_bind m k s = (Ok b, s') → ∃ a s1, m s = (Ok a, s1) ∧ k a s1 = (Ok b, s').
Proof. unfold io_bind. destruct (m s) as [[a|e] s1]; [|done]. eauto. Qed.

Lemma write_all_ok bytes s u s' :
  write_all bytes s = (Ok u, s') →
  incoming s' = incoming s ∧ outgoing s' = outgoing s ++ bytes ∧ write_budget s = S (write_budget s').
Proof. unfold write_all. case_match; [done|]. by intros [= _ <-]. Qed.

(** Split a successful run into its steps. *)
Ltac io_inv H :=
  lazymatch type of H with
  | io_bind _ _ _ = (Ok _, _) =>
      let Hm := fresh "Hm" in apply io_bind_ok in H as (? & ? & Hm & H); io_inv H
  | _ => idtac
  end.

(** Operations that write nothing. *)
Definition silent {A} (m : Io A) : Prop := ∀ s, outgoing (m s).2 = outgoing s.

Lemma silent_bind {A B} (m : Io A) (k : A → Io B) :
  silent m → (∀ a, silent (k a)) → silent (io_bind m k).
Proof.
  intros Hm Hk s. unfold io_bind. specialize (Hm s). destruct (m s) as [[a|e] s1]; [|done].
  by rewrite Hk.
Qed.

Lemma silent_lift {A} (r : Result A IoError) : silent (io_lift r).
Proof. done. Qed.
Lemma silent_ok {A} (a : A) : silent (io_ok a).
Proof. done. Qed.
Lemma silent_err {A} e : silent (@io_err A e).
Proof. done. Qed.
Lemma silent_read n : silent (read_exact n).
Proof. intros s. unfold read_exact. by case_match. Qed.
Lemma silent_if {A} (b : bool) (m n : Io A) : silent m → silent n → silent (if b then m else n).
Proof. by destruct b. Qed.
#[export] Hint Resolve silent_bind silent_lift silent_ok silent_err silent_read silent_if : kaf.
