(* ===== verification/Text.v ===== *)
(** * Text

    Rust text as the list of its Unicode scalar values: the length in bytes and
    the UTF-8 encoding, the character classes the configuration checks, and
    the decimal rendering and parsing of integers. *)

From S2P Require Import Prelude.

(** A [char] and a [String]. *)
Definition char : Type := N.
Definition Text : Type := list char.

Definition is_scalar (c : char) : Prop := (c < 1114112)%N.

(** A source literal of ASCII characters. *)
Definition text (s : string) : Text := ascii_bytes s.

(** The UTF-8 encoding of one character. *)
Definition utf8_char (c : char) : list N :=
  if (c <? 128)%N then [c]
  else if (c <? 2048)%N then [192 + c / 64; 128 + c mod 64]%N
  else if (c <? 65536)%N then [224 + c / 4096; 128 + (c / 64) mod 64; 128 + c mod 64]%N
  else [240 + c / 262144; 128 + (c / 4096) mod 64; 128 + (c / 64) mod 64; 128 + c mod 64]%N.

(** [as_bytes]. *)
Definition utf8 (t : Text) : list N := t ≫= utf8_char.

(** [len()]: the number of bytes. *)
Definition text_len (t : Text) : nat := length (utf8 t).

(** [char::is_whitespace]: the Unicode White_Space property. *)
Definition is_whitespace (c : char) : bool :=
  (((9 <=? c) && (c <=? 13)) || (c =? 32) || (c =? 133) || (c =? 160) || (c =? 5760)
  || ((8192 <=? c) && (c <=? 8202)) || (c =? 8232) || (c =? 8233) || (c =? 8239)
  || (c =? 8287) || (c =? 12288))%N.

(** [char::is_control]: the general category Cc. *)
Definition is_control (c : char) : bool := ((c <=? 31) || ((127 <=? c) && (c <=? 159)))%N.

(** [to_string] of an unsigned integer, on at most [fuel] digits. *)
Fixpoint decimal_digits (fuel : nat) (n : N) : Text :=
  match fuel with
  | 0 => []
  | S fuel => (if (n <? 10)%N then [] else decimal_digits fuel (n / 10)) ++ [48 + n mod 10]%N
  end.
Definition decimal (n : N) : Text := decimal_digits 20 n.

(** [u8::from_str]: an optional plus sign, then at least one digit, within range. *)
Definition is_digit (c : char) : bool := ((48 <=? c) && (c <=? 57))%N.
Definition parse_digits (t : Text) : option N :=
  if bool_decide (t = []) || negb (forallb is_digit t) then None
  else Some (foldl (λ acc c, acc * 10 + (c - 48))%N 0%N t).
Definition parse_u8 (t : Text) : option N :=
  let digits := match t with c :: t' => if (c =? 43)%N then t' else t | [] => t end in
  n ← parse_digits digits; if (n <=? 255)%N then Some n else None.

(** [split_once]. *)
Fixpoint split_once (sep : char) (t : Text) : option (Text * Text) :=
  match t with
  | [] => None
  | c :: t =>
      if (c =? sep)%N then Some ([], t)
      else match split_once sep t with
           | Some (a, b) => Some (c :: a, b)
           | None => None
           end
  end.

(** ** Lemmas *)

Lemma utf8_cons c t : utf8 (c :: t) = utf8_char c ++ utf8 t.
Proof. done. Qed.

(** Division by 64 with its remainder, as linear facts. *)
Lemma div64 (c : N) : (c = 64 * (c / 64) + c mod 64 ∧ c mod 64 < 64)%N.
Proof. split; [apply N.div_mod'|by apply N.mod_lt]. Qed.

(** The encoding of a character determines it and where it ends. *)
Lemma utf8_char_app_inj c d l k :
  is_scalar c → is_scalar d → utf8_char c ++ l = utf8_char d ++ k → c = d ∧ l = k.
Proof.
  unfold is_scalar, utf8_char. intros Hc Hd.
  change 262144%N with (64 * 64 * 64)%N. change 4096%N with (64 * 64)%N. rewrite <- !N.Div0.div_div.
  destruct (div64 c), (div64 d), (div64 (c / 64)), (div64 (d / 64)), (div64 (c / 64 / 64)), (div64 (d / 64 / 64)).
  destruct (N.ltb_spec c 128), (N.ltb_spec d 128), (N.ltb_spec c 2048), (N.ltb_spec d 2048),
    (N.ltb_spec c 65536), (N.ltb_spec d 65536); try lia; cbn [app]; intros Heq; injection Heq; intros;
    try (split; [lia|done]); lia.
Qed.

Lemma utf8_inj (t u : Text) : Forall is_scalar t → Forall is_scalar u → utf8 t = utf8 u → t = u.
Proof.
  intros Ht. revert u. induction Ht as [|c t Hc Ht IH]; intros u Hu Heq.
  - destruct Hu as [|d u Hd Hu]; [done|]. exfalso. rewrite utf8_cons in Heq. simpl in Heq.
    unfold utf8_char in Heq. by repeat case_match.
  - destruct Hu as [|d u Hd Hu].
    + exfalso. rewrite utf8_cons in Heq. unfold utf8_char in Heq. by repeat case_match.
    + rewrite !utf8_cons in Heq. apply utf8_char_app_inj in Heq as [-> Heq]; [|done..].
      f_equal. by apply IH.
Qed.
