(* ===== verification/Encoding.v ===== *)
(** * Unambiguous encodings

    The byte strings the daemon hashes or authenticates are concatenations of
    fields.  [PrefixCode P enc] says that, on the values [P] describes, the
    encoding of a value determines the value and where its bytes end; the
    instances below cover the fields the source uses, and the tactic
    [peel] cuts an equation between two concatenations field by field. *)

From S2P Require Import Prelude Text.

Class PrefixCode {A} (P : A → Prop) (enc : A → list N) : Prop :=
  prefix_code x y l k : P x → P y → enc x ++ l = enc y ++ k → x = y ∧ l = k.

Lemma prefix_code_inj {A} (P : A → Prop) enc `{!PrefixCode P enc} x y :
  P x → P y → enc x = enc y → x = y.
Proof.
  intros Hx Hy Heq. refine (proj1 (prefix_code x y [] [] Hx Hy _)). by rewrite Heq.
Qed.

(** An integer that fits in [w] bytes. *)
Definition fits (w : nat) (n : N) : Prop := (n < 256 ^ N.of_nat w)%N.

#[global] Instance be_bytes_code w : PrefixCode (fits w) (be_bytes w).
Proof.
  intros n m l k Hn Hm Heq. apply app_inj_length in Heq as [Heq ->]; [|by rewrite !length_be_bytes].
  split; [|done]. by eapply be_bytes_inj.
Qed.

(** A byte array of a fixed length. *)
#[global] Instance array_code w : PrefixCode (λ l : list N, length l = w) id.
Proof. intros n m l k Hn Hm Heq. apply app_inj_length in Heq; [done|]. unfold id. congruence. Qed.

(** A byte slice after its length. *)
Definition length_prefixed (l : list N) : list N := be_bytes 8 (N.of_nat (length l)) ++ l.

#[global] Instance length_prefixed_code :
  PrefixCode (λ l : list N, fits 8 (N.of_nat (length l))) length_prefixed.
Proof.
  intros n m l k Hn Hm. unfold length_prefixed. rewrite <- !app_assoc. intros Heq.
  apply (prefix_code (P := fits 8)) in Heq as [Hlen Heq]; [|done..].
  apply app_inj_length in Heq; [done|lia].
Qed.

(** A sequence of values after its length. *)
Definition sequence {A} (enc : A → list N) (l : list A) : list N :=
  be_bytes 8 (N.of_nat (length l)) ++ (l ≫= enc).

Lemma bind_code {A} (P : A → Prop) enc `{!PrefixCode P enc} (x y : list A) l k :
  Forall P x → Forall P y → length x = length y →
  (x ≫= enc) ++ l = (y ≫= enc) ++ k → x = y ∧ l = k.
Proof.
  intros Hx. revert y. induction Hx as [|a x Ha Hx IH]; intros [|b y] Hy Hlen; [done..|].
  apply Forall_cons in Hy as [Hb Hy]. rewrite !bind_cons, <- !app_assoc. intros Heq.
  apply prefix_code in Heq as [-> Heq]; [|done..].
  destruct (IH y Hy (eq_add_S _ _ Hlen) Heq) as [-> ->]. done.
Qed.

#[global] Instance sequence_code {A} (P : A → Prop) enc `{!PrefixCode P enc} :
  PrefixCode (λ l : list A, Forall P l ∧ fits 8 (N.of_nat (length l))) (sequence enc).
Proof.
  intros x y l k [Hx Hn] [Hy Hm]. unfold sequence. rewrite <- !app_assoc. intros Heq.
  apply (prefix_code (P := fits 8)) in Heq as [Hlen Heq]; [|done..].
  apply (bind_code P enc) in Heq; [done..|lia].
Qed.

(** UTF-8 text after its length in bytes. *)
#[global] Instance text_code :
  PrefixCode (λ t : Text, Forall is_scalar t ∧ fits 8 (N.of_nat (text_len t)))
    (λ t, length_prefixed (utf8 t)).
Proof.
  intros x y l k [Hx Hn] [Hy Hm] Heq. apply prefix_code in Heq as [Heq ->]; [|done..].
  split; [|done]. by apply utf8_inj.
Qed.

(** Cut the first field off both sides of an equation of byte strings. *)
Ltac peel H E :=
  rewrite <- ?app_assoc in H;
  lazymatch type of H with
  | ?enc ?x ++ ?l = ?enc ?y ++ ?k => apply (prefix_code (enc := enc) x y l k) in H as [E H]
  end.
