(* ===== verification/Replica.v ===== *)
(** * Replica identities (src/raft/admission.rs)

    [ReplicaId] with its derived equality and order, and the canonical text
    form it has on the wire ([Display] and [FromStr]): sixteen lower-case hex
    digits, a colon, and sixty-four more digits. *)

From S2P Require Import Prelude.
From Stdlib Require Import Ascii.

Record ReplicaId := mkReplicaId {
  physical_id : N;
  boot_nonce : list N
}.

#[global] Instance ReplicaId_eq_dec : EqDecision ReplicaId.
Proof. solve_decision. Defined.

#[global] Instance ReplicaId_countable : Countable ReplicaId.
Proof.
  apply (inj_countable' (λ r, (physical_id r, boot_nonce r)) (λ p, mkReplicaId p.1 p.2)).
  by intros [].
Defined.

(** The representation invariant of the Rust type: a [u64] and a [[u8; 32]]. *)
Definition replica_wf (r : ReplicaId) : Prop :=
  (physical_id r ≤ u64_max)%N ∧ length (boot_nonce r) = 32 ∧ Forall is_byte (boot_nonce r).

(** Errors of the admission layer are static strings. *)
Record AdmissionDenied := mkAdmissionDenied { denied_reason : string }.

(** ** The derived lexicographic order *)

Fixpoint bytes_leb (l k : list N) : bool :=
  match l, k with
  | [], _ => true
  | _ :: _, [] => false
  | x :: l, y :: k => (x <? y)%N || ((x =? y)%N && bytes_leb l k)
  end.

Definition replica_leb (a b : ReplicaId) : bool :=
  (physical_id a <? physical_id b)%N
  || ((physical_id a =? physical_id b)%N && bytes_leb (boot_nonce a) (boot_nonce b)).

Ltac leb_cases :=
  rewrite ?orb_true_iff, ?andb_true_iff, ?N.ltb_lt, ?N.eqb_eq in *.

Lemma bytes_leb_trans l k j :
  bytes_leb l k = true → bytes_leb k j = true → bytes_leb l j = true.
Proof.
  revert k j. induction l as [|x l IH]; intros [|y k] [|z j]; simpl; try done.
  leb_cases. intros [?|[-> ?]] [?|[-> ?]]; eauto; left; lia.
Qed.

Lemma bytes_leb_antisymm l k : bytes_leb l k = true → bytes_leb k l = true → l = k.
Proof.
  revert k. induction l as [|x l IH]; intros [|y k]; simpl; try done.
  leb_cases. intros [?|[? ?]] [?|[? ?]]; try lia. subst. f_equal. eauto.
Qed.

Lemma bytes_leb_total l k : bytes_leb l k = true ∨ bytes_leb k l = true.
Proof.
  revert k. induction l as [|x l IH]; intros [|y k]; simpl; auto.
  leb_cases. destruct (IH k), (N.lt_trichotomy x y) as [?|[?|?]]; auto.
Qed.

#[global] Instance ReplicaId_ordkey : OrdKey ReplicaId.
Proof.
  refine {| kle := λ a b, replica_leb a b = true |}.
  - intros a b. apply _.
  - intros a b c. unfold replica_leb. leb_cases.
    intros [?|[? H1]] [?|[? H2]]; try (left; lia). right. split; [lia|].
    by eapply bytes_leb_trans.
  - intros [p n] [p' n']. unfold replica_leb. simpl. leb_cases.
    intros [?|[? H1]] [?|[? H2]]; try lia. subst. f_equal. by apply bytes_leb_antisymm.
  - intros a b. unfold replica_leb. leb_cases.
    destruct (N.lt_trichotomy (physical_id a) (physical_id b)) as [?|[?|?]]; [tauto| |tauto].
    destruct (bytes_leb_total (boot_nonce a) (boot_nonce b)); auto.
Defined.

(** ** Text form *)

Module Hex.

Definition hex_digit (d : N) : ascii :=
  if (d <? 10)%N then ascii_of_N (48 + d) else ascii_of_N (87 + d).

(** [char::to_digit(16)]: both letter cases are digits. *)
Definition hex_val (c : ascii) : option N :=
  let n := N_of_ascii c in
  if ((48 <=? n) && (n <=? 57))%N then Some (n - 48)%N
  else if ((97 <=? n) && (n <=? 102))%N then Some (n - 87)%N
  else if ((65 <=? n) && (n <=? 70))%N then Some (n - 55)%N
  else None.

(** [{:0wx}] of a value that fits in [w] digits. *)
Fixpoint hex_padded (w : nat) (n : N) : list ascii :=
  match w with
  | 0 => []
  | S w => hex_padded w (n / 16) ++ [hex_digit (n mod 16)]
  end.

Fixpoint radix16 (max acc : N) (l : list ascii) : option N :=
  match l with
  | [] => Some acc
  | c :: l =>
      d ← hex_val c;
      let acc' := (acc * 16 + d)%N in
      if (acc' <=? max)%N then radix16 max acc' l else None
  end.

(** [from_str_radix(_, 16)] of an unsigned type whose greatest value is [max]. *)
Definition from_str_radix (max : N) (l : list ascii) : option N :=
  match l with
  | [] => None
  | "+"%char :: [] => None
  | "+"%char :: l => radix16 max 0 l
  | l => radix16 max 0 l
  end.

(** [matches!(byte, b'0'..=b'9' | b'a'..=b'f')]. *)
Definition is_lower_hex (c : ascii) : bool :=
  let n := N_of_ascii c in
  (((48 <=? n) && (n <=? 57)) || ((97 <=? n) && (n <=? 102)))%N.

End Hex.
Import Hex.

(** [impl Display for ReplicaId]. *)
Definition display (r : ReplicaId) : list ascii :=
  hex_padded 16 (physical_id r) ++ ":"%char :: (boot_nonce r ≫= hex_padded 2).

(** [value[a..b]]. *)
Definition slice {A} (l : list A) (a b : nat) : list A := take (b - a) (drop a l).

(** The loop [for (index, byte) in boot_nonce.iter_mut().enumerate()]. *)
Fixpoint parse_nonce (value : list ascii) (n index : nat) : Result (list N) AdmissionDenied :=
  match n with
  | 0 => Ok []
  | S n =>
      let offset := 17 + index * 2 in
      match from_str_radix 255 (slice value offset (offset + 2)) with
      | None => Err (mkAdmissionDenied "invalid boot identity")
      | Some byte =>
          match parse_nonce value n (S index) with
          | Ok rest => Ok (byte :: rest)
          | Err e => Err e
          end
      end
  end.

(** [impl FromStr for ReplicaId]. *)
Definition from_str (value : list ascii) : Result ReplicaId AdmissionDenied :=
  if negb (bool_decide (length value = 81))
     || negb (bool_decide (value !! 16 = Some ":"%char))
     || existsb (λ '(i, byte), negb (i =? 16) && negb (is_lower_hex byte))
          (imap pair value)
  then Err (mkAdmissionDenied "noncanonical replica identity")
  else
    match from_str_radix u64_max (slice value 0 16) with
    | None => Err (mkAdmissionDenied "invalid physical identity")
    | Some physical_id =>
        match parse_nonce value 32 0 with
        | Err e => Err e
        | Ok boot_nonce => Ok (mkReplicaId physical_id boot_nonce)
        end
    end.
