(* ===== verification/ReplicaTheorems.v ===== *)
(** * The text form of a replica identity

    [from_str] accepts exactly the strings that [display] produces, and inverts
    it: the textual identity is canonical. *)

From S2P Require Import Prelude Replica.
From Stdlib Require Import Ascii.
Import Hex.

(** ** Hexadecimal digits *)

Lemma hex_digit_ok d :
  (d < 16)%N → is_lower_hex (hex_digit d) = true ∧ hex_val (hex_digit d) = Some d.
Proof.
  intros Hd. assert (∃ k, k < 16 ∧ d = N.of_nat k) as (k & Hk & ->) by (exists (N.to_nat d); lia).
  do 16 (destruct k as [|k]; [done|]). lia.
Qed.

Lemma is_lower_hex_inv c :
  is_lower_hex c = true → ∃ d, (d < 16)%N ∧ c = hex_digit d ∧ hex_val c = Some d.
Proof.
  intros Hc. assert (∃ d, hex_val c = Some d ∧ (d <? 16)%N = true ∧ hex_digit d = c) as (d & Hv & Hd & Hx).
  { revert Hc. destruct c as [[] [] [] [] [] [] [] []]; try done; intros _; eexists; split_and!; reflexivity. }
  apply N.ltb_lt in Hd. by exists d.
Qed.

Lemma radix16_app max acc l k :
  radix16 max acc (l ++ k) = radix16 max acc l ≫= λ x, radix16 max x k.
Proof.
  revert acc. induction l as [|c l IH]; intros acc; cbn; [done|]. destruct (hex_val c); cbn; [|done].
  by destruct (_ <=? max)%N.
Qed.

Lemma hex_padded_length w n : length (hex_padded w n) = w.
Proof. revert n. induction w as [|w IH]; intros n; cbn; [done|]. rewrite length_app, IH. cbn. lia. Qed.

Lemma hex_padded_lower w n : Forall (λ c, is_lower_hex c = true) (hex_padded w n).
Proof.
  revert n. induction w as [|w IH]; intros n; cbn; [constructor|].
  apply Forall_app. split; [done|]. constructor; [|constructor]. apply hex_digit_ok, N.mod_lt. lia.
Qed.

Lemma pow16_S w : (16 ^ N.of_nat (S w) = 16 * 16 ^ N.of_nat w)%N.
Proof. by rewrite Nat2N.inj_succ, N.pow_succ_r'. Qed.

(** Printing and reading a number of [w] digits. *)
Lemma radix16_padded max w n :
  (n < 16 ^ N.of_nat w)%N → (n ≤ max)%N → radix16 max 0 (hex_padded w n) = Some n.
Proof.
  revert n. induction w as [|w IH]; intros n Hn Hm; [cbn in *; f_equal; lia|].
  cbn [hex_padded]. rewrite radix16_app, IH; cbn [mbind option_bind radix16].
  - rewrite (proj2 (hex_digit_ok (n mod 16) ltac:(apply N.mod_lt; lia))). cbn [mbind option_bind].
    pose proof (N.div_mod n 16) as Hdm. replace (n / 16 * 16 + n mod 16)%N with n by lia.
    by apply N.leb_le in Hm as ->.
  - rewrite pow16_S in Hn. apply N.Div0.div_lt_upper_bound. lia.
  - pose proof (N.Div0.div_le_upper_bound n 16 n). lia.
Qed.

Lemma radix16_lower max l :
  Forall (λ c, is_lower_hex c = true) l → (16 ^ N.of_nat (length l) ≤ max + 1)%N →
  ∃ n, radix16 max 0 l = Some n ∧ (n < 16 ^ N.of_nat (length l))%N ∧ hex_padded (length l) n = l.
Proof.
  induction l as [|c l IH] using rev_ind; intros Hl Hm; [exists 0%N; cbn; split_and!; [done|lia|done]|].
  apply Forall_app in Hl as [Hl Hc]. inversion Hc as [|? ? Hd _]; subst.
  rewrite length_app, Nat.add_1_r in *. rewrite pow16_S in Hm.
  destruct IH as (n & Hr & Hn & Hp); [done|lia|]. destruct (is_lower_hex_inv c Hd) as (d & Hlt & Hcd & Hv).
  exists (n * 16 + d)%N. rewrite pow16_S. split_and!; [|nia|].
  - rewrite radix16_app, Hr. cbn. rewrite Hv. cbn. assert (n * 16 + d <= max)%N as ->%N.leb_le; [nia|done].
  - cbn [hex_padded]. rewrite N.div_add_l, N.div_small, N.add_0_r, Hp by lia.
    rewrite N.add_comm, N.Div0.mod_add, N.mod_small by lia. by rewrite Hcd.
Qed.

Lemma from_str_radix_lower max l :
  Forall (λ c, is_lower_hex c = true) l → l ≠ [] → from_str_radix max l = radix16 max 0 l.
Proof.
  intros Hl Hne. destruct l as [|c l]; [done|]. inversion Hl as [|? ? Hc _]; subst. revert Hc.
  by destruct c as [[] [] [] [] [] [] [] []].
Qed.

(** ** The nonce *)

Lemma slice_app {A} (pre mid post : list A) a b :
  length pre = a → length pre + length mid = b → slice (pre ++ mid ++ post) a b = mid.
Proof.
  intros <- <-. unfold slice. rewrite drop_app_length, Nat.add_comm, Nat.add_sub. by rewrite take_app_length.
Qed.

Lemma parse_nonce_display pre bs i :
  length pre = 17 + i * 2 → Forall is_byte bs →
  parse_nonce (pre ++ (bs ≫= hex_padded 2)) (length bs) i = Ok bs.
Proof.
  intros Hpre Hb. revert pre i Hpre. induction Hb as [|b bs Hb _ IH]; intros pre i Hpre; [done|].
  rewrite bind_cons. cbn [parse_nonce length].
  rewrite slice_app by (rewrite ?hex_padded_length; lia).
  rewrite from_str_radix_lower, radix16_padded; [|unfold is_byte in Hb; cbn; lia..|by apply hex_padded_lower|done].
  rewrite app_assoc, IH; [done|]. rewrite length_app, hex_padded_length. lia.
Qed.

Lemma nonce_text bs :
  length (bs ≫= hex_padded 2) = length bs * 2 ∧ Forall (λ c, is_lower_hex c = true) (bs ≫= hex_padded 2).
Proof.
  induction bs as [|b bs [IHl IHf]]; [by split|]. rewrite bind_cons, length_app, hex_padded_length, IHl.
  split; [cbn; lia|]. apply Forall_app. split; [apply hex_padded_lower|done].
Qed.

Lemma parse_nonce_lower pre l n i :
  length pre = 17 + i * 2 → length l = n * 2 → Forall (λ c, is_lower_hex c = true) l →
  ∃ bs, parse_nonce (pre ++ l) n i = Ok bs ∧ length bs = n ∧ Forall is_byte bs ∧ (bs ≫= hex_padded 2) = l.
Proof.
  revert pre l i. induction n as [|n IH]; intros pre l i Hpre Hlen Hl.
  { exists []. by destruct l. }
  destruct l as [|c [|d l]]; [done|done|]. cbn in Hlen.
  change (c :: d :: l) with ([c; d] ++ l) in *. apply Forall_app in Hl as [Hcd Hl].
  cbn [parse_nonce]. rewrite slice_app by (cbn; lia).
  rewrite from_str_radix_lower by done. destruct (radix16_lower 255 [c; d] Hcd) as (b & -> & Hb & Hp); [done|].
  destruct (IH (pre ++ [c; d]) l (S i)) as (bs & Hbs & Hn & Hf & Hx); [rewrite length_app; cbn; lia|lia|done|].
  rewrite <- app_assoc in Hbs. cbn [app] in *. rewrite Hbs. exists (b :: bs). split_and!; [done|cbn; lia| |].
  - constructor; [|done]. unfold is_byte. cbn in Hb. lia.
  - rewrite bind_cons, Hx. exact (f_equal (.++ l) Hp).
Qed.

(** ** The identity *)

Lemma existsb_imap_false {A} (f : nat → A → bool) l :
  existsb (λ '(i, x), f i x) (imap pair l) = false ↔ ∀ i x, l !! i = Some x → f i x = false.
Proof.
  rewrite <- not_true_iff_false, existsb_exists. split.
  - intros Hn i x Hx. apply not_true_iff_false. intros Hf. apply Hn. exists (i, x). split; [|done].
    apply list_elem_of_In, list_elem_of_lookup. exists i. by rewrite list_lookup_imap, Hx.
  - intros Hall ([i x] & Hin%list_elem_of_In & Hf). apply list_elem_of_lookup in Hin as [j Hj].
    rewrite list_lookup_imap in Hj. destruct (l !! j) eqn:Hl; [|done]. injection Hj as <- <-.
    by rewrite (Hall _ _ Hl) in Hf.
Qed.

(** The guard of [from_str]: two runs of lower-case digits around a colon. *)
Lemma canonical_shape value :
  length value = 81 → value !! 16 = Some ":"%char →
  existsb (λ '(i, byte), negb (i =? 16) && negb (is_lower_hex byte)) (imap pair value) = false →
  ∃ l k, value = l ++ ":"%char :: k ∧ length l = 16 ∧ length k = 64 ∧
    Forall (λ c, is_lower_hex c = true) l ∧ Forall (λ c, is_lower_hex c = true) k.
Proof.
  intros Hlen Hc Hall.
  pose proof (proj1 (existsb_imap_false (λ i byte, negb (i =? 16) && negb (is_lower_hex byte)) _) Hall) as Hd.
  clear Hall. rename Hd into Hall. cbn beta in Hall. exists (take 16 value), (drop 17 value).
  pose proof (take_drop_middle value 16 _ Hc) as Heq. split_and!; [done| | | |].
  - rewrite length_take. lia.
  - rewrite length_drop. lia.
  - apply Forall_lookup. intros i x [Hi Hx]%lookup_take_Some. specialize (Hall _ _ Hi).
    apply andb_false_iff in Hall as [?%negb_false_iff%Nat.eqb_eq|?%negb_false_iff]; [lia|done].
  - apply Forall_lookup. intros i x. rewrite lookup_drop. intros Hx. specialize (Hall _ _ Hx).
    apply andb_false_iff in Hall as [?%negb_false_iff%Nat.eqb_eq|?%negb_false_iff]; [lia|done].
Qed.

(** Past its guard the parser reads the two runs. *)
Lemma from_str_shape l k :
  length l = 16 → length k = 64 →
  Forall (λ c, is_lower_hex c = true) l → Forall (λ c, is_lower_hex c = true) k →
  from_str (l ++ ":"%char :: k) =
    match radix16 u64_max 0 l with
    | None => Err (mkAdmissionDenied "invalid physical identity")
    | Some p => match parse_nonce ((l ++ [":"%char]) ++ k) 32 0 with
                | Err e => Err e
                | Ok nonce => Ok (mkReplicaId p nonce)
                end
    end.
Proof.
  intros Hl Hk Hfl Hfk. unfold from_str. rewrite (bool_decide_true (length _ = _)) by (rewrite length_app; cbn; lia).
  assert (Hc : (l ++ ":"%char :: k) !! 16 = Some ":"%char) by by (rewrite lookup_app_r, Hl by lia).
  rewrite (bool_decide_true (_ !! 16 = _)) by done. cbn [negb orb].
  rewrite (proj2 (existsb_imap_false (λ i byte, negb (i =? 16) && negb (is_lower_hex byte)) _)).
  2:{ intros i x Hx. destruct (Nat.eqb_spec i 16) as [|Hi]; [done|]. apply negb_false_iff.
      apply lookup_app_Some in Hx as [Hx|[Hge Hx]]; [exact (Forall_lookup_1 _ _ _ _ Hfl Hx)|].
      destruct (i - length l) as [|j] eqn:Hj; [lia|]. exact (Forall_lookup_1 _ _ _ _ Hfk Hx). }
  change (l ++ ":"%char :: k) with ([] ++ l ++ ":"%char :: k). rewrite slice_app by (cbn; lia).
  rewrite from_str_radix_lower by (done || by intros ->). cbn [app]. by rewrite <- app_assoc.
Qed.

(** The text form of a replica identity is canonical.  Parsing succeeds with an
    identity exactly if the identity is a 64-bit number with a 32-byte nonce and the
    string is what it displays as; so distinct identities have distinct texts and
    no second spelling (upper case, signs, other lengths) is accepted. *)
Theorem replica_text_canonical value r :
  from_str value = Ok r ↔ replica_wf r ∧ display r = value.
Proof.
  split.
  - intros Hp. assert (Hshape : ∃ l k, value = l ++ ":"%char :: k ∧ length l = 16 ∧ length k = 64 ∧
      Forall (λ c, is_lower_hex c = true) l ∧ Forall (λ c, is_lower_hex c = true) k).
    { unfold from_str in Hp. destruct (_ || _ || _) eqn:Hg; [done|]. guards. by apply canonical_shape. }
    destruct Hshape as (l & k & -> & Hl & Hk & Hfl & Hfk). rewrite from_str_shape in Hp by done.
    destruct (radix16_lower u64_max l Hfl) as (n & Hr & Hn & Hd); [rewrite Hl; by vm_compute|].
    destruct (parse_nonce_lower (l ++ [":"%char]) k 32 0) as (bs & Hb & Hlen & Hbytes & Hx);
      [rewrite length_app; cbn; lia|done..|].
    rewrite Hr, Hb in Hp. injection Hp as <-. split.
    + split_and!; [|done..]. rewrite Hl in Hn. change (n < 18446744073709551616)%N in Hn. cbn. unfold u64_max. lia.
    + unfold display. cbn [physical_id boot_nonce]. rewrite Hx. by rewrite <- Hl at 1; rewrite Hd.
  - intros [(Hid & Hlen & Hbytes) <-]. unfold display.
    destruct (nonce_text (boot_nonce r)) as [Hk Hlow]. rewrite Hlen in Hk.
    rewrite from_str_shape; [|by rewrite hex_padded_length|done|apply hex_padded_lower|done].
    rewrite radix16_padded; [|change (physical_id r < 18446744073709551616)%N; unfold u64_max in Hid; lia|done].
    rewrite <- Hlen, parse_nonce_display; [by destruct r| |done]. by rewrite length_app, hex_padded_length.
Qed.
