(* ===== verification/Openraft.v ===== *)
(** * The consensus library as an interface

    The Raft engine is the third-party crate [openraft]; nothing of it is
    modelled.  The daemon uses its log identifiers as plain data, reads the
    leader of a vote, and builds and reads a [Membership] through the functions
    of the class [Openraft].  [OpenraftLaws] states the documented facts about them that
    the theorems rely on, and [model_openraft] is an instance used to
    evaluate the definitions on concrete inputs. *)

From S2P Require Import Prelude Text Replica.

(** [openraft::LogId]: the identity of the leader that proposed the entry
    (its term and node) and the index of the entry. *)
Record LeaderId := mkLeaderId { leader_term : N; leader_node : ReplicaId }.
Record LogId := mkLogId { committed_leader_id : LeaderId; index : N }.

#[global] Instance LeaderId_eq_dec : EqDecision LeaderId.
Proof. solve_decision. Defined.
#[global] Instance LogId_eq_dec : EqDecision LogId.
Proof. solve_decision. Defined.

Class Openraft := {
  Membership : Type;
  Vote : Type;
  (** [Membership::default()]: no member at all. *)
  membership_default : Membership;
  (** [voter_ids()]: every voter of the union of the joint configurations. *)
  voter_ids : Membership → list ReplicaId;
  (** [nodes()]: every voter and learner, with its address. *)
  nodes : Membership → gmap ReplicaId Text;
  (** [learner_ids()]. *)
  learner_ids : Membership → list ReplicaId;
  (** [get_joint_config()]: the voter sets in force, one for a stable configuration. *)
  joint_config : Membership → list (gset ReplicaId);
  (** [Membership::new(configs, nodes)]; [None] is its [MembershipError]. *)
  membership_new : list (gset ReplicaId) → gmap ReplicaId Text → option Membership;
  (** [vote.leader_id().node_id()]. *)
  vote_node : Vote → ReplicaId;
  (** [Membership] derives [Eq]. *)
  membership_eq_dec :: EqDecision Membership
}.

(** The identities of [nodes()], in the order of the node table. *)
Definition node_ids {O : Openraft} (m : Membership) : list ReplicaId := btree_keys (dom (nodes m)).

(** [get_joint_config().len()]. *)
Definition joint_config_len {O : Openraft} (m : Membership) : nat := length (joint_config m).

Class OpenraftLaws (O : Openraft) : Prop := {
  (** [voter_ids] enumerates a set. *)
  voter_ids_NoDup m : NoDup (voter_ids m);
  (** The default membership has no voters. *)
  voter_ids_default : voter_ids membership_default = [];
  (** Every voter has an entry in the node table. *)
  voter_ids_nodes m r : r ∈ voter_ids m → r ∈ node_ids m;
  (** Learners are the nodes that do not vote. *)
  learner_ids_spec m r : r ∈ learner_ids m ↔ r ∈ node_ids m ∧ r ∉ voter_ids m;
  (** The voters are those of the joint configurations. *)
  voter_ids_joint m r : r ∈ voter_ids m ↔ ∃ vs, vs ∈ joint_config m ∧ r ∈ vs;
  (** A membership is made of the configurations and nodes it is built from. *)
  membership_new_spec cs ns m : membership_new cs ns = Some m → joint_config m = cs ∧ nodes m = ns
}.

(** [StoredMembership]: a membership and the log id that committed it. *)
Record StoredMembership {O : Openraft} := mkStoredMembership {
  membership_log_id : option LogId;
  membership : Membership
}.

#[global] Instance StoredMembership_eq_dec {O : Openraft} : EqDecision StoredMembership.
Proof. solve_decision. Defined.

(** ** A concrete instance *)

Record ModelMembership := mkModelMembership {
  model_configs : list (gset ReplicaId);
  model_learners : gset ReplicaId;
  model_addresses : gmap ReplicaId Text
}.

#[global] Instance ModelMembership_eq_dec : EqDecision ModelMembership.
Proof. solve_decision. Defined.

Definition model_voters (m : ModelMembership) : gset ReplicaId := ⋃ model_configs m.

Definition no_address : Text := [].

(** A member without an address has the empty one. *)
Definition model_nodes (m : ModelMembership) : gmap ReplicaId Text :=
  set_to_map (λ r, (r, default no_address (model_addresses m !! r))) (model_voters m ∪ model_learners m).

#[global] Instance model_openraft : Openraft := {|
  Membership := ModelMembership;
  Vote := N;
  membership_default := mkModelMembership [] ∅ ∅;
  voter_ids m := btree_keys (model_voters m);
  nodes := model_nodes;
  learner_ids m := btree_keys (model_learners m ∖ model_voters m);
  joint_config m := model_configs m;
  membership_new cs ns :=
    if decide (⋃ cs ⊆ dom ns) then Some (mkModelMembership cs (dom ns ∖ ⋃ cs) ns) else None;
  vote_node v := mkReplicaId v (replicate 32 0%N)
|}.

Lemma lookup_model_nodes m r a :
  model_nodes m !! r = Some a ↔
  r ∈ model_voters m ∪ model_learners m ∧ a = default no_address (model_addresses m !! r).
Proof.
  unfold model_nodes. rewrite lookup_set_to_map by done. split.
  - intros (x & Hx & [= -> ->]). done.
  - intros [Hr ->]. by exists r.
Qed.

Lemma dom_model_nodes m : dom (model_nodes m) = model_voters m ∪ model_learners m.
Proof.
  apply set_eq. intros r. rewrite elem_of_dom. split.
  - intros [a Ha]. by apply lookup_model_nodes in Ha as [Hr _].
  - intros Hr. eexists. by apply lookup_model_nodes.
Qed.

#[global] Instance model_openraft_laws : OpenraftLaws model_openraft.
Proof.
  split.
  - intros m. apply btree_keys_NoDup.
  - done.
  - intros m r. unfold node_ids. cbn. rewrite dom_model_nodes, !elem_of_btree_keys. set_solver.
  - intros m r. unfold node_ids. cbn. rewrite dom_model_nodes, !elem_of_btree_keys. set_solver.
  - intros m r. cbn. rewrite elem_of_btree_keys. unfold model_voters. rewrite elem_of_union_list. set_solver.
  - intros cs ns m. cbn. case_decide as Hsub; [|done]. intros [= <-]. split; [done|].
    apply map_eq. intros r. apply option_eq. intros a. rewrite lookup_model_nodes.
    cbn [model_voters model_configs model_learners model_addresses]. rewrite <- union_difference_L by done.
    rewrite elem_of_dom. split; [intros [[b Hb] ->]; by rewrite Hb|]. intros Ha. by rewrite Ha.
Qed.
