(* ===== verification/Admission.v ===== *)
(** * Admission records (src/raft/admission.rs, src/raft/admission/membership.rs)

    The immutable genesis of a cluster incarnation, the local admission
    session, health progress and the replicated learner-join operations, with
    their validation functions. *)

From S2P Require Import Prelude Text Replica Openraft.
Local Open Scope kaf_scope.

(** [ClusterConfigFingerprint] (src/config/fingerprint.rs). *)
Record ClusterConfigFingerprint := mkClusterConfigFingerprint {
  version : N;
  config_digest : list N
}.

#[global] Instance ClusterConfigFingerprint_eq_dec : EqDecision ClusterConfigFingerprint.
Proof. solve_decision. Defined.

Record Genesis := mkGenesis {
  config : ClusterConfigFingerprint;
  epoch : N;
  voters : gset ReplicaId
}.

#[global] Instance Genesis_eq_dec : EqDecision Genesis.
Proof. solve_decision. Defined.

(** The bytes [Genesis::digest] feeds to SHA-256. *)
Definition genesis_preimage (g : Genesis) : list N :=
  ascii_bytes "keepafloatd-admission-genesis" ++ [0%N]
  ++ [3%N; 1%N; version (config g)]
  ++ config_digest (config g)
  ++ be_bytes 16 (epoch g)
  ++ be_bytes 8 (N.of_nat (size (voters g)))
  ++ (btree_keys (voters g) ≫= λ r, be_bytes 8 (physical_id r) ++ boot_nonce r).

(** [Genesis::digest]; the hash is the [sha2] crate's. *)
Definition digest (sha256 : list N → list N) (g : Genesis) : list N :=
  sha256 (genesis_preimage g).

(** The distinct physical members of a set of replicas. *)
Definition physical_ids (rs : gset ReplicaId) : gset N := set_map physical_id rs.

(** [Genesis::validate_roster]. *)
Definition validate_roster (g : Genesis) (configured : gset N) : Result unit AdmissionDenied :=
  let physical := physical_ids (voters g) in
  if negb (bool_decide (size physical = size (voters g)))
     || negb (bool_decide (physical ⊆ configured))
     || bool_decide (size physical ≤ size configured / 2)
  then Err (mkAdmissionDenied "genesis is not a distinct configured physical majority")
  else Ok tt.

Record AdmissionContext := mkAdmissionContext {
  local_replica : ReplicaId;
  context_genesis : Genesis
}.

#[global] Instance AdmissionContext_eq_dec : EqDecision AdmissionContext.
Proof. solve_decision. Defined.

(** [tokio::time::Instant], in an arbitrary unit. *)
Definition Instant : Type := N.

(** The object behind [Arc<dyn AdmissionFence>]: its boot, and its answer to
    [check] at a given instant. *)
Record AdmissionFence := mkAdmissionFence {
  fence_local_replica : ReplicaId;
  fence_check : Instant → AdmissionContext → Result Instant AdmissionDenied
}.

Record AdmissionSession := mkAdmissionSession {
  context : AdmissionContext;
  fence : AdmissionFence
}.

(** [AdmissionSession::check], at the instant [now].  The code reads the clock in the fence
    and once more here, with nothing in between; both are [now]. *)
Definition session_check (s : AdmissionSession) (now : Instant) : Result Instant AdmissionDenied :=
  deadline <-? fence_check (fence s) now (context s);
  if (deadline <=? now)%N
  then Err (mkAdmissionDenied "admission deadline expired")
  else Ok deadline.

(** [AdmissionSession::new]. *)
Definition session_new (c : AdmissionContext) (f : AdmissionFence) (now : Instant)
  : Result AdmissionSession AdmissionDenied :=
  if bool_decide (fence_local_replica f = local_replica c) then
    let session := mkAdmissionSession c f in
    session_check session now ;?
    Ok session
  else Err (mkAdmissionDenied "runtime boot differs from admission context").

Record HealthProgress := mkHealthProgress {
  node_id : N;
  healthy : option bool;
  replica : ReplicaId;
  progress_epoch : N;
  request_nonce : list N;
  genesis : Genesis
}.

#[global] Instance HealthProgress_eq_dec : EqDecision HealthProgress.
Proof. solve_decision. Defined.

(** [HealthProgress::validate]. *)
Definition progress_validate (p : HealthProgress) : Result unit AdmissionDenied :=
  if negb (bool_decide (node_id p = physical_id (replica p)))
     || negb (bool_decide (progress_epoch p = epoch (genesis p)))
  then Err (mkAdmissionDenied "progress identity or epoch mismatch")
  else Ok tt.

Record AppliedHealthProgress := mkAppliedHealthProgress {
  request : HealthProgress;
  log_id : LogId
}.

#[global] Instance AppliedHealthProgress_eq_dec : EqDecision AppliedHealthProgress.
Proof. solve_decision. Defined.

(** ** Learner admission (src/raft/admission/membership.rs) *)

Record JoinPlan := mkJoinPlan {
  plan_genesis : Genesis;
  consumer : ReplicaId;
  plan_nonce : list N;
  previous_voters : gset ReplicaId;
  next_voters : gset ReplicaId
}.

#[global] Instance JoinPlan_eq_dec : EqDecision JoinPlan.
Proof. solve_decision. Defined.

(** [JoinPlan::validate]. *)
Definition plan_validate (p : JoinPlan) : Result unit AdmissionDenied :=
  let expected :=
    {[ consumer p ]}
    ∪ filter (λ r, physical_id r ≠ physical_id (consumer p)) (previous_voters p) in
  let physical := physical_ids (previous_voters p) in
  if bool_decide (previous_voters p = ∅)
     || negb (bool_decide (size physical = size (previous_voters p)))
     || bool_decide (consumer p ∈ previous_voters p)
     || negb (bool_decide (next_voters p = expected))
  then Err (mkAdmissionDenied "join plan is not one exact boot replacement")
  else Ok tt.

Record PreparedJoin := mkPreparedJoin {
  plan : JoinPlan;
  prepared : LogId;
  learner_applied : option LogId
}.

#[global] Instance PreparedJoin_eq_dec : EqDecision PreparedJoin.
Proof. solve_decision. Defined.

Record CompletedJoin := mkCompletedJoin {
  completed_prepared : PreparedJoin;
  promoted : LogId
}.

#[global] Instance CompletedJoin_eq_dec : EqDecision CompletedJoin.
Proof. solve_decision. Defined.

Inductive AdmissionCommand :=
| PrepareJoin (p : JoinPlan)
| CancelJoin (p : JoinPlan) (prep : LogId)
| LearnerApplied (c : ReplicaId) (nonce : list N) (prep : LogId).

#[global] Instance AdmissionCommand_eq_dec : EqDecision AdmissionCommand.
Proof. solve_decision. Defined.
