(* ===== verification/Types.v ===== *)
(** * Replicated data types (src/raft/types.rs, src/raft/store/state.rs, src/config.rs)

    IP addresses with their standard-library order, the VIP record of the
    configuration, the fenced VIP assignment and the commands of the Raft log. *)

From S2P Require Import Prelude Text Replica Openraft Admission.

(** [std::net::IpAddr]: the numeric value of the four or sixteen octets. *)
Inductive IpAddr :=
| V4 (bits : N)
| V6 (bits : N).

#[global] Instance IpAddr_eq_dec : EqDecision IpAddr.
Proof. solve_decision. Defined.

#[global] Instance IpAddr_countable : Countable IpAddr.
Proof.
  apply (inj_countable' (λ a, match a with V4 b => inl b | V6 b => inr b end)
                        (λ s, match s with inl b => V4 b | inr b => V6 b end)).
  by intros [].
Defined.

(** The derived order: every IPv4 address before every IPv6 address. *)
Definition ip_le (a b : IpAddr) : Prop :=
  match a, b with
  | V4 x, V4 y => (x ≤ y)%N
  | V4 _, V6 _ => True
  | V6 _, V4 _ => False
  | V6 x, V6 y => (x ≤ y)%N
  end.

#[global] Instance ip_le_dec : RelDecision ip_le.
Proof. intros [x|x] [y|y]; simpl; apply _. Defined.

#[global] Instance IpAddr_ordkey : OrdKey IpAddr.
Proof.
  refine {| kle := ip_le |}.
  - intros [x|x] [y|y] [z|z]; simpl; try done; lia.
  - intros [x|x] [y|y]; simpl; try done; intros; f_equal; lia.
  - intros [x|x] [y|y]; simpl; auto; lia.
Defined.

(** [VipAddr] (src/config.rs). *)
Record VipAddr := mkVipAddr { addr : IpAddr; prefix : N }.

#[global] Instance VipAddr_eq_dec : EqDecision VipAddr.
Proof. solve_decision. Defined.

(** [FailoverSemantics]. *)
Inductive FailoverSemantics := Legacy | V2.

#[global] Instance FailoverSemantics_eq_dec : EqDecision FailoverSemantics.
Proof. solve_decision. Defined.

(** [KafRequest]: the commands replicated through Raft. *)
Inductive KafRequest :=
| HealthProgressReq (progress : HealthProgress)
| AdmissionGenesis (genesis : Genesis)
| AdmissionMembership (command : AdmissionCommand)
| HealthUpdate (node_id : N) (healthy : bool)
| VipReleased (node_id : N) (vip : IpAddr) (generation : N)
| ClusterFormed (cluster_id : N) (failover_semantics : FailoverSemantics)
    (config_identity_enforced : bool)
| EnableFailoverSemanticsV2
| EnableConfigIdentityV1.

#[global] Instance KafRequest_eq_dec : EqDecision KafRequest.
Proof. solve_decision. Defined.

(** [KafRequest::node_id]: the member that originated a node-scoped request. *)
Definition request_node_id (r : KafRequest) : option N :=
  match r with
  | HealthProgressReq progress => Some (node_id progress)
  | AdmissionGenesis _ | AdmissionMembership _ => None
  | HealthUpdate node_id _ | VipReleased node_id _ _ => Some node_id
  | ClusterFormed _ _ _ | EnableFailoverSemanticsV2 | EnableConfigIdentityV1 => None
  end.

(** [KafResponse]. *)
Inductive KafResponse :=
| KafOk
| Rejected (reason : string).

#[global] Instance KafResponse_eq_dec : EqDecision KafResponse.
Proof. solve_decision. Defined.

(** [EntryPayload] and [EntryOf<TypeConfig>]: one entry of the Raft log. *)
Inductive EntryPayload {O : Openraft} :=
| Blank
| Normal (req : KafRequest)
| MembershipChange (mem : Membership).

Record Entry {O : Openraft} := mkEntry {
  entry_log_id : LogId;
  payload : EntryPayload
}.

(** [OWNERSHIP_ACTIVATION_HOLDOFF_TICKS]. *)
Definition OWNERSHIP_ACTIVATION_HOLDOFF_TICKS : N := 1.

(** [VipAssignment]. *)
Record VipAssignment := mkVipAssignment {
  holder : N;
  generation : N;
  previous_holder : option N;
  previous_holder_released : bool;
  activation_tick : N
}.

#[global] Instance VipAssignment_eq_dec : EqDecision VipAssignment.
Proof. solve_decision. Defined.
