(* ===== verification/VipLogic.v ===== *)
(** * VIP eligibility and assignment (src/raft/store/vip_logic.rs)

    The pure functions of the replicated decision, one definition per
    function.  The nodes are [u64] identifiers, a load is a [usize] count, and
    the three passes of the assignment are the three loops of the source over
    one explicit placement state. *)

From S2P Require Import Prelude Text Replica Openraft Admission Types.

(** ** Load extremes *)

(** [extreme_loaded_node]: the fold of the [for] loop over the ordered map. *)
Definition extreme_loaded_node (load : gmap N nat) (keep_current : nat → nat → bool)
  : option (N * nat) :=
  foldl (λ best '(id, l),
    match best with
    | Some (_, bl) => if keep_current l bl then best else Some (id, l)
    | None => Some (id, l)
    end) None (btree_iter load).

Definition least_loaded_node (load : gmap N nat) : option (N * nat) :=
  extreme_loaded_node load (λ l bl, bl <=? l).

Definition most_loaded_node (load : gmap N nat) : option (N * nat) :=
  extreme_loaded_node load (λ l bl, l <=? bl).

(** ** Assignment *)

(** The mutable variables [out], [load] and [held] of the assignment. *)
Record Placement := mkPlacement {
  out : gmap IpAddr N;
  load : gmap N nat;
  held : gmap N (gset IpAddr)
}.

(** [out.insert(vip, node); *load.entry(node).or_insert(0) += 1;
    held.entry(node).or_default().insert(vip)]. *)
Definition place (vip : IpAddr) (node : N) (p : Placement) : Placement := {|
  out := <[vip := node]> (out p);
  load := <[node := S (default 0 (load p !! node))]> (load p);
  held := <[node := {[vip]} ∪ default ∅ (held p !! node)]> (held p)
|}.

(** Pass 1: keep the VIPs whose holder is still eligible, collect the rest. *)
Definition keep_pass (eligible_set : gset N) (current_holders : gmap IpAddr N)
    (vips_sorted : list IpAddr) (p : Placement) : Placement * list IpAddr :=
  foldl (λ '(p, orphans) vip,
    match current_holders !! vip with
    | Some h => if bool_decide (h ∈ eligible_set) then (place vip h p, orphans)
                else (p, orphans ++ [vip])
    | None => (p, orphans ++ [vip])
    end) (p, []) vips_sorted.

(** Pass 2: place each orphan on the least-loaded node. *)
Fixpoint orphan_pass (orphans : list IpAddr) (p : Placement) : Placement :=
  match orphans with
  | [] => p
  | vip :: orphans =>
      match least_loaded_node (load p) with
      | None => p
      | Some (target, _) => orphan_pass orphans (place vip target p)
      end
  end.

(** The loads of the nodes that may receive a proactive move. *)
Definition receiver_load (receiver_set : gset N) (load : gmap N nat) : gmap N nat :=
  filter (λ kv, kv.1 ∈ receiver_set) load.

(** The updates of one iteration of pass 3: the VIP leaves the donor's set and
    load and enters the receiver's. *)
Definition move_vip (vip : IpAddr) (donor recv : N) (p : Placement) : Placement :=
  let held1 := alter (λ s, s ∖ {[vip]}) donor (held p) in
  let load1 := alter pred donor (load p) in
  {| out := <[vip := recv]> (out p);
     load := <[recv := S (default 0 (load1 !! recv))]> load1;
     held := <[recv := {[vip]} ∪ default ∅ (held1 !! recv)]> held1 |}.

(** One iteration of the loop of pass 3; [None] is a [break]. *)
Definition rebalance_step (receiver_set : gset N) (p : Placement) : option Placement :=
  '(donor, donor_load) ← most_loaded_node (load p);
  '(recv, recv_load) ← least_loaded_node (receiver_load receiver_set (load p));
  if donor_load - recv_load <=? 1 then None else
  vip ← held p !! donor ≫= λ s, last (btree_keys s);
  Some (move_vip vip donor recv p).

(** Pass 3: the [while let] loop. *)
Fixpoint rebalance (fuel : nat) (receiver_set : gset N) (p : Placement) : Placement :=
  match fuel with
  | 0 => p
  | S fuel =>
      match rebalance_step receiver_set p with
      | None => p
      | Some p' => rebalance fuel receiver_set p'
      end
  end.

(** The sum of the squared loads, which every iteration of pass 3 lowers. *)
Definition load_energy (load : gmap N nat) : nat :=
  sum_list_with (λ n, default 0 (load !! n) * default 0 (load !! n)) (elements (dom load)).

Definition rebalance_fuel (p : Placement) : nat := S (load_energy (load p)).

(** [assign_vips_minimal_movement_with_receivers]. *)
Definition assign_vips_minimal_movement_with_receivers
    (eligible rebalance_receivers : list N) (vip_addrs_in_order : list IpAddr)
    (current_holders : gmap IpAddr N) : gmap IpAddr N :=
  match eligible with
  | [] => ∅
  | _ =>
      let eligible_set : gset N := list_to_set eligible in
      let p0 := {| out := ∅;
                   load := list_to_map ((λ id, (id, 0)) <$> eligible);
                   held := ∅ |} in
      let vips_sorted := sort_unstable vip_addrs_in_order in
      let '(p1, orphans) := keep_pass eligible_set current_holders vips_sorted p0 in
      let p2 := orphan_pass orphans p1 in
      let receiver_set : gset N := list_to_set rebalance_receivers in
      out (rebalance (rebalance_fuel p2) receiver_set p2)
  end.

(** [assign_vips_minimal_movement]. *)
Definition assign_vips_minimal_movement (eligible : list N)
    (vip_addrs_in_order : list IpAddr) (current_holders : gmap IpAddr N) : gmap IpAddr N :=
  assign_vips_minimal_movement_with_receivers eligible eligible vip_addrs_in_order current_holders.

(** [assign_vips_round_robin_eligible], the cold-start oracle of the test suite. *)
Definition assign_vips_round_robin_eligible (eligible : list N)
    (vip_addrs_in_order : list IpAddr) : gmap IpAddr N :=
  match eligible with
  | [] => ∅
  | _ =>
      foldl (λ out '(i, vip),
        match eligible !! (i mod length eligible) with
        | Some h => <[vip := h]> out
        | None => out
        end) ∅ (imap pair vip_addrs_in_order)
  end.

(** ** Eligibility *)

(** [EligibilityInputs]. *)
Record EligibilityInputs := mkEligibilityInputs {
  inputs_node_health : gmap N bool;
  inputs_node_probe_ticks : gmap N N;
  inputs_latest_probe_tick : N;
  inputs_stale_missed_probes : N;
  inputs_failback_delay_ticks : N;
  inputs_node_recovery_tick : gmap N N
}.

(** [is_node_probe_fresh]. *)
Definition is_node_probe_fresh (node_id : N) (node_probe_ticks : gmap N N)
    (latest_probe_tick stale_missed_probes : N) : bool :=
  match node_probe_ticks !! node_id with
  | None => false
  | Some last_tick =>
      bool_decide (u64_saturating_sub latest_probe_tick last_tick ≤ stale_missed_probes)%N
  end.

(** [is_node_base_eligible]. *)
Definition is_node_base_eligible (node_id : N) (node_health : gmap N bool)
    (node_probe_ticks : gmap N N) (latest_probe_tick stale_missed_probes : N) : bool :=
  if negb (default false (node_health !! node_id)) then false
  else is_node_probe_fresh node_id node_probe_ticks latest_probe_tick stale_missed_probes.

(** [is_node_eligible]. *)
Definition is_node_eligible (node_id : N) (inputs : EligibilityInputs)
    (node_failback_blocked : gset N) : bool :=
  if bool_decide (node_id ∈ node_failback_blocked) then false
  else if negb (is_node_base_eligible node_id (inputs_node_health inputs)
                  (inputs_node_probe_ticks inputs) (inputs_latest_probe_tick inputs)
                  (inputs_stale_missed_probes inputs)) then false
  else match inputs_node_recovery_tick inputs !! node_id with
       | Some recovery_tick =>
           if bool_decide (u64_saturating_sub (inputs_latest_probe_tick inputs) recovery_tick
                             < inputs_failback_delay_ticks inputs)%N
           then false else true
       | None => true
       end.

(** [next_probe_tick]. *)
Definition next_probe_tick (prev : option N) (latest_probe_tick : N) : N :=
  N.max (u64_saturating_add (default 0%N prev) 1) latest_probe_tick.

(** [unique_voters] (src/raft/store/membership.rs): the loop that inserts every
    voter and remembers the physical ids seen twice, then the [retain]. *)
Definition unique_voters {O : Openraft} (m : Membership) : gmap N ReplicaId :=
  let '(voters, ambiguous) :=
    foldl (λ '(voters, ambiguous) r,
      (<[physical_id r := r]> voters,
       match voters !! physical_id r with
       | Some _ => {[physical_id r]} ∪ ambiguous
       | None => ambiguous
       end)) (∅ : gmap N ReplicaId, ∅ : gset N) (voter_ids m) in
  filter (λ kv, kv.1 ∉ ambiguous) voters.

(** [eligible_nodes]. *)
Definition eligible_nodes {O : Openraft} (m : StoredMembership) (inputs : EligibilityInputs)
    (node_failback_blocked : gset N) : list N :=
  let members := sort_unstable (btree_iter (unique_voters (membership m))).*1 in
  filter (λ id, is_node_eligible id inputs node_failback_blocked = true) members.

(** [recompute_vip_holder]. *)
Definition recompute_vip_holder {O : Openraft} (m : StoredMembership)
    (inputs : EligibilityInputs) (node_failback_blocked : gset N)
    (vip_list : list (VipAddr * Text)) (current_holders : gmap IpAddr N) : gmap IpAddr N :=
  let eligible := eligible_nodes m inputs node_failback_blocked in
  let vips := addr <$> vip_list.*1 in
  assign_vips_minimal_movement eligible vips current_holders.

(** [recompute_vip_holder_v2]. *)
Definition recompute_vip_holder_v2 {O : Openraft} (m : StoredMembership)
    (inputs : EligibilityInputs) (node_nopreempt : gset N)
    (vip_list : list (VipAddr * Text)) (current_holders : gmap IpAddr N) : gmap IpAddr N :=
  let eligible := eligible_nodes m inputs ∅ in
  let rebalance_receivers := filter (λ id, id ∉ node_nopreempt) eligible in
  let vips := addr <$> vip_list.*1 in
  assign_vips_minimal_movement_with_receivers eligible rebalance_receivers vips current_holders.

(** ** Fencing *)

(** The three maps [reconcile_vip_assignments] mutates, with the [next] map it
    builds. *)
Record Fences := mkFences {
  old_assignments : gmap IpAddr VipAssignment;
  next : gmap IpAddr VipAssignment;
  fences_generation : gmap IpAddr N;
  fences_last_holder : gmap IpAddr N
}.

(** The body of the loop over [vip_list], for one VIP. *)
Definition reconcile_vip (new_holders : gmap IpAddr N) (latest_probe_tick : N)
    (f : Fences) (vip : IpAddr) : Fences :=
  let next_holder := new_holders !! vip in
  let old_assignment := old_assignments f !! vip in
  let out_assignments := delete vip (old_assignments f) in
  let current_generation := default 0%N (fences_generation f !! vip) in
  let vip_last_holder :=
    match old_assignment with
    | Some assignment => <[vip := holder assignment]> (fences_last_holder f)
    | None => fences_last_holder f
    end in
  match next_holder with
  | None => mkFences out_assignments (next f) (fences_generation f) vip_last_holder
  | Some h =>
      let bumped := u64_saturating_add current_generation 1 in
      let '(assignment, vip_generation) :=
        match old_assignment with
        | Some existing =>
            if bool_decide (holder existing = h) then (existing, fences_generation f)
            else
              (mkVipAssignment h bumped (Some (holder existing)) false
                 (u64_saturating_add latest_probe_tick OWNERSHIP_ACTIVATION_HOLDOFF_TICKS),
               <[vip := bumped]> (fences_generation f))
        | None =>
            let previous_holder := vip_last_holder !! vip in
            let activation_tick :=
              if bool_decide (current_generation = 0%N) then latest_probe_tick
              else u64_saturating_add latest_probe_tick OWNERSHIP_ACTIVATION_HOLDOFF_TICKS in
            (mkVipAssignment h bumped previous_holder
               (bool_decide (previous_holder = None)) activation_tick,
             <[vip := bumped]> (fences_generation f))
        end in
      mkFences out_assignments (<[vip := assignment]> (next f)) vip_generation
        (<[vip := h]> vip_last_holder)
  end.

(** [reconcile_vip_assignments]: the new assignments, generations and last holders. *)
Definition reconcile_vip_assignments (new_holders : gmap IpAddr N) (latest_probe_tick : N)
    (vip_list : list (VipAddr * Text)) (out_assignments : gmap IpAddr VipAssignment)
    (vip_generation vip_last_holder : gmap IpAddr N)
  : gmap IpAddr VipAssignment * gmap IpAddr N * gmap IpAddr N :=
  let f := foldl (λ f '(v, _), reconcile_vip new_holders latest_probe_tick f (addr v))
             (mkFences out_assignments ∅ vip_generation vip_last_holder) vip_list in
  (next f, fences_generation f, fences_last_holder f).
