(* ===== verification/VipPlacement.v ===== *)
(** * The assignment keeps, places and balances (src/raft/store/vip_logic.rs)

    Facts about the three passes of
    [assign_vips_minimal_movement_with_receivers]: the placement invariant
    that ties the working maps together, termination of the rebalance loop,
    and the soundness, balance and stability of the result. *)

From S2P Require Import Prelude Text Replica Openraft Admission Types VipLogic.

(** ** Load extremes *)

Section extreme.
Context (keep : nat → nat → bool).
Context (keep_trans : ∀ a b c, keep a b = true → keep b c = true → keep a c = true).
Context (keep_total : ∀ a b, keep a b = true ∨ keep b a = true).

Let pick (best : option (N * nat)) (x : N * nat) : option (N * nat) :=
  let '(id, l) := x in
  match best with
  | Some (_, bl) => if keep l bl then best else Some (id, l)
  | None => Some (id, l)
  end.

Lemma foldl_pick_spec (L : list (N * nat)) :
  StronglySorted fst_le L →
  match foldl pick None L with
  | None => L = []
  | Some (id, l) =>
      (id, l) ∈ L ∧
      ∀ id' l', (id', l') ∈ L → keep l' l = true ∧ (keep l l' = true → (id ≤ id')%N)
  end.
Proof.
  induction L as [|[id l] L IH] using rev_ind; [done|]. intros Hs.
  apply StronglySorted_app in Hs as (Hlt & HsL & _). specialize (IH HsL).
  rewrite foldl_snoc. destruct (foldl pick None L) as [[b bl]|]; simpl.
  - destruct IH as [Hin Hbest]. destruct (keep l bl) eqn:Hk.
    + split; [set_solver|]. intros id' l' [Hin'|Hin']%elem_of_app; [by apply Hbest|].
      apply list_elem_of_singleton in Hin'. simplify_eq.
      split; [done|]. intros _. apply (Hlt (b, bl) (id, l)); set_solver.
    + assert (keep bl l = true) by (destruct (keep_total bl l); congruence).
      split; [set_solver|]. intros id' l' [Hin'|Hin']%elem_of_app.
      * destruct (Hbest _ _ Hin') as [Hk' _]. split; [by eapply keep_trans|].
        intros Hk2. rewrite (keep_trans _ _ _ Hk2 Hk') in Hk. done.
      * apply list_elem_of_singleton in Hin'. simplify_eq. split; [|lia].
        by destruct (keep_total l l).
  - subst L. split; [set_solver|]. intros id' l' Hin'.
    apply list_elem_of_singleton in Hin'. simplify_eq. split; [|lia].
    by destruct (keep_total l l).
Qed.

Lemma extreme_loaded_node_spec (load : gmap N nat) :
  match extreme_loaded_node load keep with
  | None => load = ∅
  | Some (id, l) =>
      load !! id = Some l ∧
      ∀ id' l', load !! id' = Some l' → keep l' l = true ∧ (keep l l' = true → (id ≤ id')%N)
  end.
Proof.
  pose proof (foldl_pick_spec _ (btree_iter_sorted load)) as Hspec.
  unfold extreme_loaded_node. fold pick.
  destruct (foldl pick None (btree_iter load)) as [[id l]|].
  - destruct Hspec as [Hin Hbest]. split; [by apply elem_of_btree_iter|].
    intros id' l' Hl. apply Hbest. by apply elem_of_btree_iter.
  - apply map_to_list_empty_iff. apply Permutation_nil_r.
    by rewrite <- Hspec, btree_iter_perm.
Qed.
End extreme.

Lemma least_loaded_node_spec (load : gmap N nat) :
  match least_loaded_node load with
  | None => load = ∅
  | Some (id, l) =>
      load !! id = Some l ∧
      ∀ id' l', load !! id' = Some l' → l ≤ l' ∧ (l' = l → (id ≤ id')%N)
  end.
Proof.
  pose proof (extreme_loaded_node_spec (λ l bl, bl <=? l)) as Hs.
  unfold least_loaded_node.
  specialize (Hs ltac:(intros ???; rewrite !Nat.leb_le; lia)
                 ltac:(intros ??; rewrite !Nat.leb_le; lia) load).
  destruct extreme_loaded_node as [[id l]|]; [|done]. destruct Hs as [Hl Hb].
  split; [done|]. intros id' l' Hl'. destruct (Hb _ _ Hl') as [H1 H2].
  apply Nat.leb_le in H1. split; [done|]. intros ->. apply H2, Nat.leb_refl.
Qed.

Lemma most_loaded_node_spec (load : gmap N nat) :
  match most_loaded_node load with
  | None => load = ∅
  | Some (id, l) =>
      load !! id = Some l ∧
      ∀ id' l', load !! id' = Some l' → l' ≤ l ∧ (l' = l → (id ≤ id')%N)
  end.
Proof.
  pose proof (extreme_loaded_node_spec (λ l bl, l <=? bl)) as Hs.
  unfold most_loaded_node.
  specialize (Hs ltac:(intros ???; rewrite !Nat.leb_le; lia)
                 ltac:(intros ??; rewrite !Nat.leb_le; lia) load).
  destruct extreme_loaded_node as [[id l]|]; [|done]. destruct Hs as [Hl Hb].
  split; [done|]. intros id' l' Hl'. destruct (Hb _ _ Hl') as [H1 H2].
  apply Nat.leb_le in H1. split; [done|]. intros ->. apply H2, Nat.leb_refl.
Qed.

(** ** The placement invariant *)

Definition held_by (p : Placement) (n : N) : gset IpAddr := default ∅ (held p !! n).
Definition load_at (p : Placement) (n : N) : nat := default 0 (load p !! n).

(** The three maps describe one assignment of distinct VIPs to nodes of [E]. *)
Record placement_wf (E : gset N) (p : Placement) : Prop := {
  wf_dom : dom (load p) = E;
  wf_load : ∀ n, n ∈ E → load_at p n = size (held_by p n);
  wf_held : ∀ n v, v ∈ held_by p n ↔ out p !! v = Some n;
  wf_range : ∀ v n, out p !! v = Some n → n ∈ E
}.

Lemma load_at_lookup E p n :
  placement_wf E p → n ∈ E → load p !! n = Some (load_at p n).
Proof.
  intros Hwf Hn. rewrite <- (wf_dom _ _ Hwf) in Hn. apply elem_of_dom in Hn as [l Hl].
  unfold load_at. by rewrite Hl.
Qed.

Lemma load_lookup_E E p n l :
  placement_wf E p → load p !! n = Some l → n ∈ E ∧ l = load_at p n.
Proof.
  intros Hwf Hl. split.
  - rewrite <- (wf_dom _ _ Hwf). by apply elem_of_dom_2 in Hl.
  - unfold load_at. by rewrite Hl.
Qed.

Lemma held_by_place v n p m :
  held_by (place v n p) m = if decide (n = m) then {[v]} ∪ held_by p m else held_by p m.
Proof.
  unfold held_by, place. simpl. rewrite lookup_insert.
  case_decide as Hd; [by subst|done].
Qed.

Lemma load_at_place v n p m :
  load_at (place v n p) m = if decide (n = m) then S (load_at p m) else load_at p m.
Proof.
  unfold load_at, place. simpl. rewrite lookup_insert.
  case_decide as Hd; [by subst|done].
Qed.

Lemma place_wf E v n p :
  placement_wf E p → n ∈ E → out p !! v = None → placement_wf E (place v n p).
Proof.
  intros Hwf Hn Hv. split.
  - simpl. rewrite dom_insert_L, (wf_dom _ _ Hwf). set_solver.
  - intros m Hm. rewrite load_at_place, held_by_place. case_decide as Hd.
    + subst m. rewrite size_union, size_singleton, (wf_load _ _ Hwf) by
        (try done; rewrite disjoint_singleton_l, (wf_held _ _ Hwf); congruence). lia.
    + by apply (wf_load _ _ Hwf).
  - intros m w. rewrite held_by_place. simpl. rewrite lookup_insert.
    pose proof (wf_held _ _ Hwf m w). case_decide; case_decide; set_solver.
  - intros w m. simpl. rewrite lookup_insert. case_decide; [|apply (wf_range _ _ Hwf)].
    intros. by simplify_eq.
Qed.

Definition initial_placement (eligible : list N) : Placement :=
  {| out := ∅; load := list_to_map ((λ id, (id, 0)) <$> eligible); held := ∅ |}.

Lemma initial_placement_load eligible n :
  load (initial_placement eligible) !! n = if decide (n ∈ eligible) then Some 0 else None.
Proof.
  unfold initial_placement. cbn [load]. induction eligible as [|m l IH]; [done|].
  rewrite fmap_cons, list_to_map_cons, lookup_insert. destruct (decide (m = n)) as [->|Hd].
  - rewrite decide_True; [done|constructor].
  - rewrite IH. apply decide_ext. rewrite elem_of_cons. naive_solver.
Qed.

Lemma initial_placement_wf eligible :
  placement_wf (list_to_set eligible) (initial_placement eligible).
Proof.
  split.
  - apply set_eq. intros n. rewrite elem_of_dom, initial_placement_load, elem_of_list_to_set.
    case_decide; split; intros Hn; done || by destruct Hn.
  - intros n Hn%elem_of_list_to_set. unfold load_at. rewrite initial_placement_load.
    by rewrite decide_True.
  - intros n v. unfold held_by. simpl. rewrite !lookup_empty. simpl. set_solver.
  - intros v n. simpl. by rewrite lookup_empty.
Qed.

(** ** Pass 1 *)

(** The holder a VIP keeps: its current one, when still eligible. *)
Definition kept_holder (E : gset N) (current_holders : gmap IpAddr N) (v : IpAddr) : option N :=
  match current_holders !! v with
  | Some h => if bool_decide (h ∈ E) then Some h else None
  | None => None
  end.

Lemma kept_holder_Some E cur v h :
  kept_holder E cur v = Some h ↔ cur !! v = Some h ∧ h ∈ E.
Proof.
  unfold kept_holder. destruct (cur !! v) as [h'|]; [|naive_solver].
  case_bool_decide; naive_solver.
Qed.

Lemma keep_pass_snoc E cur vs v p :
  keep_pass E cur (vs ++ [v]) p =
  let '(p', orphans) := keep_pass E cur vs p in
  match kept_holder E cur v with
  | Some h => (place v h p', orphans)
  | None => (p', orphans ++ [v])
  end.
Proof.
  unfold keep_pass, kept_holder. rewrite foldl_snoc.
  destruct (foldl _ (p, []) vs) as [p' orphans].
  destruct (cur !! v); [|done]. by case_bool_decide.
Qed.

Lemma keep_pass_spec E cur vs p :
  placement_wf E p → out p = ∅ → NoDup vs →
  let '(p', orphans) := keep_pass E cur vs p in
  placement_wf E p' ∧
  (∀ v, out p' !! v = if decide (v ∈ vs) then kept_holder E cur v else None) ∧
  orphans = filter (λ v, kept_holder E cur v = None) vs.
Proof.
  intros Hwf Hout. induction vs as [|v vs IH] using rev_ind; intros Hnd.
  { simpl. split_and!; [done| |done]. intros v. by rewrite Hout, lookup_empty. }
  apply NoDup_snoc in Hnd as [Hv Hnd]. specialize (IH Hnd).
  rewrite keep_pass_snoc. destruct (keep_pass E cur vs p) as [p' orphans].
  destruct IH as (Hwf' & Hout' & ->). rewrite filter_app.
  assert (out p' !! v = None) as Hnone by (rewrite Hout'; by rewrite decide_False).
  destruct (kept_holder E cur v) as [h|] eqn:Hk.
  - split_and!.
    + apply place_wf; [done| |done]. by apply kept_holder_Some in Hk as [_ ?].
    + intros w. simpl. rewrite lookup_insert, Hout'. destruct (decide (v = w)) as [->|Hne].
      * rewrite decide_True by set_solver. done.
      * apply decide_ext. rewrite elem_of_app, list_elem_of_singleton. naive_solver.
    + rewrite filter_cons_False, filter_nil, app_nil_r; [done|congruence].
  - split_and!; [done| |by rewrite filter_cons_True].
    intros w. rewrite Hout'. destruct (decide (v = w)) as [->|Hne].
    + rewrite decide_False by done. case_decide; [done|]. set_solver.
    + apply decide_ext. rewrite elem_of_app, list_elem_of_singleton. naive_solver.
Qed.

(** ** Pass 2 *)

(** What one orphan placement does: the target is a least-loaded node. *)
Lemma orphan_step_spec E p t l :
  placement_wf E p → least_loaded_node (load p) = Some (t, l) →
  t ∈ E ∧ ∀ n, n ∈ E → load_at p t ≤ load_at p n.
Proof.
  intros Hwf Hl. pose proof (least_loaded_node_spec (load p)) as Hs. rewrite Hl in Hs.
  destruct Hs as [Ht Hmin]. destruct (load_lookup_E _ _ _ _ Hwf Ht) as [? ->].
  split; [done|]. intros n Hn. eapply Hmin. by eapply load_at_lookup.
Qed.

Lemma least_loaded_node_is_Some E p :
  placement_wf E p → E ≠ ∅ → is_Some (least_loaded_node (load p)).
Proof.
  intros Hwf HE. pose proof (least_loaded_node_spec (load p)) as Hs.
  destruct (least_loaded_node (load p)); [done|]. exfalso. apply HE.
  by rewrite <- (wf_dom _ _ Hwf), Hs, dom_empty_L.
Qed.

Lemma orphan_pass_spec E orphans p :
  placement_wf E p → E ≠ ∅ → NoDup orphans → (∀ v, v ∈ orphans → out p !! v = None) →
  placement_wf E (orphan_pass orphans p) ∧
  (∀ v, v ∉ orphans → out (orphan_pass orphans p) !! v = out p !! v) ∧
  (∀ v, v ∈ orphans → is_Some (out (orphan_pass orphans p) !! v)).
Proof.
  intros Hwf HE. revert p Hwf. induction orphans as [|v vs IH]; intros p Hwf Hnd Hnone; simpl.
  { split_and!; [done|done|]. intros v Hv. by apply not_elem_of_nil in Hv. }
  apply NoDup_cons in Hnd as [Hv Hnd].
  destruct (least_loaded_node_is_Some _ _ Hwf HE) as [[t l] Hl]. rewrite Hl.
  destruct (orphan_step_spec _ _ _ _ Hwf Hl) as [Ht _].
  destruct (IH (place v t p)) as (Hwf' & Hkeep & Hplaced).
  - apply place_wf; [done..|]. apply Hnone. constructor.
  - done.
  - intros w Hw. simpl. rewrite lookup_insert_ne by set_solver. apply Hnone. by constructor.
  - split_and!; [done| |].
    + intros w Hw. rewrite Hkeep by set_solver. simpl. by rewrite lookup_insert_ne by set_solver.
    + intros w [->|Hw]%elem_of_cons; [|by apply Hplaced].
      rewrite Hkeep by done. simpl. rewrite lookup_insert_eq. eauto.
Qed.

(** ** Pass 3 *)

(** What one iteration does, when the working maps agree: a VIP moves from a
    most-loaded node to a least-loaded receiver at least two below it. *)
Record rebalance_move (E R : gset N) (p p' : Placement) (donor recv : N) (vip : IpAddr) : Prop := {
  mv_donor : donor ∈ E;
  mv_recv : recv ∈ E;
  mv_recv_allowed : recv ∈ R;
  mv_ne : donor ≠ recv;
  mv_gap : load_at p recv + 2 ≤ load_at p donor;
  mv_max : ∀ n, n ∈ E → load_at p n ≤ load_at p donor;
  mv_min : ∀ n, n ∈ E → n ∈ R → load_at p recv ≤ load_at p n;
  mv_vip : vip ∈ held_by p donor;
  mv_highest : ∀ v, v ∈ held_by p donor → ip_le v vip;
  mv_out : out p' = <[vip := recv]> (out p);
  mv_load : ∀ n, load_at p' n = if decide (n = recv) then S (load_at p n)
                                else if decide (n = donor) then pred (load_at p n)
                                else load_at p n;
  mv_held : ∀ n, held_by p' n = if decide (n = recv) then {[vip]} ∪ held_by p n
                                else if decide (n = donor) then held_by p n ∖ {[vip]}
                                else held_by p n;
  mv_wf : placement_wf E p'
}.

Lemma receiver_load_lookup R l n x :
  receiver_load R l !! n = Some x ↔ l !! n = Some x ∧ n ∈ R.
Proof. unfold receiver_load. apply map_lookup_filter_Some. Qed.

(** The loop is quiescent: no receiver is two below the most-loaded node. *)
Definition balanced_for (E R : gset N) (p : Placement) : Prop :=
  ∀ n r, n ∈ E → r ∈ E → r ∈ R → load_at p n ≤ S (load_at p r).

Lemma rebalance_move_wf E p donor recv vip p' :
  placement_wf E p → donor ∈ E → recv ∈ E → donor ≠ recv → vip ∈ held_by p donor →
  dom (load p') = E →
  out p' = <[vip := recv]> (out p) →
  (∀ n, load_at p' n = if decide (n = recv) then S (load_at p n)
                       else if decide (n = donor) then pred (load_at p n) else load_at p n) →
  (∀ n, held_by p' n = if decide (n = recv) then {[vip]} ∪ held_by p n
                       else if decide (n = donor) then held_by p n ∖ {[vip]} else held_by p n) →
  placement_wf E p'.
Proof.
  intros Hwf Hd Hr Hne Hvip Hdom Hout Hload Hheld.
  assert (out p !! vip = Some donor) as Hvd by by apply (wf_held _ _ Hwf).
  split; [done| | |].
  - intros n Hn. rewrite Hload, Hheld, (wf_load _ _ Hwf) by done.
    case_decide; [subst n|case_decide; [subst n|done]].
    + rewrite size_union, size_singleton; [done|].
      rewrite disjoint_singleton_l, (wf_held _ _ Hwf). congruence.
    + rewrite size_difference, size_singleton by set_solver. lia.
  - intros n v. rewrite Hheld, Hout, lookup_insert.
    pose proof (wf_held _ _ Hwf n v). destruct (decide (vip = v)) as [->|Hv].
    + case_decide; [set_solver|]. case_decide; set_solver.
    + case_decide; [set_solver|]. case_decide; set_solver.
  - intros v n. rewrite Hout, lookup_insert. case_decide; [naive_solver|]. apply (wf_range _ _ Hwf).
Qed.

Lemma load_at_move_vip vip donor recv p n :
  donor ≠ recv →
  load_at (move_vip vip donor recv p) n =
  if decide (n = recv) then S (load_at p n)
  else if decide (n = donor) then pred (load_at p n) else load_at p n.
Proof.
  intros Hne. unfold load_at, move_vip. cbn [load].
  rewrite lookup_insert, !lookup_alter. repeat case_decide; simplify_eq; try done.
  by destruct (load p !! donor).
Qed.

Lemma held_by_move_vip vip donor recv p n :
  donor ≠ recv →
  held_by (move_vip vip donor recv p) n =
  if decide (n = recv) then {[vip]} ∪ held_by p n
  else if decide (n = donor) then held_by p n ∖ {[vip]} else held_by p n.
Proof.
  intros Hne. unfold held_by, move_vip. cbn [held].
  rewrite lookup_insert, !lookup_alter. repeat case_decide; simplify_eq; try done.
  destruct (held p !! donor); [done|]. simpl. set_solver.
Qed.

Lemma rebalance_step_Some E R p p' :
  placement_wf E p → rebalance_step R p = Some p' →
  ∃ donor recv vip, rebalance_move E R p p' donor recv vip.
Proof.
  intros Hwf Hstep. unfold rebalance_step in Hstep.
  pose proof (most_loaded_node_spec (load p)) as Hmost.
  destruct (most_loaded_node (load p)) as [[donor dl]|]; [|done]. simpl in Hstep.
  pose proof (least_loaded_node_spec (receiver_load R (load p))) as Hleast.
  destruct (least_loaded_node _) as [[recv rl]|]; [|done]. simpl in Hstep.
  destruct (dl - rl <=? 1) eqn:Hgap; [done|]. apply Nat.leb_gt in Hgap.
  destruct Hmost as [Hdl Hmax], Hleast as [[Hrl HR]%receiver_load_lookup Hmin].
  destruct (load_lookup_E _ _ _ _ Hwf Hdl) as [Hd Hdl'].
  destruct (load_lookup_E _ _ _ _ Hwf Hrl) as [Hr Hrl'].
  destruct (held p !! donor) as [s|] eqn:Hs; [|done]. simpl in Hstep.
  destruct (last (btree_keys s)) as [vip|] eqn:Hlast; [|done]. simpl in Hstep.
  injection Hstep as <-.
  assert (donor ≠ recv) as Hne by (intros ->; lia).
  destruct (last_btree_keys _ _ Hlast) as [Hin Hhigh].
  assert (held_by p donor = s) as Hheld by (unfold held_by; by rewrite Hs).
  exists donor, recv, vip. subst dl rl s. split; try done.
  - lia.
  - intros n Hn. eapply Hmax. by eapply load_at_lookup.
  - intros n Hn HnR. eapply Hmin. apply receiver_load_lookup. split; [|done].
    by eapply load_at_lookup.
  - intros n. by apply load_at_move_vip.
  - intros n. by apply held_by_move_vip.
  - apply (rebalance_move_wf E p donor recv vip); try done.
    + unfold move_vip. cbn [load]. rewrite dom_insert_L, dom_alter_L, (wf_dom _ _ Hwf). set_solver.
    + intros n. by apply load_at_move_vip.
    + intros n. by apply held_by_move_vip.
Qed.

Lemma rebalance_step_None E R p :
  placement_wf E p → rebalance_step R p = None ↔ balanced_for E R p.
Proof.
  intros Hwf. unfold rebalance_step.
  pose proof (most_loaded_node_spec (load p)) as Hmost.
  destruct (most_loaded_node (load p)) as [[donor dl]|]; simpl; cycle 1.
  { split; [|done]. intros _ n r Hn. rewrite <- (wf_dom _ _ Hwf), Hmost, dom_empty_L in Hn. set_solver. }
  pose proof (least_loaded_node_spec (receiver_load R (load p))) as Hleast.
  destruct (least_loaded_node _) as [[recv rl]|]; simpl; cycle 1.
  { split; [|done]. intros _ n r Hn Hr HrR. exfalso.
    assert (receiver_load R (load p) !! r = Some (load_at p r)) as Hl
      by (apply receiver_load_lookup; split; [by eapply load_at_lookup|done]).
    by rewrite Hleast in Hl. }
  destruct Hmost as [Hdl Hmax], Hleast as [[Hrl HR]%receiver_load_lookup Hmin].
  destruct (load_lookup_E _ _ _ _ Hwf Hdl) as [Hd ->].
  destruct (load_lookup_E _ _ _ _ Hwf Hrl) as [Hr ->].
  destruct (load_at p donor - load_at p recv <=? 1) eqn:Hgap.
  - apply Nat.leb_le in Hgap. split; [|done]. intros _ n r Hn Hrn HrR.
    assert (load_at p n ≤ load_at p donor) by (eapply Hmax; by eapply load_at_lookup).
    assert (load_at p recv ≤ load_at p r); [|lia].
    eapply Hmin. apply receiver_load_lookup. split; [by eapply load_at_lookup|done].
  - apply Nat.leb_gt in Hgap. split.
    + intros Hnone. exfalso. pose proof (wf_load _ _ Hwf donor Hd) as Hsz.
      unfold held_by in Hsz. destruct (held p !! donor) as [s|]; cycle 1.
      { cbn [default from_option] in Hsz. rewrite size_empty in Hsz. lia. }
      cbn in Hnone, Hsz.
      destruct (last (btree_keys s)) eqn:Hlast; [done|].
      apply last_btree_keys_None in Hlast. subst s. rewrite size_empty in Hsz. lia.
    + intros Hb. specialize (Hb donor recv Hd Hr HR). lia.
Qed.

(** *** Termination *)

Lemma load_energy_wf E p :
  placement_wf E p →
  load_energy (load p) = sum_list_with (λ n, load_at p n * load_at p n) (elements E).
Proof. intros Hwf. unfold load_energy. by rewrite (wf_dom _ _ Hwf). Qed.

Lemma rebalance_move_energy E R p p' donor recv vip :
  placement_wf E p → rebalance_move E R p p' donor recv vip →
  load_energy (load p') < load_energy (load p).
Proof.
  intros Hwf Hm. pose proof (mv_wf _ _ _ _ _ _ _ Hm) as Hwf'.
  rewrite (load_energy_wf E p), (load_energy_wf E p') by done.
  destruct Hm as [Hd Hr _ Hne Hgap _ _ _ _ _ Hload _ _].
  set (f := λ n, load_at p n * load_at p n).
  set (g := λ n, load_at p' n * load_at p' n).
  set (mid := λ n, if decide (n = recv) then f n else g n).
  assert (sum_list_with f (elements E) + mid donor = sum_list_with mid (elements E) + f donor) as H1.
  { apply sum_list_with_update; [apply NoDup_elements|by apply elem_of_elements|].
    intros y _ Hy. unfold mid, f, g. rewrite Hload. by repeat case_decide. }
  assert (sum_list_with mid (elements E) + g recv = sum_list_with g (elements E) + mid recv) as H2.
  { apply sum_list_with_update; [apply NoDup_elements|by apply elem_of_elements|].
    intros y _ Hy. unfold mid. by rewrite decide_False. }
  assert (mid recv = f recv) as E1 by (unfold mid; by rewrite decide_True).
  assert (mid donor = g donor) as E2 by (unfold mid; by rewrite decide_False).
  assert (g recv = S (load_at p recv) * S (load_at p recv)) as E3.
  { unfold g. rewrite Hload. by rewrite decide_True. }
  assert (g donor = pred (load_at p donor) * pred (load_at p donor)) as E4.
  { unfold g. rewrite Hload. by rewrite decide_False, decide_True. }
  assert (f recv = load_at p recv * load_at p recv) as E5 by done.
  assert (f donor = load_at p donor * load_at p donor) as E6 by done.
  destruct (load_at p donor) as [|d]; [lia|]. simpl pred in E4. nia.
Qed.

(** The loop ends by [break], never by exhausting the fuel. *)
Lemma rebalance_quiescent E R p fuel :
  placement_wf E p → load_energy (load p) < fuel →
  placement_wf E (rebalance fuel R p) ∧ rebalance_step R (rebalance fuel R p) = None.
Proof.
  revert p. induction fuel as [|fuel IH]; intros p Hwf Hf; [lia|]. simpl.
  destruct (rebalance_step R p) as [p'|] eqn:Hs; [|done].
  destruct (rebalance_step_Some _ _ _ _ Hwf Hs) as (d & r & v & Hm).
  apply IH; [by eapply mv_wf|]. pose proof (rebalance_move_energy _ _ _ _ _ _ _ Hwf Hm). lia.
Qed.

(** More fuel gives the same result. *)
Lemma rebalance_fuel_irrelevant E R p fuel fuel' :
  placement_wf E p → load_energy (load p) < fuel → fuel ≤ fuel' →
  rebalance fuel' R p = rebalance fuel R p.
Proof.
  revert p fuel'. induction fuel as [|fuel IH]; intros p fuel' Hwf Hf Hle; [lia|].
  destruct fuel' as [|fuel']; [lia|]. simpl.
  destruct (rebalance_step R p) as [p'|] eqn:Hs; [|done].
  destruct (rebalance_step_Some _ _ _ _ Hwf Hs) as (d & r & v & Hm).
  pose proof (rebalance_move_energy _ _ _ _ _ _ _ Hwf Hm).
  apply IH; [by eapply mv_wf|lia|lia].
Qed.

(** Induction over the iterations of the loop. *)
Lemma rebalance_ind E R (P : Placement → Prop) p fuel :
  placement_wf E p → P p →
  (∀ q q' d r v, placement_wf E q → P q → rebalance_move E R q q' d r v → P q') →
  P (rebalance fuel R p).
Proof.
  intros Hwf HP Hstep. revert p Hwf HP. induction fuel as [|fuel IH]; intros p Hwf HP; [done|].
  simpl. destruct (rebalance_step R p) as [p'|] eqn:Hs; [|done].
  destruct (rebalance_step_Some _ _ _ _ Hwf Hs) as (d & r & v & Hm).
  apply IH; [by eapply mv_wf|by eapply Hstep].
Qed.
