(* ===== verification/VipAssign.v ===== *)
(** * What the assignment guarantees (src/raft/store/vip_logic.rs)

    The theorems about [assign_vips_minimal_movement] and its variant with
    restricted receivers: every configured VIP gets exactly one eligible
    holder, the load spread is at most one, a balanced assignment is a fixed
    point, protected nodes are never given a VIP proactively, the rebalance
    loop ends, no balanced assignment moves fewer VIPs, and a cold start is
    round-robin. *)

From S2P Require Import Prelude Text Replica Openraft Admission Types VipLogic VipPlacement.

(** The number of VIPs a holder map gives to a node. *)
Definition load_of (o : gmap IpAddr N) (n : N) : nat :=
  size (filter (λ kv : IpAddr * N, kv.2 = n) o).

(** The number of listed VIPs whose holder was still eligible and that a new
    holder map takes away from it. *)
Definition moved (E : gset N) (cur : gmap IpAddr N) (vips : list IpAddr) (o : gmap IpAddr N) : nat :=
  length (filter (λ v, is_Some (kept_holder E cur v) ∧ o !! v ≠ kept_holder E cur v) vips).

(** A holder map that places exactly the listed VIPs, on nodes of [E]. *)
Definition places_on (E : gset N) (vips : list IpAddr) (o : gmap IpAddr N) : Prop :=
  (∀ v, v ∈ vips → ∃ n, n ∈ E ∧ o !! v = Some n) ∧ (∀ v, v ∉ vips → o !! v = None).

(** No two nodes of [E] differ by more than one VIP. *)
Definition spread_at_most_one (E : gset N) (o : gmap IpAddr N) : Prop :=
  ∀ n m, n ∈ E → m ∈ E → load_of o n ≤ S (load_of o m).

(** ** The run of the three passes *)

Section run.
Context (eligible receivers : list N) (vips : list IpAddr) (cur : gmap IpAddr N).
Context (Hne : eligible ≠ []) (Hnd : NoDup vips).
Let E : gset N := list_to_set eligible.
Let R : gset N := list_to_set receivers.

(** The placement after each pass. *)
Definition placement1 : Placement :=
  (keep_pass E cur (sort_unstable vips) (initial_placement eligible)).1.
Definition orphans1 : list IpAddr :=
  (keep_pass E cur (sort_unstable vips) (initial_placement eligible)).2.
Definition placement2 : Placement := orphan_pass orphans1 placement1.
Definition placement3 : Placement := rebalance (rebalance_fuel placement2) R placement2.

Lemma assign_run :
  assign_vips_minimal_movement_with_receivers eligible receivers vips cur = out placement3.
Proof using Hne.
  unfold assign_vips_minimal_movement_with_receivers, placement3, placement2, placement1, orphans1.
  destruct eligible as [|n l]; [done|]. fold E.
  change {| out := ∅; load := list_to_map ((λ id, (id, 0)) <$> n :: l); held := ∅ |}
    with (initial_placement (n :: l)).
  by destruct (keep_pass _ _ _ _) as [p1 orphans].
Qed.

Lemma eligible_set_ne : E ≠ ∅.
Proof using Hne. clear Hnd. destruct eligible as [|n l]; [done|]. unfold E. simpl. set_solver. Qed.

Lemma elem_of_sorted_vips v : v ∈ sort_unstable vips ↔ v ∈ vips.
Proof using. by rewrite sort_unstable_perm. Qed.

Lemma placement1_spec :
  placement_wf E placement1 ∧
  (∀ v, out placement1 !! v = if decide (v ∈ vips) then kept_holder E cur v else None) ∧
  orphans1 = filter (λ v, kept_holder E cur v = None) (sort_unstable vips).
Proof using Hnd.
  unfold placement1, orphans1.
  pose proof (keep_pass_spec E cur (sort_unstable vips) (initial_placement eligible)) as Hs.
  destruct (keep_pass _ _ _ _) as [p1 orphans]. simpl.
  destruct Hs as (Hwf & Hout & Ho); [apply initial_placement_wf|done|by rewrite sort_unstable_perm|].
  split_and!; [done| |done]. intros v. rewrite Hout. apply decide_ext, elem_of_sorted_vips.
Qed.

Lemma orphans1_spec v : v ∈ orphans1 ↔ v ∈ vips ∧ kept_holder E cur v = None.
Proof using Hnd.
  destruct placement1_spec as (_ & _ & ->). rewrite list_elem_of_filter, elem_of_sorted_vips. tauto.
Qed.

Lemma placement2_spec :
  placement_wf E placement2 ∧
  (∀ v, v ∈ vips → ∃ n, out placement2 !! v = Some n) ∧
  (∀ v, v ∉ vips → out placement2 !! v = None) ∧
  (∀ v h, v ∈ vips → kept_holder E cur v = Some h → out placement2 !! v = Some h).
Proof using Hne Hnd.
  destruct placement1_spec as (Hwf & Hout & Ho).
  destruct (orphan_pass_spec E orphans1 placement1) as (Hwf2 & Hkeep & Hplaced).
  - done.
  - apply eligible_set_ne.
  - rewrite Ho. apply NoDup_filter. by rewrite sort_unstable_perm.
  - intros v [Hv Hk]%orphans1_spec. by rewrite Hout, decide_True.
  - fold placement2 in *. split_and!; [done| | |].
    + intros v Hv. destruct (kept_holder E cur v) as [h|] eqn:Hk.
      * exists h. rewrite Hkeep, Hout, decide_True; [done..|]. rewrite orphans1_spec. naive_solver.
      * apply Hplaced, orphans1_spec. done.
    + intros v Hv. rewrite Hkeep, Hout, decide_False; [done..|]. rewrite orphans1_spec. tauto.
    + intros v h Hv Hk. rewrite Hkeep, Hout, decide_True; [done..|]. rewrite orphans1_spec. naive_solver.
Qed.

Lemma placement3_spec :
  placement_wf E placement3 ∧ balanced_for E R placement3 ∧
  (∀ v, is_Some (out placement3 !! v) ↔ v ∈ vips).
Proof using Hne Hnd.
  destruct placement2_spec as (Hwf & Hall & Hnone & _).
  destruct (rebalance_quiescent E R placement2 (rebalance_fuel placement2)) as [Hwf3 Hstep];
    [done|unfold rebalance_fuel; lia|].
  fold placement3 in *. split_and!; [done|by apply (rebalance_step_None E R)|].
  unfold placement3. apply (rebalance_ind E R (λ p, ∀ v, is_Some (out p !! v) ↔ v ∈ vips)).
  - done.
  - intros v. split; [|apply Hall].
    intros [n Hn]. destruct (decide (v ∈ vips)); [done|]. by rewrite Hnone in Hn.
  - intros q q' d r w Hq HP Hm v. rewrite (mv_out _ _ _ _ _ _ _ Hm), lookup_insert.
    case_decide as Hd; [|apply HP]. subst w. rewrite <- HP. split; [|eauto].
    intros _. exists d. by apply (wf_held _ _ Hq), (mv_vip _ _ _ _ _ _ _ Hm).
Qed.

Lemma load_of_wf p n : placement_wf E p → n ∈ E → load_of (out p) n = load_at p n.
Proof using.
  intros Hwf Hn. rewrite (wf_load _ _ Hwf) by done. unfold load_of.
  rewrite <- size_dom. f_equal. apply set_eq. intros v.
  rewrite (wf_held _ _ Hwf), elem_of_dom. unfold is_Some.
  setoid_rewrite map_lookup_filter_Some. naive_solver.
Qed.

(** A VIP leaves the holder it had after pass 2 only towards a receiver. *)
Lemma placement3_moves v n :
  out placement3 !! v = Some n → out placement2 !! v = Some n ∨ n ∈ R.
Proof using Hne Hnd.
  destruct placement2_spec as (Hwf & _).
  unfold placement3. revert v n.
  apply (rebalance_ind E R (λ p, ∀ v n, out p !! v = Some n → out placement2 !! v = Some n ∨ n ∈ R)).
  - done.
  - auto.
  - intros q q' d r w Hq HP Hm v n. rewrite (mv_out _ _ _ _ _ _ _ Hm), lookup_insert.
    case_decide; [|apply HP]. intros. simplify_eq. right. by eapply mv_recv_allowed.
Qed.
End run.

(** ** Soundness, balance, stability *)

Section guarantees.
Context (eligible receivers : list N) (vips : list IpAddr) (cur : gmap IpAddr N).
Let E : gset N := list_to_set eligible.
Let assigned := assign_vips_minimal_movement_with_receivers eligible receivers vips cur.

Lemma assigned_places_on : eligible ≠ [] → NoDup vips → places_on E vips assigned.
Proof.
  intros Hne Hnd. unfold assigned. rewrite assign_run by done.
  destruct (placement3_spec eligible receivers vips cur Hne Hnd) as (Hwf & _ & Hdom). split.
  - intros v [n Hn]%Hdom. exists n. split; [|done]. by eapply wf_range.
  - intros v Hv. apply eq_None_not_Some. by rewrite Hdom.
Qed.

Lemma assigned_load_le n r :
  NoDup vips → n ∈ eligible → r ∈ eligible → r ∈ receivers →
  load_of assigned n ≤ S (load_of assigned r).
Proof.
  intros Hnd Hn Hr HrR.
  assert (eligible ≠ []) as Hne by (intros ->; by apply not_elem_of_nil in Hn).
  unfold assigned. rewrite assign_run by done.
  destruct (placement3_spec eligible receivers vips cur Hne Hnd) as (Hwf & Hb & _).
  rewrite !(load_of_wf eligible) by (done || by apply elem_of_list_to_set).
  apply Hb; by apply elem_of_list_to_set.
Qed.

Lemma assigned_idempotent :
  NoDup vips →
  assign_vips_minimal_movement_with_receivers eligible receivers vips assigned = assigned.
Proof.
  intros Hnd. destruct (decide (eligible = [])) as [->|Hne]; [done|].
  pose proof (assigned_places_on Hne Hnd) as [Hin Hnot].
  rewrite (assign_run eligible receivers vips assigned) by done.
  destruct (placement1_spec eligible vips assigned Hnd) as (Hwf1 & Hout1 & Ho).
  assert (out (placement1 eligible vips assigned) = assigned) as Hsame.
  { apply map_eq. intros v. rewrite Hout1. case_decide as Hv; [|by rewrite Hnot].
    destruct (Hin v Hv) as (n & Hn & Hv'). rewrite Hv'. by apply kept_holder_Some. }
  assert (orphans1 eligible vips assigned = []) as Hnil.
  { apply elem_of_nil_inv. intros v [Hv Hk]%orphans1_spec; [|done].
    destruct (Hin v Hv) as (n & Hn & Hv').
    apply eq_None_not_Some in Hk. apply Hk. exists n. by apply kept_holder_Some. }
  assert (placement2 eligible vips assigned = placement1 eligible vips assigned) as Hp2.
  { unfold placement2. by rewrite Hnil. }
  unfold placement3. rewrite Hp2. unfold rebalance_fuel. simpl.
  rewrite (proj2 (rebalance_step_None _ (list_to_set receivers) _ Hwf1)); [done|].
  intros n r Hn Hr HrR. rewrite <- !(load_of_wf eligible), Hsame by done.
  apply assigned_load_le; [done|clear -Hn|clear -Hr|clear -HrR]; set_solver.
Qed.

(** A node outside the receivers holds a VIP only if it already did or if the
    VIP had no eligible holder. *)
Lemma assigned_nopreempt v n :
  NoDup vips → assigned !! v = Some n → n ∉ receivers →
  cur !! v = Some n ∨ kept_holder E cur v = None.
Proof.
  intros Hnd Hv Hn. destruct (decide (eligible = [])) as [He|Hne].
  { unfold assigned in Hv. by rewrite He in Hv. }
  unfold assigned in Hv. rewrite assign_run in Hv by done.
  destruct (placement2_spec eligible vips cur Hne Hnd) as (_ & _ & Hnone & Hkept).
  destruct (placement3_moves eligible receivers vips cur Hne Hnd _ _ Hv) as [H2|Hr];
    [|by apply elem_of_list_to_set in Hr].
  destruct (kept_holder E cur v) as [h|] eqn:Hk; [left|by right].
  assert (v ∈ vips) as Hvin.
  { destruct (decide (v ∈ vips)) as [|Hv']; [done|]. by rewrite Hnone in H2. }
  rewrite (Hkept v h Hvin Hk) in H2. simplify_eq. by apply kept_holder_Some in Hk as [? _].
Qed.
End guarantees.

(** The assignment is total and sound.  As long as one node is eligible,
    every configured VIP gets exactly one holder and that holder is eligible;
    nothing else is assigned, and with no eligible node nothing is. *)
Theorem assign_total_and_eligible (eligible receivers : list N) (vips : list IpAddr)
    (cur : gmap IpAddr N) :
  NoDup vips →
  let o := assign_vips_minimal_movement_with_receivers eligible receivers vips cur in
  if decide (eligible = []) then o = ∅ else places_on (list_to_set eligible) vips o.
Proof.
  intros Hnd. case_decide as He; [by subst|]. by apply assigned_places_on.
Qed.

(** No eligible node ends up two VIPs above a node that may receive
    proactive moves; with every eligible node a receiver the spread is at most one. *)
Theorem assign_balances (eligible receivers : list N) (vips : list IpAddr)
    (cur : gmap IpAddr N) (n r : N) :
  NoDup vips → n ∈ eligible → r ∈ eligible → r ∈ receivers →
  let o := assign_vips_minimal_movement_with_receivers eligible receivers vips cur in
  load_of o n ≤ S (load_of o r).
Proof. apply assigned_load_le. Qed.

(** Recomputing from the holders the assignment itself produced changes
    nothing, so a stable cluster sees no spurious holder change. *)
Theorem assign_idempotent (eligible receivers : list N) (vips : list IpAddr)
    (cur : gmap IpAddr N) :
  NoDup vips →
  assign_vips_minimal_movement_with_receivers eligible receivers vips
    (assign_vips_minimal_movement_with_receivers eligible receivers vips cur)
  = assign_vips_minimal_movement_with_receivers eligible receivers vips cur.
Proof. apply assigned_idempotent. Qed.

(** Nopreempt.  A node outside the receivers is given a VIP only if it
    held it already or if the VIP had no eligible holder; it never takes one
    from a healthy holder. *)
Theorem assign_respects_nopreempt (eligible receivers : list N) (vips : list IpAddr)
    (cur : gmap IpAddr N) (v : IpAddr) (n : N) :
  NoDup vips →
  assign_vips_minimal_movement_with_receivers eligible receivers vips cur !! v = Some n →
  n ∉ receivers →
  cur !! v = Some n ∨ (∀ h, cur !! v = Some h → h ∉ eligible).
Proof.
  intros Hnd Hv Hn. destruct (assigned_nopreempt _ _ _ _ _ _ Hnd Hv Hn) as [?|Hk]; [by left|].
  right. intros h Hh Hin. apply eq_None_not_Some in Hk. apply Hk. exists h.
  apply kept_holder_Some. split; [done|]. by apply elem_of_list_to_set.
Qed.

(** The rebalance loop ends by [break].  The fuel of the model is never
    exhausted: the loop stops on a placement with no further move, and any
    larger fuel gives the same placement. *)
Theorem rebalance_terminates (eligible receivers : list N) (vips : list IpAddr)
    (cur : gmap IpAddr N) (fuel : nat) :
  eligible ≠ [] → NoDup vips → rebalance_fuel (placement2 eligible vips cur) ≤ fuel →
  let p := rebalance fuel (list_to_set receivers) (placement2 eligible vips cur) in
  rebalance_step (list_to_set receivers) p = None ∧ p = placement3 eligible receivers vips cur.
Proof.
  intros Hne Hnd Hf. destruct (placement2_spec eligible vips cur Hne Hnd) as (Hwf & _).
  assert (load_energy (load (placement2 eligible vips cur)) < rebalance_fuel (placement2 eligible vips cur))
    by (unfold rebalance_fuel; lia).
  split.
  - eapply rebalance_quiescent; [done|]. lia.
  - by eapply rebalance_fuel_irrelevant.
Qed.

(** The load spread of a placement: the most-loaded minus the least-loaded node. *)
Definition spread (p : Placement) : nat :=
  match most_loaded_node (load p), least_loaded_node (load p) with
  | Some (_, a), Some (_, b) => a - b
  | _, _ => 0
  end.

(** One iteration need not reduce the spread: with loads 2, 2, 0, 0 the
    first move leaves a spread of two.  What each iteration reduces is the sum
    of the squared loads, which is the measure the termination proof uses. *)
Theorem rebalance_step_keeps_spread :
  ∃ p p', placement_wf {[1%N; 2%N; 3%N; 4%N]} p ∧
    rebalance_step {[1%N; 2%N; 3%N; 4%N]} p = Some p' ∧ spread p = 2 ∧ spread p' = 2.
Proof.
  set (vips := [V4 1; V4 2; V4 3; V4 4]).
  set (cur := list_to_map [(V4 1, 1%N); (V4 2, 1%N); (V4 3, 2%N); (V4 4, 2%N)] : gmap IpAddr N).
  exists (placement2 [1%N; 2%N; 3%N; 4%N] vips cur). eexists. split_and!.
  - apply (placement2_spec [1%N; 2%N; 3%N; 4%N]); [done|]. by apply (bool_decide_unpack _).
  - vm_compute. reflexivity.
  - vm_compute. reflexivity.
  - vm_compute. reflexivity.
Qed.

(** ** Witnesses *)

Definition demo_vips : list IpAddr := [V4 1; V4 2; V4 3].
Definition demo_cur : gmap IpAddr N := list_to_map [(V4 1, 1%N); (V4 2, 1%N); (V4 3, 9%N)].

Lemma demo_vips_NoDup : NoDup demo_vips.
Proof. by apply (bool_decide_unpack _). Qed.

Lemma assign_total_and_eligible_witness :
  places_on (list_to_set [1%N; 2%N]) demo_vips
    (assign_vips_minimal_movement_with_receivers [1%N; 2%N] [1%N; 2%N] demo_vips demo_cur).
Proof. exact (assign_total_and_eligible [1%N; 2%N] [1%N; 2%N] demo_vips demo_cur demo_vips_NoDup). Defined.

Lemma assign_balances_witness :
  load_of (assign_vips_minimal_movement_with_receivers [1%N; 2%N] [2%N] demo_vips demo_cur) 1
  ≤ S (load_of (assign_vips_minimal_movement_with_receivers [1%N; 2%N] [2%N] demo_vips demo_cur) 2).
Proof.
  apply (assign_balances [1%N; 2%N] [2%N] demo_vips demo_cur 1 2 demo_vips_NoDup);
    by apply (bool_decide_unpack _).
Defined.

Lemma assign_idempotent_witness :
  assign_vips_minimal_movement_with_receivers [1%N; 2%N] [2%N] demo_vips
    (assign_vips_minimal_movement_with_receivers [1%N; 2%N] [2%N] demo_vips demo_cur)
  = assign_vips_minimal_movement_with_receivers [1%N; 2%N] [2%N] demo_vips demo_cur.
Proof. exact (assign_idempotent [1%N; 2%N] [2%N] demo_vips demo_cur demo_vips_NoDup). Defined.

Lemma assign_respects_nopreempt_witness :
  demo_cur !! V4 3 = Some 2%N ∨ (∀ h, demo_cur !! V4 3 = Some h → h ∉ [1%N; 2%N]).
Proof.
  apply (assign_respects_nopreempt [1%N; 2%N] [1%N] demo_vips demo_cur (V4 3) 2 demo_vips_NoDup).
  - vm_compute. reflexivity.
  - by apply (bool_decide_unpack _).
Defined.

Lemma rebalance_terminates_witness :
  rebalance_step {[1%N; 2%N]} (rebalance 100 {[1%N; 2%N]} (placement2 [1%N; 2%N] demo_vips demo_cur)) = None.
Proof.
  assert (rebalance_fuel (placement2 [1%N; 2%N] demo_vips demo_cur) ≤ 100) as Hf
    by (vm_compute; lia).
  pose proof (rebalance_terminates [1%N; 2%N] [1%N; 2%N] demo_vips demo_cur 100
                ltac:(done) demo_vips_NoDup Hf) as [Hstep _].
  replace ({[1%N; 2%N]} : gset N) with (list_to_set [1%N; 2%N] : gset N) by set_solver.
  exact Hstep.
Defined.
