(* ===== verification/VipMovement.v ===== *)
(** * Minimal movement (src/raft/store/vip_logic.rs)

    [assign_vips_minimal_movement] promises to move as few VIPs as possible
    while reaching an even spread.  This file proves it: no holder map that
    places every VIP on an eligible node with a spread of at most one takes
    fewer VIPs from a holder that is still eligible. *)

From S2P Require Import Prelude Text Replica Openraft Admission Types VipLogic VipPlacement VipAssign.

(** ** Counting *)

Section counting.
Context {A : Type}.
Implicit Types (l : list A).

Lemma length_filter_mono (P Q : A → Prop) `{!∀ x, Decision (P x), !∀ x, Decision (Q x)} l :
  (∀ x, x ∈ l → P x → Q x) → length (filter P l) ≤ length (filter Q l).
Proof.
  induction l as [|x l IH]; intros HPQ; [done|].
  assert (length (filter P l) ≤ length (filter Q l)) by (apply IH; set_solver).
  rewrite !filter_cons. repeat case_decide; simpl; try lia.
  exfalso. naive_solver (set_solver).
Qed.

Lemma length_filter_split (P Q : A → Prop) `{!∀ x, Decision (P x), !∀ x, Decision (Q x)} l :
  length (filter P l) =
  length (filter (λ x, P x ∧ Q x) l) + length (filter (λ x, P x ∧ ¬ Q x) l).
Proof.
  induction l as [|x l IH]; [done|]. rewrite !filter_cons.
  repeat case_decide; simpl; rewrite IH; try lia; exfalso; tauto.
Qed.

Lemma length_filter_True l : length (filter (λ _, True) l) = length l.
Proof. induction l as [|x l IH]; [done|]. rewrite filter_cons_True by done. simpl. by rewrite IH. Qed.

Lemma length_filter_False l : length (filter (λ _, False) l) = 0.
Proof. induction l as [|x l IH]; [done|]. by rewrite filter_cons_False by tauto. Qed.

Lemma sum_list_with_indicator `{EqDecision B} (ns : list B) m :
  NoDup ns → m ∈ ns → sum_list_with (λ n, if decide (n = m) then 1 else 0) ns = 1.
Proof.
  induction ns as [|n ns IH]; [by intros _ ?%not_elem_of_nil|].
  intros [Hn Hnd]%NoDup_cons Hm. simpl. case_decide as Hd.
  - subst. rewrite (sum_list_with_ext _ (λ _, 0)); [|intros y Hy; rewrite decide_False; set_solver].
    clear. induction ns; simpl; lia.
  - rewrite IH; [done..|set_solver].
Qed.

(** Count a filtered list class by class. *)
Lemma length_filter_partition `{EqDecision B} (P : A → Prop) `{!∀ x, Decision (P x)}
    (g : A → option B) (ns : list B) l :
  NoDup ns → (∀ x, x ∈ l → P x → ∃ n, n ∈ ns ∧ g x = Some n) →
  length (filter P l) = sum_list_with (λ n, length (filter (λ x, P x ∧ g x = Some n) l)) ns.
Proof.
  intros Hnd. induction l as [|x l IH]; intros Hg.
  { simpl. clear. induction ns; simpl; auto. }
  rewrite filter_cons. case_decide as HP.
  - destruct (Hg x) as (m & Hm & Hgx); [set_solver|done|]. simpl. rewrite IH by set_solver.
    pose proof (sum_list_with_indicator ns m Hnd Hm) as Hi.
    rewrite (sum_list_with_ext (λ n, length (filter (λ x, P x ∧ g x = Some n) (x :: l)))
      (λ n, (if decide (n = m) then 1 else 0) + length (filter (λ x, P x ∧ g x = Some n) l))).
    { rewrite sum_list_with_add, Hi. done. }
    intros n Hn. rewrite filter_cons. repeat case_decide; simplify_eq/=; try lia; exfalso; naive_solver.
  - rewrite IH by set_solver. apply sum_list_with_ext. intros n Hn.
    rewrite filter_cons, decide_False; [done|tauto].
Qed.
End counting.

(** ** The arithmetic of even spreads *)

Section spread.
Context {A : Type}.
Implicit Types (l : list A) (f : A → nat).

Lemma exists_argmin f l : l ≠ [] → ∃ x, x ∈ l ∧ ∀ y, y ∈ l → f x ≤ f y.
Proof.
  induction l as [|x l IH]; [done|]. intros _.
  destruct (decide (l = [])) as [->|Hl].
  { exists x. split; [constructor|]. intros y ->%list_elem_of_singleton. done. }
  destruct (IH Hl) as (z & Hz & Hmin). destruct (decide (f x ≤ f z)).
  - exists x. split; [constructor|]. intros y [->|Hy]%elem_of_cons; [done|]. specialize (Hmin y Hy). lia.
  - exists z. split; [by constructor|]. intros y [->|Hy]%elem_of_cons; [lia|auto].
Qed.

Definition even_on f l : Prop := ∀ x y, x ∈ l → y ∈ l → f x ≤ S (f y).

(** An even spread takes the values [q] and [q + 1], with [q] the quotient. *)
Lemma even_on_quotient f l :
  l ≠ [] → even_on f l →
  ∃ q, (∀ x, x ∈ l → q ≤ f x ≤ S q) ∧
       length l * q ≤ sum_list_with f l < length l * S q.
Proof.
  intros Hl Hev. destruct (exists_argmin f l Hl) as (z & Hz & Hmin). exists (f z).
  assert (∀ x, x ∈ l → f z ≤ f x ≤ S (f z)) as Hb by (intros; split; auto).
  split; [done|].
  assert (∀ l', (∀ x, x ∈ l' → f z ≤ f x ≤ S (f z)) →
    length l' * f z ≤ sum_list_with f l' ≤ length l' * S (f z)) as Hsum.
  { induction l' as [|x l' IH]; intros Hb'; simpl; [lia|].
    pose proof (Hb' x ltac:(constructor)). specialize (IH ltac:(set_solver)). lia. }
  destruct (Hsum l Hb). split; [done|].
  apply list_elem_of_split in Hz as (l1 & l2 & ->).
  rewrite sum_list_with_app, length_app. simpl.
  pose proof (Hsum l1 ltac:(intros; apply Hb; set_solver)).
  pose proof (Hsum l2 ltac:(intros; apply Hb; set_solver)). lia.
Qed.

(** If nodes that fell short of [k] are never below nodes that exceed [k], the
    total shortfall is minimal among all even spreads of the same total. *)
Lemma minimal_shortfall (k f f' : A → nat) l :
  even_on f l → even_on f' l → sum_list_with f l = sum_list_with f' l →
  (∀ x y, x ∈ l → y ∈ l → f x < k x → k y < f y → f y ≤ f x) →
  sum_list_with (λ x, k x - f x) l ≤ sum_list_with (λ x, k x - f' x) l.
Proof.
  intros Hf Hf' Hsum Hord. destruct (decide (l = [])) as [->|Hl]; [done|].
  destruct (even_on_quotient f l Hl Hf) as (q & Hq & Hs).
  destruct (even_on_quotient f' l Hl Hf') as (q' & Hq' & Hs').
  assert (q' = q) as -> by nia.
  destruct (decide (Exists (λ x, f x = q ∧ q < k x) l)) as [Hex|Hex].
  - apply Exists_exists in Hex as (m & Hm & Hfm & Hkm).
    cut (sum_list_with (λ x, (k x - f x) + f x) l ≤ sum_list_with (λ x, (k x - f' x) + f' x) l).
    { rewrite !sum_list_with_add. lia. }
    apply sum_list_with_le. intros x Hx. specialize (Hq x Hx). specialize (Hq' x Hx).
    destruct (decide (k x < f x)); [|lia]. specialize (Hord m x Hm Hx). lia.
  - apply sum_list_with_le. intros x Hx. specialize (Hq x Hx). specialize (Hq' x Hx).
    destruct (decide (f x = q)); [|lia]. destruct (decide (q < k x)); [|lia].
    exfalso. apply Hex, Exists_exists. eauto.
Qed.
End spread.

(** ** The invariant of passes 2 and 3

    [p1] is the placement after pass 1.  A node above its kept load is close to
    the minimum, a node below it is close to the maximum, the former are never
    above the latter, and the VIPs of a node are comparable with those it kept. *)

Record frugal (E : gset N) (p1 p : Placement) : Prop := {
  fr_gainer : ∀ n m, n ∈ E → m ∈ E → load_at p1 n < load_at p n → load_at p n ≤ S (load_at p m);
  fr_loser : ∀ n m, n ∈ E → m ∈ E → load_at p n < load_at p1 n → load_at p m ≤ S (load_at p n);
  fr_order : ∀ n m, n ∈ E → m ∈ E → load_at p n < load_at p1 n → load_at p1 m < load_at p m →
    load_at p m ≤ load_at p n;
  fr_below : ∀ n, n ∈ E → load_at p n ≤ load_at p1 n → held_by p n ⊆ held_by p1 n;
  fr_above : ∀ n, n ∈ E → load_at p1 n ≤ load_at p n → held_by p1 n ⊆ held_by p n
}.

Lemma frugal_refl E p : frugal E p p.
Proof. split; intros; try lia; done. Qed.

Lemma frugal_place E p1 p v t :
  frugal E p1 p → (∀ n, n ∈ E → load_at p1 n ≤ load_at p n) →
  (∀ n, n ∈ E → load_at p t ≤ load_at p n) → t ∈ E →
  frugal E p1 (place v t p) ∧ (∀ n, n ∈ E → load_at p1 n ≤ load_at (place v t p) n).
Proof.
  intros Hfr Hge Hmin Ht. split.
  - split; intros n; rewrite ?load_at_place, ?held_by_place.
    + intros m Hn Hm. rewrite load_at_place. pose proof (Hmin n Hn). pose proof (Hmin m Hm).
      pose proof (fr_gainer _ _ _ Hfr n m Hn Hm). pose proof (fr_gainer _ _ _ Hfr n t Hn Ht).
      repeat case_decide; simplify_eq; lia.
    + intros m Hn _. pose proof (Hge n Hn). case_decide; lia.
    + intros m Hn _. pose proof (Hge n Hn). case_decide; lia.
    + intros Hn Hle. pose proof (Hge n Hn). case_decide; [lia|].
      by apply (fr_below _ _ _ Hfr).
    + intros Hn _. pose proof (fr_above _ _ _ Hfr n Hn (Hge n Hn)). case_decide; set_solver.
  - intros n Hn. rewrite load_at_place. pose proof (Hge n Hn). case_decide; lia.
Qed.

Lemma orphan_pass_frugal E p1 orphans p :
  placement_wf E p → E ≠ ∅ → NoDup orphans → (∀ v, v ∈ orphans → out p !! v = None) →
  frugal E p1 p → (∀ n, n ∈ E → load_at p1 n ≤ load_at p n) →
  frugal E p1 (orphan_pass orphans p).
Proof.
  intros Hwf HE. revert p Hwf. induction orphans as [|v vs IH]; intros p Hwf Hnd Hnone Hfr Hge; [done|].
  simpl. apply NoDup_cons in Hnd as [Hv Hnd].
  destruct (least_loaded_node_is_Some _ _ Hwf HE) as [[t l] Hl]. rewrite Hl.
  destruct (orphan_step_spec _ _ _ _ Hwf Hl) as [Ht Hmin].
  destruct (frugal_place E p1 p v t Hfr Hge Hmin Ht) as [Hfr' Hge'].
  apply IH; [|done| |done|done].
  - apply place_wf; [done..|]. apply Hnone. constructor.
  - intros w Hw. simpl. rewrite lookup_insert_ne by set_solver. apply Hnone. by constructor.
Qed.

Lemma rebalance_move_frugal E p1 p p' d r v :
  frugal E p1 p → rebalance_move E E p p' d r v → frugal E p1 p'.
Proof.
  intros Hfr Hm.
  destruct Hm as [Hd Hr _ Hne Hgap Hmax Hmin Hvip _ _ Hload Hheld _].
  assert (load_at p d ≤ load_at p1 d) as Hd1.
  { destruct (decide (load_at p1 d < load_at p d)) as [Hlt|]; [|lia].
    pose proof (fr_gainer _ _ _ Hfr d r Hd Hr Hlt). lia. }
  assert (load_at p1 r ≤ load_at p r) as Hr1.
  { destruct (decide (load_at p r < load_at p1 r)) as [Hlt|]; [|lia].
    pose proof (fr_loser _ _ _ Hfr r d Hr Hd Hlt). lia. }
  split.
  - intros n m Hn Hm. rewrite !Hload.
    pose proof (Hmin m Hm Hm). pose proof (fr_gainer _ _ _ Hfr n m Hn Hm).
    pose proof (fr_gainer _ _ _ Hfr n r Hn Hr).
    repeat case_decide; simplify_eq; lia.
  - intros n m Hn Hm. rewrite !Hload.
    pose proof (Hmax m Hm). pose proof (fr_loser _ _ _ Hfr n m Hn Hm).
    pose proof (fr_loser _ _ _ Hfr n d Hn Hd).
    repeat case_decide; simplify_eq; lia.
  - intros n m Hn Hm. rewrite !Hload.
    pose proof (fr_order _ _ _ Hfr n m Hn Hm). pose proof (fr_loser _ _ _ Hfr n d Hn Hd).
    pose proof (fr_gainer _ _ _ Hfr m r Hm Hr).
    repeat case_decide; simplify_eq; lia.
  - intros n Hn. rewrite Hload, Hheld. pose proof (fr_below _ _ _ Hfr n Hn).
    pose proof (fr_below _ _ _ Hfr d Hd Hd1).
    repeat case_decide; simplify_eq; [lia|set_solver|done].
  - intros n Hn. rewrite Hload, Hheld. pose proof (fr_above _ _ _ Hfr n Hn).
    pose proof (fr_above _ _ _ Hfr r Hr Hr1).
    repeat case_decide; simplify_eq; [set_solver|lia|done].
Qed.

Lemma placement3_frugal eligible vips cur :
  eligible ≠ [] → NoDup vips →
  frugal (list_to_set eligible) (placement1 eligible vips cur)
    (placement3 eligible eligible vips cur).
Proof.
  intros Hne Hnd.
  destruct (placement1_spec eligible vips cur Hnd) as (Hwf1 & Hout1 & Ho).
  destruct (placement2_spec eligible vips cur Hne Hnd) as (Hwf2 & _).
  unfold placement3. apply (rebalance_ind (list_to_set eligible) (list_to_set eligible)); [done| |].
  - apply orphan_pass_frugal; [done|by apply eligible_set_ne| | |apply frugal_refl|done].
    + rewrite Ho. apply NoDup_filter. by rewrite sort_unstable_perm.
    + intros v Hv. apply orphans1_spec in Hv as [Hv Hk]; [|done]. by rewrite Hout1, decide_True.
  - intros q q' d r v _ Hfr Hm. by eapply rebalance_move_frugal.
Qed.

(** ** Optimality *)

Section optimal.
Context (E : gset N) (vips : list IpAddr) (cur : gmap IpAddr N).
Context (Hnd : NoDup vips).

(** The listed VIPs that keep an eligible holder [n], and those a map gives it. *)
Definition kept_on (n : N) : nat := length (filter (λ v, kept_holder E cur v = Some n) vips).

Lemma load_of_count o n :
  (∀ v, v ∉ vips → o !! v = None) →
  load_of o n = length (filter (λ v, o !! v = Some n) vips).
Proof using Hnd.
  clear cur.
  intros Hout. unfold load_of. rewrite <- size_dom.
  rewrite <- (size_list_to_set (C := gset IpAddr)) by by apply NoDup_filter.
  f_equal. apply set_eq. intros v.
  rewrite elem_of_dom, elem_of_list_to_set, list_elem_of_filter. unfold is_Some.
  setoid_rewrite map_lookup_filter_Some. split.
  - intros (m & Hm & Hn). simpl in Hn. subst m. split; [done|].
    destruct (decide (v ∈ vips)); [done|]. by rewrite Hout in Hm.
  - intros [Hv _]. by exists n.
Qed.

Lemma places_on_total o :
  places_on E vips o → sum_list_with (load_of o) (elements E) = length vips.
Proof using Hnd.
  clear cur. intros [Hin Hout]. rewrite (sum_list_with_ext _ _ _ (λ n _, load_of_count o n Hout)).
  pose proof (length_filter_partition (λ _ : IpAddr, True) (λ v, o !! v) (elements E) vips) as Hp.
  rewrite length_filter_True in Hp. rewrite Hp; [|apply NoDup_elements|].
  - apply sum_list_with_ext. intros n _. f_equal. apply list_filter_iff. tauto.
  - intros v Hv _. destruct (Hin v Hv) as (n & Hn & Ho). exists n. by rewrite elem_of_elements.
Qed.

Definition moved_on (o : gmap IpAddr N) (n : N) : nat :=
  length (filter (λ v, kept_holder E cur v = Some n ∧ ¬ o !! v = Some n) vips).

Lemma moved_sum o : moved E cur vips o = sum_list_with (moved_on o) (elements E).
Proof using.
  unfold moved. erewrite (length_filter_partition _ (kept_holder E cur) (elements E));
    [|apply NoDup_elements|].
  - apply sum_list_with_ext. intros n _. unfold moved_on. f_equal. apply list_filter_iff.
    intros v. split; [intros [[_ Hne] Hk]|intros [Hk Hne]]; [by rewrite Hk in Hne|].
    rewrite Hk. split_and!; eauto.
  - intros v _ [[n Hn] _]. exists n. split; [|done].
    apply elem_of_elements. by apply kept_holder_Some in Hn as [_ ?].
Qed.

Lemma kept_on_split o n :
  kept_on n = length (filter (λ v, kept_holder E cur v = Some n ∧ o !! v = Some n) vips) + moved_on o n.
Proof using. apply length_filter_split. Qed.

Lemma moved_on_ge o n : (∀ v, v ∉ vips → o !! v = None) → kept_on n - load_of o n ≤ moved_on o n.
Proof using Hnd.
  intros Hout. rewrite (kept_on_split o n), load_of_count by done.
  assert (length (filter (λ v, kept_holder E cur v = Some n ∧ o !! v = Some n) vips)
    ≤ length (filter (λ v, o !! v = Some n) vips)) by (apply length_filter_mono; tauto).
  lia.
Qed.

(** A holder map whose nodes hold comparable sets to what they kept reaches the bound. *)
Lemma moved_on_eq o n :
  (∀ v, v ∉ vips → o !! v = None) →
  (∀ v, v ∈ vips → o !! v = Some n → kept_holder E cur v = Some n)
    ∨ (∀ v, v ∈ vips → kept_holder E cur v = Some n → o !! v = Some n) →
  moved_on o n ≤ kept_on n - load_of o n.
Proof using Hnd.
  intros Hout Hcmp. rewrite (kept_on_split o n), load_of_count by done.
  destruct Hcmp as [Hcmp|Hcmp].
  - assert (length (filter (λ v, o !! v = Some n) vips)
      ≤ length (filter (λ v, kept_holder E cur v = Some n ∧ o !! v = Some n) vips))
      by (apply length_filter_mono; auto). lia.
  - assert (moved_on o n ≤ length (filter (λ _ : IpAddr, False) vips)) as Hz.
    { apply length_filter_mono. naive_solver. }
    rewrite length_filter_False in Hz. lia.
Qed.
End optimal.

Lemma kept_on_load1 eligible vips cur n :
  NoDup vips → n ∈ (list_to_set eligible : gset N) →
  kept_on (list_to_set eligible) vips cur n = load_at (placement1 eligible vips cur) n.
Proof.
  intros Hnd Hn. destruct (placement1_spec eligible vips cur Hnd) as (Hwf1 & Hout1 & _).
  rewrite <- (load_of_wf eligible), (load_of_count vips Hnd) by
    (done || intros v Hv; by rewrite Hout1, decide_False).
  apply Nat.le_antisymm; apply length_filter_mono; intros v Hv; by rewrite Hout1, decide_True.
Qed.

(** C24: minimal movement.  Among all holder maps that place every configured
    VIP on an eligible node with a load spread of at most one, none takes fewer
    VIPs from a still-eligible holder than [assign_vips_minimal_movement]. *)
Theorem assign_minimal_movement (eligible : list N) (vips : list IpAddr)
    (cur o : gmap IpAddr N) :
  eligible ≠ [] → NoDup vips →
  places_on (list_to_set eligible) vips o →
  spread_at_most_one (list_to_set eligible) o →
  moved (list_to_set eligible) cur vips (assign_vips_minimal_movement eligible vips cur)
    ≤ moved (list_to_set eligible) cur vips o.
Proof.
  intros Hne Hnd Ho Hspread. set (E := list_to_set eligible).
  set (a := assign_vips_minimal_movement eligible vips cur).
  pose proof (assigned_places_on eligible eligible vips cur Hne Hnd) as Ha. fold E in Ha.
  change (assign_vips_minimal_movement_with_receivers _ _ _ _) with a in Ha.
  assert (a = out (placement3 eligible eligible vips cur)) as Hrun by by apply assign_run.
  destruct (placement3_spec eligible eligible vips cur Hne Hnd) as (Hwf & Hbal & _).
  pose proof (placement3_frugal eligible vips cur Hne Hnd) as Hfr.
  assert (∀ n, n ∈ E → load_of a n = load_at (placement3 eligible eligible vips cur) n) as Hload.
  { intros n Hn. rewrite Hrun. by apply (load_of_wf eligible). }
  rewrite !moved_sum.
  transitivity (sum_list_with (λ n, kept_on E vips cur n - load_of a n) (elements E)).
  { apply sum_list_with_le. intros n Hn%elem_of_elements. apply moved_on_eq; [done|apply Ha|].
    destruct (placement1_spec eligible vips cur Hnd) as (Hwf1 & Hout1 & _).
    assert (∀ v, v ∈ vips → v ∈ held_by (placement1 eligible vips cur) n ↔
        kept_holder E cur v = Some n) as Hh1.
    { intros v Hv. rewrite (wf_held _ _ Hwf1), Hout1. by rewrite decide_True. }
    setoid_rewrite Hrun. setoid_rewrite <- (wf_held _ _ Hwf).
    destruct (Nat.le_ge_cases (load_at (placement3 eligible eligible vips cur) n)
                (load_at (placement1 eligible vips cur) n)) as [Hle|Hle].
    - left. intros v Hv Hheld. apply Hh1; [done|]. by apply (fr_below _ _ _ Hfr n Hn Hle).
    - right. intros v Hv Hk. apply Hh1 in Hk; [|done]. by apply (fr_above _ _ _ Hfr n Hn Hle). }
  transitivity (sum_list_with (λ n, kept_on E vips cur n - load_of o n) (elements E)).
  - apply minimal_shortfall.
    + intros x y Hx%elem_of_elements Hy%elem_of_elements. rewrite !Hload by done. by apply Hbal.
    + intros x y Hx%elem_of_elements Hy%elem_of_elements. by apply Hspread.
    + rewrite !(places_on_total E vips Hnd) by done. done.
    + intros x y Hx%elem_of_elements Hy%elem_of_elements.
      unfold E. rewrite !kept_on_load1, !Hload by done. by apply (fr_order _ _ _ Hfr).
  - apply sum_list_with_le. intros n _. apply moved_on_ge; [done|apply Ho].
Qed.

(** When there are at least as many eligible nodes as VIPs, no node is
    given more than one VIP, whatever the previous holders were. *)
Theorem assign_at_most_one_vip_per_node (eligible : list N) (vips : list IpAddr)
    (cur : gmap IpAddr N) (n : N) :
  NoDup eligible → NoDup vips → length vips ≤ length eligible → n ∈ eligible →
  load_of (assign_vips_minimal_movement eligible vips cur) n ≤ 1.
Proof.
  intros Hnde Hnd Hlen Hn. set (a := assign_vips_minimal_movement eligible vips cur).
  assert (eligible ≠ []) as Hne by (intros ->; by apply not_elem_of_nil in Hn).
  destruct (decide (load_of a n ≤ 1)) as [|Hgt]; [done|exfalso].
  pose proof (places_on_total (list_to_set eligible) vips Hnd a
    (assigned_places_on eligible eligible vips cur Hne Hnd)) as Hsum.
  assert (elements (list_to_set eligible : gset N) ≡ₚ eligible) as Hperm
    by by apply elements_list_to_set.
  rewrite Hperm in Hsum. destruct (sum_list_with_split (load_of a) eligible n Hnde Hn)
    as (l' & Hp & _ & _ & Hs).
  assert (length l' ≤ sum_list_with (load_of a) l') as Hge.
  { clear Hs. assert (∀ m, m ∈ l' → 1 ≤ load_of a m) as Hone.
    { intros m Hm. assert (m ∈ eligible) by (rewrite Hp; by constructor).
      pose proof (assigned_load_le eligible eligible vips cur n m Hnd Hn ltac:(done) ltac:(done)) as Hle.
      fold (assign_vips_minimal_movement eligible vips cur) in Hle. fold a in Hle. lia. }
    clear Hp. induction l' as [|m l' IH]; simpl; [lia|].
    pose proof (Hone m ltac:(constructor)). specialize (IH ltac:(intros; apply Hone; by constructor)). lia. }
  apply Permutation_length in Hp. simpl in Hp. lia.
Qed.

(** ** Witnesses *)

(** Another even assignment of the three VIPs, moving one more of them. *)
Definition demo_other : gmap IpAddr N := list_to_map [(V4 1, 2%N); (V4 2, 2%N); (V4 3, 1%N)].

Lemma assign_minimal_movement_witness :
  moved (list_to_set [1%N; 2%N]) demo_cur demo_vips
    (assign_vips_minimal_movement [1%N; 2%N] demo_vips demo_cur)
  ≤ moved (list_to_set [1%N; 2%N]) demo_cur demo_vips demo_other.
Proof.
  apply (assign_minimal_movement [1%N; 2%N] demo_vips demo_cur demo_other).
  - done.
  - apply demo_vips_NoDup.
  - split.
    + intros v Hv. unfold demo_vips in Hv. rewrite !elem_of_cons in Hv.
      destruct Hv as [->|[->|[->|Hv%not_elem_of_nil]]]; [exists 2%N|exists 2%N|exists 1%N|done];
        (split; [set_solver|vm_compute; reflexivity]).
    + intros v Hv. unfold demo_other, demo_vips in *. rewrite !elem_of_cons in Hv.
      simpl. rewrite !lookup_insert_ne by naive_solver. apply lookup_empty.
  - intros n m Hn Hm. assert (n = 1%N ∨ n = 2%N) as [-> | ->] by set_solver;
      assert (m = 1%N ∨ m = 2%N) as [-> | ->] by set_solver; vm_compute; lia.
Defined.

Lemma assign_at_most_one_vip_per_node_witness :
  load_of (assign_vips_minimal_movement [1%N; 2%N; 3%N] demo_vips demo_cur) 1 ≤ 1.
Proof.
  apply (assign_at_most_one_vip_per_node [1%N; 2%N; 3%N] demo_vips demo_cur 1).
  - by apply (bool_decide_unpack _).
  - apply demo_vips_NoDup.
  - simpl. lia.
  - by apply (bool_decide_unpack _).
Defined.
