(* ===== verification/VipRoundRobin.v ===== *)
(** * A cold start is round-robin (src/raft/store/vip_logic.rs)

    With no previous holder every VIP is an orphan, placed in address order on
    the least-loaded node with the lowest identifier.  This file shows that
    the result is the one of [assign_vips_round_robin_eligible]. *)

From S2P Require Import Prelude Text Replica Openraft Admission Types VipLogic VipPlacement VipAssign.

Section cold_start.
Context (eligible : list N).
Context (Hne : eligible ≠ []) (Hnd : NoDup eligible) (Hsorted : StronglySorted N.le eligible).
Let n := length eligible.
Let E : gset N := list_to_set eligible.

(** The loads after [i] placements: the first [i mod n] nodes are one ahead. *)
Definition rr_load (i j : nat) : nat := i / n + (if decide (j < i mod n) then 1 else 0).

Definition rr_loads (i : nat) (p : Placement) : Prop :=
  ∀ j e, eligible !! j = Some e → load_at p e = rr_load i j.

Lemma n_pos : 0 < n.
Proof using Hne. apply Nat.neq_0_lt_0. by intros ?%nil_length_inv. Qed.

Lemma rr_load_ge i j : i / n ≤ rr_load i j.
Proof using. unfold rr_load. lia. Qed.

Lemma rr_load_succ i j :
  j < n → rr_load (S i) j = if decide (j = i mod n) then S (rr_load i j) else rr_load i j.
Proof using Hne.
  intros Hj. pose proof n_pos as Hpos. unfold rr_load.
  pose proof (Nat.div_mod i n ltac:(lia)) as Hi. pose proof (Nat.mod_upper_bound i n ltac:(lia)) as Hm.
  destruct (decide (S (i mod n) = n)) as [Hw|Hw].
  - assert (S i / n = S (i / n) ∧ S i mod n = 0) as [-> ->].
    { split; symmetry; [apply (Nat.div_unique _ _ _ 0)|apply (Nat.mod_unique _ _ (S (i / n)))]; nia. }
    repeat case_decide; lia.
  - assert (S i / n = i / n ∧ S i mod n = S (i mod n)) as [-> ->].
    { split; symmetry; [apply (Nat.div_unique _ _ _ (S (i mod n)))|apply (Nat.mod_unique _ _ (i / n))]; nia. }
    repeat case_decide; lia.
Qed.

Lemma sorted_lookup_le i j a b :
  eligible !! i = Some a → eligible !! j = Some b → (a ≤ b)%N → i ≤ j.
Proof using Hnd Hsorted.
  intros Hi Hj Hab. destruct (decide (i ≤ j)) as [|Hgt]; [done|exfalso].
  assert (b ≤ a)%N by (eapply (StronglySorted_lookup_lt N.le eligible j i); [done..|lia]).
  assert (a = b) as -> by lia. pose proof (NoDup_lookup _ _ _ _ Hnd Hi Hj). lia.
Qed.

(** The least-loaded node after [i] placements. *)
Lemma rr_target i p t l :
  placement_wf E p → rr_loads i p → least_loaded_node (load p) = Some (t, l) →
  eligible !! (i mod n) = Some t.
Proof using Hne Hnd Hsorted.
  intros Hwf Hrr Hl. pose proof n_pos as Hpos.
  pose proof (least_loaded_node_spec (load p)) as Hs. rewrite Hl in Hs. destruct Hs as [Ht Hmin].
  destruct (load_lookup_E _ _ _ _ Hwf Ht) as [HtE ->].
  assert (t ∈ eligible) as (j & Hj)%list_elem_of_lookup_1 by (unfold E in HtE; clear -HtE; set_solver).
  pose proof (Nat.mod_upper_bound i n ltac:(lia)) as Hm.
  destruct (lookup_lt_is_Some_2 eligible (i mod n) Hm) as [e He].
  assert (e ∈ E) as HeE by (unfold E; apply elem_of_list_to_set; by eapply list_elem_of_lookup_2).
  assert (load_at p e = i / n) as Hle.
  { rewrite (Hrr _ _ He). unfold rr_load. rewrite decide_False; lia. }
  destruct (Hmin e (load_at p e)) as [Hle' Heq]; [by eapply load_at_lookup|].
  rewrite (Hrr _ _ Hj), Hle in Hle', Heq. pose proof (rr_load_ge i j) as Hge.
  assert (rr_load i j = i / n) as Hj' by lia. specialize (Heq ltac:(lia)).
  assert (j ≤ i mod n) by by eapply sorted_lookup_le.
  assert (i mod n ≤ j) by (unfold rr_load in Hj'; case_decide; lia).
  assert (j = i mod n) by lia. congruence.
Qed.

Lemma rr_loads_place i p v t :
  rr_loads i p → eligible !! (i mod n) = Some t → rr_loads (S i) (place v t p).
Proof using Hne Hnd.
  intros Hrr Ht j e He. rewrite load_at_place, rr_load_succ by by eapply lookup_lt_Some.
  rewrite (Hrr _ _ He). destruct (decide (t = e)) as [->|Hte].
  - rewrite decide_True; [done|]. by eapply NoDup_lookup.
  - rewrite decide_False; [done|]. intros ->. congruence.
Qed.

(** The round-robin fold starting at position [i]. *)
Definition rr_fold (i : nat) (o : gmap IpAddr N) (vs : list IpAddr) : gmap IpAddr N :=
  foldl (λ o '(k, v),
    match eligible !! (k mod n) with Some h => <[v := h]> o | None => o end)
    o (imap (λ k v, (i + k, v)) vs).

Lemma rr_fold_cons i o v vs h :
  eligible !! (i mod n) = Some h → rr_fold i o (v :: vs) = rr_fold (S i) (<[v := h]> o) vs.
Proof using.
  intros Hh. unfold rr_fold. rewrite imap_cons. simpl. rewrite Nat.add_0_r, Hh. f_equal.
  apply imap_ext. intros. simpl. by rewrite Nat.add_succ_r.
Qed.

Lemma orphan_pass_rr vs i p :
  placement_wf E p → NoDup vs → (∀ v, v ∈ vs → out p !! v = None) → rr_loads i p →
  out (orphan_pass vs p) = rr_fold i (out p) vs
  ∧ rr_loads (i + length vs) (orphan_pass vs p).
Proof using Hne Hnd Hsorted.
  revert i p. induction vs as [|v vs IH]; intros i p Hwf Hndv Hnone Hrr.
  { simpl. by rewrite Nat.add_0_r. }
  apply NoDup_cons in Hndv as [Hv Hndv]. simpl.
  assert (E ≠ ∅) as HE by (apply eligible_set_ne; [done]).
  destruct (least_loaded_node_is_Some _ _ Hwf HE) as [[t l] Hl]. rewrite Hl.
  pose proof (rr_target _ _ _ _ Hwf Hrr Hl) as Ht.
  destruct (orphan_step_spec _ _ _ _ Hwf Hl) as [HtE _].
  rewrite (rr_fold_cons _ _ _ _ _ Ht), Nat.add_succ_r. apply (IH (S i) (place v t p)).
  - apply place_wf; [done..|]. apply Hnone. constructor.
  - done.
  - intros w Hw. simpl. rewrite lookup_insert_ne by set_solver. apply Hnone. by constructor.
  - by apply rr_loads_place.
Qed.

Lemma rr_loads_balanced i p : placement_wf E p → rr_loads i p → balanced_for E E p.
Proof using.
  intros Hwf Hrr a b Ha Hb _.
  assert (∀ e, e ∈ E → ∃ j, eligible !! j = Some e) as Hlook.
  { intros e He. apply list_elem_of_lookup_1. unfold E in He. clear -He. set_solver. }
  destruct (Hlook a Ha) as [j Hj], (Hlook b Hb) as [k Hk].
  rewrite (Hrr _ _ Hj), (Hrr _ _ Hk). unfold rr_load. repeat case_decide; lia.
Qed.
End cold_start.

(** With no previous holder, the minimal-movement assignment of a sorted
    VIP list over a sorted eligible list is exactly round-robin. *)
Theorem assign_cold_start_round_robin (eligible : list N) (vips : list IpAddr) :
  NoDup eligible → StronglySorted N.le eligible → NoDup vips → StronglySorted kle vips →
  assign_vips_minimal_movement eligible vips ∅ = assign_vips_round_robin_eligible eligible vips.
Proof.
  intros Hnde Hse Hnd Hs. destruct (decide (eligible = [])) as [->|Hne]; [done|].
  unfold assign_vips_minimal_movement. rewrite assign_run by done.
  destruct (placement1_spec eligible vips ∅ Hnd) as (Hwf1 & Hout1 & Ho).
  assert (orphans1 eligible vips ∅ = vips) as Horph.
  { rewrite Ho, (sort_unstable_id vips) by done.
    clear. induction vips as [|v vs IH]; [done|]. by rewrite filter_cons_True, IH. }
  assert (out (placement1 eligible vips ∅) = ∅) as Hempty.
  { apply map_eq. intros v. rewrite Hout1, lookup_empty. unfold kept_holder.
    rewrite lookup_empty. by case_decide. }
  assert (rr_loads eligible 0 (placement1 eligible vips ∅)) as Hrr0.
  { intros j e He. rewrite (wf_load _ _ Hwf1).
    2: { apply elem_of_list_to_set. by eapply list_elem_of_lookup_2. }
    replace (held_by (placement1 eligible vips ∅) e) with (∅ : gset IpAddr).
    2: { symmetry. apply set_eq. intros v. rewrite (wf_held _ _ Hwf1), Hempty, lookup_empty. set_solver. }
    rewrite size_empty. unfold rr_load. pose proof (n_pos eligible Hne).
    rewrite Nat.Div0.div_0_l, Nat.Div0.mod_0_l, decide_False; lia. }
  destruct (orphan_pass_rr eligible Hne Hnde Hse vips 0 (placement1 eligible vips ∅)) as [Hout Hrr];
    [done|done|intros v _; by rewrite Hempty|done|].
  assert (placement2 eligible vips ∅ = orphan_pass vips (placement1 eligible vips ∅)) as Hp2.
  { unfold placement2. by rewrite Horph. }
  destruct (placement2_spec eligible vips ∅ Hne Hnd) as (Hwf2 & _).
  unfold placement3, rebalance_fuel. simpl. rewrite Hp2 in *.
  rewrite (proj2 (rebalance_step_None _ (list_to_set eligible) _ Hwf2)).
  - rewrite Hout, Hempty. unfold assign_vips_round_robin_eligible, rr_fold.
    destruct eligible; [done|]. done.
  - by eapply rr_loads_balanced.
Qed.

Lemma assign_cold_start_round_robin_witness :
  assign_vips_minimal_movement [10%N; 20%N] demo_vips ∅
  = assign_vips_round_robin_eligible [10%N; 20%N] demo_vips.
Proof.
  apply (assign_cold_start_round_robin [10%N; 20%N] demo_vips).
  - by apply (bool_decide_unpack _).
  - repeat constructor; simpl; lia.
  - apply demo_vips_NoDup.
  - repeat constructor; simpl; lia.
Defined.
