(* ===== verification/VipFence.v ===== *)
(** * Handoff fencing (reconcile_vip_assignments)

    [handoff] is the contract of one VIP's handoff as a relation: what becomes
    of its assignment, generation and last holder when a new holder map is
    committed.  The loop of [reconcile_vip_assignments] implements it for
    every configured VIP and drops the others' assignments. *)

From S2P Require Import Prelude Text Replica Openraft Admission Types VipLogic.

(** The five ways a VIP goes through a recomputation. *)
Inductive handoff (latest : N) (old : option VipAssignment) (gen last : option N) :
    option N → option VipAssignment → option N → option N → Prop :=
| handoff_vacate_held a :
    old = Some a →
    handoff latest old gen last None None gen (Some (holder a))
| handoff_vacant :
    old = None →
    handoff latest old gen last None None gen last
| handoff_keep a :
    old = Some a →
    handoff latest old gen last (Some (holder a)) (Some a) gen (Some (holder a))
| handoff_change a h :
    old = Some a → holder a ≠ h →
    let g := u64_saturating_add (default 0%N gen) 1 in
    handoff latest old gen last (Some h)
      (Some (mkVipAssignment h g (Some (holder a)) false (u64_saturating_add latest 1)))
      (Some g) (Some h)
| handoff_claim h :
    old = None →
    let g := u64_saturating_add (default 0%N gen) 1 in
    handoff latest old gen last (Some h)
      (Some (mkVipAssignment h g last (bool_decide (last = None))
               (if bool_decide (default 0%N gen = 0%N) then latest else u64_saturating_add latest 1)))
      (Some g) (Some h).

(** What the fences say of one VIP. *)
Definition fence_at (f : Fences) (v : IpAddr) :=
  (old_assignments f !! v, next f !! v, fences_generation f !! v, fences_last_holder f !! v).

Section loop.
Context (new_holders : gmap IpAddr N) (latest : N).
Abbreviation step := (reconcile_vip new_holders latest).

Lemma reconcile_vip_other f v w : w ≠ v → fence_at (step f v) w = fence_at f w.
Proof.
  intros Hne. unfold reconcile_vip, fence_at.
  destruct (new_holders !! v) as [h|], (old_assignments f !! v) as [a|]; simpl;
    [case_bool_decide; simpl| | |];
    rewrite ?lookup_insert_ne, ?lookup_delete_ne by done; done.
Qed.

Lemma reconcile_vip_same f v :
  next f !! v = None →
  handoff latest (old_assignments f !! v) (fences_generation f !! v) (fences_last_holder f !! v)
    (new_holders !! v) (next (step f v) !! v) (fences_generation (step f v) !! v)
    (fences_last_holder (step f v) !! v).
Proof.
  intros Hnext. unfold reconcile_vip.
  destruct (new_holders !! v) as [h|] eqn:Hh; destruct (old_assignments f !! v) as [a|] eqn:Ha; simpl.
  - case_bool_decide as Hd; simpl; simplify_map_eq; by constructor.
  - simplify_map_eq. by constructor.
  - simplify_map_eq. rewrite Hnext. by constructor.
  - rewrite Hnext. by constructor.
Qed.

Abbreviation loop := (foldl (λ f (va : VipAddr * Text), step f (addr va.1))).

Lemma loop_other f l v : v ∉ addr <$> l.*1 → fence_at (loop f l) v = fence_at f v.
Proof.
  revert f. induction l as [|va l IH]; intros f Hv; [done|].
  rewrite !fmap_cons, not_elem_of_cons in Hv. destruct Hv as [Hne Hv]. simpl.
  rewrite IH by done. by apply reconcile_vip_other.
Qed.

Lemma loop_handoff f l v :
  NoDup (addr <$> l.*1) → v ∈ addr <$> l.*1 → next f !! v = None →
  handoff latest (old_assignments f !! v) (fences_generation f !! v) (fences_last_holder f !! v)
    (new_holders !! v) (next (loop f l) !! v) (fences_generation (loop f l) !! v)
    (fences_last_holder (loop f l) !! v).
Proof.
  revert f. induction l as [|va l IH]; intros f Hnd Hv Hnext; [by apply elem_of_nil in Hv|].
  rewrite !fmap_cons in Hnd, Hv. apply NoDup_cons in Hnd as [Hni Hnd]. simpl.
  apply elem_of_cons in Hv as [->|Hv].
  - pose proof (loop_other (step f (addr va.1)) l (addr va.1) Hni) as Hf.
    injection Hf as _ -> -> ->. by apply reconcile_vip_same.
  - assert (v ≠ addr va.1) as Hne by (intros ->; done).
    pose proof (reconcile_vip_other f (addr va.1) v Hne) as Hf. injection Hf as Ho Hx Hg Hl.
    rewrite <- Ho, <- Hg, <- Hl. apply IH; [done..|]. by rewrite Hx.
Qed.
End loop.

(** The contract of the whole function. *)
Definition reconciled (new_holders : gmap IpAddr N) (latest : N) (vips : list IpAddr)
    (A : gmap IpAddr VipAssignment) (G L : gmap IpAddr N)
    (A' : gmap IpAddr VipAssignment) (G' L' : gmap IpAddr N) : Prop :=
  (∀ v, v ∈ vips →
     handoff latest (A !! v) (G !! v) (L !! v) (new_holders !! v) (A' !! v) (G' !! v) (L' !! v)) ∧
  (∀ v, v ∉ vips → A' !! v = None ∧ G' !! v = G !! v ∧ L' !! v = L !! v).

Lemma reconcile_reconciled new_holders latest vip_list A G L :
  NoDup (addr <$> vip_list.*1) →
  let '(A', G', L') := reconcile_vip_assignments new_holders latest vip_list A G L in
  reconciled new_holders latest (addr <$> vip_list.*1) A G L A' G' L'.
Proof.
  intros Hnd. unfold reconcile_vip_assignments.
  set (f0 := mkFences A ∅ G L).
  assert (∀ f l, foldl (λ f '(v, _), reconcile_vip new_holders latest f (addr v)) f l
    = foldl (λ f (va : VipAddr * Text), reconcile_vip new_holders latest f (addr va.1)) f l) as Heq.
  { intros f l. revert f. induction l as [|[??] l IH]; intros f; [done|]. apply IH. }
  rewrite Heq. split; intros v Hv.
  - by apply (loop_handoff new_holders latest f0).
  - pose proof (loop_other new_holders latest f0 vip_list v Hv) as Hf. by injection Hf as _ -> -> ->.
Qed.
