(* ===== verification/Eligibility.v ===== *)
(** * Eligibility

    What it means for a node to be eligible: [unique_voters] keeps exactly the
    physical members with one voting boot, and [eligible_nodes] those of them
    that are healthy, fresh, unblocked and past their failback delay. *)

From S2P Require Import Prelude Text Replica Openraft Admission Types VipLogic.

(** The loop of [unique_voters] on any list of replicas. *)
Definition voters_loop (l : list ReplicaId) : gmap N ReplicaId * gset N :=
  foldl (λ '(voters, ambiguous) r,
    (<[physical_id r := r]> voters,
     match voters !! physical_id r with
     | Some _ => {[physical_id r]} ∪ ambiguous
     | None => ambiguous
     end)) (∅, ∅) l.

(** A physical member is in the map when some voter has its id, and ambiguous
    when two do; the map holds the last of them. *)
Lemma voters_loop_spec l :
  NoDup l →
  (∀ p r, (voters_loop l).1 !! p = Some r → r ∈ l ∧ physical_id r = p) ∧
  (∀ r, r ∈ l → is_Some ((voters_loop l).1 !! physical_id r)) ∧
  (∀ p, p ∈ (voters_loop l).2 ↔
     ∃ r r', r ∈ l ∧ r' ∈ l ∧ r ≠ r' ∧ physical_id r = p ∧ physical_id r' = p).
Proof.
  induction l as [|x l IH] using rev_ind; intros Hnd.
  { split_and!; [set_solver..|]. intros p. split; set_solver. }
  apply NoDup_snoc in Hnd as [Hx Hnd]. destruct (IH Hnd) as (Hin & Hall & Hamb).
  unfold voters_loop in *. rewrite foldl_app. simpl.
  destruct (foldl _ _ l) as [voters ambiguous]; simpl in *. split_and!.
  - intros p r [[<- <-]|[_ Hp]]%lookup_insert_Some; [set_solver|].
    destruct (Hin p r Hp). set_solver.
  - intros r [Hr|Hr%list_elem_of_singleton]%elem_of_app; [|by rewrite Hr, lookup_insert_eq].
    destruct (decide (physical_id r = physical_id x)) as [->|Hne]; [by rewrite lookup_insert_eq|].
    rewrite lookup_insert_ne by done. by apply Hall.
  - intros p. destruct (voters !! physical_id x) as [y|] eqn:Hy.
    + destruct (Hin _ _ Hy) as [Hyl Hyp]. rewrite elem_of_union, elem_of_singleton, Hamb. split.
      * intros [->|(r & r' & ?)]; [exists y, x|exists r, r']; set_solver.
      * intros (r & r' & Hr & Hr' & Hne & <- & Hp). rewrite elem_of_app, list_elem_of_singleton in Hr, Hr'.
        destruct Hr as [Hr| ->]; [|by left]. destruct Hr' as [Hr'| ->]; [|by left].
        right. exists r, r'. done.
    + rewrite Hamb. split; [intros (r & r' & ?); exists r, r'; set_solver|].
      intros (r & r' & Hr & Hr' & Hne & <- & Hp). rewrite elem_of_app, list_elem_of_singleton in Hr, Hr'.
      assert (∀ z, z ∈ l → physical_id z ≠ physical_id x) as Hno.
      { intros z Hz Heq. destruct (Hall z Hz) as [? Hz']. rewrite Heq in Hz'. congruence. }
      destruct Hr as [Hr| ->], Hr' as [Hr'| ->]; [by exists r, r'| | |done].
      * exfalso. by eapply Hno.
      * exfalso. by eapply Hno.
Qed.

Section eligibility.
Context {O : Openraft} {laws : OpenraftLaws O}.

(** Exactly the physical members with one voting boot. *)
Lemma unique_voters_spec (m : Membership) p r :
  unique_voters m !! p = Some r ↔
  r ∈ voter_ids m ∧ physical_id r = p ∧ ∀ r', r' ∈ voter_ids m → physical_id r' = p → r' = r.
Proof using laws.
  destruct (voters_loop_spec (voter_ids m) (voter_ids_NoDup m)) as (Hin & Hall & Hamb).
  unfold unique_voters. fold (voters_loop (voter_ids m)).
  destruct (voters_loop (voter_ids m)) as [voters ambiguous]; simpl in *.
  rewrite map_lookup_filter_Some, Hamb; simpl. split.
  - intros [Hp Hna]. destruct (Hin p r Hp) as [Hr <-]. split_and!; [done..|].
    intros r' Hr' Hp'. destruct (decide (r' = r)) as [|Hne]; [done|].
    exfalso. apply Hna. by exists r', r.
  - intros (Hr & <- & Huniq). split.
    + destruct (Hall r Hr) as [y Hy]. destruct (Hin _ _ Hy) as [Hyl Hyp].
      by rewrite Hy, (Huniq y).
    + intros (r1 & r2 & H1 & H2 & Hne & Hp1 & Hp2). apply Hne.
      rewrite (Huniq r1), (Huniq r2) by done. done.
Qed.

Lemma elem_of_eligible_nodes (m : StoredMembership) inputs blocked id :
  id ∈ eligible_nodes m inputs blocked ↔
  is_Some (unique_voters (membership m) !! id) ∧ is_node_eligible id inputs blocked = true.
Proof.
  unfold eligible_nodes. rewrite list_elem_of_filter, sort_unstable_perm, list_elem_of_fmap.
  split.
  - intros (He & [k r] & -> & Hk%elem_of_btree_iter). by split; [exists r|].
  - intros ([r Hr] & He). split; [done|]. exists (id, r). split; [done|]. by apply elem_of_btree_iter.
Qed.

Lemma eligible_nodes_sorted (m : StoredMembership) inputs blocked :
  StronglySorted kle (eligible_nodes m inputs blocked) ∧ NoDup (eligible_nodes m inputs blocked).
Proof.
  unfold eligible_nodes. split.
  - apply StronglySorted_list_filter, sort_unstable_sorted.
  - apply NoDup_filter. rewrite sort_unstable_perm. apply btree_iter_NoDup_fst.
Qed.
End eligibility.

(** The conditions of [is_node_eligible], as a proposition. *)
Lemma is_node_eligible_true id inputs blocked :
  is_node_eligible id inputs blocked = true ↔
  id ∉ blocked ∧ inputs_node_health inputs !! id = Some true ∧
  (∃ t, inputs_node_probe_ticks inputs !! id = Some t ∧
     (inputs_latest_probe_tick inputs ≤ t + inputs_stale_missed_probes inputs)%N) ∧
  (∀ t, inputs_node_recovery_tick inputs !! id = Some t →
     (t + inputs_failback_delay_ticks inputs ≤ inputs_latest_probe_tick inputs
      ∨ inputs_failback_delay_ticks inputs = 0)%N).
Proof.
  unfold is_node_eligible, is_node_base_eligible, is_node_probe_fresh, u64_saturating_sub.
  destruct (inputs_node_health inputs !! id) as [[]|], (inputs_node_probe_ticks inputs !! id) as [tk|],
    (inputs_node_recovery_tick inputs !! id) as [rt|]; simpl;
    repeat case_bool_decide; simpl; (split; [intros Hc|intros (Hb & Hh & (t & Ht & Hf) & Hd)]);
    simplify_eq; split_and?; try done; eauto with lia; try (eexists; split; [done|lia]).
  all: try (intros t [= <-]; lia).
  all: try lia.
  all: destruct (Hd _ eq_refl); lia.
Qed.

(** A member is made fresh and healthy by one healthy update: its round joins the frontier. *)
Lemma next_probe_tick_fresh ticks health node_id prev latest stale :
  is_node_base_eligible node_id (<[node_id := true]> health)
    (<[node_id := next_probe_tick prev latest]> ticks) (next_probe_tick prev latest) stale = true.
Proof.
  unfold is_node_base_eligible, is_node_probe_fresh. rewrite !lookup_insert_eq. simpl.
  apply bool_decide_eq_true_2. unfold u64_saturating_sub. lia.
Qed.
