(* ===== verification/State.v ===== *)
(** * The shared Raft state and its snapshot (src/raft/store/state.rs)

    [KafStorageState] with its constructor and the binding of the local
    admission session, [KafSnapshot], how a snapshot is taken and how it is
    restored. *)

From S2P Require Import Prelude Io Text Replica Openraft Admission Types VipLogic.
Local Open Scope kaf_scope.

Section state.
Context {O : Openraft}.

(** [KafSnapshot]: the replicated fields. *)
Record KafSnapshot := mkKafSnapshot {
  snap_prepared_join : option PreparedJoin;
  snap_completed_joins : gmap N CompletedJoin;
  snap_genesis : option Genesis;
  snap_applied_progress : gmap N AppliedHealthProgress;
  snap_last_applied : option LogId;
  snap_last_membership : StoredMembership;
  snap_node_health : gmap N bool;
  snap_node_probe_ticks : gmap N N;
  snap_latest_probe_tick : N;
  snap_vip_assignments : gmap IpAddr VipAssignment;
  snap_vip_generation : gmap IpAddr N;
  snap_vip_last_holder : gmap IpAddr N;
  snap_cluster_epoch : option N;
  snap_node_recovery_tick : gmap N N;
  snap_node_failback_blocked : gset N;
  snap_failover_semantics : FailoverSemantics;
  snap_config_identity_enforced : bool;
  snap_node_nopreempt : gset N;
  snap_node_recovery_pending : gset N
}.

#[global] Instance KafSnapshot_eta : Eta KafSnapshot := λ s,
  mkKafSnapshot (snap_prepared_join s) (snap_completed_joins s) (snap_genesis s)
    (snap_applied_progress s) (snap_last_applied s) (snap_last_membership s)
    (snap_node_health s) (snap_node_probe_ticks s) (snap_latest_probe_tick s)
    (snap_vip_assignments s) (snap_vip_generation s) (snap_vip_last_holder s)
    (snap_cluster_epoch s) (snap_node_recovery_tick s) (snap_node_failback_blocked s)
    (snap_failover_semantics s) (snap_config_identity_enforced s) (snap_node_nopreempt s)
    (snap_node_recovery_pending s).

(** [KafStorageState]. *)
Record KafStorageState := mkKafStorageState {
  prepared_join : option PreparedJoin;
  completed_joins : gmap N CompletedJoin;
  state_genesis : option Genesis;
  applied_progress : gmap N AppliedHealthProgress;
  admission : option AdmissionSession;
  admission_required : bool;
  last_purged_log_id : option LogId;
  log : gmap N Entry;
  vote : option Vote;
  committed : option LogId;
  last_applied_log : option LogId;
  last_membership : StoredMembership;
  node_health : gmap N bool;
  node_probe_ticks : gmap N N;
  latest_probe_tick : N;
  vip_assignments : gmap IpAddr VipAssignment;
  vip_generation : gmap IpAddr N;
  vip_last_holder : gmap IpAddr N;
  cluster_epoch : option N;
  vip_list : list (VipAddr * Text);
  stale_missed_probes : N;
  failback : bool;
  failback_delay_ticks : N;
  node_recovery_tick : gmap N N;
  node_failback_blocked : gset N;
  failover_semantics : FailoverSemantics;
  config_identity_enforced : bool;
  node_nopreempt : gset N;
  node_recovery_pending : gset N;
  current_snapshot : option KafSnapshot
}.

#[global] Instance KafStorageState_eta : Eta KafStorageState := λ s,
  mkKafStorageState (prepared_join s) (completed_joins s) (state_genesis s) (applied_progress s)
    (admission s) (admission_required s) (last_purged_log_id s) (log s) (vote s) (committed s)
    (last_applied_log s) (last_membership s) (node_health s) (node_probe_ticks s)
    (latest_probe_tick s) (vip_assignments s) (vip_generation s) (vip_last_holder s)
    (cluster_epoch s) (vip_list s) (stale_missed_probes s) (failback s) (failback_delay_ticks s)
    (node_recovery_tick s) (node_failback_blocked s) (failover_semantics s)
    (config_identity_enforced s) (node_nopreempt s) (node_recovery_pending s) (current_snapshot s).

(** [impl From<&KafStorageState> for KafSnapshot]. *)
Definition snapshot_from (s : KafStorageState) : KafSnapshot := {|
  snap_prepared_join := prepared_join s;
  snap_completed_joins := completed_joins s;
  snap_genesis := state_genesis s;
  snap_applied_progress := applied_progress s;
  snap_last_applied := last_applied_log s;
  snap_last_membership := last_membership s;
  snap_node_health := node_health s;
  snap_node_probe_ticks := node_probe_ticks s;
  snap_latest_probe_tick := latest_probe_tick s;
  snap_vip_assignments := vip_assignments s;
  snap_vip_generation := vip_generation s;
  snap_vip_last_holder := vip_last_holder s;
  snap_cluster_epoch := cluster_epoch s;
  snap_node_recovery_tick := node_recovery_tick s;
  snap_node_failback_blocked := node_failback_blocked s;
  snap_failover_semantics := failover_semantics s;
  snap_config_identity_enforced := config_identity_enforced s;
  snap_node_nopreempt := node_nopreempt s;
  snap_node_recovery_pending := node_recovery_pending s
|}.

(** [KafSnapshot::restore_into]. *)
Definition restore_into (snap : KafSnapshot) (state : KafStorageState) : KafStorageState :=
  let state := state
    <| prepared_join := snap_prepared_join snap |>
    <| completed_joins := snap_completed_joins snap |>
    <| state_genesis := snap_genesis snap |>
    <| applied_progress := snap_applied_progress snap |>
    <| last_applied_log := snap_last_applied snap |>
    <| last_membership := snap_last_membership snap |>
    <| node_health := snap_node_health snap |>
    <| node_probe_ticks := snap_node_probe_ticks snap |>
    <| latest_probe_tick := snap_latest_probe_tick snap |>
    <| vip_assignments := snap_vip_assignments snap |>
    <| vip_generation := snap_vip_generation snap |>
    <| vip_last_holder := snap_vip_last_holder snap |>
    <| cluster_epoch := snap_cluster_epoch snap |>
    <| node_recovery_tick := snap_node_recovery_tick snap |>
    <| failover_semantics := snap_failover_semantics snap |>
    <| config_identity_enforced := snap_config_identity_enforced snap |>
    <| node_nopreempt := snap_node_nopreempt snap |>
    <| node_recovery_pending := snap_node_recovery_pending snap |> in
  match failover_semantics state, failback state with
  | Legacy, true => state <| node_failback_blocked := ∅ |>
  | Legacy, false => state <| node_failback_blocked := snap_node_failback_blocked snap |>
  | V2, true => state <| node_failback_blocked := ∅ |> <| node_nopreempt := ∅ |>
  | V2, false =>
      state <| node_failback_blocked := ∅ |>
            <| node_recovery_pending := ∅ |>
            <| node_recovery_tick := ∅ |>
  end.

(** [KafStorageState::new]. *)
Definition new_state (vip_list : list (VipAddr * Text)) (stale_missed_probes : N)
    (failback : bool) (failback_delay_ticks : N) : KafStorageState := {|
  prepared_join := None;
  completed_joins := ∅;
  state_genesis := None;
  applied_progress := ∅;
  admission := None;
  admission_required := true;
  last_purged_log_id := None;
  log := ∅;
  vote := None;
  committed := None;
  last_applied_log := None;
  last_membership := mkStoredMembership O None membership_default;
  node_health := ∅;
  node_probe_ticks := ∅;
  latest_probe_tick := 0;
  vip_assignments := ∅;
  vip_generation := ∅;
  vip_last_holder := ∅;
  cluster_epoch := None;
  vip_list := vip_list;
  stale_missed_probes := stale_missed_probes;
  failback := failback;
  failback_delay_ticks := failback_delay_ticks;
  node_recovery_tick := ∅;
  node_failback_blocked := ∅;
  failover_semantics := Legacy;
  config_identity_enforced := false;
  node_nopreempt := ∅;
  node_recovery_pending := ∅;
  current_snapshot := None
|}.

(** [KafStorageState::bind_admission]. *)
Definition bind_admission (state : KafStorageState) (session : AdmissionSession) (now : Instant)
  : Result KafStorageState AdmissionDenied :=
  session_check session now ;?
  match admission state with
  | Some _ => Err (mkAdmissionDenied "admission context is already bound")
  | None =>
      if match state_genesis state with
         | Some genesis => negb (bool_decide (genesis = context_genesis (context session)))
         | None => false
         end
      then Err (mkAdmissionDenied "admission genesis differs from applied history")
      else Ok (state <| admission := Some session |>)
  end.

(** [impl From<&KafStorageState> for EligibilityInputs] (src/raft/store/vip_logic.rs). *)
Definition eligibility_from (s : KafStorageState) : EligibilityInputs := {|
  inputs_node_health := node_health s;
  inputs_node_probe_ticks := node_probe_ticks s;
  inputs_latest_probe_tick := latest_probe_tick s;
  inputs_stale_missed_probes := stale_missed_probes s;
  inputs_failback_delay_ticks := failback_delay_ticks s;
  inputs_node_recovery_tick := node_recovery_tick s
|}.

(** [cfg!(test)]: false in the daemon. *)
Definition cfg_test : bool := false.

(** [check_mutation] (src/raft/store/authority.rs). *)
Definition check_mutation (state : KafStorageState) (now : Instant) : Result unit IoError :=
  if negb (admission_required state) && cfg_test then Ok tt
  else match admission state with
  | None => Err (mkIoError PermissionDenied "storage requires local admission")
  | Some session =>
      match session_check session now with
      | Ok _ => Ok tt
      | Err e => Err (mkIoError PermissionDenied (denied_reason e))
      end
  end.

(** [openraft::Snapshot]: the metadata and the serialized payload. *)
Record Snapshot := mkSnapshot {
  meta_last_log_id : option LogId;
  meta_last_membership : StoredMembership;
  snapshot_data : list N
}.

(** [KafStorageState::snapshot_at]; the encoder is [serde_json::to_vec]. *)
Definition snapshot_at (to_vec : KafSnapshot → Result (list N) string) (s : KafStorageState)
    (last_applied : LogId) : Result Snapshot IoError :=
  let snap := snapshot_from s <| snap_last_applied := Some last_applied |> in
  match to_vec snap with
  | Err e => Err (mkIoError InvalidData e)
  | Ok data => Ok (mkSnapshot (Some last_applied) (last_membership s) data)
  end.

End state.
