(* ===== verification/StoreMembership.v ===== *)
(** * Admission history and membership transitions (src/raft/store/membership.rs)

    The replicated learner-join protocol (prepare, acknowledge, promote or
    cancel) and the effect of a committed membership entry. *)

From S2P Require Import Prelude Io Text Replica Openraft Admission Types VipLogic State.

Section membership.
Context {O : Openraft}.

(** [membership.voter_ids().collect::<BTreeSet<_>>()]. *)
Definition voter_set (m : Membership) : gset ReplicaId := list_to_set (voter_ids m).

(** [KafStorageState::apply_admission_membership]. *)
Definition apply_admission_membership (state : KafStorageState) (command : AdmissionCommand)
    (log_id : LogId) : KafStorageState * KafResponse :=
  let membership := membership (last_membership state) in
  match command with
  | CancelJoin p prep =>
      match prepared_join state with
      | None => (state, Rejected "no join is pending")
      | Some pending =>
          if negb (bool_decide (plan pending = p))
             || negb (bool_decide (prepared pending = prep))
             || negb (bool_decide (state_genesis state = Some (plan_genesis p)))
             || bool_decide (index log_id ≤ index prep)%N
             || negb (bool_decide (joint_config_len membership = 1))
             || negb (bool_decide (voter_set membership = previous_voters p))
             || bool_decide (consumer p ∈ node_ids membership)
          then (state, Rejected "cancellation requires the exact pending join and removed learner")
          else (state <| prepared_join := None |>, KafOk)
      end
  | PrepareJoin p =>
      if is_err (plan_validate p)
         || negb (bool_decide (state_genesis state = Some (plan_genesis p)))
      then (state, Rejected "join plan differs from immutable genesis or replacement")
      else match prepared_join state with
      | Some pending =>
          if bool_decide (plan pending = p) then (state, KafOk)
          else (state, Rejected "another join is pending")
      | None =>
          if negb (bool_decide (joint_config_len membership = 1))
             || negb (bool_decide (voter_set membership = previous_voters p))
          then (state, Rejected "join requires the exact stable applied voter set")
          else (state <| prepared_join := Some (mkPreparedJoin p log_id None) |>, KafOk)
      end
  | LearnerApplied c nonce prep =>
      match prepared_join state with
      | None => (state, Rejected "no join is pending")
      | Some pending =>
          if negb (bool_decide (consumer (plan pending) = c))
             || negb (bool_decide (plan_nonce (plan pending) = nonce))
             || negb (bool_decide (prepared pending = prep))
             || negb (bool_decide (state_genesis state = Some (plan_genesis (plan pending))))
          then (state, Rejected "learner acknowledgement differs from prepared join")
          else match learner_applied pending with
          | Some _ => (state, KafOk)
          | None =>
              if negb (bool_decide (c ∈ learner_ids membership))
                 || negb (bool_decide (joint_config_len membership = 1))
                 || negb (bool_decide (voter_set membership = previous_voters (plan pending)))
                 || bool_decide (index log_id ≤ index prep)%N
              then (state, Rejected "acknowledgement requires the prepared learner stage")
              else (state <| prepared_join :=
                      Some (mkPreparedJoin (plan pending) (prepared pending) (Some log_id)) |>, KafOk)
          end
      end
  end.

(** The removals of the loop over [physical]: a changed boot loses its evidence. *)
Definition forget_node (state : KafStorageState) (id : N) : KafStorageState :=
  state
    <| node_health := delete id (node_health state) |>
    <| node_probe_ticks := delete id (node_probe_ticks state) |>
    <| node_recovery_tick := delete id (node_recovery_tick state) |>
    <| applied_progress := delete id (applied_progress state) |>.

(** The body of that loop. *)
Definition forget_changed (before after : gmap N ReplicaId) (state : KafStorageState) (id : N)
  : KafStorageState :=
  if bool_decide (is_Some (state_genesis state)) && negb (bool_decide (before !! id = after !! id))
  then forget_node state id else state.

(** [applied_progress.retain(..)]: only replicas of the new membership. *)
Definition retain_progress (m : Membership) (state : KafStorageState) : KafStorageState :=
  state <| applied_progress :=
      filter (λ kv, replica (request kv.2) ∈ node_ids m) (applied_progress state) |>.

(** The promotion a membership entry completes, if any. *)
Definition completes_join (state : KafStorageState) (m : Membership) (log_id : LogId) : option PreparedJoin :=
  match prepared_join state with
  | Some pending =>
      if match learner_applied pending with
         | Some ack => bool_decide (index ack < index log_id)%N
         | None => false
         end
         && bool_decide (joint_config_len m = 1)
         && bool_decide (voter_set m = next_voters (plan pending))
      then Some pending else None
  | None => None
  end.

(** The [if let Some(pending)] of [apply_membership]: record the promotion. *)
Definition promote_join (m : Membership) (log_id : LogId) (state : KafStorageState)
  : KafStorageState :=
  match completes_join state m log_id with
  | Some pending =>
      state
        <| completed_joins :=
             <[physical_id (consumer (plan pending)) := mkCompletedJoin pending log_id]>
               (completed_joins state) |>
        <| prepared_join := None |>
  | None => state
  end.

(** [KafStorageState::apply_membership]. *)
Definition apply_membership (state : KafStorageState) (m : Membership) (log_id : LogId)
  : KafStorageState :=
  let before := unique_voters (membership (last_membership state)) in
  let after := unique_voters m in
  let physical : gset N := dom before ∪ dom after in
  let state := foldl (forget_changed before after) state (btree_keys physical) in
  let state := retain_progress m state in
  let state := promote_join m log_id state in
  state <| last_membership := mkStoredMembership O (Some log_id) m |>.

End membership.
