(* ===== verification/StateMachine.v ===== *)
(** * The replicated state machine (src/raft/store/state_machine.rs)

    [apply_one] and the functions it dispatches to, the stream loop [apply]
    with its admission check, and the snapshot operations. *)

From S2P Require Import Prelude Io Text Replica Openraft Admission Types VipLogic State StoreMembership.
Local Open Scope kaf_scope.

Section machine.
Context {O : Openraft}.

(** [activate_v2]. *)
Definition activate_v2 (state : KafStorageState) : KafStorageState :=
  if bool_decide (failover_semantics state = V2) then state
  else
    let state := state <| failover_semantics := V2 |> in
    let state :=
      if failback state
      then state <| node_recovery_pending := node_recovery_pending state ∪ dom (node_recovery_tick state) |>
      else state <| node_nopreempt := node_nopreempt state ∪ node_failback_blocked state |>
                 <| node_recovery_tick := ∅ |> in
    state <| node_failback_blocked := ∅ |>.

(** [!members.contains_key(node) || !is_node_base_eligible(node, ..)]. *)
Definition is_failed (state : KafStorageState) (members : gmap N ReplicaId) (node_id : N) : bool :=
  bool_decide (members !! node_id = None)
  || negb (is_node_base_eligible node_id (node_health state) (node_probe_ticks state)
             (latest_probe_tick state) (stale_missed_probes state)).

(** The owners of some VIP that are no longer base-eligible members. *)
Definition failed_owners (state : KafStorageState) (members : gmap N ReplicaId) : gset N :=
  list_to_set (filter (λ node_id, is_failed state members node_id = true)
                 ((λ kv : IpAddr * VipAssignment, holder kv.2) <$> btree_iter (vip_assignments state))).

(** The body of the loop over the pending nodes: the recovery ticks and the
    nodes whose delay is complete. *)
Definition recovery_step (state : KafStorageState) (members : gmap N ReplicaId)
    (acc : gmap N N * list N) (node_id : N) : gmap N N * list N :=
  let '(ticks, completed) := acc in
  if is_failed state members node_id then (delete node_id ticks, completed)
  else
    let recovery_tick := default (latest_probe_tick state) (ticks !! node_id) in
    let ticks := <[node_id := recovery_tick]> ticks in
    if bool_decide (failback_delay_ticks state
                      ≤ u64_saturating_sub (latest_probe_tick state) recovery_tick)%N
    then (ticks, completed ++ [node_id]) else (ticks, completed).

(** The body of the loop over the failed owners. *)
Definition note_failed (state : KafStorageState) (node_id : N) : KafStorageState :=
  state <| node_recovery_pending := {[node_id]} ∪ node_recovery_pending state |>
        <| node_recovery_tick := delete node_id (node_recovery_tick state) |>.

(** The body of the loop over the completed recoveries. *)
Definition finish_recovery (state : KafStorageState) (node_id : N) : KafStorageState :=
  state <| node_recovery_pending := node_recovery_pending state ∖ {[node_id]} |>
        <| node_recovery_tick := delete node_id (node_recovery_tick state) |>.

(** [update_v2_failback_tracking]. *)
Definition update_v2_failback_tracking (state : KafStorageState) : KafStorageState :=
  let members := unique_voters (membership (last_membership state)) in
  let failed := failed_owners state members in
  if negb (failback state) then
    state <| node_nopreempt := node_nopreempt state ∪ failed |>
          <| node_recovery_pending := ∅ |>
          <| node_recovery_tick := ∅ |>
  else
    let state := state <| node_nopreempt := ∅ |> in
    let state := foldl note_failed state (btree_keys failed) in
    let pending := btree_keys (node_recovery_pending state) in
    let '(ticks, completed) :=
      foldl (recovery_step state members) (node_recovery_tick state, []) pending in
    let state := state <| node_recovery_tick := ticks |> in
    foldl finish_recovery state completed.

(** [apply_health]. *)
Definition apply_health (state : KafStorageState) (node_id : N) (healthy : bool) : KafStorageState :=
  let previous_health := node_health state !! node_id in
  let state := state <| node_health := <[node_id := healthy]> (node_health state) |> in
  let next_tick := next_probe_tick (node_probe_ticks state !! node_id) (latest_probe_tick state) in
  let state := state <| node_probe_ticks := <[node_id := next_tick]> (node_probe_ticks state) |>
                     <| latest_probe_tick := next_tick |> in
  match failover_semantics state, healthy with
  | Legacy, true =>
      if failback state && bool_decide (previous_health = Some false)
      then state <| node_recovery_tick := <[node_id := next_tick]> (node_recovery_tick state) |>
      else state
  | Legacy, false =>
      let state := state <| node_recovery_tick := delete node_id (node_recovery_tick state) |> in
      if negb (failback state) && bool_decide (previous_health = Some true)
      then state <| node_failback_blocked := {[node_id]} ∪ node_failback_blocked state |>
      else state
  | V2, _ => state
  end.

(** The [AdmissionGenesis] arm. *)
Definition apply_genesis (state : KafStorageState) (g : Genesis) : KafStorageState * KafResponse * bool :=
  if match state_genesis state with
     | Some current => negb (bool_decide (current = g)) | None => false end
     || match cluster_epoch state with
        | Some e => negb (bool_decide (e = epoch g)) | None => false end
  then (state, Rejected "immutable genesis mismatch", false)
  else
    let '(state, should_recompute) :=
      if bool_decide (state_genesis state = None) then
        let state := state <| node_health := ∅ |> <| node_probe_ticks := ∅ |>
                           <| node_recovery_tick := ∅ |> <| applied_progress := ∅ |> in
        (activate_v2 state <| config_identity_enforced := true |>, true)
      else (state, false) in
    (state <| state_genesis := Some g |> <| cluster_epoch := Some (epoch g) |>, KafOk, should_recompute).

(** The [HealthProgress] arm. *)
Definition apply_progress (state : KafStorageState) (progress : HealthProgress) (log_id : LogId)
  : KafStorageState * KafResponse * bool :=
  if is_err (progress_validate progress)
     || negb (bool_decide (state_genesis state = Some (genesis progress)))
     || negb (bool_decide (replica progress ∈ node_ids (membership (last_membership state))))
  then (state, Rejected "progress context differs from committed genesis", false)
  else
    let voters := unique_voters (membership (last_membership state)) in
    let state := state <| applied_progress :=
        <[Admission.node_id progress := mkAppliedHealthProgress progress log_id]> (applied_progress state) |> in
    match Admission.healthy progress with
    | Some healthy =>
        let eligible := bool_decide (voters !! Admission.node_id progress = Some (replica progress)) in
        (apply_health state (Admission.node_id progress) (healthy && eligible), KafOk, true)
    | None => (state, KafOk, false)
    end.

(** The [VipReleased] arm. *)
Definition apply_release (state : KafStorageState) (node_id : N) (vip : IpAddr) (gen : N) : KafStorageState :=
  match vip_assignments state !! vip with
  | Some a =>
      if bool_decide (generation a = gen) && bool_decide (previous_holder a = Some node_id)
      then state <| vip_assignments :=
             <[vip := mkVipAssignment (holder a) (generation a) (previous_holder a) true (activation_tick a)]>
               (vip_assignments state) |>
      else state
  | None => state
  end.

(** The dispatch of [apply_one]: the new state, the response and [should_recompute].
    The arms that [return] early do not recompute. *)
Definition dispatch (state : KafStorageState) (entry : Entry) : KafStorageState * KafResponse * bool :=
  match payload entry with
  | Blank => (state, KafOk, false)
  | Normal req =>
      match req with
      | AdmissionMembership command =>
          (apply_admission_membership state command (entry_log_id entry), false)
      | AdmissionGenesis g => apply_genesis state g
      | HealthProgressReq progress => apply_progress state progress (entry_log_id entry)
      | HealthUpdate node_id healthy =>
          if bool_decide (is_Some (state_genesis state))
          then (state, Rejected "physical-only health has no boot authority", false)
          else (apply_health state node_id healthy, KafOk, true)
      | VipReleased node_id vip generation => (apply_release state node_id vip generation, KafOk, false)
      | ClusterFormed cluster_id semantics enforced =>
          if bool_decide (cluster_epoch state = None) then
            let state := state <| cluster_epoch := Some cluster_id |>
                               <| config_identity_enforced := config_identity_enforced state || enforced |> in
            if bool_decide (semantics = V2) then (activate_v2 state, KafOk, true)
            else (state, KafOk, false)
          else (state, KafOk, false)
      | EnableFailoverSemanticsV2 => (activate_v2 state, KafOk, true)
      | EnableConfigIdentityV1 => (state <| config_identity_enforced := true |>, KafOk, false)
      end
  | MembershipChange mem => (apply_membership state mem (entry_log_id entry), KafOk, true)
  end.

(** The holder map the recomputation derives from the prior holders. *)
Definition new_holders (state : KafStorageState) (current_holders : gmap IpAddr N) : gmap IpAddr N :=
  let eligibility := eligibility_from state in
  match failover_semantics state with
  | Legacy =>
      recompute_vip_holder (last_membership state) eligibility (node_failback_blocked state)
        (vip_list state) current_holders
  | V2 =>
      recompute_vip_holder_v2 (last_membership state) eligibility (node_nopreempt state)
        (vip_list state) current_holders
  end.

(** The recomputation proper: derive the holders and reconcile the fences. *)
Definition settle (state : KafStorageState) : KafStorageState :=
  let current_holders := holder <$> vip_assignments state in
  let vip_holder := new_holders state current_holders in
  let '(assignments, generations, last_holders) :=
    reconcile_vip_assignments vip_holder (latest_probe_tick state) (vip_list state)
      (vip_assignments state) (vip_generation state) (vip_last_holder state) in
  state <| vip_assignments := assignments |>
        <| vip_generation := generations |>
        <| vip_last_holder := last_holders |>.

(** The [if should_recompute] block of [apply_one]. *)
Definition recompute (state : KafStorageState) : KafStorageState :=
  settle (if bool_decide (failover_semantics state = V2)
          then update_v2_failback_tracking state else state).

(** [apply_one]. *)
Definition apply_one (state : KafStorageState) (entry : Entry) : KafStorageState * KafResponse :=
  let state := state <| last_applied_log := Some (entry_log_id entry) |> in
  let '(state, resp, should_recompute) := dispatch state entry in
  (if should_recompute then recompute state else state, resp).

(** One item of the stream [apply] consumes: an entry with or without a
    responder, or the error of the stream. *)
Definition StreamItem := Result (Entry * bool) IoError.

(** [RaftStateMachine::apply]: each entry is checked against the local admission
    at the instant its write lock is held, then applied and answered through its
    responder.  The result is the final state, the responses sent and the outcome. *)
Fixpoint apply (state : KafStorageState) (entries : list (Instant * StreamItem))
  : KafStorageState * list KafResponse * Result unit IoError :=
  match entries with
  | [] => (state, [], Ok tt)
  | (_, Err e) :: _ => (state, [], Err e)
  | (now, Ok (entry, responder)) :: entries =>
      match check_mutation state now with
      | Err e => (state, [], Err e)
      | Ok _ =>
          let '(state, resp) := apply_one state entry in
          let '(state, sent, result) := apply state entries in
          (state, if responder : bool then resp :: sent else sent, result)
      end
  end.

(** Entries applied without the admission check, as [apply_one] composes. *)
Definition apply_all (state : KafStorageState) (entries : list Entry) : KafStorageState :=
  foldl (λ s e, (apply_one s e).1) state entries.

(** [applied_state]. *)
Definition applied_state (state : KafStorageState) : option LogId * StoredMembership :=
  (last_applied_log state, last_membership state).

(** [RaftSnapshotBuilder::build_snapshot]. *)
Definition build_snapshot (to_vec : KafSnapshot → Result (list N) string) (state : KafStorageState)
  : Result Snapshot IoError :=
  match last_applied_log state with
  | None => Err (mkIoError NotFound "no applied logs")
  | Some last_applied => snapshot_at to_vec state last_applied
  end.

(** [get_current_snapshot]. *)
Definition get_current_snapshot (to_vec : KafSnapshot → Result (list N) string) (state : KafStorageState)
  : Result (option Snapshot) IoError :=
  match last_applied_log state with
  | None => Ok None
  | Some last_applied =>
      snap <-? snapshot_at to_vec state last_applied;
      Ok (Some snap)
  end.

(** Comparison of optional indices as Rust orders [Option<u64>]: [None] first. *)
Definition opt_index_lt (a b : option N) : bool :=
  match a, b with
  | None, None => false
  | None, Some _ => true
  | Some _, None => false
  | Some x, Some y => (x <? y)%N
  end.

(** The purge of [install_snapshot]: entries the snapshot covers leave the log,
    and the purge frontier never moves back. *)
Definition purge_covered (snap_last : LogId) (state : KafStorageState) : KafStorageState :=
  let state := state <| log := filter (λ kv, ¬ (kv.1 ≤ index snap_last)%N) (log state) |> in
  if opt_index_lt (index <$> last_purged_log_id state) (Some (index snap_last))
  then state <| last_purged_log_id := Some snap_last |> else state.

(** The mutation of [install_snapshot], once its checks passed. *)
Definition adopt_snapshot (snap : KafSnapshot) (state : KafStorageState) : KafStorageState :=
  let state := restore_into snap state in
  let state :=
    match snap_last_applied snap with
    | Some snap_last => purge_covered snap_last state
    | None => state
    end in
  state <| current_snapshot := Some snap |>.

(** [install_snapshot]; the decoder is [serde_json::from_slice] and [meta] the
    rendering of the snapshot's metadata. *)
Definition install_snapshot (from_slice : list N → Result KafSnapshot string)
    (state : KafStorageState) (meta : string) (data : list N) (now : Instant)
  : Result KafStorageState IoError :=
  match from_slice data with
  | Err e => Err (mkIoError InvalidData ("install_snapshot " +:+ meta +:+ ": " +:+ e))
  | Ok snap =>
      if match state_genesis state with
         | Some g => negb (bool_decide (snap_genesis snap = Some g)) | None => false end
         || match admission state with
            | Some session => negb (bool_decide (snap_genesis snap = Some (context_genesis (context session))))
            | None => false end
      then Err (mkIoError InvalidData "snapshot admission genesis mismatch")
      else
        check_mutation state now ;?
        Ok (adopt_snapshot snap state)
  end.

End machine.
