(* ===== verification/StateFrame.v ===== *)
(** * What the state machine touches

    Frame lemmas for the operations of StateMachine.v: the local configuration
    never changes, the process-local fields (admission, log, vote, cached
    snapshot) are neither read nor written, and only the recomputation and a
    release acknowledgement change the VIP fences.  Replicas are compared by
    the equivalence [≡], equality of the replicated fields and of the
    configuration, and every operation is proper for it. *)

From S2P Require Import Prelude Io Text Replica Openraft Admission Types VipLogic State StoreMembership StateMachine.

Section frame.
Context {O : Openraft}.
Implicit Types (s t : KafStorageState) (e : Entry).

(** The fields fixed by the local configuration. *)
Definition config_of s := (vip_list s, stale_missed_probes s, failback s, failback_delay_ticks s).

(** The fields of this process: its admission, its log and its snapshot cache. *)
Definition local_of s :=
  (admission s, admission_required s, last_purged_log_id s, log s, vote s, committed s,
   current_snapshot s).

(** The fenced assignments with their generations and last holders. *)
Definition fences_of s := (vip_assignments s, vip_generation s, vip_last_holder s).

(** ** Shapes: the fields an operation writes *)

Lemma forget_loop_shape before after s l :
  ∃ nh npt nrt ap, foldl (forget_changed before after) s l
    = s <| node_health := nh |> <| node_probe_ticks := npt |>
        <| node_recovery_tick := nrt |> <| applied_progress := ap |>.
Proof.
  apply (foldl_invariant (λ s', ∃ nh npt nrt ap, s' = s <| node_health := nh |>
    <| node_probe_ticks := npt |> <| node_recovery_tick := nrt |> <| applied_progress := ap |>)).
  - exists (node_health s), (node_probe_ticks s), (node_recovery_tick s), (applied_progress s). by destruct s.
  - intros s' b _ (nh & npt & nrt & ap & ->). unfold forget_changed.
    destruct (_ && _); [|by exists nh, npt, nrt, ap].
    by exists (delete b nh), (delete b npt), (delete b nrt), (delete b ap).
Qed.

(** [s] with other V2 failback fields. *)
Definition set_tracking s (np p : gset N) (tk : gmap N N) : KafStorageState :=
  s <| node_nopreempt := np |> <| node_recovery_pending := p |> <| node_recovery_tick := tk |>.

Lemma note_failed_loop_shape s np p tk l :
  ∃ p' tk', foldl note_failed (set_tracking s np p tk) l = set_tracking s np p' tk'.
Proof.
  apply (foldl_invariant (λ s', ∃ p' tk', s' = set_tracking s np p' tk')); [by exists p, tk|].
  intros s' b _ (p' & tk' & ->). by exists ({[b]} ∪ p'), (delete b tk').
Qed.

Lemma finish_recovery_loop_shape s np p tk l :
  ∃ p' tk', foldl finish_recovery (set_tracking s np p tk) l = set_tracking s np p' tk'.
Proof.
  apply (foldl_invariant (λ s', ∃ p' tk', s' = set_tracking s np p' tk')); [by exists p, tk|].
  intros s' b _ (p' & tk' & ->). by exists (p' ∖ {[b]}), (delete b tk').
Qed.

Lemma update_v2_shape s :
  ∃ np p tk, update_v2_failback_tracking s = set_tracking s np p tk ∧
    if failback s then np = ∅ else p = ∅ ∧ tk = ∅.
Proof.
  unfold update_v2_failback_tracking. destruct (failback s) eqn:Hfb; cbn [negb]; [|by repeat eexists].
  destruct (note_failed_loop_shape s ∅ (node_recovery_pending s) (node_recovery_tick s)
    (btree_keys (failed_owners s (unique_voters (membership (last_membership s)))))) as (p & tk & Heq).
  replace (s <| node_nopreempt := ∅ |>)
    with (set_tracking s ∅ (node_recovery_pending s) (node_recovery_tick s)) by by destruct s.
  rewrite Heq. destruct (foldl (recovery_step _ _) _ _) as [ticks completed].
  destruct (finish_recovery_loop_shape s ∅ p ticks completed) as (p' & tk' & Hfin).
  exists ∅, p', tk'. split; [exact Hfin|done].
Qed.

Lemma settle_shape s :
  ∃ A G L, settle s = s <| vip_assignments := A |> <| vip_generation := G |> <| vip_last_holder := L |>.
Proof. unfold settle. destruct (reconcile_vip_assignments _ _ _ _ _ _) as [[A G] L]. by exists A, G, L. Qed.

Lemma recompute_shape s :
  ∃ np p tk A G L, recompute s
    = set_tracking s np p tk
        <| vip_assignments := A |> <| vip_generation := G |> <| vip_last_holder := L |>.
Proof.
  unfold recompute. case_bool_decide.
  - destruct (update_v2_shape s) as (np & p & tk & -> & _).
    destruct (settle_shape (set_tracking s np p tk)) as (A & G & L & ->). by exists np, p, tk, A, G, L.
  - destruct (settle_shape s) as (A & G & L & ->).
    exists (node_nopreempt s), (node_recovery_pending s), (node_recovery_tick s), A, G, L. by destruct s.
Qed.

Lemma activate_v2_shape s :
  ∃ sem np p tk bl, activate_v2 s
    = set_tracking s np p tk <| failover_semantics := sem |> <| node_failback_blocked := bl |>.
Proof.
  unfold activate_v2. destruct (bool_decide _).
  { exists (failover_semantics s), (node_nopreempt s), (node_recovery_pending s),
      (node_recovery_tick s), (node_failback_blocked s). by destruct s. }
  destruct s; simpl. destruct failback; by repeat eexists.
Qed.

Lemma apply_health_shape s n h :
  ∃ tick tk bl, apply_health s n h
    = s <| node_health := <[n := h]> (node_health s) |>
        <| node_probe_ticks := <[n := tick]> (node_probe_ticks s) |>
        <| latest_probe_tick := tick |> <| node_recovery_tick := tk |> <| node_failback_blocked := bl |>.
Proof.
  unfold apply_health. exists (next_probe_tick (node_probe_ticks s !! n) (latest_probe_tick s)).
  destruct s; simpl. destruct failover_semantics, h; [destruct (_ && _)|destruct (_ && _)| |]; by repeat eexists.
Qed.

Lemma apply_release_shape s n v g :
  ∃ A, apply_release s n v g = s <| vip_assignments := A |>.
Proof.
  unfold apply_release. assert (s = s <| vip_assignments := vip_assignments s |>) as Hs by by destruct s.
  destruct (vip_assignments s !! v); [destruct (_ && _)|]; by eexists.
Qed.

Lemma apply_genesis_shape s g :
  ∃ gen ep nh npt ap cie sem np p tk bl, (apply_genesis s g).1.1
    = set_tracking s np p tk <| failover_semantics := sem |> <| node_failback_blocked := bl |>
        <| node_health := nh |> <| node_probe_ticks := npt |> <| applied_progress := ap |>
        <| config_identity_enforced := cie |> <| state_genesis := gen |> <| cluster_epoch := ep |>.
Proof.
  unfold apply_genesis. destruct (_ || _); [|case_bool_decide].
  - destruct s; simpl. by repeat eexists.
  - match goal with |- context [activate_v2 ?x] => destruct (activate_v2_shape x) as (?&?&?&?&?& ->) end.
    destruct s; simpl. by repeat eexists.
  - destruct s; simpl. by repeat eexists.
Qed.

Lemma apply_progress_shape s p l :
  ∃ ap nh npt tick tk bl, (apply_progress s p l).1.1
    = s <| applied_progress := ap |> <| node_health := nh |> <| node_probe_ticks := npt |>
        <| latest_probe_tick := tick |> <| node_recovery_tick := tk |> <| node_failback_blocked := bl |>.
Proof.
  unfold apply_progress. destruct (_ || _ || _); [|destruct (Admission.healthy p) as [h|]]; simpl.
  - destruct s; simpl. by repeat eexists.
  - match goal with |- context [apply_health ?x ?n ?b] => destruct (apply_health_shape x n b) as (?&?&?& ->) end.
    destruct s; simpl. by repeat eexists.
  - destruct s; simpl. by repeat eexists.
Qed.
Lemma apply_admission_membership_shape s c l :
  ∃ pj, (apply_admission_membership s c l).1 = s <| prepared_join := pj |>.
Proof.
  unfold apply_admission_membership.
  assert (s = s <| prepared_join := prepared_join s |>) as Hs by by destruct s.
  repeat case_match; simplify_eq/=; try (by eexists); exists (prepared_join s); done.
Qed.

Lemma promote_join_shape m l s :
  ∃ cj pj, promote_join m l s = s <| completed_joins := cj |> <| prepared_join := pj |>.
Proof.
  unfold promote_join. destruct (completes_join s m l); [by repeat eexists|].
  destruct s; simpl. by repeat eexists.
Qed.

Lemma apply_membership_shape s m l :
  ∃ nh npt nrt ap cj pj, apply_membership s m l
    = s <| node_health := nh |> <| node_probe_ticks := npt |> <| node_recovery_tick := nrt |>
        <| applied_progress := ap |> <| completed_joins := cj |> <| prepared_join := pj |>
        <| last_membership := mkStoredMembership O (Some l) m |>.
Proof.
  unfold apply_membership.
  destruct (forget_loop_shape (unique_voters (membership (last_membership s))) (unique_voters m) s
    (btree_keys (dom (unique_voters (membership (last_membership s))) ∪ dom (unique_voters m))))
    as (nh & npt & nrt & ap & ->).
  unfold retain_progress.
  match goal with |- context [promote_join m l ?x] => destruct (promote_join_shape m l x) as (cj & pj & ->) end.
  destruct s; simpl. by repeat eexists.
Qed.

(** Rewrite the one operation the goal is about to its shape. *)
Ltac to_shape :=
  match goal with
  | |- context [apply_progress ?s ?p ?l] => destruct (apply_progress_shape s p l) as (?&?&?&?&?&?& ->)
  | |- context [apply_genesis ?s ?g] => destruct (apply_genesis_shape s g) as (?&?&?&?&?&?&?&?&?&?&?& ->)
  | |- context [apply_admission_membership ?s ?c ?l] =>
      destruct (apply_admission_membership_shape s c l) as (? & ->)
  | |- context [apply_health ?s ?n ?h] => destruct (apply_health_shape s n h) as (?&?&?& ->)
  | |- context [apply_release ?s ?n ?v ?g] => destruct (apply_release_shape s n v g) as (? & ->)
  | |- context [activate_v2 ?s] => destruct (activate_v2_shape s) as (?&?&?&?&?& ->)
  | |- context [apply_membership ?s ?m ?l] => destruct (apply_membership_shape s m l) as (?&?&?&?&?&?& ->)
  end.

Lemma dispatch_config s e : config_of (dispatch s e).1.1 = config_of s.
Proof.
  unfold dispatch. destruct (payload e) as [|[]|]; cbn [fst];
    repeat case_bool_decide; cbn [fst]; try to_shape; by destruct s.
Qed.

Lemma dispatch_last_applied s e : last_applied_log (dispatch s e).1.1 = last_applied_log s.
Proof.
  unfold dispatch. destruct (payload e) as [|[]|]; cbn [fst];
    repeat case_bool_decide; cbn [fst]; try to_shape; by destruct s.
Qed.

Lemma dispatch_membership s e :
  last_membership (dispatch s e).1.1 =
    match payload e with
    | MembershipChange m => mkStoredMembership O (Some (entry_log_id e)) m
    | _ => last_membership s
    end.
Proof.
  unfold dispatch. destruct (payload e) as [|[]|m]; cbn [fst]; try done;
    repeat case_bool_decide; cbn [fst]; try to_shape; by destruct s.
Qed.

Lemma apply_one_config s e : config_of (apply_one s e).1 = config_of s.
Proof.
  unfold apply_one. pose proof (dispatch_config (s <| last_applied_log := Some (entry_log_id e) |>) e) as Hd.
  destruct (dispatch _ e) as [[s1 r] []]; simpl in *; [|by rewrite Hd; destruct s].
  destruct (recompute_shape s1) as (?&?&?&?&?&?& ->).
  transitivity (config_of s1); [by destruct s1|]. rewrite Hd. by destruct s.
Qed.

Lemma apply_one_last_applied s e : last_applied_log (apply_one s e).1 = Some (entry_log_id e).
Proof.
  unfold apply_one.
  pose proof (dispatch_last_applied (s <| last_applied_log := Some (entry_log_id e) |>) e) as Hd.
  destruct (dispatch _ e) as [[s1 r] []]; cbn [fst] in *; [|by rewrite Hd; destruct s].
  destruct (recompute_shape s1) as (?&?&?&?&?&?& ->).
  transitivity (last_applied_log s1); [by destruct s1|]. rewrite Hd. by destruct s.
Qed.

(** Only a release acknowledgement changes the fences before the recomputation. *)
Lemma dispatch_fences s e :
  fences_of (dispatch s e).1.1 =
    match payload e with
    | Normal (VipReleased n v g) => fences_of (apply_release s n v g)
    | _ => fences_of s
    end.
Proof.
  unfold dispatch. destruct (payload e) as [|[]|]; cbn [fst]; try done;
    repeat case_bool_decide; cbn [fst]; try to_shape; by destruct s.
Qed.

(** An entry that does not ask for a recomputation leaves its inputs alone. *)
Lemma dispatch_quiet s e cur :
  (dispatch s e).2 = false → new_holders (dispatch s e).1.1 cur = new_holders s cur.
Proof.
  unfold dispatch. destruct (payload e) as [|[]|]; simpl; try done.
  - unfold apply_progress. destruct (_ || _ || _); [done|]. destruct (Admission.healthy _); [done|].
    intros _. by destruct s.
  - unfold apply_genesis. destruct (_ || _); [done|]. case_bool_decide; [done|]. intros _. by destruct s.
  - intros _. to_shape. by destruct s.
  - case_bool_decide; done.
  - intros _. to_shape. by destruct s.
  - case_bool_decide; [|done]. case_bool_decide; [done|]. intros _. by destruct s.
Qed.

(** ** Process-local fields are invisible *)

(** [s] with the process-local fields of [t]. *)
Definition adopt_local t s : KafStorageState :=
  s <| admission := admission t |> <| admission_required := admission_required t |>
    <| last_purged_log_id := last_purged_log_id t |> <| log := log t |> <| vote := vote t |>
    <| committed := committed t |> <| current_snapshot := current_snapshot t |>.

Section commute.
Context (t : KafStorageState).
Abbreviation φ := (adopt_local t).

Lemma activate_v2_local s : activate_v2 (φ s) = φ (activate_v2 s).
Proof. unfold activate_v2. destruct s; simpl. by repeat case_match. Qed.

Lemma apply_health_local s n h : apply_health (φ s) n h = φ (apply_health s n h).
Proof. unfold apply_health. destruct s; simpl. by repeat case_match. Qed.

Lemma apply_release_local s n v g : apply_release (φ s) n v g = φ (apply_release s n v g).
Proof. unfold apply_release. destruct s; simpl. by repeat case_match. Qed.

Lemma apply_admission_membership_local s c l :
  apply_admission_membership (φ s) c l
  = (φ (apply_admission_membership s c l).1, (apply_admission_membership s c l).2).
Proof. unfold apply_admission_membership. destruct s; simpl. by repeat case_match. Qed.

Lemma forget_changed_local before after s n :
  forget_changed before after (φ s) n = φ (forget_changed before after s n).
Proof. unfold forget_changed. destruct s; simpl. by case_match. Qed.

Lemma promote_join_local m l s : promote_join m l (φ s) = φ (promote_join m l s).
Proof. unfold promote_join, completes_join. destruct s; simpl. by repeat case_match. Qed.

Lemma last_membership_local s : last_membership (φ s) = last_membership s.
Proof. by destruct s. Qed.

Lemma state_genesis_local s : state_genesis (φ s) = state_genesis s.
Proof. by destruct s. Qed.

Lemma apply_membership_local s m l : apply_membership (φ s) m l = φ (apply_membership s m l).
Proof.
  unfold apply_membership. rewrite last_membership_local.
  rewrite (foldl_commute φ (forget_changed _ _)) by (intros; apply forget_changed_local).
  generalize (foldl (forget_changed (unique_voters (membership (last_membership s))) (unique_voters m)) s
    (btree_keys (dom (unique_voters (membership (last_membership s))) ∪ dom (unique_voters m)))).
  intros s1.
  replace (retain_progress m (φ s1)) with (φ (retain_progress m s1)) by by destruct s1.
  rewrite promote_join_local. by destruct (promote_join m l _).
Qed.

Lemma is_failed_local s m n : is_failed (φ s) m n = is_failed s m n.
Proof. by destruct s. Qed.

Lemma failed_owners_local s m : failed_owners (φ s) m = failed_owners s m.
Proof. by destruct s. Qed.

Lemma recovery_step_local s m acc n : recovery_step (φ s) m acc n = recovery_step s m acc n.
Proof. by destruct s. Qed.

Lemma recovery_loop_local s m acc l :
  foldl (recovery_step (φ s) m) acc l = foldl (recovery_step s m) acc l.
Proof. revert acc. induction l as [|n l IH]; intros acc; [done|]. simpl. by rewrite recovery_step_local, IH. Qed.

Lemma update_v2_local s : update_v2_failback_tracking (φ s) = φ (update_v2_failback_tracking s).
Proof.
  unfold update_v2_failback_tracking. rewrite failed_owners_local.
  replace (failback (φ s)) with (failback s) by by destruct s.
  destruct (negb (failback s)); [by destruct s|].
  replace (φ s <| node_nopreempt := ∅ |>) with (φ (s <| node_nopreempt := ∅ |>)) by by destruct s.
  rewrite (foldl_commute φ note_failed) by by intros [].
  rewrite last_membership_local.
  generalize (foldl note_failed (s <| node_nopreempt := ∅ |>)
    (btree_keys (failed_owners s (unique_voters (membership (last_membership s)))))).
  intros s1. rewrite recovery_loop_local.
  replace (node_recovery_tick (φ s1)) with (node_recovery_tick s1) by by destruct s1.
  replace (node_recovery_pending (φ s1)) with (node_recovery_pending s1) by by destruct s1.
  destruct (foldl (recovery_step _ _) _ _) as [ticks completed].
  replace (φ s1 <| node_recovery_tick := ticks |>) with (φ (s1 <| node_recovery_tick := ticks |>))
    by by destruct s1.
  by rewrite (foldl_commute φ finish_recovery) by by intros [].
Qed.

Lemma settle_local s : settle (φ s) = φ (settle s).
Proof. by destruct s. Qed.

Lemma recompute_local s : recompute (φ s) = φ (recompute s).
Proof.
  unfold recompute.
  replace (failover_semantics (φ s)) with (failover_semantics s) by by destruct s.
  case_bool_decide; [rewrite update_v2_local|]; apply settle_local.
Qed.

Lemma apply_progress_local s p l :
  apply_progress (φ s) p l
  = (φ (apply_progress s p l).1.1, (apply_progress s p l).1.2, (apply_progress s p l).2).
Proof.
  unfold apply_progress.
  rewrite last_membership_local, state_genesis_local. destruct (_ || _ || _); [done|].
  destruct (Admission.healthy p); [|by destruct s].
  simpl. f_equal. f_equal. rewrite <- apply_health_local. by destruct s.
Qed.

Lemma apply_genesis_local s g :
  apply_genesis (φ s) g = (φ (apply_genesis s g).1.1, (apply_genesis s g).1.2, (apply_genesis s g).2).
Proof.
  unfold apply_genesis.
  rewrite state_genesis_local. replace (cluster_epoch (φ s)) with (cluster_epoch s) by by destruct s.
  destruct (_ || _); [done|]. case_bool_decide; [|by destruct s].
  set (s1 := s <| node_health := ∅ |> <| node_probe_ticks := ∅ |>
    <| node_recovery_tick := ∅ |> <| applied_progress := ∅ |>).
  replace (φ s <| node_health := ∅ |> <| node_probe_ticks := ∅ |>
    <| node_recovery_tick := ∅ |> <| applied_progress := ∅ |>) with (φ s1) by by destruct s.
  rewrite activate_v2_local. by destruct (activate_v2 s1).
Qed.

Lemma dispatch_local s e :
  dispatch (φ s) e = (φ (dispatch s e).1.1, (dispatch s e).1.2, (dispatch s e).2).
Proof.
  unfold dispatch. destruct (payload e) as [|[]|]; try done.
  - apply apply_progress_local.
  - apply apply_genesis_local.
  - by rewrite apply_admission_membership_local.
  - rewrite state_genesis_local. case_bool_decide; [done|].
    by rewrite apply_health_local.
  - by rewrite apply_release_local.
  - replace (cluster_epoch (φ s)) with (cluster_epoch s) by by destruct s. case_bool_decide; [|done].
    case_bool_decide; [|by destruct s]. simpl. f_equal. f_equal.
    rewrite <- activate_v2_local. by destruct s.
  - by rewrite activate_v2_local.
  - by rewrite apply_membership_local.
Qed.

Lemma apply_one_local s e :
  apply_one (φ s) e = (φ (apply_one s e).1, (apply_one s e).2).
Proof.
  unfold apply_one.
  replace (φ s <| last_applied_log := Some (entry_log_id e) |>)
    with (φ (s <| last_applied_log := Some (entry_log_id e) |>)) by by destruct s.
  rewrite dispatch_local. destruct (dispatch _ e) as [[s1 r] []]; simpl; [|done].
  by rewrite recompute_local.
Qed.
End commute.

(** ** Replicas *)

(** Two replicas agree when their replicated fields and configurations do. *)
#[global] Instance state_equiv : Equiv KafStorageState := λ s t,
  snapshot_from s = snapshot_from t ∧ config_of s = config_of t.

#[global] Instance state_equivalence : Equivalence (≡@{KafStorageState}).
Proof. split; [done|by intros ?? [??]|]. intros ??? [??] [??]. split; congruence. Qed.

Lemma equiv_adopt s t : s ≡ t ↔ t = adopt_local t s.
Proof.
  destruct s, t. split; [intros [H1 H2]|intros H1].
  - injection H1; injection H2; intros; by subst.
  - injection H1; intros; subst. done.
Qed.

#[global] Instance apply_one_proper :
  Proper ((≡) ==> eq ==> (prod_relation (≡) eq)) apply_one.
Proof.
  intros s t Hst e _ <-. apply equiv_adopt in Hst. rewrite Hst, apply_one_local.
  split; [|done]. simpl. by destruct (apply_one s e).1.
Qed.

Lemma apply_all_proper s t l : s ≡ t → apply_all s l ≡ apply_all t l.
Proof.
  unfold apply_all. revert s t. induction l as [|e l IH]; intros s t Hst; [done|]. simpl.
  apply IH. by destruct (apply_one_proper s t Hst e e eq_refl).
Qed.

Lemma apply_one_local_of s e : local_of (apply_one s e).1 = local_of s.
Proof.
  assert (s = adopt_local s s) as Hs by by destruct s.
  rewrite Hs at 1. by rewrite apply_one_local.
Qed.

End frame.
