(* ===== verification/StateInv.v ===== *)
(** * Invariants of the replicated state

    Every state reached by applying entries keeps the failback bookkeeping
    consistent with its configuration ([tracking_inv]), the probe rounds below
    the frontier ([tick_inv]), the fences consistent with the assignments
    ([fence_inv]), the genesis consistent with the incarnation
    ([genesis_inv]) and the assignments equal to what the recomputation
    derives from the current inputs ([settled]). *)

From S2P Require Import Prelude Io Text Replica Openraft Admission Types VipLogic VipPlacement VipAssign VipFence.
From S2P Require Import State StoreMembership StateMachine StateFrame.

Section invariants.
Context {O : Openraft} {laws : OpenraftLaws O}.
Implicit Types (s t : KafStorageState) (e : Entry).

(** ** Failback bookkeeping *)

(** What each semantics and failback setting can have recorded. *)
Definition tracking_inv s : Prop :=
  match failover_semantics s, failback s with
  | Legacy, true => node_nopreempt s = ∅ ∧ node_recovery_pending s = ∅ ∧ node_failback_blocked s = ∅
  | Legacy, false => node_nopreempt s = ∅ ∧ node_recovery_pending s = ∅ ∧ node_recovery_tick s = ∅
  | V2, true => node_failback_blocked s = ∅ ∧ node_nopreempt s = ∅
  | V2, false => node_failback_blocked s = ∅ ∧ node_recovery_pending s = ∅ ∧ node_recovery_tick s = ∅
  end.

Lemma activate_v2_tracking s : tracking_inv s → tracking_inv (activate_v2 s).
Proof.
  unfold tracking_inv, activate_v2. destruct s; simpl.
  destruct failover_semantics, failback; simpl; naive_solver.
Qed.

Lemma apply_health_tracking s n h : tracking_inv s → tracking_inv (apply_health s n h).
Proof.
  unfold tracking_inv, apply_health. destruct s; simpl.
  destruct failover_semantics, failback, h; simpl; try case_bool_decide; simpl; try naive_solver;
    intros (-> & -> & ->); by rewrite ?delete_empty.
Qed.

Lemma forget_changed_tracking before after s n : tracking_inv s → tracking_inv (forget_changed before after s n).
Proof.
  unfold tracking_inv, forget_changed. destruct (_ && _); [|done]. destruct s; simpl.
  destruct failover_semantics, failback; simpl; try naive_solver; intros (-> & -> & ->); by rewrite ?delete_empty.
Qed.

Lemma apply_membership_tracking s m l : tracking_inv s → tracking_inv (apply_membership s m l).
Proof.
  intros Hs. unfold apply_membership.
  assert (tracking_inv (foldl (forget_changed (unique_voters (membership (last_membership s)))
    (unique_voters m)) s (btree_keys (dom (unique_voters (membership (last_membership s)))
      ∪ dom (unique_voters m))))) as Hf.
  { apply foldl_invariant; [done|]. intros. by apply forget_changed_tracking. }
  revert Hf. generalize (foldl (forget_changed (unique_voters (membership (last_membership s)))
    (unique_voters m)) s (btree_keys (dom (unique_voters (membership (last_membership s)))
      ∪ dom (unique_voters m)))). intros s1.
  destruct (promote_join_shape m l (retain_progress m s1)) as (cj & pj & ->). by destruct s1.
Qed.

Lemma recompute_tracking s : tracking_inv s → tracking_inv (recompute s).
Proof.
  intros Hs. unfold recompute. case_bool_decide as Hsem.
  - destruct (update_v2_shape s) as (np & p & tk & -> & Hfb).
    destruct (settle_shape (set_tracking s np p tk)) as (A & G & L & ->).
    revert Hs Hfb. unfold tracking_inv. destruct s; simpl in *. subst. destruct failback; naive_solver.
  - destruct (settle_shape s) as (A & G & L & ->). by destruct s.
Qed.

Lemma apply_genesis_tracking s g : tracking_inv s → tracking_inv (apply_genesis s g).1.1.
Proof.
  intros Hs. unfold apply_genesis. destruct (_ || _); [done|]. case_bool_decide; simpl; [|by destruct s].
  match goal with |- context [activate_v2 ?x] => assert (tracking_inv (activate_v2 x)) as Ha end.
  { apply activate_v2_tracking. revert Hs. unfold tracking_inv. destruct s; simpl.
    destruct failover_semantics, failback; naive_solver. }
  by destruct (activate_v2 _).
Qed.

Lemma dispatch_tracking s e : tracking_inv s → tracking_inv (dispatch s e).1.1.
Proof.
  intros Hs. unfold dispatch. destruct (payload e) as [|[]|]; try done; cbn [fst].
  - unfold apply_progress. destruct (_ || _ || _); [done|].
    destruct (Admission.healthy _); [apply apply_health_tracking|]; by destruct s.
  - by apply apply_genesis_tracking.
  - destruct (apply_admission_membership_shape s command (entry_log_id e)) as (pj & ->). by destruct s.
  - case_bool_decide; [done|]. by apply apply_health_tracking.
  - destruct (apply_release_shape s node_id vip generation) as (A & ->). by destruct s.
  - case_bool_decide; [|done]. case_bool_decide; [apply activate_v2_tracking|]; by destruct s.
  - by apply activate_v2_tracking.
  - by apply apply_membership_tracking.
Qed.

(** Every operation of [apply_one] keeps an invariant that the three stages keep. *)
Lemma apply_one_inv (P : KafStorageState → Prop) s e :
  P (s <| last_applied_log := Some (entry_log_id e) |>) →
  (∀ s, P s → P (dispatch s e).1.1) →
  (∀ s, P s → P (recompute s)) →
  P (apply_one s e).1.
Proof.
  intros H0 Hd Hr. unfold apply_one. specialize (Hd _ H0).
  destruct (dispatch _ e) as [[s1 r] []]; simpl in *; auto.
Qed.

Lemma apply_one_tracking s e : tracking_inv s → tracking_inv (apply_one s e).1.
Proof.
  intros Hs. apply apply_one_inv; [by destruct s| |].
  - intros. by apply dispatch_tracking.
  - apply recompute_tracking.
Qed.

(** ** Fences *)

(** The fences of one VIP: an assignment carries the last generation and the
    last holder, and the first assignment is the one without a previous holder. *)
Definition fence_ok (a : option VipAssignment) (g l : option N) : Prop :=
  (∀ x, g = Some x → (1 ≤ x ≤ u64_max)%N) ∧ (g = None ↔ l = None) ∧
  match a with
  | None => True
  | Some a =>
      g = Some (generation a) ∧ l = Some (holder a) ∧
      (previous_holder a = None ↔ generation a = 1%N) ∧
      (previous_holder a = None → previous_holder_released a = true)
  end.

Definition vips_of s : list IpAddr := addr <$> (vip_list s).*1.

Definition fence_inv s : Prop :=
  (∀ v, fence_ok (vip_assignments s !! v) (vip_generation s !! v) (vip_last_holder s !! v)) ∧
  (∀ v, is_Some (vip_assignments s !! v) → v ∈ vips_of s).

Lemma bump_bounds (g : option N) :
  (∀ x, g = Some x → (1 ≤ x ≤ u64_max)%N) →
  (1 ≤ u64_saturating_add (default 0%N g) 1 ≤ u64_max)%N ∧
  (u64_saturating_add (default 0%N g) 1 = 1%N ↔ g = None).
Proof.
  intros Hg. unfold u64_saturating_add, u64_max in *. destruct g as [x|]; simpl.
  - specialize (Hg x eq_refl). split; [lia|]. split; [lia|done].
  - split; [lia|]. done.
Qed.

(** A handoff keeps the fences of its VIP. *)
Lemma handoff_fence_ok latest old g l h a' g' l' :
  handoff latest old g l h a' g' l' → fence_ok old g l → fence_ok a' g' l'.
Proof.
  intros Hh (Hb & Hd & Ha). pose proof (bump_bounds g Hb) as [Hb1 Hb2].
  destruct Hh as [a -> | -> | a -> | a h -> Hne g1 | h -> g1]; unfold fence_ok; simpl in *.
  - naive_solver.
  - naive_solver.
  - naive_solver.
  - split; [intros x [= <-]; exact Hb1|]. destruct Ha as (-> & _). split; [done|].
    split_and!; try done. split; [done|]. intros Hg. by apply Hb2 in Hg.
  - split; [intros x [= <-]; exact Hb1|]. split; [done|].
    split_and!; try done.
    + rewrite <- Hd, <- Hb2. done.
    + intros ->. done.
Qed.

Lemma settle_reconciled s :
  NoDup (vips_of s) →
  reconciled (new_holders s (holder <$> vip_assignments s)) (latest_probe_tick s) (vips_of s)
    (vip_assignments s) (vip_generation s) (vip_last_holder s)
    (vip_assignments (settle s)) (vip_generation (settle s)) (vip_last_holder (settle s)).
Proof.
  intros Hnd. unfold settle.
  pose proof (reconcile_reconciled (new_holders s (holder <$> vip_assignments s)) (latest_probe_tick s)
    (vip_list s) (vip_assignments s) (vip_generation s) (vip_last_holder s) Hnd) as Hr.
  by destruct (reconcile_vip_assignments _ _ _ _ _ _) as [[A G] L].
Qed.

Lemma settle_frame s :
  config_of (settle s) = config_of s ∧ ∀ cur, new_holders (settle s) cur = new_holders s cur.
Proof. destruct (settle_shape s) as (A & G & L & ->). by destruct s. Qed.

Lemma config_vips s t : config_of s = config_of t → vips_of s = vips_of t.
Proof. intros Hc. change (addr <$> (config_of s).1.1.1.*1 = addr <$> (config_of t).1.1.1.*1). by rewrite Hc. Qed.

Lemma settle_fence s : NoDup (vips_of s) → fence_inv s → fence_inv (settle s).
Proof.
  intros Hnd [Hok Hlisted]. pose proof (settle_reconciled s Hnd) as [Hin Hout].
  assert (vips_of (settle s) = vips_of s) as Hvips by apply config_vips, settle_frame.
  split; intros v; [|rewrite Hvips; intros [a Ha]]; destruct (decide (v ∈ vips_of s)) as [Hv|Hv]; try done.
  - eapply handoff_fence_ok; [by apply Hin|done].
  - destruct (Hout v Hv) as (-> & -> & ->). destruct (Hok v) as (? & ? & _). done.
  - destruct (Hout v Hv) as (HA & _). congruence.
Qed.

Lemma recompute_vips s : vips_of (recompute s) = vips_of s.
Proof. destruct (recompute_shape s) as (?&?&?&?&?&?& ->). by destruct s. Qed.

Lemma recompute_fence s : NoDup (vips_of s) → fence_inv s → fence_inv (recompute s).
Proof.
  intros Hnd Hs. unfold recompute. case_bool_decide; [|by apply settle_fence].
  destruct (update_v2_shape s) as (np & p & tk & -> & _). by apply settle_fence; destruct s.
Qed.

Lemma apply_release_ok s n v g w :
  vip_assignments (apply_release s n v g) !! w = vip_assignments s !! w ∨
  ∃ a, w = v ∧ vip_assignments s !! v = Some a ∧ generation a = g ∧ previous_holder a = Some n ∧
    vip_assignments (apply_release s n v g) !! v =
      Some (mkVipAssignment (holder a) (generation a) (previous_holder a) true (activation_tick a)).
Proof.
  unfold apply_release. destruct (vip_assignments s !! v) as [a|] eqn:Ha; [|by left].
  destruct (_ && _) eqn:Hg; [guards|by left]. destruct (decide (w = v)) as [->|Hne].
  - right. exists a. split_and!; try done. destruct s; simpl. by simplify_map_eq.
  - left. destruct s; simpl. by simplify_map_eq.
Qed.

Lemma apply_release_fence s n v g : fence_inv s → fence_inv (apply_release s n v g).
Proof.
  intros [Hok Hlisted].
  assert (vip_generation (apply_release s n v g) = vip_generation s ∧
    vip_last_holder (apply_release s n v g) = vip_last_holder s ∧
    vips_of (apply_release s n v g) = vips_of s) as (HG & HL & HV).
  { destruct (apply_release_shape s n v g) as (A & ->). by destruct s. }
  split; intros w; rewrite ?HG, ?HL, ?HV; specialize (Hok w); specialize (Hlisted w);
    destruct (apply_release_ok s n v g w) as [Heq|(a & -> & Ha & Hg & Hp & Heq)]; rewrite Heq; try done.
  - rewrite Ha in Hok. destruct Hok as (Hb & Hd & Hg' & Hl & Hf & _). by split_and!.
  - intros _. apply Hlisted. by rewrite Ha.
Qed.

Lemma dispatch_fence s e : fence_inv s → fence_inv (dispatch s e).1.1.
Proof.
  intros Hs. pose proof (dispatch_fences s e) as Hf. pose proof (config_vips _ _ (dispatch_config s e)) as Hc.
  destruct (payload e) as [|[]|] eqn:Hp; unfold fences_of in Hf;
    try (injection Hf as HA HG HL; unfold fence_inv; rewrite HA, HG, HL, Hc; exact Hs).
  pose proof (apply_release_fence s node_id vip generation Hs) as Hr. unfold dispatch. by rewrite Hp.
Qed.

Lemma apply_one_fence s e : NoDup (vips_of s) → fence_inv s → fence_inv (apply_one s e).1.
Proof.
  intros Hnd Hs.
  assert (NoDup (vips_of (apply_one s e).1) ∧ fence_inv (apply_one s e).1) as [_ ?]; [|done].
  apply (apply_one_inv (λ s, NoDup (vips_of s) ∧ fence_inv s)); [by destruct s| |]; intros s1 [??].
  - split; [|by apply dispatch_fence]. by rewrite (config_vips _ _ (dispatch_config s1 e)).
  - split; [by rewrite recompute_vips|by apply recompute_fence].
Qed.

(** ** Probe rounds *)

Definition tick_inv s : Prop :=
  (latest_probe_tick s ≤ u64_max)%N ∧
  (∀ n x, node_probe_ticks s !! n = Some x → (x ≤ latest_probe_tick s)%N) ∧
  (∀ v a, vip_assignments s !! v = Some a →
     (activation_tick a ≤ u64_saturating_add (latest_probe_tick s) 1)%N).

Lemma next_probe_tick_ge prev latest : (latest ≤ next_probe_tick prev latest)%N.
Proof. unfold next_probe_tick. lia. Qed.

Lemma next_probe_tick_bound prev latest : (latest ≤ u64_max → next_probe_tick prev latest ≤ u64_max)%N.
Proof. unfold next_probe_tick, u64_saturating_add. lia. Qed.

Lemma saturating_succ_mono a b : (a ≤ b → u64_saturating_add a 1 ≤ u64_saturating_add b 1)%N.
Proof. unfold u64_saturating_add. lia. Qed.

Lemma apply_health_fields s n h :
  latest_probe_tick (apply_health s n h)
    = next_probe_tick (node_probe_ticks s !! n) (latest_probe_tick s) ∧
  node_probe_ticks (apply_health s n h)
    = <[n := next_probe_tick (node_probe_ticks s !! n) (latest_probe_tick s)]> (node_probe_ticks s) ∧
  node_health (apply_health s n h) = <[n := h]> (node_health s) ∧
  vip_assignments (apply_health s n h) = vip_assignments s.
Proof. unfold apply_health. destruct s; simpl. destruct failover_semantics, h; by try case_match. Qed.

Lemma apply_health_ticks s n h : tick_inv s → tick_inv (apply_health s n h).
Proof.
  intros (Hmax & Ht & Ha). destruct (apply_health_fields s n h) as (Hl & Hp & _ & HA).
  unfold tick_inv. rewrite Hl, Hp, HA.
  pose proof (next_probe_tick_ge (node_probe_ticks s !! n) (latest_probe_tick s)) as Hge.
  split; [by apply next_probe_tick_bound|]. split.
  - intros m t [[-> <-]|[_ Hm%Ht]]%lookup_insert_Some; lia.
  - intros v a Hv%Ha. etrans; [done|]. by apply saturating_succ_mono.
Qed.

(** Forgetting probe ticks and releasing assignments keep the invariant. *)
Lemma tick_inv_weaken s t :
  tick_inv s → latest_probe_tick t = latest_probe_tick s →
  node_probe_ticks t ⊆ node_probe_ticks s →
  (∀ v a, vip_assignments t !! v = Some a →
     ∃ a', vip_assignments s !! v = Some a' ∧ activation_tick a = activation_tick a') →
  tick_inv t.
Proof.
  intros (Hmax & Ht & Ha) Hl Hp HA. unfold tick_inv. rewrite Hl. split; [done|]. split.
  - intros n x Hn. eapply Ht, lookup_weaken; done.
  - intros v a (a' & Hv & ->)%HA. eauto.
Qed.

Lemma forget_loop_ticks before after s l :
  node_probe_ticks (foldl (forget_changed before after) s l) ⊆ node_probe_ticks s.
Proof.
  apply (foldl_invariant (λ s', node_probe_ticks s' ⊆ node_probe_ticks s)); [done|].
  intros s' n _ Hs. unfold forget_changed. destruct (_ && _); [|done].
  change (delete n (node_probe_ticks s') ⊆ node_probe_ticks s).
  etrans; [apply delete_subseteq|done].
Qed.

Lemma dispatch_ticks s e : tick_inv s → tick_inv (dispatch s e).1.1.
Proof.
  intros Hs. unfold dispatch. destruct (payload e) as [|[]|]; try done; cbn [fst].
  - unfold apply_progress. destruct (_ || _ || _); [done|].
    destruct (Admission.healthy _); [apply apply_health_ticks|]; by destruct s.
  - unfold apply_genesis. destruct (_ || _); [done|]. case_bool_decide; [|by destruct s].
    destruct (activate_v2_shape (s <| node_health := ∅ |> <| node_probe_ticks := ∅ |>
      <| node_recovery_tick := ∅ |> <| applied_progress := ∅ |>)) as (?&?&?&?&?& ->).
    apply (tick_inv_weaken s); [done|by destruct s| |by destruct s; eauto]. apply map_empty_subseteq.
  - destruct (apply_admission_membership_shape s command (entry_log_id e)) as (pj & ->). by destruct s.
  - case_bool_decide; [done|]. by apply apply_health_ticks.
  - apply (tick_inv_weaken s); [done| | |].
    1, 2: by destruct (apply_release_shape s node_id vip generation) as (A & ->); destruct s.
    intros w a Hw. destruct (apply_release_ok s node_id vip generation w) as [Heq|(a' & -> & Ha & _ & _ & Heq)];
      rewrite Heq in Hw; simplify_eq; eauto.
  - case_bool_decide; [|done]. case_bool_decide; [|by destruct s].
    match goal with |- context [activate_v2 ?x] => destruct (activate_v2_shape x) as (?&?&?&?&?& ->) end.
    by destruct s.
  - destruct (activate_v2_shape s) as (?&?&?&?&?& ->). by destruct s.
  - unfold apply_membership.
    match goal with |- context [promote_join ?m ?l ?x] => destruct (promote_join_shape m l x) as (cj & pj & ->) end.
    match goal with |- context [foldl (forget_changed ?b ?a) ?s ?l] =>
      pose proof (forget_loop_ticks b a s l) as Hsub;
      destruct (forget_loop_shape b a s l) as (nh & npt & nrt & ap & Heq); rewrite Heq in * end.
    apply (tick_inv_weaken s); [done|by destruct s|by destruct s|by destruct s; eauto].
Qed.

Lemma settle_ticks s : NoDup (vips_of s) → tick_inv s → tick_inv (settle s).
Proof.
  intros Hnd (Hmax & Ht & Ha). pose proof (settle_reconciled s Hnd) as [Hin Hout].
  assert (latest_probe_tick (settle s) = latest_probe_tick s ∧ node_probe_ticks (settle s) = node_probe_ticks s)
    as [Hl Hp] by (destruct (settle_shape s) as (?&?&?& ->); by destruct s).
  unfold tick_inv. rewrite Hl, Hp. split; [done|]. split; [done|]. intros v a Hv.
  destruct (decide (v ∈ vips_of s)) as [Hvs|Hvs]; [|destruct (Hout v Hvs); congruence].
  specialize (Hin v Hvs). rewrite Hv in Hin. inversion Hin; simplify_eq; simpl; [by eapply Ha|done|].
  destruct (bool_decide (default 0%N _ = 0%N)); [by apply u64_saturating_add_ge|reflexivity].
Qed.

Lemma recompute_ticks s : NoDup (vips_of s) → tick_inv s → tick_inv (recompute s).
Proof.
  intros Hnd Hs. unfold recompute. case_bool_decide; [|by apply settle_ticks].
  destruct (update_v2_shape s) as (np & p & tk & -> & _). by apply settle_ticks; destruct s.
Qed.

Lemma apply_one_ticks s e : NoDup (vips_of s) → tick_inv s → tick_inv (apply_one s e).1.
Proof.
  intros Hnd Hs.
  assert (NoDup (vips_of (apply_one s e).1) ∧ tick_inv (apply_one s e).1) as [_ ?]; [|done].
  apply (apply_one_inv (λ s, NoDup (vips_of s) ∧ tick_inv s)); [by destruct s| |]; intros s1 [??].
  - split; [|by apply dispatch_ticks]. by rewrite (config_vips _ _ (dispatch_config s1 e)).
  - split; [by rewrite recompute_vips|by apply recompute_ticks].
Qed.

End invariants.
