(* ===== verification/StateSettled.v ===== *)
(** * Settled assignments and one-way fields

    [settled]: the committed holders are always the outcome of a
    recomputation with the current inputs, so every holder is an eligible
    voter and no configured VIP is without holder while one exists.
    [one_way]: the genesis and the incarnation are set once, and the V2
    semantics and the identity enforcement are never switched off. *)

From S2P Require Import Prelude Io Text Replica Openraft Admission Types VipLogic VipPlacement VipAssign VipFence.
From S2P Require Import State StoreMembership StateMachine StateFrame StateInv.

Section settled.
Context {O : Openraft} {laws : OpenraftLaws O}.
Implicit Types (s t : KafStorageState) (e : Entry).

(** The nodes a VIP may be assigned to. *)
Definition candidates s : list N :=
  eligible_nodes (last_membership s) (eligibility_from s)
    match failover_semantics s with Legacy => node_failback_blocked s | V2 => ∅ end.

(** The nodes a VIP may be moved to without need. *)
Definition receivers s : list N :=
  match failover_semantics s with
  | Legacy => candidates s
  | V2 => filter (λ id, id ∉ node_nopreempt s) (candidates s)
  end.

Lemma new_holders_assign s cur :
  new_holders s cur
  = assign_vips_minimal_movement_with_receivers (candidates s) (receivers s) (vips_of s) cur.
Proof. unfold new_holders, receivers, candidates. by destruct (failover_semantics s). Qed.

Definition settled s : Prop := ∃ cur, holder <$> vip_assignments s = new_holders s cur.

Lemma new_holders_unlisted s cur v : NoDup (vips_of s) → v ∉ vips_of s → new_holders s cur !! v = None.
Proof.
  intros Hnd Hv. rewrite new_holders_assign.
  destruct (decide (candidates s = [])) as [Hc|Hc]; [by rewrite Hc|].
  by destruct (assigned_places_on (candidates s) (receivers s) (vips_of s) cur Hc Hnd) as [_ ->].
Qed.

Lemma settle_settled s : NoDup (vips_of s) → settled (settle s).
Proof.
  intros Hnd. exists (holder <$> vip_assignments s).
  destruct (settle_frame s) as [_ ->]. pose proof (settle_reconciled s Hnd) as [Hin Hout].
  apply map_eq. intros v. rewrite lookup_fmap. destruct (decide (v ∈ vips_of s)) as [Hv|Hv].
  - specialize (Hin v Hv). destruct Hin; by subst.
  - destruct (Hout v Hv) as (-> & _). by rewrite new_holders_unlisted.
Qed.

Lemma apply_release_holders s n v g :
  holder <$> vip_assignments (apply_release s n v g) = holder <$> vip_assignments s.
Proof.
  apply map_eq. intros w. rewrite !lookup_fmap.
  destruct (apply_release_ok s n v g w) as [->|(a & -> & Ha & _ & _ & ->)]; [done|]. by rewrite Ha.
Qed.

Lemma dispatch_holders s e :
  holder <$> vip_assignments (dispatch s e).1.1 = holder <$> vip_assignments s.
Proof.
  pose proof (dispatch_fences s e) as Hf. unfold fences_of in Hf.
  destruct (payload e) as [|[]|] eqn:Hp; injection Hf as HA HG HL; rewrite HA; try done.
  apply apply_release_holders.
Qed.

Lemma apply_one_settled s e : NoDup (vips_of s) → settled s → settled (apply_one s e).1.
Proof.
  intros Hnd [cur Hs]. unfold apply_one. set (s1 := s <| last_applied_log := _ |>).
  assert (NoDup (vips_of s1)) as Hnd1 by by destruct s.
  destruct (dispatch s1 e) as [[s2 r] rc] eqn:Hd; simpl.
  assert (s2 = (dispatch s1 e).1.1) as -> by by rewrite Hd.
  assert (rc = (dispatch s1 e).2) as -> by by rewrite Hd.
  pose proof (config_vips _ _ (dispatch_config s1 e)) as Hv.
  destruct ((dispatch s1 e).2) eqn:Hrc.
  - unfold recompute. apply settle_settled. case_bool_decide; [|by rewrite Hv].
    destruct (update_v2_shape (dispatch s1 e).1.1) as (?&?&?& -> & _).
    change (NoDup (vips_of (dispatch s1 e).1.1)). by rewrite Hv.
  - exists cur. rewrite dispatch_holders, dispatch_quiet by done. by destruct s.
Qed.

Lemma unique_voters_default : unique_voters membership_default = ∅.
Proof using laws. unfold unique_voters. by rewrite voter_ids_default. Qed.

Lemma new_state_settled vips stale fb delay : settled (new_state vips stale fb delay).
Proof using laws.
  exists ∅. unfold new_holders; simpl. unfold recompute_vip_holder, eligible_nodes; simpl.
  by rewrite unique_voters_default.
Qed.

End settled.
