(* ===== verification/StateTheorems.v ===== *)
(** * Guarantees of the applied state

    What every replica can rely on after applying any sequence of entries to a
    fresh state: committed holders are eligible voters and cover every VIP,
    generations identify handoffs, releases are only granted by the previous
    holder, and the incarnation fields never move backwards. *)

From S2P Require Import Prelude Io Text Replica Openraft Admission Types VipLogic VipPlacement VipAssign VipFence.
From S2P Require Import Eligibility State StoreMembership StateMachine StateFrame StateInv StateSettled.

Section theorems.
Context {O : Openraft} {laws : OpenraftLaws O}.
Implicit Types (s t : KafStorageState) (e : Entry).

(** ** The invariant *)

(** An admitted incarnation runs V2 with identity enforcement, under its own epoch. *)
Definition genesis_inv s : Prop :=
  ∀ g, state_genesis s = Some g →
    cluster_epoch s = Some (epoch g) ∧ failover_semantics s = V2 ∧ config_identity_enforced s = true.

Record state_inv s : Prop := {
  inv_vips : NoDup (vips_of s);
  inv_tracking : tracking_inv s;
  inv_fence : fence_inv s;
  inv_tick : tick_inv s;
  inv_settled : settled s;
  inv_genesis : genesis_inv s
}.

Lemma activate_v2_semantics s : failover_semantics (activate_v2 s) = V2.
Proof. unfold activate_v2. case_bool_decide; [done|]. destruct s; simpl. by destruct failback. Qed.

(** The incarnation fields after an entry. *)
Lemma dispatch_identity s e :
  let t := (dispatch s e).1.1 in
  (state_genesis t = state_genesis s ∨
   ∃ g, payload e = Normal (AdmissionGenesis g) ∧ state_genesis t = Some g ∧
     (state_genesis s = None ∨ state_genesis s = Some g) ∧
     (state_genesis s = None → failover_semantics t = V2 ∧ config_identity_enforced t = true) ∧
     cluster_epoch t = Some (epoch g)) ∧
  (∀ x, cluster_epoch s = Some x → cluster_epoch t = Some x) ∧
  (failover_semantics s = V2 → failover_semantics t = V2) ∧
  (config_identity_enforced s = true → config_identity_enforced t = true).
Proof.
  unfold dispatch. destruct (payload e) as [|[progress|genesis|command|n h|n v g|cid fsem cie| |]|mem] eqn:Hp;
    cbn [fst]; try (by destruct s; auto).
  - destruct (apply_progress_shape s progress (entry_log_id e)) as (?&?&?&?&?&?& ->). destruct s; auto.
  - unfold apply_genesis. destruct (_ || _) eqn:Hrej; [by auto|].
    apply orb_false_iff in Hrej as [Hg He].
    assert (∀ x, cluster_epoch s = Some x → Some (epoch genesis) = Some x) as Hepoch.
    { intros x Hx. rewrite Hx in He. guards. by subst. }
    case_bool_decide as Hnone.
    + set (s1 := s <| node_health := ∅ |> <| node_probe_ticks := ∅ |> <| node_recovery_tick := ∅ |>
        <| applied_progress := ∅ |>).
      pose proof (activate_v2_semantics s1) as Hsem. destruct (activate_v2 s1); simpl in *.
      split; [right; exists genesis; split_and!; auto|]. auto.
    + destruct (state_genesis s) as [g|] eqn:Hgs; [|done]. guards. subst g.
      destruct s; simpl in *. split; [right; exists genesis; split_and!; auto; done|]. auto.
  - destruct (apply_admission_membership_shape s command (entry_log_id e)) as (? & ->). destruct s; auto.
  - case_bool_decide; [by auto|].
    destruct (apply_health_shape s n h) as (?&?&?& ->). destruct s; auto.
  - destruct (apply_release_shape s n v g) as (? & ->). destruct s; auto.
  - case_bool_decide as Hnone; [|by auto].
    set (s1 := s <| cluster_epoch := Some cid |> <| config_identity_enforced := _ |>).
    assert (∀ x, cluster_epoch s = Some x → cluster_epoch s1 = Some x) as Hx by (rewrite Hnone; done).
    assert (config_identity_enforced s = true → config_identity_enforced s1 = true) as Hc.
    { destruct s; simpl in *. by intros ->. }
    case_bool_decide; [|destruct s; simpl in *; auto].
    pose proof (activate_v2_semantics s1) as Hsem.
    destruct (activate_v2_shape s1) as (sem & np & p & tk & bl & Heq). rewrite Heq in *.
    destruct s; simpl in *. auto.
  - pose proof (activate_v2_semantics s) as Hsem.
    destruct (activate_v2_shape s) as (?&?&?&?&?& Heq). rewrite Heq in *. destruct s; simpl in *. auto.
  - destruct (apply_membership_shape s mem (entry_log_id e)) as (?&?&?&?&?&?& ->). destruct s; auto.
Qed.

(** The fields that only ever move forward. *)
Record one_way s t : Prop := {
  way_genesis g : state_genesis s = Some g → state_genesis t = Some g;
  way_epoch x : cluster_epoch s = Some x → cluster_epoch t = Some x;
  way_semantics : failover_semantics s = V2 → failover_semantics t = V2;
  way_identity : config_identity_enforced s = true → config_identity_enforced t = true
}.

Lemma one_way_trans s1 s2 s3 : one_way s1 s2 → one_way s2 s3 → one_way s1 s3.
Proof. intros [????] [????]. split; auto. Qed.

Lemma apply_one_identity s e :
  let t := (apply_one s e).1 in let d := (dispatch (s <| last_applied_log := Some (entry_log_id e) |>) e).1.1 in
  state_genesis t = state_genesis d ∧ cluster_epoch t = cluster_epoch d ∧
  failover_semantics t = failover_semantics d ∧
  config_identity_enforced t = config_identity_enforced d.
Proof.
  unfold apply_one. destruct (dispatch _ e) as [[s1 r] []]; cbn [fst]; [|done].
  destruct (recompute_shape s1) as (?&?&?&?&?&?& ->). by destruct s1.
Qed.

Lemma apply_one_one_way s e : one_way s (apply_one s e).1.
Proof.
  pose proof (dispatch_identity (s <| last_applied_log := Some (entry_log_id e) |>) e) as (Hg & He & Hs & Hc).
  destruct (apply_one_identity s e) as (Hg' & He' & Hs' & Hc').
  destruct s; split; simpl in *; rewrite ?Hg', ?He', ?Hs', ?Hc'; try done.
  intros g ->. destruct Hg as [->|(g' & _ & -> & [?|?] & _)]; by simplify_eq.
Qed.

Lemma apply_one_genesis_inv s e : genesis_inv s → genesis_inv (apply_one s e).1.
Proof.
  intros Hs g Hg. pose proof (apply_one_one_way s e) as Hw.
  pose proof (dispatch_identity (s <| last_applied_log := Some (entry_log_id e) |>) e) as (Hd & _).
  destruct (apply_one_identity s e) as (Hg' & He' & Hs' & Hc').
  destruct Hd as [Hd|(g' & _ & Hd & Hor & Hnew & Hep)].
  - assert (state_genesis s = Some g) as Hsg by (rewrite <- Hg, Hg', Hd; by destruct s).
    destruct (Hs g Hsg) as (?&?&?). destruct Hw. auto.
  - rewrite Hg', Hd in Hg. simplify_eq. destruct Hor as [Hn|Hn].
    + rewrite He', Hs', Hc'. destruct (Hnew Hn). auto.
    + assert (state_genesis s = Some g) as Hsg by by destruct s.
      destruct (Hs g Hsg) as (?&?&?). destruct Hw. auto.
Qed.

Lemma apply_one_state_inv s e : state_inv s → state_inv (apply_one s e).1.
Proof.
  intros []. split.
  - by rewrite (config_vips _ _ (apply_one_config s e)).
  - by apply apply_one_tracking.
  - by apply apply_one_fence.
  - by apply apply_one_ticks.
  - by apply apply_one_settled.
  - by apply apply_one_genesis_inv.
Qed.

Lemma new_state_inv vips stale fb delay :
  NoDup (addr <$> vips.*1) → state_inv (new_state vips stale fb delay).
Proof using laws.
  intros Hnd. split; [done| | | |apply new_state_settled|done].
  - unfold tracking_inv; simpl. by destruct fb.
  - split; [|by intros v [? ?]]. intros v. by split_and!.
  - split_and!; simpl; [unfold u64_max; lia|done..].
Qed.

Lemma apply_all_inv s l : state_inv s → state_inv (apply_all s l).
Proof. intros Hs. apply (foldl_invariant state_inv); [done|]. intros. by apply apply_one_state_inv. Qed.

(** ** Handoffs along a history *)

(** The same handoff: only the release flag may have been raised. *)
Definition same_handoff (b b' : VipAssignment) : Prop :=
  holder b = holder b' ∧ generation b = generation b' ∧ previous_holder b = previous_holder b' ∧
  activation_tick b = activation_tick b' ∧
  (previous_holder_released b = true → previous_holder_released b' = true).

(** How the assignment and generation of one VIP evolve: the generation grows,
    and a new assignment is the old one or has a greater generation (until the
    counter saturates). *)
Definition evolves (a : option VipAssignment) (g : option N) (a' : option VipAssignment) (g' : option N) : Prop :=
  (∀ x, g = Some x → ∃ x', g' = Some x' ∧ (x ≤ x')%N) ∧
  (∀ b', a' = Some b' →
     (∃ b, a = Some b ∧ same_handoff b b') ∨
     (∀ x, g = Some x → (x < generation b')%N ∨ x = u64_max ∧ generation b' = u64_max)).

Lemma evolves_refl a g : evolves a g a g.
Proof. split; [eauto with lia|]. intros b' ->. left. by exists b'. Qed.

Lemma evolves_trans a g a' g' a'' g'' :
  evolves a g a' g' → evolves a' g' a'' g'' → evolves a g a'' g''.
Proof.
  intros [Hg1 Ha1] [Hg2 Ha2]. split.
  - intros x (y & Hy & Hxy)%Hg1. destruct (Hg2 y Hy) as (z & Hz & Hyz). exists z. split; [done|lia].
  - intros b'' [(b' & Hb' & Hsame)|Hgt]%Ha2.
    + destruct (Ha1 b' Hb') as [(b & Hb & Hsame1)|Hgt].
      * left. exists b. split; [done|]. unfold same_handoff in *. naive_solver congruence.
      * right. destruct Hsame as (_ & <- & _). done.
    + right. intros x (y & Hy & Hxy)%Hg1. destruct (Hgt y Hy) as [?|[-> ?]]; [left; lia|].
      destruct (decide (x = u64_max)) as [->|]; [by right|left; lia].
Qed.

Lemma handoff_evolves latest a g l h a' g' l' :
  fence_ok a g l → handoff latest a g l h a' g' l' → evolves a g a' g'.
Proof.
  intros (Hb & _ & _) Hh. unfold evolves.
  destruct Hh as [b -> | -> | b -> | b h -> Hne g1 | h -> g1]; simpl.
  - split; [eauto with lia|done].
  - split; [eauto with lia|done].
  - split; [eauto with lia|]. intros b' [= <-]. left. by exists b.
  - split; [|intros b' [= <-]; right]; intros x ->; specialize (Hb x eq_refl); simpl in *;
      subst g1; unfold u64_saturating_add; [eexists; split; [done|lia]|simpl; lia].
  - split; [|intros b' [= <-]; right]; intros x ->; specialize (Hb x eq_refl); simpl in *;
      subst g1; unfold u64_saturating_add; [eexists; split; [done|lia]|simpl; lia].
Qed.

Abbreviation evolved s t v :=
  (evolves (vip_assignments s !! v) (vip_generation s !! v) (vip_assignments t !! v) (vip_generation t !! v)).

Lemma settle_evolves s v : NoDup (vips_of s) → fence_inv s → evolved s (settle s) v.
Proof.
  intros Hnd [Hok _]. pose proof (settle_reconciled s Hnd) as [Hin Hout].
  destruct (decide (v ∈ vips_of s)) as [Hv|Hv].
  - eapply handoff_evolves; [apply Hok|]. by apply Hin.
  - destruct (Hout v Hv) as (-> & -> & _). split; [eauto with lia|done].
Qed.

Lemma recompute_evolves s v : NoDup (vips_of s) → fence_inv s → evolved s (recompute s) v.
Proof.
  intros Hnd Hf. unfold recompute. case_bool_decide; [|by apply settle_evolves].
  destruct (update_v2_shape s) as (np & p & tk & -> & _).
  apply (settle_evolves (set_tracking s np p tk) v); by destruct s.
Qed.

(** A release flag is raised only by the matching acknowledgement. *)
Definition acknowledges (e : Entry) (v : IpAddr) (b : VipAssignment) : Prop :=
  ∃ n, payload e = Normal (VipReleased n v (generation b)) ∧ previous_holder b = Some n.

(** Dispatching keeps generations and last holders, and every handoff. *)
Lemma dispatch_counters s e :
  vip_generation (dispatch s e).1.1 = vip_generation s ∧
  vip_last_holder (dispatch s e).1.1 = vip_last_holder s.
Proof.
  pose proof (dispatch_fences s e) as Hf. unfold fences_of in Hf.
  destruct (payload e) as [|[]|]; injection Hf as _ -> ->; try done.
  match goal with |- context [apply_release s ?n ?w ?g] => destruct (apply_release_shape s n w g) as (A & ->) end.
  by destruct s.
Qed.

Lemma dispatch_same s e v b' :
  vip_assignments (dispatch s e).1.1 !! v = Some b' →
  ∃ b, vip_assignments s !! v = Some b ∧ same_handoff b b' ∧ (b' = b ∨ acknowledges e v b).
Proof.
  pose proof (dispatch_fences s e) as Hf. unfold fences_of in Hf.
  destruct (payload e) as [|[| | | |n w g| | |]|] eqn:Hp; injection Hf as -> _ _;
    try (intros Hb; exists b'; by unfold same_handoff; auto 10).
  destruct (apply_release_ok s n w g v) as [->|(a & -> & Ha & <- & Hn & ->)].
  - intros Hb. exists b'. by unfold same_handoff; auto 10.
  - intros [= <-]. exists a. split; [done|]. split; [by unfold same_handoff|right]. by exists n.
Qed.

Lemma dispatch_evolves s e v : evolved s (dispatch s e).1.1 v.
Proof.
  destruct (dispatch_counters s e) as [-> _]. split; [eauto with lia|].
  intros b' (b & Hb & Hsame & _)%dispatch_same. left. by exists b.
Qed.

Lemma apply_one_evolves s e v : state_inv s → evolved s (apply_one s e).1 v.
Proof.
  intros Hs. unfold apply_one. set (s1 := s <| last_applied_log := _ |>).
  assert (NoDup (vips_of s1) ∧ fence_inv s1 ∧ evolved s s1 v) as (Hnd & Hf & H0).
  { destruct Hs as [Hv _ Hf _ _ _]. destruct s. split_and!; [done..|apply evolves_refl]. }
  eapply evolves_trans; [exact H0|]. pose proof (dispatch_evolves s1 e v) as H1.
  pose proof (dispatch_fence s1 e Hf) as Hf2.
  rewrite <- (config_vips _ _ (dispatch_config s1 e)) in Hnd.
  destruct (dispatch s1 e) as [[s2 r] []]; cbn [fst] in *; [|done].
  eapply evolves_trans; [exact H1|]. by apply recompute_evolves.
Qed.

Lemma apply_all_evolves s l v : state_inv s → evolved s (apply_all s l) v.
Proof.
  unfold apply_all. revert s. induction l as [|e l IH]; intros s Hs; [apply evolves_refl|].
  eapply evolves_trans; [by apply (apply_one_evolves s e)|]. apply IH. by apply apply_one_state_inv.
Qed.

Lemma dispatch_release s e v b :
  vip_assignments s !! v = Some b →
  vip_assignments (dispatch s e).1.1 !! v = Some b ∨ acknowledges e v b.
Proof.
  intros Hb. pose proof (dispatch_fences s e) as Hf. unfold fences_of in Hf.
  destruct (payload e) as [|[]|] eqn:Hp; injection Hf as -> _ _; try by left.
  match goal with |- context [apply_release s ?n ?w ?g] =>
    destruct (apply_release_ok s n w g v) as [->|(a & -> & Ha & <- & Hn & _)] end; [by left|].
  right. simplify_eq. eexists. by split.
Qed.

Lemma settle_release s v b b' :
  NoDup (vips_of s) → fence_inv s →
  vip_assignments s !! v = Some b → vip_assignments (settle s) !! v = Some b' →
  generation b = generation b' → (generation b < u64_max)%N → b' = b.
Proof.
  intros Hnd [Hok _] Hb Hb' Hg Hlt. pose proof (settle_reconciled s Hnd) as [Hin Hout].
  destruct (decide (v ∈ vips_of s)) as [Hv|Hv]; [|destruct (Hout v Hv); congruence].
  specialize (Hin v Hv). specialize (Hok v). rewrite Hb, Hb' in *.
  destruct Hok as (_ & _ & HG & _). rewrite HG in Hin.
  inversion Hin; simplify_eq/=; [done|]. subst. unfold u64_saturating_add in *. lia.
Qed.

Lemma apply_one_release s e v b b' :
  state_inv s →
  vip_assignments s !! v = Some b → vip_assignments (apply_one s e).1 !! v = Some b' →
  generation b = generation b' → (generation b < u64_max)%N → b' = b ∨ acknowledges e v b.
Proof.
  intros [Hv _ Hf _ _ _] Hb Hb' Hg Hlt. unfold apply_one in Hb'.
  set (s1 := s <| last_applied_log := _ |>) in *.
  assert (NoDup (vips_of s1) ∧ fence_inv s1 ∧ vip_assignments s1 !! v = Some b) as (Hnd & Hf1 & Hb1)
    by by destruct s.
  destruct (dispatch_release s1 e v b Hb1) as [Hb2|]; [|by right]. left.
  pose proof (dispatch_fence s1 e Hf1) as Hf2.
  rewrite <- (config_vips _ _ (dispatch_config s1 e)) in Hnd.
  destruct (dispatch s1 e) as [[s2 r] []]; cbn [fst] in *; [|congruence].
  unfold recompute in Hb'. case_bool_decide; [|by eapply (settle_release s2)].
  destruct (update_v2_shape s2) as (np & p & tk & Heq & _). rewrite Heq in Hb'.
  eapply (settle_release (set_tracking s2 np p tk)); by try destruct s2.
Qed.

(** Between two states with the same generation, every intermediate assignment is that handoff. *)
Lemma evolves_between a g l a1 g1 a2 g2 b b2 :
  fence_ok a g l → evolves a g a1 g1 → evolves a1 g1 a2 g2 →
  a = Some b → a2 = Some b2 → generation b = generation b2 → (generation b < u64_max)%N →
  ∃ b1, a1 = Some b1 ∧ same_handoff b b1 ∧ same_handoff b1 b2.
Proof.
  intros (_ & _ & Hok) [Hg1 Ha1] [Hg2 Ha2] -> -> Hgen Hlt. destruct Hok as (-> & _).
  destruct (Hg1 _ eq_refl) as (x1 & -> & Hx1).
  destruct (Ha2 b2 eq_refl) as [(b1 & -> & Hs2)|Hgt].
  - exists b1. split; [done|]. split; [|done].
    destruct (Ha1 b1 eq_refl) as [(b0 & [= <-] & Hs1)|Hgt]; [done|].
    destruct (Hgt _ eq_refl) as [?|[? _]]; [|lia]. destruct Hs2 as (_ & ? & _). lia.
  - destruct (Hgt _ eq_refl) as [?|[-> ?]]; lia.
Qed.

Lemma apply_all_release s l v b b' :
  state_inv s →
  vip_assignments s !! v = Some b → vip_assignments (apply_all s l) !! v = Some b' →
  generation b = generation b' → (generation b < u64_max)%N →
  previous_holder_released b = false → previous_holder_released b' = true →
  ∃ e, e ∈ l ∧ acknowledges e v b.
Proof.
  revert s b. induction l as [|e l IH]; intros s b Hs Hb Hb' Hg Hlt Hf Ht.
  { simpl in Hb'. congruence. }
  pose proof (apply_one_state_inv s e Hs) as Hs1.
  destruct (evolves_between _ _ _ _ _ _ _ b b' (proj1 (inv_fence _ Hs) v) (apply_one_evolves s e v Hs)
    (apply_all_evolves _ l v Hs1)) as (b1 & Hb1 & Hh1 & Hh2); [done..|].
  destruct (apply_one_release s e v b b1 Hs Hb Hb1) as [->|Hack]; [by destruct Hh1 as (_&?&_)|done| |].
  - destruct (IH _ b Hs1 Hb1 Hb' Hg Hlt Hf Ht) as (e' & He' & Hack). exists e'. set_solver.
  - exists e. set_solver.
Qed.

(** ** One applied entry *)

Lemma settle_fencing s v b' :
  NoDup (vips_of s) → fence_inv s → vip_assignments (settle s) !! v = Some b' →
  vip_assignments s !! v = Some b' ∨
  generation b' = u64_saturating_add (default 0%N (vip_generation s !! v)) 1 ∧
  previous_holder b' = vip_last_holder s !! v ∧
  previous_holder_released b' = bool_decide (vip_last_holder s !! v = None) ∧
  activation_tick b' = (if bool_decide (vip_last_holder s !! v = None) then latest_probe_tick s
                        else u64_saturating_add (latest_probe_tick s) 1).
Proof.
  intros Hnd [Hok _] Hb'. pose proof (settle_reconciled s Hnd) as [Hin Hout].
  destruct (decide (v ∈ vips_of s)) as [Hv|Hv]; [|destruct (Hout v Hv); congruence].
  specialize (Hin v Hv). specialize (Hok v). rewrite Hb' in Hin. destruct Hok as (Hb & Hd & Ha).
  inversion Hin as [| |a Hold|a h Hold Hne|h Hold]; simplify_eq; [by left|right|right].
  - rewrite Hold in Ha. destruct Ha as (_ & -> & _). by split_and!.
  - split_and!; try done. cbn [activation_tick].
    destruct (vip_generation s !! v) as [x|] eqn:Hx.
    + destruct (Hb x eq_refl). rewrite (bool_decide_eq_false_2 (vip_last_holder s !! v = None)).
      * rewrite bool_decide_eq_false_2; [done|]. simpl. lia.
      * intros Hn%Hd. done.
    + rewrite bool_decide_eq_true_2 by done. rewrite bool_decide_eq_true_2; [done|]. by apply Hd.
Qed.

Lemma apply_one_fencing s e v b' :
  state_inv s → vip_assignments (apply_one s e).1 !! v = Some b' →
  (∃ b, vip_assignments s !! v = Some b ∧ same_handoff b b' ∧ (b' = b ∨ acknowledges e v b)) ∨
  generation b' = u64_saturating_add (default 0%N (vip_generation s !! v)) 1 ∧
  previous_holder b' = vip_last_holder s !! v ∧
  previous_holder_released b' = bool_decide (vip_last_holder s !! v = None) ∧
  activation_tick b' = (if bool_decide (vip_last_holder s !! v = None)
                        then latest_probe_tick (apply_one s e).1
                        else u64_saturating_add (latest_probe_tick (apply_one s e).1) 1).
Proof.
  intros [Hv _ Hf _ _ _] Hb'. unfold apply_one in *.
  set (s1 := s <| last_applied_log := _ |>) in *.
  assert (NoDup (vips_of s1) ∧ fence_inv s1) as (Hnd & Hf1) by by destruct s.
  change (vip_assignments s) with (vip_assignments s1). change (vip_generation s) with (vip_generation s1).
  change (vip_last_holder s) with (vip_last_holder s1). clearbody s1. clear s Hv Hf.
  pose proof (dispatch_fence s1 e Hf1) as Hf2. destruct (dispatch_counters s1 e) as [HG HL].
  pose proof (dispatch_same s1 e v) as Hsame.
  rewrite <- (config_vips _ _ (dispatch_config s1 e)) in Hnd. rewrite <- HG, <- HL.
  destruct (dispatch s1 e) as [[s2 r] []]; cbn [fst] in *; [|by left; apply Hsame].
  clear HG HL Hf1. unfold recompute in *.
  set (s3 := if bool_decide (failover_semantics s2 = V2) then update_v2_failback_tracking s2 else s2) in *.
  assert (NoDup (vips_of s3) ∧ fence_inv s3 ∧ fences_of s3 = fences_of s2) as (Hnd3 & Hf3 & Heq).
  { unfold s3. case_bool_decide; [|done].
    destruct (update_v2_shape s2) as (np & p & tk & -> & _). by destruct s2. }
  clearbody s3. injection Heq as HA HG HL. rewrite <- HG, <- HL.
  destruct (settle_fencing s3 v b' Hnd3 Hf3 Hb') as [Hold|Hnew].
  - left. apply Hsame. by rewrite <- HA.
  - right. destruct (settle_shape s3) as (A & G & L & Hs). rewrite Hs in *. by destruct s3.
Qed.

(** A rejection leaves the state alone and does not recompute. *)
Lemma dispatch_rejected s e reason :
  (dispatch s e).1.2 = Rejected reason → (dispatch s e).1.1 = s ∧ (dispatch s e).2 = false.
Proof.
  unfold dispatch. destruct (payload e) as [|[]|]; try done.
  - unfold apply_progress. destruct (_ || _ || _); [done|]. by destruct (Admission.healthy _).
  - unfold apply_genesis. destruct (_ || _); [done|]. by case_bool_decide.
  - intros Hr. split; [|done]. revert Hr. unfold apply_admission_membership; simpl.
    by repeat case_match; simplify_eq/=.
  - by case_bool_decide.
  - case_bool_decide; [|done]. by case_bool_decide.
Qed.

End theorems.
