(* ===== verification/Guarantees.v ===== *)
(** * What clients of the committed state rely on

    The theorems about the applied state, each with an evaluation on a
    concrete history of a two-node cluster. *)

From S2P Require Import Prelude Io Text Replica Openraft Admission Types VipLogic VipPlacement VipAssign VipFence.
From S2P Require Import Eligibility State StoreMembership StateMachine StateFrame StateInv StateSettled StateTheorems.

Section guarantees.
Context {O : Openraft} {laws : OpenraftLaws O}.
Context (vips : list (VipAddr * Text)) (stale : N) (fb : bool) (delay : N).

(** The state after applying entries to a fresh store. *)
Definition replay (l : list Entry) : KafStorageState := apply_all (new_state vips stale fb delay) l.

Lemma replay_inv l : NoDup (addr <$> vips.*1) → state_inv (replay l).
Proof using laws. intros. by apply apply_all_inv, new_state_inv. Qed.

Lemma replay_config l : config_of (replay l) = (vips, stale, fb, delay).
Proof.
  unfold replay, apply_all. rewrite foldl_preserve; [done|]. intros. apply apply_one_config.
Qed.

Lemma replay_app l k : replay (l ++ k) = apply_all (replay l) k.
Proof. unfold replay, apply_all. by rewrite foldl_app. Qed.

(** C16: in every reachable state, the committed holder of a VIP is a physical
    member with exactly one voting boot whose last committed health is good,
    whose last probe round is within the staleness window of the frontier, and
    which is neither blocked by the legacy no-failback rule nor inside its
    failback delay. *)
Theorem committed_holder_eligible (l : list Entry) (v : IpAddr) (a : VipAssignment) :
  NoDup (addr <$> vips.*1) →
  let s := replay l in
  vip_assignments s !! v = Some a →
  v ∈ addr <$> vips.*1 ∧
  (∃ r, r ∈ voter_ids (membership (last_membership s)) ∧ physical_id r = holder a ∧
     ∀ r', r' ∈ voter_ids (membership (last_membership s)) → physical_id r' = holder a → r' = r) ∧
  node_health s !! holder a = Some true ∧
  (∃ t, node_probe_ticks s !! holder a = Some t ∧ (latest_probe_tick s ≤ t + stale)%N) ∧
  (failover_semantics s = Legacy → holder a ∉ node_failback_blocked s) ∧
  (∀ t, node_recovery_tick s !! holder a = Some t → (t + delay ≤ latest_probe_tick s)%N ∨ delay = 0%N).
Proof using laws.
  intros Hnd s Ha. pose proof (replay_inv l Hnd) as Hinv. fold s in Hinv.
  pose proof (replay_config l) as Hc. fold s in Hc. unfold config_of in Hc. injection Hc as Hv Hst Hfb Hdl.
  destruct (inv_settled _ Hinv) as [cur Hs].
  assert ((holder <$> vip_assignments s) !! v = Some (holder a)) as Hh by by rewrite lookup_fmap, Ha.
  rewrite Hs in Hh.
  assert (v ∈ vips_of s) as Hlisted by (apply (proj2 (inv_fence _ Hinv)); by rewrite Ha).
  assert (holder a ∈ candidates s) as Hcand.
  { rewrite new_holders_assign in Hh. destruct (decide (candidates s = [])) as [Hnil|Hne].
    { by rewrite Hnil in Hh. }
    destruct (assigned_places_on (candidates s) (receivers s) (vips_of s) cur Hne (inv_vips _ Hinv)) as [Hin _].
    destruct (Hin v Hlisted) as (n & Hn & Heq). rewrite Heq in Hh. simplify_eq. set_solver. }
  unfold candidates in Hcand.
  apply elem_of_eligible_nodes in Hcand as [[r Hr%unique_voters_spec] He].
  apply is_node_eligible_true in He as (Hb & Hhl & (t & Ht & Hfresh) & Hdelay). simpl in *.
  rewrite Hst, Hdl in *. split; [by rewrite <- Hv|]. split; [by exists r|]. split; [done|].
  split; [by exists t|]. split; [|done]. intros Hleg. by rewrite Hleg in Hb.
Qed.

(** C31: in every reachable state, either no node is eligible and no VIP has a
    holder, or every configured VIP has one. *)
Theorem every_vip_held (l : list Entry) :
  NoDup (addr <$> vips.*1) →
  let s := replay l in
  if decide (candidates s = []) then vip_assignments s = ∅
  else ∀ v, is_Some (vip_assignments s !! v) ↔ v ∈ addr <$> vips.*1.
Proof using laws.
  intros Hnd s. pose proof (replay_inv l Hnd) as Hinv. fold s in Hinv.
  pose proof (replay_config l) as Hc. fold s in Hc. injection Hc as Hv _ _ _.
  destruct (inv_settled _ Hinv) as [cur Hs]. rewrite new_holders_assign in Hs.
  case_decide as Hne.
  - rewrite Hne in Hs. by apply (fmap_empty_inv holder).
  - destruct (assigned_places_on (candidates s) (receivers s) (vips_of s) cur Hne (inv_vips _ Hinv)) as [Hin Hout].
    intros v. rewrite <- Hv. fold (vips_of s).
    rewrite <- (fmap_is_Some holder), <- lookup_fmap, Hs. split.
    + intros [n Hn]. destruct (decide (v ∈ vips_of s)) as [|Hno]; [done|]. by rewrite Hout in Hn.
    + intros (n & _ & ->)%Hin. done.
Qed.

(** In every reachable state, an eligible node that the no-preempt set does
    not exclude holds at most one VIP less than any other eligible node. *)
Theorem committed_holders_balanced (l : list Entry) (n r : N) :
  NoDup (addr <$> vips.*1) →
  let s := replay l in
  n ∈ candidates s → r ∈ candidates s → (failover_semantics s = V2 → r ∉ node_nopreempt s) →
  load_of (holder <$> vip_assignments s) n ≤ S (load_of (holder <$> vip_assignments s) r).
Proof using laws.
  intros Hnd s Hn Hr Hnp. pose proof (replay_inv l Hnd) as Hinv. fold s in Hinv.
  destruct (inv_settled _ Hinv) as [cur Hs]. rewrite Hs, new_holders_assign.
  apply assigned_load_le; [apply (inv_vips _ Hinv)|done|done|].
  unfold receivers. destruct (failover_semantics s) eqn:Hsem; [done|].
  apply list_elem_of_filter. auto.
Qed.

(** C15: whatever entries are applied in between, two assignments of a VIP with
    the same generation (below the counter's saturation) are the same handoff:
    holder, previous holder and activation round are equal, and a granted
    release is not revoked. *)
Theorem generation_identifies_handoff (l k : list Entry) (v : IpAddr) (b b' : VipAssignment) :
  NoDup (addr <$> vips.*1) →
  vip_assignments (replay l) !! v = Some b →
  vip_assignments (replay (l ++ k)) !! v = Some b' →
  generation b = generation b' → (generation b < u64_max)%N →
  same_handoff b b'.
Proof using laws.
  intros Hnd Hb Hb' Hg Hlt. rewrite replay_app in Hb'. pose proof (replay_inv l Hnd) as Hinv.
  destruct (evolves_between _ _ _ _ _ _ _ b b' (proj1 (inv_fence _ Hinv) v) (evolves_refl _ _)
    (apply_all_evolves _ k v Hinv)) as (b1 & Hb1 & _ & Hsame); [done..|]. by simplify_eq.
Qed.

(** C30: the release gate of a handoff opens only because the log contains the
    acknowledgement of the previous holder itself, for that very generation. *)
Theorem release_granted_by_previous_holder (l k : list Entry) (v : IpAddr) (b b' : VipAssignment) :
  NoDup (addr <$> vips.*1) →
  vip_assignments (replay l) !! v = Some b →
  vip_assignments (replay (l ++ k)) !! v = Some b' →
  generation b = generation b' → (generation b < u64_max)%N →
  previous_holder_released b = false → previous_holder_released b' = true →
  ∃ e n, e ∈ k ∧ previous_holder b = Some n ∧ payload e = Normal (VipReleased n v (generation b)).
Proof using laws.
  intros Hnd Hb Hb' Hg Hlt Hf Ht. rewrite replay_app in Hb'.
  destruct (apply_all_release _ k v b b' (replay_inv l Hnd) Hb Hb' Hg Hlt Hf Ht) as (e & He & n & Hp & Hn).
  by exists e, n.
Qed.

(** After the holder of a VIP has changed, an acknowledgement that carries
    the old generation changes nothing but the applied index. *)
Theorem delayed_release_ignored (l k : list Entry) (v : IpAddr) (b b' : VipAssignment) (n : N) (log_id : LogId) :
  NoDup (addr <$> vips.*1) →
  vip_assignments (replay l) !! v = Some b →
  vip_assignments (replay (l ++ k)) !! v = Some b' →
  holder b ≠ holder b' → (generation b < u64_max)%N →
  apply_one (replay (l ++ k)) (mkEntry O log_id (Normal (VipReleased n v (generation b))))
  = (replay (l ++ k) <| last_applied_log := Some log_id |>, KafOk).
Proof using laws.
  intros Hnd Hb Hb' Hne Hlt.
  assert (generation b' ≠ generation b) as Hg.
  { intros Hg. rewrite replay_app in Hb'. pose proof (replay_inv l Hnd) as Hinv.
    destruct (evolves_between _ _ _ _ _ _ _ b b' (proj1 (inv_fence _ Hinv) v) (evolves_refl _ _)
      (apply_all_evolves _ k v Hinv)) as (b1 & Hb1 & _ & Hsame & _); [done..|]. congruence. }
  unfold apply_one. cbn [dispatch payload entry_log_id].
  set (s := replay (l ++ k)) in *. unfold apply_release.
  replace (vip_assignments (s <| last_applied_log := Some log_id |>)) with (vip_assignments s) by by destruct s.
  rewrite Hb'. by rewrite (bool_decide_eq_false_2 _ Hg).
Qed.

(** The fencing data of every new assignment: when an entry gives a VIP an
    assignment that is not the previous handoff, its generation is the
    successor of the last one used, the previous holder is the last node that
    held the VIP (also across a time without holder), it starts unreleased
    unless nobody ever held the VIP, and it may activate without a release
    only one round after the current frontier. *)
Theorem new_assignment_fenced (l : list Entry) (e : Entry) (v : IpAddr) (b' : VipAssignment) :
  NoDup (addr <$> vips.*1) →
  let s := replay l in let t := replay (l ++ [e]) in
  vip_assignments t !! v = Some b' →
  (∃ b, vip_assignments s !! v = Some b ∧ same_handoff b b') ∨
  generation b' = u64_saturating_add (default 0%N (vip_generation s !! v)) 1 ∧
  previous_holder b' = vip_last_holder s !! v ∧
  previous_holder_released b' = bool_decide (vip_last_holder s !! v = None) ∧
  activation_tick b' = (if bool_decide (vip_last_holder s !! v = None) then latest_probe_tick t
                        else u64_saturating_add (latest_probe_tick t) OWNERSHIP_ACTIVATION_HOLDOFF_TICKS).
Proof using laws.
  intros Hnd s t Hb'. unfold t in *. rewrite replay_app in *. fold s in Hb' |- *.
  destruct (apply_one_fencing s e v b' (replay_inv l Hnd) Hb') as [(b & Hb & Hsame & _)|Hnew]; [|by right].
  left. by exists b.
Qed.

(** The genesis and the incarnation are set once, and neither the V2
    semantics nor the identity enforcement is ever switched off. *)
Theorem identity_is_one_way (s : KafStorageState) (k : list Entry) : one_way s (apply_all s k).
Proof.
  apply (foldl_invariant (one_way s)); [by split|]. intros t e _ Hst.
  eapply one_way_trans; [done|]. apply apply_one_one_way.
Qed.

(** A rejected request changes nothing but the applied index. *)
Theorem rejected_changes_nothing (s : KafStorageState) (e : Entry) (reason : string) :
  (apply_one s e).2 = Rejected reason →
  (apply_one s e).1 = s <| last_applied_log := Some (entry_log_id e) |>.
Proof.
  unfold apply_one. set (s1 := s <| last_applied_log := _ |>).
  pose proof (dispatch_rejected s1 e) as Hd. destruct (dispatch s1 e) as [[s2 r] rc]. simpl in *.
  intros ->. by destruct (Hd reason eq_refl) as [-> ->].
Qed.

(** One healthy update makes a node fresh again, however far the other
    members have advanced: right after it the node is base-eligible. *)
Theorem health_update_refreshes (s : KafStorageState) (n : N) :
  let t := apply_health s n true in
  is_node_base_eligible n (node_health t) (node_probe_ticks t) (latest_probe_tick t)
    (stale_missed_probes t) = true.
Proof.
  intros t. unfold t. destruct (apply_health_fields s n true) as (-> & -> & -> & _). apply next_probe_tick_fresh.
Qed.

End guarantees.

(** ** A concrete history *)

(** Two members, two VIPs: both members report healthy, then the first one
    fails, the second takes over, and the first acknowledges. *)
Definition demo_replica (id : N) : ReplicaId := mkReplicaId id (replicate 32 42%N).
Definition demo_vip_list : list (VipAddr * Text) :=
  [(mkVipAddr (V4 1) 24, text "eth0"); (mkVipAddr (V4 2) 24, text "eth0")].
Definition demo_log_id (i : N) : LogId := mkLogId (mkLeaderId 1 (demo_replica 1)) i.
Definition demo_members : Membership :=
  mkModelMembership [{[demo_replica 1; demo_replica 2]}] ∅ ∅.
Definition demo_history : list Entry :=
  [ mkEntry _ (demo_log_id 0) (MembershipChange demo_members);
    mkEntry _ (demo_log_id 1) (Normal (HealthUpdate 1 true));
    mkEntry _ (demo_log_id 2) (Normal (HealthUpdate 2 true)) ].
Definition demo_failover : list Entry := [ mkEntry _ (demo_log_id 3) (Normal (HealthUpdate 1 false)) ].
Definition demo_ack : list Entry := [ mkEntry _ (demo_log_id 4) (Normal (VipReleased 1 (V4 1) 2)) ].

Abbreviation demo := (replay demo_vip_list 3 true 0).

Lemma demo_vip_list_NoDup : NoDup (addr <$> demo_vip_list.*1).
Proof. by apply (bool_decide_unpack _). Qed.

(** Before, after and after the acknowledgement. *)
Definition demo_first : VipAssignment := mkVipAssignment 1 1 None true 1.
Definition demo_second : VipAssignment := mkVipAssignment 2 2 (Some 1%N) false 3.
Definition demo_released : VipAssignment := mkVipAssignment 2 2 (Some 1%N) true 3.

Lemma demo_before : vip_assignments (demo demo_history) !! V4 1 = Some demo_first.
Proof. vm_compute. reflexivity. Qed.
Lemma demo_after : vip_assignments (demo (demo_history ++ demo_failover)) !! V4 1 = Some demo_second.
Proof. vm_compute. reflexivity. Qed.

Lemma committed_holder_eligible_witness : node_health (demo demo_history) !! 1%N = Some true.
Proof.
  exact (proj1 (proj2 (proj2 (committed_holder_eligible demo_vip_list 3 true 0 demo_history (V4 1)
    demo_first demo_vip_list_NoDup demo_before)))).
Defined.

Lemma every_vip_held_witness : is_Some (vip_assignments (demo demo_history) !! V4 2).
Proof.
  pose proof (every_vip_held demo_vip_list 3 true 0 demo_history demo_vip_list_NoDup) as Hheld.
  cbv zeta in Hheld. destruct (decide (candidates (demo demo_history) = [])) as [Hc|_].
  - vm_compute in Hc. discriminate Hc.
  - apply Hheld. by apply (bool_decide_unpack _).
Defined.

Lemma committed_holders_balanced_witness :
  load_of (holder <$> vip_assignments (demo demo_history)) 1
  ≤ S (load_of (holder <$> vip_assignments (demo demo_history)) 2).
Proof.
  apply (committed_holders_balanced demo_vip_list 3 true 0 demo_history 1 2 demo_vip_list_NoDup).
  - vm_compute. apply list_elem_of_here.
  - vm_compute. apply list_elem_of_further, list_elem_of_here.
  - intros Hc. vm_compute in Hc. discriminate Hc.
Defined.

Lemma generation_identifies_handoff_witness : same_handoff demo_second demo_released.
Proof.
  apply (generation_identifies_handoff demo_vip_list 3 true 0 (demo_history ++ demo_failover) demo_ack
    (V4 1) demo_second demo_released demo_vip_list_NoDup demo_after); [vm_compute; reflexivity..|].
  vm_compute. reflexivity.
Defined.

Lemma release_granted_by_previous_holder_witness :
  ∃ e n, e ∈ demo_ack ∧ previous_holder demo_second = Some n ∧
    payload e = Normal (VipReleased n (V4 1) (generation demo_second)).
Proof.
  apply (release_granted_by_previous_holder demo_vip_list 3 true 0 (demo_history ++ demo_failover) demo_ack
    (V4 1) demo_second demo_released demo_vip_list_NoDup demo_after); vm_compute; reflexivity.
Defined.

Lemma delayed_release_ignored_witness :
  (apply_one (demo (demo_history ++ demo_failover))
     (mkEntry _ (demo_log_id 4) (Normal (VipReleased 1 (V4 1) (generation demo_first))))).2 = KafOk.
Proof.
  rewrite (delayed_release_ignored demo_vip_list 3 true 0 demo_history demo_failover (V4 1)
    demo_first demo_second 1 (demo_log_id 4) demo_vip_list_NoDup demo_before demo_after);
    [reflexivity|discriminate|vm_compute; reflexivity].
Defined.

Lemma new_assignment_fenced_witness :
  ∃ e, (∃ b, vip_assignments (demo demo_history) !! V4 1 = Some b ∧ same_handoff b demo_second) ∨
  generation demo_second = u64_saturating_add (default 0%N (vip_generation (demo demo_history) !! V4 1)) 1 ∧
  previous_holder demo_second = vip_last_holder (demo demo_history) !! V4 1 ∧
  previous_holder_released demo_second = bool_decide (vip_last_holder (demo demo_history) !! V4 1 = None) ∧
  activation_tick demo_second
    = (if bool_decide (vip_last_holder (demo demo_history) !! V4 1 = None)
       then latest_probe_tick (demo (demo_history ++ [e]))
       else u64_saturating_add (latest_probe_tick (demo (demo_history ++ [e]))) 1).
Proof.
  exists (mkEntry _ (demo_log_id 3) (Normal (HealthUpdate 1 false))).
  exact (new_assignment_fenced demo_vip_list 3 true 0 demo_history _ (V4 1) demo_second
    demo_vip_list_NoDup demo_after).
Defined.

Lemma rejected_changes_nothing_witness :
  ∃ e, (apply_one (demo demo_history) e).1
       = demo demo_history <| last_applied_log := Some (entry_log_id e) |>.
Proof.
  exists (mkEntry _ (demo_log_id 3) (Normal (AdmissionMembership
    (LearnerApplied (demo_replica 3) [] (demo_log_id 1))))).
  apply (rejected_changes_nothing _ _ "no join is pending"). vm_compute. reflexivity.
Defined.
