(* ===== verification/Snapshots.v ===== *)
(** * Snapshots and replica convergence

    A snapshot restores every replicated field, so a replica that installs one
    and applies the rest of the log is equivalent ([≡]) to one that applied the
    whole log.  [cluster_step] lets any number of replicas apply the committed
    log at their own pace, exchange snapshots through a wire that may delay
    and repeat them, and change their process-local fields; replicas with the
    same applied index agree in every reachable configuration. *)

From S2P Require Import Prelude Io Text Replica Openraft Admission Types VipLogic VipPlacement VipAssign VipFence.
From S2P Require Import Eligibility State StoreMembership StateMachine StateFrame StateInv StateSettled StateTheorems Guarantees.

Section snapshots.
Context {O : Openraft} {laws : OpenraftLaws O}.
Implicit Types (s t : KafStorageState).

(** ** Restoring *)

Lemma restore_equiv s t :
  tracking_inv s → config_of s = config_of t → restore_into (snapshot_from s) t ≡ s.
Proof.
  intros Hinv Hc. destruct s, t. unfold config_of in Hc; simpl in Hc. injection Hc as ????; subst.
  unfold tracking_inv in Hinv; simpl in Hinv.
  unfold restore_into; simpl. repeat case_match; destruct_and!; subst; done.
Qed.

Lemma restore_local s t : local_of (restore_into (snapshot_from s) t) = local_of t.
Proof. unfold restore_into. destruct t; simpl. by repeat case_match. Qed.

Lemma snapshot_anchor s la :
  last_applied_log s = Some la → snapshot_from s <| snap_last_applied := Some la |> = snapshot_from s.
Proof. destruct s; simpl. by intros ->. Qed.

Lemma purge_covered_equiv la s : purge_covered la s ≡ s.
Proof. unfold purge_covered. destruct s; simpl. by case_match. Qed.

Lemma adopt_equiv s t :
  tracking_inv s → config_of s = config_of t → adopt_snapshot (snapshot_from s) t ≡ s.
Proof.
  intros Hinv Hc. unfold adopt_snapshot. rewrite <- (restore_equiv s t) at 2 by done.
  generalize (restore_into (snapshot_from s) t). intros r.
  transitivity (match snap_last_applied (snapshot_from s) with
    | Some snap_last => purge_covered snap_last r | None => r end).
  - by destruct (match snap_last_applied _ with Some _ => _ | None => _ end).
  - destruct (snap_last_applied _); [apply purge_covered_equiv|done].
Qed.

Lemma adopt_fields snap t :
  admission (adopt_snapshot snap t) = admission t ∧ vote (adopt_snapshot snap t) = vote t ∧
  ∀ la, snap_last_applied snap = Some la →
    log (adopt_snapshot snap t) = filter (λ kv, ¬ (kv.1 ≤ index la)%N) (log t).
Proof.
  assert (admission (restore_into snap t) = admission t ∧ vote (restore_into snap t) = vote t ∧
    log (restore_into snap t) = log t) as (Ha & Hv & Hl).
  { unfold restore_into. destruct t; simpl. by repeat case_match. }
  unfold adopt_snapshot, purge_covered.
  destruct (restore_into snap t); simpl in *. subst.
  destruct (snap_last_applied snap); [|done].
  destruct (opt_index_lt _ _); simpl; naive_solver.
Qed.

Lemma equiv_tracking s t : s ≡ t → tracking_inv s → tracking_inv t.
Proof. intros ->%equiv_adopt. by destruct s. Qed.

Lemma equiv_fields s t :
  s ≡ t → last_applied_log s = last_applied_log t ∧ state_genesis s = state_genesis t ∧
  vip_assignments s = vip_assignments t ∧ config_of s = config_of t ∧
  last_membership s = last_membership t.
Proof. intros ->%equiv_adopt. by destruct s. Qed.

Section codec.
Context (to_vec : KafSnapshot → Result (list N) string) (from_slice : list N → Result KafSnapshot string).

(** [serde_json] decodes what it encoded. *)
Definition codec_ok : Prop := ∀ snap data, to_vec snap = Ok data → from_slice data = Ok snap.

Lemma build_snapshot_decodes s snap :
  codec_ok → build_snapshot to_vec s = Ok snap →
  from_slice (snapshot_data snap) = Ok (snapshot_from s) ∧ is_Some (last_applied_log s).
Proof.
  intros Hc Hb. unfold build_snapshot in Hb.
  destruct (last_applied_log s) as [la|] eqn:Hla; [|done].
  unfold snapshot_at in Hb. rewrite snapshot_anchor in Hb by done.
  destruct (to_vec (snapshot_from s)) as [data|] eqn:Hdata; [|done]. simplify_eq/=. split; [|done].
  by apply Hc.
Qed.

(** When an installation succeeds. *)
Lemma install_adopts s t meta data now :
  from_slice data = Ok (snapshot_from s) → check_mutation t now = Ok tt →
  (∀ g, state_genesis t = Some g → state_genesis s = Some g) →
  (∀ session, admission t = Some session → state_genesis s = Some (context_genesis (context session))) →
  install_snapshot from_slice t meta data now = Ok (adopt_snapshot (snapshot_from s) t).
Proof.
  intros Hd Hm Hg Ha. unfold install_snapshot. rewrite Hd, Hm.
  change (snap_genesis (snapshot_from s)) with (state_genesis s).
  destruct (state_genesis t) as [g|], (admission t) as [session|];
    by rewrite ?bool_decide_eq_true_2 by auto.
Qed.

(** A successful installation of the snapshot of [s]. *)
Lemma install_equiv s t t' meta data now :
  tracking_inv s → config_of s = config_of t →
  from_slice data = Ok (snapshot_from s) →
  install_snapshot from_slice t meta data now = Ok t' → t' ≡ s.
Proof.
  intros Hinv Hc Hdata Hi. unfold install_snapshot in Hi. rewrite Hdata in Hi.
  destruct (_ || _); [done|]. destruct (check_mutation t now); [|done]. injection Hi as <-.
  by apply adopt_equiv.
Qed.

(** ** Catching up *)

Section cluster.
Context (vips : list (VipAddr * Text)) (stale : N) (fb : bool) (delay : N).
Abbreviation replay := (replay vips stale fb delay).

Lemma replay_tracking l : tracking_inv (replay l).
Proof.
  apply (foldl_invariant tracking_inv); [unfold tracking_inv; simpl; by destruct fb|].
  intros. by apply apply_one_tracking.
Qed.

(** A replica's log after an installation: nothing the snapshot covers. *)
Definition log_after (la : LogId) s : Prop := ∀ i, is_Some (log s !! i) → (index la < i)%N.

(** C29: a replica with the same configuration and no conflicting genesis
    installs the snapshot built from any history, keeps its own admission and
    vote, keeps no log entry the snapshot covers, and from then on, whatever is
    applied next, agrees with a replica that applied the whole history. *)
Theorem snapshot_catches_up (l : list Entry) (snap : Snapshot) t meta now :
  codec_ok → build_snapshot to_vec (replay l) = Ok snap →
  config_of t = (vips, stale, fb, delay) → check_mutation t now = Ok tt →
  (∀ g, state_genesis t = Some g → state_genesis (replay l) = Some g) →
  (∀ session, admission t = Some session →
     state_genesis (replay l) = Some (context_genesis (context session))) →
  ∃ t', install_snapshot from_slice t meta (snapshot_data snap) now = Ok t' ∧
    admission t' = admission t ∧ vote t' = vote t ∧
    (∀ la, last_applied_log (replay l) = Some la → log_after la t') ∧
    ∀ k, apply_all t' k ≡ replay (l ++ k).
Proof.
  intros Hcodec Hb Hc Hm Hg Ha. destruct (build_snapshot_decodes _ _ Hcodec Hb) as [Hd [la Hla]].
  set (s := replay l) in *. exists (adopt_snapshot (snapshot_from s) t).
  pose proof (install_adopts s t meta _ now Hd Hm Hg Ha) as Hi.
  destruct (adopt_fields (snapshot_from s) t) as (Hadm & Hvote & Hlog).
  split; [done|]. split; [done|]. split; [done|]. split.
  - intros la' Hla' i. rewrite (Hlog la') by done. intros [e [_ He]%map_lookup_filter_Some]. simpl in He. lia.
  - intros k. unfold s. rewrite replay_app. apply apply_all_proper.
    apply adopt_equiv; [apply replay_tracking|]. by rewrite Hc, replay_config.
Qed.

(** ** A cluster of replicas *)

(** The committed log: Raft's log agreement gives every replica the same one,
    with the entry at position [i] carrying the index [i]. *)
Context (committed : list Entry).
Definition log_indexed : Prop := ∀ i e, committed !! i = Some e → index (entry_log_id e) = N.of_nat i.

(** The position of the next entry a replica applies. *)
Definition next_index s : nat :=
  match last_applied_log s with None => 0 | Some l => S (N.to_nat (index l)) end.

(** The replicas and the encoded snapshots in flight. *)
Record Cluster := mkCluster { replicas : gmap N KafStorageState; wire : list (list N) }.

Inductive cluster_step : Cluster → Cluster → Prop :=
| step_start c i :
    replicas c !! i = None →
    cluster_step c (mkCluster (<[i := new_state vips stale fb delay]> (replicas c)) (wire c))
| step_apply c i s s' e responder now sent :
    replicas c !! i = Some s → committed !! next_index s = Some e →
    apply s [(now, Ok (e, responder))] = (s', sent, Ok tt) →
    cluster_step c (mkCluster (<[i := s']> (replicas c)) (wire c))
| step_build c i s snap :
    replicas c !! i = Some s → build_snapshot to_vec s = Ok snap →
    cluster_step c (mkCluster (replicas c) (snapshot_data snap :: wire c))
| step_install c i s s' meta data now :
    replicas c !! i = Some s → data ∈ wire c →
    install_snapshot from_slice s meta data now = Ok s' →
    cluster_step c (mkCluster (<[i := s']> (replicas c)) (wire c))
| step_local c i s t :
    replicas c !! i = Some s →
    cluster_step c (mkCluster (<[i := adopt_local t s]> (replicas c)) (wire c)).

(** A state that is the replay of a prefix of the committed log. *)
Definition is_prefix s : Prop :=
  next_index s ≤ length committed ∧ s ≡ replay (take (next_index s) committed).

Definition cluster_inv (c : Cluster) : Prop :=
  (∀ i s, replicas c !! i = Some s → is_prefix s) ∧
  (∀ data, data ∈ wire c → ∃ s, is_prefix s ∧ from_slice data = Ok (snapshot_from s)).

Lemma is_prefix_equiv s t : s ≡ t → is_prefix s → is_prefix t.
Proof.
  intros Hst [Hle Heq]. destruct (equiv_fields s t Hst) as (Hla & _).
  assert (next_index t = next_index s) as Hn by (unfold next_index; by rewrite Hla).
  split; rewrite Hn; [done|]. by rewrite <- Hst.
Qed.

Lemma is_prefix_config s : is_prefix s → config_of s = (vips, stale, fb, delay) ∧ tracking_inv s.
Proof.
  intros [_ Heq]. destruct (equiv_fields _ _ Heq) as (_ & _ & _ & -> & _). rewrite replay_config.
  split; [done|]. eapply equiv_tracking; [by symmetry|]. apply replay_tracking.
Qed.

Lemma is_prefix_new : is_prefix (new_state vips stale fb delay).
Proof. split; [apply Nat.le_0_l|done]. Qed.

Lemma is_prefix_apply s e :
  log_indexed → is_prefix s → committed !! next_index s = Some e → is_prefix (apply_one s e).1.
Proof.
  intros Hidx [Hle Heq] He. pose proof (lookup_lt_Some _ _ _ He) as Hlt.
  assert (next_index (apply_one s e).1 = S (next_index s)) as Hn.
  { unfold next_index at 1. rewrite apply_one_last_applied, (Hidx _ _ He). lia. }
  split; rewrite Hn; [lia|]. rewrite (take_S_r _ _ _ He), replay_app.
  by apply (apply_all_proper _ _ [e]).
Qed.

Lemma cluster_step_inv c c' : log_indexed → codec_ok → cluster_inv c → cluster_step c c' → cluster_inv c'.
Proof.
  intros Hidx Hcodec [Hr Hw] Hstep.
  assert (∀ i s, is_prefix s → ∀ j t, (<[i := s]> (replicas c)) !! j = Some t → is_prefix t) as Hins.
  { intros i s Hs j t [[_ <-]|[_ Hj]]%lookup_insert_Some; [done|by eapply Hr]. }
  destruct Hstep as [c i Hi|c i s s' e resp now sent Hi He Ha|c i s snap Hi Hb
    |c i s s' meta data now Hi Hd Hins'|c i s t Hi]; split; cbn [replicas wire]; try done.
  - apply Hins, is_prefix_new.
  - apply Hins. simpl in Ha. destruct (check_mutation s now); [|done].
    destruct (apply_one s e) as [s1 r] eqn:Hs1. simplify_eq.
    replace s' with (apply_one s e).1 by by rewrite Hs1. apply is_prefix_apply; [done|by eapply Hr|done].
  - intros data [->|Hd]%elem_of_cons; [|by apply Hw].
    exists s. split; [by eapply Hr|]. by apply build_snapshot_decodes.
  - apply Hins. destruct (Hw data Hd) as (s0 & Hs0 & Hdec).
    destruct (is_prefix_config s0 Hs0) as [Hc0 Ht0]. destruct (is_prefix_config s) as [Hc1 _]; [by eapply Hr|].
    eapply (is_prefix_equiv s0); [|done]. symmetry. eapply install_equiv; [done| |done..]. by rewrite Hc0, Hc1.
  - apply Hins. eapply (is_prefix_equiv s); [|by eapply Hr]. apply equiv_adopt. by destruct s, t.
Qed.

Lemma cluster_reachable_inv c :
  log_indexed → codec_ok → rtc cluster_step (mkCluster ∅ []) c → cluster_inv c.
Proof.
  intros Hidx Hcodec Hr.
  assert (∀ c0, rtc cluster_step c0 c → cluster_inv c0 → cluster_inv c) as Hall.
  { intros c0. induction 1; [done|]. eauto using cluster_step_inv. }
  apply (Hall _ Hr). split; [done|]. intros data Hd. by apply elem_of_nil in Hd.
Qed.

(** C2: in every reachable configuration of the cluster, each replica is
    equivalent to a replay of the committed log up to its applied index, so two
    replicas with the same applied index have the same replicated state, in
    particular the same VIP assignments. *)
Theorem replicas_agree (c : Cluster) (i j : N) s t :
  log_indexed → codec_ok → rtc cluster_step (mkCluster ∅ []) c →
  replicas c !! i = Some s → replicas c !! j = Some t → last_applied_log s = last_applied_log t →
  s ≡ replay (take (next_index s) committed) ∧ snapshot_from s = snapshot_from t ∧
  vip_assignments s = vip_assignments t.
Proof.
  intros Hidx Hcodec Hr Hi Hj Hla. destruct (cluster_reachable_inv c Hidx Hcodec Hr) as [Hinv _].
  destruct (Hinv i s Hi) as [_ Hs]. destruct (Hinv j t Hj) as [_ Ht].
  assert (next_index t = next_index s) as Hn by (unfold next_index; by rewrite Hla).
  rewrite Hn in Ht. assert (s ≡ t) as Hst by (by rewrite Hs, Ht).
  split; [done|]. split; [apply Hst|apply (equiv_fields s t Hst)].
Qed.

(** A run of two replicas: one applies the first entry and builds a snapshot,
    which the other installs. *)
Lemma two_replica_run f e k snap joiner meta now :
  committed = e :: k → f ≡ new_state vips stale fb delay → check_mutation f now = Ok tt →
  build_snapshot to_vec (apply_one f e).1 = Ok snap →
  install_snapshot from_slice f meta (snapshot_data snap) now = Ok joiner →
  ∃ c, rtc cluster_step (mkCluster ∅ []) c ∧
    replicas c !! 1%N = Some (apply_one f e).1 ∧ replicas c !! 2%N = Some joiner.
Proof.
  intros Hcom Hf Hm Hb Hi. symmetry in Hf. pose proof Hf as Hadopt. apply equiv_adopt in Hadopt.
  set (n := new_state vips stale fb delay) in *.
  assert (next_index f = 0) as Hnext.
  { unfold next_index. by destruct (equiv_fields _ _ Hf) as (<- & _). }
  eexists. split; [|split].
  - eapply rtc_l; [by apply (step_start _ 1)|].
    eapply rtc_l; [apply (step_local _ 1 n f), lookup_insert_eq|]. rewrite <- Hadopt.
    eapply rtc_l; [apply (step_apply _ 1 f (apply_one f e).1 e true now [(apply_one f e).2]);
      [apply lookup_insert_eq|by rewrite Hnext, Hcom|simpl; rewrite Hm; by destruct (apply_one f e)]|].
    eapply rtc_l; [apply (step_build _ 1 (apply_one f e).1 snap); [apply lookup_insert_eq|done]|].
    eapply rtc_l; [by apply (step_start _ 2)|].
    eapply rtc_l; [apply (step_local _ 2 n f), lookup_insert_eq|]. rewrite <- Hadopt.
    eapply rtc_l; [apply (step_install _ 2 f joiner meta (snapshot_data snap) now);
      [apply lookup_insert_eq|apply list_elem_of_here|done]|].
    apply rtc_refl.
  - simpl. by simplify_map_eq.
  - simpl. by simplify_map_eq.
Qed.

End cluster.
End codec.
End snapshots.

(** ** A concrete cluster *)

Lemma genesis_applied {O : Openraft} (s : KafStorageState) (g : Genesis) (l : LogId) :
  state_genesis s = None → cluster_epoch s = None →
  state_genesis (apply_one s (mkEntry O l (Normal (AdmissionGenesis g)))).1 = Some g.
Proof.
  intros Hg He. destruct (apply_one_identity s (mkEntry O l (Normal (AdmissionGenesis g)))) as (-> & _).
  unfold dispatch, apply_genesis. cbn [payload entry_log_id].
  set (s1 := s <| last_applied_log := Some l |>).
  replace (state_genesis s1) with (@None Genesis) by by destruct s.
  replace (cluster_epoch s1) with (@None N) by by destruct s. cbn [orb].
  rewrite bool_decide_eq_true_2 by done. cbn [fst]. by destruct (activate_v2 _).
Qed.

(** The first entry of an admitted incarnation. *)
Definition demo_genesis : Genesis :=
  mkGenesis (mkClusterConfigFingerprint 1 []) 7 {[demo_replica 1; demo_replica 2]}.
Definition demo_entry : Entry := mkEntry _ (demo_log_id 0) (Normal (AdmissionGenesis demo_genesis)).

(** An admission session valid until instant 100, and a fresh replica that holds it. *)
Definition demo_session : AdmissionSession :=
  mkAdmissionSession (mkAdmissionContext (demo_replica 2) demo_genesis)
    (mkAdmissionFence (demo_replica 2) (λ _ _, Ok 100%N)).
Definition demo_fresh : KafStorageState :=
  new_state demo_vip_list 3 true 0 <| admission := Some demo_session |>.

(** A codec that knows one snapshot, the one the demonstration exchanges. *)
Definition demo_snap : KafSnapshot := snapshot_from (demo [demo_entry]).

#[local] Instance KafSnapshot_eq_dec : EqDecision (@KafSnapshot model_openraft).
Proof. solve_decision. Defined.

Definition demo_to_vec (snap : KafSnapshot) : Result (list N) string :=
  if decide (snap = demo_snap) then Ok [1%N] else Err "unsupported".
Definition demo_from_slice (data : list N) : Result KafSnapshot string :=
  if decide (data = [1%N]) then Ok demo_snap else Err "corrupt".

Lemma demo_codec_ok : codec_ok demo_to_vec demo_from_slice.
Proof. intros snap data. unfold demo_to_vec. case_decide; [|done]. intros [= <-]. by subst. Qed.

Lemma demo_built (s : KafStorageState) :
  s ≡ demo [demo_entry] →
  ∃ snap, build_snapshot demo_to_vec s = Ok snap ∧ snapshot_data snap = [1%N].
Proof.
  intros Hs. destruct (equiv_fields _ _ Hs) as (Hla & _).
  assert (last_applied_log (demo [demo_entry]) = Some (demo_log_id 0)) as Hd by apply apply_one_last_applied.
  rewrite Hd in Hla. unfold build_snapshot, snapshot_at. rewrite Hla, snapshot_anchor by done.
  unfold demo_to_vec. rewrite decide_True by apply Hs. by eexists.
Qed.

Lemma demo_fresh_equiv : demo_fresh ≡ new_state demo_vip_list 3 true 0.
Proof. by split. Qed.

Lemma demo_equiv : (apply_one demo_fresh demo_entry).1 ≡ demo [demo_entry].
Proof.
  apply (apply_all_proper demo_fresh (new_state demo_vip_list 3 true 0) [demo_entry]), demo_fresh_equiv.
Qed.

Lemma demo_has_genesis : state_genesis (demo [demo_entry]) = Some demo_genesis.
Proof. by apply genesis_applied. Qed.

Lemma demo_admitted session :
  admission demo_fresh = Some session →
  state_genesis (demo [demo_entry]) = Some (context_genesis (context session)).
Proof. intros [= <-]. apply demo_has_genesis. Qed.

Lemma snapshot_catches_up_witness :
  ∃ t', install_snapshot demo_from_slice demo_fresh "demo" [1%N] 5%N = Ok t' ∧
    apply_all t' [] ≡ demo ([demo_entry] ++ []).
Proof.
  destruct (demo_built (demo [demo_entry]) (reflexivity _)) as (snap & Hb & <-).
  assert (∀ g, state_genesis demo_fresh = Some g → state_genesis (demo [demo_entry]) = Some g) as Hg
    by (intros g Hg; discriminate Hg).
  destruct (snapshot_catches_up demo_to_vec demo_from_slice demo_vip_list 3 true 0 [demo_entry]
    snap demo_fresh "demo" 5%N demo_codec_ok Hb eq_refl eq_refl Hg demo_admitted)
    as (t' & Hi & _ & _ & _ & Hk).
  exists t'. exact (conj Hi (Hk [])).
Defined.

(** Replica 1 applies the entry, replica 2 installs its snapshot. *)
Lemma replicas_agree_witness :
  ∃ joiner, last_applied_log joiner = Some (demo_log_id 0) ∧
    vip_assignments (apply_one demo_fresh demo_entry).1 = vip_assignments joiner.
Proof.
  destruct (demo_built _ demo_equiv) as (snap & Hb & Hdata).
  assert (install_snapshot demo_from_slice demo_fresh "demo" (snapshot_data snap) 5%N
    = Ok (adopt_snapshot demo_snap demo_fresh)) as Hi.
  { rewrite Hdata. apply (install_adopts demo_from_slice (demo [demo_entry])); [done|done| |apply demo_admitted].
    intros g Hg. discriminate Hg. }
  destruct (two_replica_run demo_to_vec demo_from_slice demo_vip_list 3 true 0 [demo_entry] demo_fresh
    demo_entry [] snap _ "demo" 5%N eq_refl demo_fresh_equiv eq_refl Hb Hi) as (c & Hrun & H1 & H2).
  assert (adopt_snapshot demo_snap demo_fresh ≡ demo [demo_entry]) as Hadopt.
  { apply adopt_equiv; [apply replay_tracking|]. by rewrite replay_config. }
  destruct (equiv_fields _ _ Hadopt) as (Hla & _).
  assert (last_applied_log (demo [demo_entry]) = Some (demo_log_id 0)) as Hd by apply apply_one_last_applied.
  exists (adopt_snapshot demo_snap demo_fresh). split; [congruence|].
  refine (proj2 (proj2 (replicas_agree demo_to_vec demo_from_slice demo_vip_list 3 true 0 [demo_entry]
    c 1 2 _ _ _ demo_codec_ok Hrun H1 H2 _))).
  - intros i e. destruct i as [|i]; [intros [= <-]; reflexivity|done].
  - rewrite Hla, Hd. apply apply_one_last_applied.
Defined.
