(* ===== verification/JoinProtocol.v ===== *)
(** * The learner-join protocol along the log

    A join is prepared, acknowledged by the learner and completed by the
    membership entry that promotes it, or cancelled.  The invariant keeps, for
    the pending join and every completed one, the log entries that are its
    evidence, in order. *)

From S2P Require Import Prelude Io Text Replica Openraft Admission Types VipLogic VipPlacement VipAssign VipFence.
From S2P Require Import Eligibility State StoreMembership StateMachine StateFrame StateInv StateSettled StateTheorems Guarantees.

(** ** Plans *)

(** A valid plan replaces at most one boot: the consumer takes the place of the
    boot with its physical id, if any, and every other voter stays. *)
Record one_boot_replacement (p : JoinPlan) : Prop := {
  replacement_new : consumer p ∉ previous_voters p;
  replacement_member r :
    r ∈ next_voters p ↔ r = consumer p ∨ r ∈ previous_voters p ∧ physical_id r ≠ physical_id (consumer p);
  replacement_physical r r' : r ∈ next_voters p → r' ∈ next_voters p → physical_id r = physical_id r' → r = r';
  replacement_overlap : size (previous_voters p) ≤ S (size (previous_voters p ∩ next_voters p))
}.

Lemma physical_ids_insert x (X : gset ReplicaId) :
  physical_ids ({[x]} ∪ X) = {[physical_id x]} ∪ physical_ids X.
Proof. unfold physical_ids. set_solver. Qed.

Lemma size_insert_le {A} `{Countable A} (x : A) (X : gset A) :
  size ({[x]} ∪ X) = if decide (x ∈ X) then size X else S (size X).
Proof.
  case_decide; [f_equal; set_solver|]. rewrite size_union, size_singleton by set_solver. lia.
Qed.

Lemma physical_ids_size_le (X : gset ReplicaId) : size (physical_ids X) ≤ size X.
Proof.
  induction X as [|x X Hx IH] using set_ind_L; [done|].
  rewrite physical_ids_insert, !size_insert_le, (decide_False (P := x ∈ X)) by done.
  case_decide; lia.
Qed.

(** As many physical ids as replicas: no two replicas share one. *)
Lemma physical_ids_distinct (X : gset ReplicaId) :
  size (physical_ids X) = size X → ∀ r r', r ∈ X → r' ∈ X → physical_id r = physical_id r' → r = r'.
Proof.
  induction X as [|x X Hx IH] using set_ind_L; [set_solver|].
  rewrite physical_ids_insert, !size_insert_le, (decide_False (P := x ∈ X)) by done.
  pose proof (physical_ids_size_le X) as Hle. case_decide as Hin; intros Hs; [lia|].
  assert (∀ r, r ∈ X → physical_id r ≠ physical_id x) as Hne.
  { intros r Hr Heq. apply Hin. rewrite <- Heq. unfold physical_ids. set_solver. }
  intros r r' Hr Hr' Heq. apply elem_of_union in Hr as [->%elem_of_singleton|Hr];
    apply elem_of_union in Hr' as [->%elem_of_singleton|Hr']; try done.
  - by destruct (Hne r' Hr').
  - by destruct (Hne r Hr).
  - apply IH; [lia|done..].
Qed.

Lemma plan_validate_ok p : plan_validate p = Ok tt → one_boot_replacement p.
Proof.
  unfold plan_validate. destruct (_ || _ || _ || _) eqn:Hv; [done|]. intros _. guards.
  match goal with H : next_voters p = _ |- _ => rename H into Hnext end.
  match goal with H : size (physical_ids _) = _ |- _ =>
    pose proof (physical_ids_distinct _ H) as Hdist end.
  assert (∀ r, r ∈ next_voters p ↔
    r = consumer p ∨ r ∈ previous_voters p ∧ physical_id r ≠ physical_id (consumer p)) as Hmem.
  { intros r. rewrite Hnext. set_solver. }
  split; [done|done| |].
  - intros r r' [->|[Hr Hne]]%Hmem [->|[Hr' Hne']]%Hmem Heq; try done. by apply Hdist.
  - set (X := previous_voters p) in *.
    destruct (decide (set_Exists (λ r, physical_id r = physical_id (consumer p)) X)) as [(r & Hr & Hp)|Hno].
    + transitivity (size ({[r]} ∪ X ∩ next_voters p)).
      * apply subseteq_size. intros x Hx. destruct (decide (x = r)) as [->|Hne]; [set_solver|].
        apply elem_of_union. right. apply elem_of_intersection. split; [done|]. apply Hmem. right.
        split; [done|]. intros Heq. apply Hne, Hdist; [done..|congruence].
      * rewrite size_insert_le. case_decide; lia.
    + transitivity (size (X ∩ next_voters p)); [|lia]. apply subseteq_size.
      intros x Hx. apply elem_of_intersection. split; [done|]. apply Hmem. right. split; [done|].
      intros Heq. apply Hno. by exists x.
Qed.

(** ** The evidence of a join *)

Section history.
Context {O : Openraft}.
Implicit Types (s t : KafStorageState) (e : Entry) (l : list Entry).

Definition admission_entry (id : LogId) (c : AdmissionCommand) e : Prop :=
  entry_log_id e = id ∧ payload e = Normal (AdmissionMembership c).

(** The entry that prepared a join, and the acknowledgement, if it has one. *)
Definition prepared_evidence (g : option Genesis) l (pj : PreparedJoin) : Prop :=
  one_boot_replacement (plan pj) ∧ g = Some (plan_genesis (plan pj)) ∧
  (∃ e, e ∈ l ∧ admission_entry (prepared pj) (PrepareJoin (plan pj)) e) ∧
  ∀ ack, learner_applied pj = Some ack →
    (index (prepared pj) < index ack)%N ∧
    ∃ e, e ∈ l ∧ admission_entry ack
      (LearnerApplied (consumer (plan pj)) (plan_nonce (plan pj)) (prepared pj)) e.

(** The acknowledged join and the stable membership that promoted it. *)
Definition completed_evidence (g : option Genesis) l (id : N) (c : CompletedJoin) : Prop :=
  let pj := completed_prepared c in
  id = physical_id (consumer (plan pj)) ∧ prepared_evidence g l pj ∧
  ∃ ack e m, learner_applied pj = Some ack ∧ (index ack < index (promoted c))%N ∧
    e ∈ l ∧ entry_log_id e = promoted c ∧ payload e = MembershipChange m ∧
    joint_config_len m = 1 ∧ voter_set m = next_voters (plan pj).

Definition join_inv l s : Prop :=
  (∀ pj, prepared_join s = Some pj → prepared_evidence (state_genesis s) l pj) ∧
  (∀ id c, completed_joins s !! id = Some c → completed_evidence (state_genesis s) l id c).

Lemma prepared_evidence_mono g g' l l' pj :
  (∀ x, g = Some x → g' = Some x) → l ⊆ l' → prepared_evidence g l pj → prepared_evidence g' l' pj.
Proof.
  intros Hg Hl (Hv & Hgen & (e & He & Hp) & Hack). split_and!; [done|by apply Hg| |].
  - exists e. split; [by apply Hl|done].
  - intros ack Ha. destruct (Hack ack Ha) as (Hlt & e' & He' & Hp'). split; [done|]. exists e'.
    split; [by apply Hl|done].
Qed.

Lemma completed_evidence_mono g g' l l' id c :
  (∀ x, g = Some x → g' = Some x) → l ⊆ l' → completed_evidence g l id c → completed_evidence g' l' id c.
Proof.
  intros Hg Hl (Hid & Hp & ack & e & m & Ha & Hlt & He & Hrest). split_and!; [done| |].
  - by eapply prepared_evidence_mono.
  - exists ack, e, m. split_and!; try done; [by apply Hl|by destruct_and!..].
Qed.

(** What a join command leaves pending. *)
Lemma admission_membership_pending s c id pj' :
  prepared_join (apply_admission_membership s c id).1 = Some pj' →
  prepared_join s = Some pj' ∨
  (∃ p, c = PrepareJoin p ∧ plan_validate p = Ok tt ∧ state_genesis s = Some (plan_genesis p) ∧
     pj' = mkPreparedJoin p id None) ∨
  (∃ pj, prepared_join s = Some pj ∧
     c = LearnerApplied (consumer (plan pj)) (plan_nonce (plan pj)) (prepared pj) ∧
     (index (prepared pj) < index id)%N ∧
     pj' = mkPreparedJoin (plan pj) (prepared pj) (Some id)).
Proof.
  unfold apply_admission_membership. destruct c as [p|p prep|c nonce prep].
  - split_guard Hv; [by left|].
    destruct (prepared_join s) as [pj|] eqn:Hpj; [split_guard Hp; simpl; intros; left; congruence|].
    split_guard Hm; [simpl; intros; left; congruence|]. intros [= <-]. right. left. exists p.
    apply orb_false_iff in Hv as [Hok Hg]. guards. split_and!; try done.
    unfold is_err in Hok. by destruct (plan_validate p) as [[]|].
  - destruct (prepared_join s) as [pj|] eqn:Hpj; [|simpl; intros; left; congruence].
    split_guard Hm; [simpl; intros; left; congruence|done].
  - destruct (prepared_join s) as [pj|] eqn:Hpj; [|simpl; intros; left; congruence].
    split_guard Hv1; [simpl; intros; left; congruence|].
    destruct (learner_applied pj); [simpl; intros; left; congruence|].
    split_guard Hv2; [simpl; intros; left; congruence|]. guards. subst.
    intros [= <-]. right. right. exists pj. split_and!; [done|done|lia|done].
Qed.

(** Only join commands and membership entries touch the joins. *)
Lemma dispatch_joins s e :
  let t := (dispatch s e).1.1 in
  match payload e with
  | Normal (AdmissionMembership c) =>
      prepared_join t = prepared_join (apply_admission_membership s c (entry_log_id e)).1 ∧
      completed_joins t = completed_joins s
  | MembershipChange m =>
      match completes_join s m (entry_log_id e) with
      | Some pj => prepared_join t = None ∧
          completed_joins t = <[physical_id (consumer (plan pj)) := mkCompletedJoin pj (entry_log_id e)]>
            (completed_joins s)
      | None => prepared_join t = prepared_join s ∧ completed_joins t = completed_joins s
      end
  | _ => prepared_join t = prepared_join s ∧ completed_joins t = completed_joins s
  end.
Proof.
  unfold dispatch. destruct (payload e) as [|[]|m]; cbn [fst]; try (by destruct s).
  - match goal with |- context [apply_progress s ?p ?l] => destruct (apply_progress_shape s p l) as (?&?&?&?&?&?& ->) end.
    by destruct s.
  - match goal with |- context [apply_genesis s ?g] =>
      destruct (apply_genesis_shape s g) as (?&?&?&?&?&?&?&?&?&?&?& ->) end. by destruct s.
  - match goal with |- context [apply_admission_membership s ?c ?l] =>
      destruct (apply_admission_membership_shape s c l) as (? & Heq) end.
    split; [done|]. rewrite Heq. by destruct s.
  - case_bool_decide; [by destruct s|].
    match goal with |- context [apply_health s ?n ?h] => destruct (apply_health_shape s n h) as (?&?&?& ->) end.
    by destruct s.
  - match goal with |- context [apply_release s ?n ?v ?g] => destruct (apply_release_shape s n v g) as (? & ->) end.
    by destruct s.
  - case_bool_decide; [|by destruct s]. case_bool_decide; [|by destruct s].
    match goal with |- context [activate_v2 ?x] => destruct (activate_v2_shape x) as (?&?&?&?&?& ->) end.
    by destruct s.
  - destruct (activate_v2_shape s) as (?&?&?&?&?& ->). by destruct s.
  - unfold apply_membership.
    match goal with |- context [foldl (forget_changed ?b ?a) s ?l] =>
      destruct (forget_loop_shape b a s l) as (nh & npt & nrt & ap & ->) end.
    unfold promote_join, retain_progress, completes_join. destruct s; simpl. by repeat case_match; simplify_eq/=.
Qed.

Lemma recompute_joins s :
  prepared_join (recompute s) = prepared_join s ∧ completed_joins (recompute s) = completed_joins s.
Proof. destruct (recompute_shape s) as (?&?&?&?&?&?& ->). by destruct s. Qed.

Lemma completes_join_Some s m id pj :
  completes_join s m id = Some pj →
  prepared_join s = Some pj ∧ joint_config_len m = 1 ∧ voter_set m = next_voters (plan pj) ∧
  ∃ ack, learner_applied pj = Some ack ∧ (index ack < index id)%N.
Proof.
  unfold completes_join. destruct (prepared_join s) as [p|]; [|done].
  destruct (_ && _ && _) eqn:Hc; [|done]. intros [= <-]. guards.
  destruct (learner_applied p) as [ack|]; [|done]. guards. split_and!; eauto.
Qed.

(** The joins of a state after its dispatch stage. *)
Lemma dispatch_join_inv l s e :
  join_inv l s → (∀ x, state_genesis s = Some x → state_genesis (dispatch s e).1.1 = Some x) →
  join_inv (l ++ [e]) (dispatch s e).1.1.
Proof.
  intros [Hp Hc] Hg. pose proof (dispatch_joins s e) as Hd. cbv zeta in Hd.
  set (t := (dispatch s e).1.1) in *.
  assert (l ⊆ l ++ [e]) as Hsub by set_solver. assert (e ∈ l ++ [e]) as He by set_solver.
  assert (completed_joins t = completed_joins s →
    ∀ id c, completed_joins t !! id = Some c → completed_evidence (state_genesis t) (l ++ [e]) id c) as Hkeep.
  { intros -> id c Hid. eapply completed_evidence_mono; [done..|by apply Hc]. }
  assert (∀ pj, prepared_join s = Some pj → prepared_evidence (state_genesis t) (l ++ [e]) pj) as Hold.
  { intros pj Hpj. eapply prepared_evidence_mono; [done..|by apply Hp]. }
  destruct (payload e) as [|[| |c| | | | |]|m] eqn:Hpay;
    try (destruct Hd as [HP HC]; split; [intros pj; rewrite HP; apply Hold|by apply Hkeep]).
  - destruct Hd as [HP HC]. split; [|by apply Hkeep]. intros pj'. rewrite HP.
    intros [Hpj|[(p & -> & Hv & Hgen & ->)|(pj & Hpj & -> & Hlt & ->)]]%admission_membership_pending.
    + by apply Hold.
    + split_and!; simpl; [by apply plan_validate_ok|by apply Hg| |done]. by exists e.
    + destruct (Hold pj Hpj) as (Hv & Hgen & Hprep & _). split_and!; simpl; try done.
      intros ack [= <-]. split; [done|]. by exists e.
  - destruct (completes_join s m (entry_log_id e)) as [pj|] eqn:Hcj;
      [|destruct Hd as [HP HC]; split; [intros pj; rewrite HP; apply Hold|by apply Hkeep]].
    destruct Hd as [HP HC]. split; [intros pj'; by rewrite HP|]. rewrite HC.
    intros id c [[<- <-]|[_ Hid]]%lookup_insert_Some.
    + apply completes_join_Some in Hcj as (Hpj & Hlen & Hvot & ack & Hack & Hlt).
      split_and!; simpl; [done|by apply Hold|]. by exists ack, e, m.
    + eapply completed_evidence_mono; [done..|by apply Hc].
Qed.

Lemma apply_one_join_inv l s e : join_inv l s → join_inv (l ++ [e]) (apply_one s e).1.
Proof.
  intros Hs. pose proof (apply_one_one_way s e) as [Hg _ _ _].
  destruct (apply_one_identity s e) as (Hgd & _). unfold apply_one in *.
  set (s1 := s <| last_applied_log := _ |>) in *.
  assert (join_inv l s1) as Hs1 by by destruct s.
  assert (join_inv (l ++ [e]) (dispatch s1 e).1.1) as Hd.
  { apply dispatch_join_inv; [done|]. intros x Hx. rewrite <- Hgd. apply Hg. by destruct s. }
  destruct (dispatch s1 e) as [[s2 r] []]; cbn [fst] in *; [|done].
  destruct (recompute_joins s2) as [HP HC]. unfold join_inv. rewrite HP, HC, Hgd. exact Hd.
Qed.

Lemma replay_join_inv vips stale fb delay l : join_inv l (replay vips stale fb delay l).
Proof.
  induction l as [|e l IH] using rev_ind; [by split|].
  rewrite replay_app. by apply apply_one_join_inv.
Qed.

(** C34: the learner-join protocol is followed in order.  Whatever entries are
    applied to a fresh store, a pending join comes from the log entry that
    prepared it under the committed genesis, with a plan that replaces at most
    one boot, and its acknowledgement, if any, is a later entry of the learner;
    and a completed join has all of this, an acknowledgement, and a still later
    stable membership entry whose voters are exactly the planned ones. *)
Theorem joins_have_evidence vips stale fb delay l :
  let s := replay vips stale fb delay l in
  (∀ pj, prepared_join s = Some pj → prepared_evidence (state_genesis s) l pj) ∧
  (∀ id c, completed_joins s !! id = Some c → completed_evidence (state_genesis s) l id c).
Proof. apply replay_join_inv. Qed.

End history.

(** ** A complete join *)

Definition demo_boot (id : N) : ReplicaId := mkReplicaId id (replicate 32 7%N).
Definition join_genesis : Genesis :=
  mkGenesis (mkClusterConfigFingerprint 1 []) 7 {[demo_replica 1; demo_replica 2]}.
Definition join_plan : JoinPlan :=
  mkJoinPlan join_genesis (demo_boot 2) [5%N] {[demo_replica 1; demo_replica 2]}
    {[demo_replica 1; demo_boot 2]}.
Definition join_entries : list Entry :=
  [ mkEntry _ (demo_log_id 0) (Normal (AdmissionGenesis join_genesis));
    mkEntry _ (demo_log_id 1) (MembershipChange demo_members);
    mkEntry _ (demo_log_id 2) (Normal (AdmissionMembership (PrepareJoin join_plan)));
    mkEntry _ (demo_log_id 3) (MembershipChange
      (mkModelMembership [{[demo_replica 1; demo_replica 2]}] {[demo_boot 2]} ∅));
    mkEntry _ (demo_log_id 4) (Normal (AdmissionMembership
      (LearnerApplied (demo_boot 2) [5%N] (demo_log_id 2))));
    mkEntry _ (demo_log_id 5) (MembershipChange
      (mkModelMembership [{[demo_replica 1; demo_boot 2]}] ∅ ∅)) ].

(** The replacement of a boot by a newer one of the same member completes. *)
Example join_completes :
  (promoted <$> completed_joins (demo join_entries) !! 2%N, prepared_join (demo join_entries))
  = (Some (demo_log_id 5), None).
Proof. vm_compute. reflexivity. Qed.
