(* ===== verification/LogStore.v ===== *)
(** * The Raft log store (src/raft/store/log.rs)

    The operations of [KafLogStore] over the shared state, and what the Raft
    engine relies on: entries are found under their own index and above the
    purge frontier, a batch that was appended can be read back, the frontier
    only moves down by a truncation, and the commit frontier reported at
    startup is one the log can serve. *)

From S2P Require Import Prelude Io Text Replica Openraft Admission Types VipLogic State StoreMembership StateMachine.
Local Open Scope kaf_scope.

(** [std::ops::Bound]. *)
Inductive Bound := Included (i : N) | Excluded (i : N) | Unbounded.

(** Membership of a key in a range. *)
Definition above (lo : Bound) (k : N) : bool :=
  match lo with Included i => i <=? k | Excluded i => i <? k | Unbounded => true end%N.
Definition below (hi : Bound) (k : N) : bool :=
  match hi with Included i => k <=? i | Excluded i => k <? i | Unbounded => true end%N.

(** The documented panics of [BTreeMap::range]: the start is greater than the
    end, or they are equal and both excluded. *)
Definition range_panics (lo hi : Bound) : bool :=
  match lo, hi with
  | Excluded a, Excluded b => (b <=? a)%N
  | Included a, Included b | Included a, Excluded b | Excluded a, Included b => (b <? a)%N
  | Unbounded, _ | _, Unbounded => false
  end.

(** [BTreeMap::range]: [None] is a panic. *)
Definition btree_range {V} (m : gmap N V) (lo hi : Bound) : option (list (N * V)) :=
  if range_panics lo hi then None
  else Some (filter (λ kv, above lo kv.1 && below hi kv.1 = true) (btree_iter m)).

Section log.
Context {O : Openraft}.
Implicit Types (s : KafStorageState).

(** The normalised bounds of [try_get_log_entries]. *)
Definition range_start (lo : Bound) : option N :=
  match lo with Included i => Some i | Excluded i => u64_checked_add i 1 | Unbounded => None end.
Definition range_end (hi : Bound) : option N :=
  match hi with Included i => Some i | Excluded i => u64_checked_sub i 1 | Unbounded => None end.

(** [try_get_log_entries]; [None] is a panic of the engine's thread. *)
Definition try_get_log_entries s (lo hi : Bound) : option (Result (list Entry) IoError) :=
  if match range_start lo, range_end hi with
     | Some a, Some b => (b <? a)%N
     | _, _ => false
     end
  then Some (Ok [])
  else match btree_range (log s) lo hi with
       | None => None
       | Some kvs => Some (Ok kvs.*2)
       end.

(** [read_vote]. *)
Definition read_vote s : option Vote := vote s.

(** [save_vote]. *)
Definition save_vote s (v : Vote) (now : Instant) : Result KafStorageState IoError :=
  check_mutation s now ;?
  Ok (s <| vote := Some v |>).

(** [save_committed]. *)
Definition save_committed s (c : option LogId) (now : Instant) : Result KafStorageState IoError :=
  check_mutation s now ;?
  Ok (s <| committed := c |>).

(** [log.iter().next_back()] and [log.iter().next()]. *)
Definition log_tail s : option LogId := entry_log_id ∘ snd <$> last (btree_iter (log s)).
Definition log_head s : option (N * Entry) := head (btree_iter (log s)).

(** [best.map(|b| b.index()).unwrap_or(0) < x.index() || best.is_none()]. *)
Definition raises (best : option LogId) (x : LogId) : bool :=
  (default 0 (index <$> best) <? index x)%N || bool_decide (best = None).

(** [read_committed]. *)
Definition read_committed s : option LogId :=
  let best := committed s in
  let best :=
    match last_applied_log s with
    | Some applied => if raises best applied then Some applied else best
    | None => best
    end in
  match last_purged_log_id s with
  | Some purged =>
      let log_covers_floor :=
        match log_tail s with Some t => (index purged <=? index t)%N | None => false end in
      if log_covers_floor && raises best purged then Some purged else best
  | None => best
  end.

(** [LogState] and [get_log_state]. *)
Record LogState := mkLogState { state_last_purged : option LogId; state_last_log_id : option LogId }.

Definition get_log_state s : LogState :=
  let last_purged :=
    match last_purged_log_id s with
    | Some p => Some p
    | None =>
        match log_head s with
        | Some (idx, e) =>
            if (1 <? idx)%N then Some (mkLogId (committed_leader_id (entry_log_id e)) (idx - 1)) else None
        | None => None
        end
    end in
  mkLogState last_purged (log_tail s).

(** One iteration of the loop of [append], after its admission check. *)
Definition append_entry (purged : option N) s (entry : Entry) : KafStorageState :=
  if match purged with Some p => (index (entry_log_id entry) <=? p)%N | None => false end
  then s
  else
    let s :=
      if bool_decide (last_purged_log_id s = None) && bool_decide (log s = ∅)
         && (1 <? index (entry_log_id entry))%N
      then s <| last_purged_log_id :=
             Some (mkLogId (committed_leader_id (entry_log_id entry)) (index (entry_log_id entry) - 1)) |>
      else s in
    s <| log := <[index (entry_log_id entry) := entry]> (log s) |>.

(** The loop of [append]: the admission is checked before every entry, and the
    entries inserted before a failed check stay. *)
Fixpoint append_loop (purged : option N) s (entries : list (Instant * Entry))
  : KafStorageState * Result unit IoError :=
  match entries with
  | [] => (s, Ok tt)
  | (now, entry) :: entries =>
      match check_mutation s now with
      | Err e => (s, Err e)
      | Ok _ => append_loop purged (append_entry purged s entry) entries
      end
  end.

(** [append]: the new state and the result, which is also handed to the
    engine's flush callback. *)
Definition append s (now : Instant) (entries : list (Instant * Entry))
  : KafStorageState * Result unit IoError :=
  match check_mutation s now with
  | Err e => (s, Err e)
  | Ok _ => append_loop (index <$> last_purged_log_id s) s entries
  end.

(** [truncate_after]. *)
Definition truncate_after s (last_log_id : option LogId) (now : Instant) : Result KafStorageState IoError :=
  let start := default 0%N ((λ l, u64_wrapping_add (index l) 1) <$> last_log_id) in
  check_mutation s now ;?
  let s := s <| log := filter (λ kv, ¬ (start ≤ kv.1)%N) (log s) |> in
  let kept_upto := index <$> last_log_id in
  Ok (if opt_index_lt kept_upto (index <$> last_purged_log_id s)
      then s <| last_purged_log_id := last_log_id |> else s).

(** [purge]. *)
Definition purge s (log_id : LogId) (now : Instant) : Result KafStorageState IoError :=
  check_mutation s now ;?
  Ok (purge_covered log_id s).

End log.
