(* ===== verification/LogTheorems.v ===== *)
(** * Guarantees of the log store

    [log_ok]: entries are stored under their own index, above the purge
    frontier, without a hole between the frontier and the tail.  Every
    operation keeps it when the engine appends where its log ends, so a scan
    of the range that [get_log_state] reports never misses an entry. *)

From S2P Require Import Prelude Io Text Replica Openraft Admission Types VipLogic State StoreMembership StateMachine.
From S2P Require Import StateFrame LogStore.

Section log.
Context {O : Openraft}.
Implicit Types (s : KafStorageState) (L : gmap N Entry) (P : option LogId).

(** The last index that was purged; a log without frontier starts at 0 or 1. *)
Definition floor P : N := default 0%N (index <$> P).

Record log_ok L P : Prop := {
  log_key i e : L !! i = Some e → index (entry_log_id e) = i;
  log_above i p : is_Some (L !! i) → P = Some p → (index p < i)%N;
  log_dense i j : is_Some (L !! i) → (floor P < j ≤ i)%N → is_Some (L !! j)
}.

(** Where the engine appends: right after its last entry, or after the frontier
    of an emptied log, or anywhere in a log that never held anything. *)
Definition appends_at L P (i : N) : Prop :=
  (L ≠ ∅ → (0 < i)%N ∧ is_Some (L !! (i - 1)%N) ∧ ∀ j, is_Some (L !! j) → (j < i)%N) ∧
  (L = ∅ → ∀ p, P = Some p → i = (index p + 1)%N).

Lemma opt_index_lt_Some a b : opt_index_lt a (Some b) = true ↔ ∀ x, a = Some x → (x < b)%N.
Proof.
  destruct a as [x|]; simpl; [|by split]. rewrite N.ltb_lt. split; [by intros ?? [= <-]|auto].
Qed.

(** ** Appending *)

(** The frontier after the restart seed of [append]. *)
Definition seeded L P (e : Entry) : option LogId :=
  let i := index (entry_log_id e) in
  if bool_decide (P = None) && bool_decide (L = ∅) && (1 <? i)%N
  then Some (mkLogId (committed_leader_id (entry_log_id e)) (i - 1)) else P.

(** Appending at the right place keeps the invariant and the place. *)
Lemma insert_ok L P e :
  let i := index (entry_log_id e) in
  log_ok L P → appends_at L P i →
  log_ok (<[i := e]> L) (seeded L P e) ∧ appends_at (<[i := e]> L) (seeded L P e) (i + 1).
Proof.
  intros i [Hk Ha Hd] [Hne He].
  assert (∀ j, is_Some (<[i := e]> L !! j) ↔ j = i ∨ is_Some (L !! j)) as Hin.
  { intros j. rewrite lookup_insert_is_Some. destruct (decide (i = j)) as [->|]; naive_solver. }
  assert (∀ p, seeded L P e = Some p → (index p < i)%N ∧ (L = ∅ → index p = (i - 1)%N)) as Hp.
  { intros p. unfold seeded. fold i. destruct (decide (L = ∅)) as [Hemp|Hnemp].
    - rewrite (bool_decide_eq_true_2 (L = ∅)) by done. case_bool_decide as HP; simpl.
      + destruct (N.ltb_spec 1 i); [intros [= <-]; simpl; lia|]. by rewrite HP.
      + intros Hp. specialize (He Hemp p Hp). lia.
    - rewrite (bool_decide_eq_false_2 (L = ∅)), andb_false_r by done. simpl. intros Hp.
      destruct (Hne Hnemp) as (Hi0 & Hx & _). pose proof (Ha _ p Hx Hp). split; [lia|done]. }
  split; [split|split].
  - intros j x [[<- <-]|[_ Hj]]%lookup_insert_Some; [done|by apply Hk].
  - intros j p [->|Hj]%Hin Hs; [by apply Hp|]. destruct (Hp p Hs) as [_ Hemp].
    assert (L ≠ ∅) as Hnemp by (intros ->; by destruct Hj). revert Hs. unfold seeded.
    rewrite (bool_decide_eq_false_2 (L = ∅)), andb_false_r by done. by apply Ha.
  - intros j k Hj Hjk. apply Hin. destruct (decide (k = i)) as [|Hki]; [by left|right].
    destruct (decide (L = ∅)) as [Hemp|Hnemp].
    + exfalso. apply Hin in Hj as [->|Hj]; [|by rewrite Hemp in Hj; destruct Hj].
      unfold floor in Hjk. destruct (seeded L P e) as [p|] eqn:Hs; simpl in Hjk.
      * destruct (Hp p eq_refl) as [_ Hpi]. specialize (Hpi Hemp). lia.
      * revert Hs. unfold seeded. fold i. rewrite (bool_decide_eq_true_2 (L = ∅)) by done.
        destruct P; [done|]. simpl. destruct (N.ltb_spec 1 i); [done|lia].
    + replace (seeded L P e) with P in Hjk.
      2: { unfold seeded. by rewrite (bool_decide_eq_false_2 (L = ∅)), andb_false_r. }
      destruct (Hne Hnemp) as (Hi0 & Hx & Hlt). apply Hin in Hj as [->|Hj].
      * apply (Hd (i - 1)%N); [done|lia].
      * by apply (Hd j).
  - intros _. split; [lia|]. rewrite N.add_sub. split; [rewrite Hin; by left|].
    intros j [->|Hj]%Hin; [lia|]. destruct (decide (L = ∅)) as [Hemp|Hnemp].
    + rewrite Hemp in Hj. by destruct Hj.
    + destruct (Hne Hnemp) as (_ & _ & Hlt). specialize (Hlt j Hj). lia.
  - intros Hemp. by destruct (insert_non_empty L i e).
Qed.

(** The place where the engine appends is never below the frontier. *)
Lemma appends_at_above L P i p : log_ok L P → appends_at L P i → P = Some p → (index p < i)%N.
Proof.
  intros [_ Ha _] [Hne He] Hp. destruct (decide (L = ∅)) as [Hemp|Hnemp].
  - specialize (He Hemp p Hp). lia.
  - destruct (Hne Hnemp) as (? & Hx & _). specialize (Ha _ p Hx Hp). lia.
Qed.

Lemma append_entry_run purged s e :
  (∀ x, purged = Some x → (x < index (entry_log_id e))%N) →
  log (append_entry purged s e) = <[index (entry_log_id e) := e]> (log s) ∧
  last_purged_log_id (append_entry purged s e) = seeded (log s) (last_purged_log_id s) e ∧
  admission (append_entry purged s e) = admission s ∧
  admission_required (append_entry purged s e) = admission_required s.
Proof.
  intros Hp. unfold append_entry, seeded.
  assert ((match purged with Some p => (index (entry_log_id e) <=? p)%N | None => false end) = false) as ->.
  { destruct purged as [x|]; [|done]. apply N.leb_gt. by apply Hp. }
  destruct s; simpl. by destruct (_ && _ && _).
Qed.

(** A batch with consecutive indices starting at [i]. *)
Fixpoint consecutive (i : N) (entries : list (Instant * Entry)) : Prop :=
  match entries with
  | [] => True
  | (_, e) :: entries => index (entry_log_id e) = i ∧ consecutive (i + 1) entries
  end.

Lemma append_loop_ok purged s i entries :
  log_ok (log s) (last_purged_log_id s) → appends_at (log s) (last_purged_log_id s) i →
  (∀ x, purged = Some x → (x < i)%N) → consecutive i entries →
  let t := (append_loop purged s entries).1 in log_ok (log t) (last_purged_log_id t).
Proof.
  revert s i. induction entries as [|[now e] entries IH]; intros s i Hok Hat Hp Hc; [done|].
  destruct Hc as [<- Hc]. simpl. destruct (check_mutation s now); [|done].
  destruct (append_entry_run purged s e Hp) as (HL & HP & _).
  destruct (insert_ok _ _ e Hok Hat) as [Hok' Hat']. rewrite <- HL, <- HP in Hok', Hat'.
  apply (IH _ (index (entry_log_id e) + 1)%N); [done..| |done]. intros x Hx. specialize (Hp x Hx). lia.
Qed.

Lemma append_ok s now i entries :
  log_ok (log s) (last_purged_log_id s) → appends_at (log s) (last_purged_log_id s) i →
  consecutive i entries →
  let t := (append s now entries).1 in log_ok (log t) (last_purged_log_id t).
Proof.
  intros Hok Hat Hc. unfold append. destruct (check_mutation s now); [|done].
  apply (append_loop_ok _ s i); [done..| |done]. intros x Hx.
  destruct (last_purged_log_id s) as [p|] eqn:Hp; simplify_eq/=. by eapply appends_at_above.
Qed.

(** ** Truncating and purging *)

Lemma filter_below_ok L P (b : N) :
  log_ok L P → log_ok (filter (λ kv, ¬ (b ≤ kv.1)%N) L) P.
Proof.
  intros [Hk Ha Hd].
  assert (∀ j, is_Some (filter (λ kv : N * Entry, ¬ (b ≤ kv.1)%N) L !! j) ↔ is_Some (L !! j) ∧ (j < b)%N) as Hin.
  { intros j. split.
    - intros [x [Hj Hb]%map_lookup_filter_Some]. simpl in Hb. split; [by exists x|lia].
    - intros [[x Hx] Hb]. exists x. apply map_lookup_filter_Some. simpl. split; [done|lia]. }
  split.
  - intros i e [Hi _]%map_lookup_filter_Some. by apply Hk.
  - intros i p [Hi _]%Hin. by apply Ha.
  - intros i j [Hi Hb]%Hin Hj. apply Hin. split; [by eapply Hd|lia].
Qed.

Lemma purge_ok L P (l : LogId) :
  log_ok L P →
  log_ok (filter (λ kv, ¬ (kv.1 ≤ index l)%N) L)
    (if opt_index_lt (index <$> P) (Some (index l)) then Some l else P).
Proof.
  intros [Hk Ha Hd].
  assert (∀ j, is_Some (filter (λ kv : N * Entry, ¬ (kv.1 ≤ index l)%N) L !! j)
    ↔ is_Some (L !! j) ∧ (index l < j)%N) as Hin.
  { intros j. split.
    - intros [x [Hj Hb]%map_lookup_filter_Some]. simpl in Hb. split; [by exists x|lia].
    - intros [[x Hx] Hb]. exists x. apply map_lookup_filter_Some. simpl. split; [done|lia]. }
  split.
  - intros i e [Hi _]%map_lookup_filter_Some. by apply Hk.
  - intros i p [Hi Hb]%Hin. destruct (opt_index_lt _ _); [by intros [= <-]|by apply Ha].
  - intros i j [Hi Hb]%Hin Hj. apply Hin.
    destruct (opt_index_lt (index <$> P) (Some (index l))) eqn:Hlt.
    + unfold floor in Hj; simpl in Hj. rewrite opt_index_lt_Some in Hlt.
      split; [|lia]. apply (Hd i); [done|]. unfold floor. destruct P as [p|]; simpl in *; [|lia].
      specialize (Hlt _ eq_refl). lia.
    + destruct P as [p|]; simpl in Hlt; [|done]. apply N.ltb_ge in Hlt.
      unfold floor in Hj; simpl in Hj. split; [|lia]. apply (Hd i); [done|]. unfold floor; simpl. lia.
Qed.

Lemma truncate_ok s l now t :
  (∀ x, l = Some x → (index x < u64_max)%N) →
  log_ok (log s) (last_purged_log_id s) → truncate_after s l now = Ok t →
  log_ok (log t) (last_purged_log_id t).
Proof.
  intros Hmax Hok. unfold truncate_after. destruct (check_mutation s now); [|done].
  set (b := default 0%N ((λ l, u64_wrapping_add (index l) 1) <$> l)).
  pose proof (filter_below_ok _ _ b Hok) as Hf. intros Ht. injection Ht as <-.
  destruct (opt_index_lt _ _) eqn:Hlt; [|by destruct s].
  assert (filter (λ kv : N * Entry, ¬ (b ≤ kv.1)%N) (log s) = ∅) as Hemp.
  { apply map_empty. intros i. apply map_lookup_filter_None. right. intros e Hi Hb. simpl in Hb. destruct Hok as [_ Ha _].
    change (opt_index_lt (index <$> l) (index <$> last_purged_log_id s) = true) in Hlt.
    destruct (last_purged_log_id s) as [p|] eqn:Hp; [|by destruct l].
    specialize (Ha i p (ex_intro _ e Hi) eq_refl). subst b. destruct l as [x|]; simpl in *; [|lia].
    apply N.ltb_lt in Hlt. rewrite u64_wrapping_add_exact in Hb by (specialize (Hmax x eq_refl); lia). lia. }
  replace (log (s <| log := _ |> <| last_purged_log_id := l |>))
    with (filter (λ kv : N * Entry, ¬ (b ≤ kv.1)%N) (log s)) by by destruct s.
  rewrite Hemp. split; [done|by intros ?? [? ?]|by intros ?? [? ?]].
Qed.

Lemma purge_covered_fields l s :
  log (purge_covered l s) = filter (λ kv, ¬ (kv.1 ≤ index l)%N) (log s) ∧
  last_purged_log_id (purge_covered l s)
    = if opt_index_lt (index <$> last_purged_log_id s) (Some (index l)) then Some l
      else last_purged_log_id s.
Proof. unfold purge_covered. destruct s; simpl. by destruct (opt_index_lt _ _). Qed.

Lemma purge_covered_ok l s :
  log_ok (log s) (last_purged_log_id s) →
  log_ok (log (purge_covered l s)) (last_purged_log_id (purge_covered l s)).
Proof. intros Hok. destruct (purge_covered_fields l s) as [-> ->]. by apply purge_ok. Qed.

Lemma adopt_snapshot_ok snap s :
  log_ok (log s) (last_purged_log_id s) →
  log_ok (log (adopt_snapshot snap s)) (last_purged_log_id (adopt_snapshot snap s)).
Proof.
  intros Hok. unfold adopt_snapshot.
  assert (log (restore_into snap s) = log s ∧
    last_purged_log_id (restore_into snap s) = last_purged_log_id s) as [HL HP].
  { unfold restore_into. destruct s; simpl. by repeat case_match. }
  rewrite <- HL, <- HP in Hok. clear HL HP. revert Hok. generalize (restore_into snap s). intros r Hok.
  destruct (snap_last_applied snap) as [l|]; [|by destruct r].
  pose proof (purge_covered_ok l r Hok) as Hp. by destruct (purge_covered l r).
Qed.

(** ** Reachable stores *)

Context (vips : list (VipAddr * Text)) (stale : N) (fb : bool) (delay : N).
Context (from_slice : list N → Result KafSnapshot string).

(** The operations of the engine on one store. *)
Inductive store_step s : KafStorageState → Prop :=
| store_append now i entries :
    consecutive i entries → appends_at (log s) (last_purged_log_id s) i →
    store_step s (append s now entries).1
| store_truncate l now t :
    (∀ x, l = Some x → (index x < u64_max)%N) → truncate_after s l now = Ok t → store_step s t
| store_purge l now t : purge s l now = Ok t → store_step s t
| store_vote v now t : save_vote s v now = Ok t → store_step s t
| store_committed c now t : save_committed s c now = Ok t → store_step s t
| store_bind session now t : bind_admission s session now = Ok t → store_step s t
| store_apply items : store_step s (apply s items).1.1
| store_install meta data now t :
    install_snapshot from_slice s meta data now = Ok t → store_step s t.

Lemma apply_local_of s items : local_of (apply s items).1.1 = local_of s.
Proof.
  revert s. induction items as [|[now [[e resp]|err]] items IH]; intros s; [done| |done]. simpl.
  destruct (check_mutation s now); [|done].
  pose proof (apply_one_local_of s e) as Hl. destruct (apply_one s e) as [s1 r]. simpl in Hl.
  specialize (IH s1). destruct (apply s1 items) as [[s2 sent] res]. simpl in *. by rewrite IH.
Qed.

Lemma store_step_ok s t :
  store_step s t → log_ok (log s) (last_purged_log_id s) → log_ok (log t) (last_purged_log_id t).
Proof.
  intros Hs Hok. destruct Hs as [now i es Hc Hat|l now t Hmax Ht|l now t Ht|v now t Ht|c now t Ht
    |session now t Ht|items|meta data now t Ht].
  - by eapply append_ok.
  - by eapply truncate_ok.
  - unfold purge in Ht. destruct (check_mutation s now); [|done]. injection Ht as <-.
    by apply purge_covered_ok.
  - unfold save_vote in Ht. destruct (check_mutation s now); [|done]. injection Ht as <-. by destruct s.
  - unfold save_committed in Ht. destruct (check_mutation s now); [|done]. injection Ht as <-. by destruct s.
  - unfold bind_admission in Ht. destruct (session_check session now); [|done].
    destruct (admission s); [done|]. destruct (match state_genesis s with Some _ => _ | None => _ end); [done|].
    injection Ht as <-. by destruct s.
  - pose proof (apply_local_of s items) as Hl. unfold local_of in Hl.
    injection Hl as _ _ -> -> _ _ _. done.
  - unfold install_snapshot in Ht. destruct (from_slice data) as [snap|]; [|done].
    destruct (_ || _); [done|]. destruct (check_mutation s now); [|done]. injection Ht as <-.
    by apply adopt_snapshot_ok.
Qed.

Lemma reachable_log_ok s :
  rtc store_step (new_state vips stale fb delay) s → log_ok (log s) (last_purged_log_id s).
Proof.
  intros Hr. assert (∀ t, rtc store_step t s → log_ok (log t) (last_purged_log_id t) →
    log_ok (log s) (last_purged_log_id s)) as Hall.
  { intros t. induction 1; [done|]. eauto using store_step_ok. }
  apply (Hall _ Hr). split; [done|by intros ?? [? ?]|by intros ?? [? ?]].
Qed.

Lemma log_tail_spec s l :
  log_tail s = Some l →
  ∃ k e, log s !! k = Some e ∧ entry_log_id e = l ∧ ∀ j, is_Some (log s !! j) → (j ≤ k)%N.
Proof.
  unfold log_tail. intros Hl. apply fmap_Some in Hl as ([k e] & Hlast & ->).
  apply last_btree_iter in Hlast as [Hk Hmax]. by exists k, e.
Qed.

(** C32: whatever the engine did with the store, appending where its log ends,
    every entry between the purge frontier and the tail that [get_log_state]
    reports is present under its own index: the scan from the frontier to the
    tail never runs into a hole. *)
Theorem reported_log_has_no_hole s (l : LogId) (i : N) :
  rtc store_step (new_state vips stale fb delay) s →
  state_last_log_id (get_log_state s) = Some l →
  (floor (state_last_purged (get_log_state s)) < i ≤ index l)%N →
  ∃ e, log s !! i = Some e ∧ index (entry_log_id e) = i.
Proof.
  intros Hr Hl Hi. destruct (reachable_log_ok s Hr) as [Hk Ha Hd].
  destruct (log_tail_spec s l Hl) as (k & e & Hke & <- & Hmax).
  rewrite (Hk k e Hke) in Hi.
  assert (is_Some (log s !! i)) as [e' He'].
  { apply (Hd k); [by eexists|]. unfold get_log_state in Hi. simpl in Hi.
    unfold floor in *. destruct (last_purged_log_id s) as [p|]; simpl in *; [lia|].
    destruct (log_head s) as [[idx h]|]; simpl in *; [|lia].
    destruct (1 <? idx)%N; simpl in *; lia. }
  exists e'. split; [done|by apply Hk].
Qed.

(** ** Reading *)

Lemma range_start_above lo a k : range_start lo = Some a → above lo k = true → (a ≤ k)%N.
Proof.
  destruct lo as [i|i|]; simpl; [intros [= <-] ?; n_compare; lia| |done].
  unfold u64_checked_add. case_bool_decide; [|done]. intros [= <-] ?. n_compare. lia.
Qed.

Lemma range_end_below hi b k : range_end hi = Some b → below hi k = true → (k ≤ b)%N.
Proof.
  destruct hi as [i|i|]; simpl; [intros [= <-] ?; n_compare; lia| |done].
  unfold u64_checked_sub. case_bool_decide; [|done]. intros [= <-] ?. n_compare. lia.
Qed.

(** The entries of a range. *)
Definition entries_between s (lo hi : Bound) : list (N * Entry) :=
  filter (λ kv : N * Entry, above lo kv.1 && below hi kv.1 = true) (btree_iter (log s)).

Lemma entries_between_spec s lo hi :
  StronglySorted fst_le (entries_between s lo hi) ∧ NoDup (entries_between s lo hi).*1 ∧
  ∀ k e, (k, e) ∈ entries_between s lo hi ↔ log s !! k = Some e ∧ above lo k = true ∧ below hi k = true.
Proof.
  unfold entries_between. split_and!.
  - apply StronglySorted_list_filter, btree_iter_sorted.
  - eapply sublist_NoDup; [apply (btree_iter_NoDup_fst (log s))|apply fmap_sublist, sublist_filter].
  - intros k e. rewrite list_elem_of_filter, elem_of_btree_iter, andb_true_iff. simpl. tauto.
Qed.

(** The check of [try_get_log_entries] catches every range that would panic. *)
Lemma try_get_log_entries_ok s lo hi :
  hi ≠ Excluded 0 → lo ≠ Excluded u64_max → (∀ i, lo = Excluded i → (i ≤ u64_max)%N) →
  try_get_log_entries s lo hi = Some (Ok (entries_between s lo hi).*2).
Proof.
  intros Hhi Hlo Hmax. unfold try_get_log_entries.
  match goal with |- context [if ?b then _ else _] => destruct b eqn:Hinv end.
  - destruct (range_start lo) as [a|] eqn:Ha; [|done]. destruct (range_end hi) as [b|] eqn:Hb; [|done].
    apply N.ltb_lt in Hinv. destruct (entries_between s lo hi) as [|[k e] l] eqn:Hl; [done|].
    destruct (entries_between_spec s lo hi) as (_ & _ & Hin).
    destruct (Hin k e) as [(_ & Hk1 & Hk2) _]; [rewrite Hl; set_solver|].
    pose proof (range_start_above lo a k Ha Hk1). pose proof (range_end_below hi b k Hb Hk2). lia.
  - unfold btree_range. replace (range_panics lo hi) with false; [done|]. symmetry.
    destruct lo as [a|a|], hi as [b|b|]; simpl in *; try done;
      unfold u64_checked_add, u64_checked_sub in Hinv.
    + destruct (decide (b = 0%N)) as [->|]; [done|].
      rewrite bool_decide_eq_true_2 in Hinv by lia. n_compare. lia.
    + assert (a ≠ u64_max) by congruence. specialize (Hmax a eq_refl).
      rewrite bool_decide_eq_true_2 in Hinv by lia. n_compare. lia.
    + destruct (decide (b = 0%N)) as [->|]; [done|]. assert (a ≠ u64_max) by congruence.
      specialize (Hmax a eq_refl). rewrite !bool_decide_eq_true_2 in Hinv by lia. n_compare. lia.
Qed.

(** A read whose upper bound is not below every index and whose lower bound
    is not above every index never panics, also when the range is inverted, and
    returns exactly the stored entries of the range, by ascending index. *)
Theorem log_read_total s (lo hi : Bound) :
  hi ≠ Excluded 0 → lo ≠ Excluded u64_max → (∀ i, lo = Excluded i → (i ≤ u64_max)%N) →
  ∃ kvs, try_get_log_entries s lo hi = Some (Ok kvs.*2) ∧ StronglySorted fst_le kvs ∧ NoDup kvs.*1 ∧
    ∀ k e, (k, e) ∈ kvs ↔ log s !! k = Some e ∧ above lo k = true ∧ below hi k = true.
Proof.
  intros Hhi Hlo Hmax. exists (entries_between s lo hi).
  split; [by apply try_get_log_entries_ok|apply entries_between_spec].
Qed.

(** C40: the normalisation misses the inverted ranges that end before index 0:
    for any [a > 0], reading [a..0] reaches [BTreeMap::range] with a start above
    its end and panics. *)
Theorem log_read_panics_on_empty_end s (a : N) :
  (0 < a)%N → try_get_log_entries s (Included a) (Excluded 0) = None.
Proof.
  intros Ha. unfold try_get_log_entries, btree_range; simpl.
  by replace (0 <? a)%N with true by (symmetry; by apply N.ltb_lt).
Qed.

(** ** Reading back a batch *)

Lemma check_mutation_ext s t now :
  admission s = admission t → admission_required s = admission_required t →
  check_mutation s now = check_mutation t now.
Proof. unfold check_mutation. by intros -> ->. Qed.

Definition keyed (es : list (Instant * Entry)) : list (N * Entry) :=
  (λ ie : Instant * Entry, (index (entry_log_id ie.2), ie.2)) <$> es.

Lemma append_loop_run purged s i es :
  (∀ x, purged = Some x → (x < i)%N) → consecutive i es →
  (∀ now e, (now, e) ∈ es → check_mutation s now = Ok tt) →
  (append_loop purged s es).2 = Ok tt ∧
  log (append_loop purged s es).1 = list_to_map (reverse (keyed es)) ∪ log s.
Proof.
  revert s i. induction es as [|[now e] es IH]; intros s i Hp Hc Hm.
  { split; [done|]. simpl. by rewrite (left_id_L ∅ (∪)). }
  destruct Hc as [<- Hc]. simpl. rewrite (Hm now e) by set_solver.
  destruct (append_entry_run purged s e Hp) as (HL & _ & Hadm & Hreq).
  destruct (IH (append_entry purged s e) (index (entry_log_id e) + 1)%N) as [Hr Hlog]; [|done| |].
  - intros x Hx. specialize (Hp x Hx). lia.
  - intros now' e' Hin. rewrite (check_mutation_ext _ s) by done. apply (Hm now' e'). set_solver.
  - split; [done|]. rewrite Hlog, HL.
    change (keyed ((now, e) :: es)) with ((index (entry_log_id e), e) :: keyed es).
    rewrite reverse_cons, list_to_map_app, insert_union_singleton_l, (assoc_L (∪)). done.
Qed.
Lemma consecutive_keyed i es :
  consecutive i es →
  StronglySorted fst_le (keyed es) ∧ NoDup (keyed es).*1 ∧
  ∀ k e, (k, e) ∈ keyed es → (i ≤ k)%N.
Proof.
  revert i. induction es as [|[now e] es IH]; intros i Hc.
  { split_and!; [constructor|constructor|]. intros k x Hk. by apply elem_of_nil in Hk. }
  destruct Hc as [<- Hc]. destruct (IH _ Hc) as (Hs & Hnd & Hge).
  change (keyed ((now, e) :: es)) with ((index (entry_log_id e), e) :: keyed es). split_and!.
  - constructor; [done|]. apply Forall_forall. intros [k x] Hk. specialize (Hge k x Hk).
    unfold fst_le, kle; simpl. lia.
  - rewrite fmap_cons. apply NoDup_cons. split; [|done].
    intros ([k x] & Heq & Hk)%list_elem_of_fmap. specialize (Hge k x Hk). simpl in Heq. lia.
  - intros k x [Heq|Hk]%elem_of_cons; [simplify_eq; lia|]. specialize (Hge k x Hk). lia.
Qed.

(** A batch the engine appends where its log ends is read back whole and in
    order: if the admission holds at every check, [append] succeeds and reading
    from the first index of the batch returns exactly the batch. *)
Theorem appended_batch_reads_back s now i es :
  log_ok (log s) (last_purged_log_id s) → appends_at (log s) (last_purged_log_id s) i →
  consecutive i es → check_mutation s now = Ok tt →
  (∀ now' e, (now', e) ∈ es → check_mutation s now' = Ok tt) →
  (append s now es).2 = Ok tt ∧
  try_get_log_entries (append s now es).1 (Included i) Unbounded = Some (Ok es.*2).
Proof.
  intros Hok Hat Hc Hm Hms. unfold append. rewrite Hm.
  destruct (append_loop_run (index <$> last_purged_log_id s) s i es) as [Hr Hlog]; [|done..|].
  { intros x Hx. apply fmap_Some in Hx as (p & Hp & ->). by eapply appends_at_above. }
  split; [done|]. rewrite try_get_log_entries_ok by done. do 2 f_equal.
  destruct (consecutive_keyed i es Hc) as (Hs & Hnd & Hge).
  transitivity (keyed es).*2; [|unfold keyed; by rewrite <- list_fmap_compose]. f_equal.
  destruct (entries_between_spec (append_loop (index <$> last_purged_log_id s) s es).1
    (Included i) Unbounded) as (Hs' & Hnd' & Hin).
  apply sorted_assoc_unique; [done..|]. intros [k e]. rewrite Hin, Hlog. simpl.
  assert (NoDup (reverse (keyed es)).*1) as Hndr by by rewrite reverse_Permutation.
  rewrite lookup_union_Some_raw, <- elem_of_list_to_map, elem_of_reverse by done.
  split; [|intros Hk; split; [by left|split; [apply N.leb_le; by eapply Hge|done]]].
  intros ([?|[_ Hk]] & Hle & _); [done|]. exfalso. n_compare. destruct Hat as [Hne _].
  destruct Hne as (_ & _ & Hlt); [by intros Hemp; rewrite Hemp in Hk|].
  specialize (Hlt k (ex_intro _ e Hk)). lia.
Qed.

(** ** The commit frontier at startup *)

Lemma raises_spec best x :
  let r := if raises best x then Some x else best in
  (∀ b, best = Some b → ∃ c, r = Some c ∧ (index b ≤ index c)%N) ∧
  (∃ c, r = Some c ∧ (index x ≤ index c)%N) ∧ (r = Some x ∨ r = best).
Proof.
  unfold raises. destruct best as [b|]; simpl.
  - rewrite orb_false_r. destruct (index b <? index x)%N eqn:Hlt; n_compare;
      split_and!; try by auto; try (intros ? [= <-]); eexists; (split; [done|lia]).
  - rewrite orb_true_r. split_and!; [done| |by left]. exists x. split; [done|lia].
Qed.

(** The commit frontier reported at startup is at or above the saved commit
    and the applied index, and is one of them unless the log holds entries up
    to the purge frontier, which is then the frontier reported. *)
Theorem read_committed_serves s :
  (∀ c, committed s = Some c → ∃ b, read_committed s = Some b ∧ (index c ≤ index b)%N) ∧
  (∀ a, last_applied_log s = Some a → ∃ b, read_committed s = Some b ∧ (index a ≤ index b)%N) ∧
  (∀ b, read_committed s = Some b →
     committed s = Some b ∨ last_applied_log s = Some b ∨
     last_purged_log_id s = Some b ∧ ∃ t, log_tail s = Some t ∧ (index b ≤ index t)%N).
Proof.
  unfold read_committed. set (best := match last_applied_log s with Some _ => _ | None => _ end).
  assert ((∀ c, committed s = Some c → ∃ b, best = Some b ∧ (index c ≤ index b)%N) ∧
    (∀ a, last_applied_log s = Some a → ∃ b, best = Some b ∧ (index a ≤ index b)%N) ∧
    (∀ b, best = Some b → committed s = Some b ∨ last_applied_log s = Some b)) as (Hc & Ha & Hb).
  { unfold best. destruct (last_applied_log s) as [a|].
    - destruct (raises_spec (committed s) a) as (H1 & H2 & H3). split_and!; [done|by intros ? [= <-]|].
      intros b Hb. destruct H3 as [H3|H3]; rewrite H3 in Hb; [right|left]; congruence.
    - split_and!; [|done|by left]. intros c ->. exists c. split; [done|lia]. }
  clearbody best. destruct (last_purged_log_id s) as [p|]; [|split_and!; [done|done|naive_solver]].
  match goal with |- context [?b && raises best p] => destruct b eqn:Hcov end; simpl;
    [|split_and!; [done|done|naive_solver]].
  destruct (log_tail s) as [t|]; [|done]. n_compare.
  destruct (raises_spec best p) as (H1 & H2 & H3). split_and!.
  - intros c (b & Hb' & Hle)%Hc. destruct (H1 b Hb') as (b2 & -> & ?). exists b2. split; [done|lia].
  - intros a (b & Hb' & Hle)%Ha. destruct (H1 b Hb') as (b2 & -> & ?). exists b2. split; [done|lia].
  - intros b Hr. destruct H3 as [H3|H3]; rewrite H3 in Hr.
    + right. right. split; [done|]. exists t. simplify_eq. done.
    + destruct (Hb b Hr); auto.
Qed.

End log.

(** ** A concrete store *)

Section demo.
#[local] Existing Instance model_openraft.

Definition log_session : AdmissionSession :=
  mkAdmissionSession
    (mkAdmissionContext (mkReplicaId 1 []) (mkGenesis (mkClusterConfigFingerprint 1 []) 7 ∅))
    (mkAdmissionFence (mkReplicaId 1 []) (λ _ _, Ok 100%N)).
Definition log_store : KafStorageState := new_state [] 3 true 0 <| admission := Some log_session |>.
Definition log_entry (i : N) : Instant * Entry :=
  (5%N, mkEntry _ (mkLogId (mkLeaderId 1 (mkReplicaId 1 [])) i) Blank).
Definition log_batch : list (Instant * Entry) := [log_entry 7; log_entry 8; log_entry 9].

Lemma log_store_ok : log_ok (log log_store) (last_purged_log_id log_store).
Proof. split; [done|by intros ?? [? ?]|by intros ?? [? ?]]. Qed.

Lemma log_store_appends : appends_at (log log_store) (last_purged_log_id log_store) 7.
Proof. split; [by intros Hne|by intros _ p Hp]. Qed.

Definition no_snapshots : list N → Result KafSnapshot string := λ _, Err "unsupported".

Lemma log_store_bound : bind_admission (new_state [] 3 true 0) log_session 5%N = Ok log_store.
Proof. reflexivity. Qed.

Lemma log_store_reachable :
  rtc (store_step no_snapshots) (new_state [] 3 true 0) (append log_store 5%N log_batch).1.
Proof.
  apply (rtc_l _ _ log_store).
  - exact (store_bind no_snapshots _ _ _ _ log_store_bound).
  - apply rtc_once. apply (store_append no_snapshots log_store 5%N 7 log_batch); [by repeat split|].
    apply log_store_appends.
Qed.

Lemma reported_log_has_no_hole_witness :
  ∃ e, log (append log_store 5%N log_batch).1 !! 8%N = Some e ∧ index (entry_log_id e) = 8%N.
Proof.
  apply (reported_log_has_no_hole [] 3 true 0 no_snapshots _
    (entry_log_id (log_entry 9).2) 8 log_store_reachable).
  - vm_compute. reflexivity.
  - vm_compute. split; [reflexivity|discriminate].
Defined.

Lemma log_read_total_witness :
  ∃ kvs : list (N * Entry), try_get_log_entries (append log_store 5%N log_batch).1 (Included 9) (Included 8) = Some (Ok kvs.*2).
Proof.
  destruct (log_read_total (append log_store 5%N log_batch).1 (Included 9) (Included 8)) as (kvs & H & _);
    [discriminate|discriminate|discriminate|].
  exists kvs. exact H.
Defined.

Lemma log_read_panics_on_empty_end_witness :
  try_get_log_entries log_store (Included 5) (Excluded 0) = None.
Proof. apply (log_read_panics_on_empty_end log_store 5). reflexivity. Defined.

Lemma appended_batch_reads_back_witness :
  try_get_log_entries (append log_store 5%N log_batch).1 (Included 7) Unbounded = Some (Ok log_batch.*2).
Proof.
  refine (proj2 (appended_batch_reads_back log_store 5%N 7 log_batch log_store_ok log_store_appends _ _ _)).
  - by repeat split.
  - reflexivity.
  - intros now e Hin. repeat (apply elem_of_cons in Hin as [[= -> ->]|Hin]; [reflexivity|]).
    by apply elem_of_nil in Hin.
Defined.
End demo.
