(* ===== verification/BindPolicy.v ===== *)
(** * The bind decision (src/bind_policy.rs)

    When a node attaches a VIP: the decision function with its gates, and what
    it guarantees together with the committed fences: one binder per committed
    view, one holder per generation across views, and no first activation
    before the previous holder's release or loss of freshness. *)

From S2P Require Import Prelude Io Text Replica Openraft Admission Types VipLogic VipPlacement VipAssign VipFence.
From S2P Require Import Eligibility State StoreMembership StateMachine StateFrame StateInv StateSettled StateTheorems Guarantees.

(** [BindGates]. *)
Record BindGates := mkBindGates { has_leader : bool; local_healthy : bool; consensus_fresh : bool }.

(** [BindGates::all_open]. *)
Definition all_open (g : BindGates) : bool := has_leader g && local_healthy g && consensus_fresh g.

(** [should_bind_or_keep_vip]. *)
Definition should_bind_or_keep_vip (gates : BindGates) (node_id : N) (assignment : option VipAssignment)
    (node_probe_ticks : gmap N N) (latest_probe_tick stale_missed_probes : N)
    (activated_generation : option N) : bool :=
  if negb (all_open gates) then false
  else match assignment with
  | None => false
  | Some assignment =>
      if negb (bool_decide (holder assignment = node_id))
         || (latest_probe_tick <? activation_tick assignment)%N
      then false
      else if bool_decide (activated_generation = Some (generation assignment)) then true
      else match previous_holder assignment with
      | None => true
      | Some p =>
          if previous_holder_released assignment then true
          else negb (is_node_probe_fresh p node_probe_ticks latest_probe_tick stale_missed_probes)
      end
  end.

(** [should_bind_vip]: the decision without a prior activation. *)
Definition should_bind_vip (leader healthy fresh : bool) (node_id : N) (assignment : option VipAssignment)
    (node_probe_ticks : gmap N N) (latest_probe_tick stale_missed_probes : N) : bool :=
  should_bind_or_keep_vip (mkBindGates leader healthy fresh) node_id assignment node_probe_ticks
    latest_probe_tick stale_missed_probes None.

(** [binder_count_for_vip_per_node_view]: every node decides on its own view. *)
Definition binder_count_for_vip_per_node_view (leader : bool) (vip : IpAddr)
    (per_node_assignments : gmap N (gmap IpAddr VipAssignment)) (peer_ids_sorted : list N)
    (local_healthy_per_node consensus_fresh_per_node : gmap N bool)
    (node_probe_ticks : gmap N N) (latest_probe_tick stale_missed_probes : N) : nat :=
  length (filter (λ nid,
    should_bind_vip leader (default false (local_healthy_per_node !! nid))
      (default false (consensus_fresh_per_node !! nid)) nid
      (per_node_assignments !! nid ≫= lookup vip) node_probe_ticks latest_probe_tick
      stale_missed_probes = true) peer_ids_sorted).

(** [binder_count_for_vip]: every node sees the same committed assignments. *)
Definition binder_count_for_vip (leader : bool) (vip : IpAddr) (assignments : gmap IpAddr VipAssignment)
    (peer_ids_sorted : list N) (local_healthy_per_node consensus_fresh_per_node : gmap N bool)
    (node_probe_ticks : gmap N N) (latest_probe_tick stale_missed_probes : N) : nat :=
  length (filter (λ nid,
    should_bind_vip leader (default false (local_healthy_per_node !! nid))
      (default false (consensus_fresh_per_node !! nid)) nid (assignments !! vip) node_probe_ticks
      latest_probe_tick stale_missed_probes = true) peer_ids_sorted).

(** ** The decision *)

(** What a positive decision says. *)
Lemma should_bind_inv gates n asg ticks latest stale activated :
  should_bind_or_keep_vip gates n asg ticks latest stale activated = true →
  ∃ a, asg = Some a ∧ all_open gates = true ∧ holder a = n ∧ (activation_tick a ≤ latest)%N ∧
    (activated = Some (generation a) ∨
     ∀ p, previous_holder a = Some p →
       previous_holder_released a = true ∨ is_node_probe_fresh p ticks latest stale = false).
Proof.
  unfold should_bind_or_keep_vip. destruct (all_open gates); [|done]. simpl.
  destruct asg as [a|]; [|done]. destruct (_ || _) eqn:Hg; [done|]. guards. n_compare.
  intros Hb. exists a. split_and!; [done..|].
  case_bool_decide as Hact; [by left|right]. intros p Hp. rewrite Hp in Hb.
  destruct (previous_holder_released a); [by left|right]. by apply negb_true_iff.
Qed.

Lemma filter_unique {A} (P : A → Prop) `{∀ x, Decision (P x)} (l : list A) :
  NoDup l → (∀ x y, P x → P y → x = y) → length (filter P l) ≤ 1.
Proof.
  intros Hnd Hu. assert (NoDup (filter P l)) as Hf by by apply NoDup_filter.
  destruct (filter P l) as [|x [|y k]] eqn:Hl; simpl; [lia|lia|]. exfalso.
  assert (P x ∧ P y) as [Hx Hy].
  { split; [apply (list_elem_of_filter P l x)|apply (list_elem_of_filter P l y)]; rewrite Hl; set_solver. }
  apply NoDup_cons in Hf as [Hxy _]. apply Hxy. rewrite (Hu x y Hx Hy). set_solver.
Qed.

(** When all nodes decide on the same committed assignments, at most one of
    them binds a VIP, whatever their gates say. *)
Theorem at_most_one_binder leader vip assignments peers healthy fresh ticks latest stale :
  NoDup peers →
  binder_count_for_vip leader vip assignments peers healthy fresh ticks latest stale ≤ 1.
Proof.
  intros Hnd. apply filter_unique; [done|]. intros x y Hx Hy.
  destruct (should_bind_inv _ _ _ _ _ _ _ Hx) as (a & Ha & _ & <- & _).
  destruct (should_bind_inv _ _ _ _ _ _ _ Hy) as (a' & Ha' & _ & <- & _). congruence.
Qed.

Lemma at_most_one_binder_witness :
  binder_count_for_vip true (V4 1) (vip_assignments (demo demo_history)) [1%N; 2%N]
    {[1%N := true; 2%N := true]} {[1%N := true; 2%N := true]}
    (node_probe_ticks (demo demo_history)) 1 3 ≤ 1.
Proof. apply at_most_one_binder. by apply (bool_decide_unpack _). Defined.

Section fenced.
Context {O : Openraft} {laws : OpenraftLaws O}.
Context (vips : list (VipAddr * Text)) (stale : N) (fb : bool) (delay : N).
Abbreviation replay := (replay vips stale fb delay).

(** Every granted release of a handoff has its acknowledgement in the log. *)
Lemma released_has_ack (l : list Entry) (v : IpAddr) (a : VipAssignment) :
  NoDup (addr <$> vips.*1) →
  vip_assignments (replay l) !! v = Some a → previous_holder_released a = true →
  previous_holder a = None ∨ ∃ e, e ∈ l ∧ acknowledges e v a.
Proof using laws.
  intros Hnd. revert a. induction l as [|e l IH] using rev_ind; intros a Ha Hr; [done|].
  pose proof (replay_inv vips stale fb delay l Hnd) as Hinv.
  rewrite replay_app in Ha. simpl in Ha.
  destruct (apply_one_fencing _ e v a Hinv Ha) as [(b & Hb & Hsame & Hor)|(_ & Hp & Hrel & _)].
  - destruct Hor as [->|(n & Hpay & Hn)].
    + destruct (IH b Hb Hr) as [Hn|(e' & He' & Hack)]; [by left|right]. exists e'. set_solver.
    + destruct Hsame as (_ & Hg & Hp & _). right. exists e. split; [set_solver|]. exists n. split; congruence.
  - rewrite Hrel in Hr. apply bool_decide_eq_true_1 in Hr. left. congruence.
Qed.

(** C5: a node binds a VIP only on the committed assignment that names it, with
    its gates open and the activation round reached; and its first activation
    of a generation is either the first assignment the VIP ever had, or comes
    after the previous holder acknowledged this very generation in the log, or
    while the previous holder's probes are stale in the committed state. *)
Theorem binding_is_fenced (l : list Entry) (v : IpAddr) (n : N) gates activated :
  NoDup (addr <$> vips.*1) →
  let s := replay l in
  should_bind_or_keep_vip gates n (vip_assignments s !! v) (node_probe_ticks s) (latest_probe_tick s)
    stale activated = true →
  ∃ a, vip_assignments s !! v = Some a ∧ holder a = n ∧ all_open gates = true ∧
    (activation_tick a ≤ latest_probe_tick s)%N ∧
    (activated = Some (generation a) ∨ generation a = 1%N ∨
     ∃ p, previous_holder a = Some p ∧
       ((∃ e, e ∈ l ∧ payload e = Normal (VipReleased p v (generation a))) ∨
        is_node_probe_fresh p (node_probe_ticks s) (latest_probe_tick s) stale = false)).
Proof using laws.
  intros Hnd s Hb. destruct (should_bind_inv _ _ _ _ _ _ _ Hb) as (a & Ha & Hopen & Hn & Ht & Hor).
  exists a. split_and!; [done..|]. destruct Hor as [Hact|Hprev]; [by left|right].
  destruct (previous_holder a) as [p|] eqn:Hp.
  - right. exists p. split; [done|]. destruct (Hprev p eq_refl) as [Hrel|Hfresh]; [left|by right].
    destruct (released_has_ack l v a Hnd Ha Hrel) as [Hnone|(e & He & m & Hpay & Hm)]; [congruence|].
    exists e. split; [done|]. congruence.
  - left. destruct (inv_fence _ (replay_inv vips stale fb delay l Hnd)) as [Hok _]. specialize (Hok v).
    fold s in Hok. rewrite Ha in Hok. by apply Hok.
Qed.

(** Two nodes that apply the same log at different speeds never bind a VIP
    under the same generation (below saturation): the generation names one
    holder in every view. *)
Theorem one_binder_per_generation (l k : list Entry) (v : IpAddr) (n m : N) gates gates' act act'
    (a b : VipAssignment) :
  NoDup (addr <$> vips.*1) →
  let s := replay l in let t := replay (l ++ k) in
  vip_assignments s !! v = Some a → vip_assignments t !! v = Some b →
  generation a = generation b → (generation a < u64_max)%N →
  should_bind_or_keep_vip gates n (vip_assignments s !! v) (node_probe_ticks s) (latest_probe_tick s)
    stale act = true →
  should_bind_or_keep_vip gates' m (vip_assignments t !! v) (node_probe_ticks t) (latest_probe_tick t)
    stale act' = true →
  n = m.
Proof using laws.
  intros Hnd s t Ha Hb Hg Hlt Hbn Hbm.
  destruct (should_bind_inv _ _ _ _ _ _ _ Hbn) as (a' & Ha' & _ & <- & _).
  destruct (should_bind_inv _ _ _ _ _ _ _ Hbm) as (b' & Hb' & _ & <- & _).
  assert (a' = a) as -> by congruence. assert (b' = b) as -> by congruence.
  unfold t in Hb. rewrite replay_app in Hb.
  pose proof (replay_inv vips stale fb delay l Hnd) as Hinv.
  destruct (evolves_between _ _ _ _ _ _ _ a b (proj1 (inv_fence _ Hinv) v) (evolves_refl _ _)
    (apply_all_evolves _ k v Hinv)) as (b1 & Hb1 & _ & Hsame & _); [done..|]. unfold s in Ha. congruence.
Qed.

(** C38: a handoff cannot stay blocked by its activation round: once the frontier
    is beyond the one at which the assignment is observed, the holder binds as
    soon as its gates are open and the previous holder has released the VIP or
    is stale. *)
Theorem fence_opens_after_one_round (l : list Entry) (v : IpAddr) (a : VipAssignment) gates ticks latest activated :
  NoDup (addr <$> vips.*1) →
  vip_assignments (replay l) !! v = Some a →
  (latest_probe_tick (replay l) < latest)%N → all_open gates = true →
  (∀ p, previous_holder a = Some p →
     previous_holder_released a = true ∨ is_node_probe_fresh p ticks latest stale = false) →
  should_bind_or_keep_vip gates (holder a) (Some a) ticks latest stale activated = true.
Proof using laws.
  intros Hnd Ha Hlt Hopen Hprev.
  destruct (inv_tick _ (replay_inv vips stale fb delay l Hnd)) as (Hmax & _ & Hact).
  specialize (Hact v a Ha). unfold u64_saturating_add in Hact.
  unfold should_bind_or_keep_vip. rewrite Hopen. simpl. rewrite bool_decide_eq_true_2 by done. simpl.
  replace (latest <? activation_tick a)%N with false by (symmetry; n_compare; lia).
  case_bool_decide; [done|]. destruct (previous_holder a) as [p|]; [|done].
  destruct (Hprev p eq_refl) as [->|Hf]; [done|]. rewrite Hf. by destruct (previous_holder_released a).
Qed.

End fenced.

(** ** Evaluations *)

Definition demo_gates : BindGates := mkBindGates true true true.

Lemma binding_is_fenced_witness :
  ∃ a, vip_assignments (demo demo_history) !! V4 1 = Some a ∧ holder a = 1%N.
Proof.
  destruct (binding_is_fenced demo_vip_list 3 true 0 demo_history (V4 1) 1 demo_gates None
    demo_vip_list_NoDup) as (a & Ha & Hh & _); [vm_compute; reflexivity|].
  exists a. exact (conj Ha Hh).
Defined.

Lemma one_binder_per_generation_witness : 1%N = 1%N.
Proof.
  exact (one_binder_per_generation demo_vip_list 3 true 0 demo_history [] (V4 1) 1 1 demo_gates demo_gates
    None None demo_first demo_first demo_vip_list_NoDup demo_before demo_before eq_refl eq_refl
    ltac:(vm_compute; reflexivity) ltac:(vm_compute; reflexivity)).
Defined.

Lemma fence_opens_after_one_round_witness :
  should_bind_or_keep_vip demo_gates 2 (Some demo_second) {[1%N := 2%N]} 9 3 None = true.
Proof.
  apply (fence_opens_after_one_round demo_vip_list 3 true 0 (demo_history ++ demo_failover) (V4 1)
    demo_second demo_gates {[1%N := 2%N]} 9 None demo_vip_list_NoDup demo_after).
  - vm_compute. reflexivity.
  - reflexivity.
  - intros p [= <-]. right. vm_compute. reflexivity.
Defined.
