(* ===== verification/Config.v ===== *)
(** * Configuration (src/config.rs, src/config/validation.rs, vip_validation.rs, secret.rs)

    The daemon's configuration record, the values derived from it, and
    [normalize], which validates it and canonicalises its endpoints and VIPs.
    Reading the YAML file and the secret file is not modelled; the standard
    library's parser and printer of socket addresses are the parameters
    [sock_parse] and [sock_render]. *)

From S2P Require Import Prelude Text Encoding Replica Openraft Admission Types.
Local Open Scope kaf_scope.

(** ** Addresses of the standard library *)

(** [SocketAddr]: an IPv6 endpoint also has a flow label and a scope. *)
Inductive SocketAddr :=
| SocketV4 (ip : N) (port : N)
| SocketV6 (ip : N) (port flowinfo scope_id : N).

#[global] Instance SocketAddr_eq_dec : EqDecision SocketAddr.
Proof. solve_decision. Defined.

Definition socket_ip (a : SocketAddr) : IpAddr :=
  match a with SocketV4 ip _ => V4 ip | SocketV6 ip _ _ _ => V6 ip end.
Definition socket_is_ipv4 (a : SocketAddr) : bool :=
  match a with SocketV4 _ _ => true | SocketV6 _ _ _ _ => false end.

(** [Ipv6Addr::to_ipv4_mapped]: the prefix [::ffff:0:0/96]. *)
Definition to_ipv4_mapped (ip : N) : option N :=
  if (ip / 2 ^ 32 =? 65535)%N then Some (ip mod 2 ^ 32)%N else None.

Definition is_unspecified (a : IpAddr) : bool :=
  match a with V4 ip | V6 ip => (ip =? 0)%N end.
Definition is_multicast (a : IpAddr) : bool :=
  match a with V4 ip => (ip / 2 ^ 28 =? 14)%N | V6 ip => (ip / 2 ^ 120 =? 255)%N end.
Definition is_loopback (a : IpAddr) : bool :=
  match a with V4 ip => (ip / 2 ^ 24 =? 127)%N | V6 ip => (ip =? 1)%N end.
Definition is_broadcast (ip : N) : bool := (ip =? u32_max)%N.
Definition is_ipv4 (a : IpAddr) : bool := match a with V4 _ => true | V6 _ => false end.

(** [canonical_socket_addr]. *)
Definition canonical_socket_addr (a : SocketAddr) : SocketAddr :=
  match a with
  | SocketV6 ip port _ _ =>
      match to_ipv4_mapped ip with Some v4 => SocketV4 v4 port | None => a end
  | SocketV4 _ _ => a
  end.

(** The types of the fields of an address. *)
Definition ip_wf (a : IpAddr) : Prop :=
  match a with V4 ip => fits 4 ip | V6 ip => fits 16 ip end.
Definition socket_wf (a : SocketAddr) : Prop :=
  match a with
  | SocketV4 ip port => fits 4 ip ∧ fits 2 port
  | SocketV6 ip port flowinfo scope_id =>
      fits 16 ip ∧ fits 2 port ∧ fits 4 flowinfo ∧ fits 4 scope_id
  end.

(** ** The configuration record *)

Record PeerConfig := mkPeerConfig {
  peer_id : N;
  raft_address : Text;
  client_submit_address : Text
}.

Record VipConfig := mkVipConfig {
  vip_address : VipAddr;
  vip_interface : Text;
  vlan : option N
}.

Record HealthConfig := mkHealthConfig {
  command : list Text;
  interval_ms : N;
  timeout_ms : N;
  stale_secs : option N
}.

Record RaftTuneConfig := mkRaftTuneConfig {
  election_timeout_min_ms : N;
  election_timeout_max_ms : N;
  heartbeat_interval_ms : N
}.

Record Config := mkConfig {
  cfg_node_id : N;
  raft_listen : Text;
  client_submit_listen : Text;
  peers : list PeerConfig;
  vips : list VipConfig;
  health : HealthConfig;
  raft : RaftTuneConfig;
  cluster_secret : option Text;
  cluster_secret_file : option Text;
  max_frame_bytes : N;
  submit_timeout_ms : N;
  address_protocol : N;
  dry_run : bool;
  notify : option Text;
  failover_delay_secs : N;
  cfg_failback : bool;
  failback_delay_secs : N
}.

#[global] Instance PeerConfig_eta : Eta PeerConfig := λ p,
  mkPeerConfig (peer_id p) (raft_address p) (client_submit_address p).
#[global] Instance VipConfig_eta : Eta VipConfig := λ v,
  mkVipConfig (vip_address v) (vip_interface v) (vlan v).
#[global] Instance Config_eta : Eta Config := λ c,
  mkConfig (cfg_node_id c) (raft_listen c) (client_submit_listen c) (peers c) (vips c) (health c)
    (raft c) (cluster_secret c) (cluster_secret_file c) (max_frame_bytes c) (submit_timeout_ms c)
    (address_protocol c) (dry_run c) (notify c) (failover_delay_secs c) (cfg_failback c)
    (failback_delay_secs c).

Definition DEFAULT_MAX_FRAME_BYTES : N := 4 * 1024 * 1024.
Definition MAX_RAFT_FRAME_BYTES : N := 16 * 1024 * 1024.
Definition DEFAULT_SUBMIT_TIMEOUT_MS : N := 2000.
Definition DEFAULT_VIP_ADDRESS_PROTOCOL : N := 246.
Definition default_failback : bool := true.
Definition default_failback_delay_secs : N := 10.

(** [impl Default for RaftTuneConfig]. *)
Definition default_raft : RaftTuneConfig := mkRaftTuneConfig 400 800 250.

(** ** Derived values *)

(** [div_ceil]. *)
Definition div_ceil (a b : N) : N :=
  let q := (a / b)%N in if (a mod b =? 0)%N then q else (q + 1)%N.

(** [HealthConfig::effective_stale_secs]; the product wraps like Rust's. *)
Definition effective_stale_secs (h : HealthConfig) : N :=
  match stale_secs h with
  | Some s => s
  | None =>
      let interval_secs := N.max (div_ceil (interval_ms h) 1000) 1 in
      N.max (interval_secs * 3 mod (u64_max + 1)) 3
  end.

Definition u128_max : N := 340282366920938463463374607431768211455.

(** [u128::saturating_mul]. *)
Definition u128_saturating_mul (a b : N) : N := N.min (a * b) u128_max.

(** [HealthConfig::effective_stale_missed_probes]. *)
Definition effective_stale_missed_probes (h : HealthConfig) : N :=
  let stale_ms := u128_saturating_mul (effective_stale_secs h) 1000 in
  let rounds := (stale_ms / N.max (interval_ms h) 1)%N in
  N.max (N.min rounds u64_max) 1.

(** [duration_to_probe_rounds_ceil]. *)
Definition duration_to_probe_rounds_ceil (duration_secs interval_ms : N) : N :=
  if (duration_secs =? 0)%N then 0%N
  else
    let duration_ms := u128_saturating_mul duration_secs 1000 in
    let rounds := div_ceil duration_ms (N.max interval_ms 1) in
    N.min rounds u64_max.

(** [Config::effective_failback_delay_ticks] and [effective_failover_delay_ticks]. *)
Definition effective_failback_delay_ticks (c : Config) : N :=
  duration_to_probe_rounds_ceil (failback_delay_secs c) (interval_ms (health c)).
Definition effective_failover_delay_ticks (c : Config) : N :=
  duration_to_probe_rounds_ceil (failover_delay_secs c) (interval_ms (health c)).

(** [Config::get_peer] and [Config::other_peers]. *)
Definition get_peer (c : Config) (id : N) : option PeerConfig :=
  find (λ p, peer_id p =? id)%N (peers c).
Definition other_peers (c : Config) : list PeerConfig :=
  filter (λ p, peer_id p ≠ cfg_node_id c) (peers c).

(** [VipConfig::effective_interface]. *)
Definition effective_interface (v : VipConfig) : Text :=
  match vlan v with
  | Some n => vip_interface v ++ text "." ++ decimal n
  | None => vip_interface v
  end.

(** [Config::sorted_vips]. *)
Definition sorted_vips (c : Config) : list (VipAddr * Text) :=
  (λ v, (vip_address v, effective_interface v)) <$> vips c.

(** ** VIP addresses as text *)

Section vip_text.
Context (ip_parse : Text → option IpAddr) (ip_render : IpAddr → Text).

(** [VipAddr::host_prefix] and [VipAddr::host]. *)
Definition host_prefix (a : IpAddr) : N := match a with V4 _ => 32 | V6 _ => 128 end.
Definition host (a : IpAddr) : VipAddr := mkVipAddr a (host_prefix a).

Inductive VipParseError := InvalidIp | InvalidPrefix | PrefixOutOfRange.

(** [impl FromStr for VipAddr]. *)
Definition vip_from_str (s : Text) : Result VipAddr VipParseError :=
  let '(addr_str, prefix_str) :=
    match split_once 47%N s with Some (a, p) => (a, Some p) | None => (s, None) end in
  match ip_parse addr_str with
  | None => Err InvalidIp
  | Some a =>
      let max := host_prefix a in
      match prefix_str with
      | None => Ok (mkVipAddr a max)
      | Some p =>
          match parse_u8 p with
          | None => Err InvalidPrefix
          | Some n => if (n <=? max)%N then Ok (mkVipAddr a n) else Err PrefixOutOfRange
          end
      end
  end.

(** [impl Display for VipAddr]. *)
Definition vip_to_string (v : VipAddr) : Text := ip_render (addr v) ++ text "/" ++ decimal (prefix v).
End vip_text.

(** ** Validation *)

(** One constructor per rejected condition, in the order of the source. *)
Inductive ConfigError :=
| PeersEmpty | VipsEmpty
| SecretFileUnresolved | SecretMissing | SecretPlaceholder | SecretLength | SecretCharacters
| CommandEmpty | IntervalZero | TimeoutZero | TimeoutTooLarge
| ElectionMinZero | ElectionMaxZero | HeartbeatZero | HeartbeatNotBelowElection | ElectionOrder
| StaleBelowInterval | TimeoutNotBelowStale
| DuplicatePeerId | NodeNotInPeers | InvalidSocketAddr
| MixedRaftFamily | MixedSubmitFamily | UnspecifiedRaftAddress | UnspecifiedSubmitAddress
| SameEndpoints | EndpointReused | RaftListenMismatch | SubmitListenMismatch
| FrameTooSmall | FrameTooLarge | SubmitTimeoutZero | ProtocolZero
| MappedPrefix | NotUnicastHost | VipPrefixRange | VipBroadcast | VipNetworkAddress
| InterfaceName | VlanRange | VlanOnDottedInterface | ConflictingVip.

Definition INSECURE_CLUSTER_SECRET_PLACEHOLDER : Text := text "replace-me-with-a-random-32-byte-string".
Definition MIN_SECRET_BYTES : nat := 32.
Definition MAX_SECRET_BYTES : nat := 256.

(** [Config::validate_secret]. *)
Definition validate_secret (c : Config) : Result unit ConfigError :=
  ensure (bool_decide (cluster_secret_file c = None)) SecretFileUnresolved ;?
  match cluster_secret c with
  | None => Err SecretMissing
  | Some secret =>
      ensure (negb (bool_decide (secret = INSECURE_CLUSTER_SECRET_PLACEHOLDER))
              && negb (bool_decide (secret = text "lab-shared-secret-please-change"))) SecretPlaceholder ;?
      ensure (bool_decide (MIN_SECRET_BYTES ≤ text_len secret ≤ MAX_SECRET_BYTES)) SecretLength ;?
      ensure (negb (existsb (λ ch, is_whitespace ch || is_control ch) secret)) SecretCharacters
  end.

(** [validate_interface]. *)
Definition validate_interface (name : Text) : Result unit ConfigError :=
  ensure (negb (bool_decide (name = []))
          && bool_decide (text_len name ≤ 15)
          && negb (bool_decide (name = text ".")) && negb (bool_decide (name = text ".."))
          && negb (existsb (λ ch, is_whitespace ch || is_control ch
                                  || (ch =? 47)%N || (ch =? 58)%N) name)) InterfaceName.

(** The first step of the loop of [normalize_vips]: an IPv4-mapped address
    becomes the IPv4 address. *)
Definition unmap_vip (v : VipConfig) : Result VipConfig ConfigError :=
  match addr (vip_address v) with
  | V6 ip =>
      match to_ipv4_mapped ip with
      | Some v4 =>
          ensure ((97 <=? prefix (vip_address v)) && (prefix (vip_address v) <=? 128))%N MappedPrefix ;?
          Ok (v <| vip_address := mkVipAddr (V4 v4) (prefix (vip_address v) - 96) |>)
      | None => Ok v
      end
  | V4 _ => Ok v
  end.

(** The checks of the loop body on the unmapped VIP. *)
Definition check_vip (v : VipConfig) : Result unit ConfigError :=
  let address := addr (vip_address v) in
  let p := prefix (vip_address v) in
  ensure (negb (is_unspecified address) && negb (is_multicast address) && negb (is_loopback address))
    NotUnicastHost ;?
  let max := if is_ipv4 address then 32%N else 128%N in
  ensure ((1 <=? p) && (p <=? max))%N VipPrefixRange ;?
  match address with
  | V4 ip =>
      ensure (negb (is_broadcast ip)) VipBroadcast ;?
      if (p <? 31)%N then
        let host_mask := N.shiftr u32_max p in
        let host := N.land ip host_mask in
        ensure (negb (host =? 0)%N && negb (host =? host_mask)%N) VipNetworkAddress
      else Ok tt
  | V6 _ => Ok tt
  end ;?
  validate_interface (vip_interface v) ;?
  match vlan v with
  | Some n =>
      ensure ((1 <=? n) && (n <=? 4094))%N VlanRange ;?
      ensure (negb (existsb (λ ch, ch =? 46)%N (vip_interface v))) VlanOnDottedInterface
  | None => Ok tt
  end ;?
  validate_interface (effective_interface v).

(** The loop of [normalize_vips], with the bindings seen so far. *)
Fixpoint normalize_loop (bindings : gmap IpAddr (N * Text)) (l : list VipConfig)
  : Result (list VipConfig) ConfigError :=
  match l with
  | [] => Ok []
  | v :: l =>
      v <-? unmap_vip v;
      check_vip v ;?
      let binding := (prefix (vip_address v), effective_interface v) in
      match bindings !! addr (vip_address v) with
      | Some previous => ensure (bool_decide (previous = binding)) ConflictingVip
      | None => Ok tt
      end ;?
      l <-? normalize_loop (<[addr (vip_address v) := binding]> bindings) l;
      Ok (v :: l)
  end.

(** [dedup_by_key]: drop every element with the key of the last one kept. *)
Fixpoint dedup_by_addr (last : option IpAddr) (l : list VipConfig) : list VipConfig :=
  match l with
  | [] => []
  | v :: l =>
      if bool_decide (last = Some (addr (vip_address v))) then dedup_by_addr last l
      else v :: dedup_by_addr (Some (addr (vip_address v))) l
  end.

(** [Config::normalize_vips]. *)
Definition normalize_vips (c : Config) : Result Config ConfigError :=
  l <-? normalize_loop ∅ (vips c);
  Ok (c <| vips := dedup_by_addr None (sort_by_key (λ v, addr (vip_address v)) l) |>).

Section normalize.
Context (sock_parse : Text → option SocketAddr) (sock_render : SocketAddr → Text).

(** [parse_socket_addr]. *)
Definition parse_socket_addr (value : Text) : Result SocketAddr ConfigError :=
  match sock_parse value with
  | Some a => Ok (canonical_socket_addr a)
  | None => Err InvalidSocketAddr
  end.

(** The variables of the loop over the peers. *)
Record Roster := mkRoster {
  endpoint_owners : list SocketAddr;
  raft_roster_is_ipv4 : option bool;
  submit_roster_is_ipv4 : option bool
}.

(** [if let Some(expected) = family { ensure!(expected == is_ipv4) } else { .. }]. *)
Definition same_family (family : option bool) (v4 : bool) : bool :=
  match family with Some expected => eqb expected v4 | None => true end.

(** One iteration of the loop over the peers: the canonical peer and the variables. *)
Definition check_peer (r : Roster) (p : PeerConfig) : Result (PeerConfig * Roster) ConfigError :=
  ra <-? parse_socket_addr (raft_address p);
  ca <-? parse_socket_addr (client_submit_address p);
  let p' := mkPeerConfig (peer_id p) (sock_render ra) (sock_render ca) in
  ensure (same_family (raft_roster_is_ipv4 r) (socket_is_ipv4 ra)) MixedRaftFamily ;?
  ensure (same_family (submit_roster_is_ipv4 r) (socket_is_ipv4 ca)) MixedSubmitFamily ;?
  ensure (negb (is_unspecified (socket_ip ra))) UnspecifiedRaftAddress ;?
  ensure (negb (is_unspecified (socket_ip ca))) UnspecifiedSubmitAddress ;?
  ensure (negb (bool_decide (ra = ca))) SameEndpoints ;?
  ensure (negb (bool_decide (ra ∈ endpoint_owners r))) EndpointReused ;?
  ensure (negb (bool_decide (ca ∈ ra :: endpoint_owners r))) EndpointReused ;?
  Ok (p', mkRoster (ca :: ra :: endpoint_owners r)
            (Some (default (socket_is_ipv4 ra) (raft_roster_is_ipv4 r)))
            (Some (default (socket_is_ipv4 ca) (submit_roster_is_ipv4 r)))).

Fixpoint check_peers (r : Roster) (l : list PeerConfig) : Result (list PeerConfig) ConfigError :=
  match l with
  | [] => Ok []
  | p :: l =>
      pr <-? check_peer r p;
      l <-? check_peers pr.2 l;
      Ok (pr.1 :: l)
  end.

(** The scalar checks at the start of [normalize]. *)
Definition check_timing (c : Config) : Result unit ConfigError :=
  let h := health c in let r := raft c in
  ensure (negb (bool_decide (command h = []))) CommandEmpty ;?
  ensure (0 <? interval_ms h)%N IntervalZero ;?
  ensure (0 <? timeout_ms h)%N TimeoutZero ;?
  ensure (timeout_ms h <=? u64_saturating_mul (interval_ms h) 10)%N TimeoutTooLarge ;?
  ensure (0 <? election_timeout_min_ms r)%N ElectionMinZero ;?
  ensure (0 <? election_timeout_max_ms r)%N ElectionMaxZero ;?
  ensure (0 <? heartbeat_interval_ms r)%N HeartbeatZero ;?
  ensure (heartbeat_interval_ms r <? election_timeout_min_ms r)%N HeartbeatNotBelowElection ;?
  ensure (election_timeout_min_ms r <? election_timeout_max_ms r)%N ElectionOrder ;?
  let stale := effective_stale_secs h in
  let interval_secs := N.max (div_ceil (interval_ms h) 1000) 1 in
  ensure (interval_secs <=? stale)%N StaleBelowInterval ;?
  let stale_ms := u64_saturating_mul (interval_ms h) (effective_stale_missed_probes h) in
  ensure (timeout_ms h <? stale_ms)%N TimeoutNotBelowStale.

(** The limits checked at the end of [normalize]. *)
Definition check_limits (c : Config) : Result unit ConfigError :=
  ensure (64 * 1024 <=? max_frame_bytes c)%N FrameTooSmall ;?
  ensure (max_frame_bytes c <=? MAX_RAFT_FRAME_BYTES)%N FrameTooLarge ;?
  ensure (0 <? submit_timeout_ms c)%N SubmitTimeoutZero ;?
  ensure (0 <? address_protocol c)%N ProtocolZero.

(** [Config::normalize]. *)
Definition normalize (c : Config) : Result Config ConfigError :=
  ensure (negb (bool_decide (length (peers c) = 0))) PeersEmpty ;?
  ensure (negb (bool_decide (length (vips c) = 0))) VipsEmpty ;?
  validate_secret c ;?
  check_timing c ;?
  let ids : gset N := list_to_set (peer_id <$> peers c) in
  ensure (bool_decide (size ids = length (peers c))) DuplicatePeerId ;?
  ensure (existsb (λ p, peer_id p =? cfg_node_id c)%N (peers c)) NodeNotInPeers ;?
  rl <-? parse_socket_addr (raft_listen c);
  cl <-? parse_socket_addr (client_submit_listen c);
  let c := c <| raft_listen := sock_render rl |> <| client_submit_listen := sock_render cl |> in
  ps <-? check_peers (mkRoster [] None None) (peers c);
  let c := c <| peers := ps |> in
  match get_peer c (cfg_node_id c) with
  | None => Err NodeNotInPeers
  | Some local_peer =>
      lra <-? parse_socket_addr (raft_address local_peer);
      lca <-? parse_socket_addr (client_submit_address local_peer);
      ensure (bool_decide (rl = lra)) RaftListenMismatch ;?
      ensure (bool_decide (cl = lca)) SubmitListenMismatch ;?
      check_limits c ;?
      normalize_vips c
  end.

End normalize.

(** ** A concrete configuration

    Two-number and four-number texts stand for rendered endpoints: a parser
    and a printer that satisfy what the theorems assume of the standard
    library's, for evaluating the definitions. *)
Module Demo.

Definition in_bytes (w : nat) (n : N) : bool := (n <? 256 ^ N.of_nat w)%N.

Definition sock_parse (t : Text) : option SocketAddr :=
  match t with
  | [ip; port] => if in_bytes 4 ip && in_bytes 2 port then Some (SocketV4 ip port) else None
  | [ip; port; flow; scope] =>
      if in_bytes 16 ip && in_bytes 2 port && in_bytes 4 flow && in_bytes 4 scope
      then Some (SocketV6 ip port flow scope) else None
  | _ => None
  end.

Definition sock_render (a : SocketAddr) : Text :=
  match a with
  | SocketV4 ip port => [ip; port]
  | SocketV6 ip port flow scope => [ip; port; flow; scope]
  end.

Lemma sock_parse_wf t a : sock_parse t = Some a → socket_wf a.
Proof.
  unfold sock_parse, in_bytes. intros Ha. repeat case_match; simplify_eq; guards;
    repeat match goal with H : (_ <? _)%N = true |- _ => apply N.ltb_lt in H end; by repeat split.
Qed.

Lemma sock_parse_render a : socket_wf a → sock_parse (sock_render a) = Some a.
Proof.
  unfold socket_wf, fits. destruct a; intros Ha; destruct_and!; unfold sock_parse, sock_render, in_bytes;
    repeat match goal with H : (_ < _)%N |- _ => apply N.ltb_lt in H; rewrite H; clear H end; done.
Qed.

Definition secret : Text := text "0123456789abcdef0123456789abcdef".
Definition node (i : N) : PeerConfig :=
  mkPeerConfig i [167772160 + i; 7000]%N [167772160 + i; 7001]%N.

(** Three nodes; two VIPs, the second also written as a mapped address. *)
Definition cfg : Config :=
  mkConfig 1 [167772161; 7000]%N [167772161; 7001]%N [node 3; node 1; node 2]
    [mkVipConfig (mkVipAddr (V4 3221226085) 24) (text "eth0") None;
     mkVipConfig (mkVipAddr (V6 281473902969445) 120) (text "eth0") (Some 7%N);
     mkVipConfig (mkVipAddr (V4 3221226085) 24) (text "eth0") None]
    (mkHealthConfig [text "check"] 1000 500 None) default_raft (Some secret) None
    DEFAULT_MAX_FRAME_BYTES DEFAULT_SUBMIT_TIMEOUT_MS DEFAULT_VIP_ADDRESS_PROTOCOL
    false None 2 true 10.

(** The file of another node of the same cluster. *)
Definition cfg_peer : Config :=
  cfg <| cfg_node_id := 2%N |> <| raft_listen := [167772162; 7000]%N |>
    <| client_submit_listen := [167772162; 7001]%N |>
    <| peers := [node 1; node 2; node 3] |> <| dry_run := true |>.

End Demo.
