(* ===== verification/Fingerprint.v ===== *)
(** * The cluster configuration fingerprint (src/config/fingerprint.rs)

    Every daemon hashes the part of its configuration that affects the cluster.
    [canonical_bytes] is the byte string the source builds and
    [cluster_config_fingerprint] its digest; [ConsensusView] is what the
    fingerprint is meant to identify, and the theorems show that the canonical
    bytes are a lossless encoding of exactly that view. *)

From S2P Require Import Prelude Text Encoding Replica Openraft Admission Types Config.
Local Open Scope kaf_scope.

Definition FINGERPRINT_VERSION : N := 1.
Definition DOMAIN_SEPARATOR : list N := ascii_bytes "keepafloatd-cluster-config".

(** ** [CanonicalBytes]

    Each method appends to the buffer; the definition is what it appends. *)

Definition canonical_u8 (v : N) : list N := be_bytes 1 v.
Definition canonical_bool (v : bool) : list N := canonical_u8 (if v then 1 else 0)%N.
Definition canonical_u16 (v : N) : list N := be_bytes 2 v.
Definition canonical_u32 (v : N) : list N := be_bytes 4 v.
Definition canonical_u64 (v : N) : list N := be_bytes 8 v.
Definition canonical_field (v : list N) : list N :=
  canonical_u64 (N.of_nat (length v)) ++ v.
Definition canonical_text (v : Text) : list N := canonical_field (utf8 v).

(** [CanonicalBytes::new]. *)
Definition canonical_new : list N :=
  canonical_field DOMAIN_SEPARATOR ++ canonical_u8 FINGERPRINT_VERSION.

Definition canonical_ip (v : IpAddr) : list N :=
  match v with
  | V4 address => canonical_u8 4 ++ be_bytes 4 address
  | V6 address => canonical_u8 6 ++ be_bytes 16 address
  end.

Definition canonical_socket (v : SocketAddr) : list N :=
  match v with
  | SocketV4 ip port => canonical_ip (V4 ip) ++ canonical_u16 port
  | SocketV6 ip port flowinfo scope_id =>
      canonical_ip (V6 ip) ++ canonical_u16 port ++ canonical_u32 flowinfo ++ canonical_u32 scope_id
  end.

(** ** The fingerprint *)

(** [sorted_peers]. *)
Definition sorted_peers (l : list PeerConfig) : list PeerConfig := sort_by_key peer_id l.

Section fingerprint.
Context (sock_parse : Text → option SocketAddr) (sha256 : list N → list N).

(** The body of the loop over the peers. *)
Definition canonical_peer (p : PeerConfig) : Result (list N) ConfigError :=
  ra <-? parse_socket_addr sock_parse (raft_address p);
  ca <-? parse_socket_addr sock_parse (client_submit_address p);
  Ok (canonical_u64 (peer_id p) ++ canonical_socket ra ++ canonical_socket ca).

Fixpoint canonical_peers (l : list PeerConfig) : Result (list N) ConfigError :=
  match l with
  | [] => Ok []
  | p :: l =>
      b <-? canonical_peer p;
      bs <-? canonical_peers l;
      Ok (b ++ bs)
  end.

(** The body of the loop over the VIPs. *)
Definition canonical_vip (v : VipAddr * Text) : list N :=
  canonical_ip (addr v.1) ++ canonical_u8 (prefix v.1) ++ canonical_text v.2.

(** The buffer [canonical] at the end of [cluster_config_fingerprint]. *)
Definition canonical_bytes (c : Config) : Result (list N) ConfigError :=
  let ps := sorted_peers (peers c) in
  bs <-? canonical_peers ps;
  let vs := sorted_vips c in
  Ok (canonical_new
      ++ canonical_u64 (N.of_nat (length ps)) ++ bs
      ++ canonical_u64 (N.of_nat (length vs)) ++ (vs ≫= canonical_vip)
      ++ canonical_u64 (interval_ms (health c))
      ++ canonical_u64 (effective_stale_missed_probes (health c))
      ++ canonical_u64 (election_timeout_min_ms (raft c))
      ++ canonical_u64 (election_timeout_max_ms (raft c))
      ++ canonical_u64 (heartbeat_interval_ms (raft c))
      ++ canonical_u32 (max_frame_bytes c)
      ++ canonical_u64 (effective_failover_delay_ticks c)
      ++ canonical_bool (cfg_failback c)
      ++ canonical_u64 (if cfg_failback c then effective_failback_delay_ticks c else 0)).

(** [Config::cluster_config_fingerprint]. *)
Definition cluster_config_fingerprint (c : Config) : Result ClusterConfigFingerprint ConfigError :=
  bytes <-? canonical_bytes c;
  Ok (mkClusterConfigFingerprint FINGERPRINT_VERSION (sha256 bytes)).

End fingerprint.

(** ** What the fingerprint identifies *)

(** A peer with its parsed, canonical endpoints. *)
Record PeerView := mkPeerView {
  view_id : N;
  view_raft : SocketAddr;
  view_submit : SocketAddr
}.

(** The inputs of the cluster: the roster, the effective VIP table, and the
    effective timing and placement policy. *)
Record ConsensusView := mkConsensusView {
  view_peers : list PeerView;
  view_vips : list (VipAddr * Text);
  view_interval_ms : N;
  view_stale_missed_probes : N;
  view_raft_tuning : RaftTuneConfig;
  view_max_frame_bytes : N;
  view_failover_delay_ticks : N;
  view_failback : bool;
  view_failback_delay_ticks : N
}.

Section view.
Context (sock_parse : Text → option SocketAddr).

Definition peer_view (p : PeerConfig) : option PeerView :=
  ra ← sock_parse (raft_address p);
  ca ← sock_parse (client_submit_address p);
  Some (mkPeerView (peer_id p) (canonical_socket_addr ra) (canonical_socket_addr ca)).

Definition consensus_view (c : Config) : option ConsensusView :=
  ps ← mapM peer_view (sorted_peers (peers c));
  Some (mkConsensusView ps (sorted_vips c) (interval_ms (health c))
    (effective_stale_missed_probes (health c)) (raft c) (max_frame_bytes c)
    (effective_failover_delay_ticks c) (cfg_failback c)
    (if cfg_failback c then effective_failback_delay_ticks c else 0%N)).

End view.

(** The types of the fields. *)
Definition peer_view_wf (p : PeerView) : Prop :=
  fits 8 (view_id p) ∧ socket_wf (view_raft p) ∧ socket_wf (view_submit p).
Definition vip_view_wf (v : VipAddr * Text) : Prop :=
  ip_wf (addr v.1) ∧ fits 1 (prefix v.1) ∧ Forall is_scalar v.2 ∧ fits 8 (N.of_nat (text_len v.2)).
Definition view_wf (w : ConsensusView) : Prop :=
  (Forall peer_view_wf (view_peers w) ∧ fits 8 (N.of_nat (length (view_peers w)))) ∧
  (Forall vip_view_wf (view_vips w) ∧ fits 8 (N.of_nat (length (view_vips w)))) ∧
  fits 8 (view_interval_ms w) ∧ fits 8 (view_stale_missed_probes w) ∧
  fits 8 (election_timeout_min_ms (view_raft_tuning w)) ∧
  fits 8 (election_timeout_max_ms (view_raft_tuning w)) ∧
  fits 8 (heartbeat_interval_ms (view_raft_tuning w)) ∧
  fits 4 (view_max_frame_bytes w) ∧ fits 8 (view_failover_delay_ticks w) ∧
  fits 8 (view_failback_delay_ticks w).

(** The types of the fields of a loaded configuration: a [Vec]'s length is a
    [usize], an interface name is a [String]. *)
Definition config_wf (c : Config) : Prop :=
  (Forall (λ p, fits 8 (peer_id p)) (peers c) ∧ fits 8 (N.of_nat (length (peers c)))) ∧
  (Forall vip_view_wf (sorted_vips c) ∧ fits 8 (N.of_nat (length (vips c)))) ∧
  fits 8 (interval_ms (health c)) ∧
  fits 8 (election_timeout_min_ms (raft c)) ∧
  fits 8 (election_timeout_max_ms (raft c)) ∧
  fits 8 (heartbeat_interval_ms (raft c)) ∧
  fits 4 (max_frame_bytes c).

(** ** The canonical bytes encode the view *)

Definition encode_peer (p : PeerView) : list N :=
  be_bytes 8 (view_id p) ++ canonical_socket (view_raft p) ++ canonical_socket (view_submit p).

Definition encode_view (w : ConsensusView) : list N :=
  canonical_new
  ++ sequence encode_peer (view_peers w)
  ++ sequence canonical_vip (view_vips w)
  ++ be_bytes 8 (view_interval_ms w)
  ++ be_bytes 8 (view_stale_missed_probes w)
  ++ be_bytes 8 (election_timeout_min_ms (view_raft_tuning w))
  ++ be_bytes 8 (election_timeout_max_ms (view_raft_tuning w))
  ++ be_bytes 8 (heartbeat_interval_ms (view_raft_tuning w))
  ++ be_bytes 4 (view_max_frame_bytes w)
  ++ be_bytes 8 (view_failover_delay_ticks w)
  ++ canonical_bool (view_failback w)
  ++ be_bytes 8 (view_failback_delay_ticks w).

Lemma fits_byte (b : N) : (b < 256)%N → fits 1 b.
Proof. done. Qed.

#[global] Instance canonical_bool_code : PrefixCode (λ _, True) canonical_bool.
Proof.
  intros [] [] l k _ _ Heq; unfold canonical_bool, canonical_u8 in Heq;
    (apply (prefix_code (P := fits 1)) in Heq as [Heq ->]; [done|by apply fits_byte..]).
Qed.

#[global] Instance canonical_ip_code : PrefixCode ip_wf canonical_ip.
Proof.
  intros [x|x] [y|y] l k Hx Hy; unfold canonical_ip, canonical_u8; rewrite <- !app_assoc; intros Heq;
    (apply (prefix_code (P := fits 1)) in Heq as [Htag Heq]; [|by apply fits_byte..]); [|done|done|];
    (peel Heq E; [|done..]); by subst.
Qed.

#[global] Instance canonical_socket_code : PrefixCode socket_wf canonical_socket.
Proof.
  intros x y l k Hx Hy. unfold canonical_socket, canonical_u16, canonical_u32.
  destruct x as [ip p|ip p f s], y as [ip' p'|ip' p' f' s'];
    simpl in Hx, Hy; destruct_and?; rewrite <- !app_assoc; intros Heq;
    (peel Heq Hip; [|done..]); try discriminate Hip; injection Hip as ->.
  - peel Heq Hp; [|done..]. by subst.
  - peel Heq Hp; [|done..]. peel Heq Hf; [|done..]. peel Heq Hs; [|done..]. by subst.
Qed.

#[global] Instance encode_peer_code : PrefixCode peer_view_wf encode_peer.
Proof.
  intros [i r s] [i' r' s'] l k (?&?&?) (?&?&?). unfold encode_peer. cbn [view_id view_raft view_submit] in *. intros Heq.
  peel Heq Hi; [|done..]. peel Heq Hr; [|done..]. peel Heq Hs; [|done..]. by subst.
Qed.

#[global] Instance canonical_text_code :
  PrefixCode (λ t : Text, Forall is_scalar t ∧ fits 8 (N.of_nat (text_len t))) canonical_text.
Proof. exact text_code. Qed.

#[global] Instance canonical_vip_code : PrefixCode vip_view_wf canonical_vip.
Proof.
  intros [[a p] i] [[a' p'] i'] l k (?&?&?&?) (?&?&?&?). unfold canonical_vip. cbn [fst snd addr prefix] in *. intros Heq.
  peel Heq Ha; [|done..]. unfold canonical_u8 in Heq. peel Heq Hp; [|done..].
  peel Heq Ht; [|done..]. by subst.
Qed.

#[global] Instance encode_view_code : PrefixCode view_wf encode_view.
Proof.
  intros [ps vs i m [e1 e2 h] f d b t] [ps' vs' i' m' [e1' e2' h'] f' d' b' t'] l k
    (?&?&?&?&?&?&?&?&?&?) (?&?&?&?&?&?&?&?&?&?). unfold encode_view.
  cbn [view_peers view_vips view_interval_ms view_stale_missed_probes view_raft_tuning
    view_max_frame_bytes view_failover_delay_ticks view_failback view_failback_delay_ticks
    election_timeout_min_ms election_timeout_max_ms heartbeat_interval_ms] in *. intros Heq.
  rewrite <- !app_assoc in Heq. apply app_inv_head in Heq.
  peel Heq E1; [|done..]. peel Heq E2; [|done..]. peel Heq E3; [|done..]. peel Heq E4; [|done..].
  peel Heq E5; [|done..]. peel Heq E6; [|done..]. peel Heq E7; [|done..]. peel Heq E8; [|done..].
  peel Heq E9; [|done..]. peel Heq E10; [|done..]. peel Heq E11; [|done..]. by subst.
Qed.

Section theorems.
Context (sock_parse : Text → option SocketAddr) (sha256 : list N → list N).

Lemma canonical_peer_view p :
  canonical_peer sock_parse p =
  match peer_view sock_parse p with Some w => Ok (encode_peer w) | None => Err InvalidSocketAddr end.
Proof.
  unfold canonical_peer, peer_view, parse_socket_addr.
  destruct (sock_parse (raft_address p)); [|done]. by destruct (sock_parse (client_submit_address p)).
Qed.

Lemma canonical_peers_view l :
  canonical_peers sock_parse l =
  match mapM (peer_view sock_parse) l with
  | Some ws => Ok (ws ≫= encode_peer)
  | None => Err InvalidSocketAddr
  end.
Proof.
  induction l as [|p l IH]; [done|]. cbn [canonical_peers mapM]. rewrite canonical_peer_view, IH.
  destruct (peer_view sock_parse p); [|done]. simpl. by destruct (mapM (peer_view sock_parse) l).
Qed.

(** The canonical bytes exist exactly when every endpoint parses, and are the
    encoding of the view. *)
Lemma canonical_bytes_view c :
  canonical_bytes sock_parse c =
  match consensus_view sock_parse c with
  | Some w => Ok (encode_view w)
  | None => Err InvalidSocketAddr
  end.
Proof.
  unfold canonical_bytes, consensus_view. rewrite canonical_peers_view.
  destruct (mapM (peer_view sock_parse) (sorted_peers (peers c))) as [ws|] eqn:Hws; [|done].
  simpl. f_equal. unfold encode_view, sequence.
  cbn [view_peers view_vips view_interval_ms view_stale_missed_probes view_raft_tuning
    view_max_frame_bytes view_failover_delay_ticks view_failback view_failback_delay_ticks].
  apply length_mapM in Hws. rewrite Hws. by rewrite <- !app_assoc.
Qed.

(** ** The view of a typed configuration is typed *)

Lemma canonical_socket_addr_wf a : socket_wf a → socket_wf (canonical_socket_addr a).
Proof.
  destruct a as [ip p|ip p f s]; [done|]. intros (?&?&?&?). simpl. unfold to_ipv4_mapped.
  destruct (_ =? _)%N; [|done]. split; [|done]. unfold fits. by apply N.mod_lt.
Qed.

Lemma u64_fits n : (n ≤ u64_max)%N → fits 8 n.
Proof. unfold fits, u64_max. change (256 ^ N.of_nat 8)%N with 18446744073709551616%N. lia. Qed.

Lemma effective_stale_missed_probes_bounds h :
  (1 ≤ effective_stale_missed_probes h ≤ u64_max)%N.
Proof. unfold effective_stale_missed_probes, u64_max. lia. Qed.

Lemma duration_to_probe_rounds_le d i : (duration_to_probe_rounds_ceil d i ≤ u64_max)%N.
Proof. unfold duration_to_probe_rounds_ceil. case_match; [done|]. lia. Qed.

(** The address parser of the standard library returns values of its type. *)
Context (Hparse : ∀ t a, sock_parse t = Some a → socket_wf a).

Lemma peer_view_is_wf p w : fits 8 (peer_id p) → peer_view sock_parse p = Some w → peer_view_wf w.
Proof.
  intros Hp Hw. unfold peer_view in Hw.
  apply bind_Some in Hw as (ra & Hra & Hw). apply bind_Some in Hw as (ca & Hca & Hw).
  injection Hw as <-. split_and!; [done|apply canonical_socket_addr_wf; eauto..].
Qed.

Lemma consensus_view_is_wf c w :
  config_wf c → consensus_view sock_parse c = Some w → view_wf w.
Proof.
  intros ((Hps & Hlen) & (Hvs & Hvlen) & ? & ? & ? & ? & ?) Hw. unfold consensus_view in Hw.
  apply bind_Some in Hw as (ws & Hws & Hw). injection Hw as <-.
  assert (Hsort : Forall (λ p, fits 8 (peer_id p)) (sorted_peers (peers c))).
  { unfold sorted_peers. by rewrite sort_by_key_Permutation. }
  assert (Hwlen : length ws = length (peers c)).
  { apply length_mapM in Hws. rewrite <- Hws. unfold sorted_peers. by rewrite sort_by_key_Permutation. }
  unfold view_wf. cbn. split_and!; try done.
  - apply mapM_Some_1 in Hws. apply Forall_lookup. intros i w Hi.
    eapply Forall2_lookup_r in Hws as (p & Hp & Hpw); [|done].
    eapply peer_view_is_wf; [|done]. by eapply (Forall_lookup_1 _ _ _ _ Hsort).
  - by rewrite Hwlen.
  - unfold sorted_vips. by rewrite length_fmap.
  - apply u64_fits, effective_stale_missed_probes_bounds.
  - apply u64_fits, duration_to_probe_rounds_le.
  - destruct (cfg_failback c); [apply u64_fits, duration_to_probe_rounds_le|done].
Qed.

(** C37: Two configurations whose fingerprints are equal have the same
    consensus view (the same peers at the same canonical endpoints, the same
    VIPs on the same effective interfaces, and the same effective timing and
    placement policy), unless SHA-256 has a collision; the fingerprint is the
    digest of an unambiguous encoding. *)
Theorem fingerprint_identifies_view c1 c2 f :
  config_wf c1 → config_wf c2 →
  cluster_config_fingerprint sock_parse sha256 c1 = Ok f →
  cluster_config_fingerprint sock_parse sha256 c2 = Ok f →
  (∃ w, consensus_view sock_parse c1 = Some w ∧ consensus_view sock_parse c2 = Some w) ∨
  (∃ a b, a ≠ b ∧ sha256 a = sha256 b).
Proof.
  intros Hc1 Hc2. unfold cluster_config_fingerprint. rewrite !canonical_bytes_view.
  destruct (consensus_view sock_parse c1) as [w1|] eqn:H1; [|done].
  destruct (consensus_view sock_parse c2) as [w2|] eqn:H2; [|done].
  intros [= <-] [= Hsha].
  destruct (decide (encode_view w1 = encode_view w2)) as [Heq|Hne]; [left|right].
  - exists w1. split; [done|]. f_equal. symmetry.
    eapply (prefix_code_inj view_wf encode_view); [| |done].
    + exact (consensus_view_is_wf _ _ Hc1 H1).
    + exact (consensus_view_is_wf _ _ Hc2 H2).
  - by exists (encode_view w1), (encode_view w2).
Qed.

(** The fingerprint depends on nothing else: two configurations that list
    the same peers in any order and agree on the effective VIP table, the
    effective staleness and failover delays and the Raft timing have the same
    fingerprint (or fail with the same error), whatever their node id,
    listeners, secret, check command, probe timeout, submit timeout, address
    protocol or notifier, and whatever the failback delay when failback is off. *)
Theorem fingerprint_ignores_local_settings c1 c2 :
  NoDup (peer_id <$> peers c1) → peers c1 ≡ₚ peers c2 →
  sorted_vips c1 = sorted_vips c2 →
  interval_ms (health c1) = interval_ms (health c2) →
  effective_stale_missed_probes (health c1) = effective_stale_missed_probes (health c2) →
  raft c1 = raft c2 → max_frame_bytes c1 = max_frame_bytes c2 →
  effective_failover_delay_ticks c1 = effective_failover_delay_ticks c2 →
  cfg_failback c1 = cfg_failback c2 →
  (cfg_failback c1 = true → effective_failback_delay_ticks c1 = effective_failback_delay_ticks c2) →
  cluster_config_fingerprint sock_parse sha256 c1 = cluster_config_fingerprint sock_parse sha256 c2.
Proof.
  intros Hnd Hp Hv Hi Hs Hr Hm Ho Hf Hd. unfold cluster_config_fingerprint. rewrite !canonical_bytes_view.
  unfold consensus_view, sorted_peers.
  rewrite (sort_by_key_proper peer_id (peers c1) (peers c2)) by done.
  rewrite Hv, Hi, Hs, Hr, Hm, Ho, <- Hf. destruct (cfg_failback c1); [by rewrite Hd|done].
Qed.
End theorems.

(** ** Witnesses *)

Lemma demo_config_wf : config_wf Demo.cfg ∧ config_wf Demo.cfg_peer.
Proof. split; unfold config_wf; split_and!; repeat constructor. Qed.

Lemma fingerprint_identifies_view_witness :
  (∃ w, consensus_view Demo.sock_parse Demo.cfg = Some w ∧
        consensus_view Demo.sock_parse Demo.cfg_peer = Some w) ∨
  (∃ a b : list N, a ≠ b ∧ a = b).
Proof.
  eapply (fingerprint_identifies_view Demo.sock_parse (λ x, x) Demo.sock_parse_wf Demo.cfg Demo.cfg_peer).
  - apply demo_config_wf.
  - apply demo_config_wf.
  - vm_compute. reflexivity.
  - vm_compute. reflexivity.
Defined.

Lemma fingerprint_ignores_local_settings_witness :
  cluster_config_fingerprint Demo.sock_parse (λ x, x) Demo.cfg =
  cluster_config_fingerprint Demo.sock_parse (λ x, x) Demo.cfg_peer.
Proof.
  apply (fingerprint_ignores_local_settings Demo.sock_parse (λ x, x) Demo.cfg Demo.cfg_peer).
  - apply (bool_decide_unpack _). vm_compute. exact I.
  - change (peers Demo.cfg) with ([Demo.node 3] ++ [Demo.node 1; Demo.node 2]).
    apply (Permutation_app_comm [Demo.node 3] [Demo.node 1; Demo.node 2]).
  - reflexivity.
  - reflexivity.
  - reflexivity.
  - reflexivity.
  - reflexivity.
  - reflexivity.
  - reflexivity.
  - reflexivity.
Defined.
