(* ===== verification/Auth.v ===== *)
(** * Mutual authentication (src/auth.rs)

    The hello frames, the three-proof handshake over one connection, the
    channel binding, and the signatures of admission records.  SHA-256 and
    HMAC-SHA-256 are parameters: [hmac key] is [None] when the crate refuses the
    key and otherwise the function from a message to its tag.  The entropy
    source and the timer are arguments of the operations that use them. *)

From S2P Require Import Prelude Io Text Encoding Replica.
Local Open Scope io_scope.

Definition MAGIC : list N := ascii_bytes "KAFDAUTH".
Definition VERSION : N := 3.
Definition HELLO_BYTES : nat := 110.
Definition DOMAIN : list N := ascii_bytes "keepafloatd-mutual-auth" ++ [0%N].

(** [Listener], with its [repr(u8)] discriminants. *)
Inductive Listener := RaftListener | SubmitListener.
Definition listener_byte (l : Listener) : N :=
  match l with RaftListener => 1%N | SubmitListener => 2%N end.

(** [Peer]. *)
Record Peer := mkPeer {
  id : N;
  peer_epoch : option N;
  supports_v2 : bool;
  peer_boot_nonce : option (list N)
}.

(** [Peer::new], [Peer::for_replica] and [Peer::replica]. *)
Definition peer_new (id : N) (epoch : option N) (supports_v2 : bool) : Peer :=
  mkPeer id epoch supports_v2 None.
Definition for_replica (r : ReplicaId) (epoch : option N) (supports_v2 : bool) : Peer :=
  mkPeer (physical_id r) epoch supports_v2 (Some (boot_nonce r)).
Definition peer_replica (p : Peer) : option ReplicaId :=
  mkReplicaId (id p) <$> peer_boot_nonce p.

Record AuthenticatedPeer := mkAuthenticatedPeer {
  authenticated : Peer;
  binding : list N
}.

(** [invalid]. *)
Definition invalid (message : string) : IoError := mkIoError InvalidData message.

Definition bool_byte (b : bool) : N := if b then 1%N else 0%N.
Definition zeros (n : nat) : list N := replicate n 0%N.

(** [hello]: the 110 bytes of a frame, field by field. *)
Definition hello (peer : Peer) (target : N) (listener : Listener) (role : N) (nonce : list N) : list N :=
  MAGIC
  ++ [VERSION; listener_byte listener; role; N.lor 6 (bool_byte (supports_v2 peer))]
  ++ be_bytes 8 (id peer)
  ++ be_bytes 8 target
  ++ nonce
  ++ [bool_byte (bool_decide (is_Some (peer_epoch peer)))]
  ++ be_bytes 16 (default 0%N (peer_epoch peer))
  ++ [bool_byte (bool_decide (is_Some (peer_boot_nonce peer)))]
  ++ default (zeros 32) (peer_boot_nonce peer).

(** [bytes[i]]. *)
Definition byte_at (bytes : list N) (i : nat) : N := default 0%N (bytes !! i).

(** The checks of [read_hello] on the whole frame, and the peer it describes. *)
Definition parse_hello (bytes : list N) (listener : Listener) (role target : N) : Result Peer IoError :=
  if negb (byte_at bytes 9 =? listener_byte listener)%N
     || negb (byte_at bytes 10 =? role)%N
     || negb ((byte_at bytes 11 =? 6) || (byte_at bytes 11 =? 7))%N
     || (1 <? byte_at bytes 60)%N
     || (1 <? byte_at bytes 77)%N
  then Err (invalid "invalid authentication version, listener, role or capabilities")
  else if negb (of_be_bytes (slice bytes 20 28) =? target)%N
  then Err (invalid "authentication destination mismatch")
  else
    let epoch := slice bytes 61 77 in
    if (byte_at bytes 60 =? 0)%N && negb (bool_decide (epoch = zeros 16))
    then Err (invalid "noncanonical authentication epoch")
    else
      let peer := peer_new (of_be_bytes (slice bytes 12 20))
        (if (byte_at bytes 60 =? 1)%N then Some (of_be_bytes epoch) else None)
        (negb (N.land (byte_at bytes 11) 1 =? 0)%N) in
      let boot_nonce := slice bytes 78 110 in
      if (byte_at bytes 77 =? 0)%N && negb (bool_decide (boot_nonce = zeros 32))
      then Err (invalid "noncanonical authentication boot nonce")
      else Ok (mkPeer (id peer) (peer_epoch peer) (supports_v2 peer)
                 (if (byte_at bytes 77 =? 1)%N then Some boot_nonce else None)).

(** [read_hello]: the magic and the version are checked as soon as they arrive. *)
Definition read_hello (listener : Listener) (role target : N) : Io (list N * Peer) :=
  magic <~ read_exact 8;
  if negb (bool_decide (magic = MAGIC))
  then io_err (invalid "unsupported authentication protocol; full-cluster upgrade required")
  else
    version <~ read_exact 1;
    if negb (bool_decide (version = [VERSION]))
    then io_err (invalid "invalid authentication version; full-cluster upgrade required")
    else
      rest <~ read_exact 101;
      let bytes := magic ++ version ++ rest in
      peer <~ io_lift (parse_hello bytes listener role target);
      io_ok (bytes, peer).

(** [secret.filter(|value| !value.is_empty())]. *)
Definition usable_secret (secret : option Text) : option Text :=
  match secret with Some [] | None => None | Some s => Some s end.

Section auth.
Context (sha256 : list N → list N) (hmac : list N → option (list N → list N)).

(** [channel_binding]. *)
Definition channel_binding (client server : list N) : list N :=
  sha256 (ascii_bytes "keepafloatd-admission-channel" ++ [0%N] ++ [VERSION] ++ client ++ server).

(** The bytes of a handshake proof. *)
Definition proof_message (role : N) (client server : list N) : list N :=
  DOMAIN ++ [VERSION; role] ++ client ++ server.

(** [mac(..)?.finalize()]. *)
Definition mac (secret : option Text) (role : N) (client server : list N) : Result (list N) IoError :=
  match usable_secret secret with
  | None => Err (invalid "authentication requires a cluster secret")
  | Some secret =>
      match hmac (utf8 secret) with
      | None => Err (invalid "invalid authentication key")
      | Some tag => Ok (tag (proof_message role client server))
      end
  end.

(** The bytes of an admission record's signature. *)
Definition record_message (role : N) (from to : ReplicaId) (body : list N) : list N :=
  ascii_bytes "keepafloatd-admission-record" ++ [0%N]
  ++ [VERSION; 1%N; role]
  ++ be_bytes 8 (physical_id from) ++ boot_nonce from
  ++ be_bytes 8 (physical_id to) ++ boot_nonce to
  ++ be_bytes 8 (N.of_nat (length body)) ++ body.

(** [admission_record_mac(..)?.finalize()]. *)
Definition admission_record_mac (secret : option Text) (role : N) (from to : ReplicaId) (body : list N)
  : Result (list N) IoError :=
  match usable_secret secret with
  | None => Err (invalid "admission authentication requires a cluster secret")
  | Some secret =>
      match hmac (utf8 secret) with
      | None => Err (invalid "invalid admission authentication key")
      | Some tag => Ok (tag (record_message role from to body))
      end
  end.

(** [sign_admission_record]. *)
Definition sign_admission_record := admission_record_mac.

(** [verify_admission_record]. *)
Definition verify_admission_record (secret : option Text) (role : N) (from to : ReplicaId)
    (body tag : list N) : Result unit IoError :=
  match admission_record_mac secret role from to body with
  | Err e => Err e
  | Ok expected =>
      if bool_decide (expected = tag) then Ok tt
      else Err (invalid "admission record authentication mismatch")
  end.

(** [send_proof]. *)
Definition send_proof (secret : option Text) (role : N) (client server : list N) : Io unit :=
  proof <~ io_lift (mac secret role client server);
  write_all proof.

(** [verify_proof]. *)
Definition verify_proof (secret : option Text) (role : N) (client server : list N) : Io unit :=
  proof <~ read_exact 32;
  expected <~ io_lift (mac secret role client server);
  if bool_decide (expected = proof) then io_ok tt
  else io_err (invalid "authentication proof mismatch").

(** [client_bound_with_nonce]. *)
Definition client_bound_with_nonce (local : Peer) (target : N) (secret : option Text)
    (listener : Listener) (entropy : Result (list N) IoError) : Io AuthenticatedPeer :=
  nonce <~ io_lift entropy;
  let request := hello local target listener 1 nonce in
  io_lift (mac secret 1 request []) ;~
  write_all request ;~
  rp <~ read_hello listener 2 (id local);
  let response := rp.1 in
  let peer := rp.2 in
  if negb (id peer =? target)%N then io_err (invalid "authentication responder mismatch")
  else
    verify_proof secret 2 request response ;~
    send_proof secret 1 request response ;~
    verify_proof secret 3 request response ;~
    io_ok (mkAuthenticatedPeer peer (channel_binding request response)).

(** [server_bound_with_nonce]. *)
Definition server_bound_with_nonce (local : Peer) (secret : option Text)
    (listener : Listener) (entropy : Result (list N) IoError) : Io AuthenticatedPeer :=
  rp <~ read_hello listener 1 (id local);
  let request := rp.1 in
  let peer := rp.2 in
  nonce <~ io_lift entropy;
  let response := hello local (id peer) listener 2 nonce in
  io_lift (mac secret 2 request response) ;~
  write_all response ;~
  send_proof secret 2 request response ;~
  verify_proof secret 1 request response ;~
  send_proof secret 3 request response ;~
  io_ok (mkAuthenticatedPeer peer (channel_binding request response)).

Definition handshake_timeout : IoError := mkIoError TimedOut "authentication handshake timed out".

(** [client_bound], [client_with_nonce], [client] and [server_bound]. *)
Definition client_bound (elapsed : bool) (local : Peer) (target : N) (secret : option Text)
    (listener : Listener) (entropy : Result (list N) IoError) : Io AuthenticatedPeer :=
  timeout elapsed handshake_timeout (client_bound_with_nonce local target secret listener entropy).
Definition client_with_nonce (local : Peer) (target : N) (secret : option Text)
    (listener : Listener) (entropy : Result (list N) IoError) : Io Peer :=
  p <~ client_bound_with_nonce local target secret listener entropy;
  io_ok (authenticated p).
Definition client (elapsed : bool) (local : Peer) (target : N) (secret : option Text)
    (listener : Listener) (entropy : Result (list N) IoError) : Io Peer :=
  timeout elapsed handshake_timeout (client_with_nonce local target secret listener entropy).
Definition server_bound (elapsed : bool) (local : Peer) (secret : option Text)
    (listener : Listener) (entropy : Result (list N) IoError) : Io AuthenticatedPeer :=
  timeout elapsed handshake_timeout (server_bound_with_nonce local secret listener entropy).

End auth.
