(* ===== verification/AuthTheorems.v ===== *)
(** * Theorems about the authentication handshake

    The hello parser inverts the encoder and accepts nothing else; an honest
    client and server complete the handshake on what the other writes; and two
    completed handshakes that share the client's proof are the same session. *)

From S2P Require Import Prelude Io Text Encoding Replica Auth.

(** ** Frames *)

(** The types of a [Peer]. *)
Definition peer_wf (p : Peer) : Prop :=
  fits 8 (id p) ∧ (∀ e, peer_epoch p = Some e → fits 16 e) ∧
  (∀ n, peer_boot_nonce p = Some n → length n = 32).

(** A frame as its fields. *)
Definition frame (m : list N) (v l r f : N) (i t n : list N) (eb : N) (e : list N) (bb : N) (bn : list N)
  : list N := m ++ [v; l; r; f] ++ i ++ t ++ n ++ [eb] ++ e ++ [bb] ++ bn.

Lemma slice_at {A} (l l1 l2 l3 : list A) a b :
  l = l1 ++ l2 ++ l3 → length l1 = a → length l2 = b - a → slice l a b = l2.
Proof.
  intros -> Ha Hb. unfold slice. by rewrite drop_app_length', take_app_length' by done.
Qed.

Lemma byte_at_app (l l1 l3 : list N) x a : l = l1 ++ x :: l3 → length l1 = a → byte_at l a = x.
Proof. intros -> <-. unfold byte_at. by rewrite list_lookup_middle. Qed.

Section frame.
Context (m : list N) (v l r f : N) (i t n : list N) (eb : N) (e : list N) (bb : N) (bn : list N).
Context (Hm : length m = 8) (Hi : length i = 8) (Ht : length t = 8) (Hn : length n = 32)
  (He : length e = 16) (Hbn : length bn = 32).

Local Abbreviation bytes := (frame m v l r f i t n eb e bb bn).

Lemma frame_length : length bytes = 110.
Proof. unfold frame. repeat (rewrite length_app || simpl). lia. Qed.

Ltac field l1 :=
  (eapply (slice_at _ l1) || eapply (byte_at_app _ l1));
  [unfold frame; rewrite <- ?app_assoc; reflexivity|repeat (rewrite length_app || simpl); lia|..];
  try (simpl; lia).

Lemma frame_fields :
  byte_at bytes 9 = l ∧ byte_at bytes 10 = r ∧ byte_at bytes 11 = f ∧
  slice bytes 12 20 = i ∧ slice bytes 20 28 = t ∧ slice bytes 28 60 = n ∧ byte_at bytes 60 = eb ∧
  slice bytes 61 77 = e ∧ byte_at bytes 77 = bb ∧ slice bytes 78 110 = bn.
Proof.
  split_and!.
  - field (m ++ [v]).
  - field (m ++ [v; l]).
  - field (m ++ [v; l; r]).
  - field (m ++ [v; l; r; f]).
  - field (m ++ [v; l; r; f] ++ i).
  - field (m ++ [v; l; r; f] ++ i ++ t).
  - field (m ++ [v; l; r; f] ++ i ++ t ++ n).
  - field (m ++ [v; l; r; f] ++ i ++ t ++ n ++ [eb]).
  - field (m ++ [v; l; r; f] ++ i ++ t ++ n ++ [eb] ++ e).
  - eapply (slice_at _ (m ++ [v; l; r; f] ++ i ++ t ++ n ++ [eb] ++ e ++ [bb]) _ []);
      [unfold frame; rewrite <- ?app_assoc, ?app_nil_r; reflexivity
      |repeat (rewrite length_app || simpl); lia|simpl; lia].
Qed.
End frame.

(** Every frame of the right length splits into fields. *)
Lemma split_frame (bytes : list N) :
  length bytes = 110 → take 9 bytes = MAGIC ++ [VERSION] →
  bytes = frame MAGIC VERSION (byte_at bytes 9) (byte_at bytes 10) (byte_at bytes 11)
    (slice bytes 12 20) (slice bytes 20 28) (slice bytes 28 60) (byte_at bytes 60)
    (slice bytes 61 77) (byte_at bytes 77) (slice bytes 78 110).
Proof.
  intros Hlen Hhead. unfold frame.
  assert (Hcut : ∀ a b, a ≤ b → b ≤ 110 → drop a bytes = slice bytes a b ++ drop b bytes).
  { intros a b Hab Hb. unfold slice. rewrite <- (take_drop (b - a) (drop a bytes)) at 1.
    rewrite drop_drop. by replace (a + (b - a)) with b by lia. }
  assert (Hone : ∀ a, a < 110 → drop a bytes = byte_at bytes a :: drop (S a) bytes).
  { intros a Ha. destruct (lookup_lt_is_Some_2 bytes a) as [x Hx]; [lia|].
    unfold byte_at. rewrite Hx. by apply drop_S. }
  rewrite <- (take_drop 9 bytes) at 1. rewrite Hhead, <- app_assoc. f_equal. cbn [app]. f_equal.
  rewrite 3 Hone by lia. do 3 f_equal.
  rewrite (Hcut 12 20), (Hcut 20 28), (Hcut 28 60) by lia. do 3 f_equal.
  rewrite (Hone 60), (Hcut 61 77), (Hone 77), (Hcut 78 110) by lia.
  rewrite (drop_ge bytes 110), app_nil_r by lia. done.
Qed.

(** ** The hello frame *)

Lemma hello_frame p target listener role nonce :
  hello p target listener role nonce =
  frame MAGIC VERSION (listener_byte listener) role (N.lor 6 (bool_byte (supports_v2 p)))
    (be_bytes 8 (id p)) (be_bytes 8 target) nonce
    (bool_byte (bool_decide (is_Some (peer_epoch p)))) (be_bytes 16 (default 0%N (peer_epoch p)))
    (bool_byte (bool_decide (is_Some (peer_boot_nonce p)))) (default (zeros 32) (peer_boot_nonce p)).
Proof. done. Qed.

Lemma boot_nonce_length p : peer_wf p → length (default (zeros 32) (peer_boot_nonce p)) = 32.
Proof. intros (_ & _ & Hn). destruct (peer_boot_nonce p) as [n|]; [by apply Hn|done]. Qed.

Lemma hello_length p target listener role nonce :
  peer_wf p → length nonce = 32 → length (hello p target listener role nonce) = 110.
Proof.
  intros Hp Hn. rewrite hello_frame.
  apply frame_length; rewrite ?length_be_bytes; auto using boot_nonce_length.
Qed.

Lemma be_bytes_zeros w : be_bytes w 0 = zeros w.
Proof.
  induction w as [|w IH]; [done|]. cbn [be_bytes]. rewrite N.Div0.div_0_l, IH.
  unfold zeros. by rewrite replicate_S_end.
Qed.

Lemma hello_fields p target listener role nonce :
  peer_wf p → length nonce = 32 →
  let bytes := hello p target listener role nonce in
  byte_at bytes 9 = listener_byte listener ∧ byte_at bytes 10 = role ∧
  byte_at bytes 11 = N.lor 6 (bool_byte (supports_v2 p)) ∧
  slice bytes 12 20 = be_bytes 8 (id p) ∧ slice bytes 20 28 = be_bytes 8 target ∧
  slice bytes 28 60 = nonce ∧
  byte_at bytes 60 = bool_byte (bool_decide (is_Some (peer_epoch p))) ∧
  slice bytes 61 77 = be_bytes 16 (default 0%N (peer_epoch p)) ∧
  byte_at bytes 77 = bool_byte (bool_decide (is_Some (peer_boot_nonce p))) ∧
  slice bytes 78 110 = default (zeros 32) (peer_boot_nonce p).
Proof.
  intros Hp Hn. rewrite hello_frame.
  apply frame_fields; rewrite ?length_be_bytes; auto using boot_nonce_length.
Qed.

Lemma parse_hello_hello p target listener role nonce :
  peer_wf p → fits 8 target → length nonce = 32 →
  parse_hello (hello p target listener role nonce) listener role target = Ok p.
Proof.
  intros Hp Ht Hn.
  destruct (hello_fields p target listener role nonce Hp Hn)
    as (H9 & H10 & H11 & H12 & H20 & _ & H60 & H61 & H77 & H78).
  unfold parse_hello. rewrite H9, H10, H11, H12, H20, H60, H61, H77, H78.
  destruct Hp as (Hid & He & _). rewrite !of_be_bytes_be_bytes by done. rewrite !N.eqb_refl.
  destruct p as [i [e|] v [n|]]; cbn [id peer_epoch supports_v2 peer_boot_nonce] in *;
    rewrite ?of_be_bytes_be_bytes by (by apply He); destruct v;
    try rewrite be_bytes_zeros; reflexivity.
Qed.

(** Reading an encoded frame returns it and leaves the bytes that follow. *)
Lemma read_hello_hello p target listener role nonce k o b :
  peer_wf p → fits 8 target → length nonce = 32 →
  read_hello listener role target (mkStream (hello p target listener role nonce ++ k) o b)
  = (Ok (hello p target listener role nonce, p), mkStream k o b).
Proof.
  intros Hp Ht Hn. pose proof (parse_hello_hello p target listener role nonce Hp Ht Hn) as Hparse.
  pose proof (hello_length p target listener role nonce Hp Hn) as Hlen.
  assert (Hhead : ∃ rest, hello p target listener role nonce = MAGIC ++ [VERSION] ++ rest ∧ length rest = 101).
  { unfold hello in Hlen |- *. eexists. split; [reflexivity|].
    rewrite 2 length_app in Hlen. cbn in Hlen. cbn. lia. }
  destruct Hhead as (rest & Heq & Hrest). rewrite Heq in Hparse |- *.
  unfold read_hello, io_bind. rewrite <- !app_assoc.
  rewrite read_exact_app by done. rewrite bool_decide_true by done. cbn [negb].
  rewrite read_exact_app by done. rewrite bool_decide_true by done. cbn [negb].
  rewrite read_exact_app by done. unfold io_lift. by rewrite Hparse.
Qed.

Lemma read_hello_silent listener role target : silent (read_hello listener role target).
Proof. unfold read_hello. eauto 12 with kaf. Qed.

(** What a successful read consumed. *)
Lemma read_hello_ok listener role target s bytes p s' :
  read_hello listener role target s = (Ok (bytes, p), s') →
  incoming s = bytes ++ incoming s' ∧ length bytes = 110 ∧ take 9 bytes = MAGIC ++ [VERSION] ∧
  parse_hello bytes listener role target = Ok p ∧ outgoing s' = outgoing s ∧
  write_budget s' = write_budget s.
Proof.
  unfold read_hello. intros H. apply io_bind_ok in H as (magic & s1 & Hm & H).
  case_bool_decide as Hmagic; [|done]. cbn [negb] in H.
  apply io_bind_ok in H as (version & s2 & Hv & H).
  case_bool_decide as Hversion; [|done]. cbn [negb] in H.
  apply io_bind_ok in H as (rest & s3 & Hr & H). apply io_bind_ok in H as (q & s4 & Hp & H).
  injection H as <- <- <-. injection Hp as Hp <-.
  apply read_exact_ok in Hm as (I1 & L1 & O1 & B1), Hv as (I2 & L2 & O2 & B2), Hr as (I3 & L3 & O3 & B3).
  subst magic version. split_and!; [|by rewrite !length_app, L3| |done|congruence|congruence].
  - rewrite I1, I2, I3. by rewrite <- !app_assoc.
  - by rewrite app_assoc.
Qed.

Lemma slice_is_byte (l : list N) a b : Forall is_byte l → Forall is_byte (slice l a b).
Proof. intros Hl. unfold slice. by apply Forall_take, Forall_drop. Qed.

Lemma slice_length {A} (l : list A) a b : b ≤ length l → a ≤ b → length (slice l a b) = b - a.
Proof. intros Hb Ha. unfold slice. rewrite length_take, length_drop. lia. Qed.

Lemma slice_encodes w (l : list N) a b n :
  w = b - a → Forall is_byte l → b ≤ length l → a ≤ b → of_be_bytes (slice l a b) = n →
  be_bytes w n = slice l a b.
Proof.
  intros -> Hl Hb Ha <-. rewrite <- (slice_length l a b) by done.
  by apply be_bytes_of_be_bytes, slice_is_byte.
Qed.

Lemma slice_fits (l : list N) a b :
  Forall is_byte l → b ≤ length l → a ≤ b → fits (b - a) (of_be_bytes (slice l a b)).
Proof.
  intros Hl Hb Ha. rewrite <- (slice_length l a b) by done. by apply of_be_bytes_fits, slice_is_byte.
Qed.

(** The capability byte and the two presence bytes, decoded and encoded again. *)
Lemma capability_byte f :
  ((f =? 6) || (f =? 7))%N = true → N.lor 6 (bool_byte (negb (N.land f 1 =? 0)%N)) = f.
Proof. intros [Hf|Hf]%orb_true_iff; apply N.eqb_eq in Hf as ->; done. Qed.

Lemma presence_byte {A} (b : N) (x : A) :
  (1 <? b)%N = false →
  bool_byte (bool_decide (is_Some (if (b =? 1)%N then Some x else None))) = b.
Proof.
  intros Hb%N.ltb_ge. destruct (N.eqb_spec b 1) as [->|]; [done|]. assert (b = 0%N) as -> by lia. done.
Qed.

(** The parser accepts only encoded frames. *)
Lemma parse_hello_canonical bytes listener role target p :
  length bytes = 110 → take 9 bytes = MAGIC ++ [VERSION] → Forall is_byte bytes →
  parse_hello bytes listener role target = Ok p →
  peer_wf p ∧ bytes = hello p target listener role (slice bytes 28 60).
Proof.
  intros Hlen Hhead Hbytes. unfold parse_hello.
  case_match eqn:Hguard; [done|]. guards.
  case_match eqn:Htarget; [done|]. guards. apply N.eqb_eq in Htarget.
  case_match eqn:Hepoch; [done|]. case_match eqn:Hboot; [done|]. intros [= <-].
  assert (Hzero : ∀ (b : N) (l : list N) n,
    (1 <? b)%N = false → (b =? 0)%N && negb (bool_decide (l = zeros n)) = false →
    (b =? 1)%N = false → l = zeros n).
  { intros b l n Hb%N.ltb_ge Hz Hb1%N.eqb_neq. assert (b = 0%N) as -> by lia. simpl in Hz. by guards. }
  split.
  - split_and!; cbn [id peer_epoch peer_boot_nonce peer_new].
    + by apply (slice_fits bytes 12 20); [|lia..].
    + intros e. case_match; [|done]. intros [= <-]. by apply (slice_fits bytes 61 77); [|lia..].
    + intros n. case_match; [|done]. intros [= <-]. apply slice_length; lia.
  - rewrite hello_frame. rewrite (split_frame bytes) at 1 by done.
    cbn [id peer_epoch peer_boot_nonce supports_v2 peer_new].
    repeat match goal with H : (_ =? _)%N = true |- _ => apply N.eqb_eq in H end.
    rewrite capability_byte, !presence_byte by done.
    rewrite (slice_encodes 8 bytes 12 20 _ eq_refl Hbytes ltac:(lia) ltac:(lia) eq_refl).
    rewrite (slice_encodes 8 bytes 20 28 _ eq_refl Hbytes ltac:(lia) ltac:(lia) Htarget).
    f_equal; [done|done| |].
    + case_match eqn:H60.
      * symmetry. exact (slice_encodes 16 bytes 61 77 _ eq_refl Hbytes ltac:(lia) ltac:(lia) eq_refl).
      * trans (zeros 16); [by apply (Hzero (byte_at bytes 60))|done].
    + case_match; [done|]. by apply (Hzero (byte_at bytes 77)).
Qed.

(** The hello frame is a lossless and canonical encoding: reading the
    frame of a peer returns that peer and leaves the bytes after it, and every
    frame that is accepted is, byte for byte, the frame [hello] writes for the
    peer returned, the expected listener, role and target, and the nonce it
    carries. *)
Theorem hello_roundtrip (listener : Listener) (role target : N) :
  fits 8 target →
  (∀ p nonce k o b, peer_wf p → length nonce = 32 →
     read_hello listener role target (mkStream (hello p target listener role nonce ++ k) o b)
     = (Ok (hello p target listener role nonce, p), mkStream k o b)) ∧
  (∀ s bytes p s', Forall is_byte (incoming s) →
     read_hello listener role target s = (Ok (bytes, p), s') →
     peer_wf p ∧ ∃ nonce, length nonce = 32 ∧ bytes = hello p target listener role nonce).
Proof.
  intros Ht. split; [by intros; apply read_hello_hello|].
  intros s bytes p s' Hs Hread.
  apply read_hello_ok in Hread as (Hin & Hlen & Hhead & Hparse & _).
  rewrite Hin in Hs. apply Forall_app in Hs as [Hs _].
  destruct (parse_hello_canonical _ _ _ _ _ Hlen Hhead Hs Hparse) as [Hp Heq].
  split; [done|]. exists (slice bytes 28 60). split; [apply slice_length; lia|done].
Qed.

(** ** The handshake *)

Section handshake.
Context (sha256 : list N → list N) (hmac : list N → option (list N → list N)).
Context (secret : option Text) (key : Text) (tag : list N → list N).
Context (Hsecret : usable_secret secret = Some key) (Hkey : hmac (utf8 key) = Some tag).

(** A proof of [role] in the session of [request] and [response]. *)
Definition proof (role : N) (request response : list N) : list N :=
  tag (proof_message role request response).

Lemma mac_ok role c s : mac hmac secret role c s = Ok (proof role c s).
Proof. unfold mac. by rewrite Hsecret, Hkey. Qed.

Lemma verify_proof_ok role c s st u st' :
  verify_proof hmac secret role c s st = (Ok u, st') →
  incoming st = proof role c s ++ incoming st' ∧ outgoing st' = outgoing st.
Proof.
  unfold verify_proof. intros H. apply io_bind_ok in H as (l & s1 & Hr & H).
  apply io_bind_ok in H as (t & s2 & Hm & H). unfold io_lift in Hm. rewrite mac_ok in Hm.
  injection Hm as <- <-. case_bool_decide as Heq; [|done]. injection H as _ <-. subst l.
  by apply read_exact_ok in Hr as (? & _ & ? & _).
Qed.

Lemma send_proof_ok role c s st u st' :
  send_proof hmac secret role c s st = (Ok u, st') →
  incoming st' = incoming st ∧ outgoing st' = outgoing st ++ proof role c s.
Proof.
  unfold send_proof. intros H. apply io_bind_ok in H as (t & s1 & Hm & H).
  unfold io_lift in Hm. rewrite mac_ok in Hm. injection Hm as <- <-.
  by apply write_all_ok in H as (? & ? & _).
Qed.

(** What a client that accepted has read and written. *)
Lemma client_transcript local target listener nonce s p s' :
  client_bound_with_nonce sha256 hmac local target secret listener (Ok nonce) s = (Ok p, s') →
  let request := hello local target listener 1 nonce in
  ∃ response, length response = 110 ∧ take 9 response = MAGIC ++ [VERSION] ∧
    parse_hello response listener 2 (id local) = Ok (authenticated p) ∧
    id (authenticated p) = target ∧
    binding p = channel_binding sha256 request response ∧
    incoming s = response ++ proof 2 request response ++ proof 3 request response ++ incoming s' ∧
    outgoing s' = outgoing s ++ request ++ proof 1 request response.
Proof.
  unfold client_bound_with_nonce. intros H.
  apply io_bind_ok in H as (n & s1 & Hn & H). injection Hn as <- <-.
  apply io_bind_ok in H as (t & s2 & Ht & H). unfold io_lift in Ht. rewrite mac_ok in Ht.
  injection Ht as <- <-. apply io_bind_ok in H as (u & s3 & Hw & H).
  apply io_bind_ok in H as ([response q] & s4 & Hread & H). cbn [fst snd] in H.
  case_match eqn:Hid; [done|]. guards. apply N.eqb_eq in Hid.
  apply io_bind_ok in H as (u2 & s5 & H2 & H). apply io_bind_ok in H as (u1 & s6 & H1 & H).
  apply io_bind_ok in H as (u3 & s7 & H3 & H). injection H as <- <-.
  apply write_all_ok in Hw as (Iw & Ow & _). apply read_hello_ok in Hread as (Ir & L & Hd & Hp & Or & _).
  apply verify_proof_ok in H2 as [I2 O2], H3 as [I3 O3]. apply send_proof_ok in H1 as [I1 O1].
  exists response. cbn [authenticated binding]. split_and!; [done..| |].
  - by rewrite <- Iw, Ir, I2, <- I1, I3.
  - by rewrite O3, O1, O2, Or, Ow, <- app_assoc.
Qed.

(** What a server that accepted has read and written. *)
Lemma server_transcript local listener nonce s p s' :
  server_bound_with_nonce sha256 hmac local secret listener (Ok nonce) s = (Ok p, s') →
  let response := hello local (id (authenticated p)) listener 2 nonce in
  ∃ request, length request = 110 ∧ take 9 request = MAGIC ++ [VERSION] ∧
    parse_hello request listener 1 (id local) = Ok (authenticated p) ∧
    binding p = channel_binding sha256 request response ∧
    incoming s = request ++ proof 1 request response ++ incoming s' ∧
    outgoing s' = outgoing s ++ response ++ proof 2 request response ++ proof 3 request response.
Proof.
  unfold server_bound_with_nonce. intros H.
  apply io_bind_ok in H as ([request q] & s1 & Hread & H). cbn [fst snd] in H.
  apply io_bind_ok in H as (n & s2 & Hn & H). injection Hn as <- <-.
  apply io_bind_ok in H as (t & s3 & Ht & H). unfold io_lift in Ht. rewrite mac_ok in Ht.
  injection Ht as <- <-. apply io_bind_ok in H as (u & s4 & Hw & H).
  apply io_bind_ok in H as (u2 & s5 & H2 & H). apply io_bind_ok in H as (u1 & s6 & H1 & H).
  apply io_bind_ok in H as (u3 & s7 & H3 & H). injection H as <- <-.
  apply write_all_ok in Hw as (Iw & Ow & _). apply read_hello_ok in Hread as (Ir & L & Hd & Hp & Or & _).
  apply verify_proof_ok in H1 as [I1 O1]. apply send_proof_ok in H2 as [I2 O2], H3 as [I3 O3].
  exists request. cbn [authenticated binding]. split_and!; [done..| |].
  - by rewrite Ir, I3, <- Iw, <- I2, I1.
  - by rewrite O3, O1, O2, Ow, Or, <- !app_assoc.
Qed.

(** Two proofs with equal messages belong to the same role and session. *)
Lemma proof_message_inj role role' c s c' s' :
  length c = length c' → proof_message role c s = proof_message role' c' s' →
  role = role' ∧ c = c' ∧ s = s'.
Proof.
  intros Hc Heq. unfold proof_message in Heq. apply app_inv_head in Heq. cbn [app] in Heq.
  injection Heq as -> Heq. by apply app_inj_length in Heq as [-> ->].
Qed.

Lemma parse_hello_ok bytes listener role target p :
  parse_hello bytes listener role target = Ok p →
  byte_at bytes 9 = listener_byte listener ∧ of_be_bytes (slice bytes 20 28) = target.
Proof.
  unfold parse_hello. case_match eqn:Hguard; [done|]. guards. case_match eqn:Ht; [done|]. guards.
  intros _. split; by apply N.eqb_eq.
Qed.

(** A frame written by [hello] is read for its own listener and target only. *)
Lemma parse_hello_own p target listener role nonce listener' role' target' q :
  peer_wf p → length nonce = 32 → fits 8 target →
  parse_hello (hello p target listener role nonce) listener' role' target' = Ok q →
  listener' = listener ∧ target' = target.
Proof.
  intros Hp Hn Ht [H9 H20]%parse_hello_ok.
  destruct (hello_fields p target listener role nonce Hp Hn) as (F9 & _ & _ & _ & F20 & _).
  rewrite F9 in H9. rewrite F20, of_be_bytes_be_bytes in H20 by done. split; [|done].
  by destruct listener, listener'.
Qed.

(** A client and a server that share a secret complete the handshake on
    what the other one writes: each learns exactly the identity the other
    claimed, and both derive the same channel binding. *)
Theorem honest_handshake_completes (cl sv : Peer) (listener : Listener) (cn sn k k' : list N) (b b' : nat) :
  (∀ m, length (tag m) = 32) → peer_wf cl → peer_wf sv → length cn = 32 → length sn = 32 →
  let request := hello cl (id sv) listener 1 cn in
  let response := hello sv (id cl) listener 2 sn in
  let sent_by_client := request ++ proof 1 request response in
  let sent_by_server := response ++ proof 2 request response ++ proof 3 request response in
  let bound := channel_binding sha256 request response in
  client_bound_with_nonce sha256 hmac cl (id sv) secret listener (Ok cn)
    (mkStream (sent_by_server ++ k) [] (2 + b))
  = (Ok (mkAuthenticatedPeer sv bound), mkStream k sent_by_client b) ∧
  server_bound_with_nonce sha256 hmac sv secret listener (Ok sn)
    (mkStream (sent_by_client ++ k') [] (3 + b'))
  = (Ok (mkAuthenticatedPeer cl bound), mkStream k' sent_by_server b').
Proof.
  intros Htag Hcl Hsv Hcn Hsn request response sc ss bound.
  assert (Hverify : ∀ role r o n, verify_proof hmac secret role request response
      (mkStream (proof role request response ++ r) o n) = (Ok tt, mkStream r o n)).
  { intros role r o n. unfold verify_proof, io_bind, io_lift. rewrite read_exact_app by apply Htag.
    rewrite mac_ok. by rewrite bool_decide_true. }
  assert (Hsend : ∀ role i o n, send_proof hmac secret role request response (mkStream i o (S n))
      = (Ok tt, mkStream i (o ++ proof role request response) n)).
  { intros role i o n. unfold send_proof, io_bind, io_lift. by rewrite mac_ok. }
  split.
  - unfold client_bound_with_nonce, io_bind at 1 2 3, io_lift, write_all. cbn [Nat.add write_budget].
    rewrite mac_ok. cbn [incoming outgoing]. unfold io_bind at 1. unfold ss. rewrite <- !app_assoc.
    unfold response at 1. rewrite read_hello_hello; [|done|apply Hcl|done]. cbn [fst snd].
    rewrite N.eqb_refl. cbn [negb]. fold request response. unfold io_bind.
    rewrite Hverify, Hsend, Hverify. done.
  - unfold server_bound_with_nonce, io_bind at 1. unfold sc. rewrite <- !app_assoc.
    unfold request at 1. rewrite read_hello_hello; [|done|apply Hsv|done]. cbn [fst snd].
    unfold io_bind, io_lift at 1 2. fold request response. rewrite mac_ok. unfold write_all at 1.
    cbn [write_budget incoming outgoing Nat.add]. rewrite Hsend, Hverify, Hsend.
    by rewrite <- !app_assoc.
Qed.

(** C39: if a client and a server both accepted, and the proof the server read is
    the one the client sent, then it is one session: each authenticated the
    other, for the node and the listener the client asked for, and both hold
    the same channel binding; the only other possibility is a collision of the
    keyed hash. *)
Theorem handshake_agreement (cl sv : Peer) (target : N) (lc ls : Listener) (cn sn : list N)
    (s s' t t' : Stream) (a b : AuthenticatedPeer) (q q' pr : list N) :
  peer_wf cl → peer_wf sv → fits 8 target → length cn = 32 → length sn = 32 →
  client_bound_with_nonce sha256 hmac cl target secret lc (Ok cn) s = (Ok a, s') →
  server_bound_with_nonce sha256 hmac sv secret ls (Ok sn) t = (Ok b, t') →
  outgoing s' = outgoing s ++ q ++ pr → length q = 110 →
  incoming t = q' ++ pr ++ incoming t' → length q' = 110 →
  (authenticated a = sv ∧ authenticated b = cl ∧ binding a = binding b ∧ target = id sv ∧ lc = ls) ∨
  (∃ m m', m ≠ m' ∧ tag m = tag m').
Proof.
  intros Hcl Hsv Ht Hcn Hsn Hc Hs Hout Hq Hin Hq'.
  apply client_transcript in Hc as (response & Lr & _ & Pr & _ & Bc & _ & Oc).
  apply server_transcript in Hs as (request & Lq & _ & Pq & Bs & Is & _).
  rewrite Hout in Oc. apply app_inv_head, app_inj_length in Oc as [-> Epr];
    [|by rewrite hello_length].
  rewrite Hin in Is. apply app_inj_length in Is as [-> Epr']; [|congruence]. apply app_inv_tail in Epr'.
  rewrite Epr in Epr'. unfold proof in Epr'.
  match type of Epr' with tag ?m = tag ?m' => destruct (decide (m = m')) as [Heq|Hne] end;
    [left|right; eauto].
  apply proof_message_inj in Heq as (_ & Hreq & Hresp); [|by rewrite hello_length].
  rewrite <- Hreq in Pq. apply parse_hello_own in Pq as Hown; [|done..]. destruct Hown as [-> <-].
  rewrite parse_hello_hello in Pq by done. injection Pq as Hb.
  rewrite Hresp, <- Hb, parse_hello_hello in Pr; [|done|apply Hcl|done]. injection Pr as Ha.
  rewrite Bc, Bs. split_and!; congruence.
Qed.

(** An admission record that verifies was signed for exactly that role,
    that sender, that receiver and that body, or the keyed hash has a
    collision. *)
Theorem record_signature_binds (role role' : N) (from to from' to' : ReplicaId) (body body' sig : list N) :
  replica_wf from → replica_wf to → replica_wf from' → replica_wf to' →
  fits 8 (N.of_nat (length body)) → fits 8 (N.of_nat (length body')) →
  sign_admission_record hmac secret role from to body = Ok sig →
  verify_admission_record hmac secret role' from' to' body' sig = Ok tt →
  (role, from, to, body) = (role', from', to', body') ∨ (∃ m m', m ≠ m' ∧ tag m = tag m').
Proof.
  intros Hf Ht Hf' Ht' Hb Hb'. unfold sign_admission_record, verify_admission_record, admission_record_mac.
  rewrite Hsecret, Hkey. intros [= <-]. case_bool_decide as Heq; [|done]. intros _.
  destruct (decide (record_message role from to body = record_message role' from' to' body')) as [Hm|Hne];
    [left|right; eauto].
  unfold record_message in Hm. apply app_inv_head, app_inv_head, app_inj_length in Hm as [Hr Hm]; [|done].
  injection Hr as ->.
  destruct from as [i n], to as [j k], from' as [i' n'], to' as [j' k'].
  unfold replica_wf in Hf, Ht, Hf', Ht'. cbn [physical_id boot_nonce] in *. destruct_and!.
  assert (Hw : ∀ x, (x ≤ u64_max)%N → fits 8 x).
  { intros x. unfold fits, u64_max. change (256 ^ N.of_nat 8)%N with 18446744073709551616%N. lia. }
  peel Hm E1; [|auto..]. apply app_inj_length in Hm as [-> Hm]; [|congruence].
  peel Hm E2; [|auto..]. apply app_inj_length in Hm as [-> Hm]; [|congruence].
  peel Hm E3; [|done..]. congruence.
Qed.
End handshake.

(** Without a cluster secret nothing is sent: a client fails before its hello
    and a server before its answer, whatever the peer sends. *)
Theorem no_secret_sends_nothing sha256 hmac (secret : option Text) local target listener entropy s :
  usable_secret secret = None →
  (∃ e, (client_bound_with_nonce sha256 hmac local target secret listener entropy s).1 = Err e) ∧
  outgoing (client_bound_with_nonce sha256 hmac local target secret listener entropy s).2 = outgoing s ∧
  (∃ e, (server_bound_with_nonce sha256 hmac local secret listener entropy s).1 = Err e) ∧
  outgoing (server_bound_with_nonce sha256 hmac local secret listener entropy s).2 = outgoing s.
Proof.
  intros Hsecret.
  assert (Hmac : ∀ role c d, ∃ e, mac hmac secret role c d = Err e).
  { intros. unfold mac. rewrite Hsecret. eauto. }
  assert (Hread : ∀ role, outgoing (read_hello listener role (id local) s).2 = outgoing s).
  { intros role. apply read_hello_silent. }
  split_and!.
  - unfold client_bound_with_nonce, io_bind at 1 2, io_lift. destruct entropy as [n|e]; [|by eauto].
    destruct (Hmac 1%N (hello local target listener 1 n) []) as [e ->]. eauto.
  - unfold client_bound_with_nonce, io_bind at 1 2, io_lift. destruct entropy as [n|e]; [|done].
    by destruct (Hmac 1%N (hello local target listener 1 n) []) as [e ->].
  - unfold server_bound_with_nonce, io_bind at 1 2 3, io_lift.
    destruct (read_hello listener 1 (id local) s) as [[[r p]|e] s1]; [|by eauto]. cbn [fst snd].
    destruct entropy as [n|e]; [|by eauto].
    destruct (Hmac 2%N r (hello local (id p) listener 2 n)) as [e ->]. eauto.
  - specialize (Hread 1%N). unfold server_bound_with_nonce, io_bind at 1 2 3, io_lift.
    destruct (read_hello listener 1 (id local) s) as [[[r p]|e] s1]; [|done]. cbn [fst snd].
    destruct entropy as [n|e]; [|done].
    by destruct (Hmac 2%N r (hello local (id p) listener 2 n)) as [e ->].
Qed.

(** ** Witnesses *)

(** A keyed hash with 32-byte tags. *)
Definition demo_tag (m : list N) : list N := be_bytes 32 (of_be_bytes m).
Definition demo_hmac (k : list N) : option (list N → list N) := Some demo_tag.
Definition demo_key : Text := text "key".
Definition demo_client : Peer := mkPeer 1 None true (Some (zeros 32)).
Definition demo_server : Peer := mkPeer 2 (Some 7%N) false None.
Definition demo_request : list N := hello demo_client 2 RaftListener 1 (zeros 32).
Definition demo_response : list N := hello demo_server 1 RaftListener 2 (zeros 32).
Definition demo_proof (role : N) : list N := demo_tag (proof_message role demo_request demo_response).
Definition demo_bound : list N := channel_binding demo_tag demo_request demo_response.

Lemma demo_peers_wf : peer_wf demo_client ∧ peer_wf demo_server.
Proof. unfold peer_wf. split_and!; try done; intros ? [= <-]; done. Qed.

Lemma hello_roundtrip_witness :
  fits 8 2 ∧
  read_hello RaftListener 1 2 (mkStream (demo_request ++ []) [] 0)
  = (Ok (demo_request, demo_client), mkStream [] [] 0).
Proof.
  split; [done|]. destruct (hello_roundtrip RaftListener 1 2) as [H _]; [done|].
  apply H; [apply demo_peers_wf|done].
Defined.

Lemma honest_handshake_completes_witness :
  client_bound_with_nonce demo_tag demo_hmac demo_client 2 (Some demo_key) RaftListener (Ok (zeros 32))
    (mkStream ((demo_response ++ demo_proof 2 ++ demo_proof 3) ++ []) [] 2)
  = (Ok (mkAuthenticatedPeer demo_server demo_bound), mkStream [] (demo_request ++ demo_proof 1) 0).
Proof.
  refine (proj1 (honest_handshake_completes demo_tag demo_hmac (Some demo_key) demo_key demo_tag
    eq_refl eq_refl demo_client demo_server RaftListener (zeros 32) (zeros 32) [] [] 0 0 _ _ _ _ _)).
  - intros m. apply length_be_bytes.
  - apply demo_peers_wf.
  - apply demo_peers_wf.
  - done.
  - done.
Defined.

Lemma handshake_agreement_witness :
  (demo_server = demo_server ∧ demo_client = demo_client ∧ demo_bound = demo_bound ∧
   2%N = id demo_server ∧ RaftListener = RaftListener) ∨ (∃ m m', m ≠ m' ∧ demo_tag m = demo_tag m').
Proof.
  apply (handshake_agreement demo_tag demo_hmac (Some demo_key) demo_key demo_tag eq_refl eq_refl
    demo_client demo_server 2 RaftListener RaftListener (zeros 32) (zeros 32)
    (mkStream (demo_response ++ demo_proof 2 ++ demo_proof 3) [] 2)
    (mkStream [] (demo_request ++ demo_proof 1) 0)
    (mkStream (demo_request ++ demo_proof 1) [] 3)
    (mkStream [] (demo_response ++ demo_proof 2 ++ demo_proof 3) 0)
    (mkAuthenticatedPeer demo_server demo_bound) (mkAuthenticatedPeer demo_client demo_bound)
    demo_request demo_request (demo_proof 1)).
  - apply demo_peers_wf.
  - apply demo_peers_wf.
  - done.
  - done.
  - done.
  - vm_compute. reflexivity.
  - vm_compute. reflexivity.
  - done.
  - done.
  - done.
  - done.
Defined.

Lemma record_signature_binds_witness :
  (1%N, mkReplicaId 1 (zeros 32), mkReplicaId 2 (zeros 32), [7%N])
  = (1%N, mkReplicaId 1 (zeros 32), mkReplicaId 2 (zeros 32), [7%N]) ∨
  (∃ m m', m ≠ m' ∧ demo_tag m = demo_tag m').
Proof.
  eapply (record_signature_binds demo_hmac (Some demo_key) demo_key demo_tag eq_refl eq_refl).
  1-4: (split; [done|split; [done|by repeat constructor]]).
  - done.
  - done.
  - reflexivity.
  - vm_compute. reflexivity.
Defined.

Lemma no_secret_sends_nothing_witness :
  outgoing (client_bound_with_nonce demo_tag demo_hmac demo_client 2 None RaftListener (Ok (zeros 32))
    (mkStream [] [] 5)).2 = [].
Proof.
  refine (proj1 (proj2 (no_secret_sends_nothing demo_tag demo_hmac None demo_client 2 RaftListener
    (Ok (zeros 32)) (mkStream [] [] 5) _))). reflexivity.
Defined.
