(* ===== verification/Controller.v ===== *)
(** * The admission controller (src/raft/admission/controller.rs, controller/bootstrap.rs)

    Requests for authority, the signed records that carry them, the
    reservation an issuer makes before it answers, and the quorum check that
    turns grants into a verified admission.  The clock, the entropy source, the
    JSON encoder and the hash functions are arguments; [timing] is the
    [AdmissionTiming] object. *)

From S2P Require Import Prelude Io Text Encoding Replica Openraft Admission Types VipLogic State StoreMembership.
From S2P Require Import Config Fingerprint Auth.
Local Open Scope kaf_scope.

(** [AdmissionTiming]. *)
Record AdmissionTiming := mkAdmissionTiming {
  consumer_deadline : Instant → Result Instant AdmissionDenied;
  reservation_deadline : Instant → Result Instant AdmissionDenied;
  quarantine_deadline : Instant → Result Instant AdmissionDenied
}.

(** ** Join bindings *)

(** The bytes [plan_digest] hashes after the genesis digest. *)
Definition voters_bytes (vs : gset ReplicaId) : list N :=
  be_bytes 8 (N.of_nat (size vs))
  ++ (btree_keys vs ≫= λ r, be_bytes 8 (physical_id r) ++ boot_nonce r).

(** [plan_digest]. *)
Definition plan_digest (sha256 : list N → list N) (p : JoinPlan) : list N :=
  sha256 (ascii_bytes "keepafloatd-admission-join-plan-v1" ++ [0%N]
    ++ digest sha256 (plan_genesis p)
    ++ be_bytes 8 (physical_id (consumer p)) ++ boot_nonce (consumer p)
    ++ plan_nonce p
    ++ voters_bytes (previous_voters p) ++ voters_bytes (next_voters p)).

Record JoinBinding := mkJoinBinding {
  binding_log_id : LogId;
  binding_plan_digest : list N
}.

#[global] Instance JoinBinding_eq_dec : EqDecision JoinBinding.
Proof. solve_decision. Defined.

(** [JoinBinding::from_prepared]. *)
Definition from_prepared (sha256 : list N → list N) (p : PreparedJoin) : JoinBinding :=
  mkJoinBinding (prepared p) (plan_digest sha256 (plan p)).

(** ** Requests and signed records *)

Inductive AdmissionMode :=
| Cold
| Join (prepared : option JoinBinding)
| Renew (progress : option LogId).

#[global] Instance AdmissionMode_eq_dec : EqDecision AdmissionMode.
Proof. solve_decision. Defined.

Record AdmissionRequest := mkAdmissionRequest {
  req_consumer : ReplicaId;
  req_genesis : Genesis;
  req_nonce : list N;
  req_mode : AdmissionMode
}.

#[global] Instance AdmissionRequest_eq_dec : EqDecision AdmissionRequest.
Proof. solve_decision. Defined.

Record SignedAdmission (T : Type) := mkSignedAdmission {
  sender : ReplicaId;
  recipient : ReplicaId;
  record_binding : list N;
  record_payload : T;
  record_tag : list N
}.
Arguments mkSignedAdmission {T}.
Arguments sender {T}.
Arguments recipient {T}.
Arguments record_binding {T}.
Arguments record_payload {T}.
Arguments record_tag {T}.

Section signed.
Context {T : Type} (hmac : list N → option (list N → list N)).
Context (encode : list N * T → option (list N)).

(** [SignedAdmission::sign]. *)
Definition sign (secret : option Text) (role : N) (from to : ReplicaId) (binding : list N) (payload : T)
  : Result (SignedAdmission T) AdmissionDenied :=
  match encode (binding, payload) with
  | None => Err (mkAdmissionDenied "admission record encoding failed")
  | Some bytes =>
      match sign_admission_record hmac secret role from to bytes with
      | Err _ => Err (mkAdmissionDenied "admission record signing failed")
      | Ok tag => Ok (mkSignedAdmission from to binding payload tag)
      end
  end.

(** [SignedAdmission::verify]. *)
Definition verify (r : SignedAdmission T) (secret : option Text) (role : N) (from to : ReplicaId)
    (binding : list N) : Result unit AdmissionDenied :=
  if negb (bool_decide (sender r = from)) || negb (bool_decide (recipient r = to))
     || negb (bool_decide (record_binding r = binding))
  then Err (mkAdmissionDenied "admission record boot or channel mismatch")
  else
    match encode (record_binding r, record_payload r) with
    | None => Err (mkAdmissionDenied "admission record encoding failed")
    | Some bytes =>
        match verify_admission_record hmac secret role from to bytes (record_tag r) with
        | Err _ => Err (mkAdmissionDenied "admission record signature mismatch")
        | Ok _ => Ok tt
        end
    end.
End signed.

Record ReceivedGrant := mkReceivedGrant {
  received_record : SignedAdmission AdmissionRequest;
  received_issuer : ReplicaId;
  received_binding : list N
}.

Record AdmissionRound := mkAdmissionRound {
  round_request : AdmissionRequest;
  round_started : Instant;
  round_deadline : Instant;
  round_completed : bool;
  round_prepared_join : option PreparedJoin
}.

#[global] Instance AdmissionRequest_eta : Eta AdmissionRequest := λ r,
  mkAdmissionRequest (req_consumer r) (req_genesis r) (req_nonce r) (req_mode r).
#[global] Instance AdmissionRound_eta : Eta AdmissionRound := λ r,
  mkAdmissionRound (round_request r) (round_started r) (round_deadline r) (round_completed r)
    (round_prepared_join r).

(** [AdmissionRound::bind_progress], at the instant [now]. *)
Definition bind_progress (round : AdmissionRound) (applied : AppliedHealthProgress) (now : Instant)
  : Result AdmissionRound AdmissionDenied :=
  if negb (bool_decide (req_mode (round_request round) = Renew None))
     || negb (bool_decide (replica (request applied) = req_consumer (round_request round)))
     || negb (bool_decide (genesis (request applied) = req_genesis (round_request round)))
     || negb (bool_decide (request_nonce (request applied) = req_nonce (round_request round)))
     || round_completed round
     || (round_deadline round <=? now)%N
  then Err (mkAdmissionDenied "progress is not for this outstanding renewal")
  else Ok (round <| round_request :=
             round_request round <| req_mode := Renew (Some (log_id applied)) |> |>).

(** [AdmissionRound::bind_prepared]. *)
Definition bind_prepared (sha256 : list N → list N) (round : AdmissionRound) (p : PreparedJoin) (now : Instant)
  : Result AdmissionRound AdmissionDenied :=
  plan_validate (plan p) ;?
  if negb (bool_decide (req_mode (round_request round) = Join None))
     || negb (bool_decide (consumer (plan p) = req_consumer (round_request round)))
     || negb (bool_decide (plan_genesis (plan p) = req_genesis (round_request round)))
     || round_completed round
     || (round_deadline round <=? now)%N
  then Err (mkAdmissionDenied "preparation is not for this outstanding join")
  else Ok (round
         <| round_request := round_request round
              <| req_mode := Join (Some (from_prepared sha256 p)) |> |>
         <| round_prepared_join := Some (mkPreparedJoin (plan p) (prepared p) None) |>).

(** [VerifiedJoinBootstrap] and [VerifiedAdmission]. *)
Record VerifiedJoinBootstrap := mkVerifiedJoinBootstrap { bootstrap_prepared : PreparedJoin }.
Record VerifiedAdmission := mkVerifiedAdmission {
  verified_context : AdmissionContext;
  verified_deadline : Instant;
  verified_mode : AdmissionMode;
  verified_bootstrap : option VerifiedJoinBootstrap
}.

(** [Reservation]. *)
Record Reservation := mkReservation {
  reserved_genesis : Genesis;
  reserved_until : Instant
}.

(** [AdmissionController]. *)
Record AdmissionController := mkAdmissionController {
  ctl_cfg : Config;
  ctl_configured : gset N;
  ctl_config_identity : ClusterConfigFingerprint;
  ctl_local : ReplicaId;
  ctl_timing : AdmissionTiming;
  ctl_quarantine_until : Instant;
  ctl_reservation : option Reservation
}.

#[global] Instance AdmissionController_eta : Eta AdmissionController := λ c,
  mkAdmissionController (ctl_cfg c) (ctl_configured c) (ctl_config_identity c) (ctl_local c)
    (ctl_timing c) (ctl_quarantine_until c) (ctl_reservation c).

(** ** The controller *)

Section controller.
Context {O : Openraft}.
Context (sock_parse : Text → option SocketAddr) (sha256 : list N → list N).
Context (hmac : list N → option (list N → list N)).
Context (encode : list N * AdmissionRequest → option (list N)).

(** [ReceivedGrant::authenticate]. *)
Definition authenticate (secret : option Text) (issuer to : ReplicaId) (binding : list N)
    (req : AdmissionRequest) (r : SignedAdmission AdmissionRequest) : Result ReceivedGrant AdmissionDenied :=
  verify hmac encode r secret 11 issuer to binding ;?
  if negb (bool_decide (record_payload r = req))
  then Err (mkAdmissionDenied "admission response differs from its request")
  else Ok (mkReceivedGrant r issuer binding).

(** [AdmissionController::new]. *)
Definition controller_new (cfg : Config) (local : ReplicaId) (boot : Instant) (timing : AdmissionTiming)
  : Result AdmissionController AdmissionDenied :=
  let configured : gset N := list_to_set (peer_id <$> peers cfg) in
  if negb (physical_id local =? cfg_node_id cfg)%N || negb (bool_decide (physical_id local ∈ configured))
  then Err (mkAdmissionDenied "local boot is not the configured member")
  else
    match cluster_config_fingerprint sock_parse sha256 cfg with
    | Err _ => Err (mkAdmissionDenied "invalid admission configuration")
    | Ok config_identity =>
        quarantine_until <-? quarantine_deadline timing boot;
        Ok (mkAdmissionController cfg configured config_identity local timing quarantine_until None)
    end.

(** [AdmissionController::validate_genesis]. *)
Definition validate_genesis (c : AdmissionController) (g : Genesis) : Result unit AdmissionDenied :=
  validate_roster g (ctl_configured c) ;?
  if negb (bool_decide (config g = ctl_config_identity c))
  then Err (mkAdmissionDenied "admission configuration mismatch")
  else Ok tt.

(** [AdmissionController::begin], at the instant [started]. *)
Definition begin (c : AdmissionController) (g : Genesis) (mode : AdmissionMode) (started : Instant)
    (entropy : option (list N)) : Result AdmissionRound AdmissionDenied :=
  if match mode with Join (Some _) | Renew (Some _) => true | _ => false end
  then Err (mkAdmissionDenied "new rounds must bind their own committed evidence")
  else
    validate_genesis c g ;?
    if (started <? ctl_quarantine_until c)%N
    then Err (mkAdmissionDenied "restart quarantine has not elapsed")
    else
      deadline <-? consumer_deadline (ctl_timing c) started;
      match entropy with
      | None => Err (mkAdmissionDenied "admission request entropy unavailable")
      | Some nonce =>
          Ok (mkAdmissionRound (mkAdmissionRequest (ctl_local c) g nonce mode) started deadline false None)
      end.

(** The [Cold] arm of [reserve]; [check_now] is the instant of [session.check()]. *)
Definition reserve_cold (c : AdmissionController) (req : AdmissionRequest) (state : option KafStorageState)
    (check_now : Instant) : Result unit AdmissionDenied :=
  if negb (bool_decide (req_consumer req ∈ voters (req_genesis req)))
     || negb (bool_decide (ctl_local c ∈ voters (req_genesis req)))
  then Err (mkAdmissionDenied "cold grant requires exact proposed boot consent")
  else
    match state with
    | None => Ok tt
    | Some state =>
        match admission state with
        | Some session =>
            session_check session check_now ;?
            if negb (bool_decide (local_replica (context session) = ctl_local c))
               || negb (bool_decide (context_genesis (context session) = req_genesis req))
               || match state_genesis state with
                  | Some g => negb (bool_decide (g = req_genesis req)) | None => false end
            then Err (mkAdmissionDenied "cold consent differs from active original cohort")
            else Ok tt
        | None =>
            if bool_decide (is_Some (state_genesis state))
            then Err (mkAdmissionDenied "stored history alone cannot authorize cold consent")
            else Ok tt
        end
    end.

(** The [Join] arm. *)
Definition reserve_join (c : AdmissionController) (req : AdmissionRequest) (bound : option JoinBinding)
    (state : option KafStorageState) (check_now : Instant) : Result unit AdmissionDenied :=
  match state with
  | None => Err (mkAdmissionDenied "join requires locally applied committed preparation")
  | Some state =>
      match admission state with
      | None => Err (mkAdmissionDenied "issuer has no continuing authority")
      | Some session =>
          session_check session check_now ;?
          match prepared_join state with
          | None => Err (mkAdmissionDenied "join preparation is not applied")
          | Some operation =>
              plan_validate (plan operation) ;?
              if negb (bool_decide (local_replica (context session) = ctl_local c))
                 || negb (bool_decide (context_genesis (context session) = req_genesis req))
                 || negb (bool_decide (state_genesis state = Some (req_genesis req)))
                 || negb (bool_decide (bound = Some (from_prepared sha256 operation)))
                 || negb (bool_decide (consumer (plan operation) = req_consumer req))
                 || negb (bool_decide (plan_genesis (plan operation) = req_genesis req))
                 || negb (bool_decide (joint_config_len (membership (last_membership state)) = 1))
                 || negb (bool_decide (voter_set (membership (last_membership state))
                                         = previous_voters (plan operation)))
              then Err (mkAdmissionDenied "join does not match continuing committed authority")
              else Ok tt
          end
      end
  end.

(** The [Renew] arm. *)
Definition reserve_renew (c : AdmissionController) (req : AdmissionRequest) (progress : option LogId)
    (state : option KafStorageState) (check_now : Instant) : Result unit AdmissionDenied :=
  match state with
  | None => Err (mkAdmissionDenied "renewal requires locally applied progress")
  | Some state =>
      match admission state with
      | None => Err (mkAdmissionDenied "issuer has no continuing authority")
      | Some session =>
          session_check session check_now ;?
          match applied_progress state !! physical_id (req_consumer req) with
          | None => Err (mkAdmissionDenied "consumer progress has not been applied")
          | Some applied =>
              if negb (bool_decide (local_replica (context session) = ctl_local c))
                 || negb (bool_decide (context_genesis (context session) = req_genesis req))
                 || negb (bool_decide (state_genesis state = Some (req_genesis req)))
                 || negb (bool_decide (Some (log_id applied) = progress))
                 || negb (bool_decide (replica (request applied) = req_consumer req))
                 || negb (bool_decide (genesis (request applied) = req_genesis req))
                 || negb (bool_decide (request_nonce (request applied) = req_nonce req))
              then Err (mkAdmissionDenied "renewal is not this consumer's fresh committed progress")
              else Ok tt
          end
      end
  end.

(** The [match &request.mode] of [reserve]. *)
Definition reserve_evidence (c : AdmissionController) (req : AdmissionRequest)
    (state : option KafStorageState) (check_now : Instant) : Result unit AdmissionDenied :=
  match req_mode req with
  | Cold => reserve_cold c req state check_now
  | Join bound => reserve_join c req bound state check_now
  | Renew progress => reserve_renew c req progress state check_now
  end.

(** The checks of [reserve] up to the new deadline of the reservation. *)
Definition reserve_until (c : AdmissionController) (signed : SignedAdmission AdmissionRequest)
    (binding : list N) (state : option KafStorageState) (now check_now : Instant)
  : Result Instant AdmissionDenied :=
  let req := record_payload signed in
  verify hmac encode signed (cluster_secret (ctl_cfg c)) 10 (req_consumer req) (ctl_local c) binding ;?
  validate_genesis c (req_genesis req) ;?
  if negb (bool_decide (physical_id (req_consumer req) ∈ ctl_configured c))
  then Err (mkAdmissionDenied "admission consumer is not configured")
  else if (now <? ctl_quarantine_until c)%N
  then Err (mkAdmissionDenied "restart quarantine has not elapsed")
  else if match ctl_reservation c with
          | Some current => (now <? reserved_until current)%N
                            && negb (bool_decide (reserved_genesis current = req_genesis req))
          | None => false
          end
  then Err (mkAdmissionDenied "physical member is reserved for another genesis")
  else
    reserve_evidence c req state check_now ;?
    until <-? reservation_deadline (ctl_timing c) now;
    if (until <=? now)%N then Err (mkAdmissionDenied "reservation deadline is not in the future")
    else Ok (match ctl_reservation c with
             | Some r => if bool_decide (reserved_genesis r = req_genesis req)
                         then N.max (reserved_until r) until else until
             | None => until
             end).

(** [AdmissionController::reserve]: the reservation is kept even when the
    signature of the answer fails. *)
Definition reserve (c : AdmissionController) (signed : SignedAdmission AdmissionRequest)
    (binding : list N) (state : option KafStorageState) (now check_now : Instant)
  : AdmissionController * Result (SignedAdmission AdmissionRequest) AdmissionDenied :=
  let req := record_payload signed in
  match reserve_until c signed binding state now check_now with
  | Err e => (c, Err e)
  | Ok until =>
      (c <| ctl_reservation := Some (mkReservation (req_genesis req) until) |>,
       sign hmac encode (cluster_secret (ctl_cfg c)) 11 (ctl_local c) (req_consumer req) binding req)
  end.

(** The loop of [complete] over the grants: the physical issuers and the exact boots. *)
Fixpoint collect_grants (c : AdmissionController) (req : AdmissionRequest) (grants : list ReceivedGrant)
    (physical : gset N) (exact : gset ReplicaId) : Result (gset N * gset ReplicaId) AdmissionDenied :=
  match grants with
  | [] => Ok (physical, exact)
  | received :: grants =>
      let grant := received_record received in
      verify hmac encode grant (cluster_secret (ctl_cfg c)) 11 (received_issuer received) (ctl_local c)
        (received_binding received) ;?
      if negb (bool_decide (record_payload grant = req))
         || negb (bool_decide (physical_id (sender grant) ∈ ctl_configured c))
         || bool_decide (physical_id (sender grant) ∈ physical)
      then Err (mkAdmissionDenied "grant mismatch or duplicate physical issuer")
      else collect_grants c req grants ({[physical_id (sender grant)]} ∪ physical) ({[sender grant]} ∪ exact)
  end.

(** The verdict of [complete] on a round that is still open. *)
Definition complete_open (c : AdmissionController) (round : AdmissionRound) (grants : list ReceivedGrant)
  : Result VerifiedAdmission AdmissionDenied :=
  let req := round_request round in
  if negb (bool_decide (req_consumer req = ctl_local c))
  then Err (mkAdmissionDenied "admission round belongs to another boot")
  else
    pe <-? collect_grants c req grants ∅ ∅;
    if size pe.1 <=? size (ctl_configured c) / 2
    then Err (mkAdmissionDenied "admission grants lack a physical majority")
    else if bool_decide (req_mode req = Cold) && negb (bool_decide (pe.2 = voters (req_genesis req)))
    then Err (mkAdmissionDenied "cold genesis lacks every exact boot's consent")
    else Ok (mkVerifiedAdmission (mkAdmissionContext (ctl_local c) (req_genesis req))
               (round_deadline round) (req_mode req)
               (mkVerifiedJoinBootstrap <$> round_prepared_join round)).

(** [AdmissionController::complete], at the instant [now]: an expired round and a
    round that succeeded are consumed. *)
Definition complete (c : AdmissionController) (round : AdmissionRound) (grants : list ReceivedGrant)
    (now : Instant) : AdmissionRound * Result VerifiedAdmission AdmissionDenied :=
  if match req_mode (round_request round) with Join None | Renew None => true | _ => false end
  then (round, Err (mkAdmissionDenied "admission round lacks committed evidence"))
  else if round_completed round || (round_deadline round <=? now)%N
  then (round <| round_completed := true |>,
        Err (mkAdmissionDenied "admission round expired or already consumed"))
  else
    match complete_open c round grants with
    | Err e => (round, Err e)
    | Ok v => (round <| round_completed := true |>, Ok v)
    end.

End controller.
