(* ===== verification/Lease.v ===== *)
(** * Lease timing and local authority (src/runtime_permission.rs, runtime_permission/timing.rs,
    runtime_permission/admission.rs)

    The lifetimes of consumer authority, issuer reservations and restart
    quarantine; the process-local permission as a state machine; and the
    authority object that accepts verified admissions and serves as the fence
    of the storage.  Every operation takes the instant of the clock reading it
    makes; instants and durations are in nanoseconds. *)

From S2P Require Import Prelude Io Text Encoding Replica Openraft Admission Types VipLogic State StoreMembership.
From S2P Require Import Config Fingerprint Auth Controller.
Local Open Scope kaf_scope.

(** ** Durations of the standard library *)

Definition duration_max : N := u64_max * 1000000000 + 999999999.
Definition instant_max : N := 9223372036854775807 * 1000000000 + 999999999.

Definition from_millis (ms : N) : N := (ms * 1000000)%N.
Definition duration_checked_mul (d k : N) : option N :=
  if (d * k <=? duration_max)%N then Some (d * k)%N else None.
Definition duration_checked_add (d e : N) : option N :=
  if (d + e <=? duration_max)%N then Some (d + e)%N else None.
Definition duration_saturating_add (d e : N) : N := N.min (d + e) duration_max.
Definition duration_saturating_mul (d k : N) : N := N.min (d * k) duration_max.

(** [Instant::checked_add]. *)
Definition instant_checked_add (t d : N) : option N :=
  if (t + d <=? instant_max)%N then Some (t + d)%N else None.

Lemma instant_checked_add_Some i d t : instant_checked_add i d = Some t → t = (i + d)%N.
Proof. unfold instant_checked_add. case_match; [|done]. by intros [= <-]. Qed.

(** ** Budgets (src/process.rs, src/vip/effects.rs, src/vip.rs, src/vip/reconcile.rs) *)

Definition PROCESS_REAP_TIMEOUT : N := from_millis 500.
Definition OUTPUT_DRAIN_TIMEOUT : N := from_millis 500.
Definition IP_COMMAND_TIMEOUT : N := from_millis 250.
Definition IP_OUTPUT_BUDGET : N :=
  duration_saturating_add (duration_saturating_add IP_COMMAND_TIMEOUT PROCESS_REAP_TIMEOUT)
    OUTPUT_DRAIN_TIMEOUT.
Definition DELETE_BUDGET : N :=
  duration_saturating_add (duration_saturating_add IP_COMMAND_TIMEOUT PROCESS_REAP_TIMEOUT)
    IP_OUTPUT_BUDGET.
Definition SHUTDOWN_UNBIND_ATTEMPTS : N := 3.
Definition SHUTDOWN_VIP_BUDGET : N :=
  duration_saturating_mul DELETE_BUDGET (2 * SHUTDOWN_UNBIND_ATTEMPTS).
Definition RECONCILE_TICK : N := from_millis 250.

(** [ConsensusFreshness::for_probe_cadence(..).lifetime()] (src/consensus_freshness.rs). *)
Definition probe_cadence_lifetime (interval_ms stale_missed_probes : N) : N :=
  let stale := from_millis (u64_saturating_mul interval_ms stale_missed_probes) in
  let handoff := from_millis (u64_saturating_mul interval_ms OWNERSHIP_ACTIVATION_HOLDOFF_TICKS) in
  duration_saturating_add stale (handoff / 2).

(** ** [LeaseTiming] *)

Definition CLOCK_RATE_RATIO : N := 2.

Record LeaseTiming := mkLeaseTiming {
  consumer_use : N;
  issuer_reservation : N;
  restart_quarantine : N;
  vip_activation_delay : N;
  rpc_budget : N;
  renewal_interval : N;
  renewal_round_budget : N
}.

#[global] Instance LeaseTiming_eta : Eta LeaseTiming := λ t,
  mkLeaseTiming (consumer_use t) (issuer_reservation t) (restart_quarantine t)
    (vip_activation_delay t) (rpc_budget t) (renewal_interval t) (renewal_round_budget t).

(** [LeaseTiming::new]. *)
Definition lease_new (use cleanup_budget : N) : Result LeaseTiming string :=
  if (use =? 0)%N then Err "admission lifetime must be positive"%string
  else
    match duration_checked_mul use CLOCK_RATE_RATIO with
    | None => Err "admission reservation duration overflow"%string
    | Some reservation =>
        match duration_checked_mul reservation CLOCK_RATE_RATIO with
        | None => Err "admission quarantine duration overflow"%string
        | Some quarantine =>
            match d ← duration_checked_add use cleanup_budget; duration_checked_mul d CLOCK_RATE_RATIO with
            | None => Err "VIP activation duration overflow"%string
            | Some activation =>
                Ok (mkLeaseTiming use reservation quarantine activation
                      (N.min (use / 6) (from_millis 500)) (use / 4) use)
            end
        end
    end.

(** [LeaseTiming::for_config].  The products the source writes with [*] on
    durations cannot overflow: [for_config_products] below. *)
Definition for_config (cfg : Config) (vip_count : N) : Result LeaseTiming string :=
  if (u32_max <? vip_count)%N then Err "too many VIPs for admission cleanup budget"%string
  else
    match d ← duration_checked_mul SHUTDOWN_VIP_BUDGET vip_count; duration_checked_add d RECONCILE_TICK with
    | None => Err "admission cleanup budget overflow"%string
    | Some cleanup =>
        let health_window := probe_cadence_lifetime (interval_ms (health cfg))
          (effective_stale_missed_probes (health cfg)) in
        let rpc_budget := N.min (health_window / 6) (from_millis 500) in
        let renewal_interval := (health_window / 4)%N in
        match
          d ← duration_checked_mul (from_millis (election_timeout_max_ms (raft cfg))) 3;
          d ← duration_checked_add d (from_millis (heartbeat_interval_ms (raft cfg)) * 3 / 2);
          duration_checked_add d (from_millis (election_timeout_min_ms (raft cfg)) * 2)
        with
        | None => Err "admission election budget overflow"%string
        | Some election =>
            let round_slots := (N.of_nat (length (peers cfg)) + 4)%N in
            if (u32_max <? N.of_nat (length (peers cfg)))%N || (u32_max <? round_slots)%N
            then Err "admission renewal roster too large"%string
            else
              match duration_checked_mul rpc_budget round_slots with
              | None => Err "admission renewal budget overflow"%string
              | Some round_budget =>
                  match
                    d ← duration_checked_mul election CLOCK_RATE_RATIO;
                    d ← duration_checked_add d (round_budget * 4);
                    duration_checked_add d (renewal_interval * 2)
                  with
                  | None => Err "admission recovery budget overflow"%string
                  | Some recovery_budget =>
                      timing <-? lease_new (N.max health_window recovery_budget) cleanup;
                      Ok (timing <| Lease.rpc_budget := rpc_budget |>
                                 <| Lease.renewal_interval := renewal_interval |>
                                 <| renewal_round_budget := round_budget |>)
                  end
              end
        end
    end.

(** [deadline]. *)
Definition deadline (start : Instant) (lifetime : N) : option Instant := instant_checked_add start lifetime.

(** [LeaseTiming::startup_vip_delay] and [vip_activation_deadline]. *)
Definition startup_vip_delay (t : LeaseTiming) : option N :=
  duration_checked_add (restart_quarantine t) (vip_activation_delay t).
Definition vip_activation_deadline (t : LeaseTiming) (admitted : Instant) : option Instant :=
  deadline admitted (vip_activation_delay t).

Definition or_denied {A} (r : option A) (reason : string) : Result A AdmissionDenied :=
  match r with Some a => Ok a | None => Err (mkAdmissionDenied reason) end.

(** [impl AdmissionTiming for LeaseTiming]. *)
Definition lease_admission_timing (t : LeaseTiming) : AdmissionTiming := {|
  consumer_deadline start :=
    or_denied (deadline start (consumer_use t)) "admission consumer deadline overflow";
  reservation_deadline start :=
    or_denied (deadline start (issuer_reservation t)) "admission reservation deadline overflow";
  quarantine_deadline start :=
    or_denied (deadline start (restart_quarantine t)) "admission quarantine deadline overflow"
|}.

(** ** [RuntimePermission]

    Each operation is one [send_if_modified] closure: the new state and its
    answer.  The change notification only wakes [wait_until_sealed]. *)

(** [AuthorityContext]. *)
Record AuthorityContext := mkAuthorityContext {
  auth_boot_nonce : list N;
  cluster_epoch_of : N;
  genesis_digest : list N;
  admission_generation : N
}.

#[global] Instance AuthorityContext_eq_dec : EqDecision AuthorityContext.
Proof. solve_decision. Defined.

(** [Stage] and [State]. *)
Inductive Stage := Joining (prepared : LogId) | Voting.

#[global] Instance Stage_eq_dec : EqDecision Stage.
Proof. solve_decision. Defined.

Inductive Permission :=
| Quarantined (until : Instant)
| Active (context : AuthorityContext) (stage : Stage) (until : Instant)
| Sealed.

#[global] Instance Permission_eq_dec : EqDecision Permission.
Proof. solve_decision. Defined.

(** [State::seal_expired]: the state afterwards, and whether it expired. *)
Definition seal_expired (s : Permission) (now : Instant) : Permission * bool :=
  match s with
  | Active _ _ until => if (until <=? now)%N then (Sealed, true) else (s, false)
  | _ => (s, false)
  end.

(** [RuntimePermission::admit]. *)
Definition permission_admit (s : Permission) (c : AuthorityContext) (until now : Instant) : Permission * bool :=
  match s with
  | Quarantined ready =>
      if (ready <=? now)%N && (now <? until)%N then (Active c Voting until, true)
      else ((seal_expired s now).1, false)
  | _ => ((seal_expired s now).1, false)
  end.

(** [RuntimePermission::join]. *)
Definition join (s : Permission) (c : AuthorityContext) (prepared : LogId) (until now : Instant)
  : Permission * bool :=
  let '(s, expired) := seal_expired s now in
  if expired then (s, false)
  else
    let accepted :=
      match s with
      | Quarantined ready => (ready <=? now)%N && (now <? until)%N
      | Active current (Joining operation) previous =>
          bool_decide (current = c) && bool_decide (operation = prepared) && (previous <? until)%N
      | _ => false
      end in
    (if accepted then Active c (Joining prepared) until else s, accepted).

(** [RuntimePermission::mark_promoted]. *)
Definition permission_mark_promoted (s : Permission) (c : AuthorityContext) (prepared : LogId) (now : Instant)
  : Permission * bool :=
  let '(s, expired) := seal_expired s now in
  if expired then (s, false)
  else match s with
       | Active current (Joining operation) until =>
           if bool_decide (current = c) && bool_decide (operation = prepared)
           then (Active current Voting until, true) else (s, false)
       | _ => (s, false)
       end.

(** [RuntimePermission::renew]. *)
Definition renew (s : Permission) (c : AuthorityContext) (until now : Instant) : Permission * bool :=
  let '(s, expired) := seal_expired s now in
  if expired then (s, false)
  else match s with
       | Active current Voting previous =>
           if bool_decide (current = c) && (previous <=? until)%N
           then (if (previous <? until)%N then Active c Voting until else s, true)
           else (s, false)
       | _ => (s, false)
       end.

(** [RuntimePermission::current]. *)
Definition current (s : Permission) (now : Instant) : Permission * option (AuthorityContext * Instant) :=
  let s := (seal_expired s now).1 in
  (s, match s with Active c _ until => Some (c, until) | _ => None end).

(** [RuntimePermission::seal]. *)
Definition seal (s : Permission) : Permission * bool := (Sealed, negb (bool_decide (s = Sealed))).

(** ** [RuntimeAuthority] *)

Record RuntimeAuthority := mkRuntimeAuthority {
  auth_local : ReplicaId;
  permission : Permission;
  join_binding : option JoinBinding
}.

#[global] Instance RuntimeAuthority_eta : Eta RuntimeAuthority := λ a,
  mkRuntimeAuthority (auth_local a) (permission a) (join_binding a).

Section authority.
Context {O : Openraft} (sha256 : list N → list N).

(** [RuntimeAuthority::new]. *)
Definition authority_new (local : ReplicaId) (timing : LeaseTiming) (boot : Instant) : option RuntimeAuthority :=
  until ← deadline boot (restart_quarantine timing);
  Some (mkRuntimeAuthority local (Quarantined until) None).

(** [RuntimeAuthority::identity]. *)
Definition identity (a : RuntimeAuthority) (c : AdmissionContext) : AuthorityContext :=
  mkAuthorityContext (boot_nonce (auth_local a)) (epoch (context_genesis c))
    (digest sha256 (context_genesis c)) 1.

(** [AdmissionFence::check] of the authority: the state afterwards and the deadline. *)
Definition authority_check (a : RuntimeAuthority) (expected : AdmissionContext) (now : Instant)
  : RuntimeAuthority * Result Instant AdmissionDenied :=
  let '(p, answer) := current (permission a) now in
  let a := a <| permission := p |> in
  (a, match answer with
      | None => Err (mkAdmissionDenied "runtime has no active admission")
      | Some (c, until) =>
          if negb (bool_decide (local_replica expected = auth_local a))
             || negb (bool_decide (c = identity a expected))
          then Err (mkAdmissionDenied "runtime authority context mismatch")
          else Ok until
      end).

(** The permission transition of [accept] for each mode. *)
Definition accept_transition (a : RuntimeAuthority) (v : VerifiedAdmission) (now : Instant)
  : Result (RuntimeAuthority * bool) AdmissionDenied :=
  let c := identity a (verified_context v) in
  match verified_mode v with
  | Cold =>
      let '(p, accepted) := permission_admit (permission a) c (verified_deadline v) now in
      Ok (a <| permission := p |>, accepted)
  | Join (Some b) =>
      if match join_binding a with Some bound => negb (bool_decide (bound = b)) | None => false end
      then Err (mkAdmissionDenied "join differs from the admitted operation")
      else
        let '(p, accepted) := join (permission a) c (binding_log_id b) (verified_deadline v) now in
        let a := a <| permission := p |> in
        Ok (if accepted then a <| join_binding := Some b |> else a, accepted)
  | Renew (Some _) =>
      let '(p, accepted) := renew (permission a) c (verified_deadline v) now in
      Ok (a <| permission := p |>, accepted)
  | _ => Ok (a, false)
  end.

(** The authority as an [AdmissionFence], at its present state. *)
Definition fence_of (a : RuntimeAuthority) : AdmissionFence := {|
  fence_local_replica := auth_local a;
  fence_check now expected := (authority_check a expected now).2
|}.

(** [RuntimeAuthority::accept]: the transition, then a session over the authority,
    whose check reads the clock at [check_now] and may seal it. *)
Definition accept (a : RuntimeAuthority) (v : VerifiedAdmission) (now check_now : Instant)
  : RuntimeAuthority * Result AdmissionSession AdmissionDenied :=
  let expected := verified_context v in
  if negb (bool_decide (local_replica expected = auth_local a))
  then (a, Err (mkAdmissionDenied "admission result belongs to another runtime"))
  else
    match accept_transition a v now with
    | Err e => (a, Err e)
    | Ok (a, false) => (a, Err (mkAdmissionDenied "runtime cannot accept this admission transition"))
    | Ok (a, true) =>
        ((authority_check a expected check_now).1, session_new expected (fence_of a) check_now)
    end.

(** The order conditions of [mark_promoted] on the acknowledgement, the promotion,
    the membership entry and the applied index. *)
Definition promotion_ordered (prep ack : LogId) (promoted_at membership_log : LogId)
    (last_applied : option LogId) : bool :=
  negb (index ack <=? index prep)%N
  && negb (index promoted_at <=? index ack)%N
  && negb (index membership_log <? index promoted_at)%N
  && negb ((index membership_log =? index promoted_at)%N
           && negb (bool_decide (membership_log = promoted_at)))
  && match last_applied with
     | None => false
     | Some last =>
         negb ((index last <? index membership_log)%N
               || ((index last =? index membership_log)%N && negb (bool_decide (last = membership_log))))
     end.

(** [RuntimeAuthority::mark_promoted]; the readings of its three checks, with no await
    between them, are the one instant [now]. *)
Definition mark_promoted (a : RuntimeAuthority) (p : PreparedJoin) (state : KafStorageState) (now : Instant)
  : RuntimeAuthority * Result unit AdmissionDenied :=
  match plan_validate (plan p) with
  | Err e => (a, Err e)
  | Ok _ =>
      let expected := mkAdmissionContext (consumer (plan p)) (plan_genesis (plan p)) in
      let '(a, checked) := authority_check a expected now in
      match
        checked ;?
        match admission state with
        | None => Err (mkAdmissionDenied "promotion requires local admission")
        | Some session =>
            session_check session now ;?
            match learner_applied p with
            | None => Err (mkAdmissionDenied "promotion requires committed learner acknowledgement")
            | Some acknowledged =>
                match membership_log_id (last_membership state) with
                | None => Err (mkAdmissionDenied "promotion requires committed final membership")
                | Some membership_log =>
                    match completed_joins state !! physical_id (auth_local a) with
                    | None => Err (mkAdmissionDenied "promotion requires the committed completion receipt")
                    | Some completed =>
                        let m := membership (last_membership state) in
                        if negb (bool_decide (context session = expected))
                           || negb (bool_decide (state_genesis state = Some (context_genesis expected)))
                           || negb (bool_decide (join_binding a = Some (from_prepared sha256 p)))
                           || negb (bool_decide (completed_prepared completed = p))
                           || match prepared_join state with
                              | Some pending => bool_decide (prepared pending = prepared p)
                                                && bool_decide (plan pending = plan p)
                              | None => false
                              end
                           || bool_decide (joint_config m = [])
                           || existsb (λ vs, negb (bool_decide (auth_local a ∈ vs))) (joint_config m)
                           || negb (length (filter (λ r, physical_id r = physical_id (auth_local a))
                                              (voter_ids m)) =? 1)
                           || negb (promotion_ordered (prepared p) acknowledged (promoted completed)
                                      membership_log (last_applied_log state))
                        then Err (mkAdmissionDenied "promotion differs from locally applied join completion")
                        else Ok tt
                    end
                end
            end
        end
      with
      | Err e => (a, Err e)
      | Ok _ =>
          let '(q, done) := permission_mark_promoted (permission a) (identity a expected) (prepared p) now in
          (a <| permission := q |>,
           if done then Ok tt
           else Err (mkAdmissionDenied "runtime is not this operation's active learner"))
      end
  end.

End authority.
