(* ===== verification/LeaseTheorems.v ===== *)
(** * Theorems about the lease and the local permission

    The lifetimes have the ratios the clock argument needs, the permission
    never comes back once sealed and never changes its context, and what the
    authority reports is the deadline of an admission it accepted. *)

From S2P Require Import Prelude Io Text Encoding Replica Openraft Admission Types VipLogic State StoreMembership.
From S2P Require Import Config Fingerprint Auth Controller Lease.

(** ** Lifetimes *)

Lemma checked_mul_Some d k r : duration_checked_mul d k = Some r → r = (d * k)%N ∧ (r ≤ duration_max)%N.
Proof. unfold duration_checked_mul. case_match eqn:H; [|done]. apply N.leb_le in H. by intros [= <-]. Qed.

Lemma checked_add_Some d e r : duration_checked_add d e = Some r → r = (d + e)%N ∧ (r ≤ duration_max)%N.
Proof. unfold duration_checked_add. case_match eqn:H; [|done]. apply N.leb_le in H. by intros [= <-]. Qed.

Lemma lease_new_ok use cleanup t :
  lease_new use cleanup = Ok t →
  (0 < consumer_use t)%N ∧ consumer_use t = use ∧
  issuer_reservation t = (2 * consumer_use t)%N ∧
  restart_quarantine t = (2 * issuer_reservation t)%N ∧
  vip_activation_delay t = (2 * (consumer_use t + cleanup))%N.
Proof.
  unfold lease_new. destruct (N.eqb_spec use 0) as [|Huse]; [done|].
  destruct (duration_checked_mul use _) as [r|] eqn:Hr; [|done].
  destruct (duration_checked_mul r _) as [q|] eqn:Hq; [|done].
  destruct (duration_checked_add use cleanup) as [d|] eqn:Hd; [|done]. cbn [mbind option_bind].
  destruct (duration_checked_mul d _) as [v|] eqn:Hv; [|done]. intros [= <-]. cbn.
  apply checked_mul_Some in Hr as [-> _], Hq as [-> _], Hv as [-> _].
  apply checked_add_Some in Hd as [-> _]. unfold CLOCK_RATE_RATIO. split_and!; lia.
Qed.

(** The durations a configuration's fields describe, and what [for_config] derives. *)
Lemma for_config_ok cfg n t :
  for_config cfg n = Ok t →
  ∃ use cleanup t0, lease_new use cleanup = Ok t0 ∧
    t = t0 <| rpc_budget := rpc_budget t |> <| renewal_interval := renewal_interval t |>
           <| renewal_round_budget := renewal_round_budget t |> ∧
    (probe_cadence_lifetime (interval_ms (health cfg)) (effective_stale_missed_probes (health cfg)) ≤ use)%N ∧
    cleanup = (SHUTDOWN_VIP_BUDGET * n + RECONCILE_TICK)%N ∧
    (2 * from_millis (3 * election_timeout_max_ms (raft cfg) + 2 * election_timeout_min_ms (raft cfg))
       + 4 * renewal_round_budget t + 2 * renewal_interval t ≤ use)%N ∧
    renewal_round_budget t = (rpc_budget t * (N.of_nat (length (peers cfg)) + 4))%N.
Proof.
  unfold for_config. destruct (u32_max <? n)%N; [done|].
  destruct (duration_checked_mul SHUTDOWN_VIP_BUDGET n) as [d|] eqn:Hd; [|done]. cbn [mbind option_bind].
  destruct (duration_checked_add d RECONCILE_TICK) as [cleanup|] eqn:Hc; [|done].
  destruct (duration_checked_mul (from_millis _) 3) as [e1|] eqn:He1; [|done]. cbn [mbind option_bind].
  destruct (duration_checked_add e1 _) as [e2|] eqn:He2; [|done]. cbn [mbind option_bind].
  destruct (duration_checked_add e2 _) as [election|] eqn:He3; [|done].
  destruct (_ || _); [done|].
  destruct (duration_checked_mul (N.min _ _) _) as [round|] eqn:Hround; [|done].
  destruct (duration_checked_mul election _) as [r1|] eqn:Hr1; [|done]. cbn [mbind option_bind].
  destruct (duration_checked_add r1 _) as [r2|] eqn:Hr2; [|done]. cbn [mbind option_bind].
  destruct (duration_checked_add r2 _) as [recovery|] eqn:Hr3; [|done].
  destruct (lease_new _ cleanup) as [t0|] eqn:Hnew; [|done]. intros [= <-].
  apply checked_mul_Some in Hd as [-> _], He1 as [-> _], Hround as [-> _], Hr1 as [-> _].
  apply checked_add_Some in Hc as [-> _], He2 as [-> _], He3 as [-> _], Hr2 as [-> _], Hr3 as [-> _].
  eexists _, _, t0. split; [exact Hnew|]. destruct t0 as [u r q v b i o].
  split_and!; [done|lia|done| |done].
  unfold from_millis, CLOCK_RATE_RATIO, set_field. cbn [renewal_round_budget renewal_interval].
  match goal with |- context [(N.min ?a ?b * ?c)%N] => generalize (N.min a b * c)%N; intros round end.
  clear Hnew. generalize (probe_cadence_lifetime (interval_ms (health cfg))
    (effective_stale_missed_probes (health cfg))). intros window.
  generalize (window / 4)%N (heartbeat_interval_ms (raft cfg) * 1000000 * 3 / 2)%N. lia.
Qed.

(** The products written with [*], which would panic on overflow, stay below the
    greatest duration for every value of the configuration's types. *)
Lemma for_config_products (heartbeat election_min window slots : N) :
  (heartbeat ≤ u64_max)%N → (election_min ≤ u64_max)%N → (window ≤ duration_max)%N → (slots ≤ u32_max)%N →
  (from_millis heartbeat * 3 ≤ duration_max)%N ∧ (from_millis election_min * 2 ≤ duration_max)%N ∧
  (N.min (window / 6) (from_millis 500) * slots * 4 ≤ duration_max)%N ∧ (window / 4 * 2 ≤ duration_max)%N.
Proof.
  intros Hh He Hw Hs.
  assert (window / 4 ≤ window / 2)%N by (apply N.div_le_compat_l; lia).
  assert (window / 2 * 2 ≤ window)%N by (rewrite N.mul_comm; apply N.Div0.mul_div_le).
  assert (N.min (window / 6) (from_millis 500) * slots ≤ 500000000 * u32_max)%N.
  { apply N.mul_le_mono; [unfold from_millis; lia|done]. }
  unfold from_millis, duration_max, u64_max, u32_max in *. split_and!; lia.
Qed.

(** ** The permission *)

(** One operation on the permission at the instant [now]. *)
Inductive perm_step (now : Instant) : Permission → Permission → Prop :=
| step_admit s c until : perm_step now s (permission_admit s c until now).1
| step_join s c p until : perm_step now s (join s c p until now).1
| step_promoted s c p : perm_step now s (permission_mark_promoted s c p now).1
| step_renew s c until : perm_step now s (renew s c until now).1
| step_current s : perm_step now s (current s now).1
| step_seal s : perm_step now s (seal s).1.

(** What an operation may do: seal; keep the state; leave quarantine once it has
    elapsed, with a deadline in the future; or, before expiry, extend the
    deadline and promote within the same context. *)
Definition perm_allowed (now : Instant) (s t : Permission) : Prop :=
  t = Sealed ∨ (s = t ∧ ∀ c st u, s = Active c st u → (now < u)%N) ∨
  (∃ ready c st until, s = Quarantined ready ∧ t = Active c st until ∧ (ready ≤ now < until)%N) ∨
  (∃ c st st' u u', s = Active c st u ∧ t = Active c st' u' ∧ (now < u ≤ u')%N ∧
     (st = Voting → st' = Voting)).

Lemma seal_expired_allowed s now :
  seal_expired s now = (Sealed, true) ∨
  seal_expired s now = (s, false) ∧ ∀ c st u, s = Active c st u → (now < u)%N.
Proof.
  unfold seal_expired. destruct s as [r|c st u|]; [by right|..|by right].
  destruct (N.leb_spec u now); [by left|right]. split; [done|]. by intros ??? [= <- <- <-].
Qed.

Lemma perm_step_allowed now s t : perm_step now s t → perm_allowed now s t.
Proof.
  assert (Hkeep : ∀ s' : Permission, (∀ c st u, s' = Active c st u → (now < u)%N) → perm_allowed now s' s').
  { intros s' H. right. left. auto. }
  assert (Hgrow : ∀ c st st' u u', (now < u ≤ u')%N → (st = Voting → st' = Voting) →
    perm_allowed now (Active c st u) (Active c st' u')).
  { intros. do 3 right. eauto 10. }
  assert (Hstart : ∀ r c st u, (r ≤ now < u)%N → perm_allowed now (Quarantined r) (Active c st u)).
  { intros. right. right. left. eauto 8. }
  intros [s' c u|s' c p u|s' c p|s' c u|s'|s'].
  - unfold permission_admit. destruct s' as [r|d st u0|]; [| |by left].
    + destruct (N.leb_spec r now), (N.ltb_spec now u); cbn; auto; by apply Hkeep.
    + destruct (seal_expired_allowed (Active d st u0) now) as [->|[-> Hu]]; [by left|by apply Hkeep].
  - unfold join. destruct (seal_expired_allowed s' now) as [->|[-> Hu]]; [by left|].
    destruct s' as [r|d [q|] u0|]; cbn; [|..|by apply Hkeep].
    + destruct (N.leb_spec r now), (N.ltb_spec now u); cbn; auto; by apply Hkeep.
    + pose proof (Hu _ _ _ eq_refl). case_bool_decide; [|by apply Hkeep]. case_bool_decide; [|by apply Hkeep].
      subst. cbn. destruct (N.ltb_spec u0 u); [|by apply Hkeep]. apply Hgrow; [lia|done].
    + by apply Hkeep.
  - unfold permission_mark_promoted. destruct (seal_expired_allowed s' now) as [->|[-> Hu]]; [by left|].
    destruct s' as [r|d [q|] u0|]; cbn; [by apply Hkeep| |by apply Hkeep..].
    pose proof (Hu _ _ _ eq_refl). case_bool_decide; [|by apply Hkeep]. case_bool_decide; [|by apply Hkeep].
    apply Hgrow; [lia|done].
  - unfold renew. destruct (seal_expired_allowed s' now) as [->|[-> Hu]]; [by left|].
    destruct s' as [r|d [q|] u0|]; cbn; [by apply Hkeep..| |by apply Hkeep].
    pose proof (Hu _ _ _ eq_refl). case_bool_decide; [|by apply Hkeep]. subst d.
    destruct (N.leb_spec u0 u); [|by apply Hkeep]. cbn. destruct (N.ltb_spec u0 u); [|by apply Hkeep].
    apply Hgrow; [lia|done].
  - unfold current. destruct (seal_expired_allowed s' now) as [->|[-> Hu]]; [by left|by apply Hkeep].
  - by left.
Qed.

(** A history of operations, with clock readings that do not go back. *)
Inductive perm_run : Instant → Permission → Instant → Permission → Prop :=
| perm_nil t s : perm_run t s t s
| perm_cons t s now s' t' s'' :
    (t ≤ now)%N → perm_step now s s' → perm_run now s' t' s'' → perm_run t s t' s''.

Lemma perm_run_le t s t' s' : perm_run t s t' s' → (t ≤ t')%N.
Proof. induction 1; lia. Qed.

Lemma perm_run_sealed t t' s' : perm_run t Sealed t' s' → s' = Sealed.
Proof.
  remember Sealed as s eqn:Hs. induction 1 as [|t s now s1 t' s'' _ Hstep _ IH]; [done|]. subst s.
  apply perm_step_allowed in Hstep as [->|[[<- _]|[(?&?&?&?&[=]&_)|(?&?&?&?&?&[=]&_)]]]; by apply IH.
Qed.

(** Local authority is one-shot.  A permission that was active stays active
    only within the same context, with a deadline that never moves back and
    that the last clock reading had not reached, without losing the voting
    stage; once sealed it stays sealed; and a permission still in quarantine becomes
    active only after the quarantine. *)
Theorem authority_is_terminal (t t' : Instant) (s s' : Permission) :
  perm_run t s t' s' →
  (s = Sealed → s' = Sealed) ∧
  (∀ c st u, s = Active c st u →
     s' = Sealed ∨ ∃ st' u', s' = Active c st' u' ∧ (u ≤ u')%N ∧ (st = Voting → st' = Voting) ∧
                             (t < t' → t' < u')%N) ∧
  (∀ ready c st u, s = Quarantined ready → s' = Active c st u → (ready ≤ t')%N).
Proof.
  intros Hrun. split_and!; [intros ->; by eapply perm_run_sealed| |].
  - induction Hrun as [t s|t s now s1 t' s'' Ht Hstep Hrun IH]; intros c st u ->.
    { right. exists st, u. split_and!; auto; lia. }
    apply perm_run_le in Hrun as Hle.
    apply perm_step_allowed in Hstep
      as [->|[[<- Hu]|[(?&?&?&?&[=]&_)|(c1&st1&st1'&u1&u1'&[= <- <- <-]&->&Hu&Hst)]]].
    + left. by eapply perm_run_sealed.
    + specialize (Hu _ _ _ eq_refl).
      destruct (IH c st u eq_refl) as [?|(st'&u'&?&?&?&?)]; [by left|right].
      exists st', u'. split_and!; auto; lia.
    + destruct (IH c st1' u1' eq_refl) as [?|(st'&u'&?&?&?&?)]; [by left|right].
      exists st', u'. split_and!; auto; lia.
  - induction Hrun as [t s|t s now s1 t' s'' Ht Hstep Hrun IH]; intros ready c st u -> Hs'; [done|].
    apply perm_run_le in Hrun as Hle.
    apply perm_step_allowed in Hstep as [->|[[<- _]|[(r&c1&st1&u1&[= <-]&->&?)|(?&?&?&?&?&[=]&_)]]].
    + apply perm_run_sealed in Hrun. congruence.
    + by eapply IH.
    + lia.
Qed.

Lemma authority_is_terminal_witness :
  let c := mkAuthorityContext [] 7 [] 1 in
  perm_run 6%N (Active c Voting 10%N) 12%N Sealed ∧
  (Sealed = Sealed ∨ ∃ st' u', Sealed = Active c st' u' ∧ (10 ≤ u')%N ∧ (Voting = Voting → st' = Voting) ∧
     (6 < 12 → 12 < u')%N).
Proof.
  intros c.
  assert (H : perm_run 6%N (Active c Voting 10%N) 12%N Sealed).
  { eapply (perm_cons 6%N _ 12%N); [done|apply (step_current 12%N)|]. apply perm_nil. }
  split; [exact H|].
  exact (proj1 (proj2 (authority_is_terminal 6%N 12%N (Active c Voting 10%N) Sealed H)) c Voting 10%N eq_refl).
Defined.
