(* ===== verification/Exclusion.v ===== *)
(** * At most one incarnation has authority

    The argument of the admission protocol, composed: an issuer's reservations
    exclude each other, two physical majorities share a member, a restarted
    member waits out its old grants, and the lifetimes absorb clocks whose
    rates differ by a factor of two.  So at no time do two nodes hold admissions
    for different geneses, and no two storages accept a mutation under
    different geneses. *)

From S2P Require Import Prelude Io Text Encoding Replica Openraft Admission Types VipLogic State StoreMembership.
From S2P Require Import Config Fingerprint Auth Controller Lease LeaseTheorems.

Section issuer.
Context {O : Openraft}.
Context (sock_parse : Text → option SocketAddr) (sha256 : list N → list N).
Context (hmac : list N → option (list N → list N)).
Context (encode : list N * AdmissionRequest → option (list N)).

Local Abbreviation reserve := (reserve sha256 hmac encode).

(** The history of one boot's controller: the grants it issued, newest first,
    with the instant each was reserved, and the last clock reading. *)
Inductive boot_run (c0 : AdmissionController) :
    list (Instant * AdmissionRequest) → Instant → AdmissionController → Prop :=
| run_boot t : boot_run c0 [] t c0
| run_grant es t c signed binding state now check_now c' r :
    boot_run c0 es t c → (t ≤ now)%N →
    reserve c signed binding state now check_now = (c', Ok r) →
    boot_run c0 ((now, record_payload signed) :: es) now c'
| run_refuse es t c signed binding state now check_now c' e :
    boot_run c0 es t c → (t ≤ now)%N →
    reserve c signed binding state now check_now = (c', Err e) →
    boot_run c0 es now c'.

(** A grant made at [u] for [g] is protected until [until]: it has expired by
    the instant [t], or the controller is still reserved for [g] that long. *)
Definition protected (c : AdmissionController) (t until : Instant) (g : Genesis) : Prop :=
  (until ≤ t)%N ∨
  ∃ r, ctl_reservation c = Some r ∧ reserved_genesis r = g ∧ (until ≤ reserved_until r)%N.

(** What a successful [reserve_until] checked. *)
Lemma reserve_until_ok c signed binding state now check_now until :
  reserve_until sha256 hmac encode c signed binding state now check_now = Ok until →
  let g := req_genesis (record_payload signed) in
  (ctl_quarantine_until c ≤ now)%N ∧
  validate_genesis c g = Ok tt ∧
  (∃ d, reservation_deadline (ctl_timing c) now = Ok d ∧ (d ≤ until)%N) ∧
  (∀ r, ctl_reservation c = Some r →
     ((now < reserved_until r)%N → reserved_genesis r = g) ∧
     (reserved_genesis r = g → (reserved_until r ≤ until)%N)).
Proof.
  unfold reserve_until. destruct (verify _ _ _ _ _ _ _ _); [|done].
  destruct (validate_genesis c _) as [[]|] eqn:Hv; [|done].
  case_match; [done|]. destruct (N.ltb_spec now (ctl_quarantine_until c)) as [|Hq]; [done|].
  destruct (match ctl_reservation c with Some _ => _ | None => _ end) eqn:Hres; [done|].
  destruct (reserve_evidence _ _ _ _ _) as [[]|]; [|done].
  destruct (reservation_deadline _ now) as [d|] eqn:Hd; [|done].
  destruct (d <=? now)%N; [done|]. intros [= <-]. split_and!; [done|done| |].
  - exists d. split; [done|]. repeat case_match; lia.
  - intros r Hr. rewrite Hr in Hres |- *. split.
    + intros Hnow. rewrite (proj2 (N.ltb_lt _ _) Hnow) in Hres. cbn in Hres. by guards.
    + intros ->. rewrite bool_decide_true by done. lia.
Qed.

Lemma reserve_shape c signed binding state now check_now c' r :
  reserve c signed binding state now check_now = (c', r) →
  (c' = c ∧ is_err r = true) ∨
  ∃ until, reserve_until sha256 hmac encode c signed binding state now check_now = Ok until ∧
    c' = c <| ctl_reservation := Some (mkReservation (req_genesis (record_payload signed)) until) |>.
Proof. unfold Controller.reserve. case_match; intros [= <- <-]; eauto. Qed.

(** A later step keeps every grant protected. *)
Lemma protected_step c signed binding state now check_now c' r t u until g :
  reserve c signed binding state now check_now = (c', r) → (t ≤ now)%N →
  protected c t until g → u = now → protected c' u until g.
Proof.
  intros Hres Ht Hp ->. destruct Hp as [Hp|(res & Hr & Hg & Hu)]; [left; lia|].
  apply reserve_shape in Hres as [[-> _]|(un & Hun & ->)]; [right; eauto|].
  destruct (decide (until ≤ now)%N); [by left|right].
  apply reserve_until_ok in Hun as (_ & _ & _ & Hex). destruct (Hex _ Hr) as [Hsame Hmax].
  assert (Heq := Hsame ltac:(lia)). specialize (Hmax Heq). subst g.
  eexists. split_and!; [done|done|]. cbn. lia.
Qed.

Definition boot_inv (c0 c : AdmissionController) (es : list (Instant * AdmissionRequest)) (t : Instant) : Prop :=
  ctl_timing c = ctl_timing c0 ∧ ctl_configured c = ctl_configured c0 ∧
  ctl_quarantine_until c = ctl_quarantine_until c0 ∧
  (∀ u q, (u, q) ∈ es → (ctl_quarantine_until c0 ≤ u ≤ t)%N ∧ ∃ d,
     reservation_deadline (ctl_timing c0) u = Ok d ∧ protected c t d (req_genesis q)) ∧
  (∀ u q u' q' d, (u, q) ∈ es → (u', q') ∈ es → (u ≤ u')%N →
     reservation_deadline (ctl_timing c0) u = Ok d → (u' < d)%N → req_genesis q = req_genesis q').

Lemma boot_run_inv c0 es t c : boot_run c0 es t c → boot_inv c0 c es t.
Proof.
  induction 1 as [t|es t c signed binding state now cn c' r _ IH Ht Hres
                 |es t c signed binding state now cn c' e _ IH Ht Hres].
  - unfold boot_inv. split_and!; [done..| |]; intros *; by intros ?%not_elem_of_nil.
  - destruct IH as (Htm & Hcf & Hq & Hgr & Hex).
    pose proof (reserve_shape _ _ _ _ _ _ _ _ Hres) as [[_ ?]|(un & Hun & Hc')]; [done|].
    apply reserve_until_ok in Hun as (Hq' & _ & (d & Hd & Hdu) & Hr).
    assert (Hnew : protected c' now d (req_genesis (record_payload signed))).
    { right. subst c'. eexists. split_and!; [done|done|]. done. }
    unfold boot_inv. subst c'. cbn [ctl_timing ctl_configured ctl_quarantine_until set_field].
    split_and!; [done|done|done| |].
    + intros u q [[= -> ->]|Hin]%elem_of_cons.
      * split; [rewrite <- Hq; lia|]. exists d. by rewrite <- Htm.
      * destruct (Hgr _ _ Hin) as [? (d' & Hd' & Hp)]. split; [lia|]. exists d'. split; [done|].
        exact (protected_step _ _ _ _ _ _ _ _ _ _ _ _ Hres Ht Hp eq_refl).
    + intros u q u' q' d0 [[= -> ->]|Hin]%elem_of_cons [[= -> ->]|Hin']%elem_of_cons Hu Hd0 Hlt.
      * done.
      * destruct (Hgr _ _ Hin') as [Hb (d' & Hd' & Hp)]. assert (u' = now) as -> by lia.
        rewrite Hd0 in Hd'. injection Hd' as <-. destruct Hp as [|(r0 & Hr0 & <- & Hle)]; [lia|].
        by rewrite (proj1 (Hr _ Hr0)) by lia.
      * destruct (Hgr _ _ Hin) as [_ (d' & Hd' & Hp)]. rewrite Hd0 in Hd'. injection Hd' as <-.
        destruct Hp as [|(r0 & Hr0 & <- & Hle)]; [lia|]. by apply (proj1 (Hr _ Hr0)); lia.
      * by eapply Hex.
  - destruct IH as (Htm & Hcf & Hq & Hgr & Hex).
    assert (Hp : ∀ u q, (u, q) ∈ es → (ctl_quarantine_until c0 ≤ u ≤ now)%N ∧ ∃ d,
      reservation_deadline (ctl_timing c0) u = Ok d ∧ protected c' now d (req_genesis q)).
    { intros u q Hin. destruct (Hgr _ _ Hin) as [? (d' & Hd' & Hp)]. split; [lia|]. exists d'.
      split; [done|]. exact (protected_step _ _ _ _ _ _ _ _ _ _ _ _ Hres Ht Hp eq_refl). }
    unfold boot_inv. apply reserve_shape in Hres as [[-> _]|(un & _ & ->)]; by split_and!.
Qed.
End issuer.

(** ** The consumer's quorum *)

Section consumer.
Context (hmac : list N → option (list N → list N)).
Context (encode : list N * AdmissionRequest → option (list N)).

(** The physical issuers [collect_grants] counts are configured and each sent a
    grant of this very request. *)
Definition quorum_of (c : AdmissionController) (req : AdmissionRequest) (grants : list ReceivedGrant)
    (ps : gset N) : Prop :=
  ps ⊆ ctl_configured c ∧
  ∀ p, p ∈ ps → ∃ rg, rg ∈ grants ∧ physical_id (sender (received_record rg)) = p ∧
    record_payload (received_record rg) = req ∧ sender (received_record rg) = received_issuer rg.

Lemma verify_ok {T} (enc : list N * T → option (list N)) r secret role from to binding :
  verify hmac enc r secret role from to binding = Ok tt → sender r = from.
Proof. unfold verify. case_match eqn:H; [done|]. guards. done. Qed.

Lemma collect_grants_quorum c req all gs ps ex ps' ex' :
  gs ⊆ all → quorum_of c req all ps →
  collect_grants hmac encode c req gs ps ex = Ok (ps', ex') → quorum_of c req all ps'.
Proof.
  revert ps ex. induction gs as [|g gs IH]; intros ps ex Hall Hq; cbn [collect_grants].
  { by intros [= <- <-]. }
  destruct (verify _ _ _ _ _ _ _ _) as [[]|] eqn:Hv; [|done]. apply verify_ok in Hv.
  destruct (negb _ || _ || _) eqn:Hg; [done|]. guards. intros Hc. eapply IH; [set_solver| |exact Hc].
  destruct Hq as [Hsub Hq]. split; [set_solver|]. intros p [->%elem_of_singleton|Hp]%elem_of_union.
  - exists g. split_and!; [set_solver|done|done|done].
  - by apply Hq.
Qed.

(** What [complete] checked. *)
Lemma complete_ok c round grants now round' v :
  complete hmac encode c round grants now = (round', Ok v) →
  verified_context v = mkAdmissionContext (ctl_local c) (req_genesis (round_request round)) ∧
  verified_deadline v = round_deadline round ∧ (now < verified_deadline v)%N ∧
  ∃ ps, quorum_of c (round_request round) grants ps ∧ size (ctl_configured c) / 2 < size ps.
Proof.
  unfold complete. case_match; [done|]. destruct (_ || _) eqn:Hopen; [done|]. guards.
  destruct (complete_open _ _ _ _ _) as [v'|] eqn:Ho; [|done]. intros [= _ <-]. unfold complete_open in Ho.
  destruct (negb _); [done|]. destruct (collect_grants _ _ _ _ _ _ _) as [[ps ex]|] eqn:Hc; [|done].
  cbn [fst snd] in Ho. destruct (Nat.leb_spec (size ps) (size (ctl_configured c) / 2)); [done|].
  destruct (_ && _); [done|]. injection Ho as <-. cbn. n_compare. split_and!; [done|done|done|].
  exists ps. split; [|done]. eapply collect_grants_quorum; [| |exact Hc]; [done|].
  split; [set_solver|]. intros p Hp%elem_of_empty. done.
Qed.

(** Two physical majorities of one roster share a member. *)
Lemma majorities_meet (roster ps qs : gset N) :
  ps ⊆ roster → qs ⊆ roster → size roster / 2 < size ps → size roster / 2 < size qs →
  ∃ p, p ∈ ps ∧ p ∈ qs.
Proof.
  intros Hp Hq Sp Sq. destruct (decide (ps ∩ qs = ∅)) as [He|Hne].
  - exfalso. assert (Hd : ps ## qs) by set_solver.
    assert (size (ps ∪ qs) = size ps + size qs) by by apply size_union.
    assert (size (ps ∪ qs) ≤ size roster) by (apply subseteq_size; set_solver).
    pose proof (Nat.div_mod_eq (size roster) 2). pose proof (Nat.mod_upper_bound (size roster) 2). lia.
  - apply set_choose_L in Hne as [p Hin]. exists p. set_solver.
Qed.
End consumer.

(** ** The cluster in real time *)

(** Boots of the members over real time: their local clocks, when they started,
    their configurations, and the grants they issued with the real time of each. *)
Record World := mkWorld {
  clock : ReplicaId → N → Instant;
  booted : ReplicaId → N;
  boot_config : ReplicaId → Config;
  granted : ReplicaId → list (N * AdmissionRequest)
}.

Section cluster.
Context {O : Openraft}.
Context (sock_parse : Text → option SocketAddr) (sha256 : list N → list N).
Context (hmac : list N → option (list N → list N)).
Context (encode : list N * AdmissionRequest → option (list N)).
Context (roster : gset N) (lease : LeaseTiming).

Local Abbreviation timing := (lease_admission_timing lease).

(** What the protocol assumes of the world: clocks advance and no clock runs more
    than twice as fast as another; every issuer runs the controller, over the
    same roster; and a member's boots do not overlap. *)
Record world_ok (w : World) : Prop := {
  clocks_advance b t t' : (t ≤ t' → clock w b t ≤ clock w b t')%N;
  clocks_bounded b b' t t' :
    (t ≤ t' → clock w b t' - clock w b t ≤ CLOCK_RATE_RATIO * (clock w b' t' - clock w b' t))%N;
  issuers_run b : granted w b ≠ [] →
    list_to_set (peer_id <$> peers (boot_config w b)) = roster ∧
    ∃ c0 t c,
      controller_new sock_parse sha256 (boot_config w b) b (clock w b (booted w b)) timing = Ok c0 ∧
      boot_run sha256 hmac encode c0 ((λ tq, (clock w b tq.1, tq.2)) <$> granted w b) t c;
  grants_after_boot b t q : (t, q) ∈ granted w b → (booted w b ≤ t)%N;
  boots_sequential b b' : physical_id b = physical_id b' → b ≠ b' →
    (∀ t q, (t, q) ∈ granted w b → (t ≤ booted w b')%N) ∨
    (∀ t q, (t, q) ∈ granted w b' → (t ≤ booted w b)%N)
}.

(** A round as [begin] opened it, with the evidence bound to it since. *)
Inductive round_of (r0 : AdmissionRound) : AdmissionRound → Prop :=
| round_begun : round_of r0 r0
| round_progress r applied now r' :
    round_of r0 r → bind_progress r applied now = Ok r' → round_of r0 r'
| round_prepared r p now r' :
    round_of r0 r → bind_prepared sha256 r p now = Ok r' → round_of r0 r'.

Lemma round_of_keeps r0 r :
  round_of r0 r → round_deadline r = round_deadline r0 ∧
    req_genesis (round_request r) = req_genesis (round_request r0).
Proof.
  induction 1 as [|r applied now r' _ [IH1 IH2] H|r p now r' _ [IH1 IH2] H]; [done|..].
  - unfold bind_progress in H. case_match; [done|]. by injection H as <-.
  - unfold bind_prepared in H. destruct (plan_validate (plan p)); [|done]. case_match; [done|].
    by injection H as <-.
Qed.

(** An admission the boot [r] obtained: the round was begun at the real time [s]
    and completed at [e], and every grant it counted was issued in between (the
    nonce of the request did not exist before, and signatures are not forged). *)
Definition certified (w : World) (r : ReplicaId) (v : VerifiedAdmission) (s e : N) : Prop :=
  ∃ cfg boot c0 es t c g mode entropy r0 round grants round',
    list_to_set (peer_id <$> peers cfg) = roster ∧
    controller_new sock_parse sha256 cfg r boot timing = Ok c0 ∧
    boot_run sha256 hmac encode c0 es t c ∧
    begin c g mode (clock w r s) entropy = Ok r0 ∧ round_of r0 round ∧
    complete hmac encode c round grants (clock w r e) = (round', Ok v) ∧
    ∀ rg, rg ∈ grants → ∃ t, (s ≤ t ≤ e)%N ∧
      (t, record_payload (received_record rg)) ∈ granted w (sender (received_record rg)).

Lemma controller_new_ok cfg local boot tm c :
  controller_new sock_parse sha256 cfg local boot tm = Ok c →
  ctl_configured c = list_to_set (peer_id <$> peers cfg) ∧ ctl_timing c = tm ∧ ctl_local c = local ∧
  quarantine_deadline tm boot = Ok (ctl_quarantine_until c).
Proof.
  unfold controller_new. case_match; [done|]. destruct (cluster_config_fingerprint _ _ _); [|done].
  destruct (quarantine_deadline tm boot) as [q|] eqn:Hq; [|done]. by intros [= <-].
Qed.

Lemma boot_run_local c0 es t c : boot_run sha256 hmac encode c0 es t c → ctl_local c = ctl_local c0.
Proof.
  induction 1 as [|es t c signed b st now cn c' r _ IH _ Hres|es t c signed b st now cn c' e _ IH _ Hres];
    [done|..]; by apply reserve_shape in Hres as [[-> _]|(? & _ & ->)].
Qed.

Lemma or_denied_ok {A} (x : option A) e a : or_denied x e = Ok a → x = Some a.
Proof. unfold or_denied. case_match; [|done]. by intros [= ->]. Qed.

Lemma deadline_ok start life d : deadline start life = Some d → d = (start + life)%N.
Proof. apply instant_checked_add_Some. Qed.

(** A certified admission: its window and its issuers. *)
Lemma certified_ok w r v s e :
  certified w r v s e →
  local_replica (verified_context v) = r ∧
  verified_deadline v = (clock w r s + consumer_use lease)%N ∧
  ∃ ps, ps ⊆ roster ∧ size roster / 2 < size ps ∧
    ∀ p, p ∈ ps → ∃ b t q, physical_id b = p ∧ (s ≤ t ≤ e)%N ∧ (t, q) ∈ granted w b ∧
      req_genesis q = context_genesis (verified_context v).
Proof.
  intros (cfg & boot & c0 & es & t & c & g & mode & en & r0 & round & grants & round' &
          Hroster & Hnew & Hrun & Hbegin & Hround & Hcomplete & Hissued).
  apply controller_new_ok in Hnew as (Hcf & Htm & Hlocal & _).
  pose proof (boot_run_local _ _ _ _ Hrun) as Hloc.
  apply boot_run_inv in Hrun as (Htm' & Hcf' & _).
  apply complete_ok in Hcomplete as (Hctx & Hdl & _ & ps & [Hsub Hq] & Hsize).
  apply round_of_keeps in Hround as [Hdl' Hg].
  unfold begin in Hbegin. destruct (match mode with Join (Some _) | Renew (Some _) => true | _ => false end); [done|].
  destruct (validate_genesis c g); [|done]. destruct (_ <? _)%N; [done|].
  destruct (consumer_deadline (ctl_timing c) (clock w r s)) as [d|] eqn:Hd; [|done].
  destruct en; [|done]. injection Hbegin as <-. cbn in Hdl', Hg.
  rewrite Htm', Htm in Hd. apply or_denied_ok, deadline_ok in Hd.
  rewrite Hctx. cbn [local_replica context_genesis]. split_and!; [congruence|congruence|].
  rewrite Hcf', Hcf, Hroster in Hsub, Hsize. exists ps. split_and!; [done|done|].
  intros p Hp. destruct (Hq p Hp) as (rg & Hin & Hphys & Hpay & Hsender).
  destruct (Hissued rg Hin) as (u & Hu & Hgr). rewrite Hpay in Hgr. eauto 10.
Qed.

(** What the history of an issuer gives about one of its grants. *)
Lemma grant_protected w b t q :
  world_ok w → (t, q) ∈ granted w b →
  (clock w b (booted w b) + restart_quarantine lease ≤ clock w b t)%N ∧
  ∀ t' q', (t', q') ∈ granted w b → (clock w b t ≤ clock w b t')%N →
    (clock w b t' < clock w b t + issuer_reservation lease)%N → req_genesis q = req_genesis q'.
Proof.
  intros Hw Hin. destruct (issuers_run w Hw b) as (_ & c0 & u & c & Hnew & Hrun).
  { intros He. rewrite He in Hin. by apply not_elem_of_nil in Hin. }
  apply controller_new_ok in Hnew as (_ & Htm & _ & Hquar).
  apply or_denied_ok, deadline_ok in Hquar.
  apply boot_run_inv in Hrun as (_ & _ & _ & Hgr & Hex).
  assert (Hmap : ∀ t q, (t, q) ∈ granted w b →
    (clock w b t, q) ∈ ((λ tq : N * AdmissionRequest, (clock w b tq.1, tq.2)) <$> granted w b)).
  { intros t0 q0 H0. by apply (list_elem_of_fmap_2 (λ tq : N * AdmissionRequest, (clock w b tq.1, tq.2)) _ _ H0). }
  destruct (Hgr _ _ (Hmap _ _ Hin)) as [Hb (d & Hd & _)]. split; [lia|].
  intros t' q' Hin' Hle Hlt. eapply Hex; [by apply Hmap..|done|exact Hd|].
  rewrite Htm in Hd. apply or_denied_ok, deadline_ok in Hd. lia.
Qed.

(** The lease comes from a configuration, so the lifetimes have their ratios. *)
Definition lease_derived : Prop := ∃ cfg n, for_config cfg n = Ok lease.

Lemma lease_ratios :
  lease_derived →
  (0 < consumer_use lease)%N ∧ issuer_reservation lease = (2 * consumer_use lease)%N ∧
  restart_quarantine lease = (4 * consumer_use lease)%N.
Proof.
  intros (cfg & n & H). apply for_config_ok in H as (use & cleanup & t0 & Hnew & Ht & _).
  apply lease_new_ok in Hnew as (Hpos & _ & Hres & Hquar & _).
  rewrite Ht. destruct t0. cbn in *. split_and!; [done|done|lia].
Qed.

(** While an admission is in use, its issuers are still bound to its genesis: a
    grant the same physical member issued later, under any boot, names it too. *)
Lemma issuer_still_bound w r s b t q b' t' q' now :
  lease_derived → world_ok w →
  (t, q) ∈ granted w b → (t', q') ∈ granted w b' → physical_id b = physical_id b' →
  (s ≤ t)%N → (t ≤ now)%N → (t' ≤ now)%N →
  (clock w r now < clock w r s + consumer_use lease)%N →
  (b = b' → clock w b t ≤ clock w b t')%N →
  (b ≠ b' → ∀ t0 q0, (t0, q0) ∈ granted w b → (t0 ≤ booted w b')%N) →
  req_genesis q = req_genesis q'.
Proof.
  intros Hlease Hw Hin Hin' Hphys Hs Ht Ht' Huse Hsame Hdiff.
  apply lease_ratios in Hlease as (Hpos & Hres & Hquar).
  pose proof (clocks_advance w Hw) as Hadv. pose proof (clocks_bounded w Hw) as Hrate.
  unfold CLOCK_RATE_RATIO in Hrate.
  destruct (decide (b = b')) as [<-|Hne].
  - destruct (grant_protected w b t q Hw Hin) as [_ Hex]. apply (Hex t' q' Hin'); [by apply Hsame|].
    pose proof (Hrate b r s now ltac:(lia)). pose proof (Hadv b s t Hs).
    pose proof (Hadv b t' now Ht'). pose proof (Hadv r s now ltac:(lia)). lia.
  - exfalso. destruct (grant_protected w b' t' q' Hw Hin') as [Hq _].
    specialize (Hdiff Hne t q Hin). pose proof (grants_after_boot w Hw _ _ _ Hin') as Hboot.
    pose proof (Hrate b' r (booted w b') t' Hboot). pose proof (Hadv r s (booted w b') ltac:(lia)).
    pose proof (Hadv r t' now Ht'). pose proof (Hadv r (booted w b') t' Hboot). lia.
Qed.

(** No two incarnations are in use at the same time.  If the lease comes from
    a configuration, clocks differ in rate by at most a factor of two and a
    restarted member has forgotten its grants, then two boots that both hold an
    unexpired admission at some real time were admitted to the same genesis. *)
Lemma certified_exclusive (w : World) (r1 r2 : ReplicaId) (v1 v2 : VerifiedAdmission) (s1 e1 s2 e2 now : N) :
  lease_derived → world_ok w →
  certified w r1 v1 s1 e1 → certified w r2 v2 s2 e2 → (e1 ≤ now)%N → (e2 ≤ now)%N →
  (clock w r1 now < verified_deadline v1)%N → (clock w r2 now < verified_deadline v2)%N →
  context_genesis (verified_context v1) = context_genesis (verified_context v2).
Proof.
  intros Hlease Hw H1 H2 He1 He2 Hu1 Hu2.
  apply certified_ok in H1 as (_ & Hd1 & ps & Hps & Sps & Hg1).
  apply certified_ok in H2 as (_ & Hd2 & qs & Hqs & Sqs & Hg2). rewrite Hd1 in Hu1. rewrite Hd2 in Hu2.
  destruct (majorities_meet roster ps qs Hps Hqs Sps Sqs) as (p & Hp & Hq).
  destruct (Hg1 p Hp) as (b & t & q & Hb & Ht & Hin & <-).
  destruct (Hg2 p Hq) as (b' & t' & q' & Hb' & Ht' & Hin' & <-).
  assert (Hphys : physical_id b = physical_id b') by congruence.
  destruct (decide (b = b')) as [<-|Hne].
  - destruct (N.le_ge_cases (clock w b t) (clock w b t')).
    + by apply (issuer_still_bound w r1 s1 b t q b t' q' now); try done; lia.
    + symmetry. by apply (issuer_still_bound w r2 s2 b t' q' b t q now); try done; lia.
  - destruct (boots_sequential w Hw b b' Hphys Hne) as [Hseq|Hseq].
    + apply (issuer_still_bound w r1 s1 b t q b' t' q' now); try done; lia.
    + symmetry. apply (issuer_still_bound w r2 s2 b' t' q' b t q now); try done; lia.
Qed.
End cluster.

(** ** Genesis digests *)

(** The types of a [Genesis]. *)
Definition genesis_wf (g : Genesis) : Prop :=
  length (config_digest (config g)) = 32 ∧ fits 16 (epoch g) ∧
  (∀ r, r ∈ voters g → replica_wf r) ∧ fits 8 (N.of_nat (size (voters g))).

Lemma u64_fits_8 n : (n ≤ u64_max)%N → fits 8 n.
Proof. unfold fits, u64_max. change (256 ^ N.of_nat 8)%N with 18446744073709551616%N. lia. Qed.

#[global] Instance replica_code : PrefixCode replica_wf (λ r, be_bytes 8 (physical_id r) ++ boot_nonce r).
Proof.
  intros [i n] [j m] l k (Hi & Hn & _) (Hj & Hm & _). cbn [physical_id boot_nonce] in *. intros Heq.
  peel Heq E; [|by apply u64_fits_8..]. apply app_inj_length in Heq as [-> ->]; [|congruence]. by subst.
Qed.

Lemma genesis_preimage_inj g h :
  genesis_wf g → genesis_wf h → genesis_preimage g = genesis_preimage h → g = h.
Proof.
  destruct g as [[v d] e vs], h as [[v' d'] e' vs']. intros (Hd & He & Hv & Hs) (Hd' & He' & Hv' & Hs').
  unfold genesis_preimage. cbn [config version config_digest epoch voters] in *. intros Heq.
  apply app_inv_head, app_inv_head, app_inj_length in Heq as [Hh Heq]; [|done]. injection Hh as ->.
  apply app_inj_length in Heq as [-> Heq]; [|congruence].
  peel Heq E; [|done..]. subst e'. peel Heq En; [|done..].
  rewrite <- (app_nil_r (_ ≫= _)), <- (app_nil_r (btree_keys vs' ≫= _)) in Heq.
  apply (bind_code replica_wf _) in Heq as [Hk _].
  - do 2 f_equal. apply set_eq. intros r. by rewrite <- !elem_of_btree_keys, Hk.
  - apply Forall_forall. intros r Hr. by apply Hv, elem_of_btree_keys.
  - apply Forall_forall. intros r Hr. by apply Hv', elem_of_btree_keys.
  - rewrite !length_btree_keys. lia.
Qed.

(** ** From admissions to storage mutations *)

Section storage.
Context {O : Openraft} (sha256 : list N → list N).

(** The history of a boot's authority: the admissions offered to it, and the
    other operations in any order. *)
Inductive authority_run (a0 : RuntimeAuthority) : list VerifiedAdmission → RuntimeAuthority → Prop :=
| authority_boot : authority_run a0 [] a0
| authority_accept vs a v now check_now :
    authority_run a0 vs a → authority_run a0 (v :: vs) (accept sha256 a v now check_now).1
| authority_promote vs a p state now :
    authority_run a0 vs a → authority_run a0 vs (mark_promoted sha256 a p state now).1
| authority_checked vs a expected now :
    authority_run a0 vs a → authority_run a0 vs (authority_check sha256 a expected now).1
| authority_sealed vs a : authority_run a0 vs a → authority_run a0 vs (a <| permission := (seal (permission a)).1 |>).

(** An active permission carries the deadline and the identity of an admission
    that was offered for this boot. *)
Definition backed (local : ReplicaId) (vs : list VerifiedAdmission) (a : RuntimeAuthority) : Prop :=
  auth_local a = local ∧
  ∀ c st u, permission a = Active c st u →
    ∃ v, v ∈ vs ∧ verified_deadline v = u ∧ local_replica (verified_context v) = local ∧
      c = identity sha256 a (verified_context v).

Lemma seal_expired_active s now c st u :
  (seal_expired s now).1 = Active c st u → s = Active c st u ∧ (now < u)%N.
Proof.
  unfold seal_expired. destruct s as [r|d st' u'|]; [done| |done].
  destruct (N.leb_spec u' now); [done|]. by intros [= <- <- <-].
Qed.

Lemma backed_mono local vs v a : backed local vs a → backed local (v :: vs) a.
Proof.
  intros [Hl Hb]. split; [done|]. intros c st u Hp. destruct (Hb c st u Hp) as (v' & ? & ?).
  exists v'. split; [by right|done].
Qed.

(** Replacing the permission by one with the same context and deadline, if active. *)
Lemma backed_permission local vs a p :
  backed local vs a →
  (∀ c st u, p = Active c st u → ∃ st', permission a = Active c st' u) →
  backed local vs (a <| permission := p |>).
Proof.
  intros [Hl Hb] Hp. split; [done|]. intros c st u Hq. destruct (Hp c st u Hq) as [st' Ha].
  exact (Hb c st' u Ha).
Qed.

Lemma backed_check local vs a expected now :
  backed local vs a → backed local vs (authority_check sha256 a expected now).1.
Proof.
  intros Hb. unfold authority_check, current. cbn [fst].
  apply backed_permission; [done|]. intros c st u Hp. apply seal_expired_active in Hp as [-> _]. eauto.
Qed.

Lemma backed_transition local vs a v now a' accepted :
  backed local vs a → local_replica (verified_context v) = local →
  accept_transition sha256 a v now = Ok (a', accepted) → backed local (v :: vs) a'.
Proof.
  intros Hb Hv. assert (Hnew : ∀ c st u, c = identity sha256 a (verified_context v) → u = verified_deadline v →
    backed local (v :: vs) (a <| permission := Active c st u |>)).
  { intros c st u -> ->. split; [apply Hb|]. intros c' st' u' [= <- _ <-]. exists v. split; [by left|done]. }
  assert (Hold : backed local (v :: vs) (a <| permission := (seal_expired (permission a) now).1 |>)).
  { apply backed_permission; [by apply backed_mono|]. intros c st u Hp%seal_expired_active.
    destruct Hp as [-> _]. eauto. }
  unfold accept_transition. destruct (verified_mode v) as [|[b|]|[ap|]].
  - unfold permission_admit. destruct (permission a) as [r|c st u|]; [|by intros [= <- _]..].
    destruct (_ && _); intros [= <- _]; [by apply Hnew|done].
  - destruct (match join_binding a with Some _ => _ | None => _ end); [done|]. unfold join.
    destruct (seal_expired (permission a) now) as [s [|]]; [by intros [= <- _]|]. cbn [fst] in Hold.
    destruct (match s with Quarantined _ => _ | _ => _ end); intros [= <- _]; [|done].
    exact (Hnew _ _ _ eq_refl eq_refl).
  - intros [= <- _]. by apply backed_mono.
  - unfold renew. destruct (seal_expired (permission a) now) as [s [|]]; [by intros [= <- _]|].
    cbn [fst] in Hold. destruct s as [r|c [l|] u|]; [by intros [= <- _]..| |by intros [= <- _]].
    destruct (_ && _); intros [= <- _]; [|done]. destruct (_ <? _)%N; [by apply Hnew|done].
  - intros [= <- _]. by apply backed_mono.
Qed.

Lemma backed_accept local vs a v now check_now :
  backed local vs a → backed local (v :: vs) (accept sha256 a v now check_now).1.
Proof.
  intros Hb. pose proof Hb as [Hl _]. unfold accept. destruct (decide (local_replica (verified_context v) = auth_local a)) as [He|Hne].
  - rewrite bool_decide_true by done. cbn [negb].
    destruct (accept_transition sha256 a v now) as [[a' []]|e] eqn:Ht; [| |by apply backed_mono].
    + apply backed_check. eapply backed_transition; [done| |done]. congruence.
    + eapply backed_transition; [done| |done]. congruence.
  - rewrite bool_decide_false by done. by apply backed_mono.
Qed.

Lemma backed_promote local vs a p state now :
  backed local vs a → backed local vs (mark_promoted sha256 a p state now).1.
Proof.
  intros Hb. unfold mark_promoted. destruct (plan_validate (plan p)); [|done].
  destruct (authority_check _ _ _ _) as [a' checked] eqn:Hc.
  assert (Hb' : backed local vs a').
  { change a' with (a', checked).1. rewrite <- Hc. by apply backed_check. }
  match goal with |- context [match ?x with Ok _ => _ | Err _ => _ end] => destruct x end; [|done].
  unfold permission_mark_promoted. destruct (seal_expired (permission a') now) as [s ex] eqn:Hs.
  assert (Hold : ∀ c st u, s = Active c st u → permission a' = Active c st u).
  { intros c st u ->. by destruct (seal_expired_active (permission a') now c st u) as [-> _]; [by rewrite Hs|]. }
  destruct ex; [|destruct s as [r|c [l|] u|]; [|destruct (_ && _)|..]];
    cbn [fst]; (apply backed_permission; [done|]); try (intros c' st' u' [= -> -> ->]); eauto.
  intros c' st' u' [= -> _ ->]. eauto.
Qed.

Lemma authority_run_backed a0 vs a local until :
  permission a0 = Quarantined until → auth_local a0 = local →
  authority_run a0 vs a → backed local vs a.
Proof.
  intros Hp Hl. induction 1.
  - split; [done|]. intros c st u Ha. congruence.
  - by apply backed_accept.
  - by apply backed_promote.
  - by apply backed_check.
  - by apply backed_permission.
Qed.
End storage.

(** ** Storages *)

Section storages.
Context {O : Openraft}.
Context (sock_parse : Text → option SocketAddr) (sha256 : list N → list N).
Context (hmac : list N → option (list N → list N)).
Context (encode : list N * AdmissionRequest → option (list N)).
Context (roster : gset N) (lease : LeaseTiming).

(** The storage of the boot [r] at the real time [now]: its session is fenced by
    the boot's authority, which was offered only admissions that [r] obtained. *)
Definition fenced_storage (w : World) (r : ReplicaId) (c : AdmissionContext) (s : KafStorageState) (now : N) : Prop :=
  ∃ a0 vs a,
    authority_new r lease (clock w r (booted w r)) = Some a0 ∧ authority_run sha256 a0 vs a ∧
    (∀ v, v ∈ vs → ∃ b e, certified sock_parse sha256 hmac encode roster lease w r v b e ∧ (e ≤ now)%N) ∧
    admission s = Some (mkAdmissionSession c (fence_of sha256 a)).

(** A storage that accepts a mutation holds an unexpired admission of its genesis. *)
Lemma mutation_backed w r c s now :
  fenced_storage w r c s now → check_mutation s (clock w r now) = Ok tt →
  ∃ v b e, certified sock_parse sha256 hmac encode roster lease w r v b e ∧ (e ≤ now)%N ∧
    (clock w r now < verified_deadline v)%N ∧
    digest sha256 (context_genesis c) = digest sha256 (context_genesis (verified_context v)).
Proof.
  intros (a0 & vs & a & Hnew & Hrun & Hcert & Hadm) Hm. unfold check_mutation in Hm.
  change cfg_test with false in Hm. rewrite andb_false_r, Hadm in Hm.
  unfold authority_new in Hnew. destruct (deadline _ _) as [q|]; [|done]. injection Hnew as <-.
  apply (authority_run_backed _ _ _ _ r q) in Hrun as [Hl Hb]; [|done..].
  unfold session_check in Hm. cbn [fence context fence_of fence_check] in Hm.
  unfold authority_check, current in Hm. cbv zeta in Hm.
  destruct (seal_expired (permission a) (clock w r now)).1 as [|c' st u|] eqn:Hp; cbn in Hm; [done| |done].
  apply seal_expired_active in Hp as [Hp Hlt].
  destruct (_ || _) eqn:Hg; [done|]. apply orb_false_iff in Hg as [_ Hg].
  apply negb_false_iff, bool_decide_eq_true in Hg.
  destruct (Hb c' st u Hp) as (v & Hin & Hd & _ & Hid). destruct (Hcert v Hin) as (b & e & Hc & He).
  exists v, b, e. split_and!; [done|done|congruence|]. rewrite Hg in Hid. by injection Hid.
Qed.

(** Split brain is impossible at the storage.  Two storages, of any boots of
    any members, that both accept a mutation of log, vote or state machine at the
    same real time belong to the same genesis, unless [sha256] has a collision. *)
Lemma mutations_exclusive (w : World) (r1 r2 : ReplicaId) (c1 c2 : AdmissionContext)
    (s1 s2 : KafStorageState) (now : N) :
  lease_derived lease → world_ok sock_parse sha256 hmac encode roster lease w →
  fenced_storage w r1 c1 s1 now → fenced_storage w r2 c2 s2 now →
  genesis_wf (context_genesis c1) → genesis_wf (context_genesis c2) →
  check_mutation s1 (clock w r1 now) = Ok tt → check_mutation s2 (clock w r2 now) = Ok tt →
  context_genesis c1 = context_genesis c2 ∨ ∃ x y, x ≠ y ∧ sha256 x = sha256 y.
Proof.
  intros Hlease Hw F1 F2 W1 W2 M1 M2.
  apply (mutation_backed _ _ _ _ _ F1) in M1 as (v1 & b1 & e1 & C1 & E1 & D1 & G1).
  apply (mutation_backed _ _ _ _ _ F2) in M2 as (v2 & b2 & e2 & C2 & E2 & D2 & G2).
  assert (Heq : context_genesis (verified_context v1) = context_genesis (verified_context v2)).
  { by eapply certified_exclusive. }
  rewrite Heq, <- G2 in G1. unfold digest in G1.
  destruct (decide (genesis_preimage (context_genesis c1) = genesis_preimage (context_genesis c2))) as [Hp|Hp].
  - left. by apply genesis_preimage_inj.
  - right. eauto.
Qed.
End storages.
