(* ===== verification/Freshness.v ===== *)
(** * Freshness of the quorum proof and of local health

    [ConsensusFreshness] with its permits (src/consensus_freshness.rs,
    src/consensus_freshness/permits.rs), the verified progress that renews it
    (src/raft/admission/runtime/proof.rs), the classes of publication failures
    (src/consensus_freshness/failure.rs), and [LocalHealth] with its continuity
    (src/health/local.rs).  Time is an explicit instant per clock reading. *)

From S2P Require Import Prelude Text Io Replica Openraft Admission Types VipLogic State Controller Lease.
Local Open Scope kaf_scope.

Definition u64_wrapping_succ (n : N) : N := if (n =? u64_max)%N then 0%N else (n + 1)%N.
Definition u64_saturating_succ (n : N) : N := if (n =? u64_max)%N then n else (n + 1)%N.

(** [FailureKind] (src/consensus_freshness/failure.rs). *)
Inductive FailureKind := PublicationUnavailable | PublicationRejected.

#[global] Instance FailureKind_eq_dec : EqDecision FailureKind.
Proof. solve_decision. Defined.

(** ** Verified progress *)

(** [InstalledAdmission]. *)
Record InstalledAdmission := mkInstalledAdmission {
  installed_session : AdmissionSession;
  installed_deadline : Instant;
  installed_started : Instant;
  installed_request : AdmissionRequest
}.

(** [VerifiedProgress]. *)
Record VerifiedProgress := mkVerifiedProgress {
  progress_started : Instant;
  progress_applied : AppliedHealthProgress;
  accepted_deadline : Instant;
  progress_session : AdmissionSession
}.

Definition progress_log_id (p : VerifiedProgress) : LogId := log_id (progress_applied p).
Definition progress_healthy (p : VerifiedProgress) : option bool := healthy (request (progress_applied p)).
Definition progress_context (p : VerifiedProgress) : AdmissionContext := context (progress_session p).

(** [VerifiedProgress::check]. *)
Definition progress_check (p : VerifiedProgress) (now : Instant) : Result unit AdmissionDenied :=
  session_check (progress_session p) now ;?
  if (accepted_deadline p <=? now)%N
  then Err (mkAdmissionDenied "health proof admission deadline expired")
  else Ok tt.

(** [VerifiedProgress::new]. *)
Definition progress_new (started : Instant) (applied : AppliedHealthProgress) (installed : InstalledAdmission)
    (now : Instant) : Result VerifiedProgress AdmissionDenied :=
  let c := context (installed_session installed) in
  let r := request applied in
  progress_validate r ;?
  if negb (bool_decide (replica r = local_replica c))
     || negb (bool_decide (genesis r = context_genesis c))
     || negb (bool_decide (request_nonce r = req_nonce (installed_request installed)))
     || (installed_started installed <? started)%N
     || negb (bool_decide (req_mode (installed_request installed) = Renew (Some (log_id applied))))
  then Err (mkAdmissionDenied "health proof differs from accepted admission")
  else
    let proof := mkVerifiedProgress started applied (installed_deadline installed) (installed_session installed) in
    progress_check proof now ;?
    Ok proof.

(** ** The proof *)

(** [Proof]. *)
Record Proof := mkProof {
  proof_started : option Instant;
  invalidation_epoch : N;
  acquisition_epoch : N;
  available : bool;
  proof_progress : option VerifiedProgress
}.

#[global] Instance Proof_eta : Eta Proof := λ p,
  mkProof (proof_started p) (invalidation_epoch p) (acquisition_epoch p) (available p) (proof_progress p).

(** [Proof::deadline]. *)
Definition proof_deadline (p : Proof) (lifetime : N) : option Instant :=
  started ← proof_started p;
  deadline ← instant_checked_add started lifetime;
  Some (match proof_progress p with
        | Some progress => N.min deadline (accepted_deadline progress)
        | None => deadline
        end).

(** [Proof::fresh], both readings of the clock at [now]. *)
Definition proof_fresh (p : Proof) (lifetime : N) (now : Instant) : bool :=
  match proof_deadline p lifetime with Some d => (now <? d)%N | None => false end
  && match proof_progress p with Some progress => is_ok (progress_check progress now) | None => true end.

(** [ConsensusFreshness]; the identity distinguishes one instance from another. *)
Record ConsensusFreshness := mkConsensusFreshness {
  proof : Proof;
  lifetime : N;
  freshness_identity : N
}.

#[global] Instance ConsensusFreshness_eta : Eta ConsensusFreshness := λ f,
  mkConsensusFreshness (proof f) (lifetime f) (freshness_identity f).

(** [ConsensusFreshness::new] and [for_probe_cadence]. *)
Definition freshness_new (life id : N) : ConsensusFreshness :=
  mkConsensusFreshness (mkProof None 0 0 false None) life id.

Definition for_probe_cadence (interval_ms stale_missed_probes id : N) : ConsensusFreshness :=
  freshness_new (probe_cadence_lifetime interval_ms stale_missed_probes) id.

Section freshness.
(** The order of log ids is the consensus library's. *)
Context (log_id_leb : LogId → LogId → bool).

(** Whether [progress] fails to advance what the proof holds. *)
Definition stale_progress (p : Proof) (progress : VerifiedProgress) : bool :=
  match proof_started p with Some previous => (progress_started progress <? previous)%N | None => false end
  || match proof_progress p with
     | Some previous =>
         bool_decide (progress_context previous = progress_context progress)
         && ((index (progress_log_id progress) <=? index (progress_log_id previous))%N
             || log_id_leb (progress_log_id progress) (progress_log_id previous))
     | None => false
     end.

(** The mutation of [record_applied]. *)
Definition advance_proof (p : Proof) (life : N) (progress : VerifiedProgress) (now : Instant) : Proof :=
  let continues := proof_fresh p life now
                   && match proof_progress p with
                      | Some previous => bool_decide (progress_context previous = progress_context progress)
                      | None => false
                      end in
  let p := if continues then p else p <| invalidation_epoch := u64_wrapping_succ (invalidation_epoch p) |> in
  p <| proof_started := Some (progress_started progress) |>
    <| proof_progress := Some progress |>
    <| available := true |>.

(** [ConsensusFreshness::record_applied]: the first clock readings at [now], the
    one under the lock at [lock_now]. *)
Definition record_applied (f : ConsensusFreshness) (progress : VerifiedProgress) (now lock_now : Instant)
  : ConsensusFreshness * Result unit string :=
  if negb (bool_decide (progress_healthy progress = Some true))
  then (f, Err "only completed healthy progress can renew freshness"%string)
  else if is_err (progress_check progress now)
  then (f, Err "health proof authority is revoked"%string)
  else
    match instant_checked_add (progress_started progress) (lifetime f) with
    | None => (f, Err "health proof lifetime overflow"%string)
    | Some deadline =>
        if (now <? progress_started progress)%N || (N.min deadline (accepted_deadline progress) <=? now)%N
        then (f, Err "health proof is outside its original lifetime"%string)
        else if stale_progress (proof f) progress
        then (f, Err "health proof does not advance verified progress"%string)
        else (f <| proof := advance_proof (proof f) (lifetime f) progress lock_now |>, Ok tt)
    end.

(** [mark_unavailable] and [invalidate]. *)
Definition mark_unavailable (f : ConsensusFreshness) : ConsensusFreshness :=
  if available (proof f)
  then f <| proof := proof f <| available := false |>
                             <| acquisition_epoch := u64_wrapping_succ (acquisition_epoch (proof f)) |> |>
  else f.

Definition invalidate (f : ConsensusFreshness) : ConsensusFreshness :=
  f <| proof := proof f <| proof_started := None |> <| available := false |>
                        <| invalidation_epoch := u64_wrapping_succ (invalidation_epoch (proof f)) |> |>.

(** ** Permits *)

(** [RetentionStamp] and [Permit]. *)
Record RetentionStamp := mkRetentionStamp {
  stamp_identity : N;
  stamp_context : AdmissionContext;
  stamp_epoch : N
}.

Record Permit := mkPermit {
  permit_stamp : RetentionStamp;
  permit_acquisition_epoch : option N;
  permit_deadline : Instant;
  permit_progress : VerifiedProgress
}.

(** [ConsensusFreshness::acquire] and [retain]. *)
Definition acquire (f : ConsensusFreshness) (has_leader : bool) (now : Instant) : option Permit :=
  let p := proof f in
  if negb has_leader || negb (available p) || negb (proof_fresh p (lifetime f) now) then None
  else
    progress ← proof_progress p;
    deadline ← proof_deadline p (lifetime f);
    Some (mkPermit (mkRetentionStamp (freshness_identity f) (progress_context progress) (invalidation_epoch p))
            (Some (acquisition_epoch p)) deadline progress).

Definition retain (f : ConsensusFreshness) (stamp : RetentionStamp) (now : Instant) : option Permit :=
  let p := proof f in
  progress ← proof_progress p;
  if negb (freshness_identity f =? stamp_identity stamp)%N
     || negb (invalidation_epoch p =? stamp_epoch stamp)%N
     || negb (bool_decide (progress_context progress = stamp_context stamp))
     || negb (proof_fresh p (lifetime f) now)
  then None
  else
    deadline ← proof_deadline p (lifetime f);
    Some (mkPermit stamp None deadline progress).

(** [Permit::check], against the present state of its [ConsensusFreshness]. *)
Definition permit_check (f : ConsensusFreshness) (p : Permit) (now : Instant) : bool :=
  if (permit_deadline p <=? now)%N || is_err (progress_check (permit_progress p) now) then false
  else
    (invalidation_epoch (proof f) =? stamp_epoch (permit_stamp p))%N
    && match proof_progress (proof f) with
       | Some progress => bool_decide (progress_context progress = stamp_context (permit_stamp p))
                          && is_ok (progress_check progress now)
       | None => false
       end
    && match permit_acquisition_epoch p with
       | Some epoch => available (proof f) && (acquisition_epoch (proof f) =? epoch)%N
       | None => true
       end.
End freshness.

(** ** Local health (src/health/local.rs) *)

Inductive BindFault := BindFailed | BindTimedOut.

(** [Status]. *)
Record HealthStatus := mkHealthStatus {
  probe_healthy : bool;
  bind_fault : option BindFault;
  loss_epoch : N
}.

#[global] Instance HealthStatus_eta : Eta HealthStatus := λ s,
  mkHealthStatus (probe_healthy s) (bind_fault s) (loss_epoch s).

(** [Status::healthy]. *)
Definition status_healthy (s : HealthStatus) : bool :=
  probe_healthy s && match bind_fault s with None => true | Some _ => false end.

(** [LocalHealth::new]. *)
Definition local_health_new (probe_healthy : bool) : HealthStatus := mkHealthStatus probe_healthy None 0.

(** [HealthContinuity]: the loss epoch it was observed at. *)
Definition observe_continuity (s : HealthStatus) : N := loss_epoch s.

(** [HealthContinuity::check]. *)
Definition continuity_check (s : HealthStatus) (observed : N) : bool :=
  status_healthy s && (loss_epoch s =? observed)%N && negb (observed =? u64_max)%N.

(** [LocalHealth::observe_probe]: the status afterwards and the previous health. *)
Definition observe_probe (s : HealthStatus) (result : bool) : HealthStatus * bool :=
  let previous := status_healthy s in
  let s := s <| probe_healthy := result |> in
  (if previous && negb (status_healthy s)
   then s <| loss_epoch := u64_saturating_succ (loss_epoch s) |> else s, previous).

(** [LocalHealth::fail_binding]. *)
Definition fail_binding (s : HealthStatus) (fault : BindFault) : HealthStatus :=
  match bind_fault s with
  | Some _ => s
  | None =>
      let s := if status_healthy s then s <| loss_epoch := u64_saturating_succ (loss_epoch s) |> else s in
      s <| bind_fault := Some fault |>
  end.

(** What may happen to the local health. *)
Inductive HealthEvent := ProbeResult (result : bool) | EffectFault (fault : BindFault).

Definition health_step (s : HealthStatus) (e : HealthEvent) : HealthStatus :=
  match e with
  | ProbeResult result => (observe_probe s result).1
  | EffectFault fault => fail_binding s fault
  end.

(** Whether a status and all that follow it are healthy. *)
Fixpoint always_healthy (s : HealthStatus) (es : list HealthEvent) : bool :=
  status_healthy s && match es with [] => true | e :: es => always_healthy (health_step s e) es end.

(** An event keeps the loss epoch or, on a loss, moves it. *)
Lemma health_step_epoch s e :
  loss_epoch (health_step s e) =
    if status_healthy s && negb (status_healthy (health_step s e)) then u64_saturating_succ (loss_epoch s)
    else loss_epoch s.
Proof.
  destruct s as [p b l], e as [r|f]; cbn; unfold observe_probe, fail_binding, status_healthy; cbn.
  - by destruct p, b, r.
  - by destruct p, b.
Qed.

Lemma saturating_succ_le n : (n ≤ u64_saturating_succ n)%N.
Proof. unfold u64_saturating_succ. case_match; lia. Qed.

Lemma loss_epoch_grows s es : (loss_epoch s ≤ loss_epoch (foldl health_step s es))%N.
Proof.
  revert s. induction es as [|e es IH]; intros s; cbn; [lia|]. etransitivity; [|apply IH].
  rewrite health_step_epoch. case_match; [apply saturating_succ_le|lia].
Qed.

(** Health continuity is exact.  A continuity observed on a healthy node holds
    after any sequence of probe results and bind faults if and only if the node
    was healthy all along: a recovered probe never revives it, however often the
    health changed in between, also when the loss counter saturates. *)
Theorem continuity_exact (s : HealthStatus) (es : list HealthEvent) :
  status_healthy s = true → (loss_epoch s < u64_max)%N →
  continuity_check (foldl health_step s es) (observe_continuity s) = always_healthy s es.
Proof.
  unfold continuity_check, observe_continuity. intros Hh Hl.
  replace (loss_epoch s =? u64_max)%N with false by (symmetry; apply N.eqb_neq; lia).
  revert s Hh Hl. induction es as [|e es IH]; intros s Hh Hl; cbn [foldl always_healthy].
  - by rewrite Hh, N.eqb_refl.
  - rewrite Hh. cbn [andb]. pose proof (health_step_epoch s e) as He. rewrite Hh in He.
    destruct (status_healthy (health_step s e)) eqn:Hs; cbn in He.
    + rewrite <- He. rewrite IH; [done|done|lia].
    + replace (always_healthy (health_step s e) es) with false by (destruct es; cbn; by rewrite Hs).
      assert (loss_epoch (health_step s e) = loss_epoch s + 1)%N as Hnext.
      { rewrite He. unfold u64_saturating_succ. case_match eqn:Hm; [apply N.eqb_eq in Hm; lia|done]. }
      pose proof (loss_epoch_grows (health_step s e) es) as Hg.
      replace (_ =? loss_epoch s)%N with false by (symmetry; apply N.eqb_neq; lia).
      by rewrite andb_false_r.
Qed.

Lemma continuity_exact_witness :
  continuity_check (foldl health_step (local_health_new true)
    [ProbeResult true; ProbeResult false; ProbeResult true]) (observe_continuity (local_health_new true)) = false.
Proof.
  apply (continuity_exact (local_health_new true) [ProbeResult true; ProbeResult false; ProbeResult true]);
    [reflexivity|reflexivity].
Defined.

(** ** Revocation *)

Section revocation.
Context (log_id_leb : LogId → LogId → bool).

(** What may happen to the freshness of a process. *)
Inductive FreshnessEvent :=
| Applied (progress : VerifiedProgress) (now lock_now : Instant)
| Unavailable
| Invalidated.

Definition freshness_step (f : ConsensusFreshness) (e : FreshnessEvent) : ConsensusFreshness :=
  match e with
  | Applied progress now lock_now => (record_applied log_id_leb f progress now lock_now).1
  | Unavailable => mark_unavailable f
  | Invalidated => invalidate f
  end.

(** An event that breaks continuity: an invalidation, or a renewal that found the
    proof expired or of another admission. *)
Definition breaks (f : ConsensusFreshness) (e : FreshnessEvent) : bool :=
  match e with
  | Applied progress now lock_now =>
      is_ok (record_applied log_id_leb f progress now lock_now).2
      && negb (proof_fresh (proof f) (lifetime f) lock_now
               && match proof_progress (proof f) with
                  | Some previous => bool_decide (progress_context previous = progress_context progress)
                  | None => false
                  end)
  | Unavailable => false
  | Invalidated => true
  end.

Fixpoint break_count (f : ConsensusFreshness) (es : list FreshnessEvent) : nat :=
  match es with
  | [] => 0
  | e :: es => (if breaks f e then 1 else 0) + break_count (freshness_step f e) es
  end.

Lemma wrapping_succ_mod n : (n ≤ u64_max)%N → u64_wrapping_succ n = ((n + 1) mod 2 ^ 64)%N.
Proof.
  unfold u64_wrapping_succ, u64_max. intros Hn. case_match eqn:He.
  - by apply N.eqb_eq in He as ->.
  - apply N.eqb_neq in He. rewrite N.mod_small by lia. done.
Qed.

Lemma step_epoch f e :
  invalidation_epoch (proof (freshness_step f e)) =
    if breaks f e then u64_wrapping_succ (invalidation_epoch (proof f)) else invalidation_epoch (proof f).
Proof.
  destruct e as [progress now lock_now| |]; cbn; [|unfold mark_unavailable; by destruct (available _)|done].
  unfold record_applied. destruct (negb _); [done|]. destruct (is_err _); [done|].
  destruct (instant_checked_add _ _) as [d|]; [|done]. destruct (_ || _); [done|].
  destruct (stale_progress _ _ _); [done|]. cbn. unfold advance_proof. by destruct (_ && _).
Qed.

(** The epoch counts the breaks, modulo the width of the counter. *)
Lemma epoch_counts f es :
  (invalidation_epoch (proof f) ≤ u64_max)%N →
  invalidation_epoch (proof (foldl freshness_step f es)) =
    ((invalidation_epoch (proof f) + N.of_nat (break_count f es)) mod 2 ^ 64)%N.
Proof.
  revert f. induction es as [|e es IH]; intros f Hf; cbn [foldl break_count].
  - rewrite N.add_0_r, N.mod_small; [done|]. unfold u64_max in Hf. lia.
  - pose proof (step_epoch f e) as He. destruct (breaks f e).
    + rewrite wrapping_succ_mod in He by done. rewrite IH; rewrite He.
      * rewrite N.Div0.add_mod_idemp_l. f_equal. lia.
      * unfold u64_max. pose proof (N.mod_lt (invalidation_epoch (proof f) + 1) (2 ^ 64)). lia.
    + rewrite IH; rewrite He; [|done]. f_equal.
Qed.

Lemma break_count_le f es : break_count f es ≤ length es.
Proof. revert f. induction es as [|e es IH]; intros f; cbn; [lia|]. specialize (IH (freshness_step f e)). case_match; lia. Qed.

Lemma break_count_0 f es before e after :
  break_count f es = 0 → es = before ++ e :: after → breaks (foldl freshness_step f before) e = false.
Proof.
  revert f es. induction before as [|e' before IH]; intros f es Hc ->; cbn in Hc.
  - cbn. by destruct (breaks f e).
  - destruct (breaks f e'); [done|]. by apply (IH _ _ Hc).
Qed.

(** A permit carries the epoch and the deadline of the proof it was taken from. *)
Definition taken (f : ConsensusFreshness) (t0 : Instant) (p : Permit) : Prop :=
  (∃ leader, acquire f leader t0 = Some p) ∨ (∃ stamp, retain f stamp t0 = Some p).

Lemma taken_ok f t0 p :
  taken f t0 p → stamp_epoch (permit_stamp p) = invalidation_epoch (proof f) ∧
  proof_progress (proof f) = Some (permit_progress p) ∧
  proof_deadline (proof f) (lifetime f) = Some (permit_deadline p).
Proof.
  intros [[leader H]|[stamp H]].
  - unfold acquire in H. destruct (_ || _ || _); [done|].
    destruct (proof_progress (proof f)) as [progress|]; [|done].
    destruct (proof_deadline _ _); [|done]. by injection H as <-.
  - unfold retain in H. destruct (proof_progress (proof f)) as [progress|]; [|done]. cbn in H.
    destruct (_ || _ || _ || _) eqn:Hg; [done|]. guards. destruct (proof_deadline _ _); [|done].
    injection H as <-. cbn. repeat match goal with H : (_ =? _)%N = true |- _ => apply N.eqb_eq in H end.
    done.
Qed.

(** C23: permission to touch a VIP never outlives its proof or crosses a
    revocation.  If a permit was acquired or retained and still passes its check
    after fewer than 2^64 events, then no event in between invalidated the proof or
    renewed it after a gap or under another admission, and the check happens
    within the proof lifetime counted from the start of the verified request,
    before its accepted deadline, under a live session. *)
Theorem permit_never_crosses_revocation f t0 p es t :
  (invalidation_epoch (proof f) ≤ u64_max)%N → (N.of_nat (length es) ≤ u64_max)%N → taken f t0 p →
  permit_check (foldl freshness_step f es) p t = true →
  (∀ before e after, es = before ++ e :: after → breaks (foldl freshness_step f before) e = false) ∧
  ∃ progress started, proof_progress (proof f) = Some progress ∧ proof_started (proof f) = Some started ∧
    (t < started + lifetime f)%N ∧ (t < accepted_deadline progress)%N ∧
    is_ok (session_check (progress_session progress) t) = true.
Proof.
  intros Hf Hlen (Hs & Hp & Hd)%taken_ok Hc. unfold permit_check in Hc.
  destruct (_ || _) eqn:Hlive; [done|]. guards. n_compare.
  match goal with H : (_ =? stamp_epoch _)%N = true |- _ => apply N.eqb_eq in H; rename H into Hep end.
  rewrite epoch_counts, Hs in Hep by done. split.
  - intros before e after Hes. eapply break_count_0; [|done]. pose proof (break_count_le f es).
    unfold u64_max in *. destruct (decide (break_count f es = 0)) as [|Hne]; [done|]. exfalso.
    set (n := invalidation_epoch (proof f)) in *. set (k := N.of_nat (break_count f es)) in *.
    assert (0 < k < 2 ^ 64)%N as Hk by lia. clearbody n k. change (2 ^ 64)%N with 18446744073709551616%N in *.
    destruct (decide (n + k < 18446744073709551616)%N) as [Hlt|Hge]; [rewrite N.mod_small in Hep by done; lia|].
    assert ((n + k) mod 18446744073709551616 = n + k - 18446744073709551616)%N as Hm.
    { symmetry. apply (N.mod_unique _ _ 1); lia. }
    lia.
  - unfold proof_deadline in Hd. destruct (proof_started (proof f)) as [started|]; [|done]. cbn in Hd.
    destruct (instant_checked_add started (lifetime f)) as [d|] eqn:Hadd; [|done]. cbn in Hd.
    rewrite Hp in Hd. injection Hd as Hd. exists (permit_progress p), started.
    apply instant_checked_add_Some in Hadd as ->.
    unfold progress_check, is_err in *. destruct (session_check (progress_session (permit_progress p)) t); [|done].
    split_and!; [done|done|lia|lia|done].
Qed.
End revocation.

(** An example: a proof started at 10, renewed at 20 and checked at 30. *)
Definition demo_boot : ReplicaId := mkReplicaId 1 [7%N].
Definition demo_genesis : Genesis := mkGenesis (mkClusterConfigFingerprint 1 []) 7 {[demo_boot]}.
Definition demo_session : AdmissionSession :=
  mkAdmissionSession (mkAdmissionContext demo_boot demo_genesis) (mkAdmissionFence demo_boot (λ _ _, Ok 500%N)).
Definition demo_progress (started i : N) : VerifiedProgress :=
  mkVerifiedProgress started
    (mkAppliedHealthProgress (mkHealthProgress 1 (Some true) demo_boot 7 [i] demo_genesis)
       (mkLogId (mkLeaderId 1 demo_boot) i)) 400%N demo_session.
Definition demo_leb (l r : LogId) : bool := (index l <=? index r)%N.
Definition demo_freshness : ConsensusFreshness :=
  (record_applied demo_leb (freshness_new 100 1) (demo_progress 10 5) 11%N 11%N).1.
Definition demo_permit : Permit :=
  mkPermit (mkRetentionStamp 1 (mkAdmissionContext demo_boot demo_genesis) 1) (Some 0%N) 110%N (demo_progress 10 5).

Lemma permit_never_crosses_revocation_witness :
  (30 < 10 + 100)%N ∧
  ∀ before e after, [Applied (demo_progress 20 6) 21%N 21%N] = before ++ e :: after →
    breaks demo_leb (foldl (freshness_step demo_leb) demo_freshness before) e = false.
Proof.
  destruct (permit_never_crosses_revocation demo_leb demo_freshness 12%N demo_permit
    [Applied (demo_progress 20 6) 21%N 21%N] 30%N) as [H (p & s & Hp & Hs & Hlt & _)].
  - vm_compute. discriminate.
  - vm_compute. discriminate.
  - left. exists true. reflexivity.
  - vm_compute. reflexivity.
  - split; [|exact H]. injection Hs as <-. exact Hlt.
Defined.
