(* ===== verification/Request.v ===== *)
(** * Raft and admission requests (src/raft/network/request.rs, management.rs, probe.rs)

    The operation envelopes a peer sends, and the consensus library's request
    and response records they carry. *)

From S2P Require Import Prelude Text Io Replica Openraft Admission Types VipLogic State Controller.

(** [ManagementAction] and [ManagementRequest]. *)
Inductive ManagementAction :=
| Discover
| ActPrepareJoin (g : Genesis) (operation_nonce : list N)
| ActLearnerReady (g : Genesis) (operation_nonce : list N) (prep : LogId)
| ActCancelJoin (p : JoinPlan) (prep : LogId)
| ActProgress (progress : HealthProgress).

Record ManagementRequest := mkManagementRequest {
  management_nonce : list N;
  action : ManagementAction
}.

(** [ManagementResult] and [ManagementResponse]. *)
Inductive ManagementResult :=
| Discovery (g : option Genesis) (known_voters : gset ReplicaId)
| Prepared (p : PreparedJoin)
| Applied (l : LogId)
| Redirect (leader : ReplicaId).

Record ManagementResponse := mkManagementResponse {
  response_nonce : list N;
  management_result : ManagementResult
}.

(** [ClusterStatusRequest]. *)
Record ClusterStatusRequest := mkClusterStatusRequest {
  probe_from : N;
  status_fingerprint : option ClusterConfigFingerprint;
  supports_cancellation_safe_rpc_v1 : bool
}.

(** [ClusterStatusResponse]. *)
Record ClusterStatusResponse := mkClusterStatusResponse {
  status_replica : option ReplicaId;
  supports_pre_vote : bool;
  status_initialized : bool;
  status_leader : option ReplicaId;
  member_count : nat;
  status_epoch : option N;
  supports_failover_semantics_v2 : bool;
  response_fingerprint : option ClusterConfigFingerprint;
  supports_config_identity_v1 : bool;
  status_identity_enforced : bool
}.

(** [answer_cluster_status] (src/raft/network/status.rs), from the engine's metrics. *)
Definition answer_cluster_status (initialized : bool) (leader : option ReplicaId) (members : nat)
    (local_epoch : option N) (local_fingerprint : ClusterConfigFingerprint) (config_identity_enforced : bool)
  : ClusterStatusResponse :=
  mkClusterStatusResponse None true initialized leader members local_epoch true (Some local_fingerprint) true
    config_identity_enforced.

Section requests.
Context {O : Openraft}.

(** [openraft::raft::VoteRequest], [AppendEntriesRequest]. *)
Record VoteRequest := mkVoteRequest {
  request_vote : Vote;
  request_last_log_id : option LogId
}.

Record AppendEntriesRequest := mkAppendEntriesRequest {
  append_vote : Vote;
  prev_log_id : option LogId;
  leader_commit : option LogId;
  append_entries : list Entry
}.

(** [SnapshotTransfer] (src/raft/network.rs). *)
Record SnapshotTransfer := mkSnapshotTransfer {
  transfer_vote : Vote;
  transfer_snapshot : Snapshot
}.

(** [RaftRequest]. *)
Inductive RaftRequest :=
| RaftAdmission (record : SignedAdmission AdmissionRequest)
| RaftAdmissionControl (record : SignedAdmission ManagementRequest)
| RaftStatus (req : ClusterStatusRequest)
| RaftPreVote (req : VoteRequest)
| RaftAppendEntries (req : AppendEntriesRequest)
| RaftSnapshot (req : SnapshotTransfer)
| RaftVote (req : VoteRequest).

(** [RaftRequest::status]. *)
Definition request_status (r : RaftRequest) : option ClusterStatusRequest :=
  match r with RaftStatus req => Some req | _ => None end.

(** [AppendEntriesResponse], [VoteResponse], [SnapshotResponse] and [RaftResponse]. *)
Inductive AppendEntriesResponse :=
| AppendSuccess
| PartialSuccess (matching : option LogId)
| AppendConflict
| HigherVote (v : Vote).

Record VoteResponse := mkVoteResponse {
  response_vote : Vote;
  vote_granted : bool;
  response_last_log_id : option LogId
}.

Inductive RaftResponse :=
| PreVoteResponse (r : VoteResponse)
| VotedResponse (r : VoteResponse)
| AppendedResponse (r : AppendEntriesResponse)
| SnapshotResponse (v : Vote).

End requests.
