(* ===== verification/Authorization.v ===== *)
(** * Authorization of Raft traffic (src/raft/network/authorization.rs, authorization/)

    One coherent view of what a peer may send: the checks on votes, logs and
    memberships, the replay of replicated entries over the local history, the
    checks on a transferred snapshot, and the construction of the view from the
    local admission and the committed state. *)

From S2P Require Import Prelude Text Io Replica Openraft Admission Types VipLogic State StoreMembership.
From S2P Require Import StateMachine LogStore Config Fingerprint Controller Request.
Local Open Scope kaf_scope.

(** The [anyhow] errors of this layer; a replication conflict is told apart. *)
Inductive NetError :=
| ReplicationConflict
| Refused (reason : string).

(** [?] on a [Result<_, AdmissionDenied>]. *)
Definition denied {A} (r : Result A AdmissionDenied) : Result A NetError :=
  match r with Ok a => Ok a | Err e => Err (Refused (denied_reason e)) end.

(** A [for] loop whose body may return an error. *)
Fixpoint for_each {A E} (f : A → Result unit E) (l : list A) : Result unit E :=
  match l with [] => Ok tt | x :: l => f x ;? for_each f l end.

(** The node table of a membership: the configured address of every member. *)
Definition resolve (table : N → option Text) (ids : gset ReplicaId) : option (gmap ReplicaId Text) :=
  list_to_map <$> mapM (λ id, (id,.) <$> table (physical_id id)) (btree_keys ids).

Lemma resolve_dom table ids ns : resolve table ids = Some ns → dom ns = ids.
Proof.
  unfold resolve. destruct (mapM _ _) as [l|] eqn:Hl; [|done]. intros [= <-].
  rewrite dom_list_to_map_L. apply mapM_Some in Hl. apply set_eq. intros r.
  rewrite elem_of_list_to_set, <- elem_of_btree_keys.
  enough (l.*1 = btree_keys ids) as -> by done.
  induction Hl as [|x y k l Hx _ IH]; [done|]. cbn. rewrite IH. f_equal.
  by destruct (table (physical_id x)); simplify_option_eq.
Qed.

(** [max_by_key(|log| log.index)]: the last of the maximal elements. *)
Definition max_by_index (ls : list LogId) : option LogId :=
  foldl (λ best l, match best with
                   | Some b => if (index l <? index b)%N then Some b else Some l
                   | None => Some l
                   end) None ls.

Section authorization.
Context {O : Openraft}.

(** [ReplicationHistory]. *)
Record ReplicationHistory := mkReplicationHistory {
  history_nodes : gmap N Text;
  history_entries : gmap N Entry;
  history_committed : option LogId
}.

(** [RaftAuthorization]. *)
Record RaftAuthorization := mkRaftAuthorization {
  session : AdmissionSession;
  auth_peer : ReplicaId;
  configured_physical_ids : gset N;
  auth_voters : gset ReplicaId;
  log_replicas : gset ReplicaId;
  memberships : list Membership;
  committed_membership : StoredMembership;
  auth_last_applied : option LogId;
  auth_prepared_join : option PreparedJoin;
  auth_bootstrap : option VerifiedJoinBootstrap;
  replication : option ReplicationHistory
}.

#[global] Instance RaftAuthorization_eta : Eta RaftAuthorization := λ a,
  mkRaftAuthorization (session a) (auth_peer a) (configured_physical_ids a) (auth_voters a) (log_replicas a)
    (memberships a) (committed_membership a) (auth_last_applied a) (auth_prepared_join a)
    (auth_bootstrap a) (replication a).

Implicit Types (a : RaftAuthorization) (m : Membership) (h : ReplicationHistory).

(** [context()]'s genesis. *)
Local Abbreviation genesis_of a := (context_genesis (context (session a))).

(** [RaftAuthorization::check]. *)
Definition auth_check a (local peer : ReplicaId) (now : Instant) : Result unit NetError :=
  denied (session_check (session a) now) ;?
  ensure (bool_decide (local_replica (context (session a)) = local) && bool_decide (auth_peer a = peer))
    (Refused "admission authorization belongs to another boot").

(** [RaftAuthorization::vote]. *)
Definition auth_vote a (v : Vote) : Result unit NetError :=
  ensure (bool_decide (vote_node v ∈ auth_voters a)
          && bool_decide (physical_id (vote_node v) ∈ configured_physical_ids a))
    (Refused "Raft vote names an unauthorized replica").

(** [RaftAuthorization::sender_vote]. *)
Definition sender_vote a (from : ReplicaId) (v : Vote) : Result unit NetError :=
  ensure (bool_decide (vote_node v = from)) (Refused "Raft sender differs from the authenticated boot") ;?
  auth_vote a v.

(** [RaftAuthorization::log]. *)
Definition auth_log a (l : option LogId) : Result unit NetError :=
  match l with
  | Some l => ensure (bool_decide (physical_id (leader_node (committed_leader_id l)) ∈ configured_physical_ids a))
                (Refused "Raft log names an unauthorized replica")
  | None => Ok tt
  end.

(** [RaftAuthorization::membership]. *)
Definition auth_membership a m : Result unit NetError :=
  ensure (bool_decide (m ∈ memberships a)
          && forallb (λ r, bool_decide (physical_id r ∈ configured_physical_ids a)) (node_ids m))
    (Refused "Raft membership is outside the authorized transition").

(** [RaftAuthorization::stored_membership]. *)
Definition stored_membership a (s : StoredMembership) : Result unit NetError :=
  auth_log a (membership_log_id s) ;? auth_membership a (membership s).

(** [RaftAuthorization::stable_previous]. *)
Definition stable_previous m (p : JoinPlan) : bool := bool_decide (joint_config m = [previous_voters p]).

(** [RaftAuthorization::join_plan_data]. *)
Definition join_plan_data a (p : JoinPlan) : Result unit NetError :=
  denied (plan_validate p) ;?
  denied (validate_roster (plan_genesis p) (configured_physical_ids a)) ;?
  ensure (bool_decide (plan_genesis p = genesis_of a)) (Refused "join plan differs from admission") ;?
  ensure (forallb (λ r, bool_decide (physical_id r ∈ configured_physical_ids a))
            (btree_keys (previous_voters p) ++ btree_keys (next_voters p)))
    (Refused "join plan names an unconfigured physical member").

(** [RaftAuthorization::join_plan]. *)
Definition join_plan a (p : JoinPlan) (historical : bool) : Result unit NetError :=
  join_plan_data a p ;?
  let authorized :=
    ensure (if historical then existsb (λ m, stable_previous m p) (memberships a)
            else stable_previous (membership (committed_membership a)) p
                 && bool_decide (membership (committed_membership a) ∈ memberships a))
      (Refused "join plan requires the exact authorized stable previous membership") in
  match auth_prepared_join a with
  | Some pending =>
      if historical then authorized
      else ensure (bool_decide (plan pending = p)) (Refused "another committed join is pending")
  | None => authorized
  end.

(** The [AdmissionMembership] arm of [command]. *)
Definition membership_command a (c : AdmissionCommand) (l : LogId) (historical : bool) : Result unit NetError :=
  match c with
  | PrepareJoin p => join_plan a p historical
  | CancelJoin p prep =>
      join_plan_data a p ;?
      auth_log a (Some prep) ;?
      ensure (index prep <? index l)%N (Refused "cancellation precedes preparation") ;?
      if historical then Ok tt
      else match auth_prepared_join a with
           | None => Err (Refused "no committed join is pending")
           | Some pending =>
               let m := membership (committed_membership a) in
               ensure (bool_decide (plan pending = p) && bool_decide (prepared pending = prep)
                       && stable_previous m p && negb (bool_decide (consumer p ∈ node_ids m)))
                 (Refused "cancellation differs from the committed pending operation or removed learner")
           end
  | LearnerApplied c nonce prep =>
      ensure (bool_decide (physical_id c ∈ configured_physical_ids a))
        (Refused "learner names an unauthorized replica") ;?
      auth_log a (Some prep) ;?
      ensure (index prep <? index l)%N (Refused "learner acknowledgement precedes preparation") ;?
      if historical then Ok tt
      else match auth_prepared_join a with
           | None => Err (Refused "no committed join is pending")
           | Some pending =>
               join_plan_data a (plan pending) ;?
               ensure (bool_decide (consumer (plan pending) = c) && bool_decide (plan_nonce (plan pending) = nonce)
                       && bool_decide (prepared pending = prep))
                 (Refused "learner acknowledgement differs from committed preparation") ;?
               let m := membership (committed_membership a) in
               ensure (bool_decide (is_Some (learner_applied pending))
                       || stable_previous m (plan pending) && bool_decide (c ∈ learner_ids m))
                 (Refused "learner acknowledgement requires the committed learner stage")
           end
  end.

(** [RaftAuthorization::command]. *)
Definition auth_command a (r : KafRequest) (l : LogId) : Result unit NetError :=
  let historical := match auth_last_applied a with
                    | Some applied => (index l <=? index applied)%N
                    | None => false
                    end in
  match r with
  | AdmissionMembership c => membership_command a c l historical
  | AdmissionGenesis g => ensure (bool_decide (g = genesis_of a)) (Refused "Raft genesis differs from admission")
  | HealthProgressReq progress =>
      denied (progress_validate progress) ;?
      ensure (bool_decide (genesis progress = genesis_of a)
              && bool_decide (physical_id (replica progress) ∈ configured_physical_ids a))
        (Refused "Raft progress differs from admission")
  | ClusterFormed id _ _ => ensure (id =? epoch (genesis_of a))%N (Refused "Raft epoch differs from admission")
  | HealthUpdate _ _ | VipReleased _ _ _ | EnableFailoverSemanticsV2 | EnableConfigIdentityV1 => Ok tt
  end.

(** ** Replicated entries (authorization/replay.rs) *)

(** [SourceState]. *)
Record SourceState := mkSourceState {
  source_membership : StoredMembership;
  pending_join : option PreparedJoin;
  cursor : option LogId
}.

#[global] Instance SourceState_eta : Eta SourceState := λ s,
  mkSourceState (source_membership s) (pending_join s) (cursor s).

(** [ReplicationHistory::from_state]. *)
Definition history_from_state (cfg : Config) (state : KafStorageState) : ReplicationHistory :=
  mkReplicationHistory
    (list_to_map (reverse ((λ p, (peer_id p, raft_address p)) <$> peers cfg)))
    (filter (λ kv, above (match last_applied_log state with Some l => Excluded (index l) | None => Unbounded end)
                     kv.1 = true) (log state))
    (committed state).

(** [ReplicationHistory::membership]. *)
Definition history_membership h (configs : list (gset ReplicaId)) (ids : gset ReplicaId)
  : Result Membership NetError :=
  match resolve (λ id, history_nodes h !! id) ids with
  | None => Err (Refused "historical member is not configured")
  | Some ns => match membership_new configs ns with
               | Some m => Ok m
               | None => Err (Refused "invalid membership")
               end
  end.

(** [ReplicationHistory::committed]. *)
Definition is_committed (l : LogId) (frontier : option LogId) : bool :=
  match frontier with
  | Some f => (index l <? index f)%N || bool_decide (l = f)
  | None => false
  end.

Definition opt_committed (l : option LogId) (frontier : option LogId) : bool :=
  match l with Some l => is_committed l frontier | None => false end.

(** The voter sets [data] accepts: no empty set, one boot per physical member. *)
Definition valid_voters (vs : gset ReplicaId) : bool :=
  negb (bool_decide (vs = ∅)) && (size (physical_ids vs) =? size vs).

(** [ReplicationHistory::data]. *)
Definition data h a (e : Entry) : Result unit NetError :=
  auth_log a (Some (entry_log_id e)) ;?
  match payload e with
  | MembershipChange m =>
      let configs := joint_config m in
      ensure (negb (bool_decide (configs = [])) && (length configs <=? 2))
        (Refused "invalid historical membership shape") ;?
      ensure (forallb valid_voters configs) (Refused "invalid historical voter identities") ;?
      expected <-? history_membership h configs (dom (nodes m));
      ensure (bool_decide (expected = m)) (Refused "historical membership differs from configured addresses")
  | Normal (AdmissionMembership (PrepareJoin p)) => join_plan_data a p
  | Normal (AdmissionMembership (CancelJoin p prep)) =>
      join_plan_data a p ;?
      auth_log a (Some prep) ;?
      ensure (index prep <? index (entry_log_id e))%N (Refused "cancellation precedes preparation")
  | Normal (AdmissionMembership (LearnerApplied c _ prep)) =>
      ensure (bool_decide (is_Some (history_nodes h !! physical_id c))) (Refused "learner is not configured") ;?
      auth_log a (Some prep) ;?
      ensure (index prep <? index (entry_log_id e))%N (Refused "acknowledgement precedes preparation")
  | Normal r => auth_command a r (entry_log_id e)
  | Blank => Ok tt
  end.

(** The memberships [transition] permits after [current], and whether they are
    the final stage of the join. *)
Definition permitted h (current : StoredMembership) (pending : PreparedJoin) (frontier : option LogId)
  : Result (list Membership * bool) NetError :=
  let p := plan pending in
  let m := membership current in
  let ids := dom (nodes m) in
  if stable_previous m p then
    learner <-? history_membership h [previous_voters p] ({[consumer p]} ∪ ids);
    removed <-? history_membership h [previous_voters p] (ids ∖ {[consumer p]});
    if opt_committed (learner_applied pending) frontier && bool_decide (consumer p ∈ learner_ids m)
    then joint <-? history_membership h [previous_voters p; next_voters p] ({[consumer p]} ∪ ids);
         Ok ([learner; removed; joint], false)
    else Ok ([learner; removed], false)
  else
    ensure (bool_decide (joint_config m = [previous_voters p; next_voters p])
            && opt_committed (learner_applied pending) frontier
            && opt_committed (membership_log_id current) frontier)
      (Refused "source final promotion requires committed joint membership") ;?
    promoted <-? history_membership h [next_voters p] (ids ∖ (previous_voters p ∖ next_voters p));
    Ok ([promoted], true).

(** [ReplicationHistory::transition]. *)
Definition transition h (source : SourceState) m (l : LogId) (frontier : option LogId)
  : Result SourceState NetError :=
  let stored := mkStoredMembership O (Some l) m in
  if bool_decide (m = membership (source_membership source))
  then Ok (source <| source_membership := stored |>)
  else match pending_join source with
       | None => Err (Refused "source membership has no prepared transition")
       | Some pending =>
           ensure (is_committed (prepared pending) frontier) (Refused "source preparation is not committed") ;?
           allowed <-? permitted h (source_membership source) pending frontier;
           ensure (bool_decide (m ∈ allowed.1))
             (Refused "source membership skips a committed transition barrier") ;?
           let source := source <| source_membership := stored |> in
           Ok (if (allowed.2 : bool) then source <| pending_join := None |> else source)
       end.

(** The [AdmissionMembership] arm of [apply]. *)
Definition source_command (source : SourceState) (c : AdmissionCommand) (l : LogId) (frontier : option LogId)
  : Result SourceState NetError :=
  let m := membership (source_membership source) in
  match c with
  | PrepareJoin p =>
      match pending_join source with
      | Some pending =>
          ensure (bool_decide (plan pending = p)) (Refused "source has another pending join") ;? Ok source
      | None =>
          ensure (stable_previous m p) (Refused "source preparation differs from stable previous voters") ;?
          Ok (source <| pending_join := Some (mkPreparedJoin p l None) |>)
      end
  | CancelJoin p prep =>
      match pending_join source with
      | None => Err (Refused "source cancellation has no pending join")
      | Some pending =>
          ensure (bool_decide (plan pending = p) && bool_decide (prepared pending = prep)
                  && is_committed prep frontier && stable_previous m p
                  && negb (bool_decide (consumer p ∈ node_ids m)))
            (Refused "source cancellation differs from removed committed learner") ;?
          Ok (source <| pending_join := None |>)
      end
  | LearnerApplied c nonce prep =>
      match pending_join source with
      | None => Err (Refused "source acknowledgement has no pending join")
      | Some pending =>
          ensure (bool_decide (consumer (plan pending) = c) && bool_decide (plan_nonce (plan pending) = nonce)
                  && bool_decide (prepared pending = prep) && is_committed prep frontier)
            (Refused "source acknowledgement differs from committed preparation") ;?
          match learner_applied pending with
          | Some _ => Ok source
          | None =>
              ensure (stable_previous m (plan pending) && bool_decide (c ∈ learner_ids m)
                      && opt_committed (membership_log_id (source_membership source)) frontier)
                (Refused "source acknowledgement requires a committed learner") ;?
              Ok (source <| pending_join := Some (mkPreparedJoin (plan pending) (prepared pending) (Some l)) |>)
          end
      end
  end.

(** [ReplicationHistory::apply]. *)
Definition source_apply h a (source : SourceState) (e : Entry) (frontier : option LogId)
  : Result SourceState NetError :=
  source <-? match payload e with
             | MembershipChange m => transition h source m (entry_log_id e) frontier
             | Normal (AdmissionMembership c) => source_command source c (entry_log_id e) frontier
             | Normal r => auth_command a r (entry_log_id e) ;? Ok source
             | Blank => Ok source
             end;
  Ok (source <| cursor := Some (entry_log_id e) |>).

(** The index after a cursor; the additions of [validate] do not overflow, since
    a larger index was seen before. *)
Definition next_index (c : option LogId) : N :=
  match c with Some l => (index l + 1)%N | None => 0%N end.

(** The first loop of [validate]: the batch is consecutive and its data is valid. *)
Fixpoint check_batch h a (next : option N) (es : list Entry) : Result unit NetError :=
  match es with
  | [] => Ok tt
  | e :: es =>
      ensure (bool_decide (Some (index (entry_log_id e)) = next))
        (Refused "replicated entries are not consecutive") ;?
      data h a e ;?
      check_batch h a (u64_checked_add (index (entry_log_id e)) 1) es
  end.

(** The loop over the local entries up to the previous log id. *)
Fixpoint replay_prefix h a (count : nat) (i : N) (source : SourceState) (frontier : option LogId)
  : Result SourceState NetError :=
  match count with
  | 0 => Ok source
  | S count =>
      match history_entries h !! i with
      | None => Err ReplicationConflict
      | Some e =>
          data h a e ;?
          source <-? source_apply h a source e frontier;
          replay_prefix h a count (i + 1) source frontier
      end
  end.

(** The loop over the batch. *)
Fixpoint replay_batch h a (es : list Entry) (source : SourceState) (frontier : option LogId)
  : Result SourceState NetError :=
  match es with
  | [] => Ok source
  | e :: es =>
      if match auth_last_applied a with
         | Some applied => (index (entry_log_id e) <=? index applied)%N | None => false end
      then
        ensure (match auth_last_applied a with
                | Some applied => negb (index (entry_log_id e) =? index applied)%N
                                  || bool_decide (applied = entry_log_id e)
                | None => true
                end) ReplicationConflict ;?
        replay_batch h a es source frontier
      else
        ensure (index (entry_log_id e) =? next_index (cursor source))%N ReplicationConflict ;?
        source <-? source_apply h a source e frontier;
        replay_batch h a es source frontier
  end.

(** The state the replay starts from. *)
Definition source_start h a : Result SourceState NetError :=
  match auth_last_applied a with
  | Some _ => Ok (mkSourceState (committed_membership a) (auth_prepared_join a) (auth_last_applied a))
  | None =>
      m <-? history_membership h [voters (genesis_of a)] (voters (genesis_of a));
      Ok (mkSourceState (mkStoredMembership O None m) None None)
  end.

(** The replay of the local entries between the cursor and the previous log id. *)
Definition reach_previous h a (source : SourceState) (previous : option LogId) (frontier : option LogId)
  : Result SourceState NetError :=
  match previous with
  | None => Ok source
  | Some previous =>
      if match cursor source with Some l => (index l <? index previous)%N | None => true end then
        source <-? replay_prefix h a (N.to_nat (index previous + 1 - next_index (cursor source)))
                     (next_index (cursor source)) source frontier;
        ensure (bool_decide (cursor source = Some previous)) ReplicationConflict ;?
        Ok source
      else if match cursor source with Some l => (index previous =? index l)%N | None => false end then
        ensure (bool_decide (cursor source = Some previous)) ReplicationConflict ;?
        Ok source
      else Ok source
  end.

(** The frontier of [validate]: the highest log id known to be committed. *)
Definition frontier_of h a (req : AppendEntriesRequest) : option LogId :=
  max_by_index (omap id [history_committed h; auth_last_applied a; leader_commit req]).

(** [ReplicationHistory::validate]. *)
Definition history_validate h a (req : AppendEntriesRequest) : Result unit NetError :=
  check_batch h a (match prev_log_id req with Some l => u64_checked_add (index l) 1 | None => Some 0%N end)
    (append_entries req) ;?
  source <-? source_start h a;
  source <-? reach_previous h a source (prev_log_id req) (frontier_of h a req);
  replay_batch h a (append_entries req) source (frontier_of h a req) ;?
  Ok tt.

(** ** Snapshots (authorization/snapshot.rs) *)

(** [SnapshotIdentities]. *)
Record SnapshotIdentities := mkSnapshotIdentities {
  ids_genesis : option Genesis;
  ids_cluster_epoch : option N;
  ids_last_applied : option LogId;
  ids_last_membership : StoredMembership;
  ids_applied_progress : gmap N AppliedHealthProgress;
  ids_prepared_join : option PreparedJoin;
  ids_completed_joins : gmap N CompletedJoin
}.

Implicit Types (ids : SnapshotIdentities).

(** [RaftAuthorization::snapshot_prepared_join]. *)
Definition snapshot_prepared_join a (p : PreparedJoin) (stored : StoredMembership) (last_applied : option LogId)
  : Result unit NetError :=
  join_plan_data a (plan p) ;?
  auth_log a (Some (prepared p)) ;?
  auth_log a (learner_applied p) ;?
  match last_applied with
  | None => Err (Refused "prepared snapshot has no applied log")
  | Some applied =>
      ensure (index (prepared p) <=? index applied)%N (Refused "snapshot preparation is not applied") ;?
      let m := membership stored in
      let stable := stable_previous m (plan p) in
      let joint := bool_decide (joint_config m = [previous_voters (plan p); next_voters (plan p)]) in
      ensure (stable || joint) (Refused "snapshot preparation differs from its membership") ;?
      let learner := bool_decide (consumer (plan p) ∈ learner_ids m) in
      ensure (negb (learner || joint)
              || match membership_log_id stored with
                 | Some l => (index (prepared p) <? index l)%N | None => false end)
        (Refused "snapshot learner membership must follow preparation") ;?
      match learner_applied p with
      | Some ack =>
          ensure ((index (prepared p) <? index ack)%N && (index ack <=? index applied)%N)
            (Refused "snapshot learner acknowledgement is not applied after preparation") ;?
          ensure (match membership_log_id stored with
                  | Some l => stable && learner && (index l <? index ack)%N
                              || (joint || stable && negb learner) && (index ack <? index l)%N
                  | None => false
                  end) (Refused "snapshot acknowledgement differs from its committed learner stage")
      | None => ensure (negb joint) (Refused "snapshot promotion lacks a learner acknowledgement")
      end
  end.

(** [same_operation] and [log_at_or_before]. *)
Definition same_operation (l r : PreparedJoin) : bool :=
  bool_decide (plan l = plan r) && bool_decide (prepared l = prepared r).

Definition log_at_or_before (earlier later : LogId) : bool :=
  (index earlier <=? index later)%N
  && (leader_term (committed_leader_id earlier) <=? leader_term (committed_leader_id later))%N
  && (negb (index earlier =? index later)%N || bool_decide (earlier = later)).

Definition opt_after (l : LogId) (later : option LogId) : bool :=
  match later with Some later => log_at_or_before l later | None => false end.

(** The body of the loop over [applied_progress]. *)
Definition snapshot_progress a ids (kv : N * AppliedHealthProgress) : Result unit NetError :=
  let progress := kv.2 in
  auth_log a (Some (log_id progress)) ;?
  auth_command a (HealthProgressReq (request progress)) (log_id progress) ;?
  ensure ((kv.1 =? node_id (request progress))%N
          && match ids_last_applied ids with
             | Some applied => (index (log_id progress) <=? index applied)%N | None => false end
          && bool_decide (replica (request progress) ∈ node_ids (membership (ids_last_membership ids))))
    (Refused "snapshot progress differs from its applied membership").

(** The body of the loop over [completed_joins]. *)
Definition snapshot_completed a ids (kv : N * CompletedJoin) : Result unit NetError :=
  let p := completed_prepared kv.2 in
  let promotion := promoted kv.2 in
  let stored := ids_last_membership ids in
  join_plan_data a (plan p) ;?
  auth_log a (Some (prepared p)) ;?
  auth_log a (learner_applied p) ;?
  auth_log a (Some promotion) ;?
  match learner_applied p with
  | None => Err (Refused "completed join has no learner acknowledgement")
  | Some ack =>
      ensure ((kv.1 =? physical_id (consumer (plan p)))%N
              && bool_decide (kv.1 ∈ configured_physical_ids a)
              && (index (prepared p) <? index ack)%N && log_at_or_before (prepared p) ack
              && (index ack <? index promotion)%N && log_at_or_before ack promotion
              && opt_after promotion (ids_last_applied ids)
              && opt_after promotion (membership_log_id stored)
              && bool_decide (consumer (plan p) ∈ voter_ids (membership stored)))
        (Refused "snapshot completion differs from its committed consumer or barriers") ;?
      if match membership_log_id stored with
         | Some l => (index l =? index promotion)%N | None => false end
      then ensure (bool_decide (membership_log_id stored = Some promotion)
                   && bool_decide (joint_config (membership stored) = [next_voters (plan p)]))
             (Refused "snapshot final membership differs from completed promotion")
      else Ok tt
  end.

(** Whether the snapshot completed the operation [proof]. *)
Definition completed_in ids (proof : PreparedJoin) : bool :=
  match ids_completed_joins ids !! physical_id (consumer (plan proof)) with
  | Some receipt => same_operation (completed_prepared receipt) proof
  | None => false
  end.

(** [RaftAuthorization::snapshot_bootstrap_operation]. *)
Definition snapshot_bootstrap_operation a ids : Result (option PreparedJoin) NetError :=
  match auth_bootstrap a with
  | None => Ok None
  | Some b =>
      let proof := bootstrap_prepared b in
      join_plan_data a (plan proof) ;?
      ensure (bool_decide (consumer (plan proof) = local_replica (context (session a))))
        (Refused "snapshot bootstrap belongs to another consumer") ;?
      if match ids_last_applied ids with
         | Some l => (index l <? index (prepared proof))%N | None => true end
      then Ok None
      else
        let pending := match ids_prepared_join ids with
                       | Some pending => same_operation pending proof | None => false end in
        ensure (negb (Bool.eqb pending (completed_in ids proof)))
          (Refused "snapshot must contain the exact verified pending or completed join") ;?
        Ok (Some proof)
  end.

(** The loop of [snapshot_bootstrap_membership] over the authorized memberships. *)
Fixpoint bootstrap_transition (known : list Membership) (p : JoinPlan) (completed : bool) (final : Membership)
  : Result unit NetError :=
  match known with
  | [] => Err (Refused "snapshot membership is outside the verified bootstrap transition")
  | previous :: known =>
      if negb (stable_previous previous p) || negb (bool_decide (is_Some (nodes previous !! consumer p)))
      then bootstrap_transition known p completed final
      else
        let configs := if completed then [next_voters p] else [previous_voters p; next_voters p] in
        let retained := if completed
                        then filter (λ kv, kv.1 ∉ previous_voters p ∖ next_voters p) (nodes previous)
                        else nodes previous in
        match membership_new configs retained with
        | None => Err (Refused "invalid membership")
        | Some expected =>
            if bool_decide (final = expected) then Ok tt
            else bootstrap_transition known p completed final
        end
  end.

(** [RaftAuthorization::snapshot_bootstrap_membership]. *)
Definition snapshot_bootstrap_membership a ids (proof : PreparedJoin) : Result unit NetError :=
  bootstrap_transition (memberships a) (plan proof) (completed_in ids proof)
    (membership (ids_last_membership ids)).

(** The checks of [RaftAuthorization::snapshot] on the decoded identities. *)
Definition snapshot_identities a (meta : Snapshot) ids : Result unit NetError :=
  ensure (bool_decide (ids_last_applied ids = meta_last_log_id meta)
          && bool_decide (ids_last_membership ids = meta_last_membership meta))
    (Refused "snapshot body and metadata identities differ") ;?
  ensure (bool_decide (ids_genesis ids = Some (genesis_of a))
          && bool_decide (ids_cluster_epoch ids = Some (epoch (genesis_of a))))
    (Refused "snapshot genesis differs from admission") ;?
  ensure (match membership_log_id (ids_last_membership ids) with
          | Some l => match ids_last_applied ids with
                      | Some applied => (index l <? index applied)%N || bool_decide (l = applied)
                      | None => false
                      end
          | None => true
          end) (Refused "snapshot membership does not match applied history") ;?
  for_each (snapshot_progress a ids) (btree_iter (ids_applied_progress ids)) ;?
  match ids_prepared_join ids with
  | Some p => snapshot_prepared_join a p (ids_last_membership ids) (ids_last_applied ids)
  | None => Ok tt
  end ;?
  ensure (size (ids_completed_joins ids) <=? size (configured_physical_ids a))
    (Refused "snapshot completion history exceeds the physical roster") ;?
  for_each (snapshot_completed a ids) (btree_iter (ids_completed_joins ids)) ;?
  bootstrap <-? snapshot_bootstrap_operation a ids;
  match bootstrap with
  | Some proof =>
      if bool_decide (membership (ids_last_membership ids) ∈ memberships a)
      then stored_membership a (ids_last_membership ids)
      else snapshot_bootstrap_membership a ids proof
  | None => stored_membership a (ids_last_membership ids)
  end.

Section decoding.
Context (decode_identities : list N → Result SnapshotIdentities string).
Context (decode_response : list N → Result RaftResponse string).

(** [serde_json::from_slice(..)?]. *)
Definition decoded {A} (r : Result A string) : Result A NetError :=
  match r with Ok x => Ok x | Err e => Err (Refused e) end.

(** [RaftAuthorization::snapshot]; the session is checked first and last. *)
Definition auth_snapshot a (req : SnapshotTransfer) (first_now last_now : Instant) : Result unit NetError :=
  let meta := transfer_snapshot req in
  denied (session_check (session a) first_now) ;?
  auth_log a (meta_last_log_id meta) ;?
  auth_log a (membership_log_id (meta_last_membership meta)) ;?
  ids <-? decoded (decode_identities (snapshot_data meta));
  snapshot_identities a meta ids ;?
  denied (session_check (session a) last_now) ;?
  Ok tt.

(** The entry check of [validate_request] without a replication history. *)
Definition plain_entry a (e : Entry) : Result unit NetError :=
  auth_log a (Some (entry_log_id e)) ;?
  match payload e with
  | MembershipChange m => auth_membership a m
  | Normal r => auth_command a r (entry_log_id e)
  | Blank => Ok tt
  end.

(** [RaftAuthorization::validate_request]. *)
Definition validate_request a (from : ReplicaId) (r : RaftRequest) (now first_now last_now : Instant)
  : Result unit NetError :=
  denied (session_check (session a) now) ;?
  match r with
  | RaftStatus _ | RaftAdmission _ | RaftAdmissionControl _ =>
      Err (Refused "discovery is not Raft authorization")
  | RaftVote req | RaftPreVote req =>
      sender_vote a from (request_vote req) ;?
      auth_log a (request_last_log_id req)
  | RaftAppendEntries req =>
      sender_vote a from (append_vote req) ;?
      auth_log a (prev_log_id req) ;?
      auth_log a (leader_commit req) ;?
      match replication a with
      | Some h => history_validate h a req
      | None => for_each (plain_entry a) (append_entries req)
      end
  | RaftSnapshot req =>
      sender_vote a from (transfer_vote req) ;?
      auth_snapshot a req first_now last_now
  end.

(** [RaftAuthorization::validate_response]. *)
Definition validate_response a (bytes : list N) (now : Instant) : Result unit NetError :=
  denied (session_check (session a) now) ;?
  r <-? decoded (decode_response bytes);
  match r with
  | VotedResponse r | PreVoteResponse r => auth_vote a (response_vote r) ;? auth_log a (response_last_log_id r)
  | SnapshotResponse v => auth_vote a v
  | AppendedResponse (HigherVote v) => auth_vote a v
  | AppendedResponse (PartialSuccess l) => auth_log a l
  | AppendedResponse AppendSuccess | AppendedResponse AppendConflict => Ok tt
  end.
End decoding.

(** ** Construction from the local state (authorization/state.rs) *)

Section from_state.
Context (sock_parse : Text → option SocketAddr) (sha256 : list N → list N).

(** The closure [make_membership]. *)
Definition make_membership (cfg : Config) (configs : list (gset ReplicaId)) (ids : gset ReplicaId)
  : Result Membership AdmissionDenied :=
  match resolve (λ id, raft_address <$> get_peer cfg id) ids with
  | None => Err (mkAdmissionDenied "membership contains an unconfigured physical member")
  | Some ns => match membership_new configs ns with
               | Some m => Ok m
               | None => Err (mkAdmissionDenied "invalid authorized membership")
               end
  end.

(** The binding of the context and the bootstrap to the configuration and the state. *)
Definition bound_context (cfg : Config) (state : KafStorageState) (c : AdmissionContext)
    (bootstrap : option PreparedJoin) : Result unit AdmissionDenied :=
  let unbound := mkAdmissionDenied "authorization context or bootstrap is not bound to applied state" in
  ensure (physical_id (local_replica c) =? cfg_node_id cfg)%N unbound ;?
  identity <-? match cluster_config_fingerprint sock_parse sha256 cfg with
               | Ok identity => Ok identity
               | Err _ => Err (mkAdmissionDenied "invalid local configuration")
               end;
  ensure (bool_decide (config (context_genesis c) = identity)
          && match state_genesis state with
             | Some g => bool_decide (g = context_genesis c) | None => true end
          && match cluster_epoch state with
             | Some e => (e =? epoch (context_genesis c))%N | None => true end
          && match bootstrap with
             | Some pending => bool_decide (consumer (plan pending) = local_replica c)
                               && bool_decide (plan_genesis (plan pending) = context_genesis c)
                               && negb (bool_decide (is_Some (learner_applied pending)))
             | None => true
             end) unbound.

(** The bootstrap operation, while its preparation has not been applied locally. *)
Definition bootstrapping_of (state : KafStorageState) (bootstrap : option PreparedJoin) : option PreparedJoin :=
  match bootstrap with
  | Some pending =>
      if match last_applied_log state with
         | Some l => (index l <? index (prepared pending))%N | None => true end
      then Some pending else None
  | None => None
  end.

(** Once applied, the history contains the verified join. *)
Definition history_contains (state : KafStorageState) (c : AdmissionContext) (proof : PreparedJoin) : bool :=
  match prepared_join state with Some pending => same_operation pending proof | None => false end
  || match completed_joins state !! physical_id (local_replica c) with
     | Some receipt => same_operation (completed_prepared receipt) proof
     | None => false
     end.

(** The committed membership, or the voters of the genesis before there is one. *)
Definition current_membership (cfg : Config) (state : KafStorageState) (c : AdmissionContext)
    (bootstrapping : option PreparedJoin) : Result StoredMembership AdmissionDenied :=
  stored <-?
    (if bool_decide (voter_ids (membership (last_membership state)) = []) then
       ensure (bool_decide (is_Some bootstrapping) || bool_decide (local_replica c ∈ voters (context_genesis c)))
         (mkAdmissionDenied "bootstrap requires a verified exact join roster") ;?
       m <-? make_membership cfg [voters (context_genesis c)] (voters (context_genesis c));
       Ok (mkStoredMembership O None m)
     else Ok (last_membership state));
  ensure (match membership_log_id stored with
          | Some l => match last_applied_log state with
                      | Some applied => (index l <=? index applied)%N | None => false end
          | None => true
          end) (mkAdmissionDenied "membership is not committed locally") ;?
  m <-? make_membership cfg (joint_config (membership stored)) (dom (nodes (membership stored)));
  ensure (bool_decide (m = membership stored))
    (mkAdmissionDenied "membership addresses differ from configured roster") ;?
  Ok stored.

(** [map_err(|_| AdmissionDenied(..))]. *)
Definition or_deny {A} (r : Result A NetError) (reason : string) : Result A AdmissionDenied :=
  match r with Ok x => Ok x | Err _ => Err (mkAdmissionDenied reason) end.

(** The memberships a bootstrapping consumer may see. *)
Definition with_bootstrap (cfg : Config) (a : RaftAuthorization) (bootstrapping : option PreparedJoin)
  : Result RaftAuthorization AdmissionDenied :=
  match bootstrapping with
  | None => Ok a
  | Some proof =>
      let previous := previous_voters (plan proof) in
      or_deny (join_plan_data a (plan proof)) "invalid verified bootstrap roster" ;?
      stable <-? make_membership cfg [previous] previous;
      learner <-? make_membership cfg [previous] ({[consumer (plan proof)]} ∪ previous);
      Ok (a <| auth_voters := previous |> <| memberships := memberships a ++ [stable; learner] |>)
  end.

(** The memberships the pending join may reach next. *)
Definition next_memberships (cfg : Config) (current : Membership) (pending : PreparedJoin)
  : Result (list Membership) AdmissionDenied :=
  let p := plan pending in
  let ids := dom (nodes current) in
  if stable_previous current p then
    learner <-? make_membership cfg [previous_voters p] ({[consumer p]} ∪ ids);
    removed <-? make_membership cfg [previous_voters p] (ids ∖ {[consumer p]});
    if bool_decide (is_Some (learner_applied pending)) && bool_decide (consumer p ∈ learner_ids current)
    then joint <-? make_membership cfg [previous_voters p; next_voters p] ({[consumer p]} ∪ ids);
         Ok [learner; removed; joint]
    else Ok [learner; removed]
  else if bool_decide (is_Some (learner_applied pending)) then
    promoted <-? make_membership cfg [next_voters p] (ids ∖ (previous_voters p ∖ next_voters p));
    Ok [promoted]
  else Ok [].

(** The memberships of the pending join, with its consistency check. *)
Definition with_pending (cfg : Config) (state : KafStorageState) (a : RaftAuthorization)
  : Result RaftAuthorization AdmissionDenied :=
  let current := membership (committed_membership a) in
  match prepared_join state with
  | Some pending =>
      or_deny (snapshot_prepared_join a pending (committed_membership a) (auth_last_applied a))
        "pending join has no consistent committed barriers" ;?
      more <-? next_memberships cfg current pending;
      Ok (a <| log_replicas := log_replicas a ∪ (previous_voters (plan pending) ∪ next_voters (plan pending)) |>
            <| memberships := memberships a ++ more |>)
  | None =>
      ensure (length (joint_config current) =? 1)
        (mkAdmissionDenied "joint membership lacks a committed join operation") ;?
      Ok a
  end.

(** The leaders of the log ids the state knows. *)
Definition known_leaders (state : KafStorageState) : gset ReplicaId :=
  list_to_set ((λ l, leader_node (committed_leader_id l)) <$>
    omap id [last_purged_log_id state; last_applied_log state; committed state;
             membership_log_id (last_membership state)]).

(** [RaftAuthorization::from_state]; [session.check()] reads the clock at [now]. *)
Definition from_state (cfg : Config) (state : KafStorageState) (peer : ReplicaId)
    (bootstrap : option VerifiedJoinBootstrap) (now : Instant) : Result RaftAuthorization AdmissionDenied :=
  match admission state with
  | None => Err (mkAdmissionDenied "no active admission session")
  | Some s =>
      session_check s now ;?
      let c := context s in
      let proof := bootstrap_prepared <$> bootstrap in
      let configured : gset N := list_to_set (peer_id <$> peers cfg) in
      validate_roster (context_genesis c) configured ;?
      bound_context cfg state c proof ;?
      match proof with Some pending => plan_validate (plan pending) | None => Ok tt end ;?
      let bootstrapping := bootstrapping_of state proof in
      ensure (match proof, bootstrapping with
              | Some proof, None => history_contains state c proof
              | _, _ => true
              end) (mkAdmissionDenied "applied history does not contain the verified join") ;?
      stored <-? current_membership cfg state c bootstrapping;
      let ids := dom (nodes (membership stored)) in
      a <-? with_bootstrap cfg
              (mkRaftAuthorization s peer configured (list_to_set (voter_ids (membership stored)))
                 (voters (context_genesis c) ∪ ids) [membership stored] stored (last_applied_log state)
                 (prepared_join state) bootstrap (Some (history_from_state cfg state))) bootstrapping;
      a <-? with_pending cfg state a;
      let a := a <| log_replicas := log_replicas a ∪ known_leaders state |> in
      ensure (match bootstrapping with
              | Some proof => bool_decide (peer ∈ previous_voters (plan proof))
              | None => bool_decide (peer ∈ ids)
              end
              || match prepared_join state with
                 | Some pending => bool_decide (consumer (plan pending) = peer) | None => false end)
        (mkAdmissionDenied "peer is not an exact committed member or prepared learner") ;?
      Ok a
  end.
End from_state.

End authorization.
