(* ===== verification/ReplayTheorems.v ===== *)
(** * What the network accepts is what the state machine applies

    The replay of replicated entries (src/raft/network/authorization/replay.rs)
    simulates the join protocol of the state machine
    (src/raft/store/membership.rs) before the entries are committed.  The
    simulation relation below is kept by every accepted entry, so no entry of
    the join protocol that the network lets through is rejected when it is
    applied. *)

From S2P Require Import Prelude Text Io Replica Openraft Admission Types VipLogic State StoreMembership.
From S2P Require Import StateMachine StateFrame StateTheorems JoinProtocol LogStore LogTheorems Config Fingerprint Controller Request Authorization.

Section simulation.
Context {O : Openraft} {laws : OpenraftLaws O}.
Implicit Types (s t : KafStorageState) (e : Entry) (a : RaftAuthorization) (h : ReplicationHistory).
Implicit Types (src : SourceState) (m : Membership).

Lemma ensured {E} c (err : E) u : ensure c err = Ok u → c = true.
Proof. by destruct c. Qed.

Lemma denied_ok {A} (r : Result A AdmissionDenied) x : denied r = Ok x → r = Ok x.
Proof. unfold denied. destruct r; [by intros [= ->]|done]. Qed.

(** A stable configuration has the voters it names. *)
Lemma stable_voter_set m vs : joint_config m = [vs] → voter_set m = vs.
Proof.
  intros Hm. apply set_eq. intros r. unfold voter_set. rewrite elem_of_list_to_set, voter_ids_joint, Hm.
  set_solver.
Qed.

Lemma stable_previous_ok m p :
  stable_previous m p = true → joint_config m = [previous_voters p] ∧ joint_config_len m = 1 ∧
    voter_set m = previous_voters p.
Proof.
  intros Hs%bool_decide_eq_true. split_and!; [done|unfold joint_config_len; by rewrite Hs|by apply stable_voter_set].
Qed.

Lemma history_membership_ok h cs ids m :
  history_membership h cs ids = Ok m → joint_config m = cs ∧ dom (nodes m) = ids.
Proof.
  unfold history_membership. destruct (resolve _ ids) as [ns|] eqn:Hr; [|done].
  destruct (membership_new cs ns) as [m'|] eqn:Hm; [|done]. intros [= <-].
  apply membership_new_spec in Hm as [-> ->]. split; [done|]. by eapply resolve_dom.
Qed.

(** A pending join fits its membership and the log up to the index [n]. *)
Definition join_consistent (g : Genesis) m (pj : option PreparedJoin) (n : N) : Prop :=
  ∀ p, pj = Some p →
    plan_validate (plan p) = Ok tt ∧ plan_genesis (plan p) = g ∧
    (joint_config m = [previous_voters (plan p)] ∨
     joint_config m = [previous_voters (plan p); next_voters (plan p)]) ∧
    (index (prepared p) ≤ n)%N ∧ (∀ ack, learner_applied p = Some ack → (index ack ≤ n)%N).

Lemma join_consistent_mono g m pj n n' :
  (n ≤ n')%N → join_consistent g m pj n → join_consistent g m pj n'.
Proof.
  intros Hn Hj p Hp. destruct (Hj p Hp) as (? & ? & ? & ? & Hack). split_and!; [done..|lia|].
  intros ack Ha. specialize (Hack ack Ha). lia.
Qed.

(** The relation between the simulated source and the state machine. *)
Record tracks a src s : Prop := {
  tracks_membership : source_membership src = last_membership s;
  tracks_pending : pending_join src = prepared_join s;
  tracks_cursor : cursor src = last_applied_log s;
  tracks_genesis : state_genesis s = Some (context_genesis (context (session a)));
  tracks_started : is_Some (cursor src);
  tracks_consistent : join_consistent (context_genesis (context (session a)))
    (membership (source_membership src)) (pending_join src) (next_index (cursor src) - 1)
}.

(** The entries of the join protocol. *)
Definition protocol_entry e : bool :=
  match payload e with
  | MembershipChange _ | Normal (AdmissionMembership _) => true
  | _ => false
  end.

(** The boots before and after a replacement differ. *)
Lemma plan_changes p : plan_validate p = Ok tt → previous_voters p ≠ next_voters p.
Proof.
  intros [Hnew Hmem _ _]%plan_validate_ok Heq. apply Hnew. rewrite Heq. apply Hmem. by left.
Qed.

(** ** Commands *)

Lemma join_plan_data_ok a p :
  join_plan_data a p = Ok tt → plan_validate p = Ok tt ∧ plan_genesis p = context_genesis (context (session a)).
Proof.
  unfold join_plan_data. destruct (denied (plan_validate p)) as [[]|] eqn:Hv; [|done].
  destruct (denied (validate_roster _ _)); [|done].
  destruct (ensure (bool_decide (plan_genesis p = _)) _) eqn:Hg; [|done]. intros _.
  split; [by apply denied_ok|]. by apply ensured, bool_decide_eq_true in Hg.
Qed.

(** What [data] establishes of a join command. *)
Definition command_data (g : Genesis) (l : LogId) (c : AdmissionCommand) : Prop :=
  match c with
  | PrepareJoin p => plan_validate p = Ok tt ∧ plan_genesis p = g
  | CancelJoin p prep => plan_genesis p = g ∧ (index prep < index l)%N
  | LearnerApplied _ _ prep => (index prep < index l)%N
  end.

Lemma data_command h a e c :
  data h a e = Ok tt → payload e = Normal (AdmissionMembership c) →
  command_data (context_genesis (context (session a))) (entry_log_id e) c.
Proof.
  unfold data. destruct (auth_log a _) as [[]|]; [|done]. intros Hd Hp. rewrite Hp in Hd.
  destruct c as [p|p prep|c nonce prep]; cbn.
  - by apply join_plan_data_ok in Hd.
  - destruct (join_plan_data a p) as [[]|] eqn:Hj; [|done]. destruct (auth_log a _); [|done].
    apply join_plan_data_ok in Hj as [_ Hg]. apply ensured in Hd. n_compare. done.
  - destruct (ensure _ _); [|done]. destruct (auth_log a _); [|done]. apply ensured in Hd. by n_compare.
Qed.

(** Settle the guards of the state machine that the hypotheses decide. *)
Local Ltac settled :=
  repeat first [rewrite bool_decide_true by (done || lia) | rewrite bool_decide_false by (done || lia)]; cbn.

Lemma source_command_applies src s c l frontier src' g :
  source_membership src = last_membership s → pending_join src = prepared_join s → state_genesis s = Some g →
  command_data g l c → source_command src c l frontier = Ok src' →
  join_consistent g (membership (source_membership src)) (pending_join src) (index l) →
  let '(t, r) := apply_admission_membership s c l in
  r = KafOk ∧ prepared_join t = pending_join src' ∧ source_membership src' = source_membership src ∧
  join_consistent g (membership (source_membership src')) (pending_join src') (index l).
Proof.
  intros Hm Hp Hg Hd Hs Hc. unfold apply_admission_membership. unfold source_command in Hs.
  rewrite Hg, <- Hm, <- Hp. destruct c as [p|p prep|c nonce prep]; cbn in Hd.
  - destruct Hd as [Hv Hpg]. rewrite Hv, Hpg. cbn [is_err is_ok negb]. settled.
    destruct (pending_join src) as [pj|] eqn:Hpj.
    + destruct (ensure _ _) as [[]|] eqn:He; [|done]. injection Hs as <-.
      apply ensured in He. rewrite He. rewrite Hpj. by rewrite <- Hp.
    + destruct (ensure _ _) as [[]|] eqn:He; [|done]. injection Hs as <-.
      apply ensured, stable_previous_ok in He as (Hj & Hlen & Hvs). settled.
      split_and!; [done..|]. intros q [= <-]. cbn. split_and!; [done..|by left|lia|done].
  - destruct Hd as [Hpg Hlt]. destruct (pending_join src) as [pj|] eqn:Hpj; [|done].
    destruct (ensure _ _) as [[]|] eqn:He; [|done]. injection Hs as <-.
    apply ensured in He. guards. apply stable_previous_ok in H1 as (Hj & Hlen & Hvs). rewrite Hpg. settled.
    split_and!; [done..|]. intros q [=].
  - destruct (pending_join src) as [pj|] eqn:Hpj; [|done]. destruct (Hc pj eq_refl) as (Hv & Hpg & _ & Hi & _).
    destruct (ensure _ _) as [[]|] eqn:He; [|done]. apply ensured in He. guards. rewrite Hpg. settled.
    destruct (learner_applied pj) as [ack|] eqn:Hack.
    + injection Hs as <-. rewrite Hpj. by rewrite <- Hp.
    + destruct (ensure _ _) as [[]|] eqn:He'; [|done]. injection Hs as <-. apply ensured in He'. guards.
      apply stable_previous_ok in H3 as (Hj & Hlen & Hvs). settled.
      split_and!; [done..|]. intros q [= <-]. cbn. split_and!; [done..|by left|done|]. intros ? [= <-]. lia.
Qed.
(** ** Memberships *)

(** What a permitted successor of the membership looks like. *)
Lemma permitted_ok h cur pj frontier ms final m :
  permitted h cur pj frontier = Ok (ms, final) → m ∈ ms →
  if final then joint_config m = [next_voters (plan pj)] ∧ is_Some (learner_applied pj)
  else joint_config m = [previous_voters (plan pj)] ∨
       joint_config m = [previous_voters (plan pj); next_voters (plan pj)].
Proof.
  unfold permitted. destruct (stable_previous _ _).
  - destruct (history_membership h _ ({[_]} ∪ _)) as [m1|] eqn:H1; [|done].
    destruct (history_membership h _ (_ ∖ _)) as [m2|] eqn:H2; [|done].
    apply history_membership_ok in H1 as [H1 _], H2 as [H2 _]. destruct (_ && _).
    + destruct (history_membership h [_; _] _) as [m3|] eqn:H3; [|done].
      apply history_membership_ok in H3 as [H3 _]. intros [= <- <-]. set_solver.
    + intros [= <- <-]. set_solver.
  - destruct (ensure _ _) as [[]|] eqn:He; [|done]. apply ensured in He. guards.
    destruct (history_membership h _ _) as [m1|] eqn:H1'; [|done].
    apply history_membership_ok in H1' as [Hj _]. intros [= <- <-] ->%list_elem_of_singleton.
    split; [done|]. by destruct (learner_applied pj).
Qed.

(** A membership that is not the final one of the pending join completes nothing. *)
Lemma completes_join_none s m l pj :
  prepared_join s = Some pj → plan_validate (plan pj) = Ok tt →
  joint_config m = [previous_voters (plan pj)] ∨ joint_config m = [previous_voters (plan pj); next_voters (plan pj)] →
  completes_join s m l = None.
Proof.
  intros Hp Hv Hj. destruct (completes_join s m l) as [q|] eqn:Hc; [|done]. exfalso.
  apply completes_join_Some in Hc as (Hq & Hlen & Hvs & _). rewrite Hp in Hq. injection Hq as <-.
  apply plan_changes in Hv. unfold joint_config_len in Hlen. destruct Hj as [Hj|Hj]; [|by rewrite Hj in Hlen].
  apply stable_voter_set in Hj. congruence.
Qed.

Lemma completes_join_final s m l pj ack :
  prepared_join s = Some pj → learner_applied pj = Some ack → (index ack < index l)%N →
  joint_config m = [next_voters (plan pj)] → completes_join s m l = Some pj.
Proof.
  intros Hp Ha Hlt Hj. unfold completes_join. rewrite Hp, Ha. unfold joint_config_len. rewrite Hj.
  apply stable_voter_set in Hj. by rewrite !bool_decide_true by (done || lia).
Qed.

Lemma transition_applies h src s m l frontier src' g :
  source_membership src = last_membership s → pending_join src = prepared_join s →
  transition h src m l frontier = Ok src' →
  join_consistent g (membership (source_membership src)) (pending_join src) (index l - 1) → (0 < index l)%N →
  source_membership src' = mkStoredMembership O (Some l) m ∧
  pending_join src' = match completes_join s m l with Some _ => None | None => prepared_join s end ∧
  join_consistent g m (pending_join src') (index l).
Proof.
  intros Hm Hp Ht Hc Hl. unfold transition in Ht. case_bool_decide as Heq.
  - injection Ht as <-. assert (completes_join s m l = None) as Hnone.
    { destruct (prepared_join s) as [pj|] eqn:Hpj; [|unfold completes_join; by rewrite Hpj].
      destruct (Hc pj Hp) as (Hv & _ & Hj & _). rewrite <- Heq in Hj. by eapply completes_join_none. }
    rewrite Hnone. split_and!; [done..|]. cbn. rewrite Heq.
    eapply join_consistent_mono; [|done]. lia.
  - destruct (pending_join src) as [pj|] eqn:Hpj; [|done]. destruct (Hc pj eq_refl) as (Hv & Hg & Hj & Hi & Hack).
    destruct (ensure _ _); [|done]. destruct (permitted _ _ _ _) as [[ms final]|] eqn:Hperm; [|done].
    destruct (ensure (bool_decide (m ∈ _)) _) eqn:He; [|done]. apply ensured, bool_decide_eq_true in He.
    injection Ht as <-. pose proof (permitted_ok _ _ _ _ _ _ _ Hperm He) as Hshape. cbn [fst snd] in *. destruct final.
    + destruct Hshape as [Hjm [ack Ha]]. rewrite (completes_join_final s m l pj ack); [|done|done| |done].
      * split_and!; [done..|]. by intros ? [=].
      * specialize (Hack ack Ha). lia.
    + rewrite (completes_join_none s m l pj) by done. split_and!; [done|cbn; congruence|]. cbn. rewrite Hpj.
      intros q [= <-]. split_and!; [done..|lia|]. intros ack Ha. specialize (Hack ack Ha). lia.
Qed.
(** ** Entries *)

Local Abbreviation entering s e := (s <| last_applied_log := Some (entry_log_id e) |>).

(** The fields of the join protocol after an entry, and the answer. *)
Lemma apply_one_protocol s e :
  let t := (apply_one s e).1 in
  last_membership t = last_membership (dispatch (entering s e) e).1.1 ∧
  prepared_join t = prepared_join (dispatch (entering s e) e).1.1 ∧
  (apply_one s e).2 = (dispatch (entering s e) e).1.2.
Proof.
  unfold apply_one. destruct (dispatch _ e) as [[t r] []]; cbn [fst snd]; [|done].
  destruct (recompute_shape t) as (?&?&?&?&?&?& ->). by destruct t.
Qed.

Lemma apply_one_genesis s e g : state_genesis s = Some g → state_genesis (apply_one s e).1 = Some g.
Proof. apply (way_genesis _ _ (apply_one_one_way s e)). Qed.

(** One accepted entry. *)
Lemma source_apply_tracks h a src s e frontier src' :
  tracks a src s → data h a e = Ok tt → index (entry_log_id e) = next_index (cursor src) →
  source_apply h a src e frontier = Ok src' →
  tracks a src' (apply_one s e).1 ∧ (protocol_entry e = true → (apply_one s e).2 = KafOk).
Proof.
  intros [Hm Hp Hcur Hg [l Hl] Hc] Hd Hi Hs.
  pose proof (apply_one_protocol s e) as (Hm' & Hp' & Hr). pose proof (apply_one_last_applied s e) as Hl'.
  pose proof (apply_one_genesis s e _ Hg) as Hg'. rewrite dispatch_membership in Hm'.
  pose proof (dispatch_joins (entering s e) e) as Hj. cbv zeta in Hj, Hm', Hp'.
  assert (Hm1 : source_membership src = last_membership (entering s e)) by by destruct s.
  assert (Hp1 : pending_join src = prepared_join (entering s e)) by by destruct s.
  assert (Hg1 : state_genesis (entering s e) = Some (context_genesis (context (session a)))) by by destruct s.
  assert (Hpos : (0 < index (entry_log_id e))%N) by (rewrite Hi, Hl; cbn; lia).
  assert (Hc1 : join_consistent (context_genesis (context (session a))) (membership (source_membership src))
                  (pending_join src) (index (entry_log_id e) - 1)).
  { by rewrite Hi. }
  assert (Hfin : ∀ src'', source_membership src'' = last_membership (apply_one s e).1 →
    pending_join src'' = prepared_join (apply_one s e).1 →
    join_consistent (context_genesis (context (session a))) (membership (source_membership src''))
      (pending_join src'') (index (entry_log_id e)) →
    tracks a (src'' <| cursor := Some (entry_log_id e) |>) (apply_one s e).1).
  { intros x Hx Hy Hz. split; [done|done|done|done|done|]. cbn. by replace (_ - 1)%N with (index (entry_log_id e)) by lia. }
  assert (Hquiet : last_membership (apply_one s e).1 = last_membership (entering s e) →
    prepared_join (apply_one s e).1 = prepared_join (entering s e) →
    tracks a (src <| cursor := Some (entry_log_id e) |>) (apply_one s e).1).
  { intros Hx Hy. apply Hfin; [congruence..|]. eapply join_consistent_mono; [|done]. lia. }
  unfold source_apply in Hs. unfold protocol_entry. rewrite Hp' in *. clear Hp' Hcur Hl' Hg'.
  destruct (payload e) as [|[| |c| | | | |]|m] eqn:Hpay;
    try (destruct (auth_command a _ _); [|done]);
    try (injection Hs as <-; destruct Hj as [Hj _]; split; [by apply Hquiet|done]).
  - destruct (source_command src c _ frontier) as [src1|] eqn:Hsc; [|done]. injection Hs as <-.
    pose proof (source_command_applies src (entering s e) c _ _ _ _ Hm1 Hp1 Hg1 (data_command _ _ _ _ Hd Hpay) Hsc) as Hap.
    destruct (apply_admission_membership _ c _) as [t r] eqn:Ht.
    destruct Hap as (-> & Hpt & Hsm & Hct); [eapply join_consistent_mono; [|done]; lia|].
    split; [apply Hfin; [congruence| |done]|].
    + rewrite <- Hpt. symmetry. by apply Hj.
    + rewrite Hr. unfold dispatch. rewrite Hpay, Ht. done.
  - destruct (transition h src m _ frontier) as [src1|] eqn:Hsc; [|done]. injection Hs as <-.
    destruct (transition_applies h src (entering s e) m _ _ _ _ Hm1 Hp1 Hsc Hc1 Hpos) as (Hsm & Hsp & Hsc').
    split; [apply Hfin; [congruence| |by rewrite Hsm]|].
    + rewrite Hsp. destruct (completes_join _ _ _); by destruct Hj as [-> _].
    + rewrite Hr. unfold dispatch. by rewrite Hpay.
Qed.
(** ** Batches *)

(** The answers of the state machine to a list of entries. *)
Fixpoint apply_trace s (es : list Entry) : list (Entry * KafResponse) :=
  match es with
  | [] => []
  | e :: es => (e, (apply_one s e).2) :: apply_trace (apply_one s e).1 es
  end.

(** The state machine accepts every entry of the join protocol in [es]. *)
Definition protocol_accepted s (es : list Entry) : Prop :=
  ∀ e r, (e, r) ∈ apply_trace s es → protocol_entry e = true → r = KafOk.

Lemma protocol_accepted_cons s e es :
  (protocol_entry e = true → (apply_one s e).2 = KafOk) → protocol_accepted (apply_one s e).1 es →
  protocol_accepted s (e :: es).
Proof. intros He Hes e' r [[= -> ->]|Hin]%elem_of_cons; [done|]. by apply Hes. Qed.

Lemma protocol_accepted_app s es es' :
  protocol_accepted s es → protocol_accepted (apply_all s es) es' → protocol_accepted s (es ++ es').
Proof.
  revert s. induction es as [|e es IH]; intros s Hes Hes'; [done|].
  apply protocol_accepted_cons.
  - intros Hp. eapply Hes; [by left|done].
  - apply IH; [|done]. intros e' r Hin. apply Hes. by right.
Qed.

(** The indices [i, i + 1, ...], [count] of them. *)
Fixpoint indices (i : N) (count : nat) : list N :=
  match count with 0 => [] | S count => i :: indices (i + 1) count end.

Lemma replay_prefix_tracks h a count i src s frontier src' :
  (∀ j e, history_entries h !! j = Some e → index (entry_log_id e) = j) →
  replay_prefix h a count i src frontier = Ok src' → tracks a src s → i = next_index (cursor src) →
  ∃ es, mapM (λ j, history_entries h !! j) (indices i count) = Some es ∧
    tracks a src' (apply_all s es) ∧ protocol_accepted s es.
Proof.
  intros Hkey. revert i src s. induction count as [|count IH]; cbn; intros i src s Hr Ht Hi.
  - injection Hr as <-. exists []. split_and!; [done..|]. by intros e r []%not_elem_of_nil.
  - destruct (history_entries h !! i) as [e|] eqn:He; [|done].
    destruct (data h a e) as [[]|] eqn:Hd; [|done].
    destruct (source_apply h a src e frontier) as [src1|] eqn:Hs; [|done].
    assert (Hidx : index (entry_log_id e) = next_index (cursor src)) by (rewrite <- Hi; by apply Hkey).
    destruct (source_apply_tracks _ _ _ _ _ _ _ Ht Hd Hidx Hs) as [Ht1 Hok].
    destruct (IH (i + 1)%N src1 (apply_one s e).1 Hr Ht1) as (es & Hes & Ht2 & Hacc).
    { rewrite (tracks_cursor _ _ _ Ht1), apply_one_last_applied. cbn. by rewrite Hidx, Hi. }
    exists (e :: es). rewrite Hes. split_and!; [done..|]. by apply protocol_accepted_cons.
Qed.

Lemma check_batch_data h a next es : check_batch h a next es = Ok tt → ∀ e, e ∈ es → data h a e = Ok tt.
Proof.
  revert next. induction es as [|e es IH]; intros next H x; [by intros []%not_elem_of_nil|]. cbn in H.
  destruct (ensure _ _); [|done]. destruct (data h a e) as [[]|] eqn:Hd; [|done].
  intros [->|Hx]%elem_of_cons; [done|]. by eapply IH.
Qed.

(** The entries a batch adds to what is applied. *)
Definition fresh_entries (applied : LogId) (es : list Entry) : list Entry :=
  filter (λ e, index applied < index (entry_log_id e))%N es.

Lemma replay_batch_tracks h a applied es src s frontier src' :
  auth_last_applied a = Some applied → (∀ e, e ∈ es → data h a e = Ok tt) →
  replay_batch h a es src frontier = Ok src' → tracks a src s →
  tracks a src' (apply_all s (fresh_entries applied es)) ∧ protocol_accepted s (fresh_entries applied es).
Proof.
  intros Ha. revert src s. induction es as [|e es IH]; cbn [replay_batch]; intros src s Hd Hr Ht.
  - injection Hr as <-. split; [done|]. by intros e r []%not_elem_of_nil.
  - rewrite Ha in Hr. unfold fresh_entries in *. destruct (N.leb_spec (index (entry_log_id e)) (index applied)) as [Hle|Hlt].
    + destruct (ensure _ _); [|done]. rewrite filter_cons_False by lia. apply (IH src); [|done..]. intros x Hx. apply Hd. by right.
    + destruct (ensure _ _) as [[]|] eqn:He; [|done]. apply ensured, N.eqb_eq in He.
      destruct (source_apply h a src e frontier) as [src1|] eqn:Hs; [|done].
      destruct (source_apply_tracks _ _ _ _ _ _ _ Ht (Hd e ltac:(by left)) He Hs) as [Ht1 Hok].
      rewrite filter_cons_True by lia. destruct (IH src1 (apply_one s e).1) as [Ht2 Hacc]; [|done..|].
      * intros x Hx. apply Hd. by right.
      * split; [done|]. by apply protocol_accepted_cons.
Qed.
End simulation.
