(* ===== verification/Tasks.v ===== *)
(** * Asynchronous tasks

    An asynchronous function is a tree of the events it performs: a section it
    runs while it holds a lock, or a call it awaits.  Between two events other
    tasks may run, so a theorem about a tree speaks of every interleaving.  The
    signature [Ev] gives for each event the type of its answer; a function that
    returns [Result] ends in [Ret], and [?] is the monadic bind. *)

From S2P Require Import Prelude.

Section task.
Context (Ev : Type → Type) (E : Type).

Inductive task (A : Type) : Type :=
| Ret (r : Result A E)
| Do {X : Type} (e : Ev X) (k : X → task A).
Arguments Ret {A}.
Arguments Do {A X}.

(** Sequencing: an error ends the task. *)
Fixpoint task_bind {A B} (k : A → task B) (t : task A) : task B :=
  match t with
  | Ret (Ok a) => k a
  | Ret (Err e) => Ret (Err e)
  | Do e f => Do e (λ x, task_bind k (f x))
  end.

(** The result of a task as a value, for code that inspects it. *)
Fixpoint outcome {A} (t : task A) : task (Result A E) :=
  match t with
  | Ret r => Ret (Ok r)
  | Do e f => Do e (λ x, outcome (f x))
  end.

(** An event whose answer is the value, and one whose answer may be an error. *)
Definition perform {X} (e : Ev X) : task X := Do e (λ x, Ret (Ok x)).
Definition attempt_ev {X} (e : Ev (Result X E)) : task X := Do e Ret.

(** A guard that is evaluated before every event of a task and may end it:
    [tokio::time::timeout] and the select loops around a task. *)
Fixpoint guarded {A} (guard : task unit) (t : task A) : task A :=
  match t with
  | Ret r => Ret r
  | Do e f => task_bind (λ _, Do e (λ x, guarded guard (f x))) guard
  end.

(** [tokio::select!] of a task with a condition that ends it with a result. *)
Fixpoint interruptible {A} (condition : task (option (Result A E))) (t : task A) : task A :=
  match t with
  | Ret r => Ret r
  | Do e f =>
      task_bind (λ ended, match ended with
                          | Some r => Ret r
                          | None => Do e (λ x, interruptible condition (f x))
                          end) condition
  end.

(** ** Histories *)

(** An event together with its answer. *)
Definition answered : Type := { X : Type & (Ev X * X)%type }.
Definition did {X} (e : Ev X) (x : X) : answered := existT X (e, x).

(** [runs t h r]: with the answers of the history [h], the task returns [r]. *)
Fixpoint runs {A} (t : task A) (h : list answered) (r : Result A E) : Prop :=
  match t, h with
  | Ret r', [] => r' = r
  | Do e k, a :: h => ∃ x, a = did e x ∧ runs (k x) h r
  | _, _ => False
  end.

(** [reaches t h]: the task can have performed [h], and then wait or be cancelled. *)
Fixpoint reaches {A} (t : task A) (h : list answered) : Prop :=
  match h, t with
  | [], _ => True
  | a :: h, Do e k => ∃ x, a = did e x ∧ reaches (k x) h
  | _ :: _, Ret _ => False
  end.

(** [safe V P Q h t]: after the history [h] (newest last), every event of the task
    satisfies [P] when it is performed, for all answers that [V] allows, and its
    result satisfies [Q]. *)
Fixpoint safe {A} (V : ∀ X, Ev X → X → Prop) (P : list answered → ∀ X, Ev X → Prop)
    (Q : list answered → Result A E → Prop) (h : list answered) (t : task A) : Prop :=
  match t with
  | Ret r => Q h r
  | Do e k => P h _ e ∧ ∀ x, V _ e x → safe V P Q (h ++ [did e x]) (k x)
  end.

Section rules.
Context (V : ∀ X, Ev X → X → Prop) (P : list answered → ∀ X, Ev X → Prop).

(** The answers of a history are allowed. *)
Definition allowed (a : answered) : Prop := V (projT1 a) (projT2 a).1 (projT2 a).2.

Lemma safe_mono {A} (Q Q' : list answered → Result A E → Prop) h t :
  safe V P Q h t → (∀ h' r, Q h' r → Q' h' r) → safe V P Q' h t.
Proof.
  revert h. induction t as [r|X e k IH]; intros h Hs HQ; cbn in *; [auto|].
  destruct Hs as [He Hs]. split; [done|]. eauto.
Qed.

Lemma safe_bind {A B} (Q : list answered → Result B E → Prop) h (t : task A) (k : A → task B) :
  safe V P (λ h' r, match r with Ok a => safe V P Q h' (k a) | Err e => Q h' (Err e) end) h t →
  safe V P Q h (task_bind k t).
Proof.
  revert h. induction t as [[a|e]|X e f IH]; intros h; cbn; [done..|].
  intros [He Hs]. split; [done|]. intros x Hx. apply IH, Hs, Hx.
Qed.

Lemma safe_outcome {A} (Q : list answered → Result (Result A E) E → Prop) h (t : task A) :
  safe V P (λ h' r, Q h' (Ok r)) h t → safe V P Q h (outcome t).
Proof.
  revert h. induction t as [r|X e f IH]; intros h; cbn; [done|].
  intros [He Hs]. split; [done|]. intros x Hx. apply IH, Hs, Hx.
Qed.

(** What a safe task's events and results satisfy. *)
Lemma safe_reaches {A} (Q : list answered → Result A E → Prop) h0 t h1 X (e : Ev X) x h2 :
  safe V P Q h0 t → reaches t (h1 ++ did e x :: h2) → Forall allowed h1 → P (h0 ++ h1) X e.
Proof.
  revert t h0. induction h1 as [|a h1 IH]; intros [r|Y e' k] h0 Hs Hr Hv; cbn in Hr; [done| |done|].
  - destruct Hs as [He _], Hr as (y & Heq & _). rewrite app_nil_r.
    change ((λ a : answered, P h0 (projT1 a) (projT2 a).1) (did e x)). by rewrite Heq.
  - destruct Hs as [_ Hs], Hr as (y & -> & Hr). rewrite cons_middle, app_assoc.
    apply Forall_cons in Hv as [Hy Hv]. by eapply IH; [apply Hs|..].
Qed.

Lemma safe_runs {A} (Q : list answered → Result A E → Prop) h0 t h r :
  safe V P Q h0 t → runs t h r → Forall allowed h → Q (h0 ++ h) r.
Proof.
  revert t h0. induction h as [|a h IH]; intros [r'|Y e k] h0 Hs Hr Hv; cbn in Hr; [| done | done |].
  - subst. by rewrite app_nil_r.
  - destruct Hs as [_ Hs], Hr as (y & -> & Hr). rewrite cons_middle, app_assoc.
    apply Forall_cons in Hv as [Hy Hv]. by eapply IH; [apply Hs|..].
Qed.

(** The history a task starts from is the beginning of those it ends with. *)
Lemma safe_prefix {A} (Q : list answered → Result A E → Prop) h t :
  safe V P Q h t → safe V P (λ h' r, Q h' r ∧ h `prefix_of` h') h t.
Proof.
  revert h. induction t as [r|X e k IH]; intros h; cbn; [by split|].
  intros [He Hs]. split; [done|]. intros x Hx. eapply safe_mono; [apply IH, Hs, Hx|].
  cbn. intros h' r [HQ Hp]. split; [done|]. etrans; [|exact Hp]. by apply prefix_app_r.
Qed.

(** Conditions that only ask for earlier events survive more of them. *)
Definition monotone {T} (F : list answered → T → Prop) : Prop :=
  ∀ h h' x, h `sublist_of` h' → F h x → F h' x.

Hypothesis P_monotone : ∀ X, monotone (λ h, P h X).

Lemma safe_weaken {A} (Q : list answered → Result A E → Prop) h h' t :
  monotone Q → h `sublist_of` h' → safe V P Q h t → safe V P Q h' t.
Proof.
  intros HQ. revert h h'. induction t as [r|X e k IH]; intros h h' Hsub; cbn; [by apply HQ|].
  intros [He Hs]. split; [by eapply P_monotone|]. intros x Hx. eapply IH, Hs, Hx.
  by apply sublist_app.
Qed.

Lemma safe_guarded {A} (Q : list answered → Result A E → Prop) guard h (t : task A) :
  monotone Q →
  (∀ h', safe V P (λ h'' r, match r with Ok _ => True | Err e => Q h'' (Err e) end) h' guard) →
  safe V P Q h t → safe V P Q h (guarded guard t).
Proof.
  intros HQ Hg. revert h. induction t as [r|X e k IH]; intros h; [done|]. cbn [guarded safe]. intros [He Hs].
  apply safe_bind. eapply safe_mono; [apply safe_prefix, Hg|]. cbn. intros h' [[]|e'] [Hr Hp]; [|done].
  assert (h `sublist_of` h') by (destruct Hp as [l ->]; by apply sublist_inserts_r). split; [by eapply P_monotone|]. intros x Hx. apply IH.
  eapply safe_weaken; [done| |apply Hs, Hx]. by apply sublist_app.
Qed.

(** Tasks all of whose events are harmless. *)
Definition quiet {A} (t : task A) : Prop := ∀ h, safe V P (λ _ _, True) h t.

Lemma quiet_ret {A} (r : Result A E) : quiet (Ret r).
Proof. by intros h. Qed.

Lemma quiet_do {A X} (e : Ev X) (k : X → task A) : (∀ h, P h X e) → (∀ x, quiet (k x)) → quiet (Do e k).
Proof. intros He Hk h. split; [apply He|]. intros x _. apply Hk. Qed.

Lemma quiet_bind {A B} (t : task A) (k : A → task B) : quiet t → (∀ a, quiet (k a)) → quiet (task_bind k t).
Proof.
  intros Ht Hk h. apply safe_bind. eapply safe_mono; [apply Ht|]. intros h' [a|e] _; [apply Hk|done].
Qed.

Lemma quiet_outcome {A} (t : task A) : quiet t → quiet (outcome t).
Proof. intros Ht h. apply safe_outcome, Ht. Qed.

Lemma quiet_guarded {A} guard (t : task A) : quiet guard → quiet t → quiet (guarded guard t).
Proof.
  intros Hg Ht h. apply safe_guarded; [done| |apply Ht]. intros h'.
  eapply safe_mono; [apply Hg|]. by intros h'' [|].
Qed.

Lemma quiet_interruptible {A} condition (t : task A) : quiet condition → quiet t → quiet (interruptible condition t).
Proof.
  intros Hc Ht h. specialize (Ht h). revert h Ht. induction t as [r|X e k IH]; intros h Ht; [done|].
  cbn [interruptible]. destruct Ht as [He Ht]. apply safe_bind. eapply safe_mono; [apply safe_prefix, Hc|].
  intros h' [[r|]|e'] [_ Hp]; [done| |done].
  assert (Hs : h `sublist_of` h') by (destruct Hp as [l ->]; by apply sublist_inserts_r).
  split; [by eapply P_monotone|]. intros x Hx. apply IH.
  eapply safe_weaken; [by intros ?| |apply Ht, Hx]. by apply sublist_app.
Qed.

(** A quiet task before another: only the beginning of the history is known. *)
Lemma safe_after {A B} (Q : list answered → Result B E → Prop) h (t : task A) (k : A → task B) :
  quiet t → (∀ h' e, Q h' (Err e)) → (∀ a h', h `prefix_of` h' → safe V P Q h' (k a)) → safe V P Q h (task_bind k t).
Proof.
  intros Ht He Hk. apply safe_bind. eapply safe_mono; [apply safe_prefix, Ht|].
  intros h' [a|e] [_ Hp]; [by apply Hk|apply He].
Qed.
End rules.
End task.

Arguments Ret {Ev E A}.
Arguments Do {Ev E A X}.
Arguments task_bind {Ev E A B}.
Arguments outcome {Ev E A}.
Arguments perform {Ev E X}.
Arguments attempt_ev {Ev E X}.
Arguments guarded {Ev E A}.
Arguments interruptible {Ev E A}.
Arguments did {Ev X}.
Arguments runs {Ev E A}.
Arguments reaches {Ev E A}.
Arguments safe {Ev E A}.
Arguments allowed {Ev}.
Arguments monotone {Ev T}.
Arguments quiet {Ev E}.

#[global] Instance task_mbind Ev E : MBind (task Ev E) := λ A B k t, task_bind k t.
#[global] Instance task_mret Ev E : MRet (task Ev E) := λ A a, Ret (Ok a).

(** The rules for the steps of a [do] block. *)
Section steps.
Context {Ev : Type → Type} {E A : Type} (V : ∀ X, Ev X → X → Prop) (P : list (answered Ev) → ∀ X, Ev X → Prop).
Context (Q : list (answered Ev) → Result A E → Prop).

Lemma safe_perform {X} (e : Ev X) (k : X → task Ev E A) h :
  P h X e → (∀ x, V X e x → safe V P Q (h ++ [did e x]) (k x)) → safe V P Q h (perform e ≫= k).
Proof. by split. Qed.

Lemma safe_attempt {X} (e : Ev (Result X E)) (k : X → task Ev E A) h :
  P h _ e → (∀ h' e, Q h' (Err e)) → (∀ x, V _ e (Ok x) → safe V P Q (h ++ [did e (Ok x)]) (k x)) →
  safe V P Q h (attempt_ev e ≫= k).
Proof. intros He Herr Hk. split; [done|]. intros [x|e'] Hx; [by apply Hk|apply Herr]. Qed.

Lemma safe_lift {B} (r : Result B E) (k : B → task Ev E A) h :
  (∀ e, Q h (Err e)) → (∀ b, r = Ok b → safe V P Q h (k b)) → safe V P Q h (Ret r ≫= k).
Proof. destruct r; cbn; auto. Qed.
End steps.
