(* ===== verification/Driver.v ===== *)
(** * The admission runtime of a daemon (src/raft/admission/runtime.rs)

    The state of [RuntimeDriver] together with the shared storage, and the
    sections of its asynchronous functions that run while they hold a lock
    (runtime/driver.rs, recovery.rs, renewal.rs, discovery.rs).  Each section
    takes the instants of its clock readings in order.  The session bound to the
    storage refers to the authority of the driver, so every change of the
    authority shows in the storage ([with_authority]). *)

From S2P Require Import Prelude Text Io Replica Openraft Admission Types VipLogic State StoreMembership.
From S2P Require Import StateMachine LogStore Config Fingerprint Auth Controller Lease Freshness Request Authorization.
Local Open Scope kaf_scope.

(** ** Errors *)

(** The [anyhow] errors of the runtime, by what [failure_kind] looks for. *)
Inductive RunError :=
| Denied (e : AdmissionDenied)
| Unreachable (reason : string)
| Elapsed (reason : string)
| Unauthenticated (kind : FailureKind)
| Failed (reason : string).

(** [failure_kind]. *)
Definition failure_kind (e : RunError) : FailureKind :=
  match e with
  | Denied _ | Failed _ => PublicationRejected
  | Unreachable _ | Elapsed _ => PublicationUnavailable
  | Unauthenticated k => k
  end.

(** [?] on a [Result<_, AdmissionDenied>]. *)
Definition run_denied {A} (r : Result A AdmissionDenied) : Result A RunError :=
  match r with Ok a => Ok a | Err e => Err (Denied e) end.

(** ** State *)

(** [PublicationReadiness]. *)
Inductive PublicationReadiness := PublicationPending | PublicationReady.

(** [PendingProgress]. *)
Record PendingProgress := mkPendingProgress {
  operation : JoinBinding;
  matched_index : option N;
  acknowledged_index : option N;
  since : Instant
}.

Section driver.
Context {O : Openraft}.
Context (sock_parse : Text → option SocketAddr) (sha256 : list N → list N).
Context (hmac : list N → option (list N → list N)).
Context (encode : list N * AdmissionRequest → option (list N)).

(** [RuntimeDriver]; the locks [round] and [mutation] only order its tasks, and
    of the attached Raft handle only its presence is kept. *)
Record RuntimeDriver := mkRuntimeDriver {
  driver_cfg : Config;
  core : AdmissionController;
  driver_authority : RuntimeAuthority;
  driver_local : ReplicaId;
  driver_timing : LeaseTiming;
  driver_boot : Instant;
  attached : bool;
  bootstrap_join : option VerifiedJoinBootstrap;
  first_verified_admission : option Instant;
  pending_progress : option PendingProgress;
  stopped : bool;
  running : bool;
  admission_reported : bool
}.

#[global] Instance RuntimeDriver_eta : Eta RuntimeDriver := λ d,
  mkRuntimeDriver (driver_cfg d) (core d) (driver_authority d) (driver_local d) (driver_timing d) (driver_boot d)
    (attached d) (bootstrap_join d) (first_verified_admission d) (pending_progress d) (stopped d) (running d)
    (admission_reported d).

(** [RuntimeDriver::new]; [entropy] is the nonce [ReplicaId::fresh] draws. *)
Definition driver_new (cfg : Config) (timing : LeaseTiming) (boot : Instant) (entropy : option (list N))
  : Result RuntimeDriver RunError :=
  match entropy with
  | None => Err (Failed "replica boot entropy unavailable")
  | Some nonce =>
      let local := mkReplicaId (cfg_node_id cfg) nonce in
      core <-? run_denied (controller_new sock_parse sha256 cfg local boot (lease_admission_timing timing));
      match authority_new local timing boot with
      | None => Err (Denied (mkAdmissionDenied "admission quarantine deadline overflow"))
      | Some authority =>
          Ok (mkRuntimeDriver cfg core authority local timing boot false None None None false false false)
      end
  end.

(** [RuntimeDriver::ensure_running]. *)
Definition ensure_running (d : RuntimeDriver) : Result unit AdmissionDenied :=
  ensure (negb (stopped d)) (mkAdmissionDenied "admission runtime is shut down").

(** [RuntimeDriver::authorize_state]; the authority is checked at [now], the session at [session_now]. *)
Definition authorize_state (d : RuntimeDriver) (state : KafStorageState) (peer : ReplicaId)
    (now session_now : Instant) : Result RaftAuthorization AdmissionDenied :=
  ensure_running d ;?
  match admission state with
  | None => Err (mkAdmissionDenied "runtime has no admission session")
  | Some s =>
      (authority_check sha256 (driver_authority d) (context s) now).2 ;?
      from_state sock_parse sha256 (driver_cfg d) state peer (bootstrap_join d) session_now
  end.

(** [authorize_raft_async]: the driver checks that it runs before it waits for the state. *)
Definition authorize_raft (d : RuntimeDriver) (state : KafStorageState) (peer : ReplicaId)
    (now session_now : Instant) : Result RaftAuthorization AdmissionDenied :=
  ensure_running d ;? authorize_state d state peer now session_now.

(** The driver and the storage it shares with the engine and the network. *)
Record Node := mkNode {
  driver : RuntimeDriver;
  storage : KafStorageState
}.

#[global] Instance Node_eta : Eta Node := λ n, mkNode (driver n) (storage n).

Implicit Types (n : Node).

(** The storage's session is a reference to the authority. *)
Definition with_authority n (a : RuntimeAuthority) : Node :=
  n <| driver := driver n <| driver_authority := a |> |>
    <| storage := storage n <| admission :=
         (λ s, mkAdmissionSession (context s) (fence_of sha256 a)) <$> admission (storage n) |> |>.

(** ** Locked sections *)

(** [RuntimeDriver::attach] of the handle of the boot [id]. *)
Definition attach (d : RuntimeDriver) (id : ReplicaId) : Result RuntimeDriver RunError :=
  run_denied (ensure_running d) ;?
  ensure (bool_decide (id = driver_local d)) (Failed "attached Raft has another boot identity") ;?
  ensure (negb (attached d)) (Failed "Raft is already attached") ;?
  Ok (d <| attached := true |>).

(** [RuntimeDriver::raft]. *)
Definition raft_handle (d : RuntimeDriver) : Result unit RunError :=
  run_denied (ensure_running d) ;? ensure (attached d) (Failed "Raft has not been attached").

(** [RuntimeAuthority::current]; an expired permission is sealed. *)
Definition authority_current n (now : Instant) : Node * bool :=
  let '(p, answer) := current (permission (driver_authority (driver n))) now in
  (with_authority n (driver_authority (driver n) <| permission := p |>), bool_decide (is_Some answer)).

(** One poll of [RuntimePermission::wait_until_sealed]. *)
Definition sealed_now n (now : Instant) : Node * bool :=
  let '(n, _) := authority_current n now in
  (n, bool_decide (permission (driver_authority (driver n)) = Sealed)).

(** [RuntimeAuthority::check]. *)
Definition check_authority n (c : AdmissionContext) (now : Instant) : Node * Result Instant AdmissionDenied :=
  let '(a, r) := authority_check sha256 (driver_authority (driver n)) c now in (with_authority n a, r).

(** A session over the authority, at its present state. *)
Definition session_over n (c : AdmissionContext) : AdmissionSession :=
  mkAdmissionSession c (fence_of sha256 (driver_authority (driver n))).

(** [AdmissionSession::check] of a session over the authority. *)
Definition check_session n (c : AdmissionContext) (now : Instant) : Node * Result Instant AdmissionDenied :=
  let r := session_check (session_over n c) now in
  ((check_authority n c now).1, r).

(** The work of [coherent_session], under the read lock. *)
Definition coherent n (now check_now : Instant) : Node * Result AdmissionSession AdmissionDenied :=
  match admission (storage n) with
  | None => (n, Err (mkAdmissionDenied "runtime has no bound admission session"))
  | Some s =>
      match check_authority n (context s) now with
      | (n, Err e) => (n, Err e)
      | (n, Ok _) =>
          match check_session n (context s) check_now with
          | (n, Err e) => (n, Err e)
          | (n, Ok _) => (n, Ok (session_over n (context s)))
          end
      end
  end.

(** [RuntimeDriver::begin]. *)
Definition begin_round n (g : Genesis) (mode : AdmissionMode) (entropy : option (list N)) (now : Instant)
  : Result AdmissionRound RunError :=
  run_denied (ensure_running (driver n)) ;? run_denied (begin (core (driver n)) g mode now entropy).

(** The second section of [install], under the write lock: the clock is read by the
    transition, by the new session, for the first admission and by [bind_admission]. *)
Definition accept_admission n (v : VerifiedAdmission) (now check_now first_now bind_now : Instant)
  : Node * Result AdmissionSession RunError :=
  match run_denied (ensure_running (driver n)) with
  | Err e => (n, Err e)
  | Ok _ =>
      match accept sha256 (driver_authority (driver n)) v now check_now with
      | (a, Err e) => (with_authority n a, Err (Denied e))
      | (a, Ok session) =>
          let n := with_authority n a in
          let session := session_over n (context session) in
          let n := match verified_mode v with
                   | Cold | Join _ =>
                       n <| driver := driver n <| first_verified_admission :=
                              match first_verified_admission (driver n) with
                              | Some first => Some first | None => Some first_now end |> |>
                   | Renew _ => n
                   end in
          match admission (storage n) with
          | Some _ => (n, Ok session)
          | None =>
              match bind_admission (storage n) session bind_now with
              | Err e => (n, Err (Denied e))
              | Ok s => (n <| storage := s |>
                           <| driver := driver n <| bootstrap_join := verified_bootstrap v |> |>, Ok session)
              end
          end
      end
  end.

(** The check of [install] between its two sections. *)
Definition bootstrap_matches (v : VerifiedAdmission) (bootstrap : option PreparedJoin) : bool :=
  match bootstrap with
  | None => true
  | Some p =>
      match verified_bootstrap v with
      | Some proof => bool_decide (plan (bootstrap_prepared proof) = plan p)
                      && bool_decide (prepared (bootstrap_prepared proof) = prepared p)
      | None => false
      end
  end.

(** The check of [reserve_grant] before a renewal is granted: the issuer has
    authority over the genesis and has applied the progress. *)
Definition issuer_ready n (req : AdmissionRequest) (now check_now : Instant) : Node * Result bool RunError :=
  match req_mode req with
  | Renew (Some progress) =>
      match admission (storage n) with
      | None => (n, Err (Denied (mkAdmissionDenied "issuer has no continuing authority")))
      | Some s =>
          match check_authority n (context s) now with
          | (n, Err e) => (n, Err (Denied e))
          | (n, Ok _) =>
              match check_session n (context s) check_now with
              | (n, Err e) => (n, Err (Denied e))
              | (n, Ok _) =>
                  (n, ensure (bool_decide (context_genesis (context s) = req_genesis req)
                              && bool_decide (state_genesis (storage n) = Some (req_genesis req)))
                        (Failed "renewal genesis differs from issuer authority") ;?
                      Ok (match last_applied_log (storage n) with
                          | Some applied => negb (index applied <? index progress)%N
                          | None => false
                          end))
              end
          end
      end
  | _ => (n, Ok true)
  end.

(** One iteration of [reserve_grant], under the read lock: [None] if the progress
    is not applied yet.  The clock is read by the two checks, for the deadline, by
    the reservation and by its check of the session. *)
Definition poll_grant n (signed : SignedAdmission AdmissionRequest) (binding : list N) (deadline : option Instant)
    (t : nat → Instant) : Node * Result (option (SignedAdmission AdmissionRequest)) RunError :=
  match run_denied (ensure_running (driver n)) with
  | Err e => (n, Err e)
  | Ok _ =>
      let '(n, ready) := issuer_ready n (record_payload signed) (t 0) (t 1) in
      match ready with
      | Err e => (n, Err e)
      | Ok false => (n, Ok None)
      | Ok true =>
          if match deadline with Some d => (d <=? t 2%nat)%N | None => false end
          then (n, Err (Elapsed "issuer progress apply timed out"))
          else
            let '(c, answer) := reserve sha256 hmac encode (core (driver n)) signed binding (Some (storage n))
                                  (t 3) (t 4) in
            (n <| driver := driver n <| core := c |> |>, grant <-? run_denied answer; Ok (Some grant))
      end
  end.

(** The locked section of [finish_join]: there is nothing to do, the learner is
    promoted, or the leader has to be asked about the operation. *)
Inductive Promotion :=
| NothingToPromote
| Promoted
| AskLeader (p : PreparedJoin).

Definition promote n (now : Instant) : Node * Promotion :=
  match bootstrap_join (driver n) with
  | None => (n, NothingToPromote)
  | Some bootstrap =>
      let p := bootstrap_prepared bootstrap in
      let s := storage n in
      if negb (bool_decide (state_genesis s = Some (plan_genesis (plan p))))
         || match last_applied_log s with Some log => (index log <? index (prepared p))%N | None => true end
      then (n, NothingToPromote)
      else
        let p := match prepared_join s with
                 | Some here => if bool_decide (plan here = plan p) then here else p
                 | None => p
                 end in
        let p := match completed_joins s !! physical_id (driver_local (driver n)) with
                 | Some c => if bool_decide (plan (completed_prepared c) = plan p)
                                && bool_decide (prepared (completed_prepared c) = prepared p)
                             then completed_prepared c else p
                 | None => p
                 end in
        let '(a, r) := mark_promoted sha256 (driver_authority (driver n)) p s now in
        let n := with_authority n a in
        match r with
        | Ok _ => (n <| driver := driver n <| bootstrap_join := None |> |>, Promoted)
        | Err _ => (n, AskLeader p)
        end
  end.

(** Options of indices are ordered with [None] first. *)
Definition opt_gt (a b : option N) : bool :=
  match a, b with
  | Some a, Some b => (b <? a)%N
  | Some _, None => true
  | None, _ => false
  end.
Definition opt_max (a b : option N) : option N := if opt_gt a b then a else b.

(** [observe_pending]: whether the operation made no progress for a whole reservation. *)
Definition observe_pending (d : RuntimeDriver) (pending : PreparedJoin) (matched : option N) (now since_now : Instant)
  : RuntimeDriver * Result bool RunError :=
  let binding := from_prepared sha256 pending in
  let acknowledged := index <$> learner_applied pending in
  match pending_progress d with
  | Some previous =>
      if bool_decide (operation previous = binding) then
        let previous :=
          if opt_gt matched (matched_index previous) || opt_gt acknowledged (acknowledged_index previous)
          then mkPendingProgress (operation previous) (opt_max (matched_index previous) matched)
                 (opt_max (acknowledged_index previous) acknowledged) since_now
          else previous in
        (d <| pending_progress := Some previous |>,
         deadline <-? run_denied (reservation_deadline (lease_admission_timing (driver_timing d)) (since previous));
         Ok (deadline <=? now)%N)
      else (d <| pending_progress := Some (mkPendingProgress binding matched acknowledged since_now) |>, Ok false)
  | None => (d <| pending_progress := Some (mkPendingProgress binding matched acknowledged since_now) |>, Ok false)
  end.

(** [clear_pending_progress]. *)
Definition clear_pending_progress (d : RuntimeDriver) : RuntimeDriver := d <| pending_progress := None |>.

(** The first half of [vip_activation_ready]. *)
Definition activation_elapsed (d : RuntimeDriver) (now : Instant) : bool :=
  match first ← first_verified_admission d; vip_activation_deadline (driver_timing d) first with
  | Some deadline => (deadline <=? now)%N
  | None => false
  end.

(** [report_admission_once_voting]; [taken] says whether the supervisor took a report. *)
Definition report_admission_once_voting n (taken : bool) (now : Instant) : Node :=
  if bool_decide (is_Some (bootstrap_join (driver n))) then n
  else
    let '(n, active) := authority_current n now in
    if negb active || admission_reported (driver n) || negb taken then n
    else n <| driver := driver n <| admission_reported := true |> |>.

(** The guard of [run] against a second task. *)
Definition start_running (d : RuntimeDriver) : RuntimeDriver * Result unit RunError :=
  (d <| running := true |>, ensure (negb (running d)) (Failed "admission driver already running")).

(** [RuntimeDriver::shutdown]. *)
Definition shutdown n : Node :=
  let n := n <| driver := driver n <| stopped := true |> |> in
  let a := driver_authority (driver n) in
  let n := with_authority n (a <| permission := (seal (permission a)).1 |>) in
  n <| driver := driver n <| attached := false |> |>.

(** The answer of [manage] to a discovery, under the read lock. *)
Definition discovery_answer n (now : Instant) : Result ManagementResult RunError :=
  run_denied (ensure_running (driver n)) ;?
  let known :=
    match state_genesis (storage n) with
    | Some g => Some g
    | None =>
        match admission (storage n) with
        | Some s => if is_ok (session_check s now) then Some (context_genesis (context s)) else None
        | None => None
        end
    end in
  Ok (Discovery known (voter_set (membership (last_membership (storage n))))).

(** [cohort_genesis] (discovery.rs): the genesis of a cold start of these boots. *)
Definition cohort_preimage (c : ClusterConfigFingerprint) (vs : gset ReplicaId) : list N :=
  ascii_bytes "keepafloatd-cold-cohort-epoch-v1" ++ [0%N] ++ [version c] ++ config_digest c
  ++ (btree_keys vs ≫= λ r, be_bytes 8 (physical_id r) ++ boot_nonce r).

Definition cohort_genesis (cfg : Config) (vs : gset ReplicaId) : Result Genesis RunError :=
  match cluster_config_fingerprint sock_parse sha256 cfg with
  | Err _ => Err (Failed "invalid local configuration")
  | Ok c =>
      let g := mkGenesis c (of_be_bytes (take 16 (sha256 (cohort_preimage c vs)))) vs in
      run_denied (validate_roster g (list_to_set (peer_id <$> peers cfg))) ;? Ok g
  end.
End driver.
