(* ===== verification/Inbound.v ===== *)
(** * Inbound Raft requests (src/raft/network/inbound.rs, wire.rs)

    The gates a frame of an authenticated peer passes before the Raft engine
    sees it; [authorize] is the authorization the runtime driver supplies. *)

From S2P Require Import Prelude Text Io Replica Openraft Admission Types VipLogic State StoreMembership.
From S2P Require Import StateMachine LogStore Config Fingerprint Controller Lease Request Authorization Driver.
Local Open Scope kaf_scope.

(** ** Compatibility (wire.rs, probe.rs) *)

(** [epochs_compatible]. *)
Definition epochs_compatible (local peer : option N) : bool :=
  match local, peer with Some l, Some p => (l =? p)%N | _, _ => true end.

(** [peer_semantics_compatible]. *)
Definition peer_semantics_compatible (local : FailoverSemantics) (peer_supports_v2 : bool) : bool :=
  bool_decide (local = Legacy) || peer_supports_v2.

(** [connection_requires_upgrade] and [connection_requires_config_identity]. *)
Definition connection_requires_upgrade (local : FailoverSemantics) (advertised_v2 : bool) : bool :=
  bool_decide (local = V2) && negb advertised_v2.

Definition connection_requires_config_identity (enforcement_active advertised_identity : bool) : bool :=
  enforcement_active && negb advertised_identity.

(** [config_identity_compatible]. *)
Definition config_identity_compatible (local : ClusterConfigFingerprint)
    (peer : option ClusterConfigFingerprint) (enforcement_active : bool) : bool :=
  match peer with Some peer => bool_decide (local = peer) | None => negb enforcement_active end.

Section inbound.
Context {O : Openraft}.

(** ** Frame gates *)

(** [InboundPeer]. *)
Record InboundPeer := mkInboundPeer {
  inbound_binding : list N;
  inbound_replica : option ReplicaId;
  inbound_id : N;
  inbound_epoch : option N;
  inbound_supports_v2 : bool
}.

(** [ConfigFrameGate] and [may_dispatch]. *)
Record ConfigFrameGate := mkConfigFrameGate {
  is_status : bool;
  compatible : bool;
  peer_supports_cancellation_safe_rpc : option bool
}.

Definition may_dispatch (g : ConfigFrameGate) : bool := is_status g || compatible g.

(** [classify_config_frame]: the fingerprint the peer advertised last, and the gate. *)
Definition classify_config_frame (frame : RaftRequest) (peer_fingerprint : option ClusterConfigFingerprint)
    (local_fingerprint : ClusterConfigFingerprint) (enforcement_active : bool)
  : option ClusterConfigFingerprint * ConfigFrameGate :=
  let status_request := request_status frame in
  let peer_fingerprint :=
    match r ← status_request; status_fingerprint r with Some f => Some f | None => peer_fingerprint end in
  (peer_fingerprint,
   mkConfigFrameGate (bool_decide (is_Some status_request))
     (config_identity_compatible local_fingerprint peer_fingerprint enforcement_active)
     (supports_cancellation_safe_rpc_v1 <$> status_request)).

(** [ResponseAction] and [response_action]. *)
Inductive ResponseAction := WriteAndKeepOpen | DropAndClose.

Definition response_action (cancellation_safe status : bool) (dispatch_elapsed legacy_response_budget : N)
  : ResponseAction :=
  if status || cancellation_safe || (dispatch_elapsed <? legacy_response_budget)%N
  then WriteAndKeepOpen else DropAndClose.

(** [legacy_response_budget], in nanoseconds. *)
Definition legacy_response_budget (heartbeat_interval_ms : N) : N :=
  N.max (from_millis (u64_saturating_mul heartbeat_interval_ms 4 / 5)) (from_millis 1).

(** ** Dispatch *)

(** What the dispatcher hands to the Raft engine, or answers itself. *)
Inductive RaftCall :=
| CallPreVote (req : VoteRequest)
| CallAppendEntries (req : AppendEntriesRequest)
| AnswerConflict
| CallInstallSnapshot (v : Vote) (snapshot : Snapshot)
| CallVote (req : VoteRequest)
| AnswerStatus (req : ClusterStatusRequest).

(** [validate_sender]. *)
Definition validate_sender (peer_id sender_id : N) : Result unit NetError :=
  ensure (sender_id =? peer_id)%N (Refused "payload sender does not match authenticated peer").

Context (decode_identities : list N → Result SnapshotIdentities string).
Context (authorize : ReplicaId → Result RaftAuthorization AdmissionDenied).
Context (local : ReplicaId).
Context (raft : RaftCall → Result (list N) NetError).

(** The instants at which [dispatch_request] checks the session. *)
Record DispatchClock := mkDispatchClock {
  check_at : Instant;
  validate_at : Instant;
  snapshot_first_at : Instant;
  snapshot_last_at : Instant;
  call_at : Instant;
  answer_at : Instant
}.

(** The authorization of a request that is not a status probe, and whether its
    replication prefix conflicts. *)
Definition authorize_request (peer : InboundPeer) (req : RaftRequest) (t : DispatchClock)
  : Result (RaftAuthorization * bool) NetError :=
  match inbound_replica peer with
  | None => Err (Refused "Raft peer omitted its boot identity")
  | Some peer_replica =>
      ensure (physical_id peer_replica =? inbound_id peer)%N
        (Refused "authenticated physical identity mismatch") ;?
      a <-? denied (authorize peer_replica);
      auth_check a local peer_replica (check_at t) ;?
      match validate_request decode_identities a peer_replica req
              (validate_at t) (snapshot_first_at t) (snapshot_last_at t), req with
      | Ok _, _ => Ok (a, false)
      | Err ReplicationConflict, RaftAppendEntries _ => Ok (a, true)
      | Err e, _ => Err e
      end
  end.

(** The call a request makes, once it is authorized. *)
Definition call_of (peer : InboundPeer) (req : RaftRequest) (conflict : bool) : Result RaftCall NetError :=
  match req with
  | RaftAdmission _ | RaftAdmissionControl _ =>
      Err (Refused "admission records require authenticated controller dispatch")
  | RaftStatus req => validate_sender (inbound_id peer) (probe_from req) ;? Ok (AnswerStatus req)
  | RaftPreVote req => Ok (CallPreVote req)
  | RaftAppendEntries req => Ok (if conflict then AnswerConflict else CallAppendEntries req)
  | RaftSnapshot req => Ok (CallInstallSnapshot (transfer_vote req) (transfer_snapshot req))
  | RaftVote req => Ok (CallVote req)
  end.

(** [session.check()] of the authorization, if the request has one. *)
Definition session_live (a : option RaftAuthorization) (now : Instant) : Result unit NetError :=
  match a with Some a => denied (session_check (session a) now) ;? Ok tt | None => Ok tt end.

(** [dispatch_request]: the call made, if any, and the response. *)
Definition dispatch_request (peer : InboundPeer) (local_epoch : option N) (req : RaftRequest) (t : DispatchClock)
  : option RaftCall * Result (list N) NetError :=
  let is_status := bool_decide (is_Some (request_status req)) in
  if negb is_status && negb (epochs_compatible local_epoch (inbound_epoch peer))
  then (None, Err (Refused "cluster_epoch mismatch; dropping raft rpc"))
  else
    match
      ac <-? (if is_status then Ok (None, false)
              else ac <-? authorize_request peer req t; Ok (Some ac.1, ac.2));
      session_live ac.1 (call_at t) ;?
      call <-? call_of peer req ac.2;
      Ok (ac.1, call)
    with
    | Err e => (None, Err e)
    | Ok (a, call) =>
        (Some call, response <-? raft call; session_live a (answer_at t) ;? Ok response)
    end.

End inbound.
