(* ===== verification/InboundTheorems.v ===== *)
(** * Requests that reach the Raft engine

    The gates of [Inbound] composed with the authorization of the driver: an
    append that reaches the engine only carries steps of the join protocol that
    the state machine will accept, a vote comes from a boot that votes by the local
    state, and a snapshot that is accepted installs as a coherent history. *)

From S2P Require Import Prelude Text Io Replica Openraft Admission Types VipLogic State StoreMembership.
From S2P Require Import StateMachine StateFrame StateTheorems JoinProtocol LogStore LogTheorems Config Fingerprint.
From S2P Require Import Controller Lease Request Authorization ReplayTheorems Driver Inbound.

Section inbound.
Context {O : Openraft} {laws : OpenraftLaws O}.
Context (sock_parse : Text → option SocketAddr) (sha256 : list N → list N).
Implicit Types (s : KafStorageState) (e : Entry) (a : RaftAuthorization) (h : ReplicationHistory).

(** ** The authorization the driver builds *)

Lemma with_bootstrap_keeps cfg a b a' :
  with_bootstrap cfg a b = Ok a' →
  session a' = session a ∧ committed_membership a' = committed_membership a ∧
  auth_prepared_join a' = auth_prepared_join a ∧ auth_last_applied a' = auth_last_applied a ∧
  replication a' = replication a ∧ configured_physical_ids a' = configured_physical_ids a ∧
  auth_voters a' = match b with Some proof => previous_voters (plan proof) | None => auth_voters a end.
Proof.
  unfold with_bootstrap. destruct b as [proof|]; [|by intros [= <-]].
  destruct (or_deny _ _); [|done]. destruct (make_membership cfg _ _); [|done].
  destruct (make_membership cfg _ _); [|done]. by intros [= <-].
Qed.

Lemma with_pending_keeps cfg s a a' :
  with_pending cfg s a = Ok a' →
  session a' = session a ∧ committed_membership a' = committed_membership a ∧
  auth_prepared_join a' = auth_prepared_join a ∧ auth_last_applied a' = auth_last_applied a ∧
  replication a' = replication a ∧ configured_physical_ids a' = configured_physical_ids a ∧
  auth_voters a' = auth_voters a ∧
  ∀ pj, prepared_join s = Some pj →
    snapshot_prepared_join a pj (committed_membership a) (auth_last_applied a) = Ok tt.
Proof.
  unfold with_pending. destruct (prepared_join s) as [pj|].
  - destruct (or_deny _ _) as [[]|] eqn:Hd; [|done]. destruct (next_memberships cfg _ pj); [|done].
    intros [= <-]. split_and!; [done..|]. intros ? [= <-]. unfold or_deny in Hd.
    destruct (snapshot_prepared_join _ _ _ _) as [[]|]; done.
  - destruct (ensure _ _); [|done]. by intros [= <-].
Qed.

(** The membership an authorization starts from. *)
Lemma current_membership_ok cfg s c b stored :
  current_membership cfg s c b = Ok stored →
  (voter_ids (membership (last_membership s)) ≠ [] → stored = last_membership s) ∧
  (voter_ids (membership (last_membership s)) = [] →
     joint_config (membership stored) = [voters (context_genesis c)] ∧
     (b = None → local_replica c ∈ voters (context_genesis c))).
Proof.
  unfold current_membership. case_bool_decide as Hv.
  - destruct (ensure _ _) as [[]|] eqn:Hl; [|done]. apply ensured in Hl.
    destruct (make_membership cfg _ _) as [m|] eqn:Hm; [|done]. cbv beta iota.
    destruct (ensure _ _); [|done]. destruct (make_membership cfg (joint_config _) _); [|done].
    destruct (ensure _ _); [|done]. intros [= <-]. split; [done|]. intros _.
    split; [|intros ->; by apply bool_decide_eq_true in Hl]. cbn.
    unfold make_membership in Hm. destruct (resolve _ _) as [ns|]; [|done].
    destruct (membership_new _ ns) as [m'|] eqn:Hn; [|done]. injection Hm as <-.
    by apply membership_new_spec in Hn as [-> _].
  - destruct (ensure _ _); [|done]. destruct (make_membership cfg _ _); [|done].
    destruct (ensure _ _); [|done]. intros [= <-]. done.
Qed.

(** The local history contains the join [b]: it is the pending one, or completed. *)
Definition join_applied s (c : AdmissionContext) (b : PreparedJoin) : Prop :=
  (∃ p, prepared_join s = Some p ∧ plan p = plan b ∧ prepared p = prepared b) ∨
  (∃ receipt, completed_joins s !! physical_id (local_replica c) = Some receipt ∧
     plan (completed_prepared receipt) = plan b ∧ prepared (completed_prepared receipt) = prepared b).

Lemma same_operation_ok p b : same_operation p b = true → plan p = plan b ∧ prepared p = prepared b.
Proof. unfold same_operation. intros H. guards. done. Qed.

Lemma history_contains_ok s c b : history_contains s c b = true → join_applied s c b.
Proof.
  unfold history_contains, join_applied. intros [H|H]%orb_true_iff.
  - left. destruct (prepared_join s) as [p|]; [|done]. exists p. split; [done|]. by apply same_operation_ok.
  - right. destruct (completed_joins s !! _) as [receipt|]; [|done]. exists receipt. split; [done|]. by apply same_operation_ok.
Qed.

Lemma bound_context_proof cfg s c b :
  bound_context sock_parse sha256 cfg s c (Some b) = Ok tt →
  consumer (plan b) = local_replica c ∧ plan_genesis (plan b) = context_genesis c.
Proof.
  unfold bound_context. destruct (ensure _ _); [|done].
  destruct (match cluster_config_fingerprint _ _ _ with Ok _ => _ | Err _ => _ end); [|done].
  intros H%ensured. by guards.
Qed.

(** What [from_state] returns. *)
Record derived (cfg : Config) s (peer : ReplicaId) (proof : option PreparedJoin) a : Prop := {
  derived_session : admission s = Some (session a);
  derived_bound : ∀ g, state_genesis s = Some g → g = context_genesis (context (session a));
  derived_applied : auth_last_applied a = last_applied_log s;
  derived_pending : auth_prepared_join a = prepared_join s;
  derived_history : replication a = Some (history_from_state cfg s);
  derived_configured : configured_physical_ids a = list_to_set (peer_id <$> peers cfg);
  derived_membership : voter_ids (membership (last_membership s)) ≠ [] →
    committed_membership a = last_membership s;
  derived_genesis : voter_ids (membership (last_membership s)) = [] →
    joint_config (membership (committed_membership a)) = [voters (context_genesis (context (session a)))];
  derived_former : voter_ids (membership (last_membership s)) = [] → bootstrapping_of s proof = None →
    local_replica (context (session a)) ∈ voters (context_genesis (context (session a)));
  derived_proof : ∀ b, proof = Some b →
    consumer (plan b) = local_replica (context (session a)) ∧
    plan_genesis (plan b) = context_genesis (context (session a)) ∧
    (bootstrapping_of s proof = None → join_applied s (context (session a)) b);
  derived_voters : auth_voters a =
    match bootstrapping_of s proof with
    | Some proof => previous_voters (plan proof)
    | None => list_to_set (voter_ids (membership (committed_membership a)))
    end;
  derived_consistent : ∀ pj, prepared_join s = Some pj →
    ∃ a0, session a0 = session a ∧
      snapshot_prepared_join a0 pj (committed_membership a) (last_applied_log s) = Ok tt
}.

Lemma from_state_ok cfg s peer b now a :
  from_state sock_parse sha256 cfg s peer b now = Ok a → derived cfg s peer (bootstrap_prepared <$> b) a.
Proof.
  unfold from_state. destruct (admission s) as [ss|] eqn:Hs; [|done].
  destruct (session_check ss now); [|done]. destruct (validate_roster _ _); [|done].
  destruct (bound_context _ _ _ _ _ _) as [[]|] eqn:Hb; [|done].
  match goal with |- context [match ?x with Some _ => plan_validate _ | None => _ end] =>
    destruct (match x with Some pending => plan_validate (plan pending) | None => Ok tt end); [|done] end.
  destruct (ensure _ _) as [[]|] eqn:Hhist; [|done]. apply ensured in Hhist.
  destruct (current_membership _ _ _ _) as [stored|] eqn:Hcm; [|done].
  destruct (with_bootstrap _ _ _) as [b1|] eqn:H1; [|done].
  destruct (with_pending _ _ _) as [b2|] eqn:H2; [|done]. destruct (ensure _ _); [|done]. intros [= <-].
  apply with_bootstrap_keeps in H1 as (S1 & M1 & P1 & L1 & R1 & C1 & V1).
  apply with_pending_keeps in H2 as (S2 & M2 & P2 & L2 & R2 & C2 & V2 & Hcons).
  apply current_membership_ok in Hcm as [Hne He]. cbn in *.
  assert (Hsess : session b2 = ss) by congruence.
  split; cbn; rewrite ?Hsess; [done| |congruence..| | | | | |].
  - intros g Hg. unfold bound_context in Hb. destruct (ensure _ _); [|done].
    destruct (match cluster_config_fingerprint _ _ _ with Ok _ => _ | Err _ => _ end); [|done].
    apply ensured in Hb. rewrite Hg in Hb. by guards.
  - intros Hv. rewrite M2, M1. by apply Hne.
  - intros Hv. rewrite M2, M1. by apply He.
  - intros Hv Hn. by apply He.
  - intros pj Hpj. rewrite Hpj in Hb, Hhist |- *. apply bound_context_proof in Hb as [Hc Hg]. split_and!; [done..|].
    intros Hn. rewrite Hn in Hhist. by apply history_contains_ok.
  - rewrite V2, V1, M2, M1. done.
  - intros pj Hpj. exists b1. split; [congruence|]. rewrite M2, <- L1. by apply Hcons.
Qed.
(** The barriers of a pending join, as the join protocol needs them. *)
Lemma snapshot_prepared_join_ok a pj stored applied :
  snapshot_prepared_join a pj stored (Some applied) = Ok tt →
  join_consistent (context_genesis (context (session a))) (membership stored) (Some pj) (index applied).
Proof.
  unfold snapshot_prepared_join. destruct (join_plan_data a (plan pj)) as [[]|] eqn:Hp; [|done].
  apply join_plan_data_ok in Hp as [Hv Hg]. do 2 (destruct (auth_log a _); [|done]).
  destruct (ensure (index (prepared pj) <=? _)%N _) as [[]|] eqn:H1; [|done]. apply ensured in H1. n_compare.
  destruct (ensure (stable_previous _ _ || _) _) as [[]|] eqn:H2; [|done]. apply ensured in H2.
  destruct (ensure (negb _ || _) _); [|done]. intros Hack q [= <-]. split_and!; [done..| |done|].
  - apply orb_true_iff in H2 as [H2|H2]; apply bool_decide_eq_true in H2; [by left|by right].
  - intros ack Ha. rewrite Ha in Hack. destruct (ensure (_ && _) _) as [[]|] eqn:H3; [|done].
    apply ensured in H3. guards. by n_compare.
Qed.

(** The replay starts from the applied state. *)
Lemma source_start_tracks cfg s peer proof a h applied :
  derived cfg s peer proof a → last_applied_log s = Some applied →
  voter_ids (membership (last_membership s)) ≠ [] → is_Some (state_genesis s) →
  ∃ src, source_start h a = Ok src ∧ tracks a src s ∧ cursor src = Some applied.
Proof.
  intros D Hl Hv [g Hg]. unfold source_start. rewrite (derived_applied _ _ _ _ _ D), Hl.
  eexists. split; [done|]. split; [|done].
  assert (Hc : ∀ pj, prepared_join s = Some pj →
    join_consistent (context_genesis (context (session a))) (membership (last_membership s)) (Some pj) (index applied)).
  { intros pj Hpj. destruct (derived_consistent _ _ _ _ _ D pj Hpj) as (a0 & <- & Hs).
    rewrite Hl, (derived_membership _ _ _ _ _ D Hv) in Hs. by apply snapshot_prepared_join_ok. }
  split; cbn.
  - by apply (derived_membership _ _ _ _ _ D).
  - apply (derived_pending _ _ _ _ _ D).
  - done.
  - by rewrite Hg, <- (derived_bound _ _ _ _ _ D g Hg).
  - done.
  - rewrite (derived_pending _ _ _ _ _ D), (derived_membership _ _ _ _ _ D Hv).
    replace (index applied + 1 - 1)%N with (index applied) by lia.
    intros p Hp. exact (Hc p Hp p eq_refl).
Qed.

(** The local entries between the applied state and the previous log id of a request. *)
Definition local_entries s (applied : LogId) (previous : option LogId) : option (list Entry) :=
  mapM (λ i, log s !! i)
    (indices (index applied + 1)
       (match previous with Some p => N.to_nat (index p - index applied) | None => 0 end)).

Lemma history_local cfg s applied i count es :
  last_applied_log s = Some applied → (index applied < i)%N →
  mapM (λ j, history_entries (history_from_state cfg s) !! j) (indices i count) = Some es →
  mapM (λ j, log s !! j) (indices i count) = Some es.
Proof.
  intros Hl Hi. revert i es Hi. induction count as [|count IH]; cbn [indices mapM]; intros i es Hi; [done|].
  cbn [history_from_state history_entries]. rewrite Hl. intros H.
  apply bind_Some in H as (e & He & (k & Hk & [= <-])%bind_Some).
  apply map_lookup_filter_Some in He as [He _]. rewrite He. cbn.
  rewrite (IH (i + 1)%N k); [done|lia|]. cbn [history_from_state history_entries]. by rewrite Hl.
Qed.

Lemma reach_previous_tracks cfg s a src applied previous frontier src' :
  log_ok (log s) (last_purged_log_id s) → last_applied_log s = Some applied →
  tracks a src s → cursor src = Some applied →
  reach_previous (history_from_state cfg s) a src previous frontier = Ok src' →
  ∃ es, local_entries s applied previous = Some es ∧ tracks a src' (apply_all s es) ∧ protocol_accepted s es.
Proof.
  intros Hlog Hl Ht Hcur. unfold reach_previous, local_entries. rewrite Hcur.
  assert (Hnone : ∀ n, n = 0 → ∃ es, mapM (λ i, log s !! i) (indices (index applied + 1) n) = Some es ∧
    tracks a src (apply_all s es) ∧ protocol_accepted s es).
  { intros n ->. exists []. split_and!; [done..|]. by intros e r []%not_elem_of_nil. }
  destruct previous as [p|]; [|intros [= <-]; by apply Hnone].
  destruct (N.ltb_spec (index applied) (index p)) as [Hlt|Hge].
  - destruct (replay_prefix _ _ _ _ _ _) as [src1|] eqn:Hr; [|done]. destruct (ensure _ _); [|done].
    intros [= <-]. apply (replay_prefix_tracks _ _ _ _ _ s) in Hr as (es & Hes & Ht' & Hacc); [|..|done|by rewrite Hcur].
    + exists es. split_and!; [|done..]. cbn [next_index] in Hes.
      replace (index p + 1 - (index applied + 1))%N with (index p - index applied)%N in Hes by lia.
      apply (history_local _ _ applied) in Hes; [done|done|lia].
    + intros j e He. cbn in He. apply map_lookup_filter_Some in He as [He _].
      by apply (log_key _ _ Hlog) in He.
  - intros H. assert (src' = src) as ->.
    { destruct (index p =? index applied)%N; [destruct (ensure _ _); [|done]|]; by injection H. }
    apply Hnone. lia.
Qed.

(** ** Appends *)

Lemma accepted_append cfg s peer proof a applied decode from req (t1 t2 t3 : Instant) :
  derived cfg s peer proof a → last_applied_log s = Some applied →
  voter_ids (membership (last_membership s)) ≠ [] → is_Some (state_genesis s) →
  log_ok (log s) (last_purged_log_id s) →
  validate_request decode a from (RaftAppendEntries req) t1 t2 t3 = Ok tt →
  ∃ es, local_entries s applied (prev_log_id req) = Some es ∧
    protocol_accepted s (es ++ fresh_entries applied (append_entries req)).
Proof.
  intros D Hl Hv Hg Hlog. unfold validate_request. destruct (denied _); [|done].
  destruct (sender_vote _ _ _); [|done]. do 2 (destruct (auth_log a _); [|done]).
  rewrite (derived_history _ _ _ _ _ D). unfold history_validate.
  destruct (check_batch _ _ _ _) as [[]|] eqn:Hb; [|done].
  destruct (source_start_tracks _ _ _ _ _ (history_from_state cfg s) _ D Hl Hv Hg) as (src & -> & Ht & Hcur).
  destruct (reach_previous _ _ _ _ _) as [src1|] eqn:Hr; [|done].
  apply (reach_previous_tracks _ _ _ _ _ _ _ _ Hlog Hl Ht Hcur) in Hr as (es & Hes & Ht1 & Hacc).
  destruct (replay_batch _ _ _ _ _) as [src2|] eqn:Hrb; [|done]. intros _.
  apply (replay_batch_tracks _ _ applied _ _ (apply_all s es)) in Hrb as [_ Hacc'];
    [|by rewrite (derived_applied _ _ _ _ _ D)|by eapply check_batch_data|done].
  exists es. split; [done|]. by apply protocol_accepted_app.
Qed.
(** ** The dispatcher *)

(** What holds when the dispatcher makes a call for a request that is not a status probe. *)
Lemma dispatch_call decode authorize local raft peer local_epoch req (t : DispatchClock) call out :
  dispatch_request decode authorize local raft peer local_epoch req t = (Some call, out) →
  request_status req = None →
  epochs_compatible local_epoch (inbound_epoch peer) = true ∧
  ∃ r a conflict, inbound_replica peer = Some r ∧ physical_id r = inbound_id peer ∧
    authorize r = Ok a ∧ auth_check a local r (check_at t) = Ok tt ∧
    (validate_request decode a r req (validate_at t) (snapshot_first_at t) (snapshot_last_at t)
       = if conflict : bool then Err ReplicationConflict else Ok tt) ∧
    is_ok (session_check (session a) (call_at t)) = true ∧ call_of peer req conflict = Ok call ∧
    (conflict = true → call = AnswerConflict).
Proof.
  unfold dispatch_request. intros Hd Hs. rewrite Hs in Hd. rewrite bool_decide_false in Hd by (by intros []).
  cbn [negb andb] in Hd. destruct (epochs_compatible _ _); [|done]. cbn [negb] in Hd. split; [done|].
  unfold authorize_request in Hd. destruct (inbound_replica peer) as [r|]; [|done]. exists r.
  destruct (ensure _ _) as [[]|] eqn:Hp; [|done]. apply ensured, N.eqb_eq in Hp.
  destruct (authorize r) as [a|]; [|done]. exists a. cbn [denied] in Hd.
  destruct (auth_check a local r _) as [[]|]; [|done].
  destruct (validate_request _ _ _ _ _ _ _) as [[]|err]; [exists false|exists true].
  - unfold session_live in Hd. cbn in Hd. destruct (session_check _ _) as [x|]; [|done]. cbn in Hd.
    destruct (call_of peer req false); [|done]. injection Hd as <- _. done.
  - destruct err; [|by destruct req]. destruct req; try done. unfold session_live in Hd. cbn in Hd.
    destruct (session_check _ _) as [x|]; [|done]. cbn in Hd. injection Hd as <- _. done.
Qed.

Lemma authorize_raft_ok (d : RuntimeDriver) s r now session_now a :
  authorize_raft sock_parse sha256 d s r now session_now = Ok a →
  derived (driver_cfg d) s r (bootstrap_prepared <$> bootstrap_join d) a ∧ stopped d = false ∧
  is_ok (authority_check sha256 (driver_authority d) (context (session a)) now).2 = true.
Proof.
  unfold authorize_raft, authorize_state, ensure_running. destruct (stopped d); [done|]. cbn [negb ensure].
  destruct (admission s) as [ss|] eqn:Hs; [|done]. destruct (authority_check _ _ _ _).2 eqn:Ha; [|done].
  intros D%from_state_ok. assert (session a = ss) as <-.
  { pose proof (derived_session _ _ _ _ _ D) as Hx. congruence. }
  split_and!; [done..|]. by rewrite Ha.
Qed.

(** The dispatcher with the runtime driver as its controller. *)
Definition driver_dispatch decode (d : RuntimeDriver) s (now session_now : Instant) raft peer req (t : DispatchClock) :=
  dispatch_request decode (λ r, authorize_raft sock_parse sha256 d s r now session_now) (driver_local d) raft
    peer (cluster_epoch s) req t.

(** C4: replicated entries that reach the Raft engine respect the join protocol.
    If an append passes the dispatcher on a node that has applied a membership and
    the genesis, then applying the local entries up to its previous log id and the
    entries it adds, in order, never makes the state machine reject a join command
    or a membership entry. *)
Theorem accepted_append_applies decode d s now session_now raft peer req t call out applied :
  last_applied_log s = Some applied → voter_ids (membership (last_membership s)) ≠ [] →
  is_Some (state_genesis s) → log_ok (log s) (last_purged_log_id s) →
  driver_dispatch decode d s now session_now raft peer (RaftAppendEntries req) t = (Some call, out) →
  call = AnswerConflict ∨
  call = CallAppendEntries req ∧
  ∃ es, local_entries s applied (prev_log_id req) = Some es ∧
    protocol_accepted s (es ++ fresh_entries applied (append_entries req)).
Proof.
  intros Hl Hv Hg Hlog Hd. apply dispatch_call in Hd as (_ & r & a & conflict & _ & _ & Ha & _ & Hval & _ & Hcall & _); [|done].
  apply authorize_raft_ok in Ha as (D & _). cbn in Hcall. injection Hcall as <-.
  destruct conflict; [by left|right]. split; [done|]. by eapply accepted_append.
Qed.

(** The vote a call carries. *)
Definition call_vote (c : RaftCall) : option Vote :=
  match c with
  | CallPreVote req | CallVote req => Some (request_vote req)
  | CallAppendEntries req => Some (append_vote req)
  | CallInstallSnapshot v _ => Some v
  | AnswerConflict | AnswerStatus _ => None
  end.

(** The driver has a verified join that this node has not applied yet: whatever it has
    applied is before the preparation. *)
Definition join_ahead (d : RuntimeDriver) s (b : PreparedJoin) : Prop :=
  bootstrap_prepared <$> bootstrap_join d = Some b ∧
  ∀ l, last_applied_log s = Some l → (index l < index (prepared b))%N.

(** The boots with current voting permission, under the admission [c].  While a verified
    join of this node is ahead: the voters before that join.  Otherwise the joins of the
    driver are part of the applied history, and it is the voters of the committed
    membership or, before there is one, those of the genesis, one of which is this node. *)
Definition may_lead (d : RuntimeDriver) s (c : AdmissionContext) (r : ReplicaId) : Prop :=
  (∃ b, join_ahead d s b ∧ consumer (plan b) = local_replica c ∧ plan_genesis (plan b) = context_genesis c ∧
     r ∈ previous_voters (plan b)) ∨
  (∀ b, ¬ join_ahead d s b) ∧ (∀ b, bootstrap_prepared <$> bootstrap_join d = Some b → join_applied s c b) ∧
  (r ∈ voter_ids (membership (last_membership s)) ∨
   voter_ids (membership (last_membership s)) = [] ∧ local_replica c ∈ voters (context_genesis c) ∧
     r ∈ voters (context_genesis c)).

Lemma bootstrapping_ahead d s b :
  bootstrapping_of s (bootstrap_prepared <$> bootstrap_join d) = Some b ↔ join_ahead d s b.
Proof.
  unfold bootstrapping_of, join_ahead. destruct (bootstrap_prepared <$> bootstrap_join d) as [b'|]; [|naive_solver].
  destruct (last_applied_log s) as [l|]; [|naive_solver].
  destruct (N.ltb_spec (index l) (index (prepared b'))) as [Hl|Hl]; split; [|naive_solver|done|].
  - intros [= <-]. split; [done|]. by intros ? [= <-].
  - intros [[= <-] Ha]. specialize (Ha l eq_refl). lia.
Qed.

(** The voters of an authorization that the driver gives. *)
Lemma authorized_voters d s r proof a v :
  proof = bootstrap_prepared <$> bootstrap_join d → derived (driver_cfg d) s r proof a → v ∈ auth_voters a →
  may_lead d s (context (session a)) v.
Proof.
  intros -> D. rewrite (derived_voters _ _ _ _ _ D). unfold may_lead.
  destruct (bootstrapping_of _ _) as [b|] eqn:Hb.
  - intros Hv. left. exists b. apply bootstrapping_ahead in Hb as Hahead.
    destruct (derived_proof _ _ _ _ _ D b (proj1 Hahead)) as (Hc & Hg & _). by split_and!.
  - intros Hv%elem_of_list_to_set. right. split_and!.
    + intros b Hahead%bootstrapping_ahead. congruence.
    + intros b Hp. by apply (derived_proof _ _ _ _ _ D b Hp).
    + destruct (decide (voter_ids (membership (last_membership s)) = [])) as [He|Hne].
      * right. split_and!; [done|by apply (derived_former _ _ _ _ _ D)|].
        apply voter_ids_joint in Hv as (vs & Hvs & Hin). rewrite (derived_genesis _ _ _ _ _ D He) in Hvs.
        by apply list_elem_of_singleton in Hvs as ->.
      * left. by rewrite <- (derived_membership _ _ _ _ _ D Hne).
Qed.

Lemma validate_request_vote decode a r req (t1 t2 t3 : Instant) peer call v :
  validate_request decode a r req t1 t2 t3 = Ok tt → call_of peer req false = Ok call → call_vote call = Some v →
  vote_node v = r ∧ r ∈ auth_voters a ∧ physical_id r ∈ configured_physical_ids a.
Proof.
  intros Hval Hcall Hv. unfold validate_request in Hval. destruct (denied _); [|done].
  assert (Hs : sender_vote a r v = Ok tt).
  { destruct req; cbn in Hcall; try done; try (destruct (validate_sender _ _); [|done]);
      injection Hcall as <-; cbn in Hv; simplify_eq; destruct (sender_vote _ _ _) as [[]|]; done. }
  unfold sender_vote, auth_vote in Hs. destruct (ensure _ _) as [[]|] eqn:He; [|done].
  apply ensured, bool_decide_eq_true in He as <-. apply ensured in Hs. by guards.
Qed.

(** C28: only an authenticated, currently authorized boot is heard as a candidate or
    leader.  Whatever vote reaches the Raft engine names the boot that the channel
    authenticated, and its physical member is configured.  That boot is a voter of the
    membership this node has applied; or, before it has applied one, a voter of the
    genesis it was admitted under, if this node is one too.  Only while the node has not
    applied the preparation of its own verified join are the voters before that join
    heard instead of these, and from then on the join is part of the applied history.  The
    driver runs under an unexpired local admission. *)
Theorem raft_call_authorized decode d s now session_now raft peer req t call out v :
  driver_dispatch decode d s now session_now raft peer req t = (Some call, out) → call_vote call = Some v →
  inbound_replica peer = Some (vote_node v) ∧ physical_id (vote_node v) = inbound_id peer ∧
  physical_id (vote_node v) ∈ peer_id <$> peers (driver_cfg d) ∧
  stopped d = false ∧ ∃ ss, admission s = Some ss ∧ local_replica (context ss) = driver_local d ∧
    may_lead d s (context ss) (vote_node v) ∧
    is_ok (authority_check sha256 (driver_authority d) (context ss) now).2 = true ∧
    is_ok (session_check ss (call_at t)) = true.
Proof.
  intros Hd Hv. assert (Hst : request_status req = None).
  { destruct req as [| |req| | | |]; try done. unfold driver_dispatch, dispatch_request in Hd. cbn in Hd.
    destruct (validate_sender _ _); [|done]. by injection Hd as <- _. }
  apply dispatch_call in Hd as (_ & r & a & conflict & Hr & Hp & Ha & Hchk & Hval & Hlive & Hcall & Hcf); [|done].
  destruct conflict; [by rewrite Hcf in Hv|].
  destruct (validate_request_vote _ _ _ _ _ _ _ _ _ _ Hval Hcall Hv) as (<- & Hvot & Hconf).
  apply authorize_raft_ok in Ha as (D & Hrun & Hauth). rewrite (derived_configured _ _ _ _ _ D) in Hconf.
  unfold auth_check in Hchk. destruct (denied _); [|done]. apply ensured in Hchk. guards.
  split_and!; [done|done|by rewrite elem_of_list_to_set in Hconf|done|].
  eexists. split_and!; [apply (derived_session _ _ _ _ _ D)|done| |done..]. by eapply authorized_voters.
Qed.

(** ** Snapshots *)

(** The part of a snapshot the network decodes. *)
Definition identities_of (snap : KafSnapshot) : SnapshotIdentities :=
  mkSnapshotIdentities (snap_genesis snap) (snap_cluster_epoch snap) (snap_last_applied snap)
    (snap_last_membership snap) (snap_applied_progress snap) (snap_prepared_join snap) (snap_completed_joins snap).

Lemma for_each_ok {A E} (f : A → Result unit E) l : for_each f l = Ok tt → ∀ x, x ∈ l → f x = Ok tt.
Proof.
  induction l as [|y l IH]; cbn; [by intros _ x []%not_elem_of_nil|].
  destruct (f y) as [[]|] eqn:Hy; [|done]. intros Hl x [->|Hx]%elem_of_cons; [done|]. by apply IH.
Qed.

(** A completed join of the genesis [g], with its barriers in order. *)
Definition completed_in_order (g : Genesis) (last : option LogId) (id : N) (c : CompletedJoin) : Prop :=
  let p := completed_prepared c in
  id = physical_id (consumer (plan p)) ∧ one_boot_replacement (plan p) ∧ plan_genesis (plan p) = g ∧
  ∃ ack applied, learner_applied p = Some ack ∧ last = Some applied ∧
    (index (prepared p) < index ack < index (promoted c))%N ∧ (index (promoted c) ≤ index applied)%N.

(** A progress record of a member of [m], for the genesis [g]. *)
Definition progress_of (g : Genesis) (m : Membership) (id : N) (p : AppliedHealthProgress) : Prop :=
  id = physical_id (replica (request p)) ∧ genesis (request p) = g ∧ replica (request p) ∈ node_ids m.

Lemma snapshot_completed_ok a ids id c :
  snapshot_completed a ids (id, c) = Ok tt →
  completed_in_order (context_genesis (context (session a))) (ids_last_applied ids) id c.
Proof.
  unfold snapshot_completed. cbn [fst snd]. set (p := completed_prepared c).
  destruct (join_plan_data a (plan p)) as [[]|] eqn:Hp; [|done].
  apply join_plan_data_ok in Hp as [Hv Hg]. do 3 (destruct (auth_log a _); [|done]).
  destruct (learner_applied p) as [ack|] eqn:Hack; [|done].
  destruct (ensure _ _) as [[]|] eqn:He; [|done]. apply ensured in He. intros _. guards. n_compare.
  destruct (ids_last_applied ids) as [applied|]; [|done].
  match goal with H : opt_after _ (Some applied) = true |- _ => cbn in H; unfold log_at_or_before in H end.
  guards. n_compare. match goal with H : (id =? _)%N = true |- _ => apply N.eqb_eq in H end.
  split_and!; [done|by apply plan_validate_ok|done|]. by exists ack, applied.
Qed.

Lemma snapshot_progress_ok a ids id p :
  snapshot_progress a ids (id, p) = Ok tt →
  progress_of (context_genesis (context (session a))) (membership (ids_last_membership ids)) id p.
Proof.
  unfold snapshot_progress. cbn [fst snd]. destruct (auth_log a _); [|done].
  destruct (auth_command a _ _) as [[]|] eqn:Hc; [|done]. intros He%ensured. guards.
  cbn in Hc. destruct (denied (progress_validate (request p))) as [[]|] eqn:Hv; [|done].
  apply ensured in Hc. guards. apply denied_ok in Hv. unfold progress_validate in Hv.
  destruct (_ || _) eqn:Hx; [done|]. guards. match goal with H : (id =? _)%N = true |- _ => apply N.eqb_eq in H end.
  split_and!; [congruence|done..].
Qed.

(** The joins and the progress of a state are those of one genesis. *)
Record admission_history (g : Genesis) s : Prop := {
  history_genesis : state_genesis s = Some g;
  history_epoch : cluster_epoch s = Some (epoch g);
  history_pending : ∀ applied, last_applied_log s = Some applied →
    join_consistent g (membership (last_membership s)) (prepared_join s) (index applied);
  history_started : last_applied_log s = None → prepared_join s = None;
  history_completed : ∀ id c, completed_joins s !! id = Some c →
    completed_in_order g (last_applied_log s) id c;
  history_progress : ∀ id p, applied_progress s !! id = Some p →
    progress_of g (membership (last_membership s)) id p
}.

(** The fields of a state that the admission history is about. *)
Definition admission_part s :=
  (state_genesis s, cluster_epoch s, last_applied_log s, last_membership s, prepared_join s,
   completed_joins s, applied_progress s).

Lemma purge_part l s : admission_part (purge_covered l s) = admission_part s.
Proof. unfold purge_covered. by destruct (opt_index_lt _ _). Qed.

Lemma restore_part snap s :
  admission_part (restore_into snap s) =
    (snap_genesis snap, snap_cluster_epoch snap, snap_last_applied snap, snap_last_membership snap,
     snap_prepared_join snap, snap_completed_joins snap, snap_applied_progress snap).
Proof. unfold restore_into. by destruct (failover_semantics _), (failback _). Qed.

Lemma adopt_part snap s : admission_part (adopt_snapshot snap s) = admission_part (restore_into snap s).
Proof.
  unfold adopt_snapshot. generalize (restore_into snap s). intros r. destruct (snap_last_applied snap) as [l|]; [|done].
  rewrite <- (purge_part l r). generalize (purge_covered l r). done.
Qed.

(** What the checks on a decoded snapshot establish. *)
Lemma snapshot_identities_ok a meta ids :
  let g := context_genesis (context (session a)) in
  snapshot_identities a meta ids = Ok tt →
  ids_last_applied ids = meta_last_log_id meta ∧ ids_last_membership ids = meta_last_membership meta ∧
  ids_genesis ids = Some g ∧
  ids_cluster_epoch ids = Some (epoch g) ∧
  (∀ applied, ids_last_applied ids = Some applied →
     join_consistent g (membership (ids_last_membership ids)) (ids_prepared_join ids) (index applied)) ∧
  (ids_last_applied ids = None → ids_prepared_join ids = None) ∧
  (∀ id c, ids_completed_joins ids !! id = Some c → completed_in_order g (ids_last_applied ids) id c) ∧
  (∀ id p, ids_applied_progress ids !! id = Some p → progress_of g (membership (ids_last_membership ids)) id p).
Proof.
  unfold snapshot_identities. destruct (ensure _ _) as [[]|] eqn:H1; [|done]. apply ensured in H1.
  destruct (ensure _ _) as [[]|] eqn:H2; [|done]. apply ensured in H2. destruct (ensure _ _); [|done].
  destruct (for_each (snapshot_progress a ids) _) as [[]|] eqn:Hprog; [|done].
  destruct (match ids_prepared_join ids with Some _ => _ | None => _ end) as [[]|] eqn:Hpend; [|done].
  destruct (ensure _ _); [|done]. destruct (for_each (snapshot_completed a ids) _) as [[]|] eqn:Hcomp; [|done].
  intros _. guards. split_and!; [done..| | | |].
  - intros applied Hl p Hp. rewrite Hp, Hl in Hpend. by apply (snapshot_prepared_join_ok _ _ _ _ Hpend).
  - intros Hl. rewrite Hl in Hpend. destruct (ids_prepared_join ids) as [p|]; [|done]. exfalso.
    unfold snapshot_prepared_join in Hpend. destruct (join_plan_data _ _); [|done]. by do 2 (destruct (auth_log a _); [|done]).
  - intros id c Hc. eapply snapshot_completed_ok, for_each_ok; [done|]. by apply elem_of_btree_iter.
  - intros id p Hp. eapply snapshot_progress_ok, for_each_ok; [done|]. by apply elem_of_btree_iter.
Qed.

(** C27: a snapshot the network accepts installs as a coherent admission history.
    Suppose a transferred snapshot passes the dispatcher and the store still accepts
    mutations; the decoders of the network and of the store read the same values where
    both succeed.  If the store's decoder, which also wants fields the network does not
    look at, refuses the body, the installation fails with its error.  Otherwise the
    installation succeeds, and the state it leaves is at the log id and membership of
    the metadata and of the admitted genesis: its pending join fits its membership, every
    completed join is an ordered single-boot replacement that was applied, and every
    progress record is of a member. *)
Theorem accepted_snapshot_installs decode from_slice d s now session_now raft peer req t call out meta later :
  let data := snapshot_data (transfer_snapshot req) in
  (∀ snap ids, from_slice data = Ok snap → decode data = Ok ids → ids = identities_of snap) →
  driver_dispatch decode d s now session_now raft peer (RaftSnapshot req) t = (Some call, out) →
  check_mutation s later = Ok tt →
  match from_slice data with
  | Err e => install_snapshot from_slice s meta data later
             = Err (mkIoError InvalidData ("install_snapshot " +:+ meta +:+ ": " +:+ e))
  | Ok snap =>
      ∃ ss s', admission s = Some ss ∧ install_snapshot from_slice s meta data later = Ok s' ∧
        last_applied_log s' = meta_last_log_id (transfer_snapshot req) ∧
        last_membership s' = meta_last_membership (transfer_snapshot req) ∧
        admission_history (context_genesis (context ss)) s'
  end.
Proof.
  intros data Hdec Hd Hmut. destruct (from_slice data) as [snap|e] eqn:Hsnap; [|unfold install_snapshot; by rewrite Hsnap].
  apply dispatch_call in Hd as (_ & r & a & conflict & _ & _ & Ha & _ & Hval & _ & Hcall & Hcf); [|done].
  destruct conflict; [by rewrite Hcf in Hcall|]. apply authorize_raft_ok in Ha as (D & _).
  unfold validate_request in Hval. destruct (denied _); [|done]. destruct (sender_vote _ _ _); [|done].
  unfold auth_snapshot in Hval. destruct (denied _); [|done]. do 2 (destruct (auth_log a _); [|done]).
  fold data in Hval. destruct (decode data) as [ids|] eqn:Hids; [|done]. rewrite (Hdec _ _ eq_refl eq_refl) in Hval. clear Hids.
  cbn [decoded] in Hval. destruct (snapshot_identities _ _ _) as [[]|] eqn:Hids; [|done].
  apply snapshot_identities_ok in Hids as (Hl & Hm & Hg & He & Hp & Hn & Hc & Hpr). cbn in Hl, Hm, Hg, He, Hp, Hn, Hc, Hpr.
  pose proof (derived_session _ _ _ _ _ D) as Hs. exists (session a). unfold install_snapshot. rewrite Hsnap, Hs, Hg.
  rewrite (bool_decide_true (Some _ = Some _)) by done. exists (adopt_snapshot snap s).
  pose proof (eq_trans (adopt_part snap s) (restore_part snap s)) as Hpart.
  generalize (adopt_snapshot snap s) Hpart. clear Hpart. intros s' Hpart.
  injection Hpart as P1 P2 P3 P4 P5 P6 P7. split_and!; [done| |congruence|congruence|].
  - destruct (state_genesis s) as [g|] eqn:Hsg; [rewrite (derived_bound _ _ _ _ _ D g Hsg)|].
    all: rewrite ?(bool_decide_true (Some _ = Some _)) by done; cbn; by rewrite Hmut.
  - split; rewrite ?P1, ?P2, ?P3, ?P4, ?P5, ?P6, ?P7; done.
Qed.
End inbound.

(** ** An example: a follower receives the steps of a join *)

Module Follower.
Local Open Scope N_scope.

Definition tag (m : list N) : list N := be_bytes 32 (of_be_bytes m).
Definition member (i : N) : ReplicaId := mkReplicaId i (replicate 32 0).
Definition rejoined : ReplicaId := mkReplicaId 3 (replicate 32 1).
Definition cohort : gset ReplicaId := {[member 1; member 2; member 3]}.

Definition fingerprint : ClusterConfigFingerprint := Eval vm_compute in
  match cluster_config_fingerprint Demo.sock_parse tag Demo.cfg with Ok i => i | Err _ => mkClusterConfigFingerprint 0 [] end.
Definition gen : Genesis := mkGenesis fingerprint 7 cohort.
Definition plan : JoinPlan := mkJoinPlan gen rejoined [5] cohort {[member 1; member 2; rejoined]}.

(** A membership with the configured addresses. *)
Definition configured (cs : list (gset ReplicaId)) (ids : gset ReplicaId) : ModelMembership :=
  match make_membership (O:=model_openraft) Demo.cfg cs ids with Ok m => m | Err _ => membership_default end.

Definition at_index (i : N) : LogId := mkLogId (mkLeaderId 1 (member 2)) i.
Definition entry (i : N) (p : EntryPayload) : Entry := mkEntry model_openraft (at_index i) p.

(** The driver of member 1, active under the admission, and its store: the
    membership and the genesis are applied, the preparation is in the log. *)
Definition context : AdmissionContext := mkAdmissionContext (member 1) gen.
Definition authority : RuntimeAuthority :=
  mkRuntimeAuthority (member 1)
    (Active (identity tag (mkRuntimeAuthority (member 1) Sealed None) context) Voting 1000) None.
Definition lease : LeaseTiming := mkLeaseTiming 1000 2000 4000 3000 100 250 900.
Definition driver : RuntimeDriver :=
  mkRuntimeDriver Demo.cfg
    (mkAdmissionController Demo.cfg (list_to_set (peer_id <$> peers Demo.cfg)) fingerprint (member 1)
       (lease_admission_timing lease) 0 None)
    authority (member 1) lease 0 true None (Some 0) None false true false.
Definition preparation : Entry := entry 3 (Normal (AdmissionMembership (PrepareJoin plan))).
Definition store : KafStorageState (O:=model_openraft) :=
  apply_all (new_state [] 3 true 0)
    [entry 1 (MembershipChange (configured [cohort] cohort)); entry 2 (Normal (AdmissionGenesis gen))]
  <| admission := Some (mkAdmissionSession context (fence_of tag authority)) |>
  <| last_purged_log_id := Some (at_index 2) |>
  <| log := {[3 := preparation]} |>.

(** The leader, member 2, adds the learner and its acknowledgement. *)
Definition peer : InboundPeer := mkInboundPeer [] (Some (member 2)) 2 (Some 7) true.
Definition request : AppendEntriesRequest (O:=model_openraft) :=
  mkAppendEntriesRequest 2 (Some (at_index 3)) (Some (at_index 4))
    [entry 4 (MembershipChange (configured [cohort] ({[rejoined]} ∪ cohort)));
     entry 5 (Normal (AdmissionMembership (LearnerApplied rejoined [5] (at_index 3))))].
Definition moments : DispatchClock := mkDispatchClock 10 10 10 10 10 10.
Definition no_snapshot (bytes : list N) : Result (SnapshotIdentities (O:=model_openraft)) string := Err "".
Definition engine (c : RaftCall) : Result (list N) NetError := Ok [].

Lemma dispatched :
  driver_dispatch Demo.sock_parse tag no_snapshot driver store 10 10 engine peer (RaftAppendEntries request) moments
  = (Some (CallAppendEntries request), Ok []).
Proof. vm_cast_no_check (eq_refl (Some (CallAppendEntries request), @Ok (list N) NetError [])). Qed.

Lemma store_log : log_ok (log store) (last_purged_log_id store).
Proof.
  change (log_ok {[3 := preparation]} (Some (at_index 2))). split.
  - intros i e [<- <-]%lookup_singleton_Some. done.
  - intros i p [e [<- _]%lookup_singleton_Some] [= <-]. done.
  - intros i j [e [<- _]%lookup_singleton_Some]. cbn. intros Hj. assert (j = 3) as -> by lia.
    rewrite lookup_singleton_eq. eauto.
Qed.

(** The leader's snapshot, with the preparation applied. *)
Definition leader : KafStorageState (O:=model_openraft) :=
  apply_all (new_state [] 3 true 0)
    [entry 1 (MembershipChange (configured [cohort] cohort)); entry 2 (Normal (AdmissionGenesis gen)); preparation].
Definition image : KafSnapshot (O:=model_openraft) := snapshot_from leader.
Definition decode_image (bytes : list N) : Result (KafSnapshot (O:=model_openraft)) string :=
  if bool_decide (bytes = [1]) then Ok image else Err "".
Definition decode_ids (bytes : list N) : Result (SnapshotIdentities (O:=model_openraft)) string :=
  if bool_decide (bytes = [1]) then Ok (identities_of image) else Err "".
Definition transfer : SnapshotTransfer (O:=model_openraft) :=
  mkSnapshotTransfer 2
    (mkSnapshot (Some (at_index 3)) (mkStoredMembership model_openraft (Some (at_index 1)) (configured [cohort] cohort)) [1]).

Lemma transferred :
  driver_dispatch Demo.sock_parse tag decode_ids driver store 10 10 engine peer (RaftSnapshot transfer) moments
  = (Some (CallInstallSnapshot (transfer_vote transfer) (transfer_snapshot transfer)), Ok []).
Proof.
  vm_cast_no_check (eq_refl (Some (CallInstallSnapshot (transfer_vote transfer) (transfer_snapshot transfer)),
                             @Ok (list N) NetError [])).
Qed.
End Follower.

Lemma accepted_append_applies_witness :
  CallAppendEntries Follower.request = AnswerConflict ∨
  CallAppendEntries Follower.request = CallAppendEntries Follower.request ∧
  ∃ es, local_entries Follower.store (Follower.at_index 2) (prev_log_id Follower.request) = Some es ∧
    protocol_accepted Follower.store (es ++ fresh_entries (Follower.at_index 2) (append_entries Follower.request)).
Proof.
  apply (accepted_append_applies Demo.sock_parse Follower.tag Follower.no_snapshot Follower.driver Follower.store 10%N 10%N
    Follower.engine Follower.peer Follower.request Follower.moments (CallAppendEntries Follower.request) (Ok [])).
  - vm_cast_no_check (eq_refl (Some (Follower.at_index 2))).
  - vm_compute. discriminate.
  - by exists Follower.gen.
  - apply Follower.store_log.
  - apply Follower.dispatched.
Defined.

Lemma raft_call_authorized_witness :
  ∃ ss, admission Follower.store = Some ss ∧ may_lead Follower.driver Follower.store (context ss) (Follower.member 2).
Proof.
  destruct (raft_call_authorized Demo.sock_parse Follower.tag Follower.no_snapshot Follower.driver Follower.store 10%N 10%N
    Follower.engine Follower.peer (RaftAppendEntries Follower.request) Follower.moments
    (CallAppendEntries Follower.request) (Ok []) 2%N) as (_ & _ & _ & _ & ss & Hs & _ & Hl & _);
    [apply Follower.dispatched|reflexivity|]. by exists ss.
Defined.

Lemma accepted_snapshot_installs_witness :
  ∃ ss s', admission Follower.store = Some ss ∧
    install_snapshot Follower.decode_image Follower.store "" [1%N] 20%N = Ok s' ∧
    last_applied_log s' = meta_last_log_id (transfer_snapshot Follower.transfer) ∧
    last_membership s' = meta_last_membership (transfer_snapshot Follower.transfer) ∧
    admission_history (context_genesis (context ss)) s'.
Proof.
  apply (accepted_snapshot_installs Demo.sock_parse Follower.tag Follower.decode_ids Follower.decode_image Follower.driver
    Follower.store 10%N 10%N Follower.engine Follower.peer Follower.transfer Follower.moments
    (CallInstallSnapshot (transfer_vote Follower.transfer) (transfer_snapshot Follower.transfer)) (Ok []) "" 20%N).
  - intros snap ids. unfold Follower.decode_image, Follower.decode_ids. case_bool_decide; [by intros [= <-] [= <-]|done].
  - apply Follower.transferred.
  - vm_cast_no_check (@eq_refl (Result unit IoError) (Ok tt)).
Defined.
