(* ===== verification/Takeover.v ===== *)
(** * Waiting for the previous holder of a VIP (src/vip/takeover.rs, src/vip/reconcile.rs)

    A node that takes a VIP over without a release of the previous holder waits
    locally until every proof the previous holder can still hold has expired and
    its addresses are removed. *)

From S2P Require Import Prelude Text Io Replica Openraft Admission Types VipLogic State Controller Lease Freshness.

(** [takeover_lifetime]; a count beyond [u32] saturates. *)
Definition takeover_lifetime (proof_lifetime vip_count : N) : N :=
  let cleanup_work := if (u32_max <? vip_count)%N then duration_max
                      else duration_saturating_mul SHUTDOWN_VIP_BUDGET vip_count in
  duration_saturating_add proof_lifetime (duration_saturating_add RECONCILE_TICK cleanup_work).

(** [TakeoverDelay]: per VIP the generation, the previous holder's tick and the start. *)
Record TakeoverDelay := mkTakeoverDelay {
  delay_lifetime : N;
  waiting : gmap IpAddr (N * option N * Instant)
}.

Definition takeover_new (life : N) : TakeoverDelay := mkTakeoverDelay life ∅.

(** The arguments of a call to [ready], and its clock readings: for a wait that starts, and
    for the time that has elapsed. *)
Record ReadyCall := mkReadyCall {
  call_vip : IpAddr;
  call_node : N;
  call_assignment : option VipAssignment;
  call_ticks : gmap N N;
  call_frontier : N;
  call_stale : N;
  call_activated : option N;
  call_now : Instant;
  call_elapsed_at : Instant
}.

(** The assignment, when this node is its holder. *)
Definition own_assignment (c : ReadyCall) : option VipAssignment :=
  match call_assignment c with
  | Some a => if (holder a =? call_node c)%N then Some a else None
  | None => None
  end.

(** The cases in which there is nothing to wait for. *)
Definition no_wait (c : ReadyCall) (a : VipAssignment) : bool :=
  bool_decide (call_activated c = Some (generation a))
  || bool_decide (is_Some (previous_holder a)) && previous_holder_released a
  || negb (bool_decide (is_Some (previous_holder a))) && (generation a =? 1)%N.

(** The previous holder still renews its health. *)
Definition predecessor_fresh (c : ReadyCall) (a : VipAssignment) : bool :=
  match previous_holder a with
  | Some p => is_node_probe_fresh p (call_ticks c) (call_frontier c) (call_stale c)
  | None => false
  end.

Definition previous_tick_of (c : ReadyCall) (a : VipAssignment) : option N :=
  previous_holder a ≫= λ p, call_ticks c !! p.

(** [TakeoverDelay::ready]: the delay afterwards and the answer. *)
Definition ready (d : TakeoverDelay) (c : ReadyCall) : TakeoverDelay * bool :=
  let forget := mkTakeoverDelay (delay_lifetime d) (delete (call_vip c) (waiting d)) in
  match own_assignment c with
  | None => (forget, false)
  | Some a =>
      if no_wait c a then (forget, true)
      else if predecessor_fresh c a then (forget, false)
      else
        let fresh := (generation a, previous_tick_of c a, call_now c) in
        let pending := default fresh (waiting d !! call_vip c) in
        let pending := if negb (bool_decide (pending.1.1 = generation a))
                          || negb (bool_decide (pending.1.2 = previous_tick_of c a))
                       then fresh else pending in
        (mkTakeoverDelay (delay_lifetime d) (<[call_vip c := pending]> (waiting d)),
         delay_lifetime d <=? call_elapsed_at c - pending.2)%N
  end.

(** ** The wait is complete *)

(** What a call waits for: the generation and the previous holder's last tick. *)
Definition waits_on (c : ReadyCall) : option (N * option N) :=
  match own_assignment c with
  | Some a => if no_wait c a || predecessor_fresh c a then None
              else Some (generation a, previous_tick_of c a)
  | None => None
  end.

(** The delay after a history of calls, newest first. *)
Definition after_calls (life : N) (cs : list ReadyCall) : TakeoverDelay :=
  foldr (λ c d, (ready d c).1) (takeover_new life) cs.

(** The wait for [key] started at the call [c0] and has not been interrupted since. *)
Definition uninterrupted (vip : IpAddr) (key : N * option N) (t0 : Instant) (cs : list ReadyCall) : Prop :=
  ∃ since c0 before, cs = since ++ c0 :: before ∧ call_vip c0 = vip ∧ call_now c0 = t0 ∧
    ∀ c, c ∈ since ++ [c0] → call_vip c = vip → waits_on c = Some key.

Lemma uninterrupted_other vip key t0 c cs :
  call_vip c ≠ vip → uninterrupted vip key t0 cs → uninterrupted vip key t0 (c :: cs).
Proof.
  intros Hne (since & c0 & before & -> & Hv & Ht & Hall). exists (c :: since), c0, before. split_and!; [done..|].
  intros x [->|Hx]%elem_of_cons Hvip; [done|]. by apply Hall.
Qed.

Lemma uninterrupted_same vip key t0 c cs :
  waits_on c = Some key → uninterrupted vip key t0 cs → uninterrupted vip key t0 (c :: cs).
Proof.
  intros Hw (since & c0 & before & -> & Hv & Ht & Hall). exists (c :: since), c0, before. split_and!; [done..|].
  intros x [->|Hx]%elem_of_cons Hvip; [done|]. by apply Hall.
Qed.

Lemma uninterrupted_start c key cs :
  waits_on c = Some key → uninterrupted (call_vip c) key (call_now c) (c :: cs).
Proof.
  intros Hw. exists [], c, cs. split_and!; [done..|]. intros x ->%list_elem_of_singleton _. done.
Qed.

(** A call in terms of what it waits on. *)
Lemma ready_waits d c key :
  waits_on c = Some key →
  ∃ t0, (waiting d !! call_vip c = Some (key, t0) ∨ t0 = call_now c) ∧
    ready d c = (mkTakeoverDelay (delay_lifetime d) (<[call_vip c := (key, t0)]> (waiting d)),
                 delay_lifetime d <=? call_elapsed_at c - t0)%N.
Proof.
  unfold waits_on, ready. destruct (own_assignment c) as [a|]; [|done].
  destruct (no_wait c a); [done|]. destruct (predecessor_fresh c a); [done|]. cbn [orb]. intros [= <-].
  destruct (waiting d !! call_vip c) as [[[g pt] t]|]; cbn [default].
  - case_bool_decide as Hg; [case_bool_decide as Hp|]; cbn.
    + cbn in Hg, Hp. subst g pt. exists t. by split; [left|].
    + exists (call_now c). by split; [right|].
    + exists (call_now c). by split; [right|].
  - rewrite !bool_decide_true by done. cbn. exists (call_now c). by split; [right|].
Qed.

Lemma ready_forgets d c :
  waits_on c = None →
  (ready d c).1 = mkTakeoverDelay (delay_lifetime d) (delete (call_vip c) (waiting d)) ∧
  ((ready d c).2 = true → ∃ a, own_assignment c = Some a ∧ no_wait c a = true).
Proof.
  unfold waits_on, ready. destruct (own_assignment c) as [a|]; [|done].
  destruct (no_wait c a) eqn:Hn; [by eauto|]. by destruct (predecessor_fresh c a).
Qed.

Lemma after_calls_lifetime life cs : delay_lifetime (after_calls life cs) = life.
Proof.
  induction cs as [|c cs IH]; [done|]. cbn [after_calls foldr]. fold (after_calls life cs).
  destruct (waits_on c) as [key|] eqn:Hw.
  - by destruct (ready_waits (after_calls life cs) c key Hw) as (t0 & _ & ->).
  - by destruct (ready_forgets (after_calls life cs) c Hw) as [-> _].
Qed.

Lemma waiting_uninterrupted life cs vip key t0 :
  waiting (after_calls life cs) !! vip = Some (key, t0) → uninterrupted vip key t0 cs.
Proof.
  revert key t0. induction cs as [|c cs IH]; intros key t0; [done|]. cbn [after_calls foldr]. fold (after_calls life cs).
  destruct (waits_on c) as [k|] eqn:Hw.
  - destruct (ready_waits (after_calls life cs) c k Hw) as (t & Ht & ->). cbn [fst waiting].
    destruct (decide (call_vip c = vip)) as [<-|Hne].
    + rewrite lookup_insert_eq. intros [= <- <-].
      destruct Ht as [Ht| ->]; [by apply uninterrupted_same, IH|by apply uninterrupted_start].
    + rewrite lookup_insert_ne by done. intros H. apply uninterrupted_other; [done|]. by apply IH.
  - destruct (ready_forgets (after_calls life cs) c Hw) as [-> _]. cbn [waiting].
    intros [Hne H]%lookup_delete_Some. apply uninterrupted_other; [done|]. by apply IH.
Qed.

(** C25: a takeover without a release waits out the previous holder's lease.  After
    any history of calls, [ready] answers yes only if this node already activated
    the generation, the previous holder released, or it is the first generation of
    a VIP without predecessor; or if the history shows a call at least the full
    lifetime ago since which every sample of this VIP named this node as holder of
    the same generation with a stale predecessor whose tick did not move. *)
Theorem takeover_waits_full_lifetime (life : N) (cs : list ReadyCall) (c : ReadyCall) :
  (ready (after_calls life cs) c).2 = true →
  (∃ a, own_assignment c = Some a ∧ no_wait c a = true) ∨
  ∃ key t0, uninterrupted (call_vip c) key t0 (c :: cs) ∧ (life ≤ call_elapsed_at c - t0)%N.
Proof.
  intros Hr. destruct (waits_on c) as [key|] eqn:Hw; [right|left].
  - destruct (ready_waits (after_calls life cs) c key Hw) as (t0 & Ht & Heq). rewrite Heq in Hr. cbn in Hr.
    rewrite after_calls_lifetime in Hr. n_compare. exists key, t0. split; [|done].
    destruct Ht as [Ht| ->]; [|by apply uninterrupted_start].
    apply uninterrupted_same; [done|]. by eapply waiting_uninterrupted.
  - by apply (ready_forgets (after_calls life cs) c Hw).
Qed.

(** An example: two samples a full lifetime apart. *)
Definition demo_ready_call (at' : N) : ReadyCall :=
  mkReadyCall (V4 1) 2 (Some (mkVipAssignment 2 5 (Some 1%N) false 0)) {[1%N := 1%N]} 10 1 None at' at'.

Lemma takeover_waits_full_lifetime_witness :
  (ready (after_calls 100 [demo_ready_call 7]) (demo_ready_call 107)).2 = true ∧
  ((∃ a, own_assignment (demo_ready_call 107) = Some a ∧ no_wait (demo_ready_call 107) a = true) ∨
   ∃ key t0, uninterrupted (V4 1) key t0 [demo_ready_call 107; demo_ready_call 7] ∧ (100 ≤ 107 - t0)%N).
Proof.
  split; [vm_compute; reflexivity|].
  apply (takeover_waits_full_lifetime 100 [demo_ready_call 7] (demo_ready_call 107)). vm_compute. reflexivity.
Defined.
