(* ===== verification/Worker.v ===== *)
(** * The worker that reconciles one VIP with the kernel
    (src/vip/reconcile/worker.rs, src/vip/reconcile.rs, src/vip/reconcile/intent.rs, src/vip/witness.rs)

    One turn of the worker's loop as a function of what it observes: the local
    health and quorum freshness, the metrics of the Raft engine, the samples of
    the shared state it could take without waiting, the clock, and the outcome
    of the commands it runs.  It returns the worker's next memory and the
    effects it performed, in order. *)

From S2P Require Import Prelude Text Io Replica Openraft Admission Types VipLogic State Controller Lease.
From S2P Require Import BindPolicy Freshness Takeover.

(** ** Decisions *)

(** [startup_effects_may_arm] (src/vip.rs). *)
Definition startup_effects_may_arm (leader : bool) (last_applied cluster_committed : option N) : bool :=
  leader && match last_applied, cluster_committed with
            | Some applied, Some committed => (committed <=? applied)%N
            | _, _ => false
            end.

(** [should_reannounce_after_release] (src/vip.rs). *)
Definition should_reannounce_after_release (a : VipAssignment) (vip : IpAddr) (already_bound : bool)
    (announced : gmap IpAddr N) : bool :=
  already_bound && bool_decide (is_Some (previous_holder a)) && previous_holder_released a
  && negb (bool_decide (announced !! vip = Some (generation a))).

(** [should_publish_release]. *)
Definition should_publish_release (a : VipAssignment) (node_id : N) (vip : IpAddr)
    (released_generations : gmap IpAddr N) (unbind_succeeded : bool) : bool :=
  unbind_succeeded && bool_decide (previous_holder a = Some node_id) && negb (previous_holder_released a)
  && negb (bool_decide (released_generations !! vip = Some (generation a))).

Section worker.
Context {O : Openraft}.
Implicit Types (s : KafStorageState).

(** [EffectIntent]. *)
Record EffectIntent := mkEffectIntent {
  intent_assignment : option VipAssignment;
  bind_policy : bool;
  intent_vip : IpAddr;
  intent_node : N;
  intent_gates : BindGates;
  activated_generation : option N;
  previous_tick : option N
}.

#[global] Instance EffectIntent_eta : Eta EffectIntent := λ i,
  mkEffectIntent (intent_assignment i) (bind_policy i) (intent_vip i) (intent_node i) (intent_gates i)
    (activated_generation i) (previous_tick i).

(** [EffectIntent::activated]. *)
Definition activated (i : EffectIntent) : EffectIntent :=
  i <| activated_generation := generation <$> intent_assignment i |>.

(** [EffectIntent::capture]. *)
Definition capture (vip : IpAddr) (node : N) (gates : BindGates) s (active : option N) : EffectIntent :=
  let a := vip_assignments s !! vip in
  mkEffectIntent a
    (should_bind_or_keep_vip gates node a (node_probe_ticks s) (latest_probe_tick s)
       (stale_missed_probes s) active)
    vip node gates active (x ← a; p ← previous_holder x; node_probe_ticks s !! p).

#[global] Instance BindGates_eq_dec : EqDecision BindGates.
Proof. solve_decision. Defined.

(** [EffectIntent::remains_valid]. *)
Definition remains_valid (i : EffectIntent) s (gates : BindGates) : bool :=
  let now := capture (intent_vip i) (intent_node i) gates s (activated_generation i) in
  let expected :=
    match intent_assignment i with
    | Some a =>
        if bool_decide (holder a = intent_node i)
           && bool_decide (activated_generation i = Some (generation a))
           && match intent_assignment now with Some b => previous_holder_released b | None => false end
        then Some (mkVipAssignment (holder a) (generation a) (previous_holder a) true (activation_tick a))
        else Some a
    | None => None
    end in
  if negb (bool_decide (expected = intent_assignment now)) || negb (bool_decide (intent_gates i = gates))
     || negb (Bool.eqb (bind_policy i) (bind_policy now))
  then false
  else
    let waiting_for_predecessor :=
      match intent_assignment i with
      | Some a => bool_decide (holder a = intent_node i) && bool_decide (is_Some (previous_holder a))
                  && negb (previous_holder_released a)
                  && negb (bool_decide (activated_generation i = Some (generation a)))
      | None => false
      end in
    negb waiting_for_predecessor || bool_decide (previous_tick i = previous_tick now).

(** ** Completed bindings (src/vip/witness.rs) *)

(** [CompletedBindingWitness]. *)
Record CompletedBindingWitness := mkWitness {
  witness_intent : EffectIntent;
  witness_health : N;
  witness_iface : Text;
  witness_vip : VipAddr;
  witness_context : AdmissionContext;
  witness_stamp : RetentionStamp
}.

(** [CompletedBindingWitness::completed], for the health and freshness of the moment. *)
Definition completed (vip : VipAddr) (iface : Text) (i : EffectIntent) (observed : N) (p : Permit)
    (f : ConsensusFreshness) (h : HealthStatus) (now : Instant) : option CompletedBindingWitness :=
  if negb (permit_check f p now) || negb (continuity_check h observed) || negb (bind_policy i) then None
  else
    a ← intent_assignment i;
    if negb (bool_decide (holder a = physical_id (local_replica (stamp_context (permit_stamp p))))) then None
    else Some (mkWitness (activated i) observed iface vip (stamp_context (permit_stamp p)) (permit_stamp p)).

(** [CompletedBindingWitness::retain]; its two clock readings may differ. *)
Definition witness_retain (w : CompletedBindingWitness) (f : ConsensusFreshness) (h : HealthStatus)
    (vip : VipAddr) (iface : Text) (now check_now : Instant) : option Permit :=
  if negb (bool_decide (witness_vip w = vip)) || negb (bool_decide (witness_iface w = iface))
     || negb (continuity_check h (witness_health w))
  then None
  else
    p ← retain f (witness_stamp w) now;
    if bool_decide (stamp_context (permit_stamp p) = witness_context w) && permit_check f p check_now
    then Some p else None.

(** [CompletedBindingWitness::matches_state]. *)
Definition matches_state (w : CompletedBindingWitness) (h : HealthStatus) s : bool :=
  remains_valid (witness_intent w) s (mkBindGates true (continuity_check h (witness_health w)) true).

(** ** Memory *)

(** [ReconcileMemory]. *)
Record ReconcileMemory := mkReconcileMemory {
  released_generations : gmap IpAddr N;
  activated_generations : gmap IpAddr N;
  announced_release_generations : gmap IpAddr N;
  vip_effects_armed : bool;
  takeover_delay : TakeoverDelay
}.

#[global] Instance ReconcileMemory_eta : Eta ReconcileMemory := λ m,
  mkReconcileMemory (released_generations m) (activated_generations m) (announced_release_generations m)
    (vip_effects_armed m) (takeover_delay m).

(** [ReconcileMemory::new]. *)
Definition memory_new (proof_lifetime vip_count : N) : ReconcileMemory :=
  mkReconcileMemory ∅ ∅ ∅ false (takeover_new (takeover_lifetime proof_lifetime vip_count)).

(** The local variables of the worker's loop. *)
Record Worker := mkWorker {
  memory : ReconcileMemory;
  witness : option CompletedBindingWitness;
  cleanup_needed : bool;
  last_assignment : option VipAssignment
}.

#[global] Instance Worker_eta : Eta Worker := λ w,
  mkWorker (memory w) (witness w) (cleanup_needed w) (last_assignment w).

(** What the worker does to the world: commands on the kernel, messages to the
    cluster, and the marks it leaves on the shared freshness and health. *)
Inductive Effect :=
| Unbind (succeeded : bool)
| PublishRelease (gen : N) (failure : option FailureKind)
| BindKernel (i : EffectIntent) (p : Permit)
| FailBinding (fault : BindFault)
| Announce
| NotifyMaster.

(** The outcome of an authorized bind: [None | Some(Ok(None))], [Some(Ok(Some(first)))], [Some(Err)]. *)
Inductive BindOutcome :=
| BindAbandoned
| BindDone (first_bind : bool)
| BindRaised (fault : BindFault).

(** What one turn observes, in the order of the observations. *)
Record Turn := mkTurn {
  turn_observed : N;
  turn_health : HealthStatus;
  turn_freshness : ConsensusFreshness;
  turn_leader : bool;
  turn_last_applied : option N;
  turn_committed : option N;
  retain_at : Instant;
  retain_check_at : Instant;
  first_sample : option KafStorageState;
  settled_before : bool;
  unbind_ok : bool;
  delete_again : bool;
  settled_after : bool;
  release_failure : option FailureKind;
  acquire_at : Instant;
  second_sample : option KafStorageState;
  ready_at : Instant;
  ready_elapsed_at : Instant;
  was_bound : bool;
  bind_outcome : BindOutcome;
  completed_freshness : ConsensusFreshness;
  completed_health : HealthStatus;
  completed_at : Instant;
  completed_check_at : Instant;
  completed_leader : bool;
  third_sample : option KafStorageState
}.

#[global] Instance Turn_eta : Eta Turn := λ t,
  mkTurn (turn_observed t) (turn_health t) (turn_freshness t) (turn_leader t) (turn_last_applied t)
    (turn_committed t) (retain_at t) (retain_check_at t) (first_sample t) (settled_before t)
    (unbind_ok t) (delete_again t) (settled_after t) (release_failure t) (acquire_at t)
    (second_sample t) (ready_at t) (ready_elapsed_at t) (was_bound t) (bind_outcome t) (completed_freshness t)
    (completed_health t) (completed_at t) (completed_check_at t) (completed_leader t) (third_sample t).

(** ** One turn *)

Context (vip : VipAddr) (iface : Text) (node_id : N) (notify : bool).
Implicit Types (w : Worker) (t : Turn).

(** Lines 43-59: effects are armed once the replay reached the committed frontier. *)
Definition arm w t : Worker :=
  if vip_effects_armed (memory w) then w
  else w <| memory := memory w <| vip_effects_armed :=
              startup_effects_may_arm (turn_leader t) (turn_last_applied t) (turn_committed t) |> |>.

(** Whether the completed binding is still retained. *)
Definition retained w t : bool :=
  match witness w with
  | Some x => bool_decide (is_Some (witness_retain x (turn_freshness t) (turn_health t) vip iface
                                      (retain_at t) (retain_check_at t)))
  | None => false
  end.

(** Lines 60-87: the assignment sampled, and whether the addresses have to go. *)
Definition observe w t : Worker :=
  let lost := bool_decide (is_Some (witness w)) && negb (retained w t) in
  match first_sample t with
  | None => w <| cleanup_needed := cleanup_needed w || lost |>
  | Some s =>
      let a := vip_assignments s !! addr vip in
      let mismatch := match witness w with Some x => negb (matches_state x (turn_health t) s) | None => false end in
      let owes := vip_effects_armed (memory w) && negb (bool_decide (is_Some (witness w)))
                  && match a with
                     | Some a => should_publish_release a node_id (addr vip) (released_generations (memory w)) true
                     | None => false
                     end in
      w <| last_assignment := a |> <| cleanup_needed := cleanup_needed w || lost || mismatch || owes |>
  end.

(** [maybe_publish_release]. *)
Definition maybe_publish_release (m : ReconcileMemory) (a : VipAssignment) t : ReconcileMemory * list Effect :=
  if negb (settled_after t) then (m, [])
  else if negb (should_publish_release a node_id (addr vip) (released_generations m) true) then
    (if negb (bool_decide (previous_holder a = Some node_id)) || previous_holder_released a
     then m <| released_generations := delete (addr vip) (released_generations m) |> else m, [])
  else
    (match release_failure t with
     | None => m <| released_generations := <[addr vip := generation a]> (released_generations m) |>
     | Some _ => m
     end, [PublishRelease (generation a) (release_failure t)]).

(** Lines 88-136: forget the binding, remove the addresses, acknowledge the handoff. *)
Definition cleanup w t : Worker * list Effect :=
  let m := memory w <| activated_generations := delete (addr vip) (activated_generations (memory w)) |>
                    <| announced_release_generations := delete (addr vip) (announced_release_generations (memory w)) |> in
  let w := w <| witness := None |> <| memory := m |> in
  if unbind_ok t then
    let w := w <| cleanup_needed := delete_again t |> in
    match last_assignment w with
    | Some a =>
        if vip_effects_armed m && settled_before t then
          let '(m, effects) := maybe_publish_release m a t in
          (w <| memory := m |>, Unbind true :: effects)
        else (w, [Unbind true])
    | None => (w, [Unbind true])
    end
  else (w, [Unbind false]).

(** The binding gates of an acquisition. *)
Definition acquisition_gates t : BindGates := mkBindGates (turn_leader t) true true.

(** Lines 138-167: the permit and the candidate effect. *)
Definition candidate w t : option (Permit * EffectIntent * ReadyCall) :=
  if vip_effects_armed (memory w) && continuity_check (turn_health t) (turn_observed t) then
    p ← acquire (turn_freshness t) (turn_leader t) (acquire_at t);
    s ← second_sample t;
    let active := activated_generations (memory w) !! addr vip in
    let i := capture (addr vip) node_id (acquisition_gates t) s active in
    Some (p, i, mkReadyCall (addr vip) node_id (intent_assignment i) (node_probe_ticks s) (latest_probe_tick s)
                  (stale_missed_probes s) active (ready_at t) (ready_elapsed_at t))
  else None.

(** The closure [can_retain] on the current witness. *)
Definition can_retain w t : bool :=
  match witness w with
  | Some x =>
      bool_decide (is_Some (witness_retain x (completed_freshness t) (completed_health t) vip iface
                              (completed_at t) (completed_check_at t)))
      && match third_sample t with Some s => matches_state x (completed_health t) s | None => true end
  | None => false
  end.

(** [EffectAuthorization::check_live], after the bind. *)
Definition check_live t (p : Permit) : bool :=
  permit_check (completed_freshness t) p (completed_check_at t)
  && continuity_check (completed_health t) (turn_observed t) && completed_leader t.

(** Lines 213-246: the completed binding is recorded and made known. *)
Definition record_binding w t (i : EffectIntent) (x : CompletedBindingWitness) (first_bind : bool)
  : Worker * list Effect :=
  let m := memory w <| released_generations := delete (addr vip) (released_generations (memory w)) |> in
  let master := if negb (was_bound t) && notify then [NotifyMaster] else [] in
  match intent_assignment i with
  | Some a =>
      let m := m <| activated_generations := <[addr vip := generation a]> (activated_generations m) |> in
      let reannounce := should_reannounce_after_release a (addr vip) (was_bound t)
                          (announced_release_generations m) in
      let m := if previous_holder_released a && (negb (was_bound t) || reannounce)
               then m <| announced_release_generations :=
                           <[addr vip := generation a]> (announced_release_generations m) |> else m in
      (w <| witness := Some x |> <| memory := m |>,
       (if first_bind || reannounce then [Announce] else []) ++ master)
  | None => (w <| witness := Some x |> <| memory := m |>, master)
  end.

(** Lines 169-280: the bind of an authorized candidate and its outcome. *)
Definition attempt w t : Worker * list Effect :=
  match candidate w t with
  | None => (w, [])
  | Some (p, i, c) =>
      let '(d, is_ready) := ready (takeover_delay (memory w)) c in
      let w := w <| memory := memory w <| takeover_delay := d |> |> in
      if bind_policy i && is_ready then
        match bind_outcome t with
        | BindDone first_bind =>
            match completed vip iface i (turn_observed t) p (completed_freshness t) (completed_health t)
                    (completed_at t) with
            | Some x =>
                if check_live t p
                then let '(w, effects) := record_binding w t i x first_bind in (w, BindKernel i p :: effects)
                else (w <| cleanup_needed := negb (can_retain w t) |>, [BindKernel i p])
            | None => (w <| cleanup_needed := negb (can_retain w t) |>, [BindKernel i p])
            end
        | BindRaised fault => (w <| cleanup_needed := true |>, [BindKernel i p; FailBinding fault])
        | BindAbandoned => (w <| cleanup_needed := negb (can_retain w t) |>, [BindKernel i p])
        end
      else
        match witness w, intent_assignment i with
        | None, Some a =>
            (w <| cleanup_needed := should_publish_release a node_id (addr vip)
                                      (released_generations (memory w)) true |>, [])
        | _, _ => (w, [])
        end
  end.

(** One turn of [run]. *)
Definition turn w t : Worker * list Effect :=
  let w := observe (arm w t) t in
  if cleanup_needed w then cleanup w t else attempt w t.

(** The worker at the start; an address may be left over. *)
Definition worker_new (proof_lifetime vip_count : N) (left_over : bool) : Worker :=
  mkWorker (memory_new proof_lifetime vip_count) None left_over None.
End worker.
