(* ===== verification/WorkerTheorems.v ===== *)
(** * What the VIP worker guarantees

    Whatever a turn observes, an address is added only under every authorization
    the code requires, a handoff is acknowledged only after the addresses were
    removed, and a binding whose authorization is gone is removed in the same
    turn. *)

From S2P Require Import Prelude Text Io Replica Openraft Admission Types VipLogic State Controller Lease.
From S2P Require Import BindPolicy Freshness Takeover Worker.

Section worker.
Context {O : Openraft} (vip : VipAddr) (iface : Text) (node_id : N) (notify : bool).
Implicit Types (w : Worker) (t : Turn) (s : KafStorageState).

Local Abbreviation turn := (turn vip iface node_id notify).

(** ** Binding *)

Lemma arm_armed w t :
  vip_effects_armed (memory (arm w t)) = true →
  vip_effects_armed (memory w) = true ∨
  startup_effects_may_arm (turn_leader t) (turn_last_applied t) (turn_committed t) = true.
Proof. unfold arm. destruct (vip_effects_armed (memory w)) eqn:H; [by left|]. cbn. by right. Qed.

Lemma observe_memory w t : memory (observe vip iface node_id w t) = memory w.
Proof. unfold observe. by destruct (first_sample t). Qed.

Lemma nil_effect (P : Effect → Prop) e : e ∈ ([] : list Effect) → P e.
Proof. by intros ?%not_elem_of_nil. Qed.

(** The only effect of [maybe_publish_release] is the release of the assignment. *)
Lemma maybe_publish_effects m a t :
  (maybe_publish_release vip node_id m a t).2 = [] ∨
  (maybe_publish_release vip node_id m a t).2 = [PublishRelease (generation a) (release_failure t)] ∧
  settled_after t = true ∧
  should_publish_release a node_id (addr vip) (released_generations m) true = true.
Proof.
  unfold maybe_publish_release. destruct (settled_after t); cbn; [|by left].
  destruct (should_publish_release _ _ _ _ _); cbn; [by right|by left].
Qed.

Lemma cleanup_effects w t :
  witness (cleanup vip node_id w t).1 = None ∧
  ((cleanup vip node_id w t).2 = [Unbind (unbind_ok t)] ∨
   ∃ a, (cleanup vip node_id w t).2 = [Unbind true; PublishRelease (generation a) (release_failure t)] ∧
     unbind_ok t = true ∧ settled_before t = true ∧ settled_after t = true ∧
     vip_effects_armed (memory w) = true ∧ last_assignment w = Some a ∧
     should_publish_release a node_id (addr vip) (released_generations (memory w)) true = true).
Proof.
  destruct w as [m x c la]. unfold cleanup. cbn.
  destruct (unbind_ok t); [|by auto]. destruct la as [a|]; [|by auto].
  destruct (vip_effects_armed m) eqn:Harm; [|by auto]. destruct (settled_before t); [|by auto]. cbn.
  match goal with |- context [maybe_publish_release vip node_id ?m' a t] =>
    pose proof (maybe_publish_effects m' a t) as Hpub;
    destruct (maybe_publish_release vip node_id m' a t) as [m1 effects] end.
  cbn in *. split; [done|]. destruct Hpub as [->|(-> & Hs & Hr)]; [by left|right]. by exists a.
Qed.

(** What a cleanup leaves: the addresses are accounted for. *)
Lemma cleanup_flag w t :
  cleanup_needed (cleanup vip node_id w t).1 = if unbind_ok t then delete_again t else cleanup_needed w.
Proof.
  destruct w as [m x c la]. unfold cleanup. cbn. destruct (unbind_ok t); [|done].
  destruct la as [a|]; [|done]. destruct (_ && _); [|done]. by destruct (maybe_publish_release _ _ _ _ _).
Qed.

Lemma record_binding_no_bind w t i x first e :
  e ∈ (record_binding vip notify w t i x first).2 → e = Announce ∨ e = NotifyMaster.
Proof. unfold record_binding. repeat case_match; cbn; set_solver. Qed.

(** The effects of an attempt: a bind first, if any, and never an unbind or a release. *)
Lemma attempt_effects w t :
  (attempt vip iface node_id notify w t).2 = [] ∨
  ∃ p i c rest, candidate vip node_id w t = Some (p, i, c) ∧ bind_policy i = true ∧
    (ready (takeover_delay (memory w)) c).2 = true ∧
    (attempt vip iface node_id notify w t).2 = BindKernel i p :: rest ∧
    ∀ e, e ∈ rest → e = Announce ∨ e = NotifyMaster ∨ ∃ f, e = FailBinding f.
Proof.
  unfold attempt. destruct (candidate vip node_id w t) as [[[p i] c]|]; [|by left].
  destruct (ready (takeover_delay (memory w)) c) as [d r] eqn:Hr.
  destruct (bind_policy i) eqn:Hp; [destruct r|]; cbn [andb].
  - right. exists p, i, c. rewrite Hr. destruct (bind_outcome t) as [|first|fault].
    + exists []. split_and!; [done..|]. exact (nil_effect _).
    + destruct (completed _ _ _ _ _ _ _ _) as [x|]; [destruct (check_live t p)|].
      * match goal with |- context [record_binding vip notify ?w' t i x first] =>
          pose proof (record_binding_no_bind w' t i x first) as Hrec;
          destruct (record_binding vip notify w' t i x first) as [w1 effects] end.
        exists effects. split_and!; [done..|]. intros e He. destruct (Hrec e He); auto.
      * exists []. split_and!; [done..|]. exact (nil_effect _).
      * exists []. split_and!; [done..|]. exact (nil_effect _).
    + exists [FailBinding fault]. split_and!; [done..|]. intros e ->%list_elem_of_singleton. eauto.
  - left. destruct (witness _); [done|]. by destruct (intent_assignment i).
  - left. destruct (witness _); [done|]. by destruct (intent_assignment i).
Qed.

Local Abbreviation observed w t := (observe vip iface node_id (arm w t) t).

Lemma turn_cases w t :
  (cleanup_needed (observed w t) = true ∧ turn w t = cleanup vip node_id (observed w t) t) ∨
  (cleanup_needed (observed w t) = false ∧ turn w t = attempt vip iface node_id notify (observed w t) t).
Proof. unfold Worker.turn. destruct (cleanup_needed _) eqn:Hc; auto. Qed.

Lemma arm_memory w t :
  activated_generations (memory (arm w t)) = activated_generations (memory w) ∧
  takeover_delay (memory (arm w t)) = takeover_delay (memory w) ∧
  released_generations (memory (arm w t)) = released_generations (memory w) ∧
  witness (arm w t) = witness w ∧ cleanup_needed (arm w t) = cleanup_needed w.
Proof. unfold arm. by destruct (vip_effects_armed (memory w)). Qed.

Lemma candidate_inv w t p i c :
  candidate vip node_id w t = Some (p, i, c) →
  vip_effects_armed (memory w) = true ∧ continuity_check (turn_health t) (turn_observed t) = true ∧
  acquire (turn_freshness t) (turn_leader t) (acquire_at t) = Some p ∧
  ∃ s, second_sample t = Some s ∧
    i = capture (addr vip) node_id (acquisition_gates t) s (activated_generations (memory w) !! addr vip) ∧
    c = mkReadyCall (addr vip) node_id (vip_assignments s !! addr vip) (node_probe_ticks s) (latest_probe_tick s)
          (stale_missed_probes s) (activated_generations (memory w) !! addr vip) (ready_at t) (ready_elapsed_at t).
Proof.
  unfold candidate. destruct (vip_effects_armed (memory w)), (continuity_check _ _); cbn [andb]; try done.
  destruct (acquire _ _ _) as [p'|]; [|done]. destruct (second_sample t) as [s|]; [|done].
  intros [= <- <- <-]. split_and!; [done..|]. by exists s.
Qed.

(** C7: an address is added only under full authorization.  If a turn binds the
    VIP, effects are armed (from before, or because the replay just reached the
    committed frontier), the worker holds a fresh acquisition permit, the local
    health was not lost since the turn began, the sampled committed state names
    this node as the holder and its handoff fence is open, and the wait for a
    predecessor that never confirmed its release is over. *)
Theorem bind_is_authorized w t i p :
  BindKernel i p ∈ (turn w t).2 →
  (vip_effects_armed (memory w) = true ∨
   startup_effects_may_arm (turn_leader t) (turn_last_applied t) (turn_committed t) = true) ∧
  acquire (turn_freshness t) (turn_leader t) (acquire_at t) = Some p ∧
  continuity_check (turn_health t) (turn_observed t) = true ∧
  ∃ s a, second_sample t = Some s ∧ vip_assignments s !! addr vip = Some a ∧ holder a = node_id ∧
    (activation_tick a ≤ latest_probe_tick s)%N ∧
    (activated_generations (memory w) !! addr vip = Some (generation a) ∨
     ∀ q, previous_holder a = Some q → previous_holder_released a = true ∨
       is_node_probe_fresh q (node_probe_ticks s) (latest_probe_tick s) (stale_missed_probes s) = false) ∧
    (ready (takeover_delay (memory w))
       (mkReadyCall (addr vip) node_id (Some a) (node_probe_ticks s) (latest_probe_tick s) (stale_missed_probes s)
          (activated_generations (memory w) !! addr vip) (ready_at t) (ready_elapsed_at t))).2 = true.
Proof.
  intros Hin. destruct (arm_memory w t) as (Hact & Hdelay & _).
  destruct (turn_cases w t) as [[_ Ht]|[_ Ht]]; rewrite Ht in Hin.
  - destruct (cleanup_effects (observed w t) t) as [_ [He|(a & He & _)]]; rewrite He in Hin; set_solver.
  - destruct (attempt_effects (observe vip iface node_id (arm w t) t) t)
      as [He|(p' & i' & c & rest & Hc & Hpol & Hready & He & Hrest)]; rewrite He in Hin;
      [by apply not_elem_of_nil in Hin|].
    apply elem_of_cons in Hin as [[= -> ->]|Hin]; [|by destruct (Hrest _ Hin) as [|[|[f ?]]]].
    apply candidate_inv in Hc as (Harm & Hcont & Hacq & s & Hs & -> & ->).
    rewrite observe_memory in *. rewrite Hact, Hdelay in *.
    cbn [capture bind_policy] in Hpol. apply should_bind_inv in Hpol as (a & Ha & _ & Hh & Htick & Hfence).
    rewrite Ha in Hready. split_and!; [by apply arm_armed|done..|]. exists s, a. by split_and!.
Qed.

(** ** Releasing *)

Lemma should_publish_inv a m u :
  should_publish_release a node_id (addr vip) m u = true →
  u = true ∧ previous_holder a = Some node_id ∧ previous_holder_released a = false ∧
  m !! addr vip ≠ Some (generation a).
Proof.
  unfold should_publish_release. rewrite !andb_true_iff, !negb_true_iff, bool_decide_eq_true, bool_decide_eq_false.
  intros [[[]]]; by split_and!.
Qed.

(** A handoff is acknowledged only after the addresses are gone.  If a turn
    publishes the release of a generation, it first removed the addresses
    successfully, no command was outstanding before or after, the worker keeps no
    completed binding, and the generation is that of the last sampled assignment,
    whose unreleased previous holder is this node; and it was not published before. *)
Theorem release_follows_unbind w t g f :
  PublishRelease g f ∈ (turn w t).2 →
  (turn w t).2 = [Unbind true; PublishRelease g f] ∧
  settled_before t = true ∧ settled_after t = true ∧ witness (turn w t).1 = None ∧
  released_generations (memory w) !! addr vip ≠ Some g ∧
  ∃ a, last_assignment (observe vip iface node_id (arm w t) t) = Some a ∧
    generation a = g ∧ previous_holder a = Some node_id ∧ previous_holder_released a = false.
Proof.
  intros Hin. destruct (turn_cases w t) as [[_ Ht]|[_ Ht]]; rewrite Ht in Hin |- *.
  - destruct (cleanup_effects (observed w t) t) as [Hw [He|(a & He & _ & Hb & Ha & _ & Hl & Hp)]];
      rewrite He in Hin; [set_solver|].
    assert (g = generation a ∧ f = release_failure t) as [-> ->] by set_solver.
    destruct (should_publish_inv a _ _ Hp) as (_ & Hprev & Hrel & Hnew).
    rewrite observe_memory in Hnew. destruct (arm_memory w t) as (_ & _ & Hr & _). rewrite Hr in Hnew.
    split_and!; [done..|]. by exists a.
  - destruct (attempt_effects (observed w t) t) as [He|(p & i & c & rest & _ & _ & _ & He & Hrest)];
      rewrite He in Hin; [by apply not_elem_of_nil in Hin|].
    apply elem_of_cons in Hin as [|Hin]; [done|]. by destruct (Hrest _ Hin) as [|[|[b ?]]].
Qed.

(** ** Removal *)

(** Whether the kernel may hold the address after an effect of a turn: a bind may
    have added it, whatever its outcome, and a removal that has to be repeated may
    not have removed it. *)
Definition may_hold t (held : bool) (e : Effect) : bool :=
  match e with
  | BindKernel _ _ => true
  | Unbind true => delete_again t
  | _ => held
  end.

(** The worker and the kernel after a sequence of turns. *)
Fixpoint worker_run w (held : bool) (ts : list Turn) : Worker * bool :=
  match ts with
  | [] => (w, held)
  | t :: ts => worker_run (turn w t).1 (foldl (may_hold t) held (turn w t).2) ts
  end.

Definition accounted (w : Worker) (held : bool) : Prop :=
  held = true → is_Some (witness w) ∨ cleanup_needed w = true.

Lemma can_retain_witness w t : can_retain vip iface w t = true → is_Some (witness w).
Proof. unfold can_retain. by destruct (witness w). Qed.

Lemma record_binding_witness w t i x first :
  witness (record_binding vip notify w t i x first).1 = Some x.
Proof. unfold record_binding. by destruct (intent_assignment i). Qed.

(** An abandoned bind keeps the earlier binding or asks for a cleanup. *)
Lemma abandoned_accounted w t held :
  accounted (w <| cleanup_needed := negb (can_retain vip iface w t) |>) held.
Proof.
  intros _. destruct (can_retain vip iface w t) eqn:Hr; [left|by right]. by apply can_retain_witness in Hr.
Qed.

Lemma attempt_accounted w t held :
  accounted w held → cleanup_needed w = false →
  accounted (attempt vip iface node_id notify w t).1
    (foldl (may_hold t) held (attempt vip iface node_id notify w t).2).
Proof.
  intros Hacc Hc. unfold attempt. destruct (candidate vip node_id w t) as [[[p i] c]|]; [|done].
  destruct (ready _ _) as [d r].
  set (w1 := w <| memory := _ |>).
  assert (Hacc1 : accounted w1 held) by done.
  assert (Hc1 : cleanup_needed w1 = false) by done. clearbody w1. clear Hacc Hc.
  destruct (bind_policy i && r).
  - destruct (bind_outcome t) as [|first|fault]; [apply abandoned_accounted| |by intros _; right].
    destruct (completed _ _ _ _ _ _ _ _) as [x|]; [|apply abandoned_accounted].
    destruct (check_live t p); [|apply abandoned_accounted].
    pose proof (record_binding_witness w1 t i x first) as Hw.
    destruct (record_binding vip notify w1 t i x first) as [w2 effects]. intros _. left.
    cbn [fst] in *. by rewrite Hw.
  - destruct (witness w1) as [x|] eqn:Hx; [done|]. destruct (intent_assignment i); [|done].
    cbn [foldl snd fst]. intros Hheld. destruct (Hacc1 Hheld) as [Hs|?]; [|congruence].
    rewrite Hx in Hs. by apply is_Some_None in Hs.
Qed.

Lemma observe_flags w t :
  witness (observed w t) = witness w ∧
  (cleanup_needed w = true → cleanup_needed (observed w t) = true) ∧
  (is_Some (witness w) → retained vip iface w t = false → cleanup_needed (observed w t) = true) ∧
  (∀ x s, witness w = Some x → first_sample t = Some s → matches_state x (turn_health t) s = false →
     cleanup_needed (observed w t) = true).
Proof.
  destruct (arm_memory w t) as (_ & _ & _ & Hw & Hc).
  assert (Hr : retained vip iface (arm w t) t = retained vip iface w t) by (unfold retained; by rewrite Hw).
  unfold observe. rewrite Hr. destruct (first_sample t) as [s'|]; cbn; rewrite Hw, Hc; split_and!; try done.
  - by intros ->.
  - intros [x ->] ->. rewrite !bool_decide_true by done. by rewrite orb_true_r.
  - intros x s -> [= ->] ->. cbn. by rewrite !orb_true_r.
  - by intros ->.
  - intros [x ->] ->. rewrite !bool_decide_true by done. by rewrite orb_true_r.
Qed.

Lemma turn_accounted w t held :
  accounted w held → accounted (turn w t).1 (foldl (may_hold t) held (turn w t).2).
Proof.
  intros Hacc. destruct (observe_flags w t) as (Hw & Hkeep & _).
  destruct (turn_cases w t) as [[Hc ->]|[Hc ->]].
  - intros Hheld. right. rewrite cleanup_flag, Hc. destruct (unbind_ok t) eqn:Hu; [|done].
    destruct (cleanup_effects (observed w t) t) as [_ [He|(a & He & _)]]; rewrite He in Hheld; [|done].
    by rewrite Hu in Hheld.
  - apply attempt_accounted; [|done]. intros Hheld. rewrite Hw.
    destruct (Hacc Hheld) as [|Hn]; [by left|right; auto].
Qed.

Lemma worker_run_accounted ts w held w' held' :
  worker_run w held ts = (w', held') → accounted w held → accounted w' held'.
Proof.
  revert w held. induction ts as [|t ts IH]; intros w held; cbn; [by intros [= <- <-]|].
  intros Hrun Hacc. exact (IH _ _ Hrun (turn_accounted w t held Hacc)).
Qed.

(** C9: an address without authority is removed.  Take a worker that starts with a
    possibly left over address and any sequence of turns, with any outcome of the
    commands, after which the kernel may still hold the address.  If in the next turn
    no completed binding is retained, or the sampled state no longer matches it, the
    first thing the turn does is to remove the address, and it forgets the binding. *)
Theorem unauthorized_address_removed lifetime count left_over ts w t :
  worker_run (worker_new lifetime count left_over) left_over ts = (w, true) →
  (retained vip iface w t = false ∨
   ∃ x s, witness w = Some x ∧ first_sample t = Some s ∧ matches_state x (turn_health t) s = false) →
  head (turn w t).2 = Some (Unbind (unbind_ok t)) ∧ witness (turn w t).1 = None.
Proof.
  intros Hrun Hlost. assert (Hacc : accounted w true).
  { eapply worker_run_accounted; [exact Hrun|]. intros ->. by right. }
  destruct (observe_flags w t) as (_ & Hkeep & Hret & Hmatch).
  assert (Hc : cleanup_needed (observed w t) = true).
  { destruct Hlost as [Hr|(x & s & Hx & Hs & Hm)]; [|by eapply Hmatch].
    destruct (Hacc eq_refl) as [Hs|Hn]; auto. }
  destruct (turn_cases w t) as [[_ ->]|[Hf _]]; [|congruence].
  destruct (cleanup_effects (observed w t) t) as [Hw [He|(a & He & Hu & _)]]; rewrite He; [done|].
  by rewrite Hu.
Qed.
End worker.

(** ** An example *)

(** Node 1 takes a VIP over from node 2, keeps it while its proof lasts, and gives it back. *)
Module Takeovers.
Local Open Scope N_scope.

Definition vip : VipAddr := mkVipAddr (V4 1) 24.
Definition iface : Text := [101; 116; 104].
Definition taken_over : VipAssignment := mkVipAssignment 1 5 (Some 2) true 0.
Definition handed_back : VipAssignment := mkVipAssignment 2 6 (Some 1) false 0.
Definition assigned (a : VipAssignment) : KafStorageState (O:=model_openraft) :=
  new_state [] 3 true 0 <| vip_assignments := {[V4 1 := a]} |>.

Definition turn_at (now : Instant) (a : VipAssignment) : Turn (O:=model_openraft) :=
  mkTurn (O:=model_openraft) 0 (local_health_new true) demo_freshness true (Some 5) (Some 5) now now (Some (assigned a)) true true false true
    None now (Some (assigned a)) now now false (BindDone true) demo_freshness (local_health_new true) now now true
    (Some (assigned a)).

Definition started : Worker := worker_new 100 1 false.
Definition intent : EffectIntent :=
  capture (V4 1) 1 (mkBindGates true true true) (assigned taken_over) None.
Definition holding : Worker := (turn vip iface 1 true started (turn_at 12 taken_over)).1.

Lemma binds :
  (turn vip iface 1 true started (turn_at 12 taken_over)).2 = [BindKernel intent demo_permit; Announce; NotifyMaster].
Proof. vm_cast_no_check (eq_refl [BindKernel intent demo_permit; Announce; NotifyMaster]). Qed.

Lemma bind_is_authorized_witness :
  acquire demo_freshness true 12%N = Some demo_permit ∧
  ∃ s a, Some (assigned taken_over) = Some s ∧ vip_assignments s !! V4 1 = Some a ∧ holder a = 1.
Proof.
  destruct (bind_is_authorized vip iface 1 true started (turn_at 12 taken_over) intent demo_permit)
    as (_ & Hacq & _ & s & a & Hs & Ha & Hh & _).
  - rewrite binds. apply list_elem_of_here.
  - split; [exact Hacq|]. by exists s, a.
Defined.

Lemma gives_back :
  (turn vip iface 1 true holding (turn_at 20 handed_back)).2 = [Unbind true; PublishRelease 6 None].
Proof. vm_cast_no_check (eq_refl [Unbind true; PublishRelease 6 None]). Qed.

Lemma release_follows_unbind_witness :
  witness (turn vip iface 1 true holding (turn_at 20 handed_back)).1 = None.
Proof.
  apply (release_follows_unbind vip iface 1 true holding (turn_at 20 handed_back) 6 None).
  rewrite gives_back. apply list_elem_of_further, list_elem_of_here.
Defined.

(** At 110 the proof of the binding has run out. *)
Lemma unauthorized_address_removed_witness :
  head (turn vip iface 1 true holding (turn_at 110 taken_over)).2 = Some (Unbind true).
Proof.
  apply (unauthorized_address_removed vip iface 1 true 100 1 false [turn_at 12 taken_over] holding
    (turn_at 110 taken_over)).
  - reflexivity.
  - left. vm_cast_no_check (eq_refl false).
Defined.
End Takeovers.
