(* ===== verification/Runtime.v ===== *)
(** * The tasks of the admission runtime (src/raft/admission/runtime/)

    The asynchronous functions of [RuntimeDriver] as tasks over the locked
    sections of [Driver] and the calls they await: the engine, the network, the
    entropy source and timers.  Every await is an event, so other tasks and the
    engine may change the node in between; the locks [round] and [mutation] only
    rule interleavings out and are not needed by the theorems.  Futures that run
    concurrently finish in the order the event [NextReady] chooses. *)

From S2P Require Import Prelude Text Io Replica Openraft Admission Types VipLogic State StoreMembership.
From S2P Require Import StateMachine LogStore Config Fingerprint Auth Controller Lease Freshness Request Authorization.
From S2P Require Import Tasks Driver.
Local Open Scope kaf_scope.

(** [REQUEST_ROLE] and [RESPONSE_ROLE] (src/raft/network/management.rs). *)
Definition REQUEST_ROLE : N := 12.
Definition RESPONSE_ROLE : N := 13.

(** The errors of [client_write] the code tells apart. *)
Inductive WriteError := ForwardToLeader | WriteFailed (reason : string).

(** [Discovery] (discovery.rs). *)
Record Discovered := mkDiscovered {
  boots : gset ReplicaId;
  histories : gmap ReplicaId Genesis
}.

Section runtime.
Context {O : Openraft}.
Context (sock_parse : Text → option SocketAddr) (sha256 : list N → list N).
Context (hmac : list N → option (list N → list N)).
Context (encode : list N * AdmissionRequest → option (list N)).
Context (encode_request : list N * ManagementRequest → option (list N)).
Context (encode_response : list N * ManagementResponse → option (list N)).
Context (cfg : Config) (local : ReplicaId) (timing : LeaseTiming) (boot : Instant).

(** ** Events *)

Inductive Ev : Type → Type :=
(* sections of the node *)
| EnsureRunning : Ev (Result unit RunError)
| RaftHandle : Ev (Result unit RunError)
| AuthorityCurrent : Ev bool
| SealedNow : Ev bool
| Coherent : Ev (Result AdmissionSession RunError)
| CheckSession (c : AdmissionContext) : Ev (Result Instant RunError)
| ReadStorage : Ev KafStorageState
| DiscoveryAnswer : Ev (Result ManagementResult RunError)
| Begin (g : Genesis) (mode : AdmissionMode) : Ev (Result AdmissionRound RunError)
| BindProgress (r : AdmissionRound) (applied : AppliedHealthProgress) : Ev (Result AdmissionRound RunError)
| BindPrepared (r : AdmissionRound) (p : PreparedJoin) : Ev (Result AdmissionRound RunError)
| Complete (r : AdmissionRound) (grants : list ReceivedGrant)
  : Ev (AdmissionRound * Result VerifiedAdmission RunError)
| Accept (v : VerifiedAdmission) : Ev (Result AdmissionSession RunError)
| PollGrant (signed : SignedAdmission AdmissionRequest) (binding : list N) (deadline : option Instant)
  : Ev (Result (option (SignedAdmission AdmissionRequest)) RunError)
| Joining : Ev (option VerifiedJoinBootstrap)
| Promote : Ev Promotion
| ObservePending (p : PreparedJoin) (matched : option N) : Ev (Result bool RunError)
| ClearPending : Ev unit
| NewProgress (started : Instant) (applied : AppliedHealthProgress) (installed : InstalledAdmission)
  : Ev (Result VerifiedProgress RunError)
| ActivationElapsed : Ev bool
| ReportAdmission (taken : bool) : Ev unit
| StartRunning : Ev (Result unit RunError)
| IsStopped : Ev bool
| StopRunning : Ev unit
| Clock : Ev Instant
(* calls *)
| ClientWrite (req : KafRequest) : Ev (Result (LogId * KafResponse) WriteError)
| AddLearner (id : ReplicaId) (address : Text) : Ev (Result unit RunError)
| ChangeMembership (voters : gset ReplicaId) : Ev (Result unit RunError)
| RemoveNodes (ids : gset ReplicaId) : Ev (Result unit RunError)
| IsInitialized : Ev (Result bool RunError)
| Initialize (members : gmap ReplicaId Text) : Ev (Result unit RunError)
| CurrentLeader : Ev (option ReplicaId)
| LeaderMetrics (consumer : ReplicaId) : Ev (Membership * option N)
| AdmissionRpc (to : ReplicaId) (req : AdmissionRequest) : Ev (Result ReceivedGrant RunError)
| ManagementRpc (to : ReplicaId) (a : ManagementAction) : Ev (Result ManagementResult RunError)
| ProbeStatus (p : PeerConfig) : Ev (Result ClusterStatusResponse RunError)
| Entropy : Ev (option (list N))
| TakesReport : Ev bool
| Timer : Ev bool
| NextReady (pending : nat) : Ev nat
| NetworkStopped : Ev bool
| Forever : Ev Empty_set.

(** The sections on the node, at the instants [t] of their clock readings; [begin]
    draws its nonce from [entropy]. *)
Definition section {X} (e : Ev X) (t : nat → Instant) (entropy : option (list N)) (n : Node)
  : option (Node * X) :=
  match e in Ev X return option (Node * X) with
  | EnsureRunning => Some (n, run_denied (ensure_running (driver n)))
  | RaftHandle => Some (n, raft_handle (driver n))
  | AuthorityCurrent => Some (authority_current sha256 n (t 0))
  | SealedNow => Some (sealed_now sha256 n (t 0))
  | Coherent => let '(n, r) := coherent sha256 n (t 0) (t 1) in Some (n, run_denied r)
  | CheckSession c => let '(n, r) := check_session sha256 n c (t 0) in Some (n, run_denied r)
  | ReadStorage => Some (n, storage n)
  | DiscoveryAnswer => Some (n, discovery_answer n (t 0))
  | Begin g mode => Some (n, begin_round n g mode entropy (t 0))
  | BindProgress r applied => Some (n, run_denied (bind_progress r applied (t 0)))
  | BindPrepared r p => Some (n, run_denied (bind_prepared sha256 r p (t 0)))
  | Complete r grants =>
      let '(r, v) := complete hmac encode (core (driver n)) r grants (t 0) in Some (n, (r, run_denied v))
  | Accept v => Some (accept_admission sha256 n v (t 0) (t 1) (t 2) (t 3))
  | PollGrant signed binding deadline => Some (poll_grant sha256 hmac encode n signed binding deadline t)
  | Joining => Some (n, bootstrap_join (driver n))
  | Promote => Some (promote sha256 n (t 0))
  | ObservePending p matched =>
      let '(d, r) := observe_pending sha256 (driver n) p matched (t 1) (t 0) in Some (n <| driver := d |>, r)
  | ClearPending => Some (n <| driver := clear_pending_progress (driver n) |>, tt)
  | NewProgress started applied installed =>
      Some (n, run_denied (progress_new started applied installed (t 0)))
  | ActivationElapsed => Some (n, activation_elapsed (driver n) (t 0))
  | ReportAdmission taken => Some (report_admission_once_voting sha256 n taken (t 0), tt)
  | StartRunning => let '(d, r) := start_running (driver n) in Some (n <| driver := d |>, r)
  | IsStopped => Some (n, stopped (driver n))
  | StopRunning => Some (shutdown sha256 n, tt)
  | Clock => Some (n, t 0)
  | _ => None
  end.

(** The events that leave the node to the environment. *)
Definition is_call {X} (e : Ev X) : bool :=
  match e with
  | ClientWrite _ | AddLearner _ _ | ChangeMembership _ | RemoveNodes _ | IsInitialized | Initialize _
  | CurrentLeader | LeaderMetrics _ | AdmissionRpc _ _ | ManagementRpc _ _ | ProbeStatus _ | Entropy
  | TakesReport | Timer | NextReady _ | NetworkStopped | Forever => true
  | _ => false
  end.

(** ** Building blocks *)

Local Abbreviation task := (task Ev RunError).

Definition fail {A} (e : RunError) : task A := Ret (Err e).
Definition of_result {A} (r : Result A RunError) : task A := Ret r.
Definition of_denied {A} (r : Result A AdmissionDenied) : task A := Ret (run_denied r).
Definition require (c : bool) (reason : string) : task unit := Ret (ensure c (Failed reason)).
Definition of_option {A} (a : option A) (reason : string) : task A :=
  match a with Some a => Ret (Ok a) | None => fail (Failed reason) end.

(** The timer of [tokio::time::timeout] around a task. *)
Definition tick (reason : string) : task unit :=
  elapsed ← perform Timer;
  if (elapsed : bool) then fail (Elapsed reason) else mret tt.
Definition timed {A} (reason : string) (work : task A) : task A := guarded (tick reason) work.

(** [bounded_phase] and the lock of [renewal_lock], which may time out. *)
Definition bounded_phase {A} (phase : string) (work : task A) : task A := timed (phase +:+ " phase timed out") work.
Definition renewal_lock : task unit := tick "admission round lock timed out".

(** The select loop of [within_admission], evaluated whenever its work awaits. *)
Definition admission_gate : task unit :=
  is_sealed ← perform SealedNow;
  if (is_sealed : bool) then fail (Denied (mkAdmissionDenied "runtime admission is sealed"))
  else
    elapsed ← perform Timer;
    if (elapsed : bool) then
      attempt_ev EnsureRunning;;
      active ← perform AuthorityCurrent;
      if (active : bool) then mret tt else fail (Denied (mkAdmissionDenied "runtime has no active admission"))
    else mret tt.

Definition within_admission {A} (work : task A) : task A :=
  attempt_ev EnsureRunning;;
  active ← perform AuthorityCurrent;
  if (active : bool) then
    result ← guarded admission_gate (outcome work);
    attempt_ev EnsureRunning;;
    still ← perform AuthorityCurrent;
    if (still : bool) then of_result result
    else fail (Denied (mkAdmissionDenied "runtime admission expired during work"))
  else fail (Denied (mkAdmissionDenied "runtime has no active admission")).

(** [coherent_session]. *)
Definition coherent_session : task AdmissionSession := within_admission (attempt_ev Coherent).

(** [session.check()] of a session over the authority. *)
Definition recheck (s : AdmissionSession) : task unit := attempt_ev (CheckSession (context s));; mret tt.

(** [health_publication_ready]. *)
Definition health_publication_ready : task PublicationReadiness :=
  attempt_ev EnsureRunning;;
  active ← perform AuthorityCurrent;
  if (active : bool) then coherent_session;; mret PublicationReady
  else
    is_sealed ← perform SealedNow;
    if (is_sealed : bool) then fail (Denied (mkAdmissionDenied "runtime admission is sealed"))
    else attempt_ev EnsureRunning;; mret PublicationPending.

(** [vip_activation_ready]. *)
Definition vip_activation_ready : task bool :=
  elapsed ← perform ActivationElapsed;
  if (elapsed : bool) then r ← outcome coherent_session; mret (is_ok r) else mret false.

(** ** Management (management.rs) *)

(** [commit]. *)
Definition commit (req : KafRequest) : task LogId :=
  s ← coherent_session;
  recheck s;;
  answer ← perform (ClientWrite req);
  match answer with
  | Err ForwardToLeader => fail (Unreachable "management leader changed during submission")
  | Err (WriteFailed reason) => fail (Failed reason)
  | Ok (log, KafOk) => mret log
  | Ok (_, Rejected reason) => fail (Failed ("admission command rejected: " +:+ reason))
  end.

(** [node]. *)
Definition node_address (r : ReplicaId) : task Text :=
  of_option (raft_address <$> get_peer cfg (physical_id r)) "replica physical identity is not configured".

(** [apply_progress]. *)
Definition commit_progress (peer : ReplicaId) (p : HealthProgress) : task ManagementResult :=
  of_denied (progress_validate p);;
  require (bool_decide (replica p = peer)) "progress differs from authenticated boot";;
  s ← perform ReadStorage;
  require (bool_decide (state_genesis s = Some (genesis p))) "progress requires committed genesis";;
  require (bool_decide (peer ∈ dom (nodes (membership (last_membership s)))))
    "progress sender is not a committed member";;
  log ← commit (HealthProgressReq p);
  mret (Applied log).

(** The plan of a join of [peer] into the committed voters. *)
Definition new_plan (peer : ReplicaId) (g : Genesis) (nonce : list N) (previous : gset ReplicaId) : JoinPlan :=
  mkJoinPlan g peer nonce previous ({[peer]} ∪ filter (λ r, physical_id r ≠ physical_id peer) previous).

(** The [PrepareJoin] arm of [manage]. *)
Definition prepare_join (s : AdmissionSession) (peer : ReplicaId) (g : Genesis) (nonce : list N)
  : task ManagementResult :=
  require (bool_decide (g = context_genesis (context s))) "join genesis differs from authority";;
  st ← perform ReadStorage;
  require (bool_decide (state_genesis st = Some g)) "join requires committed genesis";;
  p ← match State.prepared_join st with
      | Some p =>
          require (bool_decide (consumer (plan p) = peer) && bool_decide (plan_nonce (plan p) = nonce)
                   && bool_decide (plan_genesis (plan p) = g)) "another join operation is pending";;
          mret p
      | None =>
          st ← perform ReadStorage;
          let m := membership (last_membership st) in
          require (bool_decide (length (joint_config m) = 1)) "join requires committed stable membership";;
          let plan' := new_plan peer g nonce (voter_set m) in
          of_denied (plan_validate plan');;
          commit (AdmissionMembership (PrepareJoin plan'));;
          st ← perform ReadStorage;
          p ← of_option (State.prepared_join st) "join preparation not applied locally";
          require (bool_decide (plan p = plan')) "applied join preparation changed";;
          mret p
      end;
  recheck s;;
  st ← perform ReadStorage;
  (if bool_decide (peer ∈ dom (nodes (membership (last_membership st)))) then mret tt
   else address ← node_address peer; attempt_ev (AddLearner peer address));;
  mret (Prepared p).

(** Whether a join is the one a learner asks about. *)
Definition same_join (p : PreparedJoin) (peer : ReplicaId) (g : Genesis) (nonce : list N) (log : LogId) : bool :=
  bool_decide (consumer (plan p) = peer) && bool_decide (plan_genesis (plan p) = g)
  && bool_decide (plan_nonce (plan p) = nonce) && bool_decide (prepared p = log).

(** The [LearnerReady] arm for a join that is not completed. *)
Definition promote_learner (s : AdmissionSession) (peer : ReplicaId) (g : Genesis) (nonce : list N) (log : LogId)
  : task ManagementResult :=
  st ← perform ReadStorage;
  pending ← of_option (State.prepared_join st) "learner operation is no longer pending";
  require (same_join pending peer g nonce log) "learner acknowledgement differs from committed preparation";;
  metrics ← perform (LeaderMetrics peer);
  require (match metrics.2 with Some matched => (index log <=? matched)%N | None => false end)
    "learner has not replicated its preparation";;
  pending ← match learner_applied pending with
            | None =>
                applied ← commit (AdmissionMembership (LearnerApplied peer nonce log));
                mret (mkPreparedJoin (plan pending) (prepared pending) (Some applied))
            | Some _ => mret pending
            end;
  recheck s;;
  st ← perform ReadStorage;
  require (bool_decide (State.prepared_join st = Some pending)) "learner acknowledgement is not committed locally";;
  attempt_ev (ChangeMembership (next_voters (plan pending)));;
  recheck s;;
  mret (Prepared pending).

(** The [LearnerReady] arm. *)
Definition learner_ready (s : AdmissionSession) (peer : ReplicaId) (g : Genesis) (nonce : list N) (log : LogId)
  : task ManagementResult :=
  require (bool_decide (g = context_genesis (context s))) "learner genesis differs from authority";;
  st ← perform ReadStorage;
  match completed_joins st !! physical_id peer with
  | Some c =>
      if same_join (completed_prepared c) peer g nonce log then mret (Prepared (completed_prepared c))
      else promote_learner s peer g nonce log
  | None => promote_learner s peer g nonce log
  end.

(** [cancel_join] (recovery.rs). *)
Definition cancel_join (peer : ReplicaId) (p : JoinPlan) (log : LogId) : task ManagementResult :=
  of_denied (plan_validate p);;
  st ← perform ReadStorage;
  pending ← of_option (State.prepared_join st) "no committed join remains to cancel";
  require (bool_decide (plan pending = p) && bool_decide (prepared pending = log)
           && bool_decide (state_genesis st = Some (plan_genesis p)))
    "cancellation differs from committed operation";;
  let m := membership (last_membership st) in
  require (bool_decide (length (joint_config m) = 1) && bool_decide (voter_set m = previous_voters p))
    "a voting transition cannot be cancelled as a learner";;
  require (bool_decide (physical_id peer = physical_id (consumer p)) || bool_decide (peer ∈ voter_ids m))
    "only the consumer physical member or an admitted voter may cancel";;
  (if bool_decide (consumer p ∈ dom (nodes m)) then
     s ← coherent_session; recheck s;; attempt_ev (RemoveNodes {[consumer p]})
   else mret tt);;
  log ← commit (AdmissionMembership (CancelJoin p log));
  st ← perform ReadStorage;
  require (negb (bool_decide (is_Some (State.prepared_join st)))) "cancellation was not applied locally";;
  mret (Applied log).

(** [manage]. *)
Definition manage (peer : ReplicaId) (a : ManagementAction) : task ManagementResult :=
  match a with
  | Discover => attempt_ev DiscoveryAnswer
  | _ =>
      s ← coherent_session;
      attempt_ev RaftHandle;;
      leader ← perform CurrentLeader;
      if negb (bool_decide (leader = Some local)) then
        match leader with
        | Some leader => mret (Redirect leader)
        | None => fail (Unreachable "management has no elected leader")
        end
      else
        recheck s;;
        match a with
        | Discover => fail (Failed "discovery reached the mutation dispatcher")
        | ActPrepareJoin g nonce => prepare_join s peer g nonce
        | ActLearnerReady g nonce log => learner_ready s peer g nonce log
        | ActProgress p => commit_progress peer p
        | ActCancelJoin p log =>
            require (bool_decide (plan_genesis p = context_genesis (context s)))
              "cancellation genesis differs from authority";;
            cancel_join peer p log
        end
  end.

(** [NetworkController::management] of the driver. *)
Definition management (peer : ReplicaId) (binding : list N) (request : SignedAdmission ManagementRequest)
  : task (SignedAdmission ManagementResponse) :=
  attempt_ev EnsureRunning;;
  of_denied (verify hmac encode_request request (cluster_secret cfg) REQUEST_ROLE peer local binding);;
  require (bool_decide (is_Some (get_peer cfg (physical_id peer)))) "management peer is not configured";;
  result ← manage peer (action (record_payload request));
  attempt_ev EnsureRunning;;
  of_denied (sign hmac encode_response (cluster_secret cfg) RESPONSE_ROLE local peer binding
    (mkManagementResponse (management_nonce (record_payload request)) result)).

(** ** Grants (runtime.rs) *)

(** Iterations of a loop that sleeps ten milliseconds and ends within [rpc_budget]. *)
Definition polls : nat := S (N.to_nat (rpc_budget timing / from_millis 10)).

(** [reserve_grant]. *)
Fixpoint reserve_grant (fuel : nat) (signed : SignedAdmission AdmissionRequest) (binding : list N)
    (deadline : option Instant) : task (SignedAdmission AdmissionRequest) :=
  match fuel with
  | 0 => fail (Elapsed "issuer progress apply timed out")
  | S fuel =>
      granted ← attempt_ev (PollGrant signed binding deadline);
      match granted with
      | Some grant => mret grant
      | None => reserve_grant fuel signed binding deadline
      end
  end.

(** [NetworkController::dispatch] of the driver. *)
Definition dispatch (peer : ReplicaId) (binding : list N) (request : SignedAdmission AdmissionRequest)
  : task (SignedAdmission AdmissionRequest) :=
  attempt_ev EnsureRunning;;
  of_denied (verify hmac encode request (cluster_secret cfg) 10 peer local binding);;
  require (bool_decide (req_consumer (record_payload request) = peer)) "grant request names another boot";;
  match req_mode (record_payload request) with
  | Renew _ =>
      now ← perform Clock;
      timed "issuer progress apply timed out"
        (within_admission (reserve_grant polls request binding (Some (now + rpc_budget timing)%N)))
  | _ => reserve_grant polls request binding None
  end.

(** ** Rounds (driver.rs, renewal.rs, discovery.rs) *)

(** Concurrent work on every element of [pending]: what succeeds is collected in
    the order of completion; an error that [fatal] picks ends the whole. *)
Fixpoint drain {A B} (fuel : nat) (pending : list A) (work : A → task B) (fatal : RunError → bool) (acc : list B)
  : task (list B) :=
  match fuel with
  | 0 => mret acc
  | S fuel =>
      i ← perform (NextReady (length pending));
      match pending !! (i mod length pending) with
      | None => mret acc
      | Some x =>
          result ← outcome (work x);
          let rest := delete (i mod length pending) pending in
          match result with
          | Ok b => drain fuel rest work fatal (acc ++ [b])
          | Err e => if fatal e then fail e else drain fuel rest work fatal acc
          end
      end
  end.
Definition concurrently {A B} (pending : list A) (work : A → task B) (fatal : RunError → bool) : task (list B) :=
  drain (length pending) pending work fatal [].

(** The closure of [discover_peers] for one peer. *)
Definition discover_peer (fingerprint : ClusterConfigFingerprint) (p : PeerConfig)
  : task (option (ReplicaId * option Genesis)) :=
  status ← attempt_ev (ProbeStatus p);
  r ← of_option (status_replica status) "status has no authenticated boot";
  require (bool_decide (physical_id r = peer_id p)) "status physical identity differs";;
  theirs ← of_option (response_fingerprint status) "status has no configuration fingerprint";
  if negb (bool_decide (theirs = fingerprint)) then mret None
  else
    response ← attempt_ev (ManagementRpc r Discover);
    match response with
    | Discovery None _ => mret (Some (r, None))
    | Discovery (Some g) _ =>
        of_denied (validate_roster g (list_to_set (peer_id <$> peers cfg)));;
        require (bool_decide (config g = fingerprint)) "discovered genesis configuration differs";;
        mret (Some (r, Some g))
    | _ => fail (Failed "unexpected discovery response")
    end.

(** The answers of a discovery. *)
Definition discovered (answers : list (option (ReplicaId * option Genesis))) : Discovered :=
  foldl (λ d answer,
    match answer with
    | Some (r, g) => mkDiscovered ({[r]} ∪ boots d)
                       (match g with Some g => <[r := g]> (histories d) | None => histories d end)
    | None => d
    end) (mkDiscovered {[local]} ∅) answers.

(** [discover_peers]; only an authenticated peer can veto a health proof. *)
Definition discover (reject_invalid : bool) : task Discovered :=
  match cluster_config_fingerprint sock_parse sha256 cfg with
  | Err _ => fail (Failed "invalid local configuration")
  | Ok fingerprint =>
      answers ← concurrently (other_peers cfg) (discover_peer fingerprint)
        (λ e, reject_invalid && match e with
                                | Unauthenticated _ => false
                                | _ => bool_decide (failure_kind e = PublicationRejected)
                                end);
      mret (discovered answers)
  end.

(** The request to one issuer in [collect_grants]. *)
Definition request_grant (req : AdmissionRequest) (target : ReplicaId) : task ReceivedGrant :=
  if bool_decide (target = local) then
    entropy ← perform Entropy;
    binding ← of_option entropy "admission driver entropy unavailable";
    record ← of_denied (sign hmac encode (cluster_secret cfg) 10 local local binding req);
    response ← timed "local admission grant timed out" (dispatch local binding record);
    of_denied (authenticate hmac encode (cluster_secret cfg) local local binding req response)
  else attempt_ev (AdmissionRpc target req).

(** [collect_grants]. *)
Definition gather_grants (r : AdmissionRound) (targets : gset ReplicaId) (reject_invalid : bool)
  : task (list ReceivedGrant) :=
  concurrently (btree_keys targets) (request_grant (round_request r))
    (λ e, reject_invalid && bool_decide (failure_kind e = PublicationRejected)).

(** [install]. *)
Definition install (r : AdmissionRound) (grants : list ReceivedGrant) (bootstrap : option PreparedJoin)
  : task InstalledAdmission :=
  completed ← perform (Complete r grants);
  v ← of_result completed.2;
  require (bootstrap_matches v bootstrap) "bootstrap differs from quorum-verified operation";;
  session ← attempt_ev (Accept v);
  mret (mkInstalledAdmission session (verified_deadline v) (round_started completed.1) (round_request completed.1)).

(** [route]: the leader is found by redirection among [peers]; no peer is asked twice. *)
Fixpoint route_from (fuel : nat) (a : ManagementAction) (candidates : gset ReplicaId) (pending : list ReplicaId)
    (visited : gset ReplicaId) : task ManagementResult :=
  match fuel, pending with
  | S fuel, peer :: pending =>
      if bool_decide (peer ∈ visited) then route_from fuel a candidates pending visited
      else
        response ← outcome (if bool_decide (peer = local) then timed "local management timed out" (manage peer a)
                            else attempt_ev (ManagementRpc peer a));
        match response with
        | Ok (Redirect target) =>
            route_from fuel a candidates
              (if bool_decide (target ∈ candidates) then target :: pending else pending) ({[peer]} ∪ visited)
        | Ok result => mret result
        | Err e =>
            if match a with ActProgress p => bool_decide (is_Some (healthy p)) | _ => false end
               && bool_decide (failure_kind e = PublicationRejected)
            then fail e
            else route_from fuel a candidates pending ({[peer]} ∪ visited)
        end
  | _, _ => fail (Unreachable "no reachable admitted leader completed management operation")
  end.

(** The vector is popped at its end. *)
Definition route (a : ManagementAction) (candidates : gset ReplicaId) : task ManagementResult :=
  route_from (3 * size candidates) a candidates (reverse (btree_keys candidates)) ∅.

(** [wait_progress]. *)
Fixpoint await_progress (fuel : nat) (applied : AppliedHealthProgress) : task unit :=
  match fuel with
  | 0 => fail (Elapsed "local progress apply timed out")
  | S fuel =>
      st ← perform ReadStorage;
      let reached := match last_applied_log st with
                     | Some log => (index (log_id applied) <=? index log)%N | None => false end in
      if bool_decide (applied_progress st !! physical_id local = Some applied) && reached then mret tt
      else if reached then fail (Failed "locally applied progress differs from outstanding challenge")
      else await_progress fuel applied
  end.
Definition wait_progress (applied : AppliedHealthProgress) : task unit :=
  timed "local progress apply timed out" (await_progress polls applied).

(** [establish_genesis]. *)
Definition establish_genesis : task unit :=
  s ← coherent_session;
  st ← perform ReadStorage;
  if bool_decide (is_Some (state_genesis st)) then mret tt
  else
    attempt_ev RaftHandle;;
    leader ← perform CurrentLeader;
    if bool_decide (leader = Some local)
    then commit (AdmissionGenesis (context_genesis (context s)));; mret tt
    else mret tt.

(** [finish_join]. *)
Definition finish_join : task unit :=
  step ← perform Promote;
  match step with
  | NothingToPromote | Promoted => mret tt
  | AskLeader p =>
      d ← discover false;
      response ← route (ActLearnerReady (plan_genesis (plan p)) (plan_nonce (plan p)) (prepared p)) (boots d);
      match response with
      | Prepared acknowledged =>
          require (bool_decide (plan acknowledged = plan p) && bool_decide (prepared acknowledged = prepared p)
                   && bool_decide (is_Some (learner_applied acknowledged)))
            "learner promotion response differs from prepared operation"
      | _ => fail (Failed "learner promotion acknowledgement missing")
      end
  end.

(** The cold or joining half of [enter] that differs: the preparation of a join. *)
Definition prepare_entry (r : AdmissionRound) (g : Genesis) (nonce : list N) (d : Discovered)
  : task (AdmissionRound * option PreparedJoin) :=
  response ← route (ActPrepareJoin g nonce) (boots d);
  match response with
  | Prepared p =>
      require (bool_decide (plan_nonce (plan p) = nonce)) "join operation nonce changed";;
      r ← attempt_ev (BindPrepared r p);
      mret (r, Some p)
  | _ => fail (Failed "join preparation response missing")
  end.

(** [raft.initialize] with the exact cold roster, if the engine is not initialised. *)
Definition initialize_cold (g : Genesis) : task unit :=
  members ← of_option (resolve (λ id, raft_address <$> get_peer cfg id) (voters g))
    "replica physical identity is not configured";
  attempt_ev RaftHandle;;
  initialized ← attempt_ev IsInitialized;
  if (initialized : bool) then mret tt else attempt_ev (Initialize members).

(** [enter]. *)
Definition enter (operation_nonce : list N) : task unit :=
  d ← discover false;
  let known := (btree_iter (histories d)).*2 in
  g ← match known with
      | g :: _ =>
          require (forallb (λ other, bool_decide (other = g)) known) "reachable peers report conflicting genesis";;
          mret g
      | [] => of_result (cohort_genesis sock_parse sha256 cfg (boots d))
      end;
  let cold := bool_decide (local ∈ voters g) in
  r ← attempt_ev (Begin g (if cold then Cold else Join None));
  rp ← (if cold then mret (r, None) else prepare_entry r g operation_nonce d);
  grants ← gather_grants rp.1 (if cold then voters g else boots d) false;
  install rp.1 grants rp.2;;
  if cold then initialize_cold g else mret tt.

(** The work of [renew] under the round lock. *)
Definition renew_round (started : Instant) (is_healthy : option bool) : task VerifiedProgress :=
  s ← coherent_session;
  attempt_ev EnsureRunning;;
  recheck s;;
  joining ← perform Joining;
  require (negb (bool_decide (is_Some (joining : option VerifiedJoinBootstrap)))) "health progress awaits learner promotion";;
  let g := context_genesis (context s) in
  r ← attempt_ev (Begin g (Renew None));
  let p := mkHealthProgress (physical_id local) is_healthy local (epoch g) (req_nonce (round_request r)) g in
  d ← discover (bool_decide (is_Some is_healthy));
  response ← route (ActProgress p) (boots d);
  match response with
  | Applied log =>
      let applied := mkAppliedHealthProgress p log in
      wait_progress applied;;
      r ← attempt_ev (BindProgress r applied);
      grants ← gather_grants r (boots d) (bool_decide (is_Some is_healthy));
      (if length grants <=? length (peers cfg) / 2
       then fail (Unreachable "reachable admission grants lack a physical majority") else mret tt);;
      installed ← install r grants None;
      attempt_ev (NewProgress started applied installed)
  | _ => fail (Failed "progress response has no applied log")
  end.

(** [renew], which [submit_health_proof] calls with the observed health. *)
Definition renew_admission (is_healthy : option bool) : task VerifiedProgress :=
  started ← perform Clock;
  within_admission (renewal_lock;; bounded_phase "renewal" (renew_round started is_healthy)).

(** [extend_join]. *)
Definition extend_join : task unit :=
  within_admission
    (renewal_lock;;
     bounded_phase "learner renewal"
       (joining ← perform Joining;
        bootstrap ← of_option (joining : option VerifiedJoinBootstrap) "no learner admission to extend";
        let p := bootstrap_prepared bootstrap in
        r ← attempt_ev (Begin (plan_genesis (plan p)) (Join None));
        r ← attempt_ev (BindPrepared r p);
        d ← discover false;
        grants ← gather_grants r (boots d) false;
        install r grants None;;
        mret tt)).

(** ** Recovery (recovery.rs) *)

(** Whether the joint membership of a join is committed after its acknowledgement. *)
Definition joint_committed (st : KafStorageState) (p : PreparedJoin) : bool :=
  bool_decide (joint_config (membership (last_membership st)) = [previous_voters (plan p); next_voters (plan p)])
  && match learner_applied p, membership_log_id (last_membership st), last_applied_log st with
     | Some ack, Some m, Some applied => (index ack <? index m)%N && (index m <=? index applied)%N
     | _, _, _ => false
     end.

(** [recover_pending] for a join whose joint membership is not committed. *)
Definition recover_stalled (p : PreparedJoin) : task unit :=
  outcome (attempt_ev (ManagementRpc (consumer (plan p)) Discover));;
  metrics ← perform (LeaderMetrics (consumer (plan p)));
  if negb (bool_decide (length (joint_config metrics.1) = 1))
     || negb (bool_decide (voter_set metrics.1 = previous_voters (plan p)))
  then perform ClearPending
  else
    st ← perform ReadStorage;
    match State.prepared_join st with
    | Some here =>
        if bool_decide (plan here = plan p) && bool_decide (prepared here = prepared p) then
          stalled ← attempt_ev (ObservePending here metrics.2);
          if (stalled : bool) then manage local (ActCancelJoin (plan here) (prepared here));; mret tt else mret tt
        else perform ClearPending
    | None => perform ClearPending
    end.

(** [recover_pending]. *)
Definition recover_pending : task unit :=
  attempt_ev RaftHandle;;
  leader ← perform CurrentLeader;
  if negb (bool_decide (leader = Some local)) then perform ClearPending
  else
    st ← perform ReadStorage;
    match State.prepared_join st with
    | None => perform ClearPending
    | Some p =>
        st ← perform ReadStorage;
        if joint_committed st p then
          perform ClearPending;;
          s ← coherent_session;
          recheck s;;
          st ← perform ReadStorage;
          require (bool_decide (State.prepared_join st = Some p)) "pending promotion changed";;
          attempt_ev (ChangeMembership (next_voters (plan p)))
        else recover_stalled p
    end.

(** ** The supervised task (driver.rs) *)

(** A phase whose failure only defers it. *)
Definition deferred (phase : string) (work : task unit) : task unit :=
  outcome (bounded_phase phase work);; mret tt.

(** [drive_round]. *)
Definition drive_round : task unit :=
  bounded_phase "genesis" establish_genesis;;
  joining ← perform Joining;
  (if bool_decide (is_Some (joining : option VerifiedJoinBootstrap))
   then deferred "learner promotion" finish_join else mret tt);;
  still ← perform Joining;
  (if bool_decide (is_Some (still : option VerifiedJoinBootstrap))
   then extend_join else renew_admission None;; mret tt);;
  deferred "membership recovery" recover_pending.

Definition report : task unit := taken ← perform TakesReport; perform (ReportAdmission taken).

(** A task that never ends: an infinite loop, from the iteration that is not unfolded on. *)
Definition forever {A} : task A := Do Forever (λ x : Empty_set, match x with end).

(** The formation loop of [drive], whose first [rounds] iterations are unfolded. *)
Fixpoint form (rounds : nat) (operation_nonce : list N) : task unit :=
  match rounds with
  | 0 => forever
  | S rounds =>
      attempt_ev EnsureRunning;;
      active ← perform AuthorityCurrent;
      if (active : bool) then mret tt
      else
        entered ← outcome (timed "admission formation round timed out" (enter operation_nonce));
        match entered with Ok _ => mret tt | Err _ => form rounds operation_nonce end
  end.

(** The renewal loop of [drive], whose first [rounds] iterations are unfolded. *)
Fixpoint renewals (rounds : nat) : task unit :=
  match rounds with
  | 0 => forever
  | S rounds =>
      deferred_round ← outcome (within_admission drive_round);
      (match deferred_round with
       | Ok _ => mret tt
       | Err _ =>
           active ← perform AuthorityCurrent;
           if (active : bool) then mret tt
           else fail (Denied (mkAdmissionDenied "runtime admission expired during renewal"))
       end);;
      report;;
      renewals rounds
  end.

(** [drive], with the given numbers of formation and renewal rounds unfolded. *)
Definition drive (formation renewal : nat) : task unit :=
  perform TakesReport;;
  of_denied (quarantine_deadline (lease_admission_timing timing) boot);;
  entropy ← perform Entropy;
  operation_nonce ← of_option entropy "admission driver entropy unavailable";
  form formation operation_nonce;;
  report;;
  renewals renewal.

(** [run]: the task ends with the network, or when the authority is sealed; then
    the driver shuts down. *)
Definition run_ends : task (option (Result unit RunError)) :=
  network_stopped ← perform NetworkStopped;
  if (network_stopped : bool) then mret (Some (Ok tt))
  else
    is_sealed ← perform SealedNow;
    mret (if (is_sealed : bool) then Some (Err (Failed "runtime admission expired terminally")) else None).

Definition run (formation renewal : nat) : task unit :=
  attempt_ev StartRunning;;
  result ← outcome (attempt_ev RaftHandle;; interruptible run_ends (drive formation renewal));
  is_stopped ← perform IsStopped;
  perform StopRunning;;
  of_result (if (is_stopped : bool) then Ok tt else result).
End runtime.
