(* ===== verification/RuntimeTheorems.v ===== *)
(** * What the admission runtime guarantees *)

From S2P Require Import Prelude Text Io Replica Openraft Admission Types VipLogic State StoreMembership.
From S2P Require Import StateMachine LogStore Config Fingerprint Auth Controller Lease Exclusion Freshness.
From S2P Require Import Request Authorization Tasks Driver Runtime.

Section runtime.
Context {O : Openraft}.
Context (sock_parse : Text → option SocketAddr) (sha256 : list N → list N).
Context (hmac : list N → option (list N → list N)).
Context (encode : list N * AdmissionRequest → option (list N)).
Context (cfg : Config) (local : ReplicaId) (timing : LeaseTiming).

Local Abbreviation answered := (answered Ev).
Local Abbreviation section := (section sha256 hmac encode).

(** The answers an event can have: any from the environment, or those of its section. *)
Definition possible X (e : Ev X) (x : X) : Prop :=
  is_call e = true ∨ ∃ t entropy n n', section e t entropy n = Some (n', x).

Lemma section_total {X} (e : Ev X) t entropy n : is_call e = false → is_Some (section e t entropy n).
Proof. destruct e; cbn; intros [=]; repeat case_match; eauto. Qed.

(** ** Where admissions come from *)

(** A grant is an answer of the network, or one of the node itself. *)
Definition obtained (h : list answered) (rg : ReceivedGrant) : Prop :=
  (∃ to req, did (AdmissionRpc to req) (Ok rg) ∈ h) ∨
  (sender (received_record rg) = local ∧
   ∃ signed binding deadline, did (PollGrant signed binding deadline) (Ok (Some (received_record rg))) ∈ h).

Definition round_from (h : list answered) (r : AdmissionRound) : Prop :=
  ∃ g mode r0, did (Begin g mode) (Ok r0) ∈ h ∧ round_of sha256 r0 r.

(** ** Why the engine is asked to change *)

(** The state of the storage that justifies a change of membership: a prepared join,
    whose learner has acknowledged it before it votes, and whose voting transition
    has not begun when it is cancelled. *)
Definition justification (st : KafStorageState) X (e : Ev X) : Prop :=
  match e with
  | ChangeMembership vs =>
      ∃ p, State.prepared_join st = Some p ∧ is_Some (learner_applied p) ∧ vs = next_voters (plan p)
  | AddLearner id _ => ∃ p, State.prepared_join st = Some p ∧ consumer (plan p) = id
  | RemoveNodes ids =>
      ∃ p, State.prepared_join st = Some p ∧ plan_validate (plan p) = Ok tt ∧ ids = {[consumer (plan p)]} ∧
        length (joint_config (membership (last_membership st))) = 1 ∧
        voter_set (membership (last_membership st)) = previous_voters (plan p)
  | _ => False
  end.

Definition proposal {X} (e : Ev X) : bool :=
  match e with ChangeMembership _ | AddLearner _ _ | RemoveNodes _ => true | _ => false end.

(** The task has found its admission in force. *)
Definition checked (h : list answered) : Prop := ∃ c until, did (CheckSession c) (Ok until) ∈ h.

Definition justified (h : list answered) X (e : Ev X) : Prop :=
  checked h ∧ ∃ st, did ReadStorage st ∈ h ∧ justification st X e.

(** ** The order of events *)

Definition admissible (h : list answered) X (e : Ev X) : Prop :=
  match e with
  | Complete r grants => round_from h r ∧ Forall (obtained h) grants
  | Accept v => ∃ r grants r', did (Complete r grants) (r', Ok v) ∈ h
  | ClientWrite _ => checked h
  | Initialize members =>
      ∃ v session, did (Accept v) (Ok session) ∈ h ∧ verified_mode v = Cold ∧
        dom members = voters (context_genesis (verified_context v))
  | _ => proposal e = true → justified h X e
  end.

Lemma sublist_elem {A} (l k : list A) x : l `sublist_of` k → x ∈ l → x ∈ k.
Proof. intros Hs Hx. eapply elem_of_submseteq; [exact Hx|by apply sublist_submseteq]. Qed.

Lemma obtained_mono h h' rg : h `sublist_of` h' → obtained h rg → obtained h' rg.
Proof.
  intros Hs [(to & req & Hin)|(Hl & s & b & d & Hin)]; [left|right; split; [done|]];
    eauto using sublist_elem.
Qed.

Lemma checked_mono h h' : h `sublist_of` h' → checked h → checked h'.
Proof. intros Hs (c & u & Hin). exists c, u. eauto using sublist_elem. Qed.

Lemma justified_mono h h' X (e : Ev X) : h `sublist_of` h' → justified h X e → justified h' X e.
Proof.
  intros Hs [Hc (st & Hin & Hj)]. split; [by eapply checked_mono|]. exists st. eauto using sublist_elem.
Qed.

Lemma admissible_monotone X : monotone (λ h, admissible h X).
Proof.
  intros h h' e Hs. destruct e; cbn; try (intros Hj Hp; eapply justified_mono; by eauto).
  - intros [(g & mode & r0 & Hin & Hr) Hg]. split; [exists g, mode, r0; eauto using sublist_elem|].
    eapply Forall_impl; [done|]. eauto using obtained_mono.
  - intros (r & gs & r' & Hin). exists r, gs, r'. eauto using sublist_elem.
  - by apply checked_mono.
  - intros (v & session & Hin & Hm). exists v, session. eauto using sublist_elem.
Qed.

Local Abbreviation safe := (safe possible admissible).
Local Abbreviation quiet := (quiet possible admissible).

Local Ltac quiet :=
  repeat first
    [ progress intros | done | solve [eauto 3 with quiet]
    | apply quiet_guarded; [exact admissible_monotone|..]
    | apply quiet_interruptible; [exact admissible_monotone|..]
    | apply quiet_outcome | apply quiet_bind | apply quiet_ret
    | apply quiet_do; [done|]
    | case_match ].

Create HintDb quiet discriminated.

Lemma quiet_of_option {A} (a : option A) reason : quiet A (of_option a reason).
Proof. destruct a; apply quiet_ret. Qed.
#[local] Hint Resolve quiet_of_option : quiet.
Lemma quiet_tick reason : quiet _ (tick reason).
Proof. unfold tick. quiet. Qed.
Lemma quiet_gate : quiet _ admission_gate.
Proof. unfold admission_gate. quiet. Qed.
#[local] Hint Resolve quiet_tick quiet_gate : quiet.

Lemma quiet_timed {A} reason (t : task Ev RunError A) : quiet A t → quiet A (timed reason t).
Proof. unfold timed. quiet. Qed.
#[local] Hint Resolve quiet_timed : quiet.

Lemma quiet_within {A} (t : task Ev RunError A) : quiet A t → quiet A (within_admission t).
Proof. unfold within_admission. quiet. Qed.
Lemma quiet_coherent : quiet _ coherent_session.
Proof. apply quiet_within. quiet. Qed.
#[local] Hint Resolve quiet_within quiet_coherent : quiet.

Lemma quiet_recheck s : quiet _ (recheck s).
Proof. unfold recheck. quiet. Qed.
#[local] Hint Resolve quiet_recheck : quiet.
(** Postconditions that only speak of successful results, and that later events keep. *)
Definition on_ok {A} (F : list answered → A → Prop) (h : list answered) (r : Result A RunError) : Prop :=
  match r with Ok a => F h a | Err _ => True end.

Lemma on_ok_monotone {A} (F : list answered → A → Prop) : monotone F → monotone (on_ok F).
Proof. intros HF h h' [a|e] Hs; [by apply HF|done]. Qed.

Lemma prefix_sublist {A} (l k : list A) : l `prefix_of` k → l `sublist_of` k.
Proof. intros [j ->]. by apply sublist_inserts_r. Qed.

Section tracked.
Context {A : Type} (F : list answered → A → Prop) (F_monotone : monotone F).
Implicit Types (t : task Ev RunError A).

Lemma safe_then {B} (t : task Ev RunError B) k h :
  quiet B t → (∀ b h', h `sublist_of` h' → safe (on_ok F) h' (k b)) → safe (on_ok F) h (task_bind k t).
Proof. intros Ht Hk. apply safe_after; [done|done|]. intros b h' Hp. by apply Hk, prefix_sublist. Qed.

Lemma safe_extend t h h' : h `sublist_of` h' → safe (on_ok F) h t → safe (on_ok F) h' t.
Proof. apply safe_weaken; [exact admissible_monotone|by apply on_ok_monotone]. Qed.

Lemma safe_timed reason t h : safe (on_ok F) h t → safe (on_ok F) h (timed reason t).
Proof.
  intros Ht. apply safe_guarded; [exact admissible_monotone|by apply on_ok_monotone| |done].
  intros h'. eapply safe_mono; [apply quiet_tick|]. by intros h'' [].
Qed.

Lemma safe_within t h : safe (on_ok F) h t → safe (on_ok F) h (within_admission t).
Proof.
  intros Ht. unfold within_admission. apply safe_then; [quiet|]. intros _ h1 H1.
  apply safe_then; [quiet|]. intros [] h2 H2; [|done].
  apply safe_bind. eapply safe_mono.
  - apply (safe_guarded _ _ _ _ admissible_monotone (on_ok (on_ok F)));
      [by apply on_ok_monotone, on_ok_monotone| |].
    + intros h'. eapply safe_mono; [apply quiet_gate|]. by intros h'' [].
    + apply safe_outcome. eapply safe_extend; [|exact Ht]. by etrans.
  - intros h3 [r|e] Hr; [|done]. apply safe_then; [quiet|]. intros _ h4 H4.
    apply safe_then; [quiet|]. intros [] h5 H5; [|done]. cbn.
    eapply on_ok_monotone; [done| |exact Hr]. by etrans.
Qed.
End tracked.

(** ** Management *)

Lemma last_event {X} (h : list answered) (e : Ev X) x : did e x ∈ h ++ [did e x].
Proof. apply elem_of_app. right. by left. Qed.

Section steps.
Context {A : Type} (F : list answered → A → Prop).
Implicit Types (h : list answered).

Lemma safe_checked s (k : task Ev RunError A) h :
  (∀ h', h `sublist_of` h' → checked h' → safe (on_ok F) h' k) → safe (on_ok F) h (task_bind (λ _, k) (recheck s)).
Proof.
  intros Hk. split; [done|]. intros [u|e] _; [|done]. apply Hk; [by apply sublist_inserts_r|].
  exists (context s), u. apply last_event.
Qed.

Lemma safe_read (k : KafStorageState → task Ev RunError A) h :
  (∀ st h', h `sublist_of` h' → did ReadStorage st ∈ h' → safe (on_ok F) h' (k st)) →
  safe (on_ok F) h (task_bind k (perform ReadStorage)).
Proof. intros Hk. split; [done|]. intros st _. apply Hk; [by apply sublist_inserts_r|apply last_event]. Qed.

Lemma safe_require c reason (k : task Ev RunError A) h :
  (c = true → safe (on_ok F) h k) → safe (on_ok F) h (task_bind (λ _, k) (require c reason)).
Proof. destruct c; [|done]. intros Hk. by apply Hk. Qed.

Lemma safe_denied {B} (r : Result B AdmissionDenied) (k : B → task Ev RunError A) h :
  (∀ b, r = Ok b → safe (on_ok F) h (k b)) → safe (on_ok F) h (task_bind k (of_denied r)).
Proof. destruct r; [|done]. intros Hk. by apply Hk. Qed.

Lemma safe_option {B} (x : option B) reason (k : B → task Ev RunError A) h :
  (∀ b, x = Some b → safe (on_ok F) h (k b)) → safe (on_ok F) h (task_bind k (of_option x reason)).
Proof. destruct x; [|done]. intros Hk. by apply Hk. Qed.
End steps.

Lemma quiet_any {A} (t : task Ev RunError A) :
  (∀ h, safe (on_ok (λ _ _, True)) h t) → quiet A t.
Proof. intros Ht h. eapply safe_mono; [apply Ht|done]. Qed.

Lemma any_quiet {A} (t : task Ev RunError A) h : quiet A t → safe (on_ok (λ _ _, True)) h t.
Proof. intros Ht. eapply safe_mono; [apply Ht|]. by intros h' []. Qed.

Lemma quiet_commit req : quiet _ (commit req).
Proof.
  apply quiet_any. intros h. unfold commit. apply safe_then; [quiet|]. intros s h1 _.
  apply safe_checked. intros h2 _ Hc. split; [done|]. intros x _. apply any_quiet. quiet.
Qed.
#[local] Hint Resolve quiet_commit : quiet.

Lemma quiet_progress peer p : quiet _ (commit_progress peer p).
Proof. unfold commit_progress. quiet. Qed.

(** A join that the storage had prepared. *)
Definition prepared_in (h : list answered) (p : PreparedJoin) : Prop :=
  ∃ st, did ReadStorage st ∈ h ∧ State.prepared_join st = Some p.

Lemma prepared_in_mono h h' p : h `sublist_of` h' → prepared_in h p → prepared_in h' p.
Proof. intros Hs (st & Hin & Hp). exists st. eauto using sublist_elem. Qed.

Lemma quiet_prepare s peer g nonce : quiet _ (prepare_join cfg s peer g nonce).
Proof.
  apply quiet_any. intros h. unfold prepare_join. apply safe_require. intros _.
  apply safe_read. intros st h1 _ Hst. apply safe_require. intros _. apply safe_bind. eapply safe_mono.
  - instantiate (1 := on_ok (λ h p, prepared_in h p ∧ consumer (plan p) = peer)).
    destruct (State.prepared_join st) as [p|] eqn:Hp.
    + apply safe_require. intros Hc. guards. split; [by exists st|done].
    + apply safe_read. intros st' h2 _ _. apply safe_require. intros _. apply safe_denied. intros _ _.
      apply safe_then; [quiet|]. intros _ h3 _. apply safe_read. intros st3 h4 _ Hst3.
      apply safe_option. intros p Hp'. apply safe_require. intros Hc%bool_decide_eq_true.
      split; [by exists st3|]. by rewrite Hc.
  - intros h2 [p|e] Hp; [|done]. destruct Hp as [Hp Hc]. apply safe_checked. intros h3 H3 Hch.
    apply safe_read. intros st4 h4 H4 _. apply safe_bind.
    destruct (bool_decide _); [done|]. unfold node_address. destruct (raft_address <$> _) as [address|]; [|done].
    split; [|by intros [] _]. intros _. split; [by eapply checked_mono|].
    destruct (prepared_in_mono h2 h4 p) as (st5 & Hin & Hst5); [by etrans|done|]. exists st5. split; [done|]. by exists p.
Qed.

Lemma quiet_promote s peer g nonce log : quiet _ (promote_learner s peer g nonce log).
Proof.
  apply quiet_any. intros h. unfold promote_learner. apply safe_read. intros st h1 _ _.
  apply safe_option. intros pending _. apply safe_require. intros _. apply safe_then; [quiet|]. intros metrics h2 _.
  apply safe_require. intros _. apply safe_bind. eapply safe_mono.
  - instantiate (1 := on_ok (λ _ p, is_Some (learner_applied p))).
    destruct (learner_applied pending) eqn:Ha; [by eexists|]. apply safe_then; [quiet|]. intros applied h3 _. by eexists.
  - intros h3 [p|e] Hp; [|done]. apply safe_checked. intros h4 _ Hch. apply safe_read. intros st5 h5 H5 Hst5.
    apply safe_require. intros Hp5%bool_decide_eq_true. split.
    + intros _. split; [by eapply checked_mono|]. exists st5. split; [done|]. by exists p.
    + intros [[]|e] _; [|done]. apply any_quiet. quiet.
Qed.
#[local] Hint Resolve quiet_prepare quiet_promote quiet_progress : quiet.

Lemma quiet_cancel peer p log : quiet _ (cancel_join peer p log).
Proof.
  apply quiet_any. intros h. unfold cancel_join. apply safe_denied. intros [] Hplan.
  apply safe_read. intros st h1 _ Hst. apply safe_option. intros pending Hpending.
  apply safe_require. intros Hsame. apply safe_require. intros Hstable. apply safe_require. intros _. guards.
  apply safe_bind. eapply (safe_mono _ _ _ _ (on_ok (λ _ _, True))).
  - destruct (bool_decide (consumer p ∈ _)); [|done]. apply safe_then; [quiet|]. intros s h2 Hs2.
    apply safe_checked. intros h3 Hs3 Hch. split; [|by intros [] _]. intros _. split; [done|].
    exists st. split; [eapply sublist_elem; [|exact Hst]; by etrans|]. exists pending. by subst p.
  - intros h2 [[]|e] _; [|done]. apply any_quiet. quiet.
Qed.
#[local] Hint Resolve quiet_cancel : quiet.

Lemma quiet_manage peer a : quiet _ (manage cfg local peer a).
Proof. unfold manage, learner_ready. quiet. Qed.
#[local] Hint Resolve quiet_manage : quiet.

Lemma quiet_reserve fuel signed binding deadline : quiet _ (reserve_grant fuel signed binding deadline).
Proof. induction fuel; cbn [reserve_grant]; quiet. Qed.
#[local] Hint Resolve quiet_reserve : quiet.

Lemma quiet_drain {A B} fuel (pending : list A) (work : A → task Ev RunError B) fatal acc :
  (∀ x, quiet B (work x)) → quiet _ (drain fuel pending work fatal acc).
Proof. intros Hw. revert pending acc. induction fuel; intros pending acc; cbn [drain]; quiet. Qed.
#[local] Hint Resolve quiet_drain : quiet.

Lemma quiet_discover reject : quiet _ (discover sock_parse sha256 cfg local reject).
Proof. unfold discover, concurrently. quiet. apply quiet_drain. unfold discover_peer. quiet. Qed.
Lemma quiet_route_from fuel a candidates pending visited :
  quiet _ (route_from cfg local fuel a candidates pending visited).
Proof. revert pending visited. induction fuel; intros [|peer pending] visited; cbn [route_from]; quiet. Qed.
#[local] Hint Resolve quiet_discover quiet_route_from : quiet.

Lemma quiet_route a candidates : quiet _ (route cfg local a candidates).
Proof. apply quiet_route_from. Qed.
Lemma quiet_wait applied : quiet _ (wait_progress local timing applied).
Proof.
  apply quiet_timed. generalize (polls timing) as fuel. induction fuel; cbn [await_progress]; quiet.
Qed.
#[local] Hint Resolve quiet_route quiet_wait : quiet.

(** ** Grants *)

Definition polled (h : list answered) (g : SignedAdmission AdmissionRequest) : Prop :=
  ∃ signed binding deadline, did (PollGrant signed binding deadline) (Ok (Some g)) ∈ h.

Lemma polled_monotone : monotone polled.
Proof. intros h h' g Hs (s & b & d & Hin). exists s, b, d. eauto using sublist_elem. Qed.
Lemma obtained_monotone : monotone obtained.
Proof. intros h h' rg. apply obtained_mono. Qed.
Lemma forall_monotone {A} (F : list answered → A → Prop) : monotone F → monotone (λ h, Forall (F h)).
Proof. intros HF h h' l Hs Hl. eapply Forall_impl; [exact Hl|]. intros x. by apply HF. Qed.


Lemma safe_reserve fuel signed binding deadline h : safe (on_ok polled) h (reserve_grant fuel signed binding deadline).
Proof.
  revert h. induction fuel as [|fuel IH]; intros h; cbn [reserve_grant]; [done|].
  split; [done|]. intros [[g|]|e] _; cbn; [|apply IH|done]. exists signed, binding, deadline. apply last_event.
Qed.

Lemma safe_dispatch peer binding request h : safe (on_ok polled) h (dispatch hmac encode cfg local timing peer binding request).
Proof.
  unfold dispatch. do 3 (apply safe_then; [quiet|]; intros _ ? _).
  destruct (req_mode (record_payload request)); [apply safe_reserve..|].
  apply safe_then; [quiet|]. intros now ? _. apply safe_timed; [apply polled_monotone|].
  apply safe_within; [apply polled_monotone|]. apply safe_reserve.
Qed.

Lemma safe_request req target h : safe (on_ok obtained) h (request_grant hmac encode cfg local timing req target).
Proof.
  unfold request_grant. case_bool_decide; cycle 1.
  { split; [done|]. intros [rg|e] _; [|done]. left. eexists _, _. apply last_event. }
  apply safe_then; [quiet|]. intros entropy h1 _. apply safe_then; [quiet|]. intros binding h2 _.
  apply safe_then; [quiet|]. intros record h3 _. apply safe_bind. eapply safe_mono.
  { apply safe_timed; [apply polled_monotone|]. apply safe_dispatch. }
  intros h4 [response|e] Hp; [|done]. cbn. unfold of_denied, authenticate. cbn.
  destruct (verify _ _ _ _ _ _ _ _) as [[]|] eqn:Hv; [|done]. destruct (negb _); [done|]. cbn.
  right. split; [|exact Hp]. by apply verify_ok in Hv.
Qed.

Lemma safe_drain {A B} (F : list answered → B → Prop) fuel (pending : list A) (work : A → task Ev RunError B) fatal acc h :
  monotone F → (∀ x h, safe (on_ok F) h (work x)) → Forall (F h) acc →
  safe (on_ok (λ h, Forall (F h))) h (drain fuel pending work fatal acc).
Proof.
  intros HF Hw. revert pending acc h. induction fuel as [|fuel IH]; intros pending acc h Hacc; [done|]. cbn [drain].
  split; [done|]. intros i _. cbn. destruct (pending !! (i mod length pending)) as [x|]; [|cbn].
  - apply safe_bind, safe_outcome. eapply safe_mono; [apply safe_prefix, Hw|].
    intros h' r [Hr Hp]. cbn. assert (Hacc' : Forall (F h') acc).
    { eapply forall_monotone; [exact HF| |exact Hacc]. apply prefix_sublist. etrans; [|exact Hp]. by apply prefix_app_r. }
    destruct r as [b|e]; [|destruct (fatal e); [done|by apply IH]].
    apply IH. apply Forall_app. split; [done|by constructor].
  - eapply forall_monotone; [exact HF| |exact Hacc]. by apply sublist_inserts_r.
Qed.

Lemma safe_grants r targets reject h :
  safe (on_ok (λ h, Forall (obtained h))) h (gather_grants hmac encode cfg local timing r targets reject).
Proof. apply safe_drain; [apply obtained_monotone|intros; apply safe_request|done]. Qed.

(** ** Rounds *)

Lemma round_from_monotone : monotone round_from.
Proof. intros h h' r Hs (g & m & r0 & Hin & Hr). exists g, m, r0. eauto using sublist_elem. Qed.

Lemma bound_prepared h r p r' :
  round_from h r → possible _ (BindPrepared r p) (Ok r') → round_from h r'.
Proof.
  intros (g & m & r0 & Hin & Hr) [|(t & en & n & n' & Hs)]; [done|]. cbn in Hs. injection Hs as _ Hs.
  destruct (bind_prepared _ _ _ _) as [r1|] eqn:Hb; [|done]. injection Hs as <-.
  exists g, m, r0. split; [done|]. by eapply round_prepared.
Qed.

Lemma bound_progress h r a r' :
  round_from h r → possible _ (BindProgress r a) (Ok r') → round_from h r'.
Proof.
  intros (g & m & r0 & Hin & Hr) [|(t & en & n & n' & Hs)]; [done|]. cbn in Hs. injection Hs as _ Hs.
  destruct (bind_progress _ _ _) as [r1|] eqn:Hb; [|done]. injection Hs as <-.
  exists g, m, r0. split; [done|]. by eapply round_progress.
Qed.

(** What [begin] puts into the request. *)
Lemma begun n g mode entropy now r :
  begin_round n g mode entropy now = Ok r → req_genesis (round_request r) = g ∧ req_mode (round_request r) = mode.
Proof.
  unfold begin_round, begin. destruct (run_denied (ensure_running _)); [|done].
  destruct (match mode with Join (Some _) | Renew (Some _) => true | _ => false end); [done|].
  destruct (validate_genesis _ _); [|done]. destruct (_ <? _)%N; [done|]. destruct (consumer_deadline _ _); [|done].
  destruct entropy; [|done]. by intros [= <-].
Qed.

Lemma safe_begin {A} g mode (k : AdmissionRound → task Ev RunError A) F h :
  (∀ r h', h `sublist_of` h' → round_from h' r → req_genesis (round_request r) = g →
     req_mode (round_request r) = mode → safe (on_ok F) h' (k r)) →
  safe (on_ok F) h (task_bind k (attempt_ev (Begin g mode))).
Proof.
  intros Hk. split; [done|]. intros [r|e] Hp; [|done].
  destruct Hp as [|(t & en & n & n' & Hs)]; [done|]. cbn in Hs. injection Hs as _ Hs. apply begun in Hs as [Hg Hm].
  apply Hk; [by apply sublist_inserts_r| |done|done].
  exists g, mode, r. split; [apply last_event|constructor].
Qed.

(** An admission that came of the round [r], from grants that satisfy [enough]. *)
Definition installed (enough : list ReceivedGrant → Prop) (h : list answered) (r : AdmissionRound)
    (i : InstalledAdmission) : Prop :=
  ∃ grants r' v, enough grants ∧ Forall (obtained h) grants ∧ did (Complete r grants) (r', Ok v) ∈ h ∧
    did (Accept v) (Ok (installed_session i)) ∈ h ∧
    context_genesis (verified_context v) = req_genesis (round_request r) ∧
    verified_mode v = req_mode (round_request r) ∧ installed_deadline i = verified_deadline v ∧
    installed_request i = round_request r.

Lemma completed_round c r grants now r' v :
  complete hmac encode c r grants now = (r', Ok v) →
  context_genesis (verified_context v) = req_genesis (round_request r) ∧
  verified_mode v = req_mode (round_request r) ∧ round_request r' = round_request r.
Proof.
  unfold complete. case_match; [done|]. destruct (_ || _); [done|]. unfold complete_open.
  destruct (negb _); [done|]. destruct (collect_grants _ _ _ _ _ _ _); [|done]. cbn [fst snd].
  destruct (_ <=? _); [done|]. destruct (_ && _); [done|]. by intros [= <- <-].
Qed.

(** Collecting the grants of a round and installing them. *)
Lemma safe_install {A} r targets reject bootstrap (check : list ReceivedGrant → task Ev RunError unit) enough
    (k : InstalledAdmission → task Ev RunError A) F h :
  round_from h r → (∀ gs h', safe (on_ok (λ _ _, enough gs)) h' (check gs)) →
  (∀ i h', h `sublist_of` h' → installed enough h' r i → safe (on_ok F) h' (k i)) →
  safe (on_ok F) h
    (task_bind (λ gs, task_bind (λ _, task_bind k (install r gs bootstrap)) (check gs))
       (gather_grants hmac encode cfg local timing r targets reject)).
Proof.
  intros Hr Hc Hk. apply safe_bind. eapply safe_mono; [apply safe_prefix, safe_grants|].
  intros h1 [gs|e] [Hg Hp1]; [|done]. apply safe_bind. eapply safe_mono; [apply safe_prefix, Hc|].
  intros h2 [[]|e] [He Hp2]; [|done]. cbn in Hg, He.
  apply prefix_sublist in Hp1. apply prefix_sublist in Hp2. split.
  - split; [eapply round_from_monotone; [|done]; by etrans|]. by eapply forall_monotone; [apply obtained_monotone|..].
  - intros [r' [v|e]] Hv; [|done]. cbn. destruct (bootstrap_matches v bootstrap); [|done]. cbn. split.
    + exists r, gs, r'. apply last_event.
    + destruct Hv as [|(t & en & n & n' & Hs)]; [done|]. cbn in Hs.
      destruct (complete _ _ _ _ _ _) as [r1 v1] eqn:Hcomplete. injection Hs as _ <- Hv.
      destruct v1 as [v1|]; [|done]. injection Hv as <-. apply completed_round in Hcomplete as (Hgen & Hmode & Hreq).
      intros [session|e] _; [|done]. apply Hk; [do 2 (etrans; [|by apply sublist_inserts_r]); by etrans|].
      exists gs, r1, v1. split_and!; [done| |rewrite elem_of_app; left; apply last_event|apply last_event|done..].
      eapply forall_monotone; [apply obtained_monotone| |exact Hg]. by do 2 apply sublist_inserts_r.
Qed.

Lemma safe_installed {A} r targets reject bootstrap (k : InstalledAdmission → task Ev RunError A) F h :
  round_from h r →
  (∀ i h', h `sublist_of` h' → installed (λ _, True) h' r i → safe (on_ok F) h' (k i)) →
  safe (on_ok F) h
    (task_bind (λ gs, task_bind k (install r gs bootstrap)) (gather_grants hmac encode cfg local timing r targets reject)).
Proof. intros Hr Hk. by apply (safe_install r _ _ _ (λ _, Ret (Ok tt)) (λ _, True)). Qed.

(** ** The tasks *)


Lemma safe_initialize g r i h :
  installed (λ _, True) h r i → req_genesis (round_request r) = g → req_mode (round_request r) = Cold →
  safe (on_ok (λ _ _, True)) h (initialize_cold cfg g).
Proof.
  intros (gs & r' & v & _ & _ & _ & Hv & Hg & Hm & _) Hreq Hcold. unfold initialize_cold. apply safe_option.
  intros members Hd%resolve_dom. do 2 (apply safe_then; [quiet|]; intros ? ? ?). case_match; [done|].
  split; [|by intros [] _]. exists v, (installed_session i).
  split; [eapply sublist_elem; [|exact Hv]; by etrans|]. split; congruence.
Qed.

Lemma quiet_enter nonce : quiet _ (enter sock_parse sha256 hmac encode cfg local timing nonce).
Proof.
  apply quiet_any. intros h0. unfold enter. apply safe_then; [quiet|]. intros d h1 _.
  apply safe_then; [quiet|]. intros g h2 _. apply safe_begin. intros r h3 _ Hr Hg Hm. case_bool_decide.
  - apply (safe_installed r); [done|]. intros i h4 _ Hi. by eapply safe_initialize.
  - apply safe_bind. eapply safe_mono.
    + instantiate (1 := on_ok (λ h rp, round_from h rp.1)). unfold prepare_entry.
      apply safe_then; [quiet|]. intros resp h4 H4. destruct resp; try done.
      apply safe_then; [quiet|]. intros _ h5 H5. split; [done|]. intros [r'|e] Hp; [|done]. cbn.
      apply (round_from_monotone h3); [|by eapply bound_prepared]. apply sublist_inserts_r. by etrans.
    + intros h4 [[r' p]|e] Hr'; [|done]. by apply (safe_installed r').
Qed.

(** The storage has applied the progress. *)
Definition applied_in (h : list answered) (a : AppliedHealthProgress) : Prop :=
  ∃ st last, did ReadStorage st ∈ h ∧ applied_progress st !! physical_id local = Some a ∧
    last_applied_log st = Some last ∧ (index (log_id a) ≤ index last)%N.

Lemma applied_in_monotone : monotone applied_in.
Proof. intros h h' a Hs (st & last & Hin & Ha). exists st, last. eauto using sublist_elem. Qed.

Lemma safe_wait a h : safe (on_ok (λ h' _, applied_in h' a)) h (wait_progress local timing a).
Proof.
  apply safe_timed; [intros ? ? ? Hs; by eapply applied_in_monotone|]. generalize (polls timing) as fuel.
  intros fuel. revert h. induction fuel as [|fuel IH]; intros h; [done|]. cbn [await_progress].
  apply safe_read. intros st h' _ Hst. cbv zeta.
  set (reached := match last_applied_log st with Some log => _ | None => _ end).
  destruct (bool_decide _ && reached) eqn:Hd; [|destruct reached; [done|apply IH]].
  unfold reached in Hd. destruct (last_applied_log st) as [last|] eqn:Hl; [|by rewrite andb_false_r in Hd].
  apply andb_true_iff in Hd as [Ha%bool_decide_eq_true Hi%N.leb_le]. by exists st, last.
Qed.

(** What backs a health proof: the progress was committed and applied here, and the
    grants of a majority renewed the admission for exactly that progress. *)
Definition proof_backed (is_healthy : option bool) (h : list answered) (p : VerifiedProgress) : Prop :=
  let a := progress_applied p in
  healthy (request a) = is_healthy ∧ replica (request a) = local ∧ applied_in h a ∧
  ∃ r i, installed (λ grants, length (peers cfg) / 2 < length grants) h r i ∧ round_from h r ∧
    req_mode (round_request r) = Renew (Some (log_id a)) ∧
    request_nonce (request a) = req_nonce (round_request r) ∧
    progress_session p = installed_session i ∧ accepted_deadline p = installed_deadline i.

Lemma bound_request h r a r' :
  possible _ (BindProgress r a) (Ok r') → round_from h r → round_from h r' ∧
  req_mode (round_request r') = Renew (Some (log_id a)) ∧ request_nonce (request a) = req_nonce (round_request r').
Proof.
  intros Hp Hr. split; [by eapply bound_progress|]. destruct Hp as [|(t & en & n & n' & Hs)]; [done|].
  cbn in Hs. injection Hs as _ Hs. unfold bind_progress in Hs. destruct (_ || _) eqn:Hg; [done|].
  injection Hs as <-. cbn. split; [done|]. by guards.
Qed.

Lemma new_progress started a i p :
  possible _ (NewProgress started a i) (Ok p) →
  progress_applied p = a ∧ progress_session p = installed_session i ∧ accepted_deadline p = installed_deadline i.
Proof.
  intros [|(t & en & n & n' & Hs)]; [done|]. cbn in Hs. injection Hs as _ Hs. unfold progress_new in Hs.
  destruct (progress_validate _); [|done]. cbn in Hs. destruct (_ || _); [done|]. cbn in Hs.
  destruct (progress_check _ _); [|done]. by injection Hs as <-.
Qed.

Lemma proof_backed_monotone is_healthy : monotone (proof_backed is_healthy).
Proof.
  intros h h' p Hs (Hh & Hl & Ha & r & i & Hi & Hr & Hm). split_and!; [done|done|by eapply applied_in_monotone|].
  exists r, i. destruct Hi as (gs & r' & v & He & Hg & Hc & Hv & Hrest). split_and!; [|by eapply round_from_monotone|tauto..].
  exists gs, r', v. split_and!; [done|by eapply forall_monotone; [apply obtained_monotone|..]|by eapply sublist_elem..|tauto|tauto|tauto|tauto].
Qed.

Lemma safe_renew is_healthy h :
  safe (on_ok (proof_backed is_healthy)) h (renew_admission sock_parse sha256 hmac encode cfg local timing is_healthy).
Proof.
  unfold renew_admission. apply safe_then; [quiet|]. intros started h1 _.
  apply safe_within; [apply proof_backed_monotone|]. apply safe_then; [quiet|]. intros _ h2 _.
  apply safe_timed; [apply proof_backed_monotone|].
  unfold renew_round. apply safe_then; [quiet|]. intros sess h3 _. do 4 (apply safe_then; [quiet|]; intros ? ? _).
  apply safe_begin. intros r h4 _ Hr _ _. apply safe_then; [quiet|]. intros d h5 H5.
  apply safe_then; [quiet|]. intros resp h6 H6. destruct resp as [? ?|?|log|?]; [done|done| |done].
  apply safe_bind. eapply safe_mono; [apply safe_prefix, safe_wait|].
  intros h7 [[]|e] [Ha H7]; [|done]. apply prefix_sublist in H7. split; [done|]. intros [r'|e] Hp; [|done].
  apply (bound_request h4 _ _ _ Hp) in Hr as (Hr & Hm & Hn).
  apply (safe_install r' _ _ _ (λ gs, if length gs <=? length (peers cfg) / 2 then _ else _)
    (λ gs, length (peers cfg) / 2 < length gs)).
  - apply (round_from_monotone h4); [|done]. apply sublist_inserts_r. do 2 (etrans; [|done]). done.
  - intros gs h9. destruct (Nat.leb_spec (length gs) (length (peers cfg) / 2)); done.
  - intros i h8 H8 Hi. split; [done|]. intros [p|e] Hnew; [|done]. apply new_progress in Hnew as (Hpa & Hps & Hpd).
    cbn. apply (proof_backed_monotone _ h8); [by apply sublist_inserts_r|]. unfold proof_backed. rewrite Hpa. split_and!; [done|done| |].
    + eapply applied_in_monotone; [|exact Ha]. etrans; [|exact H8]. by apply sublist_inserts_r.
    + exists r', i. split_and!; try done. apply (round_from_monotone h4); [|done]. etrans; [|exact H8].
      apply sublist_inserts_r. do 2 (etrans; [|done]). done.
Qed.

Lemma quiet_renew is_healthy : quiet _ (renew_admission sock_parse sha256 hmac encode cfg local timing is_healthy).
Proof. intros h. eapply safe_mono; [apply safe_renew|done]. Qed.

Lemma quiet_extend : quiet _ (extend_join sock_parse sha256 hmac encode cfg local timing).
Proof.
  apply quiet_any. intros h0. unfold extend_join. apply safe_within; [done|].
  apply safe_then; [quiet|]. intros _ h1 _. apply safe_timed; [done|].
  apply safe_then; [quiet|]. intros j h2 _. apply safe_then; [quiet|]. intros b h3 _.
  apply safe_begin. intros r h4 _ Hr _ _. split; [done|]. intros [r'|e] Hp; [|done].
  cbn [mbind task_mbind task_bind]. apply safe_then; [quiet|]. intros d h5 H5. apply safe_installed; [|done].
  apply (round_from_monotone h4); [|by eapply bound_prepared].
  etrans; [|exact H5]. by apply sublist_inserts_r.
Qed.
#[local] Hint Resolve quiet_enter quiet_renew quiet_extend : quiet.

Lemma quiet_finish : quiet _ (finish_join sock_parse sha256 cfg local).
Proof. unfold finish_join. quiet. Qed.
Lemma quiet_recover : quiet _ (recover_pending cfg local).
Proof.
  apply quiet_any. intros h. unfold recover_pending. do 2 (apply safe_then; [quiet|]; intros ? ? _).
  destruct (negb _); [apply any_quiet; quiet|]. apply safe_read. intros st h1 _ Hst.
  destruct (State.prepared_join st) as [p|] eqn:Hp; [|apply any_quiet; quiet].
  apply safe_read. intros st2 h2 _ _. destruct (joint_committed st2 p) eqn:Hj.
  - do 2 (apply safe_then; [quiet|]; intros ? ? _). apply safe_checked. intros h3 _ Hch.
    apply safe_read. intros st4 h4 H4 Hst4. apply safe_require. intros Hp4%bool_decide_eq_true.
    split; [|by intros [] _]. intros _. split; [by eapply checked_mono|]. exists st4. split; [done|].
    exists p. split_and!; [done| |done]. unfold joint_committed in Hj. guards.
    destruct (learner_applied p); [by eexists|done].
  - apply any_quiet. unfold recover_stalled. quiet.
Qed.
Lemma quiet_establish : quiet _ (establish_genesis local).
Proof. unfold establish_genesis. quiet. Qed.
#[local] Hint Resolve quiet_finish quiet_recover quiet_establish : quiet.

Lemma quiet_round : quiet _ (drive_round sock_parse sha256 hmac encode cfg local timing).
Proof. unfold drive_round, deferred, bounded_phase. quiet. Qed.
#[local] Hint Resolve quiet_round : quiet.

Lemma quiet_form rounds nonce : quiet _ (form sock_parse sha256 hmac encode cfg local timing rounds nonce).
Proof. induction rounds; cbn [form]; unfold forever; quiet. Qed.
Lemma quiet_renewals rounds : quiet _ (renewals sock_parse sha256 hmac encode cfg local timing rounds).
Proof. induction rounds; cbn [renewals]; unfold report, forever; quiet. Qed.
#[local] Hint Resolve quiet_form quiet_renewals : quiet.

Context (boot : Instant).
Context (encode_request : list N * ManagementRequest → option (list N)).
Context (encode_response : list N * ManagementResponse → option (list N)).

Lemma quiet_drive formation renewal :
  quiet _ (drive sock_parse sha256 hmac encode cfg local timing boot formation renewal).
Proof. unfold drive, report. quiet. Qed.
#[local] Hint Resolve quiet_drive : quiet.
Lemma quiet_run formation renewal :
  quiet _ (run sock_parse sha256 hmac encode cfg local timing boot formation renewal).
Proof. unfold run, run_ends. quiet. Qed.
Lemma quiet_dispatch peer binding request : quiet _ (dispatch hmac encode cfg local timing peer binding request).
Proof. unfold dispatch. quiet. Qed.
Lemma quiet_management peer binding request :
  quiet _ (management hmac encode_request encode_response cfg local peer binding request).
Proof. unfold management. quiet. Qed.
Lemma quiet_publication : quiet _ health_publication_ready.
Proof. unfold health_publication_ready. quiet. Qed.
Lemma quiet_activation : quiet _ vip_activation_ready.
Proof. unfold vip_activation_ready. quiet. Qed.

(** The tasks that a daemon runs on its node. *)
Inductive runtime_task : ∀ A, task Ev RunError A → Prop :=
| task_run formation renewal :
    runtime_task _ (run sock_parse sha256 hmac encode cfg local timing boot formation renewal)
| task_health is_healthy : runtime_task _ (renew_admission sock_parse sha256 hmac encode cfg local timing (Some is_healthy))
| task_grant peer binding request : runtime_task _ (dispatch hmac encode cfg local timing peer binding request)
| task_management peer binding request :
    runtime_task _ (management hmac encode_request encode_response cfg local peer binding request)
| task_publication : runtime_task _ health_publication_ready
| task_activation : runtime_task _ vip_activation_ready.

Lemma runtime_task_quiet A t : runtime_task A t → quiet A t.
Proof.
  destruct 1; eauto using quiet_run, quiet_renew, quiet_dispatch, quiet_management, quiet_publication,
    quiet_activation.
Qed.
End runtime.
