(* ===== verification/NodeHistory.v ===== *)
(** * Histories of a node

    A node runs the tasks of its runtime concurrently, while the engine changes
    the storage under it.  A history is the sequence of the steps of all of them:
    events of tasks with the real times of their clock readings, and changes by
    the engine.  The lemmas relate a history to the authority, the issuer's
    reservations and the session of the storage. *)

From S2P Require Import Prelude Text Io Replica Openraft Admission Types VipLogic State StoreMembership.
From S2P Require Import StateMachine LogStore Config Fingerprint Auth Controller Lease LeaseTheorems Exclusion Freshness.
From S2P Require Import Request Authorization Tasks Driver Runtime RuntimeTheorems.

Section history.
Context {O : Openraft}.
Context (sock_parse : Text → option SocketAddr) (sha256 : list N → list N).
Context (hmac : list N → option (list N → list N)).
Context (encode : list N * AdmissionRequest → option (list N)).
Context (clk : N → Instant) (clk_advances : ∀ t t', (t ≤ t')%N → (clk t ≤ clk t')%N).

Local Abbreviation answered := (answered Ev).
Local Abbreviation section := (section sha256 hmac encode).
Implicit Types (n : Node) (a : RuntimeAuthority).

(** A step: an event of the task [k] with the real times of its clock readings and
    the entropy it drew; the engine, which keeps the bound session; [attach]; [shutdown]. *)
Inductive Step :=
| Event (k : nat) (τ : nat → N) (entropy : option (list N)) (a : answered)
| Engine (s : KafStorageState)
| Attach (id : ReplicaId)
| Shutdown.

Definition event_effect (τ : nat → N) (entropy : option (list N)) (a : answered) n n' : Prop :=
  if is_call (projT2 a).1 then n' = n else section (projT2 a).1 (λ i, clk (τ i)) entropy n = Some (n', (projT2 a).2).

Definition effect (s : Step) n n' : Prop :=
  match s with
  | Event _ τ entropy a => event_effect τ entropy a n n'
  | Engine st => admission st = admission (storage n) ∧ n' = n <| storage := st |>
  | Attach id => n' = match attach (driver n) id with Ok d => n <| driver := d |> | Err _ => n end
  | Shutdown => n' = shutdown sha256 n
  end.

Definition lasts (t : N) (s : Step) (t' : N) : Prop :=
  match s with
  | Event _ τ _ _ => (t ≤ τ 0%nat)%N ∧ ∀ i, (τ i ≤ τ (S i) ≤ t')%N
  | _ => (t ≤ t')%N
  end.

(** Steps are listed newest first. *)
Fixpoint history (n0 : Node) (t0 : N) (hs : list Step) (t : N) n : Prop :=
  match hs with
  | [] => t = t0 ∧ n = n0
  | s :: hs => ∃ t' n', history n0 t0 hs t' n' ∧ lasts t' s t ∧ effect s n' n
  end.

(** The events of one task, oldest first. *)
Definition step_of (k : nat) (s : Step) : list answered :=
  match s with
  | Event k' _ _ a => if decide (k' = k) then [a] else []
  | _ => []
  end.
Fixpoint events (k : nat) (hs : list Step) : list answered :=
  match hs with
  | [] => []
  | s :: hs => events k hs ++ step_of k s
  end.

Lemma events_engine k st hs : events k (Engine st :: hs) = events k hs.
Proof. apply app_nil_r. Qed.

(** The grants an event issued, and the admission it offered to the authority. *)
Definition event_grants (τ : nat → N) (a : answered) : list (N * AdmissionRequest) :=
  match (projT2 a).1 in Ev X return X → list (N * AdmissionRequest) with
  | PollGrant signed _ _ => λ x, match x with Ok (Some _) => [(τ 3, record_payload signed)] | _ => [] end
  | _ => λ _, []
  end (projT2 a).2.
Definition event_offer (a : answered) : list VerifiedAdmission :=
  match (projT2 a).1 with Accept v => [v] | _ => [] end.

Definition step_grants (s : Step) : list (N * AdmissionRequest) :=
  match s with Event _ τ _ a => event_grants τ a | _ => [] end.
Definition grants_of (hs : list Step) : list (N * AdmissionRequest) := hs ≫= step_grants.

(** ** What the sections do to the authority and the session *)

(** [evolves a vs a']: the authority [a] becomes [a'] when [vs] is offered. *)
Definition evolves a (vs : list VerifiedAdmission) a' : Prop :=
  ∀ a0 ws, authority_run sha256 a0 ws a → authority_run sha256 a0 (vs ++ ws) a'.

(** The session of the storage refers to the authority. *)
Definition fenced n : Prop := ∀ s, admission (storage n) = Some s → s = session_over sha256 n (context s).

Definition moves (vs : list VerifiedAdmission) n n' : Prop :=
  evolves (driver_authority (driver n)) vs (driver_authority (driver n')) ∧ (fenced n → fenced n').

Lemma moves_refl n : moves [] n n.
Proof. split; [|done]. by intros a0 ws. Qed.

Lemma moves_trans n1 n2 n3 vs vs' : moves vs n1 n2 → moves vs' n2 n3 → moves (vs' ++ vs) n1 n3.
Proof. intros [E1 F1] [E2 F2]. split; [|auto]. intros a0 ws H. rewrite <- app_assoc. by apply E2, E1. Qed.

Lemma moves_still n1 n2 n3 vs : moves vs n1 n2 → moves [] n2 n3 → moves vs n1 n3.
Proof. intros H1 H2. exact (moves_trans _ _ _ _ _ H1 H2). Qed.

Lemma moves_authority n vs a : evolves (driver_authority (driver n)) vs a → moves vs n (with_authority sha256 n a).
Proof.
  intros He. split; [done|]. intros _ s Hs. unfold with_authority in *. cbn in *.
  destruct (admission (storage n)); [|done]. by injection Hs as <-.
Qed.

(** A change that keeps the authority and the session. *)
Lemma moves_aside n n' :
  driver_authority (driver n') = driver_authority (driver n) → admission (storage n') = admission (storage n) →
  moves [] n n'.
Proof.
  intros Ha Hs. unfold moves, fenced, session_over. rewrite Ha, Hs. split; [|done]. by intros a0 ws.
Qed.

Lemma evolves_current a now : evolves a [] (a <| permission := (current (permission a) now).1 |>).
Proof.
  intros a0 ws H.
  exact (authority_checked _ _ _ _ (mkAdmissionContext (auth_local a) (mkGenesis (mkClusterConfigFingerprint 0 []) 0 ∅)) now H).
Qed.
Lemma evolves_check a c now : evolves a [] (authority_check sha256 a c now).1.
Proof. intros a0 ws H. by apply authority_checked. Qed.

Lemma current_moves n now : moves [] n (authority_current sha256 n now).1.
Proof. apply moves_authority, evolves_current. Qed.
Lemma sealed_moves n now : moves [] n (sealed_now sha256 n now).1.
Proof. apply current_moves. Qed.
Lemma check_moves n c now : moves [] n (check_authority sha256 n c now).1.
Proof.
  unfold check_authority. pose proof (evolves_check (driver_authority (driver n)) c now) as H.
  destruct (authority_check _ _ _ _). by apply moves_authority.
Qed.
Lemma session_moves n c now : moves [] n (check_session sha256 n c now).1.
Proof. apply check_moves. Qed.

Lemma coherent_moves n now now' : moves [] n (coherent sha256 n now now').1.
Proof.
  unfold coherent. destruct (admission (storage n)) as [s|]; [|apply moves_refl].
  pose proof (check_moves n (context s) now) as H1. destruct (check_authority _ _ _ _) as [n1 [|]]; [|done].
  pose proof (session_moves n1 (context s) now') as H2. destruct (check_session _ _ _ _) as [n2 []];
    by eapply moves_still.
Qed.

Lemma report_moves n taken now : moves [] n (report_admission_once_voting sha256 n taken now).
Proof.
  unfold report_admission_once_voting. destruct (bool_decide _); [apply moves_refl|].
  pose proof (current_moves n now) as H. destruct (authority_current _ _ _) as [n' b].
  case_match; [done|]. eapply moves_still; [exact H|]. by apply moves_aside.
Qed.

Lemma accept_moves n v now check_now first_now bind_now :
  ∃ vs, moves vs n (accept_admission sha256 n v now check_now first_now bind_now).1 ∧ vs ⊆ [v].
Proof.
  unfold accept_admission. destruct (run_denied _) as [[]|]; [|exists []; split; [apply moves_refl|set_solver]].
  pose proof (λ a0 ws, authority_accept sha256 a0 ws (driver_authority (driver n)) v now check_now) as He.
  exists [v]. split; [|done]. destruct (accept _ _ _ _ _) as [a [session|e]]; [|by apply moves_authority].
  assert (H1 : moves [v] n (with_authority sha256 n a)) by by apply moves_authority.
  revert H1. generalize (with_authority sha256 n a) as n1. intros n1 H1. cbv zeta.
  set (n2 := match verified_mode v with Cold | Join _ => _ | Renew _ => _ end).
  assert (H2 : moves [] n1 n2) by (unfold n2; destruct (verified_mode v); by apply moves_aside).
  assert (Ha : driver_authority (driver n2) = driver_authority (driver n1)) by (unfold n2; by destruct (verified_mode v)).
  pose proof (moves_still _ _ _ _ H1 H2) as H3. destruct (admission (storage n2)) as [s|] eqn:Hs; [done|].
  destruct (bind_admission _ _ _) as [st|] eqn:Hb; [|done]. cbn [fst]. split; [exact (proj1 H3)|]. intros _ s'.
  unfold bind_admission in Hb. rewrite Hs in Hb. destruct (session_check _ _); [|done].
  destruct (match state_genesis _ with Some _ => _ | None => _ end); [done|]. injection Hb as <-. cbn.
  intros [= <-]. unfold session_over. cbn. by rewrite Ha.
Qed.

Lemma promote_moves n now : moves [] n (promote sha256 n now).1.
Proof.
  unfold promote. destruct (bootstrap_join (driver n)) as [b|]; [|apply moves_refl].
  case_match; [apply moves_refl|]. cbv zeta. destruct (mark_promoted _ _ _ _ _) as [a r] eqn:Hm.
  assert (H1 : moves [] n (with_authority sha256 n a)).
  { apply moves_authority. intros a0 ws Hr. change a with (a, r).1. rewrite <- Hm. by apply authority_promote. }
  destruct r; [|done]. eapply moves_still; [exact H1|]. by apply moves_aside.
Qed.

Lemma shutdown_moves n : moves [] n (shutdown sha256 n).
Proof.
  unfold shutdown. eapply moves_still; [|by apply moves_aside].
  apply (moves_trans _ (n <| driver := driver n <| stopped := true |> |>) _ [] []); [by apply moves_aside|].
  apply moves_authority. intros a0 ws H. by apply authority_sealed.
Qed.

Lemma check_core n c now : core (driver (check_authority sha256 n c now).1) = core (driver n).
Proof. unfold check_authority. by destruct (authority_check _ _ _ _). Qed.

Lemma ready_moves n req now check_now :
  let n' := (issuer_ready sha256 n req now check_now).1 in moves [] n n' ∧ core (driver n') = core (driver n).
Proof.
  unfold issuer_ready. pose proof (moves_refl n). destruct (req_mode req) as [| |[l|]]; try done.
  destruct (admission (storage n)) as [s|]; [|done].
  pose proof (check_moves n (context s) now) as H1. pose proof (check_core n (context s) now) as C1.
  destruct (check_authority _ _ _ _) as [n1 [|]]; [|done].
  pose proof (session_moves n1 (context s) check_now) as H2. pose proof (check_core n1 (context s) check_now) as C2.
  unfold check_session in *. cbv zeta in *. cbn [fst] in *. destruct (session_check _ _);
    (split; [by eapply moves_still|cbn [fst]; congruence]).
Qed.

Lemma poll_moves n signed binding deadline t :
  moves [] n (poll_grant sha256 hmac encode n signed binding deadline t).1.
Proof.
  unfold poll_grant. destruct (run_denied _); [|apply moves_refl].
  pose proof (ready_moves n (record_payload signed) (t 0) (t 1)) as [H1 _].
  destruct (issuer_ready _ _ _ _ _) as [n1 [[]|]]; [|done..]. case_match; [done|].
  destruct (reserve _ _ _ _ _ _ _ _ _) as [c r]. eapply moves_still; [exact H1|]. by apply moves_aside.
Qed.

(** Every section evolves the authority, and only offers the admission it accepts. *)
Lemma section_moves {X} (e : Ev X) t entropy n n' x :
  section e t entropy n = Some (n', x) → ∃ vs, moves vs n n' ∧ vs ⊆ event_offer (did e x).
Proof.
  assert (Hq : ∀ m : Node * X, moves [] n m.1 → Some m = Some (n', x) → ∃ vs, moves vs n n' ∧ vs ⊆ event_offer (did e x)).
  { intros m Hm [= ->]. exists []. split; [done|set_solver]. }
  destruct e; cbn; try done; try (apply Hq; cbn;
    first [apply moves_refl|apply current_moves|apply sealed_moves|apply session_moves|apply promote_moves|apply report_moves
          |apply poll_moves|apply shutdown_moves|by apply moves_aside]).
  - pose proof (coherent_moves n (t 0) (t 1)) as H. destruct (coherent _ _ _ _). by apply Hq.
  - destruct (complete _ _ _ _ _ _). apply Hq, moves_refl.
  - intros [= Heq]. pose proof (accept_moves n v (t 0) (t 1) (t 2%nat) (t 3)) as H. by rewrite Heq in H.
  - destruct (observe_pending _ _ _ _ _ _) as [d r] eqn:Hd. apply Hq. cbn [fst]. apply moves_aside; [|done].
    cbn. unfold observe_pending in Hd. repeat case_match; by simplify_eq.
Qed.

(** ** What the sections do to the reservations *)

Lemma accept_core n v now check_now first_now bind_now :
  core (driver (accept_admission sha256 n v now check_now first_now bind_now).1) = core (driver n).
Proof.
  unfold accept_admission. destruct (run_denied _); [|done]. destruct (accept _ _ _ _ _) as [a' [s|]]; [|done]. cbv zeta.
  destruct (verified_mode v); (destruct (admission _); [done|]); by destruct (bind_admission _ _ _).
Qed.

Lemma promote_core n now : core (driver (promote sha256 n now).1) = core (driver n).
Proof.
  unfold promote. destruct (bootstrap_join _); [|done]. case_match; [done|]. cbv zeta.
  by destruct (mark_promoted _ _ _ _ _) as [a' []].
Qed.

Lemma coherent_core n now check_now : core (driver (coherent sha256 n now check_now).1) = core (driver n).
Proof.
  unfold coherent. destruct (admission _) as [s|]; [|done].
  pose proof (check_core n (context s) now) as H. destruct (check_authority _ _ _ _) as [n1 [|]]; [|done].
  pose proof (check_core n1 (context s) check_now) as H1. unfold check_session. cbv zeta.
  destruct (session_check _ _); cbn [fst] in *; congruence.
Qed.

Lemma report_core n taken now : core (driver (report_admission_once_voting sha256 n taken now)) = core (driver n).
Proof. unfold report_admission_once_voting. destruct (bool_decide _); [done|]. cbn. by case_match. Qed.

(** The issued grants, with the readings of the local clock. *)
Definition on_clock (gs : list (N * AdmissionRequest)) : list (Instant * AdmissionRequest) :=
  (λ tq, (clk tq.1, tq.2)) <$> gs.

Section reservations.
Context (c0 : AdmissionController).
Local Abbreviation run := (boot_run sha256 hmac encode c0).

Lemma poll_core n signed binding deadline τ n' x es u :
  poll_grant sha256 hmac encode n signed binding deadline (λ i, clk (τ i)) = (n', x) →
  (u ≤ clk (τ 3%nat))%N → run es u (core (driver n)) →
  ∃ u', (u' ≤ clk (τ 3%nat))%N ∧
    run (on_clock (event_grants τ (did (PollGrant signed binding deadline) x)) ++ es) u' (core (driver n')).
Proof.
  unfold poll_grant. intros Hp Hu Hr. destruct (run_denied _); [|injection Hp as <- <-; eauto].
  pose proof (ready_moves n (record_payload signed) (clk (τ 0)) (clk (τ 1))) as [_ Hc].
  destruct (issuer_ready _ _ _ _ _) as [n1 r1]. cbn [fst] in Hc. rewrite <- Hc in Hr.
  destruct r1 as [[]|]; [|injection Hp as <- <-; eauto..]. case_match; [injection Hp as <- <-; eauto|].
  destruct (reserve _ _ _ _ _ _ _ _ _) as [c [g|e]] eqn:Hres; injection Hp as <- <-;
    (eexists; split; [reflexivity|]); [by eapply run_grant|by eapply run_refuse].
Qed.

Lemma section_core {X} (e : Ev X) τ entropy n n' x es u :
  section e (λ i, clk (τ i)) entropy n = Some (n', x) →
  (u ≤ clk (τ 3%nat))%N → run es u (core (driver n)) →
  ∃ u', (u' ≤ clk (τ 3%nat))%N ∧ run (on_clock (event_grants τ (did e x)) ++ es) u' (core (driver n')).
Proof.
  intros Hs Hu Hr.
  assert (Hsame : core (driver n') = core (driver n) → event_grants τ (did e x) = [] →
    ∃ u', (u' ≤ clk (τ 3%nat))%N ∧ run (on_clock (event_grants τ (did e x)) ++ es) u' (core (driver n'))).
  { intros Hc ->. rewrite Hc. eauto. }
  destruct e; cbn in Hs; try done; try (apply Hsame; [|done]; by injection Hs as <- _).
  - apply Hsame; [|done]. pose proof (coherent_core n (clk (τ 0)) (clk (τ 1))) as H.
    destruct (coherent _ _ _ _). by injection Hs as <- _.
  - apply Hsame; [|done]. destruct (complete _ _ _ _ _ _). by injection Hs as <- _.
  - apply Hsame; [|done]. injection Hs as Hs. eapply (f_equal (λ m, core (driver m.1))) in Hs. by rewrite accept_core in Hs.
  - injection Hs as Hs. by eapply poll_core.
  - apply Hsame; [|done]. injection Hs as Hs. eapply (f_equal (λ m, core (driver m.1))) in Hs. by rewrite promote_core in Hs.
  - apply Hsame; [|done]. destruct (observe_pending _ _ _ _ _ _) as [d r] eqn:Hd. injection Hs as <- _. cbn.
    unfold observe_pending in Hd. repeat case_match; by simplify_eq.
  - apply Hsame; [|done]. injection Hs as <- _. apply report_core.
Qed.
End reservations.

(** ** Invariants of histories *)

(** The authority of a node has been offered admissions of its history only; the
    storage's session refers to it; and the controller issued the grants of the history. *)
Record node_inv (n0 : Node) (hs : list Step) (t : N) n : Prop := {
  authority_history : ∃ vs, authority_run sha256 (driver_authority (driver n0)) vs (driver_authority (driver n)) ∧
    ∀ v, v ∈ vs → ∃ k τ entropy x, Event k τ entropy (did (Accept v) x) ∈ hs;
  session_fenced : fenced n;
  controller_history : ∃ u, (u ≤ clk t)%N ∧
    boot_run sha256 hmac encode (core (driver n0)) (on_clock (grants_of hs)) u (core (driver n))
}.

Lemma lasts_le t s t' : lasts t s t' → (t ≤ t')%N.
Proof. destruct s; cbn; [|done..]. intros [H0 H]. specialize (H 0%nat). lia. Qed.

(** The authority part of a step. *)
Lemma effect_moves s n n' : effect s n n' → ∃ vs, moves vs n n' ∧
  ∀ v, v ∈ vs → ∃ k τ entropy x, s = Event k τ entropy (did (Accept v) x).
Proof.
  assert (Hn : ∀ v : VerifiedAdmission, v ∈ [] → ∃ k τ entropy x, s = Event k τ entropy (did (Accept v) x)) by set_solver.
  destruct s as [k τ en [X [e x]]|st|id|]; cbn.
  - unfold event_effect. cbn. destruct (is_call e); [intros ->; eauto using moves_refl|].
    intros Hs. apply section_moves in Hs as (vs & Hm & Hsub). exists vs. split; [done|]. intros v Hv%Hsub.
    destruct e; cbn in Hv; try by apply not_elem_of_nil in Hv. apply list_elem_of_singleton in Hv as ->.
    by exists k, τ, en, x.
  - intros [Ha ->]. exists []. split; [|done]. by apply moves_aside.
  - intros ->. exists []. split; [|done]. unfold attach. destruct (run_denied _); [|apply moves_refl]. cbn.
    do 2 (destruct (ensure _ _); [cbn|apply moves_refl]). by apply moves_aside.
  - intros ->. exists []. split; [|done]. apply shutdown_moves.
Qed.

Lemma history_inv n0 t0 hs t n :
  admission (storage n0) = None → history n0 t0 hs t n → node_inv n0 hs t n.
Proof.
  intros H0. revert t n. induction hs as [|s hs IH]; intros t n.
  { intros [-> ->]. split.
    - exists []. split; [constructor|]. set_solver.
    - intros s. by rewrite H0.
    - exists 0%N. split; [lia|constructor]. }
  intros (t' & n' & Hh & Hl & He). apply IH in Hh as [(vs & Hvs & Hin) Hf (u & Hu & Hr)].
  pose proof (effect_moves _ _ _ He) as (ws & [Hev Hfe] & Hws). split.
  - exists (ws ++ vs). split; [by apply Hev|]. intros v [Hv|Hv]%elem_of_app.
    + destruct (Hws v Hv) as (k & τ & en & x & ->). exists k, τ, en, x. by left.
    + destruct (Hin v Hv) as (k & τ & en & x & ?). exists k, τ, en, x. by right.
  - by apply Hfe.
  - pose proof (lasts_le _ _ _ Hl) as Hle. apply clk_advances in Hle.
    destruct s as [k τ en [X [e x]]|st|id|]; cbn in He.
    + destruct Hl as [Ht Hτ]. pose proof (Hτ 0%nat). pose proof (Hτ 1%nat). pose proof (Hτ 2%nat). pose proof (Hτ 3%nat).
      assert (clk t' ≤ clk (τ 3%nat))%N by (apply clk_advances; lia).
      assert (clk (τ 3%nat) ≤ clk t)%N by (apply clk_advances; lia).
      unfold event_effect in He. cbn in He. destruct (is_call e) eqn:Hc.
      * subst n'. exists u. split; [lia|]. by destruct e.
      * eapply section_core in He as (u' & Hu' & Hr'); [|..|exact Hr]; [|lia]. exists u'. split; [lia|].
        unfold grants_of, on_clock in *. cbn [mbind list_bind]. rewrite fmap_app. exact Hr'.
    + destruct He as [_ ->]. exists u. split; [lia|done].
    + subst n. exists u. split; [lia|]. unfold attach. destruct (run_denied _); [|done]. cbn.
      by do 2 (destruct (ensure _ _); [cbn|done]).
    + subst n. exists u. split; [lia|done].
Qed.

(** The engine changes the storage. *)
Lemma engine_step n0 t0 hs t n st t' :
  history n0 t0 hs t n → (t ≤ t')%N → admission st = admission (storage n) →
  history n0 t0 (Engine st :: hs) t' (n <| storage := st |>).
Proof. intros Hh Ht Ha. exists t, n. by split_and!. Qed.

(** ** Playing a task

    A history by evaluation: the task [k] runs until it ends or until the
    environment [calls] does not answer, one time unit per event. *)

Section play.
Context (calls : ∀ X, Ev X → option X) (entropy : option (list N)) (k : nat).

Fixpoint play {A} (tk : task Ev RunError A) (hs : list Step) (t : N) n : list Step * N * Node :=
  match tk with
  | Ret _ => (hs, t, n)
  | Do e f =>
      match (if is_call e then (λ x, (n, x)) <$> calls _ e else section e (λ _, clk (t + 1)) entropy n) with
      | None => (hs, t, n)
      | Some (n', x) => play (f x) (Event k (λ _, (t + 1)%N) entropy (did e x) :: hs) (t + 1) n'
      end
  end.

Lemma play_history {A} (tk : task Ev RunError A) n0 t0 hs t n :
  history n0 t0 hs t n → let p := play tk hs t n in history n0 t0 p.1.1 p.1.2 p.2.
Proof.
  revert hs t n. induction tk as [r|X e f IH]; intros hs t n Hh; [done|]. cbn [play].
  destruct (if is_call e then _ else _) as [[n' x]|] eqn:He; [|done]. apply IH.
  exists t, n. split; [done|]. split; [split; [lia|intros _; lia]|].
  cbn. unfold event_effect. cbn. destruct (is_call e); [|done].
  destruct (calls X e); [|done]. by injection He as <- _.
Qed.

Lemma play_events {A} (tk : task Ev RunError A) hs t n :
  ∃ h, events k (play tk hs t n).1.1 = events k hs ++ h ∧ reaches tk h.
Proof.
  revert hs t n. induction tk as [r|X e f IH]; intros hs t n; cbn [play].
  { exists []. by rewrite app_nil_r. }
  destruct (if is_call e then _ else _) as [[n' x]|]; [|exists []; by rewrite app_nil_r].
  destruct (IH x (Event k (λ _, (t + 1)%N) entropy (did e x) :: hs) (t + 1)%N n') as (h & Hh & Hr).
  exists (did e x :: h). split; [|by exists x]. rewrite Hh. cbn. rewrite decide_True by done.
  by rewrite <- app_assoc.
Qed.

(** The result of a task that runs to its end. *)
Fixpoint played_result {A} (tk : task Ev RunError A) (t : N) n : option (Result A RunError) :=
  match tk with
  | Ret r => Some r
  | Do e f =>
      match (if is_call e then (λ x, (n, x)) <$> calls _ e else section e (λ _, clk (t + 1)) entropy n) with
      | None => None
      | Some (n', x) => played_result (f x) (t + 1) n'
      end
  end.

Lemma play_runs {A} (tk : task Ev RunError A) hs t n r :
  played_result tk t n = Some r → ∃ h, events k (play tk hs t n).1.1 = events k hs ++ h ∧ runs tk h r.
Proof.
  revert hs t n. induction tk as [r'|X e f IH]; intros hs t n; cbn [play played_result].
  { intros [= ->]. exists []. by rewrite app_nil_r. }
  destruct (if is_call e then _ else _) as [[n' x]|]; [|done]. intros Hr.
  destruct (IH x (Event k (λ _, (t + 1)%N) entropy (did e x) :: hs) (t + 1)%N n' Hr) as (h & Hh & Hrun).
  exists (did e x :: h). split; [|by exists x]. rewrite Hh. cbn. rewrite decide_True by done.
  by rewrite <- app_assoc.
Qed.

Lemma play_other {A} (tk : task Ev RunError A) k' hs t n : k' ≠ k → events k' (play tk hs t n).1.1 = events k' hs.
Proof.
  intros Hk. revert hs t n. induction tk as [r|X e f IH]; intros hs t n; [done|]. cbn [play].
  destruct (if is_call e then _ else _) as [[n' x]|]; [|done]. rewrite IH. cbn.
  rewrite decide_False by done. by rewrite app_nil_r.
Qed.
End play.
End history.
