(* ===== verification/SplitBrain.v ===== *)
(** * Split brain is impossible in a running cluster

    The members of a cluster run the tasks of their runtimes, in any
    interleaving with their engines, across restarts.  From the events of those
    histories follow the assumptions of [Exclusion]: every admission that an
    authority was offered comes from a round of its own boot, whose grants were
    issued while the round was open. *)

From S2P Require Import Prelude Text Io Encoding Replica Openraft Admission Types VipLogic State StoreMembership.
From S2P Require Import StateMachine LogStore Config Fingerprint Auth Controller Lease LeaseTheorems Exclusion Freshness.
From S2P Require Import Request Authorization Tasks Driver Runtime RuntimeTheorems NodeHistory.

(** ** Positions in a history *)

Section positions.
Context {O : Openraft}.
Context (sha256 : list N → list N) (hmac : list N → option (list N → list N)).
Context (encode : list N * AdmissionRequest → option (list N)) (clk : N → Instant).

Local Abbreviation history := (history sha256 hmac encode clk).

Lemma history_split n0 t0 l2 l1 t n :
  history n0 t0 (l2 ++ l1) t n → ∃ t' n', history n0 t0 l1 t' n' ∧ (t' ≤ t)%N.
Proof.
  revert t n. induction l2 as [|s l2 IH]; intros t n; cbn; [intros H; exists t, n; by split|].
  intros (t' & n' & H & Hl & _). apply lasts_le in Hl. destruct (IH _ _ H) as (t1 & n1 & ? & ?).
  exists t1, n1. split; [done|lia].
Qed.

(** The node at an event. *)
Lemma history_event n0 t0 hs t n k τ entropy a :
  history n0 t0 hs t n → Event k τ entropy a ∈ hs →
  ∃ l2 l1 t1 n1 n2, hs = l2 ++ Event k τ entropy a :: l1 ∧ history n0 t0 l1 t1 n1 ∧
    (∀ i, t1 ≤ τ i ≤ t)%N ∧ event_effect sha256 hmac encode clk τ entropy a n1 n2.
Proof.
  intros Hh (l2 & l1 & ->)%list_elem_of_split.
  destruct (history_split n0 t0 l2 _ t n Hh) as (t' & n' & (t1 & n1 & H1 & [Ht Hτ] & He) & Hle).
  exists l2, l1, t1, n1, n'. split_and!; [done|done| |done]. intros i. destruct (Hτ i). split; [|lia].
  etrans; [exact Ht|]. clear -Hτ. induction i as [|i IH]; [done|]. destruct (Hτ i). lia.
Qed.

Lemma events_app k l2 l1 : events k (l2 ++ l1) = events k l1 ++ events k l2.
Proof. induction l2 as [|s l2 IH]; cbn; [by rewrite app_nil_r|]. by rewrite IH, app_assoc. Qed.

Lemma events_in k a hs : a ∈ events k hs → ∃ τ entropy, Event k τ entropy a ∈ hs.
Proof.
  induction hs as [|s hs IH]; cbn; [by intros ?%not_elem_of_nil|]. intros [Ha|Ha]%elem_of_app.
  - destruct (IH Ha) as (τ & en & ?). exists τ, en. by right.
  - destruct s as [k' τ en a'| | |]; cbn in Ha; [|by apply not_elem_of_nil in Ha..].
    destruct (decide (k' = k)) as [->|]; [|by apply not_elem_of_nil in Ha].
    apply list_elem_of_singleton in Ha as ->. exists τ, en. by left.
Qed.

(** The answers in a history are those of the sections. *)
Lemma history_allowed n0 t0 hs t n k :
  history n0 t0 hs t n → Forall (allowed (possible sha256 hmac encode)) (events k hs).
Proof.
  revert t n. induction hs as [|s hs IH]; intros t n; cbn; [constructor|].
  intros (t' & n' & H & _ & He). apply Forall_app. split; [by eapply IH|].
  destruct s as [k' τ en [X [e x]]| | |]; cbn; [|constructor..]. case_decide; [|constructor].
  constructor; [|constructor]. cbn in He. unfold event_effect in He. cbn in He.
  unfold allowed, possible. cbn. destruct (is_call e); [by left|]. right. eauto.
Qed.

(** The events of a runtime task are admissible. *)
Lemma event_admissible {A} (t : task Ev RunError A) local n0 t0 k τ entropy X (e : Ev X) x later l1 t1 n1 :
  quiet (possible sha256 hmac encode) (admissible sha256 local) A t →
  history n0 t0 l1 t1 n1 → reaches t (events k (later ++ Event k τ entropy (did e x) :: l1)) →
  admissible sha256 local (events k l1) X e.
Proof.
  intros Hq Hh Hr. rewrite events_app in Hr. cbn in Hr. rewrite decide_True in Hr by done.
  rewrite <- app_assoc in Hr. cbn in Hr.
  exact (safe_reaches _ _ _ _ _ [] t (events k l1) X e x _ (Hq []) Hr (history_allowed _ _ _ _ _ k Hh)).
Qed.
End positions.

(** ** Clusters *)

Section cluster.
Context {O : Openraft}.
Context (sock_parse : Text → option SocketAddr) (sha256 : list N → list N).
Context (hmac : list N → option (list N → list N)).
Context (encode : list N * AdmissionRequest → option (list N)).
Context (encode_request : list N * ManagementRequest → option (list N)).
Context (encode_response : list N * ManagementResponse → option (list N)).
Context (roster : gset N) (lease : LeaseTiming).

(** The boots of the members: their clocks, when and with which configuration and
    storage they started, and their histories. *)
Record Cluster := mkCluster {
  cl_clock : ReplicaId → N → Instant;
  cl_booted : ReplicaId → N;
  cl_config : ReplicaId → Config;
  cl_storage : ReplicaId → KafStorageState;
  cl_steps : ReplicaId → list Step
}.

Implicit Types (C : Cluster) (b : ReplicaId).

(** The node of a boot after its first steps. *)
Definition node_at C b (hs : list Step) (t : N) (n : Node) : Prop :=
  ∃ d, driver_new sock_parse sha256 (cl_config C b) lease (cl_clock C b (cl_booted C b)) (Some (boot_nonce b)) = Ok d ∧
    history sha256 hmac encode (cl_clock C b) (mkNode d (cl_storage C b)) (cl_booted C b) hs t n.

(** What is assumed of the cluster.  Clocks advance, none more than twice as fast as
    another.  Boots are daemons of the configured members, which start with fresh
    storages and run the tasks of the runtime; boots of one member do not overlap.
    An answer that [admission_rpc] authenticated was sent by its signer, and nonces
    are not known before [begin] draws them. *)
Record cluster_ok C : Prop := {
  cluster_advance b t t' : (t ≤ t' → cl_clock C b t ≤ cl_clock C b t')%N;
  cluster_rates b b' t t' :
    (t ≤ t' → cl_clock C b t' - cl_clock C b t ≤ CLOCK_RATE_RATIO * (cl_clock C b' t' - cl_clock C b' t))%N;
  cluster_boots b : cl_steps C b ≠ [] →
    cfg_node_id (cl_config C b) = physical_id b ∧ list_to_set (peer_id <$> peers (cl_config C b)) = roster ∧
    ∃ t n, node_at C b (cl_steps C b) t n;
  cluster_storage b : admission (cl_storage C b) = None;
  cluster_tasks b k : ∃ A t,
    runtime_task sock_parse sha256 hmac encode (cl_config C b) b lease (cl_clock C b (cl_booted C b))
      encode_request encode_response A t ∧ reaches t (events k (cl_steps C b));
  cluster_sequential b b' : physical_id b = physical_id b' → b ≠ b' →
    (∀ k τ entropy a i, Event k τ entropy a ∈ cl_steps C b → (τ i ≤ cl_booted C b')%N) ∨
    (∀ k τ entropy a i, Event k τ entropy a ∈ cl_steps C b' → (τ i ≤ cl_booted C b)%N);
  cluster_unforgeable b k τ entropy to req rg :
    Event k τ entropy (did (AdmissionRpc to req) (Ok rg)) ∈ cl_steps C b →
    ∃ t, (t ≤ τ 0%nat)%N ∧
      (t, record_payload (received_record rg)) ∈ grants_of (cl_steps C (sender (received_record rg)));
  cluster_fresh b k τ entropy g mode r b' t q :
    Event k τ entropy (did (Begin g mode) (Ok r)) ∈ cl_steps C b →
    (t, q) ∈ grants_of (cl_steps C b') → req_nonce q = req_nonce (round_request r) → (τ 0%nat ≤ t)%N
}.

(** The world of [Exclusion] that the histories make. *)
Definition world_of C : World :=
  mkWorld (cl_clock C) (cl_booted C) (cl_config C) (λ b, grants_of (cl_steps C b)).

Lemma driver_new_ok cfg boot nonce d :
  driver_new sock_parse sha256 cfg lease boot (Some nonce) = Ok d →
  controller_new sock_parse sha256 cfg (mkReplicaId (cfg_node_id cfg) nonce) boot (lease_admission_timing lease)
    = Ok (core d) ∧
  authority_new (mkReplicaId (cfg_node_id cfg) nonce) lease boot = Some (driver_authority d).
Proof.
  unfold driver_new. destruct (controller_new _ _ _ _ _ _) as [c|]; [|done]. cbn.
  destruct (authority_new _ _ _) as [a|]; [|done]. by intros [= <-].
Qed.

(** What is known of the node after a part of its history. *)
Lemma node_at_inv C b hs t n :
  cluster_ok C → hs `suffix_of` cl_steps C b → hs ≠ [] → node_at C b hs t n →
  ∃ n0, controller_new sock_parse sha256 (cl_config C b) b (cl_clock C b (cl_booted C b)) (lease_admission_timing lease)
      = Ok (core (driver n0)) ∧
    authority_new b lease (cl_clock C b (cl_booted C b)) = Some (driver_authority (driver n0)) ∧
    history sha256 hmac encode (cl_clock C b) n0 (cl_booted C b) hs t n ∧
    ∀ hs' t' n', history sha256 hmac encode (cl_clock C b) n0 (cl_booted C b) hs' t' n' →
      node_inv sha256 hmac encode (cl_clock C b) n0 hs' t' n'.
Proof.
  intros Hok [l Hs] Hne (d & Hnew & Hh). destruct (cluster_boots C Hok b) as (Hid & _ & _).
  { rewrite Hs. by destruct l. }
  apply driver_new_ok in Hnew as [Hc Ha]. assert (Hb : mkReplicaId (cfg_node_id (cl_config C b)) (boot_nonce b) = b).
  { rewrite Hid. by destruct b. }
  rewrite Hb in Hc, Ha. exists (mkNode d (cl_storage C b)). split_and!; [done..|].
  intros hs' t' n'. apply history_inv; [intros ???; by apply cluster_advance|by apply cluster_storage].
Qed.

Local Abbreviation cluster_world := (world_ok sock_parse sha256 hmac encode roster lease).
Local Abbreviation certified := (certified sock_parse sha256 hmac encode roster lease).

(** A grant of a history was issued by an event. *)
Lemma grant_event hs t q :
  (t, q) ∈ grants_of hs → ∃ k τ entropy signed binding deadline g,
    Event k τ entropy (did (PollGrant signed binding deadline) (Ok (Some g))) ∈ hs ∧ t = τ 3%nat ∧
    q = record_payload signed.
Proof.
  unfold grants_of. intros (s & Hg & Hin)%list_elem_of_bind.
  destruct s as [k τ en [X [e x]]| | |]; cbn in Hg; [|by apply not_elem_of_nil in Hg..].
  destruct e; cbn in Hg; try by apply not_elem_of_nil in Hg.
  destruct x as [[g|]|]; [|by apply not_elem_of_nil in Hg..]. apply list_elem_of_singleton in Hg as [= -> ->]. eauto 10.
Qed.

Lemma event_grant hs k τ entropy signed binding deadline g :
  Event k τ entropy (did (PollGrant signed binding deadline) (Ok (Some g))) ∈ hs →
  (τ 3%nat, record_payload signed) ∈ grants_of hs.
Proof. intros Hin. apply list_elem_of_bind. eexists. split; [|exact Hin]. by left. Qed.

Lemma grants_suffix hs hs' tq : hs `suffix_of` hs' → tq ∈ grants_of hs → tq ∈ grants_of hs'.
Proof. intros [l ->] H. unfold grants_of. rewrite bind_app. apply elem_of_app. by right. Qed.

Lemma history_starts (n0 : Node) clk t0 hs t n :
  history sha256 hmac encode clk n0 t0 hs t n → (t0 ≤ t)%N.
Proof.
  revert t n. induction hs as [|s hs IH]; intros t n; cbn; [intros [-> _]; lia|].
  intros (t' & n' & H & Hl%lasts_le & _). apply IH in H. lia.
Qed.

Lemma cluster_world_ok C : cluster_ok C → cluster_world (world_of C).
Proof.
  intros Hok. split; cbn.
  - apply (cluster_advance C Hok).
  - apply (cluster_rates C Hok).
  - intros b Hg. assert (Hne : cl_steps C b ≠ []) by (by intros He; rewrite He in Hg).
    destruct (cluster_boots C Hok b Hne) as (_ & Hr & t & n & Hn). split; [done|].
    destruct (node_at_inv C b _ t n Hok (reflexivity _) Hne Hn) as (n0 & Hc & _ & Hh & Hinv).
    destruct (Hinv _ _ _ Hh) as [_ _ (u & _ & Hu)]. eauto.
  - intros b t q (k & τ & en & s & bi & de & g & Hin & -> & _)%grant_event.
    assert (Hne : cl_steps C b ≠ []) by (by intros He; rewrite He in Hin; apply not_elem_of_nil in Hin).
    destruct (cluster_boots C Hok b Hne) as (_ & _ & t' & n & d & _ & Hh).
    destruct (history_event _ _ _ _ _ _ _ _ _ _ _ _ _ Hh Hin) as (l2 & l1 & t1 & n1 & n2 & _ & H1 & Hτ & _).
    apply history_starts in H1. specialize (Hτ 3%nat). lia.
  - intros b b' Hp Hne. destruct (cluster_sequential C Hok b b' Hp Hne) as [H|H]; [left|right];
      intros t q (k & τ & en & s & bi & de & g & Hin & -> & _)%grant_event; by eapply H.
Qed.

Lemma sign_payload secret role from to binding (req : AdmissionRequest) r :
  sign hmac encode secret role from to binding req = Ok r → record_payload r = req.
Proof.
  unfold sign. destruct (encode _); [|done]. destruct (sign_admission_record _ _ _ _ _ _); [|done]. by intros [= <-].
Qed.

Lemma poll_payload n signed binding deadline t n' g :
  poll_grant sha256 hmac encode n signed binding deadline t = (n', Ok (Some g)) → record_payload g = record_payload signed.
Proof.
  unfold poll_grant. destruct (run_denied _); [|done]. destruct (issuer_ready _ _ _ _ _) as [n1 [[]|]]; [|done..].
  case_match; [done|]. unfold Controller.reserve. destruct (reserve_until _ _ _ _ _ _ _ _ _); [|done].
  destruct (sign _ _ _ _ _ _ _ _) as [r|] eqn:Hs; [|done]. intros [= _ <-]. by apply sign_payload in Hs.
Qed.

Lemma collect_payloads c req gs ps ex p : collect_grants hmac encode c req gs ps ex = Ok p →
  Forall (λ rg, record_payload (received_record rg) = req) gs.
Proof.
  revert ps ex. induction gs as [|g gs IH]; intros ps ex; cbn [collect_grants]; [constructor|].
  destruct (verify _ _ _ _ _ _ _ _); [|done]. destruct (_ || _ || _) eqn:Hg; [done|]. guards.
  constructor; [done|by eapply IH].
Qed.

Lemma complete_payloads c r grants now r' v :
  complete hmac encode c r grants now = (r', Ok v) →
  Forall (λ rg, record_payload (received_record rg) = round_request r) grants.
Proof.
  unfold complete. case_match; [done|]. destruct (_ || _); [done|]. unfold complete_open.
  destruct (negb _); [done|]. destruct (collect_grants _ _ _ _ _ _ _) as [p|] eqn:Hc; [|done].
  intros _. by eapply collect_payloads.
Qed.

Lemma round_of_nonce r0 r : round_of sha256 r0 r → req_nonce (round_request r) = req_nonce (round_request r0).
Proof.
  induction 1 as [|r applied now r' _ IH H|r p now r' _ IH H]; [done|..].
  - unfold bind_progress in H. case_match; [done|]. by injection H as <-.
  - unfold bind_prepared in H. destruct (plan_validate (plan p)); [|done]. case_match; [done|]. by injection H as <-.
Qed.

Lemma run_denied_ok {A} (r : Result A AdmissionDenied) a : run_denied r = Ok a → r = Ok a.
Proof. by destruct r as [|]; [intros [= ->]|]. Qed.

(** Opening a round does not depend on the reservation. *)
Lemma boot_run_begin c0 es t c g mode now entropy :
  boot_run sha256 hmac encode c0 es t c → begin c g mode now entropy = begin c0 g mode now entropy.
Proof.
  induction 1 as [|es t c signed b st w cn c' r _ IH _ Hres|es t c signed b st w cn c' e _ IH _ Hres]; [done|..];
    apply reserve_shape in Hres as [[-> _]|(? & _ & ->)]; exact IH.
Qed.

(** The events that lead to an admission. *)
Section admitted.
Context C (ok : cluster_ok C) b (hs : list Step) (part : hs `suffix_of` cl_steps C b).

Local Abbreviation history := (history sha256 hmac encode (cl_clock C b)).

Lemma part_admissible n0 k τ entropy X (e : Ev X) x l2 l1 t1 n1 :
  hs = l2 ++ Event k τ entropy (did e x) :: l1 → history n0 (cl_booted C b) l1 t1 n1 →
  admissible sha256 b (events k l1) X e.
Proof.
  intros Heq H1. destruct part as [later Hl]. destruct (cluster_tasks C ok b k) as (A & task & Ht & Hr).
  rewrite Hl, Heq, app_assoc in Hr. eapply (event_admissible _ _ _ _ task); [|exact H1|exact Hr].
  by eapply runtime_task_quiet.
Qed.

(** An obtained grant was issued before, by the boot that signed it. *)
Lemma obtained_granted n0 k l2 l1 t1 n1 rg :
  hs = l2 ++ l1 → history n0 (cl_booted C b) l1 t1 n1 → obtained b (events k l1) rg →
  ∃ u, (u ≤ t1)%N ∧
    (u, record_payload (received_record rg)) ∈ grants_of (cl_steps C (sender (received_record rg))).
Proof.
  intros Heq H1 Ho. destruct part as [later Hl].
  assert (Hsub : ∀ s, s ∈ l1 → s ∈ cl_steps C b) by (intros s Hs; rewrite Hl, Heq; set_solver).
  destruct Ho as [(to & req & Hin)|(Hloc & signed & bi & de & Hin)]; apply events_in in Hin as (τ & en & Hin);
    destruct (history_event _ _ _ _ _ _ _ _ _ _ _ _ _ H1 Hin) as (m2 & m1 & t2 & n2 & n3 & Hm & H2 & Hτ & He).
  - destruct (cluster_unforgeable C ok b k τ en to req rg (Hsub _ Hin)) as (u & Hu & Hg).
    exists u. split; [|done]. specialize (Hτ 0%nat). lia.
  - exists (τ 3%nat). split; [apply Hτ|]. unfold event_effect in He. cbn in He. injection He as He.
    rewrite Hloc, (poll_payload _ _ _ _ _ _ _ He). eapply event_grant, Hsub, Hin.
Qed.

Context (n0 : Node).
Context (new : controller_new sock_parse sha256 (cl_config C b) b (cl_clock C b (cl_booted C b))
  (lease_admission_timing lease) = Ok (core (driver n0))).
Context (inv : ∀ hs' t' n', history n0 (cl_booted C b) hs' t' n' →
  node_inv sha256 hmac encode (cl_clock C b) n0 hs' t' n').
Context (configured : list_to_set (peer_id <$> peers (cl_config C b)) = roster).

(** The controller opens rounds as it did when it booted. *)
Lemma begin_event k τ entropy g mode r l1 t1 n1 :
  history n0 (cl_booted C b) l1 t1 n1 → Event k τ entropy (did (Begin g mode) (Ok r)) ∈ l1 →
  begin (core (driver n0)) g mode (cl_clock C b (τ 0)) entropy = Ok r.
Proof.
  intros H1 Hb.
  destruct (history_event _ _ _ _ _ _ _ _ _ _ _ _ _ H1 Hb) as (l3 & l2 & t2 & n2 & n2' & _ & H2 & _ & He).
  destruct (inv _ _ _ H2) as [_ _ (u & _ & Hrun)]. unfold event_effect in He. cbn in He. injection He as _ He.
  unfold begin_round in He. destruct (run_denied (ensure_running _)); [|done]. apply run_denied_ok in He.
  by rewrite (boot_run_begin _ _ _ _ _ _ _ _ Hrun) in He.
Qed.

Lemma complete_certified k τ entropy r grants r' v l2 l1 t1 n1 n2 :
  let a := did (Complete r grants) (r', Ok v) in
  hs = l2 ++ Event k τ entropy a :: l1 → history n0 (cl_booted C b) l1 t1 n1 → (t1 ≤ τ 0%nat)%N →
  event_effect sha256 hmac encode (cl_clock C b) τ entropy a n1 n2 →
  ∃ s, certified (world_of C) b v s (τ 0%nat).
Proof.
  intros a Heq H1 Hτ He.
  destruct (part_admissible _ _ _ _ _ _ _ _ _ _ _ Heq H1) as [(g & mode & r0 & Hb & Hround) Hgrants].
  apply events_in in Hb as (τb & enb & Hb). pose proof (begin_event _ _ _ _ _ _ _ _ _ H1 Hb) as Hbegin.
  destruct (inv _ _ _ H1) as [_ _ (u & _ & Hrun)].
  unfold event_effect in He. cbn in He. destruct (complete _ _ _ _ _ _) as [r1 v1] eqn:Hcomplete.
  injection He as _ <- Hv. apply run_denied_ok in Hv as ->.
  exists (τb 0%nat), (cl_config C b), (cl_clock C b (cl_booted C b)), (core (driver n0)),
    (on_clock (cl_clock C b) (grants_of l1)), u, (core (driver n1)), g, mode, enb, r0, r, grants, r1.
  split_and!; [done|done|exact Hrun|by rewrite (boot_run_begin _ _ _ _ _ _ _ _ Hrun)|done|done|].
  intros rg Hrg. rewrite Forall_forall in Hgrants.
  destruct (obtained_granted n0 k (l2 ++ [Event k τ entropy a]) l1 t1 n1 rg) as (w & Hw & Hg);
    [by rewrite Heq, <- app_assoc|done|by apply Hgrants|].
  exists w. split; [|exact Hg]. split; [|lia].
  eapply (cluster_fresh C ok b k τb enb g mode r0); [|exact Hg|].
  - destruct part as [l ->]. rewrite Heq. set_solver.
  - apply complete_payloads in Hcomplete. rewrite Forall_forall in Hcomplete. rewrite (Hcomplete rg Hrg).
    by apply round_of_nonce.
Qed.
End admitted.

Lemma accepted_certified C b hs t n k τ entropy v x :
  cluster_ok C → hs `suffix_of` cl_steps C b → node_at C b hs t n →
  Event k τ entropy (did (Accept v) x) ∈ hs → ∃ s e, certified (world_of C) b v s e ∧ (e ≤ t)%N.
Proof.
  intros ok part Hn Hin. assert (Hne : hs ≠ []) by (by intros ->; apply not_elem_of_nil in Hin).
  assert (Hne' : cl_steps C b ≠ []) by (destruct part as [l ->]; by destruct l).
  destruct (cluster_boots C ok b Hne') as (_ & Hroster & _).
  destruct (node_at_inv C b hs t n ok part Hne Hn) as (n0 & Hc0 & _ & Hh & Hinv).
  destruct (history_event _ _ _ _ _ _ _ _ _ _ _ _ _ Hh Hin) as (l2 & l1 & t1 & n1 & n2 & Heq & H1 & Hτ & _).
  destruct (part_admissible C ok b hs part n0 _ _ _ _ _ _ _ _ _ _ Heq H1) as (r & grants & r' & Hc).
  apply events_in in Hc as (τc & enc & Hc).
  destruct (history_event _ _ _ _ _ _ _ _ _ _ _ _ _ H1 Hc) as (m2 & m1 & tc & nc & nc' & Heqc & Hnc & Hτc & Hec).
  destruct (complete_certified C ok b hs part n0 Hc0 Hinv Hroster k τc enc r grants r' v
    (l2 ++ Event k τ entropy (did (Accept v) x) :: m2) m1 tc nc nc') as [s Hs]; [|done| |done|].
  - by rewrite Heq, Heqc, <- app_assoc.
  - apply Hτc.
  - exists s, (τc 0%nat). split; [done|]. specialize (Hτ 0%nat). specialize (Hτc 0%nat). lia.
Qed.

(** The storage of a node is fenced by its certified admissions. *)
Lemma node_fenced C b hs t n s now :
  cluster_ok C → hs `suffix_of` cl_steps C b → node_at C b hs t n → (t ≤ now)%N → admission (storage n) = Some s →
  fenced_storage sock_parse sha256 hmac encode roster lease (world_of C) b (context s) (storage n) now.
Proof.
  intros ok part Hn Ht Hs. assert (Hne : hs ≠ []).
  { intros ->. destruct Hn as (d & _ & _ & ->). cbn in Hs. by rewrite (cluster_storage C ok b) in Hs. }
  destruct (node_at_inv C b hs t n ok part Hne Hn) as (n0 & _ & Ha & Hh & Hinv).
  destruct (Hinv _ _ _ Hh) as [(vs & Hrun & Hoffer) Hf _].
  exists (driver_authority (driver n0)), vs, (driver_authority (driver n)). split_and!; [done|done| |].
  - intros v Hv. destruct (Hoffer v Hv) as (k & τ & en & x & Hin).
    destruct (accepted_certified C b hs t n k τ en v x ok part Hn Hin) as (s' & e & Hc & He).
    exists s', e. split; [done|lia].
  - rewrite Hs. f_equal. by apply Hf.
Qed.

(** C1: split brain is impossible.  Whatever the daemons of a cluster do, with any
    interleaving of their admission tasks with their engines, across restarts and
    with clocks whose rates differ by up to a factor of two: two storages that
    accept a mutation at the same real time have sessions of the same genesis,
    unless [sha256] has a collision. *)
Theorem no_split_brain C (b1 b2 : ReplicaId) (hs1 hs2 : list Step) (t1 t2 now : N) (n1 n2 : Node)
    (s1 s2 : AdmissionSession) :
  lease_derived lease → cluster_ok C →
  hs1 `suffix_of` cl_steps C b1 → node_at C b1 hs1 t1 n1 → (t1 ≤ now)%N →
  hs2 `suffix_of` cl_steps C b2 → node_at C b2 hs2 t2 n2 → (t2 ≤ now)%N →
  admission (storage n1) = Some s1 → admission (storage n2) = Some s2 →
  genesis_wf (context_genesis (context s1)) → genesis_wf (context_genesis (context s2)) →
  check_mutation (storage n1) (cl_clock C b1 now) = Ok tt →
  check_mutation (storage n2) (cl_clock C b2 now) = Ok tt →
  context_genesis (context s1) = context_genesis (context s2) ∨ ∃ x y, x ≠ y ∧ sha256 x = sha256 y.
Proof.
  intros Hlease Hok P1 N1 T1 P2 N2 T2 A1 A2 W1 W2 M1 M2.
  eapply (mutations_exclusive sock_parse sha256 hmac encode roster lease (world_of C) b1 b2 _ _ _ _ now);
    [done|by apply cluster_world_ok|by eapply node_fenced..|done|done|exact M1|exact M2].
Qed.
End cluster.

(** ** An example: two of three members form a cluster

    Both run; the first collects the second's grant, and later grants
    the second's own request. *)

Module Formation.
Local Open Scope N_scope.

Definition tag (m : list N) : list N := be_bytes 32 (of_be_bytes m).
Definition hmac (k : list N) : option (list N → list N) := Some tag.
Definition encode (p : list N * AdmissionRequest) : option (list N) := Some (p.1 ++ req_nonce p.2).
Definition member (i : N) : ReplicaId := mkReplicaId i (zeros 32).
Definition cfg_of (b : ReplicaId) : Config := Demo.cfg <| cfg_node_id := physical_id b |>.
Definition roster : gset N := list_to_set [3; 1; 2].

Definition lease : LeaseTiming := Eval vm_compute in
  match for_config Demo.cfg 2 with Ok l => l | Err _ => mkLeaseTiming 0 0 0 0 0 0 0 end.
Definition fingerprint : ClusterConfigFingerprint := Eval vm_compute in
  match cluster_config_fingerprint Demo.sock_parse tag Demo.cfg with Ok i => i | Err _ => mkClusterConfigFingerprint 0 [] end.

(** Every member booted at 0; rounds start when the quarantine has elapsed. *)
Definition start : N := restart_quarantine lease.

Definition signed (role : N) (from to : ReplicaId) (req : AdmissionRequest) : SignedAdmission AdmissionRequest :=
  mkSignedAdmission from to [9] req (tag (record_message role from to ([9] ++ req_nonce req))).

Definition other (b : ReplicaId) : ReplicaId := member (3 - physical_id b).
Definition status (p : PeerConfig) : Result ClusterStatusResponse RunError :=
  if decide (peer_id p = 3) then Err (Unreachable "no route")
  else Ok (mkClusterStatusResponse (Some (member (peer_id p))) true false None 0 None true (Some fingerprint) true false).

(** The environment of the boot [b]. *)
Definition calls (b : ReplicaId) X (e : Ev (O:=model_openraft) X) : option X :=
  match e in Ev X return option X with
  | ProbeStatus p => Some (status p)
  | ManagementRpc _ Discover => Some (Ok (Discovery None ∅))
  | AdmissionRpc to req => Some (Ok (mkReceivedGrant (signed 11 to b req) to [9]))
  | Entropy => Some (Some [9])
  | TakesReport => Some true
  | Timer | NetworkStopped => Some false
  | NextReady _ => Some 0%nat
  | IsInitialized => Some (Ok false)
  | Initialize _ => Some (Ok tt)
  | _ => None
  end.

Definition node0 (b : ReplicaId) : Node (O:=model_openraft) :=
  mkNode (mkRuntimeDriver (cfg_of b)
            (mkAdmissionController (cfg_of b) roster fingerprint b (lease_admission_timing lease) start None)
            (mkRuntimeAuthority b (Quarantined start) None) b lease 0 false None None None false false false)
         (new_state [] 3 true 0).

Local Abbreviation play b k := (play (O:=model_openraft) tag hmac encode (λ t, t) (calls b) (Some [physical_id b]) k).
Local Abbreviation run b := (run (O:=model_openraft) Demo.sock_parse tag hmac encode (cfg_of b) b lease 0 1 1).
Local Abbreviation dispatch b req := (dispatch (O:=model_openraft) hmac encode (cfg_of b) b lease (other b) [9] req).

Definition cohort : Genesis := 
  match cohort_genesis Demo.sock_parse tag (cfg_of (member 1)) {[member 1; member 2]} with
  | Ok g => g | Err _ => mkGenesis fingerprint 0 ∅ end.
Definition asks (b : ReplicaId) : AdmissionRequest := mkAdmissionRequest b cohort [physical_id b] Cold.

(** The histories: the second member grants the first's request while the first's
    round is open, and the first member the second's when it is admitted itself. *)
Local Abbreviation attached b := (match attach (driver (node0 b)) b with Ok d => mkNode d (storage (node0 b)) | Err _ => node0 b end).
Definition formed : list Step * N * Node := play (member 1) 0%nat (run (member 1)) [Attach (member 1)] start (attached (member 1)).
Definition first : list Step * N * Node :=
  play (member 1) 1%nat (dispatch (member 1) (signed 10 (member 2) (member 1) (asks (member 2))))
    (Engine (storage formed.2) :: formed.1.1) (start + 455) formed.2.
Definition granting : list Step * N * Node :=
  play (member 2) 1%nat (dispatch (member 2) (signed 10 (member 1) (member 2) (asks (member 1))))
    [Attach (member 2)] (start + 60) (attached (member 2)).
Definition second : list Step * N * Node :=
  play (member 2) 0%nat (run (member 2)) (Engine (storage granting.2) :: granting.1.1) (start + 400) granting.2.


Definition cluster : Cluster (O:=model_openraft) := mkCluster (λ _ t, t) (λ _, 0) cfg_of (λ _, new_state [] 3 true 0)
  (λ b, if decide (b = member 1) then first.1.1 else if decide (b = member 2) then second.1.1 else []).

(** What the histories contain. *)
Lemma grants_first : grants_of first.1.1 = [(start + 457, asks (member 2)); (start + 86, asks (member 1))].
Proof. vm_compute. reflexivity. Qed.
Lemma grants_second : grants_of second.1.1 = [(start + 498, asks (member 2)); (start + 62, asks (member 1))].
Proof. vm_compute. reflexivity. Qed.

Definition answer_of {X} (e : Ev (O:=model_openraft) X) : X → option ReceivedGrant :=
  match e with
  | AdmissionRpc _ _ => λ x, match x with Ok rg => Some rg | Err _ => None end
  | _ => λ _, None
  end.
Definition nonce_of {X} (e : Ev (O:=model_openraft) X) : X → option (list N) :=
  match e with
  | Begin _ _ => λ x, match x with Ok r => Some (req_nonce (round_request r)) | Err _ => None end
  | _ => λ _, None
  end.
Definition found {Y} (f : ∀ X, Ev (O:=model_openraft) X → X → option Y) (hs : list Step) : list (N * Y) :=
  omap (λ s, match s with Event _ τ _ a => pair (τ 0%nat) <$> f _ (projT2 a).1 (projT2 a).2 | _ => None end) hs.

Lemma found_in {Y} (f : ∀ X, Ev (O:=model_openraft) X → X → option Y) hs k τ entropy X (e : Ev X) x y :
  Event k τ entropy (did e x) ∈ hs → f X e x = Some y → (τ 0%nat, y) ∈ found f hs.
Proof. intros Hin Hf. apply list_elem_of_omap. eexists. split; [exact Hin|]. cbn. by rewrite Hf. Qed.

Definition answer (from b : ReplicaId) : ReceivedGrant := mkReceivedGrant (signed 11 from b (asks b)) from [9].

Lemma answers_first : found (@answer_of) first.1.1 = [(start + 98, answer (member 2) (member 1))].
Proof. vm_compute. reflexivity. Qed.
Lemma answers_second : found (@answer_of) second.1.1 = [(start + 462, answer (member 1) (member 2))].
Proof. vm_compute. reflexivity. Qed.
Lemma nonces_first : found (@nonce_of) first.1.1 = [(start + 50, [1])].
Proof. vm_compute. reflexivity. Qed.
Lemma nonces_second : found (@nonce_of) second.1.1 = [(start + 450, [2])].
Proof. vm_compute. reflexivity. Qed.

Lemma forallb_elem {A} (f : A → bool) l x : forallb f l = true → x ∈ l → f x = true.
Proof. intros Hf Hx. apply (proj1 (forallb_forall f l) Hf). by apply list_elem_of_In. Qed.

Definition known_after (g : N * AdmissionRequest) : bool :=
  (if bool_decide (req_nonce g.2 = [1]) then start + 50 <=? g.1 else true)
  && (if bool_decide (req_nonce g.2 = [2]) then start + 450 <=? g.1 else true).
Lemma known_one t q : known_after (t, q) = true → req_nonce q = [1] → start + 50 ≤ t.
Proof.
  unfold known_after. cbn [fst snd]. intros [H _]%andb_true_iff Hq. rewrite bool_decide_true in H by exact Hq.
  exact (proj1 (N.leb_le _ _) H).
Qed.
Lemma known_two t q : known_after (t, q) = true → req_nonce q = [2] → start + 450 ≤ t.
Proof.
  unfold known_after. cbn [fst snd]. intros [_ H]%andb_true_iff Hq. rewrite bool_decide_true in H by exact Hq.
  exact (proj1 (N.leb_le _ _) H).
Qed.
Lemma known_first : forallb known_after (grants_of first.1.1) = true.
Proof. vm_compute. reflexivity. Qed.
Lemma known_second : forallb known_after (grants_of second.1.1) = true.
Proof. vm_compute. reflexivity. Qed.

Lemma boots b : b = member 1 ∨ b = member 2 →
  driver_new Demo.sock_parse tag (cfg_of b) lease 0 (Some (boot_nonce b)) = Ok (driver (node0 b)).
Proof.
  intros Hb. assert (Hid : cluster_config_fingerprint Demo.sock_parse tag (cfg_of b) = Ok fingerprint)
    by (destruct Hb as [->| ->]; vm_compute; reflexivity).
  unfold driver_new, controller_new. rewrite Hid. destruct Hb as [->| ->]; reflexivity.
Qed.

(** A step that only lets time pass. *)
Lemma idle (clk : N → Instant) n0 t0 hs t n t' :
  history (O:=model_openraft) tag hmac encode clk n0 t0 hs t n → t ≤ t' →
  history tag hmac encode clk n0 t0 (Engine (Driver.storage n) :: hs) t' n.
Proof.
  intros Hh Ht. assert (Hn : n = n <| Driver.storage := Driver.storage n |>) by by destruct n.
  rewrite Hn at 2. by eapply engine_step.
Qed.

Local Abbreviation history := (history (O:=model_openraft) tag hmac encode (λ t, t)).

Lemma starts b t : history (node0 b) 0 [Attach b] t (attached b).
Proof.
  exists 0, (node0 b). split; [by split|]. split; [apply N.le_0_l|]. unfold effect.
  by destruct (attach (driver (node0 b)) b).
Qed.

Lemma plays {A} b k (tk : task (Ev (O:=model_openraft)) RunError A) n0 hs t n :
  history n0 0 hs t n → history n0 0 (play b k tk hs t n).1.1 (play b k tk hs t n).1.2 (play b k tk hs t n).2.
Proof. apply play_history. Qed.

Lemma formed_at : history (node0 (member 1)) 0 formed.1.1 formed.1.2 formed.2.
Proof. unfold formed. apply plays, starts. Qed.
Lemma first_at : history (node0 (member 1)) 0 first.1.1 first.1.2 first.2.
Proof.
  unfold first. apply plays. eapply idle; [apply formed_at|].
  apply N.leb_le. vm_compute. reflexivity.
Qed.
Lemma granting_at : history (node0 (member 2)) 0 granting.1.1 granting.1.2 granting.2.
Proof. unfold granting. apply plays, starts. Qed.
Lemma second_at : history (node0 (member 2)) 0 second.1.1 second.1.2 second.2.
Proof.
  unfold second. apply plays. eapply idle; [apply granting_at|].
  apply N.leb_le. vm_compute. reflexivity.
Qed.

Local Abbreviation node_at := (node_at (O:=model_openraft) Demo.sock_parse tag hmac encode lease cluster).

Lemma steps_first : cl_steps cluster (member 1) = first.1.1.
Proof. unfold cluster. cbn [cl_steps]. by rewrite decide_True. Qed.
Lemma steps_second : cl_steps cluster (member 2) = second.1.1.
Proof. unfold cluster. cbn [cl_steps]. rewrite decide_False by done. by rewrite decide_True. Qed.

Lemma node_first : node_at (member 1) first.1.1 first.1.2 first.2.
Proof. exists (driver (node0 (member 1))). split; [apply boots; by left|apply first_at]. Qed.
Lemma node_second : node_at (member 2) second.1.1 second.1.2 second.2.
Proof. exists (driver (node0 (member 2))). split; [apply boots; by right|apply second_at]. Qed.

(** The tasks of a history that plays [t] as the task [k] and then [u] as the task [l]. *)
Lemma played {A B} (t : task (Ev (O:=model_openraft)) RunError A) (u : task (Ev (O:=model_openraft)) RunError B)
    b k l at1 at2 n1 n2 id s p q :
  p = play b k t [Attach id] at1 n1 → q = play b l u (Engine s :: p.1.1) at2 n2 → k ≠ l →
  ∀ i, reaches t (events i q.1.1) ∨ reaches u (events i q.1.1) ∨ events i q.1.1 = [].
Proof.
  intros -> -> Hne i.
  destruct (play_events tag hmac encode (λ t, t) (calls b) (Some [physical_id b]) k t [Attach id] at1 n1) as (h & Hh & Hr).
  set (p := play b k t [Attach id] at1 n1) in *.
  destruct (play_events tag hmac encode (λ t, t) (calls b) (Some [physical_id b]) l u (Engine s :: p.1.1) at2 n2)
    as (h' & Hh' & Hr').
  destruct (decide (i = l)) as [->|Hl]; [right; left|].
  - rewrite Hh'. cbn. rewrite app_nil_r. unfold p. by rewrite play_other.
  - rewrite play_other by done. cbn. rewrite app_nil_r.
    destruct (decide (i = k)) as [->|Hk]; [left; by rewrite Hh|].
    right; right. unfold p. by rewrite play_other.
Qed.

Lemma members b : (b = member 1 ∧ cl_steps cluster b = first.1.1) ∨ (b = member 2 ∧ cl_steps cluster b = second.1.1) ∨
  cl_steps cluster b = [].
Proof.
  destruct (decide (b = member 1)) as [->|H1]; [left; split; [done|apply steps_first]|].
  destruct (decide (b = member 2)) as [->|H2]; [right; left; split; [done|apply steps_second]|].
  right; right. unfold cluster. cbn [cl_steps]. by rewrite !decide_False.
Qed.

Local Abbreviation runtime_task b :=
  (runtime_task (O:=model_openraft) Demo.sock_parse tag hmac encode (cfg_of b) b lease 0 (λ _, None) (λ _, None)).

Lemma formed_eq : formed =
  play (member 1) 0%nat (run (member 1)) [Attach (member 1)] start (attached (member 1)).
Proof. reflexivity. Qed.
Lemma first_eq : first =
  play (member 1) 1%nat (dispatch (member 1) (signed 10 (member 2) (member 1) (asks (member 2))))
    (Engine (storage formed.2) :: formed.1.1) (start + 455) formed.2.
Proof. reflexivity. Qed.
Lemma granting_eq : granting =
  play (member 2) 1%nat (dispatch (member 2) (signed 10 (member 1) (member 2) (asks (member 1))))
    [Attach (member 2)] (start + 60) (attached (member 2)).
Proof. reflexivity. Qed.
Lemma second_eq : second =
  play (member 2) 0%nat (run (member 2)) (Engine (storage granting.2) :: granting.1.1) (start + 400) granting.2.
Proof. reflexivity. Qed.

Lemma tasks b i : ∃ A t, runtime_task b A t ∧ reaches t (events i (cl_steps cluster b)).
Proof.
  destruct (members b) as [[-> ->]|[[-> ->]|Hs]]; [| |rewrite Hs].
  - destruct (played _ _ _ _ _ _ _ _ _ _ _ _ _ formed_eq first_eq ltac:(done) i) as [H|[H|H]];
      [eexists _, _; (split; [|exact H])..|]; [apply task_run|apply task_grant|].
    eexists _, _. split; [apply task_activation|]. by rewrite H.
  - destruct (played _ _ _ _ _ _ _ _ _ _ _ _ _ granting_eq second_eq ltac:(done) i) as [H|[H|H]];
      [eexists _, _; (split; [|exact H])..|]; [apply task_grant|apply task_run|].
    eexists _, _. split; [apply task_activation|]. by rewrite H.
  - eexists _, _. split; [apply task_activation|done].
Qed.

Lemma cluster_holds : cluster_ok (O:=model_openraft) Demo.sock_parse tag hmac encode (λ _, None) (λ _, None) roster lease cluster.
Proof.
  split.
  - done.
  - intros b b' t t' Ht. cbn. unfold CLOCK_RATE_RATIO. lia.
  - intros b Hs. destruct (members b) as [[-> ->]|[[-> ->]|He]]; [| |done];
      (split_and!; [done|vm_compute; reflexivity|]); eexists _, _; [apply node_first|apply node_second].
  - done.
  - apply tasks.
  - intros b b' Hp Hne. destruct (members b) as [[-> _]|[[-> _]| ->]]; [| |left; by intros * []%not_elem_of_nil];
      destruct (members b') as [[-> _]|[[-> _]| ->]]; try done; right; by intros * []%not_elem_of_nil.
  - intros b k τ en to req rg Hin. destruct (members b) as [[-> He]|[[-> He]|He]]; rewrite He in Hin.
    + pose proof (found_in (@answer_of) first.1.1 k τ en _ _ _ rg Hin eq_refl) as Hf. rewrite answers_first in Hf.
      apply list_elem_of_singleton, pair_eq in Hf as [-> ->]. exists (start + 62). split; [by vm_compute|].
      change (sender _) with (member 2). rewrite steps_second, grants_second. right. by left.
    + pose proof (found_in (@answer_of) second.1.1 k τ en _ _ _ rg Hin eq_refl) as Hf. rewrite answers_second in Hf.
      apply list_elem_of_singleton, pair_eq in Hf as [-> ->]. exists (start + 457). split; [by vm_compute|].
      change (sender _) with (member 1). rewrite steps_first, grants_first. by left.
    + by apply not_elem_of_nil in Hin.
  - intros b k τ en g mode r b' t q Hin Hg Hn.
    assert (Ht : known_after (t, q) = true).
    { destruct (members b') as [[-> He]|[[-> He]|He]]; rewrite He in Hg;
        [exact (forallb_elem _ _ _ known_first Hg)|exact (forallb_elem _ _ _ known_second Hg)|].
      by apply not_elem_of_nil in Hg. }
    destruct (members b) as [[-> He]|[[-> He]|He]]; rewrite He in Hin; [..|by apply not_elem_of_nil in Hin].
    + pose proof (found_in (@nonce_of) first.1.1 k τ en _ _ _ _ Hin eq_refl) as Hf. rewrite nonces_first in Hf.
      apply list_elem_of_singleton, pair_eq in Hf as [-> Hr]. by apply (known_one _ _ Ht), (eq_trans Hn).
    + pose proof (found_in (@nonce_of) second.1.1 k τ en _ _ _ _ Hin eq_refl) as Hf. rewrite nonces_second in Hf.
      apply list_elem_of_singleton, pair_eq in Hf as [-> Hr]. by apply (known_two _ _ Ht), (eq_trans Hn).
Qed.

(** Both sessions are of the cohort's genesis. *)
Lemma session_first : context <$> admission (Driver.storage first.2) = Some (mkAdmissionContext (member 1) cohort).
Proof. vm_compute. reflexivity. Qed.
Lemma session_second : context <$> admission (Driver.storage second.2) = Some (mkAdmissionContext (member 2) cohort).
Proof. vm_compute. reflexivity. Qed.

Lemma cohort_wf : genesis_wf cohort.
Proof.
  assert (Hv : voters cohort = {[member 1; member 2]}) by (vm_compute; reflexivity).
  split_and!; [vm_compute; reflexivity|vm_compute; reflexivity| |rewrite Hv; vm_compute; reflexivity].
  rewrite Hv. intros r [->%elem_of_singleton| ->%elem_of_singleton]%elem_of_union;
    (split; [by vm_compute|split; [reflexivity|repeat constructor; by vm_compute]]).
Qed.
End Formation.

Lemma no_split_brain_witness :
  ∃ s1 s2, admission (Driver.storage Formation.first.2) = Some s1 ∧ admission (Driver.storage Formation.second.2) = Some s2 ∧
    (context_genesis (context s1) = context_genesis (context s2) ∨ ∃ x y, x ≠ y ∧ Formation.tag x = Formation.tag y).
Proof.
  pose proof Formation.session_first as H1. pose proof Formation.session_second as H2.
  apply fmap_Some in H1 as (s1 & E1 & H1). apply fmap_Some in H2 as (s2 & E2 & H2).
  exists s1, s2. split; [exact E1|]. split; [exact E2|].
  apply (no_split_brain (O:=model_openraft) Demo.sock_parse Formation.tag Formation.hmac Formation.encode
    (λ _, None) (λ _, None) Formation.roster Formation.lease Formation.cluster
    (Formation.member 1) (Formation.member 2) Formation.first.1.1 Formation.second.1.1
    Formation.first.1.2 Formation.second.1.2 (Formation.start + 800)%N Formation.first.2 Formation.second.2 s1 s2).
  - exists Demo.cfg, 2%N. vm_compute. reflexivity.
  - apply Formation.cluster_holds.
  - rewrite Formation.steps_first. reflexivity.
  - apply Formation.node_first.
  - apply N.leb_le. vm_compute. reflexivity.
  - rewrite Formation.steps_second. reflexivity.
  - apply Formation.node_second.
  - apply N.leb_le. vm_compute. reflexivity.
  - exact E1.
  - exact E2.
  - rewrite <- H1. apply Formation.cohort_wf.
  - rewrite <- H2. apply Formation.cohort_wf.
  - vm_compute. reflexivity.
  - vm_compute. reflexivity.
Defined.
