(* ===== verification/NodeTheorems.v ===== *)
(** * What the tasks of a node do

    Theorems about single nodes: the engine is only asked for changes of the
    membership that a prepared join justifies; a health proof is backed by
    progress the node has applied; and VIPs wait for the activation delay. *)

From S2P Require Import Prelude Text Io Encoding Replica Openraft Admission Types VipLogic State StoreMembership.
From S2P Require Import StateMachine LogStore Config Fingerprint Auth Controller Lease LeaseTheorems Exclusion Freshness.
From S2P Require Import Request Authorization Tasks Driver Runtime RuntimeTheorems NodeHistory SplitBrain.

Section node.
Context {O : Openraft}.
Context (sock_parse : Text → option SocketAddr) (sha256 : list N → list N).
Context (hmac : list N → option (list N → list N)).
Context (encode : list N * AdmissionRequest → option (list N)).
Context (encode_request : list N * ManagementRequest → option (list N)).
Context (encode_response : list N * ManagementResponse → option (list N)).
Context (cfg : Config) (local : ReplicaId) (timing : LeaseTiming) (boot : Instant) (clk : N → Instant).

Local Abbreviation history := (history sha256 hmac encode clk).
Local Abbreviation runtime_task :=
  (runtime_task sock_parse sha256 hmac encode cfg local timing boot encode_request encode_response).

(** The node when a task read its storage. *)
Lemma storage_read n0 t0 k st hs t n :
  history n0 t0 hs t n → did ReadStorage st ∈ events k hs →
  ∃ l2 l1 t' n', hs = l2 ++ l1 ∧ history n0 t0 l1 t' n' ∧ (t' ≤ t)%N ∧ storage n' = st.
Proof.
  intros Hh (τ & en & Hin)%events_in.
  destruct (history_event _ _ _ _ _ _ _ _ _ _ _ _ _ Hh Hin) as (l2 & l1 & t1 & n1 & n2 & -> & H1 & Hτ & He).
  exists (l2 ++ [Event k τ en (did ReadStorage st)]), l1, t1, n1. split_and!; [by rewrite <- app_assoc|done| |].
  - specialize (Hτ 0%nat). lia.
  - unfold event_effect in He. cbn in He. by injection He.
Qed.

(** C6: changes of the membership are justified.  Whenever a task of the runtime asks
    the engine to change the voters, to add a learner or to remove one, the node's
    own storage held, at an earlier point of its history, the prepared join that
    this change belongs to: for the voters, one whose learner acknowledged it; for a
    removal, one whose voting transition had not begun.  And the task had found the
    node's admission in force. *)
Theorem proposals_justified n0 t0 later k τ entropy X (e : Ev X) x l1 t n A (tk : task Ev RunError A) :
  let hs := later ++ Event k τ entropy (did e x) :: l1 in
  history n0 t0 hs t n → runtime_task A tk → reaches tk (events k hs) → proposal e = true →
  (∃ m2 m1 t' n', l1 = m2 ++ m1 ∧ history n0 t0 m1 t' n' ∧ justification (storage n') X e) ∧
  (∃ m2 m1 t' n' c now until, l1 = m2 ++ m1 ∧ history n0 t0 m1 t' n' ∧ (t' ≤ now)%N ∧
     (check_session sha256 n' c (clk now)).2 = Ok until).
Proof.
  intros hs Hh Ht Hr Hp. destruct (history_split _ _ _ _ _ _ later _ _ _ Hh) as (_ & n2 & (t1 & n1 & H1 & _) & _).
  assert (Ha : admissible sha256 local (events k l1) X e).
  { eapply (event_admissible _ _ _ _ tk); [by eapply runtime_task_quiet|exact H1|exact Hr]. }
  assert (Hj : justified (events k l1) X e) by (destruct e; try done; by apply Ha).
  destruct Hj as [(c & until & Hc) (st & Hst & Hj)]. split.
  - destruct (storage_read _ _ _ _ _ _ _ H1 Hst) as (m2 & m1 & t' & n' & ? & ? & _ & <-). eauto 10.
  - apply events_in in Hc as (τc & en & Hc).
    destruct (history_event _ _ _ _ _ _ _ _ _ _ _ _ _ H1 Hc) as (m2 & m1 & t' & n' & n3 & -> & Hm & Hτ & He).
    exists (m2 ++ [Event k τc en (did (CheckSession c) (Ok until))]), m1, t', n', c, (τc 0%nat), until.
    split_and!; [by rewrite <- app_assoc|done|apply Hτ|]. unfold event_effect in He. cbn in He.
    destruct (check_session _ _ _ _) as [n4 r] eqn:Hs. cbn. unfold check_session in Hs. injection Hs as _ <-.
    injection He as _ He. by apply run_denied_ok in He.
Qed.

End node.

(** ** An example: the first member of the formed cluster leads

    It promotes the learner 3, and it submits its health. *)

Module Leading.
Import SplitBrain.Formation.
Local Open Scope N_scope.

Definition log (i : N) : LogId := mkLogId (mkLeaderId 1 (member 1)) i.
Definition join : PreparedJoin :=
  mkPreparedJoin (mkJoinPlan cohort (member 3) [3] {[member 1; member 2]} {[member 1; member 2; member 3]})
    (log 4) (Some (log 5)).
Definition progress : AppliedHealthProgress :=
  mkAppliedHealthProgress (mkHealthProgress 1 (Some true) (member 1) (epoch cohort) [1] cohort) (log 6).

(** The engine applies the preparation, the acknowledgement and the progress. *)
Definition apply_logs (s : KafStorageState (O:=model_openraft)) : KafStorageState :=
  s <| state_genesis := Some cohort |> <| State.prepared_join := Some join |>
    <| applied_progress := {[ 1 := progress ]} |> <| last_applied_log := Some (log 6) |>
    <| last_membership := mkStoredMembership model_openraft (Some (log 1))
         (mkModelMembership [{[member 1; member 2]}] {[member 3]} ∅) |>.
Local Abbreviation applied := (apply_logs (Driver.storage first.2)).
Lemma apply_logs_admission s : admission (apply_logs s) = admission s.
Proof. reflexivity. Qed.

Definition serves X (e : Ev (O:=model_openraft) X) : option X :=
  match e in Ev X return option X with
  | CurrentLeader => Some (Some (member 1))
  | LeaderMetrics _ => Some (membership_default (Openraft:=model_openraft), Some 5)
  | ChangeMembership _ => Some (Ok tt)
  | ClientWrite _ => Some (Ok (log 6, KafOk))
  | ManagementRpc _ Discover => Some (Ok (Discovery (Some cohort) ∅))
  | ManagementRpc _ _ => Some (Err (Unreachable "no route"))
  | e => calls (member 1) _ e
  end.

Definition encode_request (p : list N * ManagementRequest) : option (list N) := Some (p.1 ++ management_nonce p.2).
Definition encode_response (p : list N * ManagementResponse) : option (list N) := Some p.1.
Definition asks_promotion : SignedAdmission ManagementRequest :=
  mkSignedAdmission (member 3) (member 1) [9] (mkManagementRequest [7] (ActLearnerReady cohort [3] (log 4)))
    (tag (record_message REQUEST_ROLE (member 3) (member 1) [9; 7])).

Local Abbreviation play tk := (play (O:=model_openraft) tag hmac encode (λ t, t) serves (Some [1]) 2 tk
  (Engine applied :: first.1.1) (start + 1000) (first.2 <| Driver.storage := applied |>)).
Local Abbreviation management :=
  (management (O:=model_openraft) hmac encode_request encode_response (cfg_of (member 1)) (member 1) (member 3) [9] asks_promotion).
Local Abbreviation renews :=
  (renew_admission (O:=model_openraft) Demo.sock_parse tag hmac encode (cfg_of (member 1)) (member 1) lease (Some true)).

Definition promoting : list Step * N * Node := play management.

Lemma base : history (O:=model_openraft) tag hmac encode (λ t, t) (node0 (member 1)) 0 (Engine applied :: first.1.1)
  (start + 1000) (first.2 <| Driver.storage := applied |>).
Proof.
  apply (engine_step tag hmac encode (λ t, t) _ _ _ first.1.2); [apply first_at| |apply apply_logs_admission].
  apply N.leb_le. vm_compute. reflexivity.
Qed.

Lemma promoting_at : history (O:=model_openraft) tag hmac encode (λ t, t) (node0 (member 1)) 0 promoting.1.1 promoting.1.2 promoting.2.
Proof. unfold promoting. apply play_history, base. Qed.

Lemma no_third : events 2 (Engine applied :: first.1.1) = [].
Proof. rewrite events_engine, first_eq, play_other, events_engine, formed_eq, play_other by done. reflexivity. Qed.

Lemma promoting_reaches : reaches management (events 2 promoting.1.1).
Proof.
  destruct (play_events (O:=model_openraft) tag hmac encode (λ t, t) serves (Some [1]) 2 management
    (Engine applied :: first.1.1) (start + 1000) (first.2 <| Driver.storage := applied |>)) as (h & Hh & Hr).
  rewrite no_third in Hh. unfold promoting. rewrite Hh. exact Hr.
Qed.


Definition change_of (s : Step (O:=model_openraft)) : option (nat * gset ReplicaId) :=
  match s with
  | Event k _ _ a => match (projT2 a).1 with ChangeMembership vs => Some (k, vs) | _ => None end
  | _ => None
  end.
Lemma change_of_event s k vs :
  change_of s = Some (k, vs) → ∃ τ entropy x, s = Event k τ entropy (did (ChangeMembership vs) x).
Proof. destruct s as [k' τ en [X [e x]]| | |]; cbn; [|done..]. destruct e; try done. intros [= -> ->]. by eexists _, _, _. Qed.

Lemma change_event : (promoting.1.1 !! 2%nat ≫= change_of) = Some (2%nat, {[member 1; member 2; member 3]}).
Proof. vm_cast_no_check (eq_refl (Some (2%nat, {[member 1; member 2; member 3]} : gset ReplicaId))). Qed.
End Leading.

Lemma proposals_justified_witness :
  ∃ m2 m1 t' n', drop 3 Leading.promoting.1.1 = m2 ++ m1 ∧
    history (O:=model_openraft) Formation.tag Formation.hmac Formation.encode (λ t, t) (Formation.node0 (Formation.member 1)) 0 m1 t' n' ∧
    justification (Driver.storage n') _ (ChangeMembership {[Formation.member 1; Formation.member 2; Formation.member 3]}).
Proof.
  pose proof Leading.change_event as He. apply bind_Some in He as (s & He & Hs).
  apply Leading.change_of_event in Hs as (τ & en & x & ->). pose proof (take_drop_middle _ _ _ He) as Hsplit.
  pose proof Leading.promoting_at as Hh. pose proof Leading.promoting_reaches as Hr. rewrite <- Hsplit in Hh, Hr.
  destruct (proposals_justified (O:=model_openraft) Demo.sock_parse Formation.tag Formation.hmac Formation.encode
    Leading.encode_request Leading.encode_response (Formation.cfg_of (Formation.member 1)) (Formation.member 1)
    Formation.lease 0%N (λ t, t) _ _ _ _ _ _ _ _ _ _ _ _ _ _ Hh (task_management _ _ _ _ _ _ _ _ _ _ _ _ _) Hr eq_refl)
    as [H _]. exact H.
Defined.

