(* ===== verification/Recovery.v ===== *)
(** * Recovery of stalled joins

    [observe_pending] remembers when the learner of a prepared join last made
    progress.  The theorem relates what it remembers to the history of the node: a
    join is only given up when nothing was observed for a whole reservation. *)

From S2P Require Import Prelude Text Io Encoding Replica Openraft Admission Types VipLogic State StoreMembership.
From S2P Require Import StateMachine LogStore Config Fingerprint Auth Controller Lease LeaseTheorems Exclusion Freshness.
From S2P Require Import Request Authorization Tasks Driver Runtime RuntimeTheorems NodeHistory SplitBrain.

Section recovery.
Context {O : Openraft}.
Context (sha256 : list N → list N) (hmac : list N → option (list N → list N)).
Context (encode : list N * AdmissionRequest → option (list N)) (clk : N → Instant).

Local Abbreviation section := (section sha256 hmac encode).
Local Abbreviation history := (history sha256 hmac encode clk).

(** ** What keeps the observation *)

Definition keeps (n n' : Node) : Prop :=
  pending_progress (driver n') = pending_progress (driver n) ∧ driver_timing (driver n') = driver_timing (driver n).

Lemma keeps_authority n a : keeps n (with_authority sha256 n a).
Proof. by split. Qed.
Lemma keeps_trans n1 n2 n3 : keeps n1 n2 → keeps n2 n3 → keeps n1 n3.
Proof. unfold keeps. intros [-> ->] [-> ->]. done. Qed.

Lemma keeps_check n c now : keeps n (check_authority sha256 n c now).1.
Proof. unfold check_authority. by destruct (authority_check _ _ _ _). Qed.

Lemma keeps_coherent n now check_now : keeps n (coherent sha256 n now check_now).1.
Proof.
  unfold coherent. destruct (admission _) as [s|]; [|done].
  pose proof (keeps_check n (context s) now) as H. destruct (check_authority _ _ _ _) as [n1 [|]]; [|done].
  pose proof (keeps_check n1 (context s) check_now) as H1. unfold check_session. cbv zeta.
  destruct (session_check _ _); cbn [fst] in *; by eapply keeps_trans.
Qed.

Lemma keeps_accept n v t0 t1 t2 t3 : keeps n (accept_admission sha256 n v t0 t1 t2 t3).1.
Proof.
  unfold accept_admission. destruct (run_denied _) as [[]|]; [|done]. destruct (accept _ _ _ _ _) as [a [s|]]; [|done]. cbv zeta.
  destruct (verified_mode v); (destruct (admission _); [done|]); by destruct (bind_admission _ _ _).
Qed.

Lemma keeps_promote n now : keeps n (promote sha256 n now).1.
Proof.
  unfold promote. destruct (bootstrap_join _); [|done]. case_match; [done|]. cbv zeta.
  by destruct (mark_promoted _ _ _ _ _) as [a []].
Qed.

Lemma keeps_ready n req now check_now : keeps n (issuer_ready sha256 n req now check_now).1.
Proof.
  unfold issuer_ready. destruct (req_mode req) as [| |[l|]]; try done. destruct (admission (storage n)) as [s|]; [|done].
  pose proof (keeps_check n (context s) now) as H. destruct (check_authority _ _ _ _) as [n1 [|]]; [|done].
  pose proof (keeps_check n1 (context s) check_now) as H1. unfold check_session. cbv zeta.
  destruct (session_check _ _); cbn [fst] in *; by eapply keeps_trans.
Qed.

Lemma keeps_poll n signed binding deadline t : keeps n (poll_grant sha256 hmac encode n signed binding deadline t).1.
Proof.
  unfold poll_grant. destruct (run_denied _); [|done].
  pose proof (keeps_ready n (record_payload signed) (t 0) (t 1)) as H.
  destruct (issuer_ready _ _ _ _ _) as [n1 [[]|]]; [|done..]. case_match; [done|].
  destruct (reserve _ _ _ _ _ _ _ _ _) as [c r]. by eapply keeps_trans.
Qed.

Definition observes {X} (e : Ev X) : bool :=
  match e with ObservePending _ _ | ClearPending => true | _ => false end.

Lemma section_keeps {X} (e : Ev X) t entropy n n' x :
  section e t entropy n = Some (n', x) → observes e = false → keeps n n'.
Proof.
  assert (Hq : ∀ m : Node * X, keeps n m.1 → Some m = Some (n', x) → keeps n n') by (by intros m Hm [= ->]).
  intros Hs Ho. revert Hs. destruct e; cbn; try done; try (apply Hq; cbn; first
    [done|apply keeps_authority|apply keeps_check|apply keeps_accept|apply keeps_promote|apply keeps_poll]).
  - pose proof (keeps_coherent n (t 0) (t 1)) as H. destruct (coherent _ _ _ _). by apply Hq.
  - destruct (complete _ _ _ _ _ _). by apply Hq.
  - apply Hq. cbn. unfold report_admission_once_voting. destruct (bool_decide _); [done|]. cbn. by case_match.
Qed.

(** ** Observations *)

(** What one observation of a join says: the operation, the index the learner has
    replicated and the index of its acknowledgement. *)
Definition observation (s : Step) : option (JoinBinding * option N * option N) :=
  match s with
  | Event _ _ _ a =>
      match (projT2 a).1 with
      | ObservePending p matched => Some (from_prepared sha256 p, matched, index <$> learner_applied p)
      | _ => None
      end
  | _ => None
  end.

Definition clears (s : Step) : bool :=
  match s with Event _ _ _ a => match (projT2 a).1 with ClearPending => true | _ => false end | _ => false end.

(** A step after which the learner still has not got beyond what [pp] says. *)
Definition no_progress (pp : PendingProgress) (s : Step) : Prop :=
  clears s = false ∧ ∀ op m a, observation s = Some (op, m, a) →
    op = operation pp ∧ opt_gt m (matched_index pp) = false ∧ opt_gt a (acknowledged_index pp) = false.

(** What is remembered goes back to an observation at [since]; nothing after it shows
    progress beyond the indices, and those were observed by then. *)
Definition remembers (hs : list Step) (pp : PendingProgress) : Prop :=
  ∃ l2 s l1 k τ entropy a m ack,
    hs = l2 ++ s :: l1 ∧ s = Event k τ entropy a ∧ observation s = Some (operation pp, m, ack) ∧
    since pp = clk (τ 0) ∧ Forall (no_progress pp) l2 ∧
    (∃ s' ack', s' ∈ s :: l1 ∧ observation s' = Some (operation pp, matched_index pp, ack')) ∧
    (∃ s' m', s' ∈ s :: l1 ∧ observation s' = Some (operation pp, m', acknowledged_index pp)).

Lemma remembers_step hs pp s : remembers hs pp → no_progress pp s → remembers (s :: hs) pp.
Proof.
  intros (l2 & s0 & l1 & k & τ & en & a & m & ack & -> & Hs0 & Ho & Hsince & Hl & Hm & Ha) Hn.
  exists (s :: l2), s0, l1, k, τ, en, a, m, ack. split_and!; try done. by constructor.
Qed.

(** The acknowledgement that an observed join carries. *)
Definition ack_index (p : PreparedJoin) : option N := index <$> learner_applied p.

Lemma elapsed_ok (r : Result Instant AdmissionDenied) (now : Instant) :
  (dl <-? run_denied r; Ok (dl <=? now)%N)%kaf = Ok true → ∃ dl, r = Ok dl ∧ (dl ≤ now)%N.
Proof. destruct r as [dl|]; cbn; intros [= Hle]. exists dl. split; [done|by apply N.leb_le]. Qed.

Lemma observe_shape (d : RuntimeDriver) p matched now since_now d' r :
  observe_pending sha256 d p matched now since_now = (d', r) →
  ∃ pp, pending_progress d' = Some pp ∧ driver_timing d' = driver_timing d ∧ operation pp = from_prepared sha256 p ∧
    (r = Ok true → ∃ dl, reservation_deadline (lease_admission_timing (driver_timing d)) (since pp) = Ok dl ∧ (dl ≤ now)%N) ∧
    ((pending_progress d = Some pp ∧ opt_gt matched (matched_index pp) = false ∧
      opt_gt (ack_index p) (acknowledged_index pp) = false) ∨
     (since pp = since_now ∧
      ((matched_index pp = matched ∧ acknowledged_index pp = ack_index p) ∨
       ∃ old, pending_progress d = Some old ∧ operation old = operation pp ∧
         matched_index pp = opt_max (matched_index old) matched ∧
         acknowledged_index pp = opt_max (acknowledged_index old) (ack_index p)))).
Proof.
  unfold observe_pending. fold (ack_index p). intros Hd.
  destruct (pending_progress d) as [old|]; [case_bool_decide as Hop|].
  2,3: injection Hd as <- <-; eexists; split; [reflexivity|]; split_and!; [done|done|done|]; right; split; [done|by left].
  destruct (opt_gt matched _ || opt_gt (ack_index p) _) eqn:Hgt; injection Hd as <- <-;
    (eexists; split; [reflexivity|]; split; [done|]; split; [exact Hop|]); cbn [since].
  - split; [apply elapsed_ok|]. right. split; [done|]. right. by exists old.
  - apply orb_false_iff in Hgt as [Hm Ha]. split; [apply elapsed_ok|]. by left.
Qed.

(** ** The invariant *)

(** What a step does to the observation. *)
Lemma effect_pending s n n' :
  effect sha256 hmac encode clk s n n' →
  driver_timing (driver n') = driver_timing (driver n) ∧
  ((clears s = true ∧ pending_progress (driver n') = None) ∨
   (clears s = false ∧ observation s = None ∧ pending_progress (driver n') = pending_progress (driver n)) ∨
   ∃ k τ entropy p m r, s = Event k τ entropy (did (ObservePending p m) r) ∧
     observe_pending sha256 (driver n) p m (clk (τ 1)) (clk (τ 0)) = (driver n', r)).
Proof.
  destruct s as [k τ en [X [e x]]|st|id|]; cbn.
  - unfold event_effect. cbn. destruct (is_call e) eqn:Hc.
    { intros ->. split; [done|]. right; left. by destruct e. }
    intros Hs. destruct (observes e) eqn:Ho.
    + destruct e; try done; cbn in Hs.
      * destruct (observe_pending _ _ _ _ _ _) as [d r] eqn:Hd. injection Hs as <- <-. cbn. split.
        -- apply observe_shape in Hd as (? & _ & ? & _). done.
        -- right; right. by exists k, τ, en, p, matched, r.
      * injection Hs as <- <-. cbn. split; [done|]. by left.
    + apply section_keeps in Hs as [Hp Ht]; [|done]. split; [done|]. right; left. by destruct e.
  - intros [_ ->]. split; [done|]. right; left. done.
  - intros ->. unfold attach. destruct (run_denied _); [cbn|by split; [|right; left]].
    do 2 (destruct (ensure _ _); [cbn|by split; [|right; left]]). by split; [|right; left].
  - intros ->. by split; [|right; left].
Qed.

Lemma observed_step hs s k τ entropy p m r d d' :
  s = Event k τ entropy (did (ObservePending p m) r) →
  observe_pending sha256 d p m (clk (τ 1)) (clk (τ 0)) = (d', r) →
  (∀ pp, pending_progress d = Some pp → remembers hs pp) →
  ∀ pp, pending_progress d' = Some pp → remembers (s :: hs) pp.
Proof.
  intros Hs Hd Hold pp Hpp. apply observe_shape in Hd as (pp' & Hpp' & _ & Hop & _ & Hcase).
  rewrite Hpp in Hpp'. injection Hpp' as <-.
  assert (Hobs : observation s = Some (operation pp, m, ack_index p)) by (by rewrite Hs, Hop).
  destruct Hcase as [(Hsame & Hm & Ha)|(Hsince & Hcase)].
  - apply remembers_step; [by apply Hold|]. split; [by subst s|]. intros op m' a'. rewrite Hobs. by intros [= <- <- <-].
  - exists [], s, hs, k, τ, entropy, (did (ObservePending p m) r), m, (ack_index p).
    assert (Hhere : s ∈ s :: hs) by by left.
    split_and!; [done|done|done|done|constructor| |].
    + destruct Hcase as [[-> _]|(old & Ho & Hopo & -> & _)]; [by eexists _, _|]. unfold opt_max. case_match; [|by eexists _, _].
      destruct (Hold old Ho) as (l2 & s0 & l1 & k0 & τ0 & en0 & a0 & m0 & ack0 & -> & _ & _ & _ & _ & (s' & ack' & Hin & Hs') & _).
      exists s', ack'. rewrite <- Hopo. split; [|done]. right. apply elem_of_app. by right.
    + destruct Hcase as [[_ ->]|(old & Ho & Hopo & _ & ->)]; [by eexists _, _|]. unfold opt_max. case_match; [|by eexists _, _].
      destruct (Hold old Ho) as (l2 & s0 & l1 & k0 & τ0 & en0 & a0 & m0 & ack0 & -> & _ & _ & _ & _ & _ & (s' & m' & Hin & Hs')).
      exists s', m'. rewrite <- Hopo. split; [|done]. right. apply elem_of_app. by right.
Qed.

Lemma history_remembers n0 t0 hs t n :
  pending_progress (driver n0) = None → history n0 t0 hs t n →
  driver_timing (driver n) = driver_timing (driver n0) ∧ ∀ pp, pending_progress (driver n) = Some pp → remembers hs pp.
Proof.
  intros H0. revert t n. induction hs as [|s hs IH]; intros t n; cbn.
  { intros [_ ->]. split; [done|]. intros pp Hpp. congruence. }
  intros (t' & n' & Hh & _ & He). apply IH in Hh as [Ht Hr].
  apply effect_pending in He as [Ht' [[_ Hc]|[(Hc & Ho & Hp)|(k & τ & en & p & m & r & Hs & Hd)]]];
    (split; [congruence|]); intros pp Hpp.
  - congruence.
  - apply remembers_step; [apply Hr; congruence|]. split; [done|]. rewrite Ho. done.
  - by eapply observed_step.
Qed.

(** C35: a join is only given up when its learner is stalled.  When [observe_pending]
    answers that a join makes no progress, some observation of the same join lies a
    whole reservation back; and since then no observation, and no reset, showed a
    replicated or acknowledged index beyond those seen until then. *)
Theorem cancellation_waits n0 t0 hs t n k τ entropy p m :
  let s := Event k τ entropy (did (ObservePending p m) (Ok true)) in
  pending_progress (driver n0) = None → history n0 t0 (s :: hs) t n →
  ∃ pp d, operation pp = from_prepared sha256 p ∧ remembers (s :: hs) pp ∧
    reservation_deadline (lease_admission_timing (driver_timing (driver n0))) (since pp) = Ok d ∧ (d ≤ clk (τ 1%nat))%N.
Proof.
  intros s H0 (t' & n' & Hh & _ & He). pose proof Hh as Hh'. apply history_remembers in Hh' as [Ht Hr]; [|done].
  cbn in He. unfold event_effect in He. cbn in He.
  destruct (observe_pending _ _ _ _ _ _) as [d r] eqn:Hd. injection He as <- ->.
  pose proof (observe_shape _ _ _ _ _ _ _ Hd) as (pp & Hpp & _ & Hop & Hdl & _).
  destruct (Hdl eq_refl) as (dl & Hdl' & Hle). rewrite Ht in Hdl'. exists pp, dl. split_and!; [done| |done|done].
  by eapply (observed_step hs s).
Qed.
End recovery.

(** ** An example: a learner that stalls at index 3 *)

Module Stalled.
Import SplitBrain.Formation.
Local Open Scope N_scope.

Definition join : PreparedJoin :=
  mkPreparedJoin (mkJoinPlan cohort (member 3) [3] {[member 1; member 2]} {[member 1; member 2; member 3]})
    (mkLogId (mkLeaderId 1 (member 1)) 4) None.

Local Abbreviation observe d t := (observe_pending tag d join (Some 3) t t).
Definition seen (t : N) (r : bool) : Step := Event 0 (λ _, t) None (did (ObservePending join (Some 3)) (Ok r)).

Lemma observe_step n0 t0 hs t n t' r :
  history (O:=model_openraft) tag hmac encode (λ t, t) n0 t0 hs t n → t ≤ t' → (observe (driver n) t').2 = Ok r →
  history (O:=model_openraft) tag hmac encode (λ t, t) n0 t0 (seen t' r :: hs) t'
    (n <| driver := (observe (driver n) t').1 |>).
Proof.
  intros Hh Ht Hr. exists t, n. split; [done|]. split; [split; [done|intros _; lia]|]. cbn. unfold event_effect. cbn.
  destruct (observe_pending _ _ _ _ _ _) as [d r']. cbn in Hr |- *. by rewrite Hr.
Qed.

Definition first_seen : Node := node0 (member 1) <| driver := (observe (driver (node0 (member 1))) 10).1 |>.
Definition expiry : N := 10 + issuer_reservation lease.
End Stalled.

Lemma cancellation_waits_witness : ∃ pp d,
  operation pp = from_prepared Formation.tag Stalled.join ∧
  remembers Formation.tag (λ t, t) [Stalled.seen Stalled.expiry true; Stalled.seen 10 false] pp ∧
  reservation_deadline (lease_admission_timing Formation.lease) (since pp) = Ok d ∧ (d ≤ Stalled.expiry)%N.
Proof.
  eapply (cancellation_waits (O:=model_openraft) Formation.tag Formation.hmac Formation.encode (λ t, t)
    (Formation.node0 (Formation.member 1)) 0); [reflexivity|].
  apply (Stalled.observe_step _ _ _ 10 Stalled.first_seen).
  - apply (Stalled.observe_step _ _ _ 0); [by split|by vm_compute|vm_compute; reflexivity].
  - by vm_compute.
  - vm_compute. reflexivity.
Defined.
