(* ===== verification/Routing.v ===== *)
(** * Finding the leader

    [route] follows redirections among the boots it was given.  It asks every boot
    at most once, so the number of its iterations is bounded by the number of boots,
    and the fuel of its model is never used up. *)

From S2P Require Import Prelude Text Io Encoding Replica Openraft Admission Types VipLogic State StoreMembership.
From S2P Require Import StateMachine LogStore Config Fingerprint Auth Controller Lease Freshness.
From S2P Require Import Request Authorization Tasks Driver Runtime.

(** ** Runs of composed tasks *)

Section runs.
Context {Ev : Type → Type} {E : Type}.

Lemma runs_bind {A B} (k : A → task Ev E B) (t : task Ev E A) h r :
  runs (task_bind k t) h r ↔
  ∃ h1 h2 x, h = h1 ++ h2 ∧ runs t h1 x ∧
    match x with Ok a => runs (k a) h2 r | Err e => h2 = [] ∧ r = Err e end.
Proof.
  revert h. induction t as [[a|e]|X e f IH]; intros h; cbn.
  - split; [intros Hr; by exists [], h, (Ok a)|]. intros (h1 & h2 & x & -> & H1 & H2).
    destruct h1; [|done]. by subst x.
  - split.
    + destruct h; [|done]. intros <-. by exists [], [], (Err e).
    + intros (h1 & h2 & x & -> & H1 & H2). destruct h1; [|done]. subst x. by destruct H2 as [-> ->].
  - split.
    + destruct h as [|a h]; [done|]. intros (x & -> & Hr). apply IH in Hr as (h1 & h2 & y & -> & H1 & H2).
      exists (did e x :: h1), h2, y. split_and!; [done|by exists x|done].
    + intros (h1 & h2 & y & -> & H1 & H2). destruct h1 as [|a h1]; [done|]. destruct H1 as (x & -> & H1).
      exists x. split; [done|]. apply IH. eauto 10.
Qed.

Lemma runs_outcome {A} (t : task Ev E A) h r : runs (outcome t) h r ↔ ∃ x, r = Ok x ∧ runs t h x.
Proof.
  revert h. induction t as [x|X e f IH]; intros h; cbn.
  - destruct h; [|by split; [|intros (? & ? & ?)]]. split; [intros <-; eauto|]. by intros (y & -> & ->).
  - destruct h as [|a h]; [by split; [|intros (? & ? & ?)]|]. split.
    + intros (x & -> & Hr). apply IH in Hr as (y & -> & Hr). eauto.
    + intros (y & -> & x & -> & Hr). exists x. split; [done|]. apply IH. eauto.
Qed.

(** Tasks with the same runs. *)
Definition same_runs {A} (t t' : task Ev E A) : Prop := ∀ h r, runs t h r ↔ runs t' h r.

Lemma same_bind {A B} (k k' : A → task Ev E B) (t : task Ev E A) :
  (∀ a, same_runs (k a) (k' a)) → same_runs (task_bind k t) (task_bind k' t).
Proof.
  intros Hk h r. rewrite !runs_bind.
  split; (intros (h1 & h2 & [x|e] & ? & ? & H2); exists h1, h2; [exists (Ok x)|exists (Err e)]; split_and!; try tauto);
    by apply Hk.
Qed.

(** Runs whose events satisfy a condition. *)
Lemma safe_events {A} V (P : ∀ X, Ev X → Prop) Q (t : task Ev E A) h0 h r :
  safe V (λ _, P) Q h0 t → runs t h r → Forall (allowed V) h → Forall (λ a, P (projT1 a) (projT2 a).1) h.
Proof.
  revert t h0. induction h as [|a h IH]; intros [x|X e k] h0 Hs Hr Hv; cbn in Hr; [constructor|done|done|].
  destruct Hs as [He Hs], Hr as (x & -> & Hr). apply Forall_cons in Hv as [Hx Hv].
  constructor; [done|]. by eapply IH; [apply Hs|..].
Qed.
End runs.

Section routing.
Context {O : Openraft} (cfg : Config) (local : ReplicaId) (a : ManagementAction) (candidates : gset ReplicaId).

Local Abbreviation route_from fuel := (route_from cfg local fuel a candidates).

(** ** Fuel *)

(** What is left to do: the entries of [pending], and a push for every boot that
    has not been asked. *)
Definition remaining (pending : list ReplicaId) (visited : gset ReplicaId) : nat :=
  length pending + size (candidates ∖ visited).

Lemma remaining_visit peer pending visited :
  peer ∈ candidates → peer ∉ visited →
  S (S (remaining pending ({[peer]} ∪ visited))) = remaining (peer :: pending) visited.
Proof.
  intros Hc Hv. unfold remaining.
  assert (Hs : candidates ∖ visited = {[peer]} ∪ candidates ∖ ({[peer]} ∪ visited)).
  { apply set_eq. intros x. destruct (decide (x = peer)) as [->|]; set_solver. }
  assert (Hsize : size (candidates ∖ visited) = S (size (candidates ∖ ({[peer]} ∪ visited)))).
  { rewrite Hs at 1. rewrite size_union by set_solver. by rewrite size_singleton. }
  rewrite Hsize. cbn. lia.
Qed.

(** More fuel than what is left to do changes nothing. *)
Lemma route_fuel fuel fuel' pending visited :
  (∀ x, x ∈ pending → x ∈ candidates) → remaining pending visited ≤ fuel → remaining pending visited ≤ fuel' →
  same_runs (route_from fuel pending visited) (route_from fuel' pending visited).
Proof.
  revert fuel' pending visited. induction fuel as [|fuel IH]; intros fuel' pending visited Hin Hf Hf'.
  { unfold remaining in Hf. destruct pending; [|cbn in Hf; lia]. by destruct fuel'. }
  destruct pending as [|peer pending]; [by destruct fuel'|].
  destruct fuel' as [|fuel']; [unfold remaining in Hf'; cbn in Hf'; lia|]. cbn [Runtime.route_from].
  assert (Hin' : ∀ x, x ∈ pending → x ∈ candidates) by (intros; apply Hin; by right).
  destruct (bool_decide_reflect (peer ∈ visited)) as [Hv|Hv].
  { apply IH; [done|..]; unfold remaining in *; cbn in *; lia. }
  pose proof (remaining_visit peer pending visited (Hin peer ltac:(by left)) Hv) as Hr.
  apply same_bind. intros [result|e].
  - destruct result; try done. case_bool_decide; apply IH; try done; unfold remaining in *; cbn in *; try lia.
    intros x [->|Hx]%elem_of_cons; auto.
  - case_match; [done|]. apply IH; [done|..]; lia.
Qed.

(** ** Every boot is asked at most once *)

(** The boots that were sent the action. *)
Definition target (e : answered Ev) : option ReplicaId :=
  match (projT2 e).1 with ManagementRpc to _ => Some to | _ => None end.
Definition asked (h : list (answered Ev)) : list ReplicaId := omap target h.

Definition silent X (e : Ev X) : Prop := match e with ManagementRpc _ _ => False | _ => True end.

Local Abbreviation mute := (quiet (λ X (_ : Ev X) (_ : X), True) (λ _, silent)).

Local Ltac mute :=
  repeat first
    [ progress intros | done | solve [eauto 3 with mute]
    | apply quiet_guarded; [by intros ? ? ? ?|..]
    | apply quiet_outcome | apply quiet_bind | apply quiet_ret | apply quiet_do; [done|] | case_match ].
Create HintDb mute discriminated.

Lemma mute_within {A} (t : task Ev RunError A) : mute A t → mute A (within_admission t).
Proof. unfold within_admission, admission_gate. mute. Qed.
#[local] Hint Resolve mute_within : mute.
Lemma mute_coherent : mute _ coherent_session.
Proof. apply mute_within. mute. Qed.
#[local] Hint Resolve mute_coherent : mute.
Lemma mute_commit req : mute _ (commit req).
Proof. unfold commit. mute. Qed.
#[local] Hint Resolve mute_commit : mute.
Lemma mute_manage peer : mute _ (manage cfg local peer a).
Proof.
  unfold manage, prepare_join, learner_ready, promote_learner, commit_progress, cancel_join, node_address, of_option. mute.
Qed.

Lemma silent_asked h : Forall (λ e : answered Ev, silent (projT1 e) (projT2 e).1) h → asked h = [].
Proof.
  induction 1 as [|[X [e x]] h He _ IH]; [done|]. cbn. unfold asked in IH. destruct e; cbn in *; done.
Qed.

(** Asking one boot. *)
Lemma ask_runs peer h x :
  runs (if bool_decide (peer = local) then timed "local management timed out" (manage cfg local peer a)
        else attempt_ev (ManagementRpc peer a)) h x →
  asked h = [] ∨ (peer ≠ local ∧ asked h = [peer]).
Proof.
  case_bool_decide as Hl; intros Hr.
  - left. apply silent_asked. eapply (safe_events (λ X (_ : Ev X) (_ : X), True) silent _ _ [] h); [|exact Hr|].
    + apply (quiet_guarded _ _ _ _); [by intros ? ? ? ?|unfold tick; mute|apply mute_manage].
    + by apply Forall_forall.
  - right. split; [done|]. destruct h as [|e [|]]; [done| |]; destruct Hr as (y & -> & Hr); [|done]. done.
Qed.

Lemma route_from_once fuel pending visited h r :
  (∀ x, x ∈ pending → x ∈ candidates) → runs (route_from fuel pending visited) h r →
  NoDup (asked h) ∧ ∀ x, x ∈ asked h → x ∈ candidates ∧ x ≠ local ∧ x ∉ visited.
Proof.
  revert pending visited h. induction fuel as [|fuel IH]; intros pending visited h Hin Hr.
  { destruct h; [|done]. split; [constructor|]. by intros x ?%not_elem_of_nil. }
  destruct pending as [|peer pending]. { destruct h; [|done]. split; [constructor|]. by intros x ?%not_elem_of_nil. }
  cbn [Runtime.route_from] in Hr. assert (Hin' : ∀ x, x ∈ pending → x ∈ candidates) by (intros; apply Hin; by right).
  destruct (bool_decide_reflect (peer ∈ visited)) as [Hv|Hv]; [by eapply IH|].
  apply runs_bind in Hr as (h1 & h2 & y & -> & H1 & H2). apply runs_outcome in H1 as (x & -> & H1).
  assert (H2' : NoDup (asked h2) ∧ ∀ x, x ∈ asked h2 → x ∈ candidates ∧ x ≠ local ∧ x ∉ {[peer]} ∪ visited).
  { assert (Hend : ∀ z : Result ManagementResult RunError, runs (Ret z) h2 r → asked h2 = []) by (intros z; by destruct h2).
    assert (Hnone : asked h2 = [] → NoDup (asked h2) ∧ ∀ x, x ∈ asked h2 → x ∈ candidates ∧ x ≠ local ∧ x ∉ {[peer]} ∪ visited).
    { intros ->. split; [constructor|]. by intros z ?%not_elem_of_nil. }
    destruct x as [result|e].
    - destruct result; try by apply Hnone, (Hend _ H2). eapply IH; [|exact H2]. case_bool_decide; [|done].
      intros z [->|Hz]%elem_of_cons; auto.
    - case_match; [by apply Hnone, (Hend _ H2)|]. by eapply IH. }
  destruct H2' as [Hnd Hall]. apply ask_runs in H1. unfold asked in *. rewrite omap_app.
  destruct H1 as [->|[Hl ->]]; cbn.
  - split; [done|]. intros z Hz. destruct (Hall z Hz) as (? & ? & ?). set_solver.
  - split; [constructor; [|done]; intros Hp; destruct (Hall peer Hp) as (_ & _ & Hn); set_solver|].
    intros z [->|Hz]%elem_of_cons; [split_and!; [apply Hin; by left|done|done]|].
    destruct (Hall z Hz) as (? & ? & ?). set_solver.
Qed.
End routing.

Section route.
Context {O : Openraft} (cfg : Config) (local : ReplicaId).

(** C36: [route] terminates and asks no boot twice.  More iterations than those the
    model allows would change nothing; and a run of [route] sends the request to
    boots among the given ones, to each at most once, and never to itself. *)
Theorem route_asks_once (a : ManagementAction) (candidates : gset ReplicaId) h r :
  runs (route cfg local a candidates) h r →
  (∀ extra, runs (route_from cfg local (3 * size candidates + extra) a candidates (reverse (btree_keys candidates)) ∅) h r) ∧
  NoDup (asked h) ∧ ∀ x, x ∈ asked h → x ∈ candidates ∧ x ≠ local.
Proof.
  intros Hr. assert (Hin : ∀ x, x ∈ reverse (btree_keys candidates) → x ∈ candidates).
  { intros x Hx. rewrite elem_of_reverse in Hx. by apply elem_of_btree_keys in Hx. }
  assert (Hrem : remaining candidates (reverse (btree_keys candidates)) ∅ ≤ 3 * size candidates).
  { unfold remaining. rewrite length_reverse, length_btree_keys, difference_empty_L. lia. }
  split; [intros extra; eapply (route_fuel cfg local a candidates (3 * size candidates)); [done|lia|lia|exact Hr]|].
  destruct (route_from_once cfg local a candidates _ _ _ _ _ Hin Hr) as [Hnd Hall].
  split; [done|]. intros x Hx. by destruct (Hall x Hx) as (? & ? & _).
Qed.
End route.

(** ** An example: the third boot redirects to the first, which answers *)

Module Redirected.
Definition member (i : N) : ReplicaId := mkReplicaId i (zeros 32).
Definition candidates : gset ReplicaId := {[member 1; member 3]}.
Definition answers : list (answered (Ev (O:=model_openraft))) :=
  [ did (ManagementRpc (member 3) Discover) (Ok (Redirect (member 1)));
    did (ManagementRpc (member 1) Discover) (Ok (Discovery None ∅)) ].

(** A boot that is asked over the network. *)
Lemma asks {O : Openraft} cfg local a cs fuel peer pending visited x h r :
  peer ∉ visited → peer ≠ local →
  runs (match x with
        | Ok (Redirect target) =>
            route_from cfg local fuel a cs (if bool_decide (target ∈ cs) then target :: pending else pending) ({[peer]} ∪ visited)
        | Ok result => mret result
        | Err e =>
            if match a with ActProgress p => bool_decide (is_Some (healthy p)) | _ => false end
               && bool_decide (failure_kind e = PublicationRejected)
            then fail e else route_from cfg local fuel a cs pending ({[peer]} ∪ visited)
        end) h r →
  runs (route_from cfg local (S fuel) a cs (peer :: pending) visited) (did (ManagementRpc peer a) x :: h) r.
Proof.
  intros Hv Hl Hr. cbn [route_from]. rewrite !bool_decide_false by done. exists x. split; [done|]. exact Hr.
Qed.

Lemma routed : runs (route Demo.cfg (member 2) Discover candidates) answers (Ok (Discovery None ∅)).
Proof.
  unfold route. assert (Hk : reverse (btree_keys candidates) = [member 3; member 1]) by (vm_compute; reflexivity).
  assert (Hs : size candidates = 2) by (vm_compute; reflexivity). rewrite Hk, Hs. cbn [Nat.mul Nat.add]. unfold answers.
  apply (asks Demo.cfg (member 2) Discover candidates 5 (member 3) [member 1] ∅ (Ok (Redirect (member 1)))).
  { apply not_elem_of_empty. }
  { intros [=]. }
  rewrite bool_decide_true by (unfold candidates; set_solver).
  apply (asks Demo.cfg (member 2) Discover candidates 4 (member 1) [member 1] _ (Ok (Discovery None ∅))); [|done|reflexivity].
  rewrite union_empty_r_L, elem_of_singleton. done.
Qed.
End Redirected.

Lemma route_asks_once_witness : NoDup (asked Redirected.answers).
Proof.
  apply (route_asks_once (O:=model_openraft) Demo.cfg (Redirected.member 2) Discover Redirected.candidates
    Redirected.answers (Ok (Discovery None ∅)) Redirected.routed).
Defined.
