(* ===== verification/VipCommands.v ===== *)
(** * Kernel commands for VIPs
    (src/vip/effects.rs, src/vip/ownership.rs, src/vip/command.rs, src/process.rs)

    The ip(8) commands that change an address or its ownership marker, with the
    arguments they are run with, and the queries that verify them.  The tool
    itself is an interface: what a command may change and what a query may
    answer, with the documented behaviour the code relies on as laws.  The
    children that run the commands are counted from the moment their caller
    stops waiting for them until they are reaped. *)

From S2P Require Import Prelude Text Io Types Config.

(** ** Commands *)

(** The commands that change the kernel. *)
Inductive IpCommand :=
| AddrReplace (ip : IpAddr) (prefix : N) (iface : Text)
| AddrDel (ip : IpAddr) (prefix : N) (iface : Text)
| MarkerReplace (ip : IpAddr) (protocol : N)
| MarkerDel (ip : IpAddr) (protocol : N).

#[global] Instance IpCommand_eq_dec : EqDecision IpCommand.
Proof. solve_decision. Defined.

(** The queries. *)
Inductive IpQuery :=
| PresenceProbe (ip : IpAddr)
| AddrShow
| RouteShow (ipv6 : bool).

(** The address a command is about. *)
Definition command_ip (c : IpCommand) : IpAddr :=
  match c with
  | AddrReplace ip _ _ | AddrDel ip _ _ | MarkerReplace ip _ | MarkerDel ip _ => ip
  end.

(** [VIP_MARKER_ROUTE_TABLE_BASE] and [marker_route_table]. *)
Definition VIP_MARKER_ROUTE_TABLE_BASE : N := 10000.
Definition marker_route_table (protocol : N) : Text := decimal (VIP_MARKER_ROUTE_TABLE_BASE + protocol).

(** [ip_family]. *)
Definition ip_family (ip : IpAddr) : Text := if is_ipv4 ip then text "-4" else text "-6".

Section arguments.
Context (ip_render : IpAddr → Text).

Definition cidr (ip : IpAddr) (prefix : N) : Text := ip_render ip ++ text "/" ++ decimal prefix.

(** [bind_command_arguments]: an IPv6 VIP is added deprecated and without duplicate detection. *)
Definition bind_command_arguments (ip : IpAddr) (prefix : N) (iface : Text) : list Text :=
  [ip_family ip; text "addr"; text "replace"; cidr ip prefix; text "dev"; iface]
  ++ if is_ipv4 ip then [] else [text "nodad"; text "preferred_lft"; text "0"].

(** [delete_command]. *)
Definition delete_command (ip : IpAddr) (prefix : N) (iface : Text) : list Text :=
  [ip_family ip; text "addr"; text "del"; cidr ip prefix; text "dev"; iface].

(** [marker_route_arguments]. *)
Definition marker_route_arguments (operation : Text) (ip : IpAddr) (protocol : N) : list Text :=
  [ip_family ip; text "route"; operation; text "table"; marker_route_table protocol; text "throw";
   cidr ip (if is_ipv4 ip then 32 else 128); text "proto"; decimal protocol].

(** [marker_route_replace_arguments] and [marker_route_delete_arguments]. *)
Definition marker_route_replace_arguments := marker_route_arguments (text "replace").
Definition marker_route_delete_arguments := marker_route_arguments (text "del").

(** The arguments of a command. *)
Definition command_arguments (c : IpCommand) : list Text :=
  match c with
  | AddrReplace ip prefix iface => bind_command_arguments ip prefix iface
  | AddrDel ip prefix iface => delete_command ip prefix iface
  | MarkerReplace ip protocol => marker_route_replace_arguments ip protocol
  | MarkerDel ip protocol => marker_route_delete_arguments ip protocol
  end.

(** [presence_probe_target]: the bare address, whatever the configured prefix. *)
Definition presence_probe_target (ip : IpAddr) (configured_prefix : N) : Text := ip_render ip.

(** [presence_probe_command]. *)
Definition presence_probe_command (ip : IpAddr) (configured_prefix : N) : list Text :=
  [ip_family ip; text "-o"; text "addr"; text "show"; text "to"; presence_probe_target ip configured_prefix].

(** [discovery_command_arguments]. *)
Definition discovery_command_arguments : list Text := [text "-N"; text "-j"; text "addr"; text "show"].

(** [marker_discovery_command_arguments], and [marker_route_probe_arguments] of an address of that family. *)
Definition marker_discovery_command_arguments (ipv6 : bool) : list Text :=
  [text "-N"; text "-j"; if ipv6 then text "-6" else text "-4"; text "route"; text "show"; text "table"; text "all"].
Definition marker_route_probe_arguments (ip : IpAddr) : list Text :=
  [text "-N"; text "-j"; ip_family ip; text "route"; text "show"; text "table"; text "all"].

(** The arguments of a query. *)
Definition query_arguments (q : IpQuery) : list Text :=
  match q with
  | PresenceProbe ip => presence_probe_command ip 0
  | AddrShow => discovery_command_arguments
  | RouteShow ipv6 => marker_discovery_command_arguments ipv6
  end.
End arguments.

(** ** The tool *)

(** [std::process::Output]; of an [ExitStatus] only [success()] is read. *)
Record Output := mkOutput { output_success : bool; output_stdout : list N; output_stderr : list N }.

(** ip(8) on a host: [changes h c st h'] is a run of the command [c] that exits
    with [st]; [answers h q o] an output of the query; [drifts] a change by
    someone else. *)
Class IpTool := {
  Host : Type;
  attached : Host → IpAddr → N → Text → Prop;
  marked : Host → IpAddr → N → Prop;
  changes : Host → IpCommand → bool → Host → Prop;
  answers : Host → IpQuery → Output → Prop;
  drifts : Host → Host → Prop
}.

(** What the code relies on: only [addr replace] adds an address, and only the
    one it names; a successful [addr del] leaves its address absent; [addr show]
    that succeeds with no output found the address nowhere; and nobody else adds
    an address, so [drifts] leaves out what other programs do to addresses that are not
    the daemon's. *)
Class IpToolLaws `{IpTool} := {
  changes_attached h c st h' ip p i :
    changes h c st h' → attached h' ip p i → attached h ip p i ∨ c = AddrReplace ip p i;
  del_detaches h ip p i h' : changes h (AddrDel ip p i) true h' → ¬ attached h' ip p i;
  probe_absent h ip o : answers h (PresenceProbe ip) o → output_success o = true → output_stdout o = [] →
    ∀ p i, ¬ attached h ip p i;
  drifts_attached h h' ip p i : drifts h h' → attached h' ip p i → attached h ip p i
}.

(** ** Children *)

(** The [io::Error] of a command: its kind, and whether its payload is [DeadlineMissed]. *)
Record CommandError := mkCommandError { command_error_kind : ErrorKind; deadline_payload : bool }.

(** [deadline_missed] and [missed_deadline]. *)
Definition deadline_missed (kind : ErrorKind) : CommandError := mkCommandError kind true.
Definition missed_deadline (e : CommandError) : bool :=
  bool_decide (command_error_kind e = TimedOut) || deadline_payload e.

(** [timed_out_error]: [reap] is the wait after the kill, or [None] when it timed out too. *)
Definition timed_out_error (reap : option (Result bool CommandError)) : CommandError :=
  match reap with
  | Some (Ok _) => mkCommandError TimedOut false
  | Some (Err _) | None => mkCommandError OtherError false
  end.

(** How the wait for a child ended: with an exit status, with an error, at the
    timeout, or because the caller was dropped. *)
Inductive Wait :=
| Exited (st : bool)
| WaitFailed (e : CommandError)
| WaitTimedOut
| WaitCancelled.

(** [GroupedChild::wait_status_or_cancel]: the result, and whether the child was reaped.
    [cleanup] is the error of killing the process group, if any. *)
Definition wait_status_or_cancel (wait : Wait) (cleanup : option CommandError)
    (reap : option (Result bool CommandError)) : Result bool CommandError * bool :=
  let reaped := match reap with Some (Ok _) => true | _ => false end in
  match wait, cleanup with
  | Exited st, None => (Ok st, true)
  | Exited st, Some e => (Err e, true)
  | WaitFailed e, None => (Err e, false)
  | WaitFailed _, Some e => (Err e, false)
  | WaitTimedOut, None => (Err (deadline_missed (command_error_kind (timed_out_error reap))), reaped)
  | WaitTimedOut, Some e => (Err e, false)
  | WaitCancelled, None => (Err (mkCommandError Interrupted false), reaped)
  | WaitCancelled, Some e => (Err e, false)
  end.

(** [TrackedChildren]. *)
Record TrackedChildren := mkTracked { unsettled : nat; lost : bool }.

(** [ChildTracker::begin], [settle], [lose] and [is_settled]. *)
Definition begin (t : TrackedChildren) : TrackedChildren := mkTracked (S (unsettled t)) (lost t).
Definition settle (t : TrackedChildren) : TrackedChildren := mkTracked (unsettled t - 1) (lost t).
Definition lose (t : TrackedChildren) : TrackedChildren := mkTracked (unsettled t) true.
Definition is_settled (t : TrackedChildren) : bool := unsettled t =? 0.

(** [RunPhase]. *)
Inductive RunPhase := WaitedFor | Abandoned | Finished.

#[global] Instance RunPhase_eq_dec : EqDecision RunPhase.
Proof. solve_decision. Defined.

(** A child that runs a command, with the phase of its [TrackedRun], the exit
    status once the command ran, and whether it was reaped. *)
Record Run := mkRun {
  run_command : IpCommand;
  run_phase : RunPhase;
  run_exit : option bool;
  run_reaped : bool;
  run_result : option (Result bool CommandError)
}.

(** [TrackedRun::new]. *)
Definition run_new (c : IpCommand) : Run := mkRun c WaitedFor None false None.

(** [TrackedRun::abandon]: the caller was dropped before the result. *)
Definition run_abandon (r : Run) (t : TrackedChildren) : Run * TrackedChildren :=
  match run_phase r with
  | WaitedFor => (mkRun (run_command r) Abandoned (run_exit r) (run_reaped r) (run_result r), begin t)
  | _ => (r, t)
  end.

(** [TrackedRun::finish]: the waiter is done with the child, which is reaped or lost. *)
Definition run_finish (r : Run) (result : Result bool CommandError) (reaped : bool) (t : TrackedChildren)
  : Run * TrackedChildren :=
  let t := match run_phase r, reaped with
           | Abandoned, true => settle t
           | WaitedFor, false => begin t
           | _, _ => t
           end in
  let t := if reaped then t else lose t in
  (mkRun (run_command r) Finished (run_exit r) reaped (Some result), t).

