(* ===== verification/Ownership.v ===== *)
(** * Ownership markers and crash discovery (src/vip/ownership.rs, src/vip/effects.rs)

    A marker is a throw route in a routing table of the daemon's own, so that a
    later process can attribute an address to it.  The decoded JSON output of
    ip(8) is parsed here: which addresses and marker routes belong to the
    instance with a given protocol number. *)

From S2P Require Import Prelude Text Types Config VipCommands.
Local Open Scope kaf_scope.

(** ** Ordered keys of the inventories *)

Fixpoint lex_le (a b : list N) : Prop :=
  match a, b with
  | [], _ => True
  | _ :: _, [] => False
  | x :: a, y :: b => (x < y)%N ∨ x = y ∧ lex_le a b
  end.

#[global] Instance lex_le_dec : RelDecision lex_le.
Proof. intros a. induction a as [|x a IH]; intros [|y b]; simpl; apply _. Defined.

#[global] Instance lex_le_trans : Transitive lex_le.
Proof.
  intros a. induction a as [|x a IH]; intros [|y b] [|z c]; simpl; try done.
  intros [Hxy|[-> Hab]] [Hyz|[-> Hbc]]; [left; lia|by left..|]. right. eauto.
Qed.

#[global] Instance lex_le_antisymm : AntiSymm (=) lex_le.
Proof.
  intros a. induction a as [|x a IH]; intros [|y b]; simpl; try done.
  intros [Hxy|[-> Hab]] [Hyx|[? Hba]]; try lia. f_equal. by apply IH.
Qed.

#[global] Instance lex_le_total : Total lex_le.
Proof.
  intros a. induction a as [|x a IH]; intros [|y b]; simpl; auto.
  destruct (N.lt_trichotomy x y) as [?|[->|?]]; auto. destruct (IH b); auto.
Qed.

(** [String] and tuples in their derived order. *)
#[global] Instance Text_ordkey : OrdKey (list N) := {| kle := lex_le |}.

Definition pair_le {A B} `{OrdKey A, OrdKey B} (p q : A * B) : Prop :=
  kle p.1 q.1 ∧ (p.1 = q.1 → kle p.2 q.2).

#[global] Instance pair_ordkey {A B} `{EqDecision A, OrdKey A, OrdKey B} : OrdKey (A * B).
Proof.
  refine {| kle := pair_le |}.
  - intros p q. unfold pair_le. apply _.
  - intros p q r [H1 H2] [H3 H4]. split; [by etrans|]. intros Heq.
    assert (p.1 = q.1) as Hpq by (apply (anti_symm kle); [done|by rewrite Heq]).
    etrans; [by apply H2|]. apply H4. congruence.
  - intros [a b] [c d] [H1 H2] [H3 H4]. simpl in *.
    assert (a = c) as -> by by apply (anti_symm kle). f_equal. apply (anti_symm kle); auto.
  - intros [a b] [c d]. unfold pair_le. simpl. destruct (decide (a = c)) as [->|Hne].
    + pose proof (kle_refl c). destruct (kle_total b d); auto.
    + destruct (kle_total a c); [left|right]; split; congruence.
Defined.

(** ** Kernel values *)

(** [serde_json::Value]: a number with its [as_u64], a string, or something else. *)
Inductive Value :=
| Number (as_u64 : option N)
| String (t : Text)
| OtherValue.

(** The digit of [char::to_digit(16)]. *)
Definition hex_digit (c : char) : option N :=
  if is_digit c then Some (c - 48)%N
  else if ((97 <=? c) && (c <=? 102))%N then Some (c - 87)%N
  else if ((65 <=? c) && (c <=? 70))%N then Some (c - 55)%N
  else None.

(** [from_str_radix(_, 16)] and [parse] of an unsigned integer of at most [max]. *)
Definition skip_plus (t : Text) : Text :=
  match t with c :: t' => if (c =? 43)%N then t' else t | [] => t end.
Definition from_hex (max : N) (t : Text) : option N :=
  digits ← mapM hex_digit (skip_plus t);
  if bool_decide (digits = []) then None
  else let n := foldl (λ acc d, acc * 16 + d)%N 0%N digits in if (n <=? max)%N then Some n else None.
Definition parse_unsigned (max : N) (t : Text) : option N :=
  n ← parse_digits (skip_plus t); if (n <=? max)%N then Some n else None.

(** [strip_prefix("0x")]. *)
Definition strip_0x (t : Text) : option Text :=
  match t with a :: b :: t => if (a =? 48)%N && (b =? 120)%N then Some t else None | _ => None end.

(** The number in a string of the kernel: hexadecimal after [0x], else decimal. *)
Definition kernel_number (max : N) (t : Text) : option N :=
  match hex ← strip_0x t; from_hex max hex with
  | Some n => Some n
  | None => parse_unsigned max t
  end.

Inductive DiscoveryError :=
| Undecodable | EmptyInterface | BadProtocol | MissingFields | BadAddress | BadFamily | BadPrefix
| BadTable | MissingDestination | NotThrow | NotHostRoute | ManyInterfaces | CommandFailure.

(** [is_keepafloatd_protocol]. *)
Definition is_keepafloatd_protocol (protocol : option Value) (address_protocol : N) : Result bool DiscoveryError :=
  match protocol with
  | None => Ok false
  | Some (Number n) =>
      match n with
      | Some v => if (v <=? 255)%N then Ok (v =? address_protocol)%N else Err BadProtocol
      | None => Err BadProtocol
      end
  | Some (String t) => Ok (bool_decide (kernel_number 255 t = Some address_protocol))
  | Some OtherValue => Err BadProtocol
  end.

(** [numeric_kernel_value]. *)
Definition numeric_kernel_value (value : option Value) : Result (option N) DiscoveryError :=
  match value with
  | None => Ok None
  | Some (Number (Some n)) => Ok (Some n)
  | Some (String t) => match kernel_number u64_max t with Some n => Ok (Some n) | None => Err BadTable end
  | Some (Number None) | Some OtherValue => Err BadTable
  end.

(** [is_throw_route]. *)
Definition is_throw_route (route_type : option Value) : bool :=
  match route_type with
  | Some (Number n) => bool_decide (n = Some 9%N)
  | Some (String t) => bool_decide (t = text "throw") || bool_decide (t = text "9")
  | _ => false
  end.

(** ** Inventories *)

(** [AddressInfo], [InterfaceAddresses] and [MarkerRouteInfo]. *)
Record AddressInfo := mkAddressInfo {
  info_family : option Text;
  info_local : option Text;
  info_prefixlen : option N;
  info_protocol : option Value
}.
Record InterfaceAddresses := mkInterfaceAddresses { ifname : Text; addr_info : list AddressInfo }.
Record MarkerRouteInfo := mkMarkerRouteInfo {
  route_dst : option Text;
  route_table : option Value;
  route_protocol : option Value;
  route_type : option Value
}.

(** [AddressInventory], and [OwnershipDiscovery]. *)
Notation AddressInventory := (gmap (IpAddr * Text) (VipAddr * Text)).
Record OwnershipDiscovery := mkOwnershipDiscovery {
  discovered_addresses : list (VipAddr * Text);
  marker_routes : list IpAddr
}.

Section parsing.
Context (ip_parse : Text → option IpAddr).
Context (decode_addresses : list N → option (list InterfaceAddresses)).
Context (decode_routes : list N → option (list MarkerRouteInfo)).

(** [serde_json::from_slice]. *)
Definition from_slice {A} (decode : list N → option A) (json : list N) : Result A DiscoveryError :=
  match decode json with Some a => Ok a | None => Err Undecodable end.

(** The address of one entry, or [None] for an entry without identity fields. *)
Definition address_of (info : AddressInfo) (marked : bool) : Result (option VipAddr) DiscoveryError :=
  match info_local info, info_family info, info_prefixlen info with
  | Some local, Some family, Some prefixlen =>
      match ip_parse local with
      | None => Err BadAddress
      | Some address =>
          ensure (bool_decide (family = if is_ipv4 address then text "inet" else text "inet6")) BadFamily ;?
          ensure (prefixlen <=? host_prefix address)%N BadPrefix ;?
          Ok (Some (mkVipAddr address prefixlen))
      end
  | _, _, _ => ensure (negb marked) MissingFields ;? Ok None
  end.

(** One address of an interface, added to the two inventories. *)
Definition inventory_entry (address_protocol : N) (interface : Text) (info : AddressInfo)
    (inventories : AddressInventory * AddressInventory) : Result (AddressInventory * AddressInventory) DiscoveryError :=
  marked <-? is_keepafloatd_protocol (info_protocol info) address_protocol;
  found <-? address_of info marked;
  match found with
  | None => Ok inventories
  | Some vip =>
      let key := (addr vip, interface) in
      let insert_at := <[key := (vip, interface)]> in
      Ok (insert_at inventories.1, if marked then insert_at inventories.2 else inventories.2)
  end.

Fixpoint foldr_result {A B E} (f : B → A → Result A E) (l : list B) (a : A) : Result A E :=
  match l with
  | [] => Ok a
  | b :: l => a <-? f b a; foldr_result f l a
  end.

(** [parse_address_inventory]: every address, and those that carry the protocol number. *)
Definition parse_address_inventory (json : list N) (address_protocol : N)
  : Result (AddressInventory * AddressInventory) DiscoveryError :=
  interfaces <-? from_slice decode_addresses json;
  foldr_result (λ interface inventories,
      ensure (negb (bool_decide (ifname interface = []))) EmptyInterface ;?
      foldr_result (inventory_entry address_protocol (ifname interface)) (addr_info interface) inventories)
    interfaces (∅, ∅).

(** The destination of a marked route. *)
Definition marker_destination (ipv6 : bool) (route : MarkerRouteInfo) : Result IpAddr DiscoveryError :=
  match route_dst route with
  | None => Err MissingDestination
  | Some destination =>
      ensure (is_throw_route (route_type route)) NotThrow ;?
      let '(address_text, prefix) :=
        match split_once 47%N destination with Some (a, p) => (a, Some p) | None => (destination, None) end in
      match ip_parse address_text with
      | None => Err BadAddress
      | Some address =>
          ensure (Bool.eqb (negb (is_ipv4 address)) ipv6) BadFamily ;?
          match prefix with
          | None => Ok address
          | Some p =>
              match parse_u8 p with
              | None => Err BadPrefix
              | Some n => ensure (n =? if ipv6 then 128 else 32)%N NotHostRoute ;? Ok address
              end
          end
      end
  end.

(** One route, added to the markers found. *)
Definition marker_entry (address_protocol : N) (ipv6 : bool) (route : MarkerRouteInfo) (marked : gset IpAddr)
  : Result (gset IpAddr) DiscoveryError :=
  table <-? numeric_kernel_value (route_table route);
  if negb (bool_decide (table = Some (u64_saturating_add VIP_MARKER_ROUTE_TABLE_BASE address_protocol)))
  then Ok marked
  else
    own <-? is_keepafloatd_protocol (route_protocol route) address_protocol;
    if negb own then Ok marked
    else address <-? marker_destination ipv6 route; Ok ({[address]} ∪ marked).

(** [parse_marker_routes]. *)
Definition parse_marker_routes (json : list N) (address_protocol : N) (ipv6 : bool)
  : Result (list IpAddr) DiscoveryError :=
  routes <-? from_slice decode_routes json;
  marked <-? foldr_result (marker_entry address_protocol ipv6) routes ∅; Ok (btree_keys marked).

(** The owner of a marked address: its single interface, if it is attached at all. *)
Definition claim_marked (addresses : AddressInventory) (address : IpAddr) (owned : AddressInventory)
  : Result AddressInventory DiscoveryError :=
  match filter (λ kt : (IpAddr * Text) * (VipAddr * Text), kt.1.1 = address) (btree_iter addresses) with
  | [] => Ok owned
  | [(key, target)] => Ok (<[key := target]> owned)
  | _ => Err ManyInterfaces
  end.

(** [parse_ownership_discovery]; the two lists of markers are sorted together, without repetition. *)
Definition parse_ownership_discovery (address_json ipv4_route_json ipv6_route_json : list N) (address_protocol : N)
  : Result OwnershipDiscovery DiscoveryError :=
  inventories <-? parse_address_inventory address_json address_protocol;
  v4 <-? parse_marker_routes ipv4_route_json address_protocol false;
  v6 <-? parse_marker_routes ipv6_route_json address_protocol true;
  let marker_routes := btree_keys (list_to_set (v4 ++ v6) : gset IpAddr) in
  owned <-? foldr_result (claim_marked inventories.1) marker_routes inventories.2;
  Ok (mkOwnershipDiscovery (btree_iter owned).*2 marker_routes).

(** [merge_cleanup_targets]: what the kernel reports replaces the configured prefix. *)
Definition merge_cleanup_targets (configured discovered : list (VipAddr * Text)) : list (VipAddr * Text) :=
  let insert_target (targets : AddressInventory) (t : VipAddr * Text) := <[(addr t.1, t.2) := t]> targets in
  (btree_iter (foldl insert_target (foldl insert_target ∅ configured) discovered)).*2.

(** ** Outputs *)

(** [ensure_discovery_succeeded]. *)
Definition ensure_discovery_succeeded (o : Output) : Result unit DiscoveryError :=
  ensure (output_success o) CommandFailure.

(** [parse_discovery_outputs]. *)
Definition parse_discovery_outputs (addresses ipv4_routes ipv6_routes : Output) (address_protocol : N)
  : Result OwnershipDiscovery DiscoveryError :=
  ensure_discovery_succeeded addresses ;?
  ensure_discovery_succeeded ipv4_routes ;?
  ensure_discovery_succeeded ipv6_routes ;?
  parse_ownership_discovery (output_stdout addresses) (output_stdout ipv4_routes) (output_stdout ipv6_routes)
    address_protocol.

(** [failed_marker_delete_is_absent]. *)
Definition failed_marker_delete_is_absent (o : Output) (address : IpAddr) (address_protocol : N)
  : Result bool DiscoveryError :=
  ensure_discovery_succeeded o ;?
  markers <-? parse_marker_routes (output_stdout o) address_protocol (negb (is_ipv4 address));
  Ok (negb (bool_decide (address ∈ markers))).
End parsing.
