(* ===== verification/LocalVip.v ===== *)
(** * The addresses of this host
    (src/vip.rs, src/vip/effects.rs, src/vip/ownership.rs, src/vip/startup.rs,
    src/vip/witness.rs, src/vip/reconcile/worker.rs, src/main.rs)

    [LocalVip] as asynchronous tasks: every lock it takes, every command it runs
    and every check of its permission is one event, and other tasks may run
    between two events.  A bind may be dropped at any event, also while one of
    its commands runs.  The turn of a worker runs these tasks and hands what they
    returned to the decisions of the worker; the shutdown runs the same cleanup
    over the whole table. *)

From S2P Require Import Prelude Text Io Types Config Openraft State Freshness Takeover Worker Tasks VipCommands Ownership.
Local Open Scope kaf_scope.

(** The three sets of addresses of [LocalVip]. *)
Inductive Tracking := Bound | PendingFirstBind | NeedsRecleanup.

#[global] Instance Tracking_eq_dec : EqDecision Tracking.
Proof. solve_decision. Defined.

(** The errors: one of a command, which [downcast_ref] finds, or a message. *)
Inductive VipError :=
| CommandFailed (e : CommandError)
| Refused (message : string).

(** [bind_fault] (src/vip/reconcile/worker.rs). *)
Definition bind_fault_of (e : VipError) : BindFault :=
  match e with
  | CommandFailed e => if missed_deadline e then BindTimedOut else BindFailed
  | Refused _ => BindFailed
  end.

(** What a task does.  [Authorized] asks for the permission of a bind;
    [Revocable e] is the event [e] of an operation that may be dropped before
    the answer, which is then [None]. *)
Inductive VipEv : Type → Type :=
| Contains (s : Tracking) (ip : IpAddr) : VipEv bool
| Insert (s : Tracking) (ip : IpAddr) : VipEv unit
| Remove (s : Tracking) (ip : IpAddr) : VipEv unit
| IsSettled : VipEv bool
| WaitSettled : VipEv bool
| Status (c : IpCommand) : VipEv (Result bool CommandError)
| Query (q : IpQuery) : VipEv (Result Output CommandError)
| Authorized : VipEv bool
| CancelAnnouncements (ip : IpAddr) : VipEv unit
| NotifyTransition (ip : IpAddr) : VipEv unit
| Revocable {X : Type} (e : VipEv X) : VipEv (option X).

Notation vtask := (task VipEv VipError).

Section local_vip.
Context (ip_parse : Text → option IpAddr) (decode_addresses : list N → option (list InterfaceAddresses))
  (decode_routes : list N → option (list MarkerRouteInfo)).
(** The protocol number of the instance, and whether it only reports what it would do. *)
Context (protocol : N) (dry_run : bool).

(** [runner.status] and [runner.output] with [?]. *)
Definition status (c : IpCommand) : vtask bool :=
  r ← perform (Status c); Ret (match r with Ok st => Ok st | Err e => Err (CommandFailed e) end).
Definition query (q : IpQuery) : vtask Output :=
  r ← perform (Query q); Ret (match r with Ok o => Ok o | Err e => Err (CommandFailed e) end).

(** [anyhow::ensure]. *)
Definition require (b : bool) (message : string) : vtask unit := Ret (ensure b (Refused message)).

(** ** Markers *)

(** [OwnershipMarker::replace]. *)
Definition marker_replace (ip : IpAddr) : vtask unit :=
  st ← status (MarkerReplace ip protocol);
  require st "ip route marker replace failed".

(** [OwnershipMarker::delete]. *)
Definition marker_delete (ip : IpAddr) : vtask unit :=
  st ← status (MarkerDel ip protocol);
  if (st : bool) then Ret (Ok tt)
  else
    probe ← query (RouteShow (negb (is_ipv4 ip)));
    match failed_marker_delete_is_absent ip_parse decode_routes probe ip protocol with
    | Ok absent => require absent "ip route marker del failed and the marker is still present"
    | Err _ => Ret (Err (Refused "ip route marker del failed and presence verification failed"))
    end.

(** [ensure_failed_delete_is_absent]. *)
Definition ensure_failed_delete_is_absent (probe : Result Output CommandError) : Result unit VipError :=
  match probe with
  | Err _ => Err (Refused "presence verification could not run")
  | Ok o =>
      ensure (output_success o) (Refused "presence verification failed") ;?
      ensure (bool_decide (output_stdout o = [])) (Refused "the address is still present")
  end.

(** [DeleteOutcome] and [verify_delete_result]. *)
Inductive DeleteOutcome := Deleted | AlreadyAbsent.
Definition verify_delete_result (st : bool) (ip : IpAddr) : vtask DeleteOutcome :=
  if st then Ret (Ok Deleted)
  else
    probe ← perform (Query (PresenceProbe ip));
    Ret (_ <-? ensure_failed_delete_is_absent probe; Ok AlreadyAbsent).

(** [OwnershipMarker::remove_after_failed_first_bind]; errors of the inner delete become messages. *)
Definition remove_after_failed_first_bind (ip : IpAddr) : vtask unit :=
  probe ← perform (Query (PresenceProbe ip));
  _ ← require match probe with
              | Ok o => output_success o && bool_decide (output_stdout o = [])
              | Err _ => false
              end "address absence could not be proven, ownership marker retained";
  r ← outcome (marker_delete ip);
  Ret (match r with
       | Ok _ => Ok tt
       | Err _ => Err (Refused "address is absent but ownership marker cleanup failed")
       end).

(** ** Binding *)

(** [should_clear_tracking_after_bind_failure]. *)
Definition should_clear_tracking_after_bind_failure (first_bind : bool) : bool := first_bind.

(** [LocalVip::finish_bind]; [contended] is how often the lock was busy. *)
Fixpoint finish_bind (contended : nat) (ip : IpAddr) (first_bind : bool) : vtask bool :=
  ok ← perform Authorized;
  if negb ok then Ret (Ok false)
  else if negb first_bind then Ret (Ok true)
  else match contended with
       | 0 => _ ← perform (Remove PendingFirstBind ip); Ret (Ok true)
       | S contended => finish_bind contended ip first_bind
       end.

(** Run on with the permission, or give up. *)
Definition if_authorized {A} (k : vtask (option A)) : vtask (option A) :=
  ok ← perform Authorized; if (ok : bool) then k else Ret (Ok None).

(** The end of [bind_kernel]. *)
Definition finished (contended : nat) (ip : IpAddr) (first_bind : bool) : vtask (option bool) :=
  done ← finish_bind contended ip first_bind;
  Ret (Ok (if (done : bool) then Some first_bind else None)).

(** The branch of [bind_kernel] after a marker that could not be set. *)
Definition marker_failed (ip : IpAddr) (was_pending first_bind : bool) (e : VipError) : vtask (option bool) :=
  _ ← (if should_clear_tracking_after_bind_failure first_bind then
         if was_pending || match e with CommandFailed _ => true | Refused _ => false end
         then perform (Insert PendingFirstBind ip)
         else _ ← perform (Remove Bound ip); perform (Remove PendingFirstBind ip)
       else Ret (Ok tt));
  Ret (Err e).

(** The branch of [bind_kernel] after an address that could not be added. *)
Definition address_failed (ip : IpAddr) (first_bind : bool) (e : VipError) : vtask (option bool) :=
  _ ← (if should_clear_tracking_after_bind_failure first_bind then
         r ← outcome (remove_after_failed_first_bind ip);
         match r with
         | Err _ => Ret (Err e)
         | Ok _ => _ ← perform (Remove Bound ip); perform (Remove PendingFirstBind ip)
         end
       else Ret (Ok tt));
  Ret (Err e).

(** The part of [bind_kernel] that adds the address. *)
Definition bind_address (contended : nat) (vip : VipAddr) (iface : Text) (first_bind : bool) : vtask (option bool) :=
  bound ← perform (Status (AddrReplace (addr vip) (prefix vip) iface));
  match bound with
  | Ok true => finished contended (addr vip) first_bind
  | Ok false => address_failed (addr vip) first_bind (Refused "ip addr replace failed")
  | Err e => address_failed (addr vip) first_bind (CommandFailed e)
  end.

(** The part of [bind_kernel] after the address is tracked: the marker, then the address. *)
Definition bind_commands (contended : nat) (vip : VipAddr) (iface : Text) (was_pending first_bind : bool)
  : vtask (option bool) :=
  if dry_run then finished contended (addr vip) first_bind
  else
    marker ← outcome (marker_replace (addr vip));
    match marker with
    | Err e => marker_failed (addr vip) was_pending first_bind e
    | Ok _ => if_authorized (bind_address contended vip iface first_bind)
    end.

(** The tracking of [bind_kernel], before anything is changed. *)
Definition bind_tracked (contended : nat) (vip : VipAddr) (iface : Text) (was_pending first_bind : bool)
  : vtask (option bool) :=
  _ ← perform (Insert Bound (addr vip));
  _ ← (if first_bind then perform (Insert PendingFirstBind (addr vip)) else Ret (Ok tt));
  if_authorized (bind_commands contended vip iface was_pending first_bind).

(** [LocalVip::bind_kernel]. *)
Definition bind_kernel (contended : nat) (vip : VipAddr) (iface : Text) : vtask (option bool) :=
  if_authorized (
    was_pending ← perform (Contains PendingFirstBind (addr vip));
    first_bind ← (if (was_pending : bool) then Ret (Ok true)
                  else bound ← perform (Contains Bound (addr vip)); Ret (Ok (negb bound)));
    if_authorized (bind_tracked contended vip iface was_pending first_bind)).

(** [LocalVip::is_confirmed_bound]. *)
Definition is_confirmed_bound (ip : IpAddr) : vtask bool :=
  bound ← perform (Contains Bound ip);
  if (bound : bool) then pending ← perform (Contains PendingFirstBind ip); Ret (Ok (negb pending))
  else Ret (Ok false).

(** ** Removal *)

(** [LocalVip::unbind]. *)
Definition unbind (vip : VipAddr) (iface : Text) : vtask unit :=
  let ip := addr vip in
  settled ← perform IsSettled;
  _ ← perform (CancelAnnouncements ip);
  bound ← perform (Contains Bound ip);
  tracked ← (if (bound : bool) then Ret (Ok true) else perform (Contains NeedsRecleanup ip));
  if negb tracked then Ret (Ok tt)
  else
    _ ← (if dry_run then Ret (Ok tt)
         else
           st ← status (AddrDel ip (prefix vip) iface);
           _ ← verify_delete_result st ip;
           marker_delete ip);
    _ ← (if (settled : bool) then Ret (Ok tt) else perform (Insert NeedsRecleanup ip));
    _ ← perform (Remove Bound ip);
    _ ← perform (Remove PendingFirstBind ip);
    if (settled : bool) then perform (Remove NeedsRecleanup ip) else Ret (Ok tt).

(** The attempts of [unbind_all] at one address: whether one succeeded. *)
Fixpoint unbind_attempts (attempts : nat) (vip : VipAddr) (iface : Text) : vtask bool :=
  match attempts with
  | 0 => Ret (Ok false)
  | S attempts =>
      r ← outcome (unbind vip iface);
      match r with Ok _ => Ret (Ok true) | Err _ => unbind_attempts attempts vip iface end
  end.

(** [LocalVip::unbind_all_with_progress]: every address, with the number of failures at the end. *)
Fixpoint unbind_each (notify : bool) (vips : list (VipAddr * Text)) : vtask nat :=
  match vips with
  | [] => Ret (Ok 0)
  | (vip, iface) :: vips =>
      was_bound ← (if notify then is_confirmed_bound (addr vip) else Ret (Ok false));
      unbound ← unbind_attempts 3 vip iface;
      _ ← (if unbound && was_bound && notify then perform (NotifyTransition (addr vip)) else Ret (Ok tt));
      failures ← unbind_each notify vips;
      Ret (Ok (if (unbound : bool) then failures else S failures))
  end.
Definition unbind_all (notify : bool) (vips : list (VipAddr * Text)) : vtask unit :=
  failures ← unbind_each notify vips;
  require (failures =? 0) "shutdown left VIP cleanup failures".

(** [release_local_vips] (src/main.rs): whether the cleanup succeeded, and whether releases may be acknowledged. *)
Definition release_local_vips (notify : bool) (table : list (VipAddr * Text)) : vtask (bool * bool) :=
  settled_before ← perform WaitSettled;
  cleanup ← outcome (unbind_all notify table);
  settled ← (if (settled_before : bool) then perform IsSettled else Ret (Ok false));
  Ret (Ok (is_ok cleanup, settled)).

(** ** Start-up *)

(** [discover_owned_addresses]; the three queries run concurrently. *)
Definition discover_owned_addresses : vtask OwnershipDiscovery :=
  addresses ← query AddrShow;
  ipv4_routes ← query (RouteShow false);
  ipv6_routes ← query (RouteShow true);
  Ret (match parse_discovery_outputs ip_parse decode_addresses decode_routes addresses ipv4_routes ipv6_routes protocol with
       | Ok d => Ok d
       | Err _ => Err (Refused "discovery failed")
       end).

(** One address of [startup_cleanup]. *)
Definition reclaim (target : VipAddr * Text) : vtask unit :=
  st ← status (AddrDel (addr target.1) (prefix target.1) target.2);
  _ ← verify_delete_result st (addr target.1);
  Ret (Ok tt).

Fixpoint each {A} (f : A → vtask unit) (l : list A) : vtask unit :=
  match l with
  | [] => Ret (Ok tt)
  | a :: l => _ ← f a; each f l
  end.

(** [LocalVip::startup_cleanup]. *)
Definition startup_cleanup (vips : list (VipAddr * Text)) : vtask unit :=
  if dry_run then Ret (Ok tt)
  else
    discovered ← discover_owned_addresses;
    _ ← each reclaim (merge_cleanup_targets vips (discovered_addresses discovered));
    each marker_delete (marker_routes discovered).

(** ** Authorized operations *)

(** An operation that [EffectAuthorization::run] polls: it is dropped when a check
    fails before an event or while one is pending, and its result may come too late. *)
Fixpoint revocable {A} (t : vtask A) : vtask (option (Result A VipError)) :=
  match t with
  | Ret r => ok ← perform Authorized; Ret (Ok (if (ok : bool) then Some r else None))
  | Do e k => Do (Revocable e) (λ x, match x with Some x => revocable (k x) | None => Ret (Ok None) end)
  end.

(** [EffectAuthorization::run]. *)
Definition authorization_run {A} (t : vtask A) : vtask (option (Result A VipError)) :=
  ok ← perform Authorized; if (ok : bool) then revocable t else Ret (Ok None).

(** The match on the result of the bind (src/vip/reconcile/worker.rs). *)
Definition bind_outcome_of (r : option (Result (option bool) VipError)) : BindOutcome :=
  match r with
  | Some (Ok (Some first_bind)) => BindDone first_bind
  | Some (Err e) => BindRaised (bind_fault_of e)
  | None | Some (Ok None) => BindAbandoned
  end.

(** ** The worker on the kernel *)

Context {O : Openraft} (vip : VipAddr) (iface : Text) (node_id : N) (notify : bool) (contended : nat).
Implicit Types (w : Worker) (t : Turn).

(** The cleanup of one turn; [settled_after] is read when a release is due. *)
Definition cleanup_turn w t : vtask (Worker * list Effect) :=
  before ← perform IsSettled;
  cleaned ← outcome (unbind_all notify [(vip, iface)]);
  match cleaned with
  | Err _ => Ret (Ok (turn vip iface node_id notify w (t <| settled_before := before |> <| unbind_ok := false |>)))
  | Ok _ =>
      again ← perform (Contains NeedsRecleanup (addr vip));
      after ← (if (before : bool) then perform IsSettled else Ret (Ok false));
      Ret (Ok (turn vip iface node_id notify w
                 (t <| settled_before := before |> <| unbind_ok := true |> <| delete_again := again |>
                    <| settled_after := after |>)))
  end.

(** The bind of one turn. *)
Definition bind_turn w t : vtask (Worker * list Effect) :=
  confirmed ← is_confirmed_bound (addr vip);
  bound ← authorization_run (bind_kernel contended vip iface);
  Ret (Ok (turn vip iface node_id notify w (t <| was_bound := confirmed |> <| bind_outcome := bind_outcome_of bound |>))).

(** Whether a turn that needs no cleanup turn_binds. *)
Definition turn_binds w t : bool :=
  match candidate vip node_id w t with
  | Some (p, i, c) => bind_policy i && (ready (takeover_delay (memory w)) c).2
  | None => false
  end.

(** One turn of [worker::run]: the tasks on the kernel, then the decisions on what they returned. *)
Definition worker_turn w t : vtask (Worker * list Effect) :=
  let observed := observe vip iface node_id (arm w t) t in
  if cleanup_needed observed then cleanup_turn w t
  else if turn_binds observed t then bind_turn w t
  else Ret (Ok (turn vip iface node_id notify w t)).
End local_vip.
