(* ===== verification/KernelWorld.v ===== *)
(** * The host, its children and the tasks on it

    The state the tasks of [LocalVip] share: the kernel, the three sets of
    tracked addresses, and the children with their tracker.  A step is one event
    of a task, or happens in the background: a child runs its command, a waiter
    is done with its child, somebody else changes the host.  A system is one
    worker per VIP, each repeating turns, until the daemon stops them all and
    runs its last cleanup. *)

From S2P Require Import Prelude Text Io Types Openraft State Freshness Worker Tasks VipCommands Ownership LocalVip.

Section world.
Context `{IpTool}.

Record World := mkWorld {
  host : Host;
  bound : gset IpAddr;
  pending_first_bind : gset IpAddr;
  needs_recleanup : gset IpAddr;
  children : TrackedChildren;
  runs : list Run
}.

#[global] Instance World_eta : Eta World := λ w,
  mkWorld (host w) (bound w) (pending_first_bind w) (needs_recleanup w) (children w) (runs w).

Implicit Types (w : World) (ip : IpAddr).

Definition tracking (s : Tracking) w : gset IpAddr :=
  match s with
  | Bound => bound w
  | PendingFirstBind => pending_first_bind w
  | NeedsRecleanup => needs_recleanup w
  end.

Definition set_tracking (s : Tracking) (X : gset IpAddr) w : World :=
  match s with
  | Bound => w <| bound := X |>
  | PendingFirstBind => w <| pending_first_bind := X |>
  | NeedsRecleanup => w <| needs_recleanup := X |>
  end.

(** ** Children *)

(** [run_status_tracked] starts a child. *)
Definition spawn (c : IpCommand) w : World := w <| runs := runs w ++ [run_new c] |>.

(** Its caller is dropped: [Abandonment::drop]. *)
Definition abandon (j : nat) w : World :=
  match runs w !! j with
  | Some r => let '(r, t) := run_abandon r (children w) in w <| runs := <[j := r]> (runs w) |> <| children := t |>
  | None => w
  end.

(** Its waiter is done with it. *)
Definition finish (j : nat) (r : Run) (result : Result bool CommandError) (reaped : bool) w : World :=
  let '(r, t) := run_finish r result reaped (children w) in
  w <| runs := <[j := r]> (runs w) |> <| children := t |>.

(** Its command runs. *)
Definition land (j : nat) (r : Run) (st : bool) (h : Host) w : World :=
  w <| host := h |>
    <| runs := <[j := mkRun (run_command r) (run_phase r) (Some st) (run_reaped r) (run_result r)]> (runs w) |>.

(** What happens without a task: a command runs at most once, and only before its child is reaped. *)
Inductive background : relation World :=
| background_drift w h : drifts (host w) h → background w (w <| host := h |>)
| background_land w j r st h :
    runs w !! j = Some r → run_reaped r = false → run_exit r = None → changes (host w) (run_command r) st h →
    background w (land j r st h w)
| background_finish w j r wait cleanup reap :
    runs w !! j = Some r → run_phase r ≠ Finished → run_reaped r = false →
    (∀ st, wait = Exited st → run_exit r = Some st) → (wait = WaitCancelled → run_phase r = Abandoned) →
    background w (finish j r (wait_status_or_cancel wait cleanup reap).1 (wait_status_or_cancel wait cleanup reap).2 w).

(** ** Events *)

(** An event that takes no time, its answer and what it changes. *)
Fixpoint instant {X} w (e : VipEv X) : X → World → Prop :=
  match e with
  | Contains s ip => λ found w', found = bool_decide (ip ∈ tracking s w) ∧ w' = w
  | Insert s ip => λ _ w', w' = set_tracking s ({[ip]} ∪ tracking s w) w
  | Remove s ip => λ _ w', w' = set_tracking s (tracking s w ∖ {[ip]}) w
  | IsSettled => λ settled w', settled = is_settled (children w) ∧ w' = w
  | WaitSettled => λ settled w', (settled = true → is_settled (children w) = true) ∧ w' = w
  | Status _ => λ _ _, False
  | Query q => λ r w', match r with Ok o => answers (host w) q o | Err _ => True end ∧ w' = w
  | Authorized => λ _ w', w' = w
  | CancelAnnouncements _ | NotifyTransition _ => λ _ w', w' = w
  | Revocable e => λ x w', match x with Some x => instant w e x w' | None => False end
  end.

(** An event that waits for a command, with the answer its result gives. *)
Fixpoint waits {X} (e : VipEv X) : option (IpCommand * (Result bool CommandError → X)) :=
  match e with
  | Status c => Some (c, λ r, r)
  | Revocable e => match waits e with Some (c, f) => Some (c, λ r, Some (f r)) | None => None end
  | _ => None
  end.

(** The answer of an event whose operation is dropped. *)
Definition dropped {X} (e : VipEv X) : option X :=
  match e with
  | Revocable e => Some None
  | _ => None
  end.

(** One step of a task, which may be waiting for a child: an event is answered, a
    command is started or could not be, its result arrives, or the operation is dropped.
    A command that could not be started left no child: [spawn_grouped] fails after the
    fork only for a process id that is not a positive [i32], which Linux never gives. *)
Definition step {A} w (c : vtask A * option nat) (w' : World) (c' : vtask A * option nat) : Prop :=
  match c with
  | (Ret _, _) => False
  | (Do e k, None) =>
      (∃ x, instant w e x w' ∧ c' = (k x, None)) ∨
      (∃ command f, waits e = Some (command, f) ∧
         (w' = spawn command w ∧ c' = (Do e k, Some (length (runs w))) ∨
          ∃ error, w' = w ∧ c' = (k (f (Err error)), None))) ∨
      (∃ x, dropped e = Some x ∧ w' = w ∧ c' = (k x, None))
  | (Do e k, Some j) =>
      (∃ command f r result, waits e = Some (command, f) ∧ runs w !! j = Some r ∧ run_result r = Some result ∧
         w' = w ∧ c' = (k (f result), None)) ∨
      (∃ x, dropped e = Some x ∧ w' = abandon j w ∧ c' = (k x, None))
  end.

(** A task that runs alone: it takes a step, or something happens in the background. *)
Definition alone {A} (c c' : World * (vtask A * option nat)) : Prop :=
  step c.1 c.2 c'.1 c'.2 ∨ background c.1 c'.1 ∧ c'.2 = c.2.
End world.

(** ** The system *)

Section system.
Context `{IpTool} {O : Openraft}.
Context (ip_parse : Text → option IpAddr) (decode_routes : list N → option (list MarkerRouteInfo)).
Context (protocol : N) (dry_run : bool) (table : list (VipAddr * Text)) (node_id : N) (notify : bool).

(** A worker between two turns, or in one. *)
Inductive Thread :=
| Idle (w : Worker)
| Busy (code : vtask (Worker * list Effect)) (waiting : option nat).

(** The daemon with its workers, or in [release_local_vips] after they were stopped. *)
Inductive System :=
| Running (w : World) (threads : list Thread)
| Stopping (w : World) (code : vtask (bool * bool)) (waiting : option nat).

(** A stopped worker drops the command it waits for. *)
Definition stop_thread (w : World) (t : Thread) : World :=
  match t with Busy _ (Some j) => abandon j w | _ => w end.

Inductive system_step : relation System :=
| system_background w w' threads : background w w' → system_step (Running w threads) (Running w' threads)
| system_turn w threads k vip iface wk t contended :
    table !! k = Some (vip, iface) → threads !! k = Some (Idle wk) →
    system_step (Running w threads)
      (Running w (<[k := Busy (worker_turn ip_parse decode_routes protocol dry_run vip iface node_id notify
                                 contended wk t) None]> threads))
| system_event w threads k code waiting w' code' waiting' :
    threads !! k = Some (Busy code waiting) → step w (code, waiting) w' (code', waiting') →
    system_step (Running w threads) (Running w' (<[k := Busy code' waiting']> threads))
| system_return w threads k wk effects :
    threads !! k = Some (Busy (Ret (Ok (wk, effects))) None) →
    system_step (Running w threads) (Running w (<[k := Idle wk]> threads))
| system_stop w threads :
    system_step (Running w threads)
      (Stopping (foldl stop_thread w threads)
         (release_local_vips ip_parse decode_routes protocol dry_run notify table) None)
| system_stopping_background w w' code waiting :
    background w w' → system_step (Stopping w code waiting) (Stopping w' code waiting)
| system_stopping_event w code waiting w' code' waiting' :
    step w (code, waiting) w' (code', waiting') → system_step (Stopping w code waiting) (Stopping w' code' waiting').

(** The start: [startup_cleanup] left no VIP attached, and no command runs.  A worker
    starts with a cleanup if it cannot read the set of bound addresses at once. *)
Inductive started : System → Prop :=
| started_with h lifetime (unread : VipAddr * Text → bool) :
    (∀ vip iface, (vip, iface) ∈ table → ¬ attached h (addr vip) (prefix vip) iface) →
    started (Running (mkWorld h ∅ ∅ ∅ (mkTracked 0 false) [])
               ((λ target, Idle (worker_new lifetime (N.of_nat (length table)) (unread target))) <$> table)).

Definition reachable (s : System) : Prop := ∃ s0, started s0 ∧ rtc system_step s0 s.
End system.
