(* ===== verification/KernelLogic.v ===== *)
(** * Reasoning about tasks on the host

    A rely/guarantee logic for the tasks of [LocalVip].  A task owns some VIPs:
    nobody else adds or tracks their addresses, while everything else on the host
    may change between any two of its events.  [wp] holds of a task in a world
    when every run of it keeps the owned addresses guarded (an address that is
    attached, or that a child may still attach, is tracked), and ends well, also
    when it is dropped. *)

From S2P Require Import Prelude Text Io Types Tasks VipCommands Ownership LocalVip KernelWorld.

Section logic.
Context `{!IpTool} `{!IpToolLaws}.
Implicit Types (w : World) (tg : VipAddr * Text) (owned : VipAddr * Text → Prop).

(** ** Addresses at risk *)

Definition ip_of tg : IpAddr := addr tg.1.
Definition owns owned (ip : IpAddr) : Prop := ∃ tg, owned tg ∧ ip_of tg = ip.
Definition add_of tg : IpCommand := AddrReplace (addr tg.1) (prefix tg.1) tg.2.
Definition here tg w : Prop := attached (host w) (addr tg.1) (prefix tg.1) tg.2.

(** A child that may still add the address, that is not reaped, and that was lost. *)
Definition live_adder tg w (j : nat) : Prop :=
  ∃ r, runs w !! j = Some r ∧ run_command r = add_of tg ∧ run_reaped r = false ∧ run_exit r = None.
Definition open_adder tg w (j : nat) : Prop :=
  ∃ r, runs w !! j = Some r ∧ run_command r = add_of tg ∧ run_reaped r = false.
Definition lost_adder tg w (j : nat) : Prop :=
  ∃ r, runs w !! j = Some r ∧ run_command r = add_of tg ∧ run_reaped r = false ∧ run_phase r = Finished.

(** The address is attached or may still be attached by a child. *)
Definition at_risk tg w : Prop := here tg w ∨ ∃ j, live_adder tg w j.
(** What remembers such an address without [bound]. *)
Definition covered tg w : Prop := ip_of tg ∈ needs_recleanup w ∨ ∃ j, lost_adder tg w j.
Definition guarded tg w : Prop := at_risk tg w → ip_of tg ∈ bound w ∨ covered tg w.
(** No child can add the address. *)
Definition no_adder tg w : Prop := ∀ j, ¬ open_adder tg w j.

(** ** Well-formed children *)

Definition counted (r : Run) : bool :=
  match run_phase r with
  | WaitedFor => false
  | Abandoned => true
  | Finished => negb (run_reaped r)
  end.
Definition lost_run (r : Run) : bool := bool_decide (run_phase r = Finished) && negb (run_reaped r).
Definition count (l : list Run) : nat := sum_list_with (λ r, if counted r then 1 else 0) l.

Definition run_wf (r : Run) : Prop :=
  (∀ st, run_result r = Some (Ok st) → run_exit r = Some st) ∧
  (run_phase r = Finished ↔ is_Some (run_result r)) ∧ (run_reaped r = true → run_phase r = Finished).

(** The tracker counts the children that nobody waits for and that are not known to be reaped. *)
Record wf w : Prop := {
  wf_count : unsettled (children w) = count (runs w);
  wf_lost : lost (children w) = existsb lost_run (runs w);
  wf_runs : Forall run_wf (runs w)
}.

(** A task waits for no owned child but [waiting]. *)
Definition calm owned (waiting : option nat) w : Prop :=
  ∀ j r, runs w !! j = Some r → run_phase r = WaitedFor → owns owned (command_ip (run_command r)) →
  waiting = Some j.

Record good owned (waiting : option nat) w : Prop := {
  good_wf : wf w;
  good_calm : calm owned waiting w;
  good_guarded : ∀ tg, owned tg → guarded tg w
}.

(** ** What others may do *)

Inductive rely owned : relation World :=
| rely_background w w' : background w w' → rely owned w w'
| rely_spawn w c : (∀ tg, owned tg → c ≠ add_of tg) → rely owned w (spawn c w)
| rely_abandon w j : rely owned w (abandon j w)
| rely_track w s ip X :
    ¬ owns owned ip → (∀ a, a ≠ ip → a ∈ X ↔ a ∈ tracking s w) → rely owned w (set_tracking s X w).

(** ** Steps *)

Lemma set_tracking_rest s X w :
  runs (set_tracking s X w) = runs w ∧ host (set_tracking s X w) = host w ∧ children (set_tracking s X w) = children w.
Proof. by destruct s. Qed.

Lemma tracking_set s s' X w : tracking s' (set_tracking s X w) = if decide (s = s') then X else tracking s' w.
Proof. by destruct s, s'. Qed.

(** A run after a step: the same command, and nothing undone. *)
Definition run_after (r r' : Run) : Prop :=
  run_command r' = run_command r ∧ (run_reaped r = true → run_reaped r' = true) ∧
  (run_phase r = Finished → run_phase r' = Finished ∧ run_reaped r' = run_reaped r ∧ run_result r' = run_result r) ∧
  (∀ st, run_exit r = Some st → run_exit r' = Some st) ∧ (run_phase r' = WaitedFor → run_phase r = WaitedFor).

Lemma run_after_refl r : run_after r r.
Proof. by split_and!; auto. Qed.

Lemma run_after_abandon r t : run_after r (run_abandon r t).1.
Proof. unfold run_abandon. destruct (run_phase r) eqn:Hp; split_and!; simpl; try done; congruence. Qed.

Lemma run_after_finish r result reaped t :
  run_phase r ≠ Finished → run_reaped r = false → run_after r (run_finish r result reaped t).1.
Proof. intros Hp Hr. unfold run_finish. split_and!; simpl; try done; congruence. Qed.

Lemma run_after_land r st :
  run_exit r = None → run_after r (mkRun (run_command r) (run_phase r) (Some st) (run_reaped r) (run_result r)).
Proof. intros He. by split_and!; simpl; try done; intros; congruence. Qed.

(** [w'] has the runs of [w], each after a step, and new ones of commands in [new]. *)
Definition runs_step (new : IpCommand → Prop) w w' : Prop :=
  (∀ j r, runs w !! j = Some r → ∃ r', runs w' !! j = Some r' ∧ run_after r r') ∧
  (∀ j r', runs w' !! j = Some r' →
     (∃ r, runs w !! j = Some r ∧ run_after r r') ∨ runs w !! j = None ∧ new (run_command r')).

Lemma runs_step_same new w w' : runs w' = runs w → runs_step new w w'.
Proof. intros Heq. split; intros j r Hr; rewrite ?Heq in *; eauto using run_after_refl. Qed.

Lemma runs_step_insert new w w' j r r' :
  runs w !! j = Some r → runs w' = <[j := r']> (runs w) → run_after r r' → runs_step new w w'.
Proof.
  intros Hj Heq Ha. split; intros i x Hx; rewrite Heq in *.
  - destruct (decide (i = j)) as [->|Hne].
    + simplify_eq. exists r'. split; [|done]. rewrite list_lookup_insert_eq; [done|by eapply lookup_lt_Some].
    + exists x. rewrite list_lookup_insert_ne by done. auto using run_after_refl.
  - destruct (decide (i = j)) as [->|Hne].
    + rewrite list_lookup_insert_eq in Hx by (by eapply lookup_lt_Some). simplify_eq. eauto.
    + rewrite list_lookup_insert_ne in Hx by done. eauto using run_after_refl.
Qed.

Lemma runs_step_spawn (new : IpCommand → Prop) w c : new c → runs_step new w (spawn c w).
Proof.
  intros Hc. split; intros j r Hr; cbn [runs spawn] in *.
  - exists r. split; [by apply lookup_app_l_Some|apply run_after_refl].
  - apply lookup_app_Some in Hr as [Hr|[Hlen Hr]]; [eauto using run_after_refl|].
    right. apply list_lookup_singleton_Some in Hr as [? <-]. split; [by apply lookup_ge_None_2|done].
Qed.

Lemma runs_step_abandon new w j : runs_step new w (abandon j w).
Proof.
  unfold abandon. destruct (runs w !! j) as [r|] eqn:Hj; [|by apply runs_step_same].
  pose proof (run_after_abandon r (children w)) as Ha. destruct (run_abandon r (children w)) as [r' t].
  by apply (runs_step_insert _ _ _ j r r').
Qed.

Lemma runs_step_background new w w' : background w w' → runs_step new w w'.
Proof.
  intros [w0 h Hd|w0 j r st h Hj Hr He Hc|w0 j r wait cleanup reap Hj Hp Hr _ _]; [by apply runs_step_same| |].
  - by eapply (runs_step_insert _ _ _ j); [done|reflexivity|apply run_after_land].
  - by eapply (runs_step_insert _ _ _ j); [done|reflexivity|apply (run_after_finish _ _ _ (children w0))].
Qed.

Lemma runs_step_rely owned w w' : rely owned w w' → runs_step (λ c, ∀ tg, owned tg → c ≠ add_of tg) w w'.
Proof.
  intros [w0 w1 Hb|w0 c Hc|w0 j|w0 s ip X _ _].
  - by apply runs_step_background.
  - by apply runs_step_spawn.
  - apply runs_step_abandon.
  - apply runs_step_same, set_tracking_rest.
Qed.

(** *** The tracker *)

Lemma count_insert (l : list Run) j r r' :
  l !! j = Some r → count (<[j := r']> l) + (if counted r then 1 else 0) = count l + (if counted r' then 1 else 0).
Proof.
  revert j. induction l as [|x l IH]; intros [|j] Hj; simplify_eq/=; [lia|].
  specialize (IH j Hj). unfold count in *. lia.
Qed.

Lemma lost_insert (l : list Run) j r r' :
  l !! j = Some r → lost_run r = false → existsb lost_run (<[j := r']> l) = existsb lost_run l || lost_run r'.
Proof.
  revert j. induction l as [|x l IH]; intros [|j] Hj Hr; simplify_eq/=.
  - rewrite Hr. simpl. apply orb_comm.
  - by rewrite IH, orb_assoc.
Qed.

Lemma same_insert j r r' (l : list Run) :
  l !! j = Some r → run_phase r' = run_phase r → run_reaped r' = run_reaped r →
  count (<[j := r']> l) = count l ∧ existsb lost_run (<[j := r']> l) = existsb lost_run l.
Proof.
  intros Hj Hp Hr. assert (counted r' = counted r) as Hc by (unfold counted; by rewrite Hp, Hr). split.
  - pose proof (count_insert l j r r' Hj). rewrite Hc in *. lia.
  - revert j Hj. induction l as [|x l IH]; intros [|j] Hj; simplify_eq/=.
    + unfold lost_run. by rewrite Hp, Hr.
    + by erewrite IH.
Qed.

Lemma wf_insert w w' j r r' t :
  wf w → runs w !! j = Some r → run_phase r ≠ Finished → run_wf r' →
  runs w' = <[j := r']> (runs w) → children w' = t →
  unsettled t + (if counted r then 1 else 0) = unsettled (children w) + (if counted r' then 1 else 0) →
  lost t = lost (children w) || lost_run r' → wf w'.
Proof.
  intros [Hc Hl Hr] Hj Hp Hwf Hruns Ht Hu Hlost. split.
  - rewrite Ht, Hruns. pose proof (count_insert _ j r r' Hj). lia.
  - rewrite Ht, Hruns, Hlost, Hl. symmetry. apply (lost_insert _ _ r); [done|]. unfold lost_run. by rewrite bool_decide_false.
  - rewrite Hruns. by apply Forall_insert.
Qed.

Lemma wf_abandon w j : wf w → wf (abandon j w).
Proof.
  intros Hw. unfold abandon. destruct (runs w !! j) as [r|] eqn:Hj; [|done].
  unfold run_abandon. destruct (run_phase r) eqn:Hp.
  2-3: destruct Hw as [Hc Hl Hr]; split; cbn; by rewrite list_insert_id.
  destruct (Forall_lookup_1 _ _ _ _ (wf_runs _ Hw) Hj) as (H1 & H2 & H3).
  eapply (wf_insert w _ j r); [done|done|congruence| |reflexivity|reflexivity| |].
  - split_and!; cbn; [done| |intros Hr; apply H3 in Hr; congruence].
    rewrite Hp in H2. split; [done|]. intros Hs%H2. done.
  - unfold counted. cbn. rewrite Hp. lia.
  - unfold lost_run. cbn. by rewrite orb_false_r.
Qed.

Lemma wf_background w w' : wf w → background w w' → wf w'.
Proof.
  intros Hw Hb. destruct Hb as [w h Hd|w j r st h Hj Hr He Hc|w j r wait cleanup reap Hj Hp Hr Hexit _].
  - destruct Hw. by split.
  - destruct (Forall_lookup_1 _ _ _ _ (wf_runs _ Hw) Hj) as (H1 & H2 & H3). destruct Hw as [Hcount Hlost Hall]. split.
    + etrans; [exact Hcount|]. symmetry. by apply (same_insert j r).
    + etrans; [exact Hlost|]. symmetry. by apply (same_insert j r).
    + cbn. apply Forall_insert; [done|]. split_and!; cbn; [|done..]. intros st' Hst'. apply H1 in Hst'. congruence.
  - set (out := wait_status_or_cancel wait cleanup reap).
    assert (run_wf (run_finish r out.1 out.2 (children w)).1) as Hwf.
    { split_and!; cbn; [|by split|done]. intros st [= Hst]. subst out. destruct wait, cleanup; simplify_eq/=; auto. }
    eapply (wf_insert w _ j r); [done..|exact Hwf|reflexivity|reflexivity| |].
    + assert (counted r = bool_decide (run_phase r = Abandoned)) as -> by (unfold counted; by destruct (run_phase r)).
      assert (run_phase r = Abandoned → 1 ≤ unsettled (children w)) as Hpos.
      { intros Ha. rewrite (wf_count _ Hw). pose proof (count_insert _ j r (run_new (run_command r)) Hj) as Hi.
        unfold counted in Hi. rewrite Ha in Hi. cbn in Hi. lia. }
      destruct (run_phase r) eqn:Hph, out.2; cbn; rewrite ?Hph; cbn; try (specialize (Hpos eq_refl)); try done.
      rewrite bool_decide_true by done. lia.
    + unfold lost_run. cbn. destruct (run_phase r), out.2; cbn; by rewrite ?orb_false_r, ?orb_true_r.
Qed.

Lemma wf_spawn w c : wf w → wf (spawn c w).
Proof.
  intros [Hc Hl Hr]. split; cbn.
  - rewrite Hc. unfold count. rewrite sum_list_with_app. cbn. lia.
  - by rewrite existsb_app, Hl, orb_false_r.
  - apply Forall_app. split; [done|]. apply Forall_singleton. split_and!; [done| |done]. split; [done|by intros [??]].
Qed.

Lemma wf_set_tracking w s X : wf w → wf (set_tracking s X w).
Proof. intros [Hc Hl Hr]. by destruct s. Qed.

(** A settled tracker has no child that nobody waits for and that is not reaped. *)
Lemma settled_runs w j r :
  wf w → is_settled (children w) = true → runs w !! j = Some r → run_reaped r = false → run_phase r = WaitedFor.
Proof.
  intros Hw Hs%Nat.eqb_eq Hj Hr. rewrite (wf_count _ Hw) in Hs.
  pose proof (count_insert _ j r (run_new (run_command r)) Hj) as Hi.
  unfold counted in Hi. rewrite Hr in Hi. destruct (run_phase r); cbn in Hi; [done|lia..].
Qed.

(** *** Children of an owned address *)

Lemma step_here w w' tg :
  background w w' → here tg w' → here tg w ∨ ∃ j, live_adder tg w j.
Proof.
  intros [w0 h Hd|w0 j r st h Hj Hr He Hc|w0 j r wait cleanup reap Hj Hp Hr _ _]; unfold here; cbn; [|intros Hh|by left].
  - left. by eapply drifts_attached.
  - eapply changes_attached in Hh as [Hh|Hh]; [by left| |done]. right. exists j, r. by split_and!.
Qed.

Lemma rely_here owned w w' tg : rely owned w w' → here tg w' → here tg w ∨ ∃ j, live_adder tg w j.
Proof.
  intros [w0 w1 Hb|w0 c Hc|w0 j|w0 s ip X _ _] Hh; [by eapply step_here|by left| |].
  - left. unfold abandon, here in Hh. destruct (runs w0 !! j) as [r|]; [|done]. by destruct (run_abandon r (children w0)).
  - left. unfold here in *. by rewrite (proj1 (proj2 (set_tracking_rest s X w0))) in Hh.
Qed.

Section owned_steps.
Context (new : IpCommand → Prop) (tg : VipAddr * Text) (w w' : World).
Hypothesis (Hnew : ∀ c, new c → c ≠ add_of tg) (Hstep : runs_step new w w').

Lemma step_live_adder j : live_adder tg w' j → live_adder tg w j.
Proof.
  intros (r' & Hj & Hc & Hr & He). apply Hstep in Hj as [(r & Hj & Ha)|[_ Hn]]; [|by apply Hnew in Hn].
  destruct Ha as (Hcmd & Hreap & _ & Hexit & _). exists r. split_and!; [done|congruence| |].
  - destruct (run_reaped r); [|done]. by rewrite Hreap in Hr.
  - destruct (run_exit r) as [st|]; [|done]. by rewrite (Hexit st) in He.
Qed.

Lemma step_open_adder j : open_adder tg w' j → open_adder tg w j.
Proof.
  intros (r' & Hj & Hc & Hr). apply Hstep in Hj as [(r & Hj & Ha)|[_ Hn]]; [|by apply Hnew in Hn].
  destruct Ha as (Hcmd & Hreap & _). exists r. split_and!; [done|congruence|].
  destruct (run_reaped r); [|done]. by rewrite Hreap in Hr.
Qed.
End owned_steps.

Lemma step_lost_adder new tg w w' j : runs_step new w w' → lost_adder tg w j → lost_adder tg w' j.
Proof.
  intros Hstep (r & Hj & Hc & Hr & Hp). apply Hstep in Hj as (r' & Hj & Hcmd & _ & Hfin & _).
  destruct (Hfin Hp) as (Hp' & Hr' & _). exists r'. split_and!; congruence.
Qed.

(** A command that ran since changed the host. *)
Lemma rely_landed owned w w' j r r' st :
  rely owned w w' → runs w !! j = Some r → runs w' !! j = Some r' → run_exit r = None → run_exit r' = Some st →
  changes (host w) (run_command r) st (host w').
Proof.
  intros [w0 w1 Hb|w0 c Hc|w0 i|w0 s ip X _ _] Hj Hj' He He'.
  - destruct Hb as [w0 h Hd|w0 i x st' h Hi Hx Hex Hc|w0 i x wait cleanup reap Hi Hp Hx _ _]; cbn in Hj'; [congruence|..].
    + destruct (decide (i = j)) as [->|Hne]; [|rewrite list_lookup_insert_ne in Hj' by done; congruence].
      rewrite list_lookup_insert_eq in Hj' by (by eapply lookup_lt_Some). by simplify_eq/=.
    + destruct (decide (i = j)) as [->|Hne]; [|rewrite list_lookup_insert_ne in Hj' by done; congruence].
      rewrite list_lookup_insert_eq in Hj' by (by eapply lookup_lt_Some). by simplify_eq/=.
  - cbn in Hj'. rewrite lookup_app_l in Hj' by (by eapply lookup_lt_Some). congruence.
  - unfold abandon in *. destruct (runs w0 !! i) as [x|] eqn:Hi; [|congruence].
    destruct (run_abandon x (children w0)) as [y t] eqn:Hy. cbn in Hj'.
    destruct (decide (i = j)) as [->|Hne]; [|rewrite list_lookup_insert_ne in Hj' by done; congruence].
    rewrite list_lookup_insert_eq in Hj' by (by eapply lookup_lt_Some). simplify_eq.
    unfold run_abandon in Hy. destruct (run_phase r); simplify_eq/=; congruence.
  - rewrite (proj1 (set_tracking_rest s X w0)) in Hj'. congruence.
Qed.

(** *** Stability *)

Section stable.
Context (owned : VipAddr * Text → Prop).

Definition stable (P : World → Prop) : Prop := ∀ w w', rely owned w w' → P w → P w'.

Lemma stable_rtc P w w' : stable P → rtc (rely owned) w w' → P w → P w'.
Proof. intros HP. induction 1 as [|w w1 w2 Hs _ IH]; [done|]. intros Hw. by eapply IH, HP. Qed.

Lemma stable_and P P' : stable P → stable P' → stable (λ w, P w ∧ P' w).
Proof. intros HP HP' w w' Hs [H1 H2]. split; [by eapply HP|by eapply HP']. Qed.

Lemma stable_pure (φ : Prop) : stable (λ _, φ).
Proof. by intros w w'. Qed.

Lemma stable_imp (φ : Prop) P : stable P → stable (λ w, φ → P w).
Proof. intros HP w w' Hs Hw Hφ. by eapply HP, Hw. Qed.

Lemma stable_all {X} (P : X → World → Prop) : (∀ x, stable (P x)) → stable (λ w, ∀ x, P x w).
Proof. intros HP w w' Hs Hw x. by eapply HP. Qed.

Context (tg : VipAddr * Text) (Howned : owned tg).

Lemma rely_tracking s w w' : rely owned w w' → ip_of tg ∈ tracking s w' ↔ ip_of tg ∈ tracking s w.
Proof.
  intros [w0 w1 [| |]|w0 c Hc|w0 j|w0 s' ip X Hip HX]; [by destruct s..| |].
  - unfold abandon. destruct (runs w0 !! j) as [r|]; [|done]. destruct (run_abandon r (children w0)). by destruct s.
  - rewrite tracking_set. case_decide as Hs; [|done]. subst s'. apply HX. intros <-. apply Hip. by exists tg.
Qed.

Lemma stable_tracked s : stable (λ w, ip_of tg ∈ tracking s w).
Proof. intros w w' Hs Hw. by rewrite (rely_tracking s w w'). Qed.

Lemma stable_untracked s : stable (λ w, ip_of tg ∉ tracking s w).
Proof. intros w w' Hs Hw. by rewrite (rely_tracking s w w'). Qed.

Lemma rely_adders w w' : rely owned w w' → runs_step (λ c, c ≠ add_of tg) w w'.
Proof.
  intros Hs. destruct (runs_step_rely _ _ _ Hs) as [Hf Hb]. split; [done|].
  intros j r' Hj. destruct (Hb j r' Hj) as [?|[? Hn]]; [by left|right]. by split; [|apply Hn].
Qed.

Lemma rely_live w w' j : rely owned w w' → live_adder tg w' j → live_adder tg w j.
Proof. intros Hs. by apply (step_live_adder (λ c, c ≠ add_of tg)); [|apply rely_adders]. Qed.

Lemma stable_no_adder : stable (no_adder tg).
Proof. intros w w' Hs Hw j Hj. eapply Hw, (step_open_adder (λ c, c ≠ add_of tg)); [done|by apply rely_adders|done]. Qed.

Lemma rely_at_risk w w' : rely owned w w' → at_risk tg w' → at_risk tg w.
Proof. intros Hs [Hh|[j Hj]]; [by eapply rely_here|right; exists j; by eapply rely_live]. Qed.

Lemma stable_not_at_risk : stable (λ w, ¬ at_risk tg w).
Proof. intros w w' Hs Hw Hr. by eapply Hw, rely_at_risk. Qed.

Lemma stable_covered : stable (covered tg).
Proof.
  intros w w' Hs [Hr|[j Hj]]; [left; by apply (stable_tracked NeedsRecleanup w w')|].
  right. exists j. by eapply step_lost_adder, Hj; apply rely_adders.
Qed.

Lemma stable_guarded : stable (guarded tg).
Proof.
  intros w w' Hs Hw Hr. destruct Hw as [Hb|Hc]; [by eapply rely_at_risk| |].
  - left. by apply (stable_tracked Bound w w').
  - right. by eapply stable_covered.
Qed.

Lemma stable_risk_covered : stable (λ w, at_risk tg w → covered tg w).
Proof. intros w w' Hs Hw Hr. eapply stable_covered; [done|]. by apply Hw, (rely_at_risk w w'). Qed.

Lemma stable_live_covered (i : option nat) : stable (λ w, ∀ j, Some j ≠ i → live_adder tg w j → covered tg w).
Proof. intros w w' Hs Hw j Hi Hj. eapply stable_covered; [done|]. by eapply (Hw j), rely_live. Qed.
End stable.
End logic.
