(* ===== verification/KernelRules.v ===== *)
(** * Rules for tasks on the host

    The weakest precondition of a task that owns some VIPs, and the rules that
    follow its events. *)

From S2P Require Import Prelude Text Io Types Tasks VipCommands Ownership LocalVip KernelWorld KernelLogic.

Section rules.
Context `{!IpTool} `{!IpToolLaws} (owned : VipAddr * Text → Prop).
Implicit Types (w : World) (D P : World → Prop).

(** The events of a task are about the addresses it owns. *)
Fixpoint concerns {X} (e : VipEv X) : Prop :=
  match e with
  | Insert _ ip | Remove _ ip => owns owned ip
  | Status c => owns owned (command_ip c)
  | Revocable e => concerns e
  | _ => True
  end.

Definition all_guarded w : Prop := ∀ tg, owned tg → guarded tg w.

(** [wp D Q t w]: from [w], whatever others do, every event of [t] keeps the owned
    addresses guarded, its result satisfies [Q], and [D] holds whenever it is dropped. *)
Section wp.
Context {A : Type} (D : World → Prop) (Q : Result A VipError → World → Prop).
Fixpoint wp (t : vtask A) w {struct t} : Prop :=
  ∀ w', rtc (rely owned) w w' → good owned None w' →
  match t with
  | Ret r => Q r w'
  | Do e k =>
      D w' ∧ concerns e ∧
      (∀ x w'', instant w' e x w'' → all_guarded w'' ∧ wp (k x) w'') ∧
      (∀ x, dropped e = Some x → wp (k x) w') ∧
      (∀ c f, waits e = Some (c, f) →
         (∀ error, wp (k (f (Err error))) w') ∧ all_guarded (spawn c w') ∧
         ∀ w'', rtc (rely owned) (spawn c w') w'' → good owned (Some (length (runs w'))) w'' →
           D (abandon (length (runs w')) w'') ∧
           (∀ r result, runs w'' !! length (runs w') = Some r → run_result r = Some result →
              wp (k (f result)) w'') ∧
           (∀ x, dropped e = Some x → wp (k x) (abandon (length (runs w')) w'')))
  end.

End wp.

Section basic.
Context {A : Type} (D : World → Prop).
Implicit Types (Q : Result A VipError → World → Prop) (t : vtask A).

Lemma wp_rely Q t w w' : rtc (rely owned) w w' → wp D Q t w → wp D Q t w'.
Proof. intros Hs Ht. destruct t; intros w1 Hw1 Hg; apply Ht; [by etrans|done|by etrans|done]. Qed.

Lemma wp_later Q t w : (∀ w', rtc (rely owned) w w' → good owned None w' → wp D Q t w') → wp D Q t w.
Proof. intros Ht. destruct t; intros w' Hs Hg; by apply (Ht w' Hs Hg w'). Qed.

End basic.

(** An event followed by something weaker. *)
Lemma wp_do_mono {A B X} D D' (Q : Result A VipError → World → Prop) (Q' : Result B VipError → World → Prop)
    (e : VipEv X) (k : X → vtask A) (k' : X → vtask B) w :
  wp D Q (Do e k) w → (∀ x w', wp D Q (k x) w' → wp D' Q' (k' x) w') → (∀ w', D w' → D' w') → wp D' Q' (Do e k') w.
Proof.
  intros Ht Hk HD w' Hs Hg. destruct (Ht w' Hs Hg) as (Hd & He & Hi & Hdr & Hw). split_and!; [by apply HD|done| | |].
  - intros x w'' Hx. destruct (Hi x w'' Hx) as [? ?]. split; [done|]. by apply Hk.
  - intros x Hx. by apply Hk, Hdr.
  - intros c f Hc. destruct (Hw c f Hc) as (Herr & Hsp & Hwait). split_and!; [by intros; apply Hk, Herr|done|].
    intros w'' Hs' Hg'. destruct (Hwait w'' Hs' Hg') as (H1 & H2 & H3). split_and!; [by apply HD| |].
    + intros r result Hr Hres. by eapply Hk, H2.
    + intros x Hx. by eapply Hk, H3.
Qed.

Lemma wp_mono {A} D D' (Q Q' : Result A VipError → World → Prop) t w :
  wp D Q t w → (∀ r w', good owned None w' → Q r w' → Q' r w') → (∀ w', D w' → D' w') → wp D' Q' t w.
Proof.
  intros Ht HQ HD. revert w Ht. induction t as [r|X e k IH]; intros w Ht.
  - intros w' Hs Hg. by apply HQ, (Ht w').
  - eapply wp_do_mono; [exact Ht| |done]. intros x w'. apply IH.
Qed.

Lemma wp_bind {A B} D (Q : Result B VipError → World → Prop) (t : vtask A) (k : A → vtask B) w :
  wp D (λ r w', match r with Ok a => wp D Q (k a) w' | Err e => Q (Err e) w' end) t w →
  wp D Q (task_bind k t) w.
Proof.
  revert w. induction t as [[a|e]|X e f IH]; intros w Ht.
  - cbn. apply wp_later. intros w' Hs Hg. by apply (Ht w').
  - intros w' Hs Hg. by apply (Ht w').
  - eapply wp_do_mono; [exact Ht| |done]. intros x w'. apply IH.
Qed.

Lemma wp_outcome {A} D (Q : Result (Result A VipError) VipError → World → Prop) (t : vtask A) w :
  wp D (λ r w', Q (Ok r) w') t w → wp D Q (outcome t) w.
Proof.
  revert w. induction t as [r|X e f IH]; intros w Ht; [done|].
  eapply wp_do_mono; [exact Ht| |done]. intros x w'. apply IH.
Qed.

(** An operation that may be dropped at every event. *)
Lemma wp_revocable {A} D (Q : Result (option (Result A VipError)) VipError → World → Prop) (t : vtask A) w :
  (∀ w', good owned None w' → D w' → Q (Ok None) w') → stable owned D → 
  wp D (λ r w', Q (Ok (Some r)) w' ∧ stable owned (λ w, Q (Ok (Some r)) w) ∧ D w') t w → wp (λ _, True) Q (revocable t) w.
Proof.
  intros HD Hst. assert (∀ w', D w' → wp (λ _, True) Q (Ret (Ok None)) w') as Hdrop.
  { intros w' Hd w1 Hs Hg. apply HD; [done|]. by eapply stable_rtc. }
  revert w. induction t as [r|X e k IH]; intros w Ht.
  - intros w' Hs Hg. destruct (Ht w' Hs Hg) as (HQ & HQs & Hd). split_and!; [done|done| |done|done].
    intros x w'' ->. split; [by intros tg; apply (good_guarded _ _ _ Hg)|].
    intros w1 Hs1 Hg1. destruct x; [by eapply (stable_rtc _ _ w')|].
    apply HD; [done|]. by eapply stable_rtc.
  - intros w' Hs Hg. destruct (Ht w' Hs Hg) as (Hd & He & Hi & Hdr & Hw). split_and!; [done|done| | |].
    + intros [x|] w'' Hx; [|done]. destruct (Hi _ _ Hx) as [? ?]. split; [done|]. by apply IH.
    + intros x [= <-]. by apply Hdrop.
    + intros c f Hc. cbn in Hc. destruct (waits e) as [[c' g]|] eqn:Hwe; [|done]. injection Hc as <- <-.
      destruct (Hw _ g eq_refl) as (Herr & Hsp & Hwait). split_and!; [by intros; apply IH, Herr|done|].
      intros w'' Hs' Hg'. destruct (Hwait w'' Hs' Hg') as (H1 & H2 & H3). split_and!; [done| |].
      * intros r result Hr Hres. by eapply IH, H2.
      * intros x [= <-]. by apply Hdrop.
Qed.

(** ** Triples *)

Definition triple {A} D P (t : vtask A) (Q : Result A VipError → World → Prop) : Prop :=
  ∀ w, good owned None w → P w → wp D Q t w.

Section triples.
Context (D : World → Prop).

Lemma triple_ret {A} P (r : Result A VipError) Q :
  stable owned P → (∀ w, good owned None w → P w → Q r w) → triple D P (Ret r) Q.
Proof. intros HP HQ w Hg Hw w' Hs Hg'. apply HQ; [done|]. by eapply stable_rtc. Qed.

Lemma triple_conseq {A} P P' (t : vtask A) Q Q' :
  triple D P' t Q' → (∀ w, good owned None w → P w → P' w) →
  (∀ r w, good owned None w → Q' r w → Q r w) → triple D P t Q.
Proof. intros Ht HP HQ w Hg Hw. eapply wp_mono; [by apply Ht, HP|done|done]. Qed.

Lemma triple_pre {A} P P' (t : vtask A) Q :
  triple D P' t Q → (∀ w, good owned None w → P w → P' w) → triple D P t Q.
Proof. intros Ht HP. by eapply triple_conseq. Qed.

Lemma triple_bind {A B} P (t : vtask A) R (k : A → vtask B) Q :
  triple D P t R → (∀ a, triple D (R (Ok a)) (k a) Q) → (∀ e w, R (Err e) w → Q (Err e) w) →
  triple D P (task_bind k t) Q.
Proof.
  intros Ht Hk He w Hg Hw. apply wp_bind. eapply wp_mono; [by apply Ht| |done].
  intros [a|e] w' Hg' Hr; [by apply Hk|by apply He].
Qed.

Lemma triple_try {A B} P (t : vtask A) R (k : Result A VipError → vtask B) Q :
  triple D P t R → (∀ r, triple D (R r) (k r) Q) → triple D P (task_bind k (outcome t)) Q.
Proof.
  intros Ht Hk w Hg Hw. apply wp_bind, wp_outcome. eapply wp_mono; [by apply Ht| |done].
  intros r w' Hg' Hr. by apply Hk.
Qed.

(** An event that takes no time. *)
Lemma triple_instant {A X} P (P' : X → World → Prop) (e : VipEv X) (k : X → vtask A) Q :
  stable owned P → (∀ w, P w → D w) → concerns e → waits e = None → dropped e = None →
  (∀ x, stable owned (P' x)) →
  (∀ w x w', good owned None w → P w → instant w e x w' → all_guarded w' ∧ P' x w') →
  (∀ x, triple D (P' x) (k x) Q) → triple D P (Do e k) Q.
Proof.
  intros HP HD He Hwe Hde HP' Hi Hk w Hg Hw w1 Hs Hg1. pose proof (stable_rtc _ _ _ _ HP Hs Hw) as Hw1.
  split_and!; [by apply HD|done| |by rewrite Hde|by rewrite Hwe].
  intros x w' Hx. destruct (Hi _ _ _ Hg1 Hw1 Hx) as [Hall Hp]. split; [done|].
  apply wp_later. intros w2 Hs2 Hg2. apply Hk; [done|]. by eapply stable_rtc.
Qed.

(** A question whose answer says something about the world. *)
Lemma triple_ask {A X} P (F : X → World → Prop) (e : VipEv X) (k : X → vtask A) Q :
  stable owned P → (∀ w, P w → D w) → concerns e → waits e = None → dropped e = None →
  (∀ x, stable owned (F x)) →
  (∀ w x w', good owned None w → P w → instant w e x w' → w' = w ∧ F x w) →
  (∀ x, triple D (λ w, P w ∧ F x w) (k x) Q) → triple D P (Do e k) Q.
Proof.
  intros HP HD He Hwe Hde HF Hi Hk. eapply (triple_instant P (λ x w, P w ∧ F x w)); try done.
  - intros x. by apply stable_and.
  - intros w x w' Hg Hw Hx. destruct (Hi _ _ _ Hg Hw Hx) as [-> ?]. split; [|done]. intros tg. apply (good_guarded _ _ _ Hg).
Qed.

(** A command.  [W] holds while it runs. *)
Lemma triple_wait {A} P (W : nat → World → Prop) (P' : Result bool CommandError → World → Prop) c (k : _ → vtask A) Q :
  stable owned P → (∀ w, P w → D w) → owns owned (command_ip c) → (∀ j, stable owned (W j)) →
  (∀ r, stable owned (P' r)) →
  (∀ w, good owned None w → P w → all_guarded (spawn c w) ∧ W (length (runs w)) (spawn c w)) →
  (∀ j w, W j w → D w) →
  (∀ w e, P w → P' (Err e) w) →
  (∀ j w r result, good owned (Some j) w → W j w → runs w !! j = Some r → run_result r = Some result → P' result w) →
  (∀ r, triple D (P' r) (k r) Q) → triple D P (Do (Status c) k) Q.
Proof.
  intros HP HD Hc HW HP' Hsp HDW Herr Hres Hk w Hg Hw w1 Hs Hg1. pose proof (stable_rtc _ _ _ _ HP Hs Hw) as Hw1.
  split_and!; [by apply HD|done|done|done|]. intros c' f [= <- <-].
  destruct (Hsp _ Hg1 Hw1) as [Hall HW0]. split_and!; [intros e; apply Hk; [done|by apply Herr]|done|].
  intros w2 Hs2 Hg2. pose proof (stable_rtc _ _ _ _ (HW _) Hs2 HW0) as HW2. split_and!; [|intros r result Hr Hrr|done].
  - apply (HDW (length (runs w1))). by eapply (HW _ w2), HW2; apply rely_abandon.
  - apply wp_later. intros w3 Hs3 Hg3. apply Hk; [done|]. eapply (stable_rtc owned); [by apply HP'|done|]. by eapply Hres.
Qed.

(** A command that adds no owned address says nothing. *)
Lemma triple_status {A} P c (k : _ → vtask A) Q :
  stable owned P → (∀ w, P w → D w) → owns owned (command_ip c) → (∀ tg, owned tg → c ≠ add_of tg) →
  (∀ r, triple D P (k r) Q) → triple D P (Do (Status c) k) Q.
Proof.
  intros HP HD Hc Hadd Hk. eapply (triple_wait P (λ _, P) (λ _, P)); try done.
  intros w Hg Hw. split; [|by eapply HP, Hw; apply rely_spawn].
  intros tg Htg. eapply (stable_guarded owned tg Htg w); [by apply rely_spawn|]. by apply (good_guarded _ _ _ Hg).
Qed.

(** While nobody adds the address, a successful removal of it leaves it absent. *)
Lemma rely_gone tg w w' j r :
  rely owned w w' → (∀ i, ¬ live_adder tg w i) → runs w !! j = Some r →
  run_command r = AddrDel (addr tg.1) (prefix tg.1) tg.2 → (run_exit r = Some true → ¬ here tg w) →
  ∃ r', runs w' !! j = Some r' ∧ run_command r' = AddrDel (addr tg.1) (prefix tg.1) tg.2 ∧
        (run_exit r' = Some true → ¬ here tg w').
Proof.
  intros Hs Hno Hj Hcmd Hgone. destruct (proj1 (runs_step_rely _ _ _ Hs) j r Hj) as (r' & Hj' & Ha).
  exists r'. split_and!; [done|by rewrite (proj1 Ha)|]. intros He Hh.
  destruct (rely_here _ _ _ _ Hs Hh) as [Hw|[i Hi]]; [|by eapply Hno].
  destruct (run_exit r) as [st|] eqn:Hst.
  - rewrite (proj1 (proj2 (proj2 (proj2 Ha))) st Hst) in He. simplify_eq. by apply Hgone.
  - pose proof (rely_landed _ _ _ _ _ _ _ Hs Hj Hj' Hst He) as Hc. rewrite Hcmd in Hc. by eapply del_detaches, Hh.
Qed.

(** The removal of an address nobody adds. *)
Lemma triple_del {A} P tg (k : _ → vtask A) Q :
  stable owned P → (∀ w, P w → D w) → owned tg → (∀ w, P w → no_adder tg w) →
  (∀ r, triple D (λ w, P w ∧ (r = Ok true → ¬ at_risk tg w)) (k r) Q) →
  triple D P (Do (Status (AddrDel (addr tg.1) (prefix tg.1) tg.2)) k) Q.
Proof.
  intros HP HD Htg Hno Hk.
  set (gone j w := ∃ r, runs w !! j = Some r ∧ run_command r = AddrDel (addr tg.1) (prefix tg.1) tg.2 ∧
                        (run_exit r = Some true → ¬ here tg w)).
  assert (∀ w, no_adder tg w → ∀ j, ¬ live_adder tg w j) as Hlive.
  { intros w Hn j (r & Hj & Hr & Hre & _). eapply (Hn j). by exists r. }
  eapply (triple_wait P (λ j w, P w ∧ gone j w) (λ r w, P w ∧ (r = Ok true → ¬ at_risk tg w))); try done.
  - by exists tg.
  - intros j w w' Hs [Hw (r & Hj & Hcmd & Hgone)]. split; [by eapply HP|].
    destruct (rely_gone _ _ _ _ _ Hs (Hlive w (Hno w Hw)) Hj Hcmd Hgone) as (r' & ? & ? & ?). by exists r'.
  - intros r. apply stable_and; [done|]. apply stable_imp. by apply stable_not_at_risk.
  - intros w Hg Hw. assert (rely owned w (spawn (AddrDel (addr tg.1) (prefix tg.1) tg.2) w)) as Hs by by apply rely_spawn.
    split; [by intros tg' Htg'; eapply (stable_guarded owned), (good_guarded _ _ _ Hg)|]. split; [by eapply HP|].
    exists (run_new (AddrDel (addr tg.1) (prefix tg.1) tg.2)). split_and!; [|done|done].
    cbn. by rewrite lookup_app_r, Nat.sub_diag by lia.
  - by intros j w [Hw _]; apply HD.
  - intros j w r result Hg [Hw (r' & Hj & Hcmd & Hgone)] Hr Hrr. split; [done|]. intros ->. simplify_eq.
    destruct (Forall_lookup_1 _ _ _ _ (wf_runs _ (good_wf _ _ _ Hg)) Hj) as (Hexit & _).
    intros [Hh|[i Hi]]; [by apply Hgone; [apply Hexit|]|]. by eapply Hlive, Hi; apply Hno.
Qed.
End triples.
End rules.

(** Show the sequencing of tasks. *)
Ltac show_bind :=
  match goal with
  | |- triple _ _ _ (mbind ?k ?t) _ => change (mbind k t) with (task_bind k t)
  end.
