(* ===== verification/KernelSpecs.v ===== *)
(** * What the tasks of [LocalVip] achieve

    Specifications of the removal and the binding of an address, in the logic of
    [KernelRules]. *)

From S2P Require Import Prelude Text Io Types Tasks VipCommands Ownership LocalVip KernelWorld KernelLogic KernelRules.

Section specs.
Context `{!IpTool} `{!IpToolLaws} (owned : VipAddr * Text → Prop).
Context (ip_parse : Text → option IpAddr) (decode_routes : list N → option (list MarkerRouteInfo)) (protocol : N).
Hypothesis (owned_distinct : ∀ tg tg', owned tg → owned tg' → ip_of tg = ip_of tg' → tg = tg').
Implicit Types (w : World) (tg : VipAddr * Text) (D P : World → Prop).

Notation track s ip w := (set_tracking s ({[ip]} ∪ tracking s w) w) (only parsing).
Notation untrack s ip w := (set_tracking s (tracking s w ∖ {[ip]}) w) (only parsing).

(** ** Tracking *)

Lemma at_risk_tracking tg s X w : at_risk tg (set_tracking s X w) ↔ at_risk tg w.
Proof.
  unfold at_risk, live_adder, here. destruct (set_tracking_rest s X w) as (-> & -> & _). done.
Qed.

Lemma lost_adder_tracking tg s X w j : lost_adder tg (set_tracking s X w) j ↔ lost_adder tg w j.
Proof. unfold lost_adder. by rewrite (proj1 (set_tracking_rest s X w)). Qed.

Lemma no_adder_tracking tg s X w : no_adder tg (set_tracking s X w) ↔ no_adder tg w.
Proof. unfold no_adder, open_adder. by rewrite (proj1 (set_tracking_rest s X w)). Qed.

Lemma owned_ip tg : owned tg → owns owned (ip_of tg).
Proof. intros Htg. by exists tg. Qed.

(** Tracking one owned address differently leaves the others guarded. *)
Lemma all_guarded_tracking tg s X w :
  owned tg → all_guarded owned w → (∀ a, a ≠ ip_of tg → a ∈ X ↔ a ∈ tracking s w) →
  guarded tg (set_tracking s X w) → all_guarded owned (set_tracking s X w).
Proof.
  intros Htg Hall HX Hg tg' Htg'. destruct (decide (tg' = tg)) as [->|Hne]; [done|].
  eapply (stable_guarded (eq tg') tg'); [done| |by apply Hall]. apply (rely_track _ _ _ (ip_of tg)); [|done].
  intros (x & <- & Heq). by apply Hne, owned_distinct.
Qed.

Lemma all_guarded_insert tg s w :
  owned tg → all_guarded owned w → all_guarded owned (track s (ip_of tg) w).
Proof.
  intros Htg Hall. apply (all_guarded_tracking tg); [done|done|set_solver|].
  intros Hr%at_risk_tracking. destruct (Hall tg Htg Hr) as [Hb|[Hc|[j Hj]]]; destruct s; cbn in *; unfold covered; cbn;
    try (left; set_solver); try (right; left; set_solver); right; right; by exists j.
Qed.

(** An address may be forgotten when something else remembers it. *)
Lemma all_guarded_remove tg s w :
  owned tg → all_guarded owned w →
  match s with
  | Bound => at_risk tg w → covered tg w
  | PendingFirstBind => True
  | NeedsRecleanup => ¬ at_risk tg w
  end → all_guarded owned (untrack s (ip_of tg) w).
Proof.
  intros Htg Hall Hs. apply (all_guarded_tracking tg); [done|done|set_solver|]. intros Hr%at_risk_tracking. destruct s.
  - right. by destruct (Hs Hr) as [?|[j Hj]]; [left|right; exists j].
  - destruct (Hall tg Htg Hr) as [?|[?|[j Hj]]]; [by left|right; by left|]. right. right. by exists j.
  - done.
Qed.

(** What a cleanup of other addresses keeps. *)
Record inert (F : World → Prop) : Prop := {
  inert_stable : stable owned F;
  inert_remove s ip w : F w → F (untrack s ip w);
  inert_recleanup ip w : F w → F (track NeedsRecleanup ip w)
}.

(** ** Questions *)

(** A settled tracker: no child can add an address of a task that waits for none. *)
Lemma settled_no_adder tg w :
  owned tg → good owned None w → is_settled (children w) = true → no_adder tg w.
Proof.
  intros Htg Hg Hs j (r & Hj & Hc & Hr). pose proof (settled_runs w j r (good_wf _ _ _ Hg) Hs Hj Hr) as Hp.
  assert (None = Some j) as [=]. apply (good_calm _ _ _ Hg j r Hj Hp). rewrite Hc. by apply owned_ip.
Qed.

Section with_drop.
Context (D : World → Prop).

Lemma triple_settled {A} P (k : bool → vtask A) Q :
  stable owned P → (∀ w, P w → D w) →
  (∀ b, triple owned D (λ w, P w ∧ (b = true → ∀ tg, owned tg → no_adder tg w)) (k b) Q) →
  triple owned D P (Do IsSettled k) Q.
Proof.
  intros HP HD Hk. eapply (triple_ask _ _ _ (λ b w, b = true → ∀ tg, owned tg → no_adder tg w)); try done.
  - intros b. apply stable_imp, stable_all. intros tg w w' Hs Hw Htg. by eapply stable_no_adder, Hw.
  - intros w b w' Hg _ [-> ->]. split; [done|]. intros Hs tg Htg. by apply settled_no_adder.
Qed.

Lemma triple_contains {A} P s tg (k : bool → vtask A) Q :
  stable owned P → (∀ w, P w → D w) → owned tg →
  (∀ b : bool, triple owned D (λ w, P w ∧ (if b then ip_of tg ∈ tracking s w else ip_of tg ∉ tracking s w)) (k b) Q) →
  triple owned D P (Do (Contains s (ip_of tg)) k) Q.
Proof.
  intros HP HD Htg Hk.
  eapply (triple_ask _ _ _ (λ (b : bool) w, if b then ip_of tg ∈ tracking s w else ip_of tg ∉ tracking s w)); try done.
  - intros []; [by apply stable_tracked|by apply stable_untracked].
  - intros w b w' _ _ [-> ->]. split; [done|]. by case_bool_decide.
Qed.

(** An answer that says nothing. *)
Lemma triple_idle {A X} P (e : VipEv X) (k : X → vtask A) Q :
  stable owned P → (∀ w, P w → D w) → concerns owned e → waits e = None → dropped e = None →
  (∀ w x w', instant w e x w' → w' = w) →
  (∀ x, triple owned D P (k x) Q) → triple owned D P (Do e k) Q.
Proof.
  intros HP HD He Hwe Hde Hi Hk. eapply (triple_instant _ _ P (λ _, P)); try done.
  intros w x w' Hg Hw ->%Hi. split; [|done]. intros tg. apply (good_guarded _ _ _ Hg).
Qed.

Lemma triple_probe {A} P G tg (k : _ → vtask A) Q :
  stable owned P → (∀ w, P w → D w) → stable owned G →
  (∀ w, good owned None w → P w → ¬ here tg w → G w) →
  (∀ r : Result Output CommandError,
     triple owned D (λ w, P w ∧ (∀ o, r = Ok o → output_success o = true → output_stdout o = [] → G w)) (k r) Q) →
  triple owned D P (Do (Query (PresenceProbe (ip_of tg))) k) Q.
Proof.
  intros HP HD HG HPG Hk.
  eapply (triple_ask _ _ _ (λ r w, ∀ o, r = Ok o → output_success o = true → output_stdout o = [] → G w)); try done.
  - intros r. apply stable_all. intros o. by do 3 apply stable_imp.
  - intros w [o|e] w' Hg Hw [Ho ->]; (split; [done|]); [|done].
    intros o' [= <-] Hs He. apply HPG; [done..|]. by eapply probe_absent.
Qed.

Lemma stable_probed P G (r : Result Output CommandError) :
  stable owned P → stable owned G →
  stable owned (λ w, P w ∧ (∀ o, r = Ok o → output_success o = true → output_stdout o = [] → G w)).
Proof. intros HP HG. apply stable_and; [done|]. apply stable_all. intros o. by do 3 apply stable_imp. Qed.

(** ** Markers *)

Lemma marker_delete_spec P tg :
  stable owned P → (∀ w, P w → D w) → owned tg →
  triple owned D P (marker_delete ip_parse decode_routes protocol (ip_of tg)) (λ _, P).
Proof.
  intros HP HD Htg. apply triple_status; [done|done|by apply owned_ip|done|].
  intros [[]|e]; cbn; [by apply triple_ret| |by apply triple_ret].
  apply triple_idle; [done|done|done|done|done|by intros ? ? ? [_ ->]|].
  intros [o|e]; cbn; [|by apply triple_ret].
  destruct (failed_marker_delete_is_absent _ _ _ _ _); by apply triple_ret.
Qed.

Lemma marker_replace_spec P tg :
  stable owned P → (∀ w, P w → D w) → owned tg →
  triple owned D P (marker_replace protocol (ip_of tg)) (λ _, P).
Proof.
  intros HP HD Htg. apply triple_status; [done|done|by apply owned_ip|done|].
  intros [[]|e]; cbn; by apply triple_ret.
Qed.
End with_drop.

(** ** Removal *)

Notation no_drop := (λ _ : World, True).

(** The delete of [unbind]: with no child that adds the address, it ends absent. *)
Definition delete_address tg : vtask unit :=
  st ← status (AddrDel (addr tg.1) (prefix tg.1) tg.2);
  _ ← verify_delete_result st (addr tg.1);
  marker_delete ip_parse decode_routes protocol (addr tg.1).

Lemma verify_delete_spec P tg st (q : bool) :
  stable owned P → owned tg → (q = true → ∀ w, P w → no_adder tg w) →
  triple owned no_drop (λ w, P w ∧ (q = true → st = true → ¬ at_risk tg w)) (verify_delete_result st (ip_of tg))
    (λ r w, P w ∧ (is_ok r = true → q = true → ¬ at_risk tg w)).
Proof.
  intros HP Htg Hno. assert (stable owned (λ w, q = true → ¬ at_risk tg w)) as HR by by apply stable_imp, stable_not_at_risk.
  destruct st; cbn.
  { apply triple_ret; [|by intros w _ [Hw Hr]; split; [|intros _ Hq; by apply Hr]].
    apply stable_and; [done|]. intros w w' Hs Hw Hq _. eapply (HR w w'); [done| |done]. intros _. by apply Hw. }
  eapply triple_pre; [|intros w _ [Hw _]; exact Hw].
  apply (triple_probe _ P (λ w, q = true → ¬ at_risk tg w)); [done|done|done| |].
  { intros w _ Hw Hh Hq [?|[j (r & Hj & Hc & Hr & _)]]; [done|]. eapply (Hno Hq w Hw j). by exists r. }
  intros [o|e]; cbn; (apply triple_ret; [by apply stable_probed|]); [|by intros w _ [Hw _]].
  intros w _ [Hw Hr]. split; [done|]. destruct (output_success o) eqn:Hs; cbn; [|done].
  case_bool_decide as He; cbn; [|done]. intros _. by apply (Hr o).
Qed.

Lemma delete_address_spec P tg (q : bool) :
  stable owned P → owned tg → (q = true → ∀ w, P w → no_adder tg w) →
  triple owned no_drop P (delete_address tg) (λ r w, P w ∧ (is_ok r = true → q = true → ¬ at_risk tg w)).
Proof.
  intros HP Htg Hno. unfold delete_address, status.
  assert (∀ r : Result bool CommandError, stable owned (λ w, q = true → r = Ok true → ¬ at_risk tg w)) as HR.
  { intros r. apply stable_imp, stable_imp. by apply stable_not_at_risk. }
  assert (∀ r : Result bool CommandError, triple owned no_drop (λ w, P w ∧ (q = true → r = Ok true → ¬ at_risk tg w))
    (st ← Ret (match r with Ok st => Ok st | Err e => Err (CommandFailed e) end);
     _ ← verify_delete_result st (addr tg.1);
     marker_delete ip_parse decode_routes protocol (addr tg.1))
    (λ r w, P w ∧ (is_ok r = true → q = true → ¬ at_risk tg w))) as Hk.
  { intros [st|e]; cbn; [|by apply triple_ret; [apply stable_and|intros w _ [Hw _]]].
    eapply triple_bind; [eapply triple_pre; [by apply (verify_delete_spec P tg st q)|]|..].
    - intros w _ [Hw Hr]. split; [done|]. intros Hq ->. by apply Hr.
    - intros a. eapply triple_conseq; [apply (marker_delete_spec _ (λ w, P w ∧ (q = true → ¬ at_risk tg w))); try done|..].
      + apply stable_and; [done|]. by apply stable_imp, stable_not_at_risk.
      + intros w _ [Hw Hr]. split; [done|]. by apply Hr.
      + intros r w _ [Hw Hr]. done.
    - by intros e w [Hw _]. }
  destruct q.
  - apply (triple_del _ _ P tg); [done|done|done|by intros; apply Hno|]. intros r. eapply triple_pre; [apply Hk|].
    by intros w _ [Hw Hr].
  - apply triple_status; [done|done|by apply owned_ip|done|]. intros r. by eapply triple_pre; [apply Hk|].
Qed.

(** Tracking an owned address more, and less. *)
Lemma triple_insert {A} D P P' s tg (k : unit → vtask A) Q :
  stable owned P → (∀ w, P w → D w) → stable owned P' → owned tg →
  (∀ w, P w → P' (track s (ip_of tg) w)) →
  triple owned D P' (k tt) Q → triple owned D P (Do (Insert s (ip_of tg)) k) Q.
Proof.
  intros HP HD HP' Htg Hi Hk. apply (triple_instant _ _ P (λ _, P')); try done; [by apply owned_ip| |by intros []].
  intros w x w' Hg Hw ->. split; [|by apply Hi]. apply all_guarded_insert; [done|]. intros tg'. apply (good_guarded _ _ _ Hg).
Qed.

Lemma triple_remove {A} D P P' s tg (k : unit → vtask A) Q :
  stable owned P → (∀ w, P w → D w) → stable owned P' → owned tg →
  (∀ w, P w → match s with
              | Bound => at_risk tg w → covered tg w
              | PendingFirstBind => True
              | NeedsRecleanup => ¬ at_risk tg w
              end ∧ P' (untrack s (ip_of tg) w)) →
  triple owned D P' (k tt) Q → triple owned D P (Do (Remove s (ip_of tg)) k) Q.
Proof.
  intros HP HD HP' Htg Hi Hk. apply (triple_instant _ _ P (λ _, P')); try done; [by apply owned_ip| |by intros []].
  intros w x w' Hg Hw ->. destruct (Hi w Hw) as [Hs Hp]. split; [|done].
  apply all_guarded_remove; [done| |done]. intros tg'. apply (good_guarded _ _ _ Hg).
Qed.

(** An untracked address that no child adds is absent. *)
Lemma untracked_absent tg w :
  guarded tg w → no_adder tg w → ip_of tg ∉ bound w → ip_of tg ∉ needs_recleanup w → ¬ at_risk tg w.
Proof.
  intros Hg Hno Hb Hr Hrisk. destruct (Hg Hrisk) as [?|[?|[j (r & Hj & Hc & Hre & _)]]]; [done..|].
  eapply (Hno j). by exists r.
Qed.

(** The address is forgotten at the end of [unbind]. *)
Definition forget tg (settled : bool) : vtask unit :=
  _ ← (if settled then Ret (Ok tt) else perform (Insert NeedsRecleanup (addr tg.1)));
  _ ← perform (Remove Bound (addr tg.1));
  _ ← perform (Remove PendingFirstBind (addr tg.1));
  if settled then perform (Remove NeedsRecleanup (addr tg.1)) else Ret (Ok tt).

Lemma forget_spec F tg (settled : bool) :
  inert F → owned tg →
  triple owned no_drop (λ w, F w ∧ (settled = true → ¬ at_risk tg w)) (forget tg settled)
    (λ r w, F w ∧ ip_of tg ∉ bound w).
Proof.
  intros [HF Hrm Hre] Htg. pose proof (stable_not_at_risk owned tg Htg) as HR.
  pose proof (stable_untracked owned tg Htg Bound) as HB. pose proof (stable_tracked owned tg Htg NeedsRecleanup) as HN.
  destruct settled; cbn.
  - eapply triple_pre; [|intros w _ [Hw Hr]; exact (conj Hw (Hr eq_refl))].
    apply (triple_remove _ _ (λ w, (F w ∧ ¬ at_risk tg w) ∧ ip_of tg ∉ tracking Bound w)); [by apply stable_and|done|by repeat apply stable_and|done| |].
    { intros w [Hw Hr]. split; [done|]. rewrite at_risk_tracking. split; [auto|]. set_solver. }
    apply (triple_remove _ _ (λ w, (F w ∧ ¬ at_risk tg w) ∧ ip_of tg ∉ tracking Bound w)); [by repeat apply stable_and|done|by repeat apply stable_and|done| |].
    { intros w [[Hw Hr] Hb]. split; [done|]. by rewrite at_risk_tracking; auto. }
    apply (triple_remove _ _ (λ w, F w ∧ ip_of tg ∉ tracking Bound w)); [by repeat apply stable_and|done|by apply stable_and|done| |].
    { intros w [[Hw Hr] Hb]. split; [done|]. by split; [apply Hrm|]. }
    apply triple_ret; [by apply stable_and|done].
  - eapply triple_pre; [|intros w _ [Hw _]; exact Hw].
    apply (triple_insert _ _ (λ w, F w ∧ ip_of tg ∈ tracking NeedsRecleanup w)); [done|done|by apply stable_and|done| |].
    { intros w Hw. split; [by apply Hre|]. set_solver. }
    apply (triple_remove _ _ (λ w, F w ∧ ip_of tg ∉ tracking Bound w)); [by apply stable_and|done|by apply stable_and|done| |].
    { intros w [Hw Hr]. split; [by left|]. split; [auto|]. set_solver. }
    apply (triple_remove _ _ (λ w, F w ∧ ip_of tg ∉ tracking Bound w)); [by apply stable_and|done|by apply stable_and|done| |].
    { intros w [Hw Hb]. split; [done|]. by split; [apply Hrm|]. }
    apply triple_ret; [by apply stable_and|done].
Qed.

Lemma inert_and F G : inert F → inert G → inert (λ w, F w ∧ G w).
Proof.
  intros [HF1 HF2 HF3] [HG1 HG2 HG3]. split; [by apply stable_and|..].
  - intros s ip w [??]. auto.
  - intros ip w [??]. auto.
Qed.

Lemma inert_imp (φ : Prop) F : inert F → inert (λ w, φ → F w).
Proof. intros [HF1 HF2 HF3]. split; [by apply stable_imp|..]; auto. Qed.

Lemma inert_absent tg : owned tg → inert (λ w, ¬ at_risk tg w).
Proof. intros Htg. split; [by apply stable_not_at_risk|..]; intros; by rewrite at_risk_tracking. Qed.

Lemma inert_no_adder tg : owned tg → inert (no_adder tg).
Proof. intros Htg. split; [by apply stable_no_adder|..]; intros; by rewrite no_adder_tracking. Qed.

Lemma inert_unbound tg : owned tg → inert (λ w, ip_of tg ∉ bound w).
Proof.
  intros Htg. split; [by apply (stable_untracked owned tg Htg Bound)|..].
  - intros [] ip w Hw; cbn; set_solver.
  - done.
Qed.

(** The removal of a tracked address. *)
Lemma removal_spec F tg (q settled : bool) :
  inert F → owned tg → (q || settled = true → ∀ w, F w → no_adder tg w) →
  triple owned no_drop F (task_bind (λ _, forget tg settled) (delete_address tg))
    (λ r w, F w ∧ (is_ok r = true → ip_of tg ∉ bound w ∧ (q = true → ¬ at_risk tg w))).
Proof.
  intros HF Htg Hno. eapply triple_bind.
  - apply (delete_address_spec F tg (q || settled)); [apply HF|done|done].
  - intros []. set (G w := F w ∧ (q = true → ¬ at_risk tg w)).
    assert (inert G) as HG by (apply inert_and; [done|by apply inert_imp, inert_absent]).
    eapply triple_conseq; [by apply (forget_spec G tg settled)|..].
    + intros w _ [Hw Hr]. split; [split; [done|]|]; intros ->; apply Hr; auto using orb_true_r.
    + by intros r w _ [[Hw Hr] Hb].
  - by intros e w [Hw _].
Qed.

(** [unbind]: afterwards the address is not tracked as bound; when no child adds it, it is absent. *)
Lemma unbind_spec F tg (q : bool) :
  inert F → owned tg → (q = true → ∀ w, F w → no_adder tg w) →
  triple owned no_drop F (unbind ip_parse decode_routes protocol false tg.1 tg.2)
    (λ r w, F w ∧ (is_ok r = true → ip_of tg ∉ bound w ∧ (q = true → ¬ at_risk tg w))).
Proof.
  intros HF Htg Hq. pose proof (inert_stable _ HF) as HFs. unfold unbind.
  apply triple_settled; [done|done|]. intros settled.
  set (q' := q || settled).
  set (F' w := F w ∧ (q' = true → no_adder tg w)).
  assert (inert F') as HF'. { apply inert_and; [done|]. by apply inert_imp, inert_no_adder. }
  pose proof (inert_stable _ HF') as HFs'.
  apply (triple_pre _ _ _ F').
  2: { intros w _ [Hw Hs]. split; [done|]. intros [?|?]%orb_true_iff; [by apply Hq|by apply Hs]. }
  apply triple_idle; [done|done|done|done|done|done|]. intros _.
  apply (triple_contains _ _ Bound tg); [done|done|done|]. intros b. cbn.
  assert (triple owned no_drop F' (task_bind (λ _, forget tg settled) (delete_address tg))
    (λ r w, F w ∧ (is_ok r = true → ip_of tg ∉ bound w ∧ (q = true → ¬ at_risk tg w)))) as Hremove.
  { eapply triple_conseq; [by apply (removal_spec F' tg q settled); [| |intros ? w [_ Hw]; apply Hw]|done|].
    by intros r w _ [[Hw _] Hr]. }
  destruct b; cbn; [by eapply triple_pre; [exact Hremove|intros w _ [Hw _]]|].
  pose proof (stable_untracked owned tg Htg) as HU.
  apply (triple_contains _ _ NeedsRecleanup tg); [by apply stable_and; [|apply (HU Bound)]|done|done|].
  intros [|]; cbn; [by eapply triple_pre; [exact Hremove|intros w _ [[Hw _] _]]|].
  apply triple_ret; [apply stable_and; [by apply stable_and; [|apply (HU Bound)]|apply (HU NeedsRecleanup)]|].
  intros w Hg [[[Hw Hno] Hb] Hr]. split; [done|]. intros _. split; [done|]. intros ->.
  apply untracked_absent; [by apply (good_guarded _ _ _ Hg)|by apply Hno|done|done].
Qed.

(** What is known of an address after its removal. *)
Definition removed (q : bool) tg w : Prop := ip_of tg ∉ bound w ∧ (q = true → ¬ at_risk tg w).

Lemma inert_removed q tg : owned tg → inert (removed q tg).
Proof. intros Htg. apply inert_and; [by apply inert_unbound|by apply inert_imp, inert_absent]. Qed.

Lemma inert_all {X} (G : X → World → Prop) (S : X → Prop) :
  (∀ x, S x → inert (G x)) → inert (λ w, ∀ x, S x → G x w).
Proof.
  intros HG. split.
  - intros w w' Hs Hw x Hx. by eapply (inert_stable _ (HG x Hx)), Hw.
  - intros s ip w Hw x Hx. by apply (inert_remove _ (HG x Hx)), Hw.
  - intros ip w Hw x Hx. by apply (inert_recleanup _ (HG x Hx)), Hw.
Qed.

Lemma unbind_attempts_spec F tg (q : bool) n :
  inert F → owned tg → (q = true → ∀ w, F w → no_adder tg w) →
  triple owned no_drop F (unbind_attempts ip_parse decode_routes protocol false n tg.1 tg.2)
    (λ r w, ∃ b, r = Ok b ∧ F w ∧ (b = true → removed q tg w)).
Proof.
  intros HF Htg Hq. induction n as [|n IH]; cbn [unbind_attempts].
  - apply triple_ret; [apply HF|]. intros w _ Hw. by exists false.
  - show_bind. eapply triple_try; [by apply (unbind_spec F tg q)|]. intros [u|e].
    + apply triple_ret; [apply stable_and; [apply HF|]|].
      * apply stable_imp. by apply (inert_stable _ (inert_removed q tg Htg)).
      * intros w _ [Hw Hr]. exists true. by split_and!; [| |intros _; apply Hr].
    + eapply triple_pre; [exact IH|]. by intros w _ [Hw _].
Qed.

Lemma is_confirmed_bound_spec {A} D P tg (k : bool → vtask A) Q :
  stable owned P → (∀ w, P w → D w) → owned tg →
  (∀ b, triple owned D P (k b) Q) →
  triple owned D P (task_bind k (is_confirmed_bound (ip_of tg))) Q.
Proof.
  intros HP HD Htg Hk. apply triple_idle; [done|done|done|done|done|by intros ? ? ? [_ ->]|].
  intros [|]; cbn; [|done]. apply triple_idle; [done|done|done|done|done|by intros ? ? ? [_ ->]|]. intros b. apply Hk.
Qed.

Lemma unbind_each_spec F (q notify : bool) vips :
  inert F → (∀ tg, tg ∈ vips → owned tg) → (q = true → ∀ w, F w → ∀ tg, owned tg → no_adder tg w) →
  triple owned no_drop F (unbind_each ip_parse decode_routes protocol false notify vips)
    (λ r w, ∃ n, r = Ok n ∧ F w ∧ (n = 0 → ∀ tg, tg ∈ vips → removed q tg w)).
Proof.
  intros HF Hvips Hq. revert F HF Hq. induction vips as [|tg vips IH]; intros F HF Hq; cbn [unbind_each].
  { apply triple_ret; [apply HF|]. intros w _ Hw. exists 0. split_and!; [done|done|]. by intros _ tg ?%not_elem_of_nil. }
  destruct tg as [vip iface] eqn:Heq. rewrite <- Heq in *. assert (owned tg) as Htg by (apply Hvips; set_solver).
  assert (∀ was_bound, triple owned no_drop F
    (unbound ← unbind_attempts ip_parse decode_routes protocol false 3 vip iface;
     _ ← (if unbound && was_bound && notify then perform (NotifyTransition (addr vip)) else Ret (Ok tt));
     failures ← unbind_each ip_parse decode_routes protocol false notify vips;
     Ret (Ok (if (unbound : bool) then failures else S failures)))
    (λ r w, ∃ n, r = Ok n ∧ F w ∧ (n = 0 → ∀ tg', tg' ∈ tg :: vips → removed q tg' w))) as Hrest.
  { intros was_bound. show_bind. subst tg. eapply triple_bind; [apply (unbind_attempts_spec F (vip, iface) q 3); [done|done|intros ? w Hw; by apply Hq]|..].
    2: by intros e w (? & ? & _).
    - intros unbound. set (tg := (vip, iface)). set (G w := F w ∧ (unbound = true → removed q tg w)).
      assert (inert G) as HG by (apply inert_and; [done|by apply inert_imp, inert_removed]).
      apply (triple_pre _ _ _ G); [|by intros w _ (b & [= <-] & Hw & Hr)].
      assert (triple owned no_drop G (failures ← unbind_each ip_parse decode_routes protocol false notify vips;
          Ret (Ok (if unbound then failures else S failures)))
        (λ r w, ∃ n, r = Ok n ∧ F w ∧ (n = 0 → ∀ tg', tg' ∈ tg :: vips → removed q tg' w))) as Hlast.
      { show_bind. eapply triple_bind; [apply (IH (λ tg' Ht, Hvips tg' (list_elem_of_further _ _ _ Ht)) G HG); intros Hq' w [Hw _]; by apply Hq|..].
        - intros n. apply triple_ret; [|].
          + intros w w' Hs (m & [= <-] & Hw & Hr). exists n. split_and!; [done|by eapply (inert_stable _ HG)|].
            intros Hn tg' Htg'. eapply (inert_stable _ (inert_removed q tg' (Hvips tg' (list_elem_of_further _ _ _ Htg')))); [done|].
            by apply Hr.
          + intros w _ (m & [= <-] & [Hw Hu] & Hr). eexists. split_and!; [done|done|].
            destruct unbound; [|done]. intros Hn tg' [->|Ht]%elem_of_cons; [by apply Hu|by apply Hr].
        - by intros e w (? & ? & _). }
      destruct (unbound && was_bound && notify); [|exact Hlast].
      apply triple_idle; [apply HG|done|done|done|done|by intros ? ? ? ->|]. by intros []. }
  destruct notify; [|exact (Hrest false)]. subst tg.
  exact (is_confirmed_bound_spec no_drop F (vip, iface) _ _ (inert_stable _ HF) (λ _ _, I) Htg Hrest).
Qed.

Lemma unbind_all_spec F (q notify : bool) vips :
  inert F → (∀ tg, tg ∈ vips → owned tg) → (q = true → ∀ w, F w → ∀ tg, owned tg → no_adder tg w) →
  triple owned no_drop F (unbind_all ip_parse decode_routes protocol false notify vips)
    (λ r w, F w ∧ (is_ok r = true → ∀ tg, tg ∈ vips → removed q tg w)).
Proof.
  intros HF Hvips Hq. unfold unbind_all. show_bind.
  eapply triple_bind; [by apply (unbind_each_spec F q notify vips)| |by intros e w (? & ? & _)].
  intros n. apply triple_ret.
  - intros w w' Hs (m & [= <-] & Hw & Hr). exists n. split_and!; [done|by eapply (inert_stable _ HF)|].
    intros Hn tg Htg. eapply (inert_stable _ (inert_removed q tg (Hvips tg Htg))); [done|]. by apply Hr.
  - intros w _ (m & [= <-] & Hw & Hr). split; [done|]. destruct n; [|done]. intros _. by apply Hr.
Qed.

(** [release_local_vips]: releases may be acknowledged only when every address is gone for good. *)
Lemma release_local_vips_spec (notify : bool) vips :
  (∀ tg, tg ∈ vips → owned tg) →
  triple owned no_drop no_drop (release_local_vips ip_parse decode_routes protocol false notify vips)
    (λ r w, r = Ok (true, true) → ∀ tg, tg ∈ vips → ¬ at_risk tg w).
Proof.
  intros Hvips. set (F (b : bool) w := b = true → ∀ tg, owned tg → no_adder tg w).
  assert (∀ b, inert (F b)) as HF.
  { intros b. apply inert_imp. apply (inert_all no_adder owned). intros tg. apply inert_no_adder. }
  apply (triple_ask _ _ _ F); try done; [by intros b; apply HF| |].
  { intros w b w' Hg _ [Hs ->]. split; [done|]. intros ->. intros tg Htg. by apply settled_no_adder; [| |apply Hs]. }
  intros before. eapply triple_pre; [|intros w _ [_ Hw]; exact Hw].
  show_bind. eapply triple_try; [apply (unbind_all_spec (F before) before notify vips); [done|done|by intros -> w Hw; apply Hw]|].
  assert (∀ r : Result unit VipError, stable owned
    (λ w, F before w ∧ (is_ok r = true → ∀ tg, tg ∈ vips → removed before tg w))) as Hst.
  { intros r. apply stable_and; [apply HF|]. apply stable_imp.
    apply (inert_stable _ (inert_all (removed before) (λ tg, tg ∈ vips) (λ tg Htg, inert_removed before tg (Hvips tg Htg)))). }
  intros r. destruct before; cbn.
  - apply triple_settled; [done|done|]. intros b. apply triple_ret.
    + apply stable_and; [done|]. apply stable_imp, stable_all. intros tg w w' Hs Hw Htg. by eapply stable_no_adder, Hw.
    + intros w _ [[_ Hr] _] [= Hok _] tg Htg. by apply (Hr Hok tg Htg).
  - by apply triple_ret.
Qed.

(** ** Binding *)

Definition confirmed tg w : Prop := ip_of tg ∈ bound w ∧ ip_of tg ∉ pending_first_bind w.

Lemma stable_confirmed tg : owned tg → stable owned (confirmed tg).
Proof.
  intros Htg. apply stable_and; [by apply (stable_tracked owned tg Htg Bound)|].
  by apply (stable_untracked owned tg Htg PendingFirstBind).
Qed.

Lemma all_guarded_add tg w :
  owned tg → all_guarded owned w → ip_of tg ∈ bound w → all_guarded owned (spawn (add_of tg) w).
Proof.
  intros Htg Hall Hb tg' Htg'. destruct (decide (tg' = tg)) as [->|Hne]; [by left|].
  eapply (stable_guarded (eq tg') tg'); [done| |by apply Hall]. apply rely_spawn.
  intros x <- Heq. apply Hne, owned_distinct; [done..|]. by injection Heq.
Qed.

(** Ask for the permission. *)
Lemma if_authorized_spec {A} D P (k : vtask (option A)) Q :
  stable owned P → (∀ w, P w → D w) → (∀ w, P w → Q (Ok None) w) →
  triple owned D P k Q → triple owned D P (if_authorized k) Q.
Proof.
  intros HP HD HN Hk. apply triple_idle; [done|done|done|done|done|by intros ? ? ? ->|].
  intros [|]; [exact Hk|]. apply triple_ret; auto.
Qed.

(** An event of a bind that may add the address. *)
Lemma triple_add {A} D P P' tg (k : _ → vtask A) Q (W : nat → World → Prop) :
  stable owned P → (∀ w, P w → D w) → owned tg → (∀ j, stable owned (W j)) → stable owned P' →
  (∀ w, good owned None w → P w → ip_of tg ∈ bound w ∧ W (length (runs w)) (spawn (add_of tg) w)) →
  (∀ j w, W j w → D w) → (∀ w, P w → P' w) →
  (∀ j w r, good owned (Some j) w → W j w → runs w !! j = Some r → is_Some (run_result r) → P' w) →
  (∀ r, triple owned D P' (k r) Q) → triple owned D P (Do (Status (add_of tg)) k) Q.
Proof.
  intros HP HD Htg HW HP' Hsp HDW HPP Hres Hk.
  apply (triple_wait _ _ P W (λ _, P')); try done; [by apply owned_ip| |by intros w _; apply HPP|].
  - intros w Hg Hw. destruct (Hsp w Hg Hw) as [Hb HW0]. split; [|done]. apply all_guarded_add; [done| |done].
    intros tg'. apply (good_guarded _ _ _ Hg).
  - intros j w r result Hg HWj Hj Hr. by eapply Hres.
Qed.

(** *** Again *)

(** A binding that is confirmed stays so while it is asserted again, whatever happens. *)
Section rebind.
Context (tg : VipAddr * Text) (contended : nat) (Htg : owned tg).

Notation again t := (triple owned (confirmed tg) (confirmed tg) t (λ _, confirmed tg)).

Lemma again_ret {A} (r : Result A VipError) : again (Ret r).
Proof. apply triple_ret; [by apply stable_confirmed|done]. Qed.

Lemma again_authorized {A} (k : vtask (option A)) : again k → again (if_authorized k).
Proof. apply if_authorized_spec; [by apply stable_confirmed|done|done]. Qed.

Lemma finished_again : again (finished contended (ip_of tg) false).
Proof.
  pose proof (stable_confirmed tg Htg) as HC.
  destruct contended; (apply triple_idle; [done|done|done|done|done|by intros ? ? ? ->|]); intros [|]; apply again_ret.
Qed.

Lemma bind_address_again : again (bind_address ip_parse decode_routes protocol contended tg.1 tg.2 false).
Proof.
  pose proof (stable_confirmed tg Htg) as HC.
  apply (triple_add _ _ (confirmed tg) tg _ _ (λ _, confirmed tg)); [done|done|done|done|done| |done|done| |].
  - by intros w _ [Hb Hp].
  - by intros j w r _ Hw _ _.
  - intros [[|]|e]; [apply finished_again|apply again_ret..].
Qed.

Lemma rebind_spec : again (bind_kernel ip_parse decode_routes protocol false contended tg.1 tg.2).
Proof.
  pose proof (stable_confirmed tg Htg) as HC. apply again_authorized.
  apply (triple_contains _ _ PendingFirstBind tg); [done|done|done|]. intros [|]; [by intros w _ [[_ Hp] ?]|].
  eapply triple_pre; [|intros w _ [Hw _]; exact Hw].
  apply (triple_contains _ _ Bound tg); [done|done|done|]. intros [|]; [|by intros w _ [[Hb _] ?]].
  eapply triple_pre; [|intros w _ [Hw _]; exact Hw]. apply again_authorized.
  apply (triple_insert _ _ (confirmed tg)); [done|done|done|done| |].
  { intros w [Hb Hp]. split; [cbn; set_solver|done]. }
  apply again_authorized. unfold bind_commands. show_bind.
  eapply triple_try; [by apply (marker_replace_spec _ (confirmed tg) tg)|].
  intros [u|e]; [apply again_authorized, bind_address_again|apply again_ret].
Qed.
End rebind.

(** *** For the first time *)

Section first_bind.
Context (tg : VipAddr * Text) (contended : nat) (Htg : owned tg).

(** The post-condition of a first bind: a binding that is reported is confirmed. *)
Definition first_post (r : Result (option bool) VipError) w : Prop :=
  match r with Ok (Some _) => confirmed tg w | _ => True end.

(** An address that is tracked as bound for the first time, with the risk remembered otherwise. *)
Definition others_covered (own : option nat) w : Prop := ∀ j, Some j ≠ own → live_adder tg w j → covered tg w.
Definition fresh w : Prop := ip_of tg ∈ bound w ∧ (at_risk tg w → covered tg w).
Definition tried (own : option nat) w : Prop := ip_of tg ∈ bound w ∧ others_covered own w.

Lemma stable_fresh : stable owned fresh.
Proof. apply stable_and; [by apply (stable_tracked owned tg Htg Bound)|by apply stable_risk_covered]. Qed.

Lemma stable_tried own : stable owned (tried own).
Proof. apply stable_and; [by apply (stable_tracked owned tg Htg Bound)|by apply stable_live_covered]. Qed.

Lemma finished_first P :
  stable owned P → (∀ w, P w → ip_of tg ∈ bound w) →
  triple owned no_drop P (finished contended (ip_of tg) true) first_post.
Proof.
  intros HP Hb. induction contended as [|n IH]; (apply triple_idle; [done|done|done|done|done|by intros ? ? ? ->|]); intros [|]; try by apply triple_ret.
  - apply (triple_remove _ _ (confirmed tg)); [done|done|by apply stable_confirmed|done| |].
    + intros w Hw. split; [done|]. split; [exact (Hb w Hw)|]. cbn. set_solver.
    + apply (triple_ret _ _ (confirmed tg) (Ok (Some true))); [by apply stable_confirmed|by intros w _ Hw].
  - exact IH.
Qed.

(** Forget an address that is covered. *)
Lemma drop_tracking_first P :
  stable owned P → (∀ w, P w → at_risk tg w → covered tg w) →
  triple owned no_drop P (_ ← perform (Remove Bound (ip_of tg)); perform (Remove PendingFirstBind (ip_of tg)))
    (λ _, no_drop).
Proof.
  intros HP Hc. apply (triple_remove _ _ no_drop); [done|done|done|done|by intros w Hw; split; [apply Hc|]|].
  apply (triple_remove _ _ no_drop); [done..|]. by apply triple_ret.
Qed.

(** A failure is reported after it was cleaned up. *)
Lemma report_first P (t : vtask unit) e :
  triple owned no_drop P t (λ _, no_drop) → triple owned no_drop P (task_bind (λ _, Ret (Err e)) t) first_post.
Proof. intros Ht. eapply triple_bind; [exact Ht|intros a; by apply triple_ret|done]. Qed.

Lemma marker_failed_first was_pending e :
  triple owned no_drop fresh (marker_failed (ip_of tg) was_pending true e) first_post.
Proof.
  apply report_first. cbn [should_clear_tracking_after_bind_failure]. destruct (was_pending || _).
  - apply (triple_insert _ _ no_drop); [apply stable_fresh|done|done|done|done|]. by apply triple_ret.
  - apply drop_tracking_first; [apply stable_fresh|by intros w [_ Hw]].
Qed.

Lemma address_failed_first e :
  triple owned no_drop (tried None) (address_failed ip_parse decode_routes protocol (ip_of tg) true e) first_post.
Proof.
  pose proof (stable_tried None) as HT. pose proof (stable_risk_covered owned tg Htg) as HR.
  apply report_first. cbn [should_clear_tracking_after_bind_failure].
  assert (triple owned no_drop (tried None) (remove_after_failed_first_bind ip_parse decode_routes protocol (ip_of tg))
    (λ r w, is_ok r = true → at_risk tg w → covered tg w)) as Hremove.
  { apply (triple_probe _ (tried None) (λ w, at_risk tg w → covered tg w)); [done|done|done| |].
    { intros w _ [_ Hl] Hh [?|[j Hj]]; [done|]. by eapply Hl. }
    intros [o|e']; [|by apply triple_ret; [apply stable_probed|]].
    destruct (output_success o) eqn:Hs; [|by apply triple_ret; [apply stable_probed|]].
    case_bool_decide as Hout; [|by apply triple_ret; [apply stable_probed|]].
    eapply triple_pre; [|intros w _ [_ Hw]; exact (Hw o eq_refl Hs Hout)].
    eapply triple_try; [by apply (marker_delete_spec _ (λ w, at_risk tg w → covered tg w) tg)|].
    intros [u|e']; by apply triple_ret. }
  show_bind. eapply triple_try; [exact Hremove|]. intros [u|e'].
  - eapply triple_pre; [apply (drop_tracking_first (λ w, at_risk tg w → covered tg w)); [done|done]|].
    intros w _ Hw. exact (Hw eq_refl).
  - eapply triple_pre; [by apply (triple_ret _ _ no_drop)|done].
Qed.

Lemma covered_spawn c w : covered tg w → covered tg (spawn c w).
Proof.
  intros [?|[i Hi]]; [by left|]. right. exists i. by eapply (step_lost_adder (λ _, True)), Hi; apply runs_step_spawn.
Qed.

(** While its own child may add the address, everything else that may is covered. *)
Lemma bind_address_first :
  triple owned no_drop fresh (bind_address ip_parse decode_routes protocol contended tg.1 tg.2 true) first_post.
Proof.
  apply (triple_add _ _ (tried None) tg _ _ (λ j, tried (Some j)));
    [apply stable_fresh|done|done|intros j; apply stable_tried|apply stable_tried| |done| | |].
  - intros w _ [Hb Hr]. split; [done|]. split; [done|]. intros j Hj (r & Hl & Hc & Hre & He).
    cbn [runs spawn] in Hl. apply lookup_app_Some in Hl as [Hl|[Hlen Hl]].
    + apply covered_spawn, Hr. right. exists j. by exists r.
    + apply list_lookup_singleton_Some in Hl as [Hz _]. destruct Hj. f_equal. lia.
  - intros w [Hb Hr]. split; [done|]. intros j _ Hj. apply Hr. right. by exists j.
  - intros j w r Hg [Hb Hl] Hj Hr. split; [done|]. intros i _ Hi. destruct (decide (i = j)) as [->|Hne].
    + right. exists j. destruct Hi as (r' & Hj' & Hc & Hre & _). simplify_eq. exists r. split_and!; [done..|].
      destruct (Forall_lookup_1 _ _ _ _ (wf_runs _ (good_wf _ _ _ Hg)) Hj) as (_ & Hfin & _). by apply Hfin.
    + apply (Hl i); [|done]. intros [=]. done.
  - intros [[|]|e]; [by apply finished_first; [apply stable_tried|intros w [Hb _]]|apply address_failed_first..].
Qed.

Lemma bind_tracked_first was_pending :
  triple owned no_drop (λ w, ip_of tg ∉ bound w)
    (bind_tracked ip_parse decode_routes protocol false contended tg.1 tg.2 was_pending true) first_post.
Proof.
  pose proof stable_fresh as HF.
  apply (triple_pre _ _ _ (λ w, at_risk tg w → covered tg w)).
  2: { intros w Hg Hb Hr. by destruct (good_guarded _ _ _ Hg tg Htg Hr). }
  apply (triple_insert _ _ fresh); [by apply stable_risk_covered|done|done|done| |].
  { intros w Hw. split; [cbn; set_solver|]. rewrite at_risk_tracking. intros Hr.
    destruct (Hw Hr) as [?|[j Hj]]; [by left|right; by exists j]. }
  apply (triple_insert _ _ fresh); [done|done|done|done| |].
  { intros w [Hb Hw]. split; [done|]. rewrite at_risk_tracking. intros Hr.
    destruct (Hw Hr) as [?|[j Hj]]; [by left|right; by exists j]. }
  apply if_authorized_spec; [done..|]. unfold bind_commands. show_bind.
  eapply triple_try; [by apply (marker_replace_spec _ fresh tg)|]. intros [u|e].
  - apply if_authorized_spec; [done..|]. apply bind_address_first.
  - apply marker_failed_first.
Qed.

Lemma first_bind_spec :
  triple owned no_drop (λ w, ip_of tg ∉ bound w)
    (bind_kernel ip_parse decode_routes protocol false contended tg.1 tg.2) first_post.
Proof.
  pose proof (stable_untracked owned tg Htg Bound) as HB. apply if_authorized_spec; [done..|].
  apply (triple_contains _ _ PendingFirstBind tg); [done|done|done|]. intros [|].
  { eapply triple_pre; [apply if_authorized_spec; [exact HB|done|done|apply bind_tracked_first]|]. by intros w _ [Hw _]. }
  eapply triple_pre; [|intros w _ [Hw _]; exact Hw].
  apply (triple_contains _ _ Bound tg); [done|done|done|]. intros [|]; [by intros w _ [Hb ?]|].
  eapply triple_pre; [apply if_authorized_spec; [exact HB|done|done|apply bind_tracked_first]|]. by intros w _ [Hw _].
Qed.
End first_bind.
End specs.
