(* ===== verification/KernelSound.v ===== *)
(** * Soundness of the logic

    The specification of a task holds in every run: whatever other tasks do to
    other addresses, and whatever happens in the background.  And an instance of the
    ip(8) interface on which histories are evaluated. *)

From S2P Require Import Prelude Text Io Types Tasks VipCommands Ownership LocalVip KernelWorld KernelLogic KernelRules.

Section soundness.
Context `{!IpTool} `{!IpToolLaws}.
Implicit Types (w : World) (owned : VipAddr * Text → Prop).

Notation no_drop := (λ _ : World, True).

(** ** Steps of others *)

Inductive other owned : relation World :=
| other_background w w' : background w w' → other owned w w'
| other_abandon w j : other owned w (abandon j w)
| other_track w s ip X :
    ¬ owns owned ip → (∀ a, a ≠ ip → a ∈ X ↔ a ∈ tracking s w) → other owned w (set_tracking s X w)
| other_spawn w c : ¬ owns owned (command_ip c) → other owned w (spawn c w).

Lemma other_rely owned w w' : other owned w w' → rely owned w w'.
Proof.
  intros [w0 w1 Hb|w0 j|w0 s ip X Hip HX|w0 c Hc]; [by apply rely_background|apply rely_abandon|by eapply rely_track|].
  apply rely_spawn. intros tg Htg ->. apply Hc. by exists tg.
Qed.

Lemma other_wf owned w w' : other owned w w' → wf w → wf w'.
Proof.
  intros [w0 w1 Hb|w0 j|w0 s ip X Hip HX|w0 c Hc] Hw;
    [by eapply wf_background|by apply wf_abandon|by apply wf_set_tracking|by apply wf_spawn].
Qed.

Lemma other_calm owned waiting w w' : other owned w w' → calm owned waiting w → calm owned waiting w'.
Proof.
  intros Ho Hc j r Hj Hp Hip. assert (runs_step (λ c, ¬ owns owned (command_ip c)) w w') as Hs.
  { destruct Ho as [w0 w1 Hb|w0 i|w0 s ip X _ _|w0 c Hn].
    - by apply runs_step_background.
    - apply runs_step_abandon.
    - apply runs_step_same, set_tracking_rest.
    - by apply runs_step_spawn. }
  apply Hs in Hj as [(r0 & Hj & Hcmd & _ & _ & _ & Hw)|[_ Hn]]; [|done].
  apply (Hc j r0); [done|by apply Hw|by rewrite <- Hcmd].
Qed.

Lemma other_good owned waiting w w' : other owned w w' → good owned waiting w → good owned waiting w'.
Proof.
  intros Ho [Hw Hc Hg]. split; [by eapply other_wf|by eapply other_calm|].
  intros tg Htg. eapply stable_guarded; [done|by apply other_rely|by apply Hg].
Qed.

(** ** Tasks in progress *)

Definition task_ok {A} owned (Q : Result A VipError → World → Prop) (code : vtask A) (waiting : option nat) w : Prop :=
  good owned waiting w ∧
  match waiting with
  | None => wp owned no_drop Q code w
  | Some j =>
      match code with
      | Ret _ => False
      | Do e k =>
          ∃ c f, waits e = Some (c, f) ∧ concerns owned e ∧
            ∀ w', rtc (rely owned) w w' → good owned (Some j) w' →
              (∀ r result, runs w' !! j = Some r → run_result r = Some result → wp owned no_drop Q (k (f result)) w') ∧
              (∀ x, dropped e = Some x → wp owned no_drop Q (k x) (abandon j w'))
      end
  end.

Lemma task_ok_other {A} owned Q (code : vtask A) waiting w w' :
  other owned w w' → task_ok owned Q code waiting w → task_ok owned Q code waiting w'.
Proof.
  intros Ho [Hg Ht]. pose proof (other_rely _ _ _ Ho) as Hr. split; [by eapply other_good|].
  destruct waiting as [j|]; [|by eapply wp_rely, Ht; apply rtc_once].
  destruct code as [r|X e k]; [done|]. destruct Ht as (c & f & Hw & He & Hk). exists c, f. split_and!; [done..|].
  intros w1 Hs Hg1. apply Hk; [by eapply rtc_l|done].
Qed.

(** What an event does to the rest of the world. *)
Lemma instant_effect owned {X} (e : VipEv X) w x w' :
  instant w e x w' → concerns owned e →
  w' = w ∨ ∃ s ip Y, owns owned ip ∧ (∀ a, a ≠ ip → a ∈ Y ↔ a ∈ tracking s w) ∧ w' = set_tracking s Y w.
Proof.
  revert x. induction e as [s ip|s ip|s ip| | |c|q| |ip|ip|X e IH]; cbn; intros x Hi Hc; try by destruct_and?; left.
  - right. eexists s, ip, _. split_and!; [done| |exact Hi]. set_solver.
  - right. eexists s, ip, _. split_and!; [done| |exact Hi]. set_solver.
  - destruct x; [|done]. by eapply IH.
Qed.

Lemma waits_concerns owned {X} (e : VipEv X) c f : waits e = Some (c, f) → concerns owned e → owns owned (command_ip c).
Proof.
  revert f. induction e as [s ip|s ip|s ip| | |c'|q| |ip|ip|X e IH]; cbn; intros f Hw Hc; try done; [by simplify_eq|].
  destruct (waits e) as [[c' g]|]; [|done]. simplify_eq. by eapply IH.
Qed.

Lemma instant_good owned {X} (e : VipEv X) waiting w x w' :
  instant w e x w' → concerns owned e → good owned waiting w → all_guarded owned w' → good owned waiting w'.
Proof.
  intros Hi He [Hw Hc _] Hall. destruct (instant_effect owned e w x w' Hi He) as [->|(s & ip & Y & _ & _ & ->)]; [done|].
  split; [by apply wf_set_tracking| |done]. unfold calm. by rewrite (proj1 (set_tracking_rest s Y w)).
Qed.

Lemma abandon_calm owned j w : calm owned (Some j) w → calm owned None (abandon j w).
Proof.
  intros Hc i r Hi Hp Hip. destruct (proj2 (runs_step_abandon (λ _, False) w j) i r Hi) as [(r0 & Hi0 & Hcmd & _ & _ & _ & Hback)|[_ []]].
  assert (Some j = Some i) as [= <-] by (apply (Hc i r0); [done|by apply Hback|by rewrite <- Hcmd]).
  exfalso. unfold abandon in Hi. rewrite Hi0 in Hi. unfold run_abandon in Hi. rewrite (Hback Hp) in Hi. cbn in Hi.
  rewrite list_lookup_insert_eq in Hi by (by eapply lookup_lt_Some). by simplify_eq.
Qed.

Lemma done_calm owned j w r result :
  wf w → calm owned (Some j) w → runs w !! j = Some r → run_result r = Some result → calm owned None w.
Proof.
  intros Hw Hc Hj Hr i r' Hi Hp Hip. assert (Some j = Some i) as [= <-] by by apply (Hc i r').
  destruct (Forall_lookup_1 _ _ _ _ (wf_runs _ Hw) Hj) as (_ & Hfin & _). simplify_eq.
  assert (run_phase r = Finished) by (apply Hfin; by eexists). congruence.
Qed.

Lemma spawn_calm owned c w : calm owned None w → calm owned (Some (length (runs w))) (spawn c w).
Proof.
  intros Hc i r Hi Hp Hr. cbn [runs spawn] in Hi. apply lookup_app_Some in Hi as [Hi|[Hlen Hi]].
  - by specialize (Hc i r Hi Hp Hr).
  - apply list_lookup_singleton_Some in Hi as [? _]. f_equal. lia.
Qed.

(** A step of a task: it is still all right, and for the owners of other addresses it was a step of others. *)
Lemma task_ok_step {A} owned (Q : Result A VipError → World → Prop) code waiting w code' waiting' w' :
  task_ok owned Q code waiting w → step w (code, waiting) w' (code', waiting') →
  task_ok owned Q code' waiting' w' ∧
  ∀ owned', (∀ ip, owns owned ip → ¬ owns owned' ip) → w' = w ∨ other owned' w w'.
Proof.
  intros [Hg Ht]. destruct code as [r|X e k]; [by destruct waiting|]. destruct waiting as [j|].
  - destruct Ht as (c & f & Hwe & He & Hk). destruct (Hk w (rtc_refl _ _) Hg) as [Hres Hdrop].
    intros [(c' & f' & r & result & Hwe' & Hj & Hr & -> & [= -> ->])|(x & Hx & -> & [= -> ->])].
    + simplify_eq. split; [|by intros; left]. destruct Hg as [Hwf Hc Hall]. split; [|by eapply Hres].
      split; [done|by eapply done_calm|done].
    + split; [|intros owned' _; right; apply other_abandon]. split; [|by apply Hdrop].
      destruct Hg as [Hwf Hc Hall]. split; [by apply wf_abandon|by apply abandon_calm|].
      intros tg Htg. eapply (stable_guarded owned); [done|apply rely_abandon|by apply Hall].
  - destruct (Ht w (rtc_refl _ _) Hg) as (_ & He & Hi & Hdrop & Hw).
    intros [(x & Hx & [= -> ->])|[(c & f & Hwe & [[-> [= -> ->]]|(error & -> & [= -> ->])])|(x & Hx & -> & [= -> ->])]].
    + destruct (Hi x w' Hx) as [Hall Hk]. split; [split; [by eapply instant_good|done]|]. intros owned' Hdis.
      destruct (instant_effect owned e w x w' Hx He) as [->|(s & ip & Y & Hip & HY & ->)]; [by left|right].
      eapply other_track; [by apply Hdis|done].
    + destruct (Hw c f Hwe) as (_ & Hall & Hwait). split.
      * split; [|exists c, f; split_and!; [done..|intros w1 Hs1 Hg1; apply (Hwait w1 Hs1 Hg1)]].
        destruct Hg as [Hwf Hc _]. split; [by apply wf_spawn|by apply spawn_calm|done].
      * intros owned' Hdis. right. apply other_spawn, Hdis. by eapply waits_concerns.
    + destruct (Hw c f Hwe) as (Herr & _). split; [split; [done|apply Herr]|by intros; left].
    + split; [split; [done|by apply Hdrop]|by intros; left].
Qed.

(** A task that runs alone ends as specified. *)
Lemma alone_ok {A} owned (Q : Result A VipError → World → Prop) (c c' : World * (vtask A * option nat)) :
  rtc alone c c' → task_ok owned Q c.2.1 c.2.2 c.1 → task_ok owned Q c'.2.1 c'.2.2 c'.1.
Proof.
  induction 1 as [|c1 c2 c3 Hs _ IH]; [done|]. intros Hok. apply IH. destruct c1 as [w1 [t1 j1]], c2 as [w2 [t2 j2]].
  destruct Hs as [Hs|[Hb [= -> ->]]]; cbn in *; [by eapply (task_ok_step owned)|].
  by eapply task_ok_other, Hok; apply other_background.
Qed.

(** *** Histories of a task alone *)

Lemma alone_event {A X} w (e : VipEv X) (k : X → vtask A) x w' c :
  instant w e x w' → rtc alone (w', (k x, None)) c → rtc alone (w, (Do e k, None)) c.
Proof. intros Hi. apply rtc_l. left. left. by exists x. Qed.

Lemma alone_spawned {A X} w (e : VipEv X) (k : X → vtask A) command f c :
  waits e = Some (command, f) → rtc alone (spawn command w, (Do e k, Some (length (runs w)))) c →
  rtc alone (w, (Do e k, None)) c.
Proof. intros Hw. apply rtc_l. left. right. left. exists command, f. split; [done|]. by left. Qed.

Lemma alone_answered {A X} w (e : VipEv X) (k : X → vtask A) command f j r result c :
  waits e = Some (command, f) → runs w !! j = Some r → run_result r = Some result →
  rtc alone (w, (k (f result), None)) c → rtc alone (w, (Do e k, Some j)) c.
Proof. intros Hw Hj Hr. apply rtc_l. left. left. by exists command, f, r, result. Qed.

Lemma alone_background {A} w w' (code : vtask A * option nat) c : background w w' → rtc alone (w', code) c → rtc alone (w, code) c.
Proof. intros Hb. apply rtc_l. right. by split. Qed.

(** A task in a sequence. *)
Lemma alone_bind {A B} (k : A → vtask B) w t j w' a c :
  rtc alone (w, (t, j)) (w', (Ret (Ok a), None)) → rtc alone (w', (k a, None)) c → rtc alone (w, (task_bind k t, j)) c.
Proof.
  intros Hr Hc. remember (w, (t, j)) as c0 eqn:Heq. remember (w', (Ret (Ok a), None)) as c1 eqn:H1'. revert w t j Heq.
  induction Hr as [c0|c0 [w2 [t2 j2]] c1 Hs _ IH]; intros w t j ->; [by simplify_eq|].
  eapply rtc_l; [|by apply (IH H1' w2 t2 j2)]. destruct Hs as [Hs|[Hb [= -> ->]]]; [left|by right].
  destruct t as [r|X e f]; [by destruct j|]. cbn in Hs |- *. destruct j as [j|].
  - destruct Hs as [(cmd & g & r & result & Hw & Hj & Hres & -> & [= -> ->])|(x & Hx & -> & [= -> ->])];
      [left; by exists cmd, g, r, result|right; by exists x].
  - destruct Hs as [(x & Hx & [= -> ->])|[(cmd & g & Hw & [[-> [= -> ->]]|(error & -> & [= -> ->])])|(x & Hx & -> & [= -> ->])]];
      [left; by exists x|right; left; exists cmd, g; split; [done|by left]|right; left; exists cmd, g; split; [done|right; by exists error]|
       right; right; by exists x].
Qed.
End soundness.

(** ** A model of ip(8) *)

(** A host as the set of its attached addresses, on which the commands do what
    their manual says: the laws of the tool can hold, and histories can be run. *)
Module HostModel.
Local Open Scope N_scope.

Definition changed (h : gset (IpAddr * N * Text)) (c : IpCommand) (st : bool) : gset (IpAddr * N * Text) :=
  match c with
  | AddrReplace ip p i => if st then {[(ip, p, i)]} ∪ h else h
  | AddrDel ip p i => if st then h ∖ {[(ip, p, i)]} else h
  | MarkerReplace _ _ | MarkerDel _ _ => h
  end.

(** A removal that succeeds found its address. *)
Definition found (h : gset (IpAddr * N * Text)) (c : IpCommand) (st : bool) : Prop :=
  match c, st with AddrDel ip p i, true => (ip, p, i) ∈ h | _, _ => True end.

#[local] Instance tool : IpTool := {|
  Host := gset (IpAddr * N * Text);
  attached h ip p i := (ip, p, i) ∈ h;
  marked _ _ _ := False;
  changes h c st h' := h' = changed h c st ∧ found h c st;
  answers h q o := match q with
                   | PresenceProbe ip => output_success o = true → output_stdout o = [] → ∀ p i, (ip, p, i) ∉ h
                   | _ => True
                   end;
  drifts h h' := h' ⊆ h
|}.

#[local] Instance tool_laws : IpToolLaws.
Proof.
  split; cbn.
  - intros h [ip' p' i'|ip' p' i'|ip' n|ip' n] [] h' ip p i [-> _] Ha; cbn in Ha; try by left.
    + apply elem_of_union in Ha as [Ha%elem_of_singleton|Ha]; [right|by left]. by injection Ha as -> -> ->.
    + left. by apply elem_of_difference in Ha as [??].
  - intros h ip p i h' [-> _] [_ Hn]%elem_of_difference. by apply Hn, elem_of_singleton.
  - intros h ip o Ho Hs He p i. by apply Ho.
  - intros h h' ip p i Hs Ha. by apply Hs.
Qed.

(** One event, one command that succeeds, and its answer. *)
Ltac event x := eapply (alone_event _ _ _ x); [by split || reflexivity|].
Ltac command j :=
  eapply alone_spawned; [reflexivity|];
  eapply alone_background; [eapply (background_land _ j _ true); [reflexivity|reflexivity|reflexivity|by split]|].
Ltac answered j :=
  eapply alone_background; [eapply (background_finish _ j _ (Exited true) None None);
    [reflexivity|discriminate|reflexivity|intros st [= <-]; reflexivity|discriminate]|];
  eapply alone_answered; [reflexivity|reflexivity|reflexivity|].
End HostModel.
