(* ===== verification/KernelWorker.v ===== *)
(** * The worker on the host

    A turn of a worker keeps what the next one relies on, and submits a release
    only when its address is gone for good. *)

From S2P Require Import Prelude Text Io Types Openraft State Freshness Takeover Worker Tasks VipCommands Ownership LocalVip.
From S2P Require Import KernelWorld KernelLogic KernelRules KernelSpecs.

(** ** Decisions of a turn *)

Section decisions.
Context {O : Openraft} (vip : VipAddr) (iface : Text) (node_id : N) (notify : bool).
Implicit Types (w : Worker) (t : Turn).

Notation observed w t := (observe vip iface node_id (arm w t) t).
Notation turn := (turn vip iface node_id notify).

Lemma observe_keeps w t :
  witness (observed w t) = witness w ∧ (cleanup_needed (observed w t) = false → cleanup_needed w = false).
Proof.
  unfold observe, arm. destruct (vip_effects_armed (memory w)), (first_sample t); cbn; split; try done; intros H;
    repeat (apply orb_false_iff in H as [H _]); done.
Qed.

Lemma failed_cleanup w t :
  cleanup_needed (observed w t) = true → unbind_ok t = false →
  cleanup_needed (turn w t).1 = true ∧ (turn w t).2 = [Unbind false].
Proof.
  intros Hc Hu. unfold Worker.turn. rewrite Hc. unfold cleanup. rewrite Hu. cbn. done.
Qed.

Lemma successful_cleanup w t :
  cleanup_needed (observed w t) = true → unbind_ok t = true →
  witness (turn w t).1 = None ∧ (∀ g f, PublishRelease g f ∈ (turn w t).2 → settled_before t = true).
Proof.
  intros Hc Hu. unfold Worker.turn. rewrite Hc. unfold cleanup. rewrite Hu. cbn.
  destruct (last_assignment _) as [a|]; [|split; [done|]; set_solver].
  destruct (vip_effects_armed _ && settled_before t) eqn:Hs; [|split; [done|]; set_solver].
  apply andb_true_iff in Hs as [_ Hs]. destruct (maybe_publish_release _ _ _ _ _) as [m effects]. by cbn.
Qed.

Lemma record_binding_effects w t i x b g f : PublishRelease g f ∉ (record_binding vip notify w t i x b).2.
Proof.
  unfold record_binding. destruct (intent_assignment i); cbn; repeat case_match; set_solver.
Qed.

Lemma attempt_publishes_nothing w t g f :
  cleanup_needed (observed w t) = false → PublishRelease g f ∉ (turn w t).2.
Proof.
  intros Hc. unfold Worker.turn. rewrite Hc. unfold attempt.
  destruct (candidate _ _ _ _) as [[[p i] c]|]; [|set_solver]. destruct (ready _ _) as [d r].
  destruct (bind_policy i && r); [|destruct (witness _), (intent_assignment i); set_solver].
  destruct (bind_outcome t) as [|b|fault]; [set_solver| |set_solver].
  destruct (completed _ _ _ _ _ _ _ _) as [x|]; [|set_solver]. destruct (check_live t p); [|set_solver].
  pose proof (record_binding_effects (observed w t <| memory := memory (observed w t) <| takeover_delay := d |> |>) t i x b g f) as Hr.
  destruct (record_binding _ _ _ _ _ _ _) as [w' effects]. cbn in *. set_solver.
Qed.

Lemma no_bind_keeps w t :
  cleanup_needed (observed w t) = false → turn_binds vip node_id (observed w t) t = false →
  witness (turn w t).1 = witness w.
Proof.
  intros Hc Hb. unfold Worker.turn. rewrite Hc. unfold attempt, turn_binds in *.
  rewrite <- (proj1 (observe_keeps w t)).
  destruct (candidate _ _ _ _) as [[[p i] c]|]; [|done]. destruct (ready _ _) as [d r]. cbn in Hb. rewrite Hb. cbn.
  by destruct (witness (observed w t)), (intent_assignment i).
Qed.

Lemma unfinished_bind_cleans w t :
  cleanup_needed (observed w t) = false → turn_binds vip node_id (observed w t) t = true → witness w = None →
  (∀ b, bind_outcome t ≠ BindDone b) → cleanup_needed (turn w t).1 = true.
Proof.
  intros Hc Hb Hw Ho. unfold Worker.turn. rewrite Hc. unfold attempt, turn_binds in *.
  destruct (candidate _ _ _ _) as [[[p i] c]|]; [|done]. destruct (ready _ _) as [d r]. cbn in Hb. rewrite Hb.
  destruct (bind_outcome t) as [|b|fault]; [|by destruct (Ho b)|done].
  unfold can_retain. cbn. by rewrite (proj1 (observe_keeps w t)), Hw.
Qed.
End decisions.

(** ** Turns *)

Section turns.
Context `{!IpTool} `{!IpToolLaws} {O : Openraft}.
Context (ip_parse : Text → option IpAddr) (decode_routes : list N → option (list MarkerRouteInfo)) (protocol : N).
Context (vip : VipAddr) (iface : Text) (node_id : N) (notify : bool).
Implicit Types (w : World) (wk : Worker) (t : Turn).

Notation no_drop := (λ _ : World, True).
Notation tg := (vip, iface).
Notation owned := (eq tg).

Lemma tg_owned : owned tg.
Proof. done. Qed.

Lemma tg_distinct tg1 tg2 : owned tg1 → owned tg2 → ip_of tg1 = ip_of tg2 → tg1 = tg2.
Proof. by intros <- <-. Qed.

(** The end of an authorized operation: its result, or it was dropped. *)
Lemma authorization_run_spec {A} P D R (op : vtask A) :
  stable owned P → (∀ w, P w → D w) → stable owned D → (∀ r, stable owned (R r)) →
  triple owned D P op (λ r w, R r w ∧ D w) →
  triple owned no_drop P (authorization_run op)
    (λ r w, ∃ o, r = Ok o ∧ match o with Some r => R r w | None => D w end).
Proof.
  intros HP HPD HD HR Hop. apply triple_idle; [done|done|done|done|done|by intros ? ? ? ->|]. intros [|].
  - intros w Hg Hw. apply (wp_revocable owned D).
    + intros w' _ Hd. by exists None.
    + done.
    + eapply wp_mono; [by apply Hop| |done]. intros r w' _ [Hr Hd]. split_and!; [by exists (Some r)| |done].
      intros w1 w2 Hs (o & [= <-] & Ho). exists (Some r). split; [done|]. by eapply HR.
  - apply triple_ret; [done|]. intros w _ Hw. exists None. auto.
Qed.

(** What a worker relies on between two turns: unless it cleans up first, a tracked
    address is confirmed, and the address of a completed binding is tracked. *)
Definition relies wk w : Prop :=
  cleanup_needed wk = true ∨
  (ip_of tg ∈ bound w → ip_of tg ∉ pending_first_bind w) ∧ (is_Some (witness wk) → ip_of tg ∈ bound w).

Lemma stable_relies wk : stable owned (relies wk).
Proof.
  intros w w' Hs [?|[Hp Hb]]; [by left|right].
  pose proof (rely_tracking owned tg tg_owned Bound w w' Hs) as H1.
  pose proof (rely_tracking owned tg tg_owned PendingFirstBind w w' Hs) as H2. cbn in *.
  by rewrite H1, H2.
Qed.

(** The post-condition of a turn. *)
Definition turn_post (r : Result (Worker * list Effect) VipError) w : Prop :=
  ∃ wk effects, r = Ok (wk, effects) ∧ relies wk w ∧ ∀ g f, PublishRelease g f ∈ effects → ¬ at_risk tg w.

Lemma cleanup_turn_spec wk t :
  cleanup_needed (observe vip iface node_id (arm wk t) t) = true →
  triple owned no_drop no_drop
    (cleanup_turn ip_parse decode_routes protocol false vip iface node_id notify wk t) turn_post.
Proof.
  intros Hc. unfold cleanup_turn. apply triple_settled; [done|done|]. intros before.
  set (F w := before = true → ∀ tg', owned tg' → no_adder tg' w).
  assert (inert owned F) as HF.
  { apply inert_imp, (inert_all owned no_adder (λ tg', owned tg')). intros tg'. apply inert_no_adder. }
  eapply triple_pre; [|intros w _ [_ Hw]; exact (Hw : F w)]. show_bind.
  eapply triple_try.
  { apply (unbind_all_spec owned ip_parse decode_routes protocol tg_distinct F before notify [tg]); [done|by intros ? ->%list_elem_of_singleton|].
    intros -> w Hw. by apply Hw. }
  intros [u|e].
  2: { apply triple_ret; [by apply stable_and; [apply HF|]|]. intros w _ _. eexists _, _. split; [apply f_equal, surjective_pairing|].
       destruct (failed_cleanup vip iface node_id notify wk (t <| settled_before := before |> <| unbind_ok := false |>)) as [H1 H2]; [done|done|].
       split; [by left|]. rewrite H2. set_solver. }
  set (G := removed before tg). pose proof (inert_removed owned tg_distinct before tg tg_owned : inert owned G) as HG.
  apply (triple_pre _ _ _ G); [|intros w _ [_ Hr]; apply Hr; [done|by apply list_elem_of_singleton]].
  pose proof (inert_stable _ _ HG) as HGs.
  apply triple_idle; [done|done|done|done|done|by intros ? ? ? [_ ->]|]. intros again.
  assert (∀ after, triple owned no_drop G (Ret (Ok (turn vip iface node_id notify wk
    (t <| settled_before := before |> <| unbind_ok := true |> <| delete_again := again |> <| settled_after := after |>)))) turn_post) as Hend.
  { intros after. apply triple_ret; [done|]. intros w _ [Hb Hr]. eexists _, _. split; [apply f_equal, surjective_pairing|].
    destruct (successful_cleanup vip iface node_id notify wk (t <| settled_before := before |> <| unbind_ok := true |>
      <| delete_again := again |> <| settled_after := after |>)) as [H1 H2]; [done|done|].
    split; [right; rewrite H1; by split; [|intros [??]]|]. intros g f Hp. apply Hr. exact (H2 g f Hp). }
  destruct before; [|exact (Hend false)].
  apply triple_idle; [done|done|done|done|done|by intros ? ? ? [_ ->]|]. exact Hend.
Qed.

Lemma bind_turn_spec wk t contended :
  cleanup_needed (observe vip iface node_id (arm wk t) t) = false →
  turn_binds vip node_id (observe vip iface node_id (arm wk t) t) t = true →
  triple owned no_drop (relies wk)
    (bind_turn ip_parse decode_routes protocol false vip iface node_id notify contended wk t) turn_post.
Proof.
  intros Hc Hb. pose proof (stable_relies wk) as HR. unfold bind_turn. show_bind.
  apply (is_confirmed_bound_spec owned no_drop (relies wk) tg); [done|done|apply tg_owned|]. intros was.
  set (t' o := t <| was_bound := was |> <| bind_outcome := bind_outcome_of o |>).
  assert (∀ o w, confirmed tg w ∨ witness wk = None ∧ (∀ b, bind_outcome_of o ≠ BindDone b) →
    turn_post (Ok (turn vip iface node_id notify wk (t' o))) w) as Hend.
  { intros o w Ho. eexists _, _. split; [apply f_equal, surjective_pairing|].
    split; [|intros g f Hp; by apply (attempt_publishes_nothing vip iface node_id notify wk (t' o)) in Hp].
    destruct Ho as [[Hb' Hp]|[Hw Ho]]; [by right|left]. by apply unfinished_bind_cleans. }
  assert (∀ P D (R : Result (option bool) VipError → World → Prop), stable owned P → (∀ w, P w → D w) → stable owned D →
    (∀ r, stable owned (R r)) →
    triple owned D P (bind_kernel ip_parse decode_routes protocol false contended vip iface) (λ r w, R r w ∧ D w) →
    (∀ w, D w → confirmed tg w ∨ witness wk = None) →
    (∀ r w, R r w → confirmed tg w ∨ witness wk = None ∧ ∀ b, r ≠ Ok (Some b)) →
    triple owned no_drop P (bound ← authorization_run (bind_kernel ip_parse decode_routes protocol false contended vip iface);
      Ret (Ok (turn vip iface node_id notify wk (t' bound)))) turn_post) as Hrun.
  { intros P D R HP HPD HD HRs Hop HDw HRw. show_bind.
    eapply triple_bind; [by apply (authorization_run_spec P D R)| |by intros e w (? & ? & _)].
    intros o. apply triple_ret.
    - intros w w' Hs (o' & [= <-] & Ho). exists o. split; [done|]. destruct o as [r|]; [by eapply HRs|by eapply HD].
    - intros w _ (o' & [= <-] & Ho). apply Hend. destruct o as [r|].
      + destruct (HRw r w Ho) as [?|[? Hr]]; [by left|right]. split; [done|]. intros b. by destruct r as [[b'|]|e]; cbn; [destruct (Hr b')|..].
      + destruct (HDw w Ho) as [?|?]; [by left|by right]. }
  pose proof (stable_confirmed owned tg tg_owned) as HC.
  intros w Hg [Hw|[Hp Hwit]].
  { apply (proj2 (observe_keeps vip iface node_id wk t)) in Hc. congruence. }
  destruct (decide (ip_of tg ∈ bound w)) as [Hin|Hout].
  - apply (Hrun (confirmed tg) (confirmed tg) (λ _, confirmed tg)); [done|done|done|done| |by left|by left|done|by split; [|apply Hp]].
    eapply triple_conseq; [apply (rebind_spec owned ip_parse decode_routes protocol tg_distinct tg contended tg_owned)|done|done].
  - assert (witness wk = None) as Hnone by (destruct (witness wk); [destruct Hout; by apply Hwit|done]).
    apply (Hrun (λ w, ip_of tg ∉ bound w) no_drop (first_post tg)); [|done|done| | | | |done|done].
    + apply (stable_untracked owned tg tg_owned Bound).
    + by intros [[b|]|e].
    + eapply triple_conseq; [apply (first_bind_spec owned ip_parse decode_routes protocol tg_distinct tg contended tg_owned)|done|done].
    + by right.
    + intros [[b|]|e] w' Hr; [by left|by right..].
Qed.

Lemma worker_turn_spec wk t contended :
  triple owned no_drop (relies wk)
    (worker_turn ip_parse decode_routes protocol false vip iface node_id notify contended wk t) turn_post.
Proof.
  unfold worker_turn. destruct (cleanup_needed (observe _ _ _ _ _)) eqn:Hc.
  { eapply triple_pre; [by apply cleanup_turn_spec|done]. }
  destruct (turn_binds _ _ _ _) eqn:Hb; [by apply bind_turn_spec|].
  apply triple_ret; [apply stable_relies|]. intros w _ Hw. eexists _, _. split; [apply f_equal, surjective_pairing|].
  split; [|intros g f Hp; by apply (attempt_publishes_nothing vip iface node_id notify wk t) in Hp].
  destruct Hw as [Hw|Hw]; [|right; by rewrite (no_bind_keeps vip iface node_id notify wk t)].
  apply (proj2 (observe_keeps vip iface node_id wk t)) in Hc. congruence.
Qed.
End turns.
