(* ===== verification/KernelTheorems.v ===== *)
(** * What the daemon's addresses are worth

    Over every history of the system: the workers with their commands, dropped
    binds, children that act late or are lost, the stop of the daemon.  An
    attached VIP is always tracked; a release is submitted only when the address
    is absent and no child can bring it back. *)

From S2P Require Import Prelude Text Io Types Openraft State Freshness Takeover Worker Tasks VipCommands Ownership LocalVip.
From S2P Require Import WorkerTheorems KernelWorld KernelLogic KernelRules KernelSpecs KernelSound KernelWorker.

(** ** The system *)

Section system.
Context `{!IpTool} `{!IpToolLaws} {O : Openraft}.
Context (ip_parse : Text → option IpAddr) (decode_routes : list N → option (list MarkerRouteInfo)) (protocol : N).
Context (table : list (VipAddr * Text)) (node_id : N) (notify : bool).
Hypothesis (table_distinct : NoDup (ip_of <$> table)).
Implicit Types (w : World).

Notation system_step := (system_step ip_parse decode_routes protocol false table node_id notify).
Notation reachable := (reachable ip_parse decode_routes protocol false table node_id notify).

Definition thread_ok (vip : VipAddr) (iface : Text) (th : Thread) w : Prop :=
  match th with
  | Idle wk => good (eq (vip, iface)) None w ∧ relies vip iface wk w
  | Busy code waiting => task_ok (eq (vip, iface)) (turn_post vip iface) code waiting w
  end.

(** The cleanup at the end may be acknowledged only when every address is gone. *)
Definition release_post (r : Result (bool * bool) VipError) w : Prop :=
  r = Ok (true, true) → ∀ tg, tg ∈ table → ¬ at_risk tg w.

Definition threads_ok w (threads : list Thread) : Prop :=
  ∀ k vip iface, table !! k = Some (vip, iface) → ∃ th, threads !! k = Some th ∧ thread_ok vip iface th w.

Definition system_ok (s : System) : Prop :=
  match s with
  | Running w threads => wf w ∧ length threads = length table ∧ threads_ok w threads
  | Stopping w code waiting => task_ok (λ tg, tg ∈ table) release_post code waiting w
  end.

Lemma table_inj tg tg' : tg ∈ table → tg' ∈ table → ip_of tg = ip_of tg' → tg = tg'.
Proof.
  intros [i Hi]%list_elem_of_lookup [j Hj]%list_elem_of_lookup Heq.
  assert (i = j) as ->; [|congruence]. eapply (NoDup_lookup (ip_of <$> table)); [done|..]; rewrite list_lookup_fmap.
  - by rewrite Hi.
  - rewrite Hj. cbn. by rewrite Heq.
Qed.

Lemma thread_ok_other vip iface th w w' :
  other (eq (vip, iface)) w w' → thread_ok vip iface th w → thread_ok vip iface th w'.
Proof.
  intros Ho. destruct th as [wk|code waiting]; [|by apply task_ok_other].
  intros [Hg Hr]. split; [by eapply other_good|].
  by apply (stable_relies vip iface wk w w'); [apply other_rely|].
Qed.

Lemma thread_ok_good vip iface th w :
  thread_ok vip iface th w → good (eq (vip, iface)) match th with Busy _ j => j | Idle _ => None end w.
Proof. destruct th; by intros [??]. Qed.

(** One thread moves on. *)
Lemma threads_ok_insert w w' threads k vip iface th :
  length threads = length table → table !! k = Some (vip, iface) → threads_ok w threads → thread_ok vip iface th w' →
  (∀ vip' iface', addr vip' ≠ addr vip → w' = w ∨ other (eq (vip', iface')) w w') →
  threads_ok w' (<[k := th]> threads).
Proof.
  intros Hlen Hk Hok Hth Ho i vip' iface' Hi. destruct (Hok i vip' iface' Hi) as (th' & Hi' & Hth').
  destruct (decide (i = k)) as [->|Hne].
  - simplify_eq. exists th. split; [|done]. apply list_lookup_insert_eq. by eapply lookup_lt_Some.
  - exists th'. rewrite list_lookup_insert_ne by done. split; [done|].
    destruct (Ho vip' iface') as [->|Hs]; [|done|by eapply thread_ok_other].
    intros Heq. apply Hne. eapply (NoDup_lookup (ip_of <$> table)); [done|..]; rewrite list_lookup_fmap.
    + by rewrite Hi.
    + rewrite Hk. cbn. unfold ip_of. cbn. by rewrite Heq.
Qed.

Lemma threads_ok_background w w' threads : background w w' → threads_ok w threads → threads_ok w' threads.
Proof.
  intros Hb Hok k vip iface Hk. destruct (Hok k vip iface Hk) as (th & Hth & Ht). exists th. split; [done|].
  by eapply thread_ok_other, Ht; apply other_background.
Qed.

(** *** The stop *)

Lemma stop_steps threads w : rtc (λ w w', ∃ j, w' = abandon j w) w (foldl stop_thread w threads).
Proof.
  revert w. induction threads as [|[wk|code [j|]] threads IH]; intros w; cbn; [done|apply IH| |apply IH].
  eapply rtc_l; [by exists j|apply IH].
Qed.

Lemma abandons_keep (P : World → Prop) w w' :
  (∀ j w, P w → P (abandon j w)) → rtc (λ w w', ∃ j, w' = abandon j w) w w' → P w → P w'.
Proof. intros HP. induction 1 as [|w w1 w2 [j ->] _ IH]; [done|]. intros Hw. by apply IH, HP. Qed.

Definition not_waited (j : nat) w : Prop := ∀ r, runs w !! j = Some r → run_phase r ≠ WaitedFor.

Lemma not_waited_abandon i j w : not_waited j w → not_waited j (abandon i w).
Proof.
  intros Hn r Hj Hp. destruct (proj2 (runs_step_abandon (λ _, False) w i) j r Hj) as [(r0 & Hj0 & _ & _ & _ & _ & Hback)|[_ []]].
  by eapply Hn; [|apply Hback].
Qed.

Lemma stopped_not_waited threads w code j :
  Busy code (Some j) ∈ threads → not_waited j (foldl stop_thread w threads).
Proof.
  revert w. induction threads as [|th threads IH]; intros w Hin; [by apply not_elem_of_nil in Hin|].
  apply elem_of_cons in Hin as [<-|Hin]; [|by apply IH]. cbn.
  eapply (abandons_keep (not_waited j)); [intros; by apply not_waited_abandon|apply stop_steps|].
  intros r Hj Hp. pose proof Hj as Hj'. unfold abandon in Hj. destruct (runs w !! j) as [r0|] eqn:Hr0; [|congruence].
  destruct (run_abandon r0 (children w)) as [r1 t] eqn:Ha. cbn in Hj.
  rewrite list_lookup_insert_eq in Hj by (by eapply lookup_lt_Some). simplify_eq.
  unfold run_abandon in Ha. destruct (run_phase r0) eqn:Hp0; simplify_eq/=; congruence.
Qed.

Lemma stop_ok w threads :
  wf w → length threads = length table → threads_ok w threads → good (λ tg, tg ∈ table) None (foldl stop_thread w threads).
Proof.
  intros Hw Hlen Hok. pose proof (stop_steps threads w) as Hs. split.
  - eapply (abandons_keep wf); [intros; by apply wf_abandon|done|done].
  - intros j r Hj Hp Hip. destruct Hip as ([vip iface] & Hin & Hip).
    apply list_elem_of_lookup in Hin as [k Hk]. destruct (Hok k vip iface Hk) as (th & Hth & Ht).
    assert (calm (eq (vip, iface)) match th with Busy _ j => j | Idle _ => None end (foldl stop_thread w threads)) as Hc.
    { eapply (abandons_keep (calm _ _)); [intros i w'; apply other_calm, other_abandon|done|]. by eapply good_calm, thread_ok_good. }
    assert (match th with Busy _ j => j | Idle _ => None end = Some j) as Hj'.
    { apply (Hc j r Hj Hp). by exists (vip, iface). }
    destruct th as [|code [i|]]; simplify_eq. exfalso.
    eapply (stopped_not_waited threads w code j); [by eapply list_elem_of_lookup_2|done|done].
  - intros tg Htg. destruct tg as [vip iface]. pose proof Htg as Hin. apply list_elem_of_lookup in Hin as [k Hk].
    destruct (Hok k vip iface Hk) as (th & Hth & Ht).
    eapply (abandons_keep (guarded _)); [intros i w'; eapply (stable_guarded (λ tg, tg ∈ table)); [done|apply rely_abandon]|done|].
    eapply good_guarded; [by eapply thread_ok_good|done].
Qed.

(** *** Every step *)

Lemma system_ok_step s s' : system_ok s → system_step s s' → system_ok s'.
Proof.
  intros Hok Hs. destruct Hs as [w w' threads Hb|w threads k vip iface wk t contended Hk Hth|w threads k code waiting w' code' waiting' Hth Hs
    |w threads k wk effects Hth|w threads|w w' code waiting Hb|w code waiting w' code' waiting' Hs].
  - destruct Hok as (Hw & Hlen & Hok). split_and!; [by eapply wf_background|done|by eapply threads_ok_background].
  - destruct Hok as (Hw & Hlen & Hok). split_and!; [done|by rewrite length_insert|].
    destruct (Hok k vip iface Hk) as (th & Hth' & Ht). simplify_eq. destruct Ht as [Hg Hr].
    eapply threads_ok_insert; [done..| |by left]. split; [done|].
    by apply (worker_turn_spec ip_parse decode_routes protocol vip iface node_id notify wk t contended).
  - destruct Hok as (Hw & Hlen & Hok).
    destruct (lookup_lt_is_Some_2 table k) as [[vip iface] Hk]; [rewrite <- Hlen; by eapply lookup_lt_Some|].
    destruct (Hok k vip iface Hk) as (th & Hth' & Ht). simplify_eq. destruct (task_ok_step _ _ _ _ _ _ _ _ Ht Hs) as [Ht' Ho].
    split_and!; [apply (good_wf _ _ _ (proj1 Ht'))|by rewrite length_insert|].
    eapply threads_ok_insert; [done..|]. intros vip' iface' Hne. apply Ho. unfold ip_of. cbn.
    intros ip (x & <- & <-) (y & <- & ?). done.
  - destruct Hok as (Hw & Hlen & Hok). split_and!; [done|by rewrite length_insert|].
    destruct (lookup_lt_is_Some_2 table k) as [[vip iface] Hk]; [rewrite <- Hlen; by eapply lookup_lt_Some|].
    destruct (Hok k vip iface Hk) as (th & Hth' & Ht). simplify_eq. destruct Ht as [Hg Ht].
    eapply threads_ok_insert; [done..| |by left]. split; [done|].
    by destruct (Ht w (rtc_refl _ _) Hg) as (wk' & effects' & [= <- <-] & Hr & _).
  - destruct Hok as (Hw & Hlen & Hok). pose proof (stop_ok w threads Hw Hlen Hok) as Hg. split; [done|].
    by apply (release_local_vips_spec (λ tg, tg ∈ table) ip_parse decode_routes protocol table_inj notify table).
  - by eapply task_ok_other, Hok; apply other_background.
  - by destruct (task_ok_step _ _ _ _ _ _ _ _ Hok Hs) as [Ht _].
Qed.

Lemma started_ok s : started table s → system_ok s.
Proof.
  intros [h lifetime unread Hh]. split_and!; [by split|by rewrite length_fmap|].
  intros k vip iface Hk. eexists. rewrite list_lookup_fmap, Hk. split; [done|]. split.
  - split; [by split|done|]. intros tg <- [Ha|[j (r & Hj & _)]]; [|done].
    exfalso. eapply Hh, Ha. by eapply list_elem_of_lookup_2.
  - right. split; [done|]. by intros [??].
Qed.

Lemma reachable_ok s : reachable s → system_ok s.
Proof.
  intros (s0 & Hstart & Hs). apply started_ok in Hstart. induction Hs as [|s0 s1 s2 Hs _ IH]; [done|].
  by eapply IH, system_ok_step.
Qed.

(** Gone for good: the address is not attached, and no child that adds it may still act. *)
Definition gone (vip : VipAddr) (iface : Text) w : Prop :=
  ¬ attached (host w) (addr vip) (prefix vip) iface ∧
  ∀ r, r ∈ runs w → run_command r = AddrReplace (addr vip) (prefix vip) iface → run_reaped r = true ∨ is_Some (run_exit r).

Lemma not_at_risk_gone vip iface w : ¬ at_risk (vip, iface) w → gone vip iface w.
Proof.
  intros Hr. split; [intros Ha; apply Hr; by left|]. intros r Hin Hc. apply list_elem_of_lookup in Hin as [j Hj].
  destruct (run_reaped r) eqn:Hre; [by left|right]. destruct (run_exit r) as [st|] eqn:He; [done|].
  exfalso. apply Hr. right. exists j. by exists r.
Qed.

(** C3: a release is submitted only when its address is gone for good.  In every
    history of the daemon (workers interleaved in any order, binds dropped while
    their commands run, commands that time out, children that act late or are
    never reaped, addresses removed by others), when a turn of the worker of a VIP
    ends with a release to submit, the address is not attached to its interface,
    and no child that adds it can still act. *)
Theorem released_address_is_gone w threads k vip iface wk effects g f :
  reachable (Running w threads) → table !! k = Some (vip, iface) →
  threads !! k = Some (Busy (Ret (Ok (wk, effects))) None) → PublishRelease g f ∈ effects → gone vip iface w.
Proof.
  intros (_ & _ & Hok)%reachable_ok Hk Hth Hp. destruct (Hok k vip iface Hk) as (th & Hth' & Ht). simplify_eq.
  destruct Ht as [Hg Ht]. destruct (Ht w (rtc_refl _ _) Hg) as (wk' & effects' & [= <- <-] & _ & Hr).
  by eapply not_at_risk_gone, Hr.
Qed.

(** C10: an attached VIP is always remembered.  In every history of the daemon, also
    while commands run and after binds were dropped, a VIP that is attached to its
    interface is in the set of bound addresses or in the set that needs another
    cleanup, unless a killed child was lost, which stops the daemon. *)
Theorem attached_is_tracked w threads vip iface :
  reachable (Running w threads) → (vip, iface) ∈ table → attached (host w) (addr vip) (prefix vip) iface →
  addr vip ∈ bound w ∨ addr vip ∈ needs_recleanup w ∨ lost (children w) = true.
Proof.
  intros (Hw & _ & Hok)%reachable_ok [k Hk]%list_elem_of_lookup Ha. destruct (Hok k vip iface Hk) as (th & Hth & Ht).
  apply thread_ok_good in Ht. destruct (good_guarded _ _ _ Ht (vip, iface)) as [?|[?|[j (r & Hj & _ & Hre & Hp)]]];
    [done|by left|by left|right; by left|]. right. right. rewrite (wf_lost _ Hw).
  apply existsb_exists. exists r. split; [by apply list_elem_of_In, (list_elem_of_lookup_2 _ j)|].
  unfold lost_run. by rewrite Hp, Hre.
Qed.

(** C11: the daemon acknowledges its releases at the end only when every VIP is gone
    for good.  In every history in which the daemon stops its workers, whatever they
    were doing, if the last cleanup succeeded and the releases may be acknowledged,
    then no VIP of the table is attached, and no child can attach one. *)
Theorem acknowledged_release_is_gone w vip iface :
  reachable (Stopping w (Ret (Ok (true, true))) None) → (vip, iface) ∈ table → gone vip iface w.
Proof.
  intros [Hg Ht]%reachable_ok Hin. by apply not_at_risk_gone, (Ht w (rtc_refl _ _) Hg eq_refl (vip, iface)).
Qed.

Definition world_of (s : System) : World :=
  match s with Running w _ => w | Stopping w _ _ => w end.

(** A child that may act although nobody waits for it. *)
Notation unattended r := (run_phase r = Abandoned ∨ run_phase r = Finished ∧ run_reaped r = false) (only parsing).

Lemma count_unattended l : count l = length (filter (λ r, unattended r) l).
Proof.
  induction l as [|r l IH]; [done|]. rewrite filter_cons. unfold count in *. cbn. rewrite IH. unfold counted.
  case_decide as Hd; cbn; destruct (run_phase r), (run_reaped r); cbn; try done; exfalso; naive_solver.
Qed.

Lemma lost_unattended l : existsb lost_run l = true ↔ ∃ r, r ∈ l ∧ run_phase r = Finished ∧ run_reaped r = false.
Proof.
  rewrite existsb_exists. unfold lost_run. split; intros (r & Hin & Hr); exists r; rewrite list_elem_of_In in *; (split; [done|]).
  - apply andb_true_iff in Hr as [Hp%bool_decide_eq_true Hr%negb_true_iff]. done.
  - destruct Hr as [-> ->]. done.
Qed.

(** C18: the children and their tracker are well formed.  In every history of the
    daemon the tracker counts exactly the children that may act although nobody
    waits for them: the caller is gone, or the child could not be reaped; it is
    marked lost exactly when a child could not be reaped; and for every child, a
    status that was reported is the one its command exited with, a result is there
    exactly when the waiter is done, and only then it may count as reaped. *)
Theorem tracker_wellformed s :
  reachable s →
  let w := world_of s in
  unsettled (children w) = length (filter (λ r, unattended r) (runs w)) ∧
  (lost (children w) = true ↔ ∃ r, r ∈ runs w ∧ run_phase r = Finished ∧ run_reaped r = false) ∧
  ∀ r, r ∈ runs w →
    (∀ st, run_result r = Some (Ok st) → run_exit r = Some st) ∧
    (run_phase r = Finished ↔ is_Some (run_result r)) ∧ (run_reaped r = true → run_phase r = Finished).
Proof.
  intros Hr%reachable_ok. assert (wf (world_of s)) as [Hc Hl Hall].
  { destruct s as [w threads|w code waiting]; [by destruct Hr as [? _]|apply (good_wf _ _ _ (proj1 Hr))]. }
  cbn. rewrite Hc, Hl, count_unattended, lost_unattended. split_and!; [done..|].
  intros r Hin. by apply (Forall_forall run_wf (runs (world_of s))).
Qed.
End system.

(** ** An example *)

(** A host whose addresses are a set, and a worker that owes the release of a VIP it does not hold. *)
Module Owing.
Local Open Scope N_scope.

#[local] Existing Instances HostModel.tool HostModel.tool_laws.

Definition no_routes : list N → option (list MarkerRouteInfo) := λ _, Some [].
Definition no_ip : Text → option IpAddr := λ _, None.
Definition table : list (VipAddr * Text) := [(Takeovers.vip, Takeovers.iface)].
Definition world : World := mkWorld (∅ : Host) ∅ ∅ ∅ (mkTracked 0 false) [].

Lemma table_distinct : NoDup (ip_of <$> table).
Proof. apply NoDup_singleton. Qed.

Lemma start : started table (Running world [Idle Takeovers.started]).
Proof. apply (started_with table (∅ : Host) 100 (λ _, false)). intros vip iface _. apply not_elem_of_empty. Qed.

Notation steps := (rtc (λ c c', step world (c, None) world (c', None))).

Definition owing_turn : Turn (O:=model_openraft) := Takeovers.turn_at 20 Takeovers.handed_back.
Notation worker_code :=
  (worker_turn no_ip no_routes 246 false Takeovers.vip Takeovers.iface 1 false 0%nat Takeovers.started owing_turn).
Definition ended : Worker * list Effect := turn Takeovers.vip Takeovers.iface 1 false Takeovers.started owing_turn.

Lemma owes : cleanup_needed (observe Takeovers.vip Takeovers.iface 1 (arm Takeovers.started owing_turn) owing_turn) = true.
Proof. vm_cast_no_check (eq_refl true). Qed.

Lemma ended_effects : ended.2 = [Unbind true; PublishRelease 6 None].
Proof. vm_cast_no_check (eq_refl [Unbind true; PublishRelease 6 None]). Qed.

(** The address is not tracked and no child is left, so the turn ends at once. *)
Lemma turn_ends : steps worker_code (Ret (Ok ended)).
Proof.
  unfold worker_turn. rewrite owes.
  do 2 (eapply rtc_l; [left; by eexists|]). eapply rtc_l; [left; by exists tt|].
  do 4 (eapply rtc_l; [left; by eexists|]). reflexivity.
Qed.

Notation reached := (reachable (O:=model_openraft) no_ip no_routes 246 false table 1 false).

Lemma steps_reachable code code' :
  steps code code' → reached (Running world [Busy code None]) → reached (Running world [Busy code' None]).
Proof.
  induction 1 as [|c1 c2 c3 Hs _ IH]; [done|]. intros (s0 & Hstart & Hr). apply IH. exists s0. split; [done|].
  eapply rtc_r; [exact Hr|]. by apply (system_event _ _ _ _ _ _ _ world [Busy c1 None] 0%nat c1 None world c2 None).
Qed.

Lemma release_reachable : reached (Running world [Busy (Ret (Ok ended)) None]).
Proof.
  eapply steps_reachable; [exact turn_ends|]. exists (Running world [Idle Takeovers.started]). split; [exact start|].
  apply rtc_once. by apply (system_turn _ _ _ _ _ _ _ world [Idle Takeovers.started] 0%nat Takeovers.vip Takeovers.iface).
Qed.

Lemma released_address_is_gone_witness : gone Takeovers.vip Takeovers.iface world.
Proof.
  apply (released_address_is_gone no_ip no_routes 246 table 1 false table_distinct world
           [Busy (Ret (Ok ended)) None] 0%nat Takeovers.vip Takeovers.iface ended.1 ended.2 6 None).
  - exact release_reachable.
  - reflexivity.
  - reflexivity.
  - rewrite ended_effects. apply list_elem_of_further, list_elem_of_here.
Defined.

(** *** A bind in progress *)

Definition binding_turn : Turn (O:=model_openraft) := Takeovers.turn_at 12 Takeovers.taken_over.

Lemma binding : cleanup_needed (observe Takeovers.vip Takeovers.iface 1 (arm Takeovers.started binding_turn) binding_turn) = false ∧
  turn_binds Takeovers.vip 1 (observe Takeovers.vip Takeovers.iface 1 (arm Takeovers.started binding_turn) binding_turn) binding_turn = true.
Proof. split; [vm_cast_no_check (eq_refl false)|vm_cast_no_check (eq_refl true)]. Qed.

Lemma alone_reachable (c c' : World * (vtask (Worker * list Effect) * option nat)) :
  rtc alone c c' → reached (Running c.1 [Busy c.2.1 c.2.2]) → reached (Running c'.1 [Busy c'.2.1 c'.2.2]).
Proof.
  induction 1 as [|c1 c2 c3 Hs _ IH]; [done|]. intros (s0 & Hstart & Hr). apply IH. exists s0. split; [done|].
  eapply rtc_r; [exact Hr|]. destruct c1 as [w1 [t1 j1]], c2 as [w2 [t2 j2]]. destruct Hs as [Hs|[Hb [= -> ->]]].
  - by apply (system_event _ _ _ _ _ _ _ w1 [Busy t1 j1] 0%nat t1 j1 w2 t2 j2).
  - by apply system_background.
Qed.

Lemma attached_reachable : ∃ c, rtc alone (world, (worker_turn no_ip no_routes 246 false Takeovers.vip Takeovers.iface 1 false 0%nat
    Takeovers.started binding_turn, None)) c ∧ attached (host c.1) (V4 1) 24 Takeovers.iface.
Proof.
  unfold worker_turn. destruct binding as [-> ->]. eexists. split.
  - HostModel.event false. HostModel.event true. HostModel.event (Some true). HostModel.event (Some false). HostModel.event (Some false). HostModel.event (Some true).
    HostModel.event (Some tt). HostModel.event (Some tt). HostModel.event (Some true). HostModel.command 0%nat. HostModel.answered 0%nat.
    HostModel.event (Some true). HostModel.command 1%nat. reflexivity.
  - cbn. set_solver.
Qed.

Lemma attached_is_tracked_witness :
  ∃ w : World, attached (host w) (V4 1) 24 Takeovers.iface ∧
    (V4 1 ∈ bound w ∨ V4 1 ∈ needs_recleanup w ∨ lost (children w) = true).
Proof.
  destruct attached_reachable as ([w [code waiting]] & Hr & Ha). exists w. split; [exact Ha|].
  apply (attached_is_tracked no_ip no_routes 246 table 1 false table_distinct w [Busy code waiting] Takeovers.vip Takeovers.iface).
  - apply (alone_reachable _ _ Hr). exists (Running world [Idle Takeovers.started]). split; [exact start|].
    apply rtc_once. by apply (system_turn _ _ _ _ _ _ _ world [Idle Takeovers.started] 0%nat Takeovers.vip Takeovers.iface).
  - apply list_elem_of_here.
  - exact Ha.
Defined.

(** *** The stop *)

Lemma stop_reachable : reached (Stopping world (Ret (Ok (true, true))) None).
Proof.
  exists (Running world [Idle Takeovers.started]). split; [exact start|]. eapply rtc_l; [apply system_stop|].
  eapply rtc_l; [apply (system_stopping_event _ _ _ _ _ _ _ world _ None world); left; by exists true|].
  eapply rtc_l; [apply (system_stopping_event _ _ _ _ _ _ _ world _ None world); left; by eexists|].
  eapply rtc_l; [apply (system_stopping_event _ _ _ _ _ _ _ world _ None world); left; by exists tt|].
  do 3 (eapply rtc_l; [apply (system_stopping_event _ _ _ _ _ _ _ world _ None world); left; by eexists|]). reflexivity.
Qed.

Lemma acknowledged_release_is_gone_witness : gone Takeovers.vip Takeovers.iface world.
Proof.
  apply (acknowledged_release_is_gone no_ip no_routes 246 table 1 false table_distinct).
  - exact stop_reachable.
  - apply list_elem_of_here.
Defined.

(** *** The tracker *)

Lemma tracker_wellformed_witness : unsettled (children world) = 0%nat ∧ lost (children world) = false.
Proof.
  destruct (tracker_wellformed no_ip no_routes 246 table 1 false table_distinct (Running world [Busy (Ret (Ok ended)) None])
              release_reachable) as (Hc & _ & _).
  split; [exact Hc|reflexivity].
Defined.
End Owing.
