(* ===== verification/KernelStartup.v ===== *)
(** * The cleanup at start-up (src/vip/startup.rs, src/vip/ownership.rs)

    After a successful cleanup at start-up no configured VIP is attached to its
    interface, and neither is any address that the discovery attributed to a
    previous process; and the discovery misses no address that carries the
    protocol number of the instance or has a marker route. *)

From S2P Require Import Prelude Text Io Types Config Tasks VipCommands Ownership LocalVip.
From S2P Require Import KernelWorld KernelLogic KernelRules KernelSpecs KernelSound.

(** ** Discovery *)

Section discovery.
Context (ip_parse : Text → option IpAddr) (decode_addresses : list N → option (list InterfaceAddresses))
  (decode_routes : list N → option (list MarkerRouteInfo)).

(** A fold over results keeps an invariant of its steps. *)
Lemma foldr_result_inv {A B E} (f : B → A → Result A E) (I : A → Prop) l a a' :
  foldr_result f l a = Ok a' → I a → (∀ b x x', b ∈ l → I x → f b x = Ok x' → I x') → I a'.
Proof.
  revert a. induction l as [|b l IH]; intros a Hf Ha Hstep; cbn in Hf; [by simplify_eq|].
  destruct (f b a) as [a1|] eqn:Hb; [|done]. eapply IH; [exact Hf| |].
  - eapply Hstep; [apply list_elem_of_here|exact Ha|exact Hb].
  - intros c x x' Hc. apply Hstep. by apply list_elem_of_further.
Qed.

(** What one element establishes and the later ones keep, holds at the end. *)
Lemma foldr_result_after {A B E} (f : B → A → Result A E) (G : A → Prop) l a a' b :
  foldr_result f l a = Ok a' → b ∈ l → (∀ x x', f b x = Ok x' → G x') → (∀ c x x', c ∈ l → G x → f c x = Ok x' → G x') → G a'.
Proof.
  revert a. induction l as [|c l IH]; intros a Hf Hb Hset Hkeep; [by apply not_elem_of_nil in Hb|].
  cbn in Hf. destruct (f c a) as [a1|] eqn:Hc; [|done]. apply elem_of_cons in Hb as [->|Hb].
  - eapply foldr_result_inv; [exact Hf|by eapply Hset|]. intros d x x' Hd. apply Hkeep. by apply list_elem_of_further.
  - eapply IH; [exact Hf|done|done|]. intros d x x' Hd. apply Hkeep. by apply list_elem_of_further.
Qed.

(** An inventory has an entry for the address on the interface. *)
Definition listed (inventory : AddressInventory) (ip : IpAddr) (iface : Text) : Prop :=
  is_Some (inventory !! (ip, iface)).

Lemma listed_insert m ip iface key target : listed m ip iface → listed (<[key := target]> m) ip iface.
Proof. unfold listed. intros H. destruct (decide (key = (ip, iface))) as [->|Hne]; [by rewrite lookup_insert_eq|by rewrite lookup_insert_ne]. Qed.

(** One entry of the decoded output is the address [ip], with the protocol number or without. *)
Definition entry_of (info : AddressInfo) (ip : IpAddr) : Prop :=
  ∃ local family prefixlen, info_local info = Some local ∧ info_family info = Some family ∧
    info_prefixlen info = Some prefixlen ∧ ip_parse local = Some ip.

Lemma inventory_entry_lists protocol iface info ip x x' :
  inventory_entry ip_parse protocol iface info x = Ok x' → entry_of info ip →
  listed x'.1 ip iface ∧ (is_keepafloatd_protocol (info_protocol info) protocol = Ok true → listed x'.2 ip iface).
Proof.
  unfold inventory_entry. intros Hf (local & family & prefixlen & Hl & Hfam & Hp & Hip).
  destruct (is_keepafloatd_protocol _ _) as [marked|] eqn:Hm; [|done]. unfold address_of in Hf.
  rewrite Hl, Hfam, Hp, Hip in Hf. destruct (ensure _ BadFamily); [|done]. destruct (ensure _ BadPrefix); [|done].
  simplify_eq/=. unfold listed. split; [by rewrite lookup_insert_eq|]. intros [= ->]. by rewrite lookup_insert_eq.
Qed.

Lemma inventory_entry_keeps protocol iface info ip j x x' :
  inventory_entry ip_parse protocol iface info x = Ok x' →
  (listed x.1 ip j → listed x'.1 ip j) ∧ (listed x.2 ip j → listed x'.2 ip j).
Proof.
  unfold inventory_entry. intros Hf. destruct (is_keepafloatd_protocol _ _) as [marked|]; [|done].
  destruct (address_of _ _ _) as [[vip|]|]; [|by simplify_eq|done]. simplify_eq/=.
  split; [apply listed_insert|]. destruct marked; [apply listed_insert|done].
Qed.

Lemma inventory_lists protocol json interfaces x interface info ip :
  decode_addresses json = Some interfaces → parse_address_inventory ip_parse decode_addresses json protocol = Ok x →
  interface ∈ interfaces → info ∈ addr_info interface → entry_of info ip →
  listed x.1 ip (ifname interface) ∧
  (is_keepafloatd_protocol (info_protocol info) protocol = Ok true → listed x.2 ip (ifname interface)).
Proof.
  unfold parse_address_inventory, from_slice. intros -> Hf Hin Hinfo Hentry.
  set (G (y : AddressInventory * AddressInventory) := listed y.1 ip (ifname interface) ∧
    (is_keepafloatd_protocol (info_protocol info) protocol = Ok true → listed y.2 ip (ifname interface))).
  assert (∀ j i y y', inventory_entry ip_parse protocol j i y = Ok y' → G y → G y') as Hkeep.
  { intros j i y y' Hy [H1 H2]. destruct (inventory_entry_keeps protocol j i ip (ifname interface) y y' Hy) as [K1 K2].
    split; [by apply K1|]. intros Hm. by apply K2, H2. }
  eapply (foldr_result_after _ G _ _ _ interface Hf Hin).
  - intros y y'. destruct (ensure _ _); [|done]. intros Hy.
    eapply (foldr_result_after _ G _ _ _ info Hy Hinfo); [|intros; by eapply Hkeep].
    intros z z' Hz. by eapply inventory_entry_lists.
  - intros c y y' _ Hy. destruct (ensure _ _); [|done]. intros Hc.
    eapply (foldr_result_inv _ G _ _ _ Hc Hy). intros; by eapply Hkeep.
Qed.

(** The entries of an inventory are under their own address and interface. *)
Definition keyed (inventory : AddressInventory) : Prop :=
  ∀ ip iface target, inventory !! (ip, iface) = Some target → addr target.1 = ip ∧ target.2 = iface.

Lemma keyed_insert inventory vip iface : keyed inventory → keyed (<[(addr vip, iface) := (vip, iface)]> inventory).
Proof. intros Hk ip j target. rewrite lookup_insert_Some. intros [[[= <- <-] <-]|[_ Ht]]; [done|by apply Hk]. Qed.

Lemma parse_inventory_keyed protocol json x :
  parse_address_inventory ip_parse decode_addresses json protocol = Ok x → keyed x.1 ∧ keyed x.2.
Proof.
  unfold parse_address_inventory, from_slice. destruct (decode_addresses json) as [interfaces|]; [|done]. intros Hf.
  apply (foldr_result_inv _ (λ x, keyed x.1 ∧ keyed x.2) _ _ _ Hf); [split; intros ip j t Ht; cbn in Ht; by rewrite lookup_empty in Ht|].
  intros interface y y' _ Hy. destruct (ensure _ _); [|done]. intros Hi.
  apply (foldr_result_inv _ (λ x, keyed x.1 ∧ keyed x.2) _ _ _ Hi Hy).
  intros info z z' _ [H1 H2] Hz. unfold inventory_entry in Hz.
  destruct (is_keepafloatd_protocol _ _) as [marked|]; [|done]. destruct (address_of _ _ _) as [[vip|]|]; [|by simplify_eq|done].
  simplify_eq/=. split; [by apply keyed_insert|]. destruct marked; [by apply keyed_insert|done].
Qed.

(** The route is a marker of this instance. *)
Definition own_route (protocol : N) (route : MarkerRouteInfo) : Prop :=
  numeric_kernel_value (route_table route) = Ok (Some (u64_saturating_add VIP_MARKER_ROUTE_TABLE_BASE protocol)) ∧
  is_keepafloatd_protocol (route_protocol route) protocol = Ok true.

Lemma marker_entry_keeps protocol ipv6 route ip x x' :
  marker_entry ip_parse protocol ipv6 route x = Ok x' → ip ∈ x → ip ∈ x'.
Proof.
  unfold marker_entry. destruct (numeric_kernel_value _) as [table|]; [|done]. destruct (negb _); [by intros [= ->]|].
  destruct (is_keepafloatd_protocol _ _) as [own|]; [|done]. destruct (negb own); [by intros [= ->]|].
  destruct (marker_destination _ _ _) as [a|]; [|done]. intros [= <-]. set_solver.
Qed.

Lemma parse_markers_complete protocol json ipv6 routes markers route :
  decode_routes json = Some routes → parse_marker_routes ip_parse decode_routes json protocol ipv6 = Ok markers →
  route ∈ routes → own_route protocol route →
  ∃ ip, marker_destination ip_parse ipv6 route = Ok ip ∧ ip ∈ markers.
Proof.
  unfold parse_marker_routes, from_slice. intros -> Hf Hr [Ht Hp].
  destruct (foldr_result _ _ _) as [marked|] eqn:Hm; [|done]. simplify_eq.
  assert (∃ ip, marker_destination ip_parse ipv6 route = Ok ip ∧ ip ∈ marked) as (ip & Hip & Hin).
  { apply (foldr_result_after _ (λ x, ∃ ip, marker_destination ip_parse ipv6 route = Ok ip ∧ ip ∈ x) _ _ _ route Hm Hr).
    - intros x x'. unfold marker_entry. rewrite Ht, Hp. rewrite bool_decide_true by done. cbn.
      destruct (marker_destination _ _ _) as [ip|]; [|done]. intros [= <-]. exists ip. set_solver.
    - intros c x x' _ (ip & Hip & Hin) Hx. exists ip. split; [done|]. by eapply marker_entry_keeps. }
  exists ip. by rewrite elem_of_btree_keys.
Qed.

Lemma claim_marked_keeps addresses a ip iface x x' :
  claim_marked addresses a x = Ok x' → listed x ip iface → listed x' ip iface.
Proof.
  unfold claim_marked. destruct (filter _ _) as [|[key target] [|]]; [by intros [= ->]| |done]. intros [= <-]. apply listed_insert.
Qed.

Lemma claim_marked_keyed addresses a x x' : keyed addresses → claim_marked addresses a x = Ok x' → keyed x → keyed x'.
Proof.
  unfold claim_marked. intros Ha. destruct (filter _ _) as [|[key target] [|]] eqn:Hf; [by intros [= ->]| |done].
  intros [= <-] Hx ip iface t. rewrite lookup_insert_Some. intros [[-> ->]|[_ Ht]]; [|by apply Hx].
  apply (Ha ip iface). apply elem_of_btree_iter.
  assert (((ip, iface), t) ∈ [((ip, iface), t)]) as Hin by apply list_elem_of_here. rewrite <- Hf in Hin.
  by apply list_elem_of_filter in Hin as [_ ?].
Qed.

Lemma claim_marked_lists addresses ip iface x x' :
  claim_marked addresses ip x = Ok x' → listed addresses ip iface → listed x' ip iface.
Proof.
  unfold claim_marked. intros Hc [target Ht].
  assert (((ip, iface), target) ∈ filter (λ kt : (IpAddr * Text) * (VipAddr * Text), kt.1.1 = ip) (btree_iter addresses)) as Hin.
  { apply list_elem_of_filter. split; [done|]. by apply elem_of_btree_iter. }
  destruct (filter _ _) as [|[key t] [|]]; [by apply not_elem_of_nil in Hin| |done].
  apply list_elem_of_singleton in Hin as [= <- <-]. simplify_eq. unfold listed. by rewrite lookup_insert_eq.
Qed.

(** C26: the discovery at start-up misses no address of a previous process.  If the
    outputs of ip(8) are accepted, then every route of the instance's table with its
    protocol number is among the marker routes found, and every address that carries
    the protocol number, or that has such a marker route, is among the addresses
    found, on its interface. *)
Theorem discovery_finds_orphans address_json ipv4_json ipv6_json protocol d interfaces routes4 routes6 :
  parse_ownership_discovery ip_parse decode_addresses decode_routes address_json ipv4_json ipv6_json protocol = Ok d →
  decode_addresses address_json = Some interfaces → decode_routes ipv4_json = Some routes4 →
  decode_routes ipv6_json = Some routes6 →
  (∀ (ipv6 : bool) route, route ∈ (if ipv6 then routes6 else routes4) → own_route protocol route →
     ∃ ip, marker_destination ip_parse ipv6 route = Ok ip ∧ ip ∈ marker_routes d) ∧
  (∀ interface info ip, interface ∈ interfaces → info ∈ addr_info interface → entry_of info ip →
     is_keepafloatd_protocol (info_protocol info) protocol = Ok true ∨ ip ∈ marker_routes d →
     ∃ vip, (vip, ifname interface) ∈ discovered_addresses d ∧ addr vip = ip).
Proof.
  unfold parse_ownership_discovery. intros Hd Ha H4 H6.
  destruct (parse_address_inventory _ _ _ _) as [x|] eqn:Hx; [|done].
  destruct (parse_marker_routes _ _ ipv4_json _ _) as [v4|] eqn:Hv4; [|done].
  destruct (parse_marker_routes _ _ ipv6_json _ _) as [v6|] eqn:Hv6; [|done].
  destruct (foldr_result _ _ _) as [owned|] eqn:Ho; [|done]. injection Hd as <-. cbn. split.
  - intros ipv6 route Hr Hown. assert (∀ ip, ip ∈ v4 ∨ ip ∈ v6 → ip ∈ btree_keys (list_to_set (v4 ++ v6) : gset IpAddr)) as Hin.
    { intros ip Hip. rewrite elem_of_btree_keys, elem_of_list_to_set, elem_of_app. done. }
    destruct ipv6.
    + destruct (parse_markers_complete _ _ _ _ _ _ H6 Hv6 Hr Hown) as (ip & ? & ?). exists ip. auto.
    + destruct (parse_markers_complete _ _ _ _ _ _ H4 Hv4 Hr Hown) as (ip & ? & ?). exists ip. auto.
  - intros interface info ip Hin Hinfo Hentry Hmark. destruct (parse_inventory_keyed _ _ _ Hx) as [K1 K2].
    destruct (inventory_lists _ _ _ _ _ _ _ Ha Hx Hin Hinfo Hentry) as [L1 L2].
    assert (listed owned ip (ifname interface)) as [target Ht].
    { destruct Hmark as [Hm|Hm].
      - apply (foldr_result_inv _ (λ m, listed m ip (ifname interface)) _ _ _ Ho (L2 Hm)). intros b y y' _ Hy Hb. by eapply claim_marked_keeps.
      - apply (foldr_result_after _ (λ m, listed m ip (ifname interface)) _ _ _ ip Ho Hm); [|intros b y y' _ Hy Hb; by eapply claim_marked_keeps].
        intros y y' Hy. by eapply claim_marked_lists. }
    assert (keyed owned) as K3 by (eapply (foldr_result_inv _ keyed _ _ _ Ho K2); intros b y y' _ Hy Hb; exact (claim_marked_keyed _ _ _ _ K1 Hb Hy)).
    destruct (K3 _ _ _ Ht) as [Hvip Hif]. destruct target as [vip iface]. cbn in *. subst. exists vip. split; [|done].
    apply list_elem_of_fmap. exists ((addr vip, ifname interface), (vip, ifname interface)). split; [done|].
    by apply elem_of_btree_iter.
Qed.
End discovery.

(** ** Cleanup *)

(** Before the workers start no child adds an address, so the attached addresses
    only become fewer.  [swp] follows a task through such a time: it holds in a
    world when the result of every run from there satisfies [Q]. *)
Section cleanup.
Context `{!IpTool} `{!IpToolLaws}.
Implicit Types (w : World).

Definition adds (c : IpCommand) : Prop := match c with AddrReplace _ _ _ => True | _ => False end.

Record sane w : Prop := {
  sane_wf : wf w;
  sane_adds j r : runs w !! j = Some r → ¬ adds (run_command r)
}.

Definition fewer w w' : Prop := ∀ ip p i, attached (host w') ip p i → attached (host w) ip p i.

#[local] Instance fewer_preorder : PreOrder fewer.
Proof. split; [by intros w ip p i|]. intros w1 w2 w3 Hf Hg ip p i Ha. by apply Hf, Hg. Qed.

(** What the result of a command says: a removal that succeeded found its address, and it is gone. *)
Definition removed (c : IpCommand) (result : Result bool CommandError) w w' : Prop :=
  result = Ok true → ∀ ip p i, c = AddrDel ip p i → attached (host w) ip p i ∧ ¬ attached (host w') ip p i.

Section swp.
Context {A : Type} (Q : Result A VipError → World → Prop).
Fixpoint swp (t : vtask A) w {struct t} : Prop :=
  ∀ w', fewer w w' → sane w' →
  match t with
  | Ret r => Q r w'
  | Do e k =>
      dropped e = None ∧
      (∀ x w'', instant w' e x w'' → w'' = w' ∧ swp (k x) w') ∧
      (∀ c f, waits e = Some (c, f) →
         ¬ adds c ∧ ∀ result w'', fewer w' w'' → removed c result w' w'' → swp (k (f result)) w'')
  end.
End swp.

Lemma swp_later {A} (Q : Result A VipError → World → Prop) t w :
  (∀ w', fewer w w' → sane w' → swp Q t w') → swp Q t w.
Proof. intros Ht. destruct t; intros w' Hf Hs; by apply (Ht w' Hf Hs w'). Qed.

Lemma swp_fewer {A} (Q : Result A VipError → World → Prop) t w w' : fewer w w' → swp Q t w → swp Q t w'.
Proof. intros Hf Ht. destruct t; intros w1 Hw1 Hg; (apply Ht; [by etrans|done]). Qed.

Lemma swp_do_mono {A B X} (Q : Result A VipError → World → Prop) (Q' : Result B VipError → World → Prop)
    (e : VipEv X) (k : X → vtask A) (k' : X → vtask B) w :
  swp Q (Do e k) w → (∀ x w', swp Q (k x) w' → swp Q' (k' x) w') → swp Q' (Do e k') w.
Proof.
  intros Ht Hk w' Hf Hs. destruct (Ht w' Hf Hs) as (Hd & Hi & Hw). split_and!; [done| |].
  - intros x w'' Hx. destruct (Hi x w'' Hx) as [-> ?]. by split; [|apply Hk].
  - intros c f Hc. destruct (Hw c f Hc) as [? Hr]. split; [done|]. intros result w'' Hf' Hr'. by apply Hk, Hr.
Qed.

Lemma swp_bind {A B} (Q : Result B VipError → World → Prop) (t : vtask A) (k : A → vtask B) w :
  swp (λ r w', match r with Ok a => swp Q (k a) w' | Err e => Q (Err e) w' end) t w → swp Q (task_bind k t) w.
Proof.
  revert w. induction t as [[a|e]|X e f IH]; intros w Ht.
  - cbn. apply swp_later. intros w' Hf Hs. by apply (Ht w').
  - intros w' Hf Hs. by apply (Ht w').
  - eapply swp_do_mono; [exact Ht|]. intros x w'. apply IH.
Qed.

(** *** Soundness *)

(** A command that ran between [w] and [w'] says what its exit status says. *)
Definition ran w (j : nat) (c : IpCommand) w' : Prop :=
  ∃ r, runs w' !! j = Some r ∧ run_command r = c ∧ ∀ st, run_exit r = Some st → removed c (Ok st) w w'.

Context (del_found : ∀ h ip p i h', changes h (AddrDel ip p i) true h' → attached h ip p i).

Lemma background_sane w w' : background w w' → sane w → sane w' ∧ fewer w w'.
Proof.
  intros Hb [Hw Ha]. pose proof (runs_step_background (λ _, False) _ _ Hb) as [_ Hs]. split.
  - split; [by eapply wf_background|]. intros j r Hj. destruct (Hs j r Hj) as [(r0 & Hj0 & -> & _)|[_ []]]. by eapply Ha.
  - intros ip p i Hh. destruct (step_here w w' (mkVipAddr ip p, i) Hb Hh) as [?|(j & r & Hj & Hc & _)]; [done|].
    exfalso. apply (Ha j r Hj). by rewrite Hc.
Qed.

Lemma background_ran w0 w w' j c : background w w' → sane w → fewer w0 w → ran w0 j c w → ran w0 j c w'.
Proof.
  intros Hb Hsane Hf (r & Hj & Hc & Hran). destruct (background_sane _ _ Hb Hsane) as [Hs' Hf'].
  destruct (proj1 (runs_step_background (λ _, False) _ _ Hb) j r Hj) as (r' & Hj' & Ha).
  exists r'. split_and!; [done|by rewrite (proj1 Ha)|]. intros st Hst Htrue ip p i ->.
  destruct (run_exit r) as [st'|] eqn:He.
  - rewrite (proj1 (proj2 (proj2 (proj2 Ha))) st' He) in Hst. simplify_eq.
    destruct (Hran true eq_refl eq_refl ip p i eq_refl) as [? Hn]. split; [done|]. intros Hat. by apply Hn, Hf'.
  - simplify_eq. pose proof (rely_landed (λ _, True) _ _ _ _ _ _ (rely_background _ _ _ Hb) Hj Hj' He Hst) as Hch.
    rewrite Hc in Hch. split; [by eapply Hf, del_found|by eapply del_detaches].
Qed.

Definition cleaning {A} (Q : Result A VipError → World → Prop) (c : World * (vtask A * option nat)) : Prop :=
  sane c.1 ∧
  match c.2.2 with
  | None => swp Q c.2.1 c.1
  | Some j =>
      match c.2.1 with
      | Ret _ => False
      | Do e k => ∃ command f w0, dropped e = None ∧ waits e = Some (command, f) ∧ fewer w0 c.1 ∧ ran w0 j command c.1 ∧
          ∀ result w'', fewer w0 w'' → removed command result w0 w'' → swp Q (k (f result)) w''
      end
  end.

Lemma cleaning_step {A} (Q : Result A VipError → World → Prop) c c' : cleaning Q c → alone c c' → cleaning Q c'.
Proof.
  destruct c as [w [t j]], c' as [w' [t' j']]. intros [Hs Ht] Hstep. cbn in Hs, Ht.
  destruct Hstep as [Hstep|[Hb [= -> ->]]]; cbn in *.
  - destruct t as [r|X e k]; [by destruct j|]. destruct j as [j|].
    + destruct Ht as (c & f & w0 & Hd & Hw & Hf & (r & Hj & Hc & Hran) & Hk).
      destruct Hstep as [(c' & f' & r' & result & Hw' & Hj' & Hr & -> & [= -> ->])|(x & Hx & _)]; [|congruence].
      simplify_eq. split; [done|]. apply Hk; [done|]. intros -> ip p i Hdel.
      destruct (Forall_lookup_1 _ _ _ _ (wf_runs _ (sane_wf _ Hs)) Hj) as (Hexit & _).
      by apply (Hran true (Hexit true Hr) eq_refl).
    + destruct (Ht w (reflexivity _) Hs) as (Hd & Hi & Hw).
      destruct Hstep as [(x & Hx & [= -> ->])|[(c & f & Hwe & [[-> [= -> ->]]|(error & -> & [= -> ->])])|(x & Hx & _)]];
        [|destruct (Hw c f Hwe) as [Hadd Hk]..|congruence].
      * destruct (Hi x w' Hx) as [-> ?]. by split.
      * destruct Hs as [Hwf Ha]. split.
        { split; [by apply wf_spawn|]. intros i r Hr. cbn in Hr.
          apply lookup_app_Some in Hr as [Hr|[_ [_ <-]%list_lookup_singleton_Some]]; [by eapply Ha|done]. }
        exists c, f, w. split_and!; [done|done|by intros ip p i| |exact Hk].
        exists (run_new c). split_and!; [|done|done]. cbn. by rewrite lookup_app_r, Nat.sub_diag by lia.
      * split; [done|]. by apply Hk.
  - destruct (background_sane _ _ Hb Hs) as [Hs' Hf]. split; [done|]. cbn. destruct j as [j|]; [|by eapply swp_fewer].
    destruct t as [r|X e k]; [done|]. destruct Ht as (c & f & w0 & Hd & Hw & Hf0 & Hran & Hk).
    exists c, f, w0. split_and!; [done|done|by etrans|by eapply background_ran|done].
Qed.

Lemma cleaning_run {A} (Q : Result A VipError → World → Prop) w t w' r :
  sane w → swp Q t w → rtc alone (w, (t, None)) (w', (Ret r, None)) → Q r w'.
Proof.
  intros Hs Ht Hrun. assert (cleaning Q (w', (Ret r, None))) as [Hs' Hq]; [|by apply (Hq w')].
  assert (∀ c c', rtc alone c c' → cleaning Q c → cleaning Q c') as Hall.
  { induction 1 as [|c1 c2 c3 Hstep _ IH]; [done|]. intros Hc. by eapply IH, cleaning_step. }
  by eapply Hall; [exact Hrun|].
Qed.

(** *** Specifications *)

Lemma swp_mono {A} (Q Q' : Result A VipError → World → Prop) t w :
  swp Q t w → (∀ r w', Q r w' → Q' r w') → swp Q' t w.
Proof.
  intros Ht HQ. revert w Ht. induction t as [r|X e k IH]; intros w Ht; [intros w' Hf Hs; by apply HQ, Ht|].
  eapply swp_do_mono; [exact Ht|]. intros x w'. apply IH.
Qed.

Lemma swp_frame {A} (Q : Result A VipError → World → Prop) t w0 w :
  fewer w0 w → swp Q t w → swp (λ r w', Q r w' ∧ fewer w0 w') t w.
Proof.
  revert w. induction t as [r|X e k IH]; intros w Hw0 Ht w' Hf Hs.
  - split; [by apply Ht|by etrans].
  - destruct (Ht w' Hf Hs) as (Hd & Hi & Hw). assert (fewer w0 w') by by etrans. split_and!; [done| |].
    + intros x w'' Hx. destruct (Hi x w'' Hx) as [-> ?]. by split; [|apply IH].
    + intros c f Hc. destruct (Hw c f Hc) as [? Hr]. split; [done|]. intros result w'' Hf' Hr'. apply IH; [by etrans|by apply Hr].
Qed.

(** At most one prefix of an address is on an interface. *)
Definition single w : Prop :=
  ∀ ip p p' i, attached (host w) ip p i → attached (host w) ip p' i → p = p'.
(** The address is on the interface with no prefix. *)
Definition clear (target : VipAddr * Text) w : Prop := ∀ p, ¬ attached (host w) (addr target.1) p target.2.

Lemma clear_fewer target w w' : fewer w w' → clear target w → clear target w'.
Proof. intros Hf Hc p Ha. by eapply Hc, Hf. Qed.

Lemma single_fewer w w' : fewer w w' → single w → single w'.
Proof. intros Hf Hc ip p p' i Ha Ha'. by eapply Hc; apply Hf. Qed.

Context (ip_parse : Text → option IpAddr) (decode_addresses : list N → option (list InterfaceAddresses))
  (decode_routes : list N → option (list MarkerRouteInfo)) (protocol : N).

Lemma reclaim_spec target w : single w → swp (λ r w', r = Ok tt → clear target w') (reclaim target) w.
Proof.
  intros Hsingle w1 Hf1 Hs1. split_and!; [done|done|]. intros c f [= <- <-]. split; [by intros []|].
  intros [[]|e] w2 Hf2 Hrem.
  - intros w3 Hf3 _ _ p Ha. destruct (Hrem eq_refl _ _ _ eq_refl) as [Hold Hnew].
    assert (p = prefix target.1) as ->; [|by apply Hnew, Hf3]. eapply Hsingle; [|by apply Hf1]. by apply Hf1, Hf2, Hf3.
  - intros w3 Hf3 Hs3. split_and!; [done| |done]. intros x w4 [Hans ->]. split; [done|].
    destruct x as [o|e]; [|by intros w5 Hf5 _]. cbn. unfold ensure.
    destruct (output_success o) eqn:Ho; cbn; [|by intros w5 Hf5 _].
    destruct (bool_decide (output_stdout o = [])) eqn:He; cbn; [|by intros w5 Hf5 _].
    intros w5 Hf5 _ _ p Ha. eapply probe_absent; [done|done|by apply bool_decide_eq_true in He|by apply Hf5].
  - by intros w3 Hf3 _.
Qed.

Lemma marker_delete_quiet ip w : swp (λ _ _, True) (marker_delete ip_parse decode_routes protocol ip) w.
Proof.
  intros w1 Hf1 Hs1. split_and!; [done|done|]. intros c f [= <- <-]. split; [by intros []|].
  intros [[]|e] w2 Hf2 _; [by intros w3 Hf3 _| |by intros w3 Hf3 _].
  intros w3 Hf3 Hs3. split_and!; [done| |done]. intros [o|e] w4 [Hans ->]; (split; [done|]); [|by intros w5 Hf5 _].
  cbn. destruct (failed_marker_delete_is_absent _ _ _ _ _); by intros w5 Hf5 _.
Qed.

(** A task for each element: what each of them achieves, the later ones keep. *)
Lemma swp_each {X} (f : X → vtask unit) (I : World → Prop) (G : X → World → Prop) l w :
  (∀ w w', fewer w w' → I w → I w') → (∀ x w w', fewer w w' → G x w → G x w') →
  (∀ x w, x ∈ l → I w → swp (λ r w', r = Ok tt → G x w') (f x) w) →
  I w → swp (λ r w', r = Ok tt → ∀ x, x ∈ l → G x w') (each f l) w.
Proof.
  intros HI HG. revert w. induction l as [|x l IH]; intros w Hx Hw.
  - intros w' Hf Hs _ x Hin. by apply not_elem_of_nil in Hin.
  - apply swp_bind. eapply swp_mono; [eapply (swp_frame _ _ w); [done|apply Hx; [apply list_elem_of_here|done]]|].
    intros [[]|e] w1 [Hgx Hf1]; [|done]. eapply swp_mono.
    + eapply (swp_frame _ _ w1); [done|]. apply IH; [|by eapply HI]. intros y w2 Hy. apply Hx. by apply list_elem_of_further.
    + intros r w2 [Hl Hf2] Hr y Hy. apply elem_of_cons in Hy as [->|Hy]; [by eapply HG, Hgx|by apply Hl].
Qed.

(** The discovery reports what ip(8) answered. *)
Definition reported (d : OwnershipDiscovery) : Prop :=
  ∃ ha h4 h6 addresses ipv4_routes ipv6_routes,
    answers ha AddrShow addresses ∧ answers h4 (RouteShow false) ipv4_routes ∧ answers h6 (RouteShow true) ipv6_routes ∧
    parse_discovery_outputs ip_parse decode_addresses decode_routes addresses ipv4_routes ipv6_routes protocol = Ok d.

Lemma query_spec q w : swp (λ r w', ∀ o, r = Ok o → ∃ h, answers h q o) (query q) w.
Proof.
  intros w1 Hf1 Hs1. split_and!; [done| |done]. intros [o|e] w2 [Hans ->]; (split; [done|]).
  - intros w3 Hf3 _ o' [= <-]. by eexists.
  - by intros w3 Hf3 _.
Qed.

Lemma discover_spec w :
  swp (λ r w', ∀ d, r = Ok d → reported d) (discover_owned_addresses ip_parse decode_addresses decode_routes protocol) w.
Proof.
  apply swp_bind. eapply swp_mono; [apply query_spec|]. intros [oa|e] w1 Ha; [|done].
  apply swp_bind. eapply swp_mono; [apply query_spec|]. intros [o4|e] w2 H4; [|done].
  apply swp_bind. eapply swp_mono; [apply query_spec|]. intros [o6|e] w3 H6; [|done].
  intros w4 _ _ d Hd. destruct (Ha _ eq_refl) as [ha ?], (H4 _ eq_refl) as [h4 ?], (H6 _ eq_refl) as [h6 ?].
  exists ha, h4, h6, oa, o4, o6. split_and!; [done..|]. by destruct (parse_discovery_outputs _ _ _ _ _ _ _); simplify_eq.
Qed.

(** Every target, configured or discovered, has its address and interface among the merged ones. *)
Lemma merge_covers configured discovered target :
  target ∈ configured ∨ target ∈ discovered →
  ∃ merged, merged ∈ merge_cleanup_targets configured discovered ∧ addr merged.1 = addr target.1 ∧ merged.2 = target.2.
Proof.
  set (insert_target := λ (targets : AddressInventory) (t : VipAddr * Text), <[(addr t.1, t.2) := t]> targets).
  assert (∀ l m, keyed m → keyed (foldl insert_target m l) ∧
            (∀ ip i, listed m ip i → listed (foldl insert_target m l) ip i) ∧
            ∀ t, t ∈ l → listed (foldl insert_target m l) (addr t.1) t.2) as Hfold.
  { induction l as [|[v i] l IH]; intros m Hm; cbn; [by split_and!; [..|intros t Ht; apply not_elem_of_nil in Ht]|].
    destruct (IH (insert_target m (v, i))) as (K & L & M); [by apply keyed_insert|]. split_and!; [done| |].
    - intros ip j Hl. by apply L, listed_insert.
    - intros t Ht. apply elem_of_cons in Ht as [->|Ht]; [|by apply M]. apply L. unfold listed, insert_target. by rewrite lookup_insert_eq. }
  intros Hin. destruct (Hfold configured ∅) as (K1 & _ & M1); [intros ip j t Ht; by rewrite lookup_empty in Ht|].
  destruct (Hfold discovered _ K1) as (K2 & L2 & M2).
  assert (listed (foldl insert_target (foldl insert_target ∅ configured) discovered) (addr target.1) target.2) as [t Ht].
  { destruct Hin as [Hin|Hin]; [by apply L2, M1|by apply M2]. }
  exists t. destruct (K2 _ _ _ Ht) as [? ?]. split_and!; [|done|done]. unfold merge_cleanup_targets.
  apply list_elem_of_fmap. exists ((addr target.1, target.2), t). split; [done|]. by apply elem_of_btree_iter.
Qed.

Lemma startup_cleanup_spec vips w :
  single w →
  swp (λ r w', r = Ok tt → ∃ d, reported d ∧ ∀ target, target ∈ vips ∨ target ∈ discovered_addresses d → clear target w')
    (startup_cleanup ip_parse decode_addresses decode_routes protocol false vips) w.
Proof.
  intros Hsingle. apply swp_bind. eapply swp_mono; [eapply (swp_frame _ _ w); [done|apply discover_spec]|].
  intros [d|e] w1 [Hd Hf1]; [|done]. apply swp_bind. eapply swp_mono.
  - apply (swp_each _ single clear); [apply single_fewer|apply clear_fewer|intros; by apply reclaim_spec|by eapply single_fewer].
  - intros [[]|e] w2 Hc; [|done]. specialize (Hc eq_refl). eapply swp_mono.
    + eapply (swp_frame _ _ w2); [done|]. apply (swp_each _ (λ _, True) (λ _ _, True)); [done..| |done].
      intros ip w3 _ _. eapply swp_mono; [apply marker_delete_quiet|done].
    + intros r w3 [_ Hf3] Hr. exists d. split; [by apply Hd|]. intros target Ht.
      destruct (merge_covers _ _ _ Ht) as (merged & Hm & Ha & Hi).
      pose proof (clear_fewer _ _ _ Hf3 (Hc merged Hm)) as Hclear. unfold clear in *. by rewrite Ha, Hi in Hclear.
Qed.
End cleanup.

(** ** After a crash *)

(** C14: a cleanup at start-up that succeeds leaves no VIP behind.  If a removal
    succeeds only when it finds its address, and the host has at most one prefix of
    an address per interface, then after [startup_cleanup] returned [Ok] no
    configured VIP is attached to its interface, with any prefix, and neither is any
    address that the discovery, of what ip(8) answered, attributed to a previous
    process; whatever else happened on the host meanwhile. *)
Theorem startup_leaves_nothing `{!IpTool} `{!IpToolLaws} ip_parse decode_addresses decode_routes protocol vips h w :
  (∀ h ip p i h', changes h (AddrDel ip p i) true h' → attached h ip p i) →
  (∀ ip p p' i, attached h ip p i → attached h ip p' i → p = p') →
  rtc alone (mkWorld h ∅ ∅ ∅ (mkTracked 0 false) [],
             (startup_cleanup ip_parse decode_addresses decode_routes protocol false vips, None)) (w, (Ret (Ok tt), None)) →
  ∃ d, reported ip_parse decode_addresses decode_routes protocol d ∧
    ∀ vip iface, (vip, iface) ∈ vips ∨ (vip, iface) ∈ discovered_addresses d → ∀ p, ¬ attached (host w) (addr vip) p iface.
Proof.
  intros Hfound Hsingle Hrun.
  assert (sane (mkWorld h ∅ ∅ ∅ (mkTracked 0 false) [])) as Hsane by by split; [split|].
  pose proof (startup_cleanup_spec ip_parse decode_addresses decode_routes protocol vips
                (mkWorld h ∅ ∅ ∅ (mkTracked 0 false) []) Hsingle) as Hspec.
  destruct (cleaning_run Hfound _ _ _ _ _ Hsane Hspec Hrun eq_refl) as (d & Hd & Hclear).
  exists d. split; [done|]. intros vip iface Ht. by apply (Hclear (vip, iface)).
Qed.

(** *** A crash orphan *)

Module Orphan.
Local Open Scope N_scope.

Definition iface : Text := text "eth0".
Definition vip : VipAddr := mkVipAddr (V4 1) 24.
Definition info : AddressInfo := mkAddressInfo (Some (text "inet")) (Some (text "10.0.0.1")) (Some 24) (Some (Number (Some 246))).
Definition interface : InterfaceAddresses := mkInterfaceAddresses iface [info].
Definition route : MarkerRouteInfo :=
  mkMarkerRouteInfo (Some (text "10.0.0.1/32")) (Some (Number (Some 10246))) (Some (Number (Some 246))) (Some (String (text "throw"))).
Definition ip : Text → option IpAddr := λ _, Some (V4 1).
Definition addresses : list N → option (list InterfaceAddresses) := λ _, Some [interface].
Definition routes : list N → option (list MarkerRouteInfo) := λ json, Some (if bool_decide (json = []) then [] else [route]).
Definition found : OwnershipDiscovery := mkOwnershipDiscovery [(vip, iface)] [V4 1].

Lemma parsed : parse_ownership_discovery ip addresses routes [] [1] [] 246 = Ok found.
Proof. vm_cast_no_check (eq_refl (Ok found : Result OwnershipDiscovery DiscoveryError)). Qed.

Lemma discovery_finds_orphans_witness :
  ∃ v, (v, iface) ∈ discovered_addresses found ∧ addr v = V4 1.
Proof.
  apply (proj2 (discovery_finds_orphans ip addresses routes [] [1] [] 246 found [interface] [route] []
                  parsed eq_refl eq_refl eq_refl) interface info (V4 1)).
  - apply list_elem_of_here.
  - apply list_elem_of_here.
  - by exists (text "10.0.0.1"), (text "inet"), 24.
  - right. apply list_elem_of_here.
Defined.

(** The host has the orphan, and the cleanup removes it. *)
Notation orphan := ({[(V4 1, 24, iface)]} : gset (IpAddr * N * Text)).
#[local] Existing Instances HostModel.tool HostModel.tool_laws.
Definition before : World := mkWorld (orphan : Host) ∅ ∅ ∅ (mkTracked 0 false) [].
Definition after : World :=
  mkWorld (orphan ∖ orphan : Host) ∅ ∅ ∅ (mkTracked 0 false)
    [mkRun (AddrDel (V4 1) 24 iface) Finished (Some true) true (Some (Ok true));
     mkRun (MarkerDel (V4 1) 246) Finished (Some true) true (Some (Ok true))].

Lemma targets : merge_cleanup_targets [(vip, iface)] (discovered_addresses found) = [(vip, iface)].
Proof. vm_cast_no_check (eq_refl [(vip, iface)]). Qed.

Lemma cleaned : rtc alone (before, (startup_cleanup ip addresses routes 246 false [(vip, iface)], None)) (after, (Ret (Ok tt), None)).
Proof.
  eapply (alone_bind _ _ _ _ before found).
  - HostModel.event (Ok (mkOutput true [] []) : Result Output CommandError).
    HostModel.event (Ok (mkOutput true [1] []) : Result Output CommandError).
    HostModel.event (Ok (mkOutput true [] []) : Result Output CommandError).
    unfold parse_discovery_outputs. cbn [output_stdout ensure_discovery_succeeded ensure output_success].
    rewrite parsed. reflexivity.
  - rewrite targets. HostModel.command 0%nat. HostModel.answered 0%nat. HostModel.command 1%nat. HostModel.answered 1%nat. reflexivity.
Qed.

Lemma startup_leaves_nothing_witness :
  attached (host before) (V4 1) 24 iface ∧ ¬ attached (host after) (V4 1) 24 iface.
Proof.
  split; [by apply (elem_of_singleton (C:=gset (IpAddr * N * Text)))|].
  destruct (startup_leaves_nothing ip addresses routes 246 [(vip, iface)] (host before) after) as (d & _ & Hgone).
  - intros h a p i h' [_ Hf]. exact Hf.
  - intros a p p' i Hp Hp'. assert (∀ x : IpAddr * N * Text, x ∈ orphan → x = (V4 1, 24, iface)) as Hin by (intros x; apply elem_of_singleton).
    apply Hin in Hp, Hp'. congruence.
  - exact cleaned.
  - apply (Hgone vip iface). left. apply list_elem_of_here.
Defined.
End Orphan.
