(* ===== verification/Framing.v ===== *)
(** * Frames (src/frame.rs, src/raft/network/wire.rs, src/connection_admission.rs)

    A message on a connection is a frame: the length of the body as four bytes,
    most significant first, then the body.  A reader refuses a length above its
    limit, or one that the shared budget of bytes in flight does not cover,
    before it allocates the body. *)

From S2P Require Import Prelude Io.
Local Open Scope kaf_scope.

(** ** Reading *)

(** [ReadError] and [ReadError::into_io]. *)
Inductive ReadError :=
| ReadIo (e : IoError)
| TooLarge (length max_frame_bytes : N).

Definition into_io (e : ReadError) : IoError :=
  match e with
  | ReadIo e => e
  | TooLarge _ _ => mkIoError InvalidData "frame size exceeds max_frame_bytes; refusing to allocate"
  end.

(** [frame::read]; [reserve] is asked for the length before the body is allocated. *)
Definition frame_read {P} (max_frame_bytes : N) (reserve : N → Result P IoError) (s : Stream)
  : Result (list N * P) ReadError * Stream :=
  match read_exact 4 s with
  | (Err e, s) => (Err (ReadIo e), s)
  | (Ok prefix, s) =>
      let length := of_be_bytes prefix in
      if (max_frame_bytes <? length)%N then (Err (TooLarge length max_frame_bytes), s)
      else
        match reserve length with
        | Err e => (Err (ReadIo e), s)
        | Ok permit =>
            match read_exact (N.to_nat length) s with
            | (Err e, s) => (Err (ReadIo e), s)
            | (Ok bytes, s) => (Ok (bytes, permit), s)
            end
        end
  end.

(** [read_framed_bounded]. *)
Definition read_framed_bounded (max_frame_bytes : N) : Io (list N) := λ s,
  match frame_read max_frame_bytes (λ _, Ok tt) s with
  | (Ok (bytes, _), s) => (Ok bytes, s)
  | (Err e, s) => (Err (into_io e), s)
  end.

(** [FrameByteBudget::try_reserve], with the bytes that are still available: a permit for
    no bytes is [None]. *)
Definition try_reserve (available bytes : N) : Result (option N) IoError :=
  if (bytes =? 0)%N then Ok None
  else if (bytes <=? available)%N then Ok (Some bytes)
  else Err (mkIoError OutOfMemory "in-flight frame byte budget exhausted").

(** The bytes a permit holds until it is dropped. *)
Definition permit_bytes (permit : option N) : N := default 0%N permit.

(** [read_framed_bounded_with_timeout_and_budget]; [elapsed] says whether the deadline
    passed first. *)
Definition read_framed_bounded_with_timeout_and_budget (elapsed : bool) (max_frame_bytes available : N)
  : Io (list N * option N) :=
  timeout elapsed (mkIoError TimedOut "frame read timed out") (λ s,
    match frame_read max_frame_bytes (try_reserve available) s with
    | (Ok (bytes, permit), s) => (Ok (bytes, permit), s)
    | (Err e, s) => (Err (into_io e), s)
    end).

(** ** Writing *)

(** [encode_frame]. *)
Definition encode_frame (payload : list N) : Result (list N) IoError :=
  let len := N.of_nat (length payload) in
  ensure (len <=? u32_max)%N (mkIoError InvalidInput "frame payload exceeds the u32 wire length") ;?
  match u64_checked_add len 4 with
  | None => Err (mkIoError InvalidInput "frame length overflow")
  | Some _ => Ok (be_bytes 4 len ++ payload)
  end.

(** [write_framed]. *)
Definition write_framed (payload : list N) : Io unit :=
  (frame <~ io_lift (encode_frame payload); write_all frame)%io.

(** [require_complete_frame_write]. *)
Definition require_complete_frame_write (written expected : nat) : Result unit IoError :=
  ensure (written =? expected) (mkIoError WriteZero "single framed write accepted only a part; dropping the stream").

(** ** Frames read back *)

Lemma encode_frame_ok payload frame :
  encode_frame payload = Ok frame →
  (N.of_nat (length payload) <= u32_max)%N ∧ frame = be_bytes 4 (N.of_nat (length payload)) ++ payload.
Proof.
  unfold encode_frame, ensure. destruct (N.leb_spec (N.of_nat (length payload)) u32_max) as [Hle|]; [|done].
  destruct (u64_checked_add _ _); [|done]. by intros [= <-].
Qed.

Lemma encode_frame_fits payload :
  (N.of_nat (length payload) <= u32_max)%N → encode_frame payload = Ok (be_bytes 4 (N.of_nat (length payload)) ++ payload).
Proof.
  intros Hle. unfold encode_frame, ensure. rewrite (proj2 (N.leb_le _ _)) by done.
  unfold u64_checked_add. rewrite bool_decide_true; [done|]. unfold u32_max, u64_max in *. lia.
Qed.

Lemma length_encode_frame payload frame : encode_frame payload = Ok frame → length frame = 4 + length payload.
Proof. intros [_ ->]%encode_frame_ok. by rewrite length_app, length_be_bytes. Qed.

Section read_back.
Context {P : Type} (max_frame_bytes : N) (reserve : N → Result P IoError).

Lemma body_length_back (payload : list N) :
  (N.of_nat (length payload) <= u32_max)%N →
  of_be_bytes (be_bytes 4 (N.of_nat (length payload))) = N.of_nat (length payload).
Proof. intros Hle. apply of_be_bytes_be_bytes. unfold u32_max in Hle. change (256 ^ N.of_nat 4)%N with 4294967296%N. lia. Qed.

(** The first frame of a stream is read as it was written, and no byte behind it. *)
Lemma frame_read_app payload frame rest permit o b :
  encode_frame payload = Ok frame → (N.of_nat (length payload) <= max_frame_bytes)%N →
  reserve (N.of_nat (length payload)) = Ok permit →
  frame_read max_frame_bytes reserve (mkStream (frame ++ rest) o b) = (Ok (payload, permit), mkStream rest o b).
Proof.
  intros [Hle ->]%encode_frame_ok Hmax Hres. unfold frame_read. rewrite <- app_assoc.
  rewrite read_exact_app by apply length_be_bytes. rewrite body_length_back by done.
  rewrite (proj2 (N.ltb_ge _ _)) by done. rewrite Hres, Nat2N.id. by rewrite read_exact_app.
Qed.

(** A frame that is not complete is not read. *)
Lemma frame_read_part payload frame part more o b x s :
  encode_frame payload = Ok frame → frame = part ++ more → more ≠ [] →
  frame_read max_frame_bytes reserve (mkStream part o b) ≠ (Ok x, s).
Proof.
  intros [Hle Hframe]%encode_frame_ok Hsplit Hmore Hread. unfold frame_read in Hread.
  destruct (read_exact 4 _) as [[prefix|e] s1] eqn:H4; [|done]. apply read_exact_ok in H4 as (Hin & Hlen & _ & _).
  cbn in Hin. assert (prefix = be_bytes 4 (N.of_nat (length payload)) ∧ incoming s1 ++ more = payload) as [-> Hbody].
  { apply app_inj_length; [by rewrite length_be_bytes|]. by rewrite app_assoc, <- Hin, <- Hframe. }
  rewrite body_length_back in Hread by done. destruct (_ <? _)%N; [done|]. destruct (reserve _); [|done].
  destruct (read_exact _ s1) as [[bytes|e] s2] eqn:Hb; [|done]. apply read_exact_ok in Hb as (Hin2 & Hlen2 & _ & _).
  apply (f_equal length) in Hbody. rewrite Hin2, !length_app in Hbody. rewrite Nat2N.id in Hlen2.
  destruct more; [done|]. cbn in Hbody. lia.
Qed.

(** What is read is within the limit, and no more than was announced. *)
Lemma frame_read_bounded s bytes permit s' :
  frame_read max_frame_bytes reserve s = (Ok (bytes, permit), s') →
  (N.of_nat (length bytes) <= max_frame_bytes)%N ∧ reserve (N.of_nat (length bytes)) = Ok permit ∧
  ∃ prefix, length prefix = 4 ∧ of_be_bytes prefix = N.of_nat (length bytes) ∧ incoming s = prefix ++ bytes ++ incoming s'.
Proof.
  unfold frame_read. destruct (read_exact 4 s) as [[prefix|e] s1] eqn:H4; [|done].
  apply read_exact_ok in H4 as (Hin & Hlen & _ & _). destruct (N.ltb_spec max_frame_bytes (of_be_bytes prefix)) as [|Hle]; [done|].
  destruct (reserve _) as [p|] eqn:Hres; [|done]. destruct (read_exact _ s1) as [[b|e] s2] eqn:Hb; [|done].
  apply read_exact_ok in Hb as (Hin2 & Hlen2 & _ & _). intros [= <- <- <-].
  assert (N.of_nat (length b) = of_be_bytes prefix) as Hb by lia. rewrite Hb. split_and!; [done|done|].
  exists prefix. by rewrite Hin, Hin2.
Qed.
End read_back.

(** Reading [n] frames. *)
Fixpoint read_frames (max_frame_bytes : N) (n : nat) : Io (list (list N)) :=
  match n with
  | 0 => io_ok []
  | S n => (body <~ read_framed_bounded max_frame_bytes; bodies <~ read_frames max_frame_bytes n; io_ok (body :: bodies))%io
  end.

(** Reading as many frames as were written. *)
Lemma read_frames_app max_frame_bytes bodies frames rest o b :
  Forall2 (λ body frame, encode_frame body = Ok frame) bodies frames →
  Forall (λ body, N.of_nat (length body) <= max_frame_bytes)%N bodies →
  read_frames max_frame_bytes (length bodies) (mkStream (concat frames ++ rest) o b) = (Ok bodies, mkStream rest o b).
Proof.
  intros Hframes Hmax. induction Hframes as [|body f bodies frames Hf _ IH]; [done|]. apply Forall_cons in Hmax as [Hb Hmax]. cbn.
  unfold io_bind, read_framed_bounded at 1. rewrite <- app_assoc.
  erewrite frame_read_app by done. unfold io_bind. by rewrite IH.
Qed.

(** The bytes of a frame of which more was to come. *)
Definition cut_frame (part : list N) : Prop := ∃ payload frame more, encode_frame payload = Ok frame ∧ frame = part ++ more ∧ more ≠ [].

Lemma read_cut_frame max_frame_bytes part o b body s :
  cut_frame part → read_framed_bounded max_frame_bytes (mkStream part o b) ≠ (Ok body, s).
Proof.
  intros (payload & frame & more & Hframe & Hsplit & Hmore). unfold read_framed_bounded.
  destruct (frame_read _ _ _) as [[[bytes u]|e] s'] eqn:Hr; [|done]. exfalso. by eapply frame_read_part.
Qed.

(** Nothing but the bodies that were written is read. *)
Lemma read_frames_written bodies frames part o b got s :
  Forall2 (λ body frame, encode_frame body = Ok frame) bodies frames → cut_frame part →
  read_frames u32_max (length got) (mkStream (concat frames ++ part) o b) = (Ok got, s) → got `prefix_of` bodies.
Proof.
  intros Hframes Hpart. revert got s. induction Hframes as [|body frame bodies frames Hf _ IH]; intros [|g got] s Hr; cbn in Hr.
  - done.
  - exfalso. unfold io_bind at 1 in Hr. destruct (read_framed_bounded _ _) as [[g'|] s1] eqn:H1; [|done].
    by eapply read_cut_frame.
  - apply prefix_nil.
  - unfold io_bind at 1, read_framed_bounded at 1 in Hr. rewrite <- app_assoc in Hr.
    erewrite frame_read_app in Hr; [|done|by apply encode_frame_ok in Hf as [? _]|done].
    unfold io_bind in Hr. destruct (read_frames _ _ _) as [[got'|] s1] eqn:Hrest; [|done]. cbn in Hr. injection Hr as <- <- <-.
    apply prefix_cons. by eapply IH.
Qed.

(** Frames are self-delimiting.  Whatever bodies within the limit are written as
    frames on a connection, one after the other, and however the connection ends in
    the middle of a further frame: the reader gets exactly the bodies, in order, and
    then fails without returning a part of the frame that was cut. *)
Theorem frames_read_back max_frame_bytes bodies frames payload frame part more o b :
  Forall2 (λ body frame, encode_frame body = Ok frame) bodies frames →
  Forall (λ body, N.of_nat (length body) <= max_frame_bytes)%N bodies →
  encode_frame payload = Ok frame → frame = part ++ more → more ≠ [] →
  read_frames max_frame_bytes (length bodies) (mkStream (concat frames ++ part) o b) = (Ok bodies, mkStream part o b) ∧
  ∀ body s, read_framed_bounded max_frame_bytes (mkStream part o b) ≠ (Ok body, s).
Proof.
  intros Hframes Hmax Hframe Hsplit Hmore. split; [by apply read_frames_app|].
  intros body s. apply read_cut_frame. by exists payload, frame, more.
Qed.

Lemma frames_read_back_witness :
  read_frames 16 2 (mkStream (be_bytes 4 2 ++ [1; 2] ++ be_bytes 4 1 ++ [3] ++ [0; 0])%N [] 0) =
    (Ok [[1; 2]; [3]]%N, mkStream [0; 0]%N [] 0).
Proof.
  apply (frames_read_back 16 [[1; 2]; [3]]%N [[0; 0; 0; 2; 1; 2]; [0; 0; 0; 1; 3]]%N [7]%N [0; 0; 0; 1; 7]%N [0; 0]%N [0; 1; 7]%N [] 0).
  - repeat constructor.
  - repeat constructor; discriminate.
  - reflexivity.
  - reflexivity.
  - discriminate.
Defined.
