(* ===== verification/Outbound.v ===== *)
(** * Outbound Raft connections
    (src/raft/network.rs, src/raft/network/client.rs, wire.rs, reconnect.rs, status.rs,
    admission_rpc.rs, management.rs)

    The requests a node sends to a peer, as tasks.  The requests of the engine
    share one cached connection per peer, behind a lock; a request that does not
    get its whole response gives the connection up.  Discovery, admission and
    management use a connection of their own. *)

From S2P Require Import Prelude Text Io Replica Openraft Admission Types VipLogic State StoreMembership.
From S2P Require Import StateMachine LogStore Config Fingerprint Auth Controller Lease Freshness Request Authorization.
From S2P Require Import Tasks Driver Inbound Framing.
Local Open Scope kaf_scope.

(** ** Errors *)

(** The errors of a request, by what [failure_kind] and openraft tell apart. *)
Inductive NetFailure :=
| FailIo (e : IoError)
| FailConnect
| FailBootChanged
| FailDenied (e : AdmissionDenied)
| FailRejected (reason : string)
| FailUnauthenticated (e : IoError)
| FailElapsed
| FailUnreachable
| FailReason (reason : string).

(** [failure_kind] (src/consensus_freshness/failure.rs) of these errors. *)
Definition net_failure_kind (e : NetFailure) : FailureKind :=
  match e with
  | FailDenied _ | FailRejected _ => PublicationRejected
  | FailConnect | FailBootChanged | FailElapsed | FailUnreachable => PublicationUnavailable
  | FailIo e | FailUnauthenticated e =>
      match error_kind e with
      | UnexpectedEof | ConnectionReset | ConnectionAborted | ConnectionRefused | BrokenPipe | NotConnected
      | TimedOut | HostUnreachable | NetworkUnreachable | NetworkDown => PublicationUnavailable
      | _ => PublicationRejected
      end
  | FailReason _ => PublicationRejected
  end.

Definition net_denied {A} (r : Result A AdmissionDenied) : Result A NetFailure :=
  match r with Ok a => Ok a | Err e => Err (FailDenied e) end.
Definition net_refused {A} (r : Result A NetError) : Result A NetFailure :=
  match r with
  | Ok a => Ok a
  | Err (Refused reason) => Err (FailReason reason)
  | Err ReplicationConflict => Err (FailReason "replication conflict")
  end.

(** [is_disconnect]. *)
Definition is_disconnect (e : IoError) : bool :=
  match error_kind e with
  | UnexpectedEof | ConnectionReset | ConnectionAborted | BrokenPipe | NotConnected | WriteZero => true
  | _ => false
  end.

(** [STATUS_FRAME_MAX_BYTES]. *)
Definition STATUS_FRAME_MAX_BYTES : N := 64 * 1024.

(** [Operation]. *)
Inductive Operation := OpAdmission | OpAdmissionControl | OpStatus | OpPreVote | OpAppendEntries | OpInstallSnapshot | OpVote.

#[global] Instance Operation_eq_dec : EqDecision Operation.
Proof. solve_decision. Defined.

(** What a connection asks of the committed state. *)
Record Policy := mkPolicy {
  policy_epoch : option N;
  policy_semantics : FailoverSemantics;
  policy_enforced : bool
}.

(** [reports_foreign_epoch]. *)
Definition reports_foreign_epoch (r : ClusterStatusResponse) (mine : option N) : bool :=
  match mine, status_epoch r with Some m, Some theirs => negb (m =? theirs)%N | _, _ => false end.

(** ** Events *)

(** The cached connection of a peer, and one that is being set up. *)
Inductive StreamRef := Cached | Fresh.

Section outbound.
Context {O : Openraft}.

(** The lock of a peer's connection: [Unlock] leaves it as it is, [Hold] makes an
    [InFlightRpcStream] of it and [Release] is the drop of that.  A write or a read that a deadline cuts short is
    answered with the error. *)
Inductive NetEv : Type → Type :=
| Lock : NetEv unit
| Unlock : NetEv unit
| Hold : NetEv unit
| Release (retain : bool) : NetEv unit
| ReadPolicy : NetEv Policy
| LinkFlags : NetEv (bool * bool)
| StoreLink (advertises_v2 config_identity : bool) (remote : ReplicaId) : NetEv unit
| RemoteReplica : NetEv (option ReplicaId)
| ClearStream : NetEv unit
| HasStream : NetEv bool
| StreamUsable : NetEv bool
| InstallStream : NetEv unit
| Dial (address : Text) : NetEv (Result unit NetFailure)
| Handshake (local : Peer) (target : N) : NetEv (Result AuthenticatedPeer IoError)
| Send (s : StreamRef) (frame : list N) : NetEv (Result unit IoError)
| Receive (s : StreamRef) (max : N) : NetEv (Result (list N) IoError)
| AuthorizeRaft (peer : ReplicaId) : NetEv (Result RaftAuthorization AdmissionDenied)
| NetClock : NetEv Instant
| NetTimer : NetEv bool
| Challenge : NetEv (option (list N)).

Local Abbreviation task := (task NetEv NetFailure).

Definition net_fail {A} (e : NetFailure) : task A := Ret (Err e).
Definition net_require (c : bool) (reason : string) : task unit := Ret (ensure c (FailReason reason)).
Definition net_option {A} (a : option A) (reason : string) : task A :=
  match a with Some a => Ret (Ok a) | None => net_fail (FailReason reason) end.
Definition net_io {A} (e : NetEv (Result A IoError)) : task A :=
  r ← perform e; Ret (match r with Ok a => Ok a | Err e => Err (FailIo e) end).

(** [tokio::time::timeout] around an exchange. *)
Definition net_timed {A} (t : task A) : task A :=
  guarded (elapsed ← perform NetTimer; if (elapsed : bool) then net_fail FailElapsed else Ret (Ok tt)) t.

(** [write_framed] and [read_framed_bounded]. *)
Definition send_frame (s : StreamRef) (payload : list N) : task (Result unit IoError) :=
  match encode_frame payload with
  | Err e => Ret (Ok (Err e))
  | Ok frame => perform (Send s frame)
  end.

(** Write a request, then read its response. *)
Definition exchange (s : StreamRef) (request : list N) (max : N) : task (Result (list N) IoError) :=
  written ← send_frame s request;
  match written with
  | Err e => Ret (Ok (Err e))
  | Ok _ => perform (Receive s max)
  end.
Definition exchange_or_fail (s : StreamRef) (request : list N) (max : N) : task (list N) :=
  r ← exchange s request max; Ret (match r with Ok body => Ok body | Err e => Err (FailIo e) end).

Context (cfg : Config) (local : ReplicaId) (fingerprint : ClusterConfigFingerprint).
(** The JSON encoder and decoder: [encode] and [decode_payload] of each operation. *)
Context (encode_status : ClusterStatusRequest → option (list N)).
Context (decode_status : list N → option ClusterStatusResponse).
Context (decode_request : list N → option RaftRequest) (decode_identities : list N → Result SnapshotIdentities string).
Context (decode_raft_response : list N → Result RaftResponse string).

(** ** Connecting *)

(** The status request of a probe. *)
Definition status_request : ClusterStatusRequest := mkClusterStatusRequest (cfg_node_id cfg) (Some fingerprint) true.

(** [write_replica_handshake]. *)
Definition write_replica_handshake (target : N) (epoch : option N) (advertises_v2 : bool) : task ReplicaId :=
  peer ← net_io (Handshake (for_replica local epoch advertises_v2) target);
  match peer_replica (authenticated peer) with
  | Some r => Ret (Ok r)
  | None => net_fail (FailIo (mkIoError PermissionDenied "Raft peer omitted its boot identity"))
  end.

(** [connect_with_preflight]. *)
Definition connect_with_preflight (address : Text) (epoch : option N) (advertises_v2 enforced : bool)
  : task (ClusterStatusResponse * ReplicaId) :=
  net_timed (
    attempt_ev (Dial address);;
    target ← net_option (find (λ p, bool_decide (raft_address p = address)) (peers cfg)) "Raft target is not configured";
    remote ← write_replica_handshake (peer_id target) epoch advertises_v2;
    request ← net_option (encode_status status_request) "status encoding failed";
    net_require (N.of_nat (length request) <=? max_frame_bytes cfg)%N "config preflight exceeds max_frame_bytes";;
    body ← exchange_or_fail Fresh request STATUS_FRAME_MAX_BYTES;
    response ← net_option (decode_status body) "decode config preflight response";
    net_require (negb (reports_foreign_epoch response epoch)) "cluster_epoch mismatch during config preflight";;
    net_require (config_identity_compatible fingerprint (response_fingerprint response)
                   (enforced || status_identity_enforced response))
      "cluster configuration identity mismatch";;
    Ret (Ok (response, remote))).

(** [connect_with_handshake]. *)
Definition connect_with_handshake (address : Text) (epoch : option N) (advertises_v2 enforced : bool)
  : task (bool * ReplicaId) :=
  r ← connect_with_preflight address epoch advertises_v2 enforced;
  Ret (Ok (supports_config_identity_v1 r.1 && bool_decide (is_Some (response_fingerprint r.1)), r.2)).

(** [connect_peer_stream]: a connection that is ready to be cached. *)
Definition connect_peer_stream (address : Text) : task unit :=
  policy ← perform ReadPolicy;
  let advertises_v2 := bool_decide (policy_semantics policy = V2) in
  connected ← connect_with_handshake address (policy_epoch policy) advertises_v2 (policy_enforced policy);
  current ← perform ReadPolicy;
  net_require (negb (connection_requires_upgrade (policy_semantics current) advertises_v2)
               && negb (connection_requires_config_identity (policy_enforced current) connected.1))
    "raft connection policy changed during handshake";;
  perform (StoreLink advertises_v2 connected.1 connected.2).

(** [ReconnectDecision] and [reconnect_decision]. *)
Inductive ReconnectDecision := Keep | Connect | Replace.
Definition reconnect_decision (policy : Policy) : task ReconnectDecision :=
  cached ← perform HasStream;
  if negb cached then Ret (Ok Connect)
  else
    flags ← perform LinkFlags;
    if connection_requires_upgrade (policy_semantics policy) flags.1
       || connection_requires_config_identity (policy_enforced policy) flags.2
    then Ret (Ok Replace)
    else usable ← perform StreamUsable; Ret (Ok (if (usable : bool) then Keep else Replace)).

(** One round of the reconnect task of a peer. *)
Definition reconnect_round (address : Text) : task unit :=
  perform Lock;;
  policy ← perform ReadPolicy;
  decision ← reconnect_decision policy;
  match decision with
  | Keep => perform Unlock
  | Connect | Replace =>
      (match decision with Replace => perform ClearStream | _ => Ret (Ok tt) end);;
      connection ← outcome (connect_peer_stream address);
      (if is_ok connection then perform InstallStream else Ret (Ok tt));;
      perform Unlock
  end.

(** ** Requests of the engine *)

(** The closure [validate] of [send_rpc]. *)
Definition validate_rpc (a : RaftAuthorization) (target : ReplicaId) (request : list N) : task unit :=
  remote ← perform RemoteReplica;
  net_require (bool_decide (remote = Some target)) "Raft destination boot changed";;
  now ← perform NetClock;
  Ret (net_refused (auth_check a local target now));;
  now ← perform NetClock;
  first ← perform NetClock;
  last ← perform NetClock;
  r ← net_option (decode_request request) "request decoding failed";
  Ret (net_refused (validate_request decode_identities a local r now first last)).

(** The response of an exchange, checked under a new authorization. *)
Definition accept_response {A} (target : ReplicaId) (decode : list N → option A) (body : list N) : task A :=
  a ← perform (AuthorizeRaft target);
  a ← Ret (net_denied a);
  now ← perform NetClock;
  Ret (net_refused (auth_check a local target now));;
  now ← perform NetClock;
  Ret (net_refused (validate_response decode_raft_response a body now));;
  net_option (decode body) "unexpected RPC operation".

(** One pass of the loop of [send_rpc]; [again] runs after a disconnect. *)
Definition rpc_pass {A} (target : ReplicaId) (decode : list N → option A) (request : list N)
    (again : option (task A)) : task A :=
  a ← perform (AuthorizeRaft target);
  a ← Ret (net_denied a);
  validate_rpc a target request;;
  cached ← perform HasStream;
  (if (cached : bool) then Ret (Ok tt) else net_fail FailUnreachable);;
  now ← perform NetClock;
  Ret (net_denied (session_check (session a) now));;
  r ← exchange Cached request (max_frame_bytes cfg);
  match r, again with
  | Ok body, _ => accept_response target decode body
  | Err e, Some again => if is_disconnect e then again else net_fail (FailIo e)
  | Err e, None => net_fail (FailIo e)
  end.

(** The loop of [send_rpc]: at most one retry, on a new connection. *)
Definition rpc_loop {A} (address : Text) (target : ReplicaId) (decode : list N → option A) (request : list N) : task A :=
  rpc_pass target decode request (Some (
    perform ClearStream;;
    connect_peer_stream address;;
    perform InstallStream;;
    rpc_pass target decode request None)).

(** [InFlightRpcStream] around a request. *)
Definition in_flight {A} (t : task A) : task A :=
  perform Hold;;
  r ← outcome t;
  perform (Release (is_ok r));;
  Ret r.

(** [send_rpc] after the request is encoded; the time-out around it drops the task. *)
Definition send_rpc {A} (target : ReplicaId) (decode : list N → option A) (request : list N) : task A :=
  if negb (N.of_nat (length request) <=? max_frame_bytes cfg)%N
  then net_fail (FailReason "serialized rpc exceeds max_frame_bytes")
  else
    match find (λ p, (peer_id p =? physical_id target)%N) (other_peers cfg) with
    | None => net_fail FailUnreachable
    | Some link =>
        perform Lock;;
        policy ← perform ReadPolicy;
        flags ← perform LinkFlags;
        (if connection_requires_upgrade (policy_semantics policy) flags.1
            || connection_requires_config_identity (policy_enforced policy) flags.2
         then perform ClearStream else Ret (Ok tt));;
        remote ← perform RemoteReplica;
        match remote with
        | Some r =>
            if bool_decide (r = target) then in_flight (rpc_loop (raft_address link) target decode request)
            else perform Unlock;; net_fail (FailReason "Raft destination boot changed")
        | None => in_flight (rpc_loop (raft_address link) target decode request)
        end
    end.

(** ** Requests with a connection of their own *)

(** [pre_vote_exchange] of an encoded request. *)
Definition pre_vote_exchange {A} (target : ReplicaId) (decode : list N → option A) (rpc : VoteRequest)
    (request : option (list N)) : task A :=
  link ← net_option (find (λ p, (peer_id p =? physical_id target)%N) (other_peers cfg)) "unknown Pre-Vote peer";
  policy ← perform ReadPolicy;
  let advertises_v2 := bool_decide (policy_semantics policy = V2) in
  connected ← connect_with_preflight (raft_address link) (policy_epoch policy) advertises_v2 (policy_enforced policy);
  let response := connected.1 in
  net_require (bool_decide (connected.2 = target)) "Pre-Vote destination boot changed";;
  current ← perform ReadPolicy;
  net_require (epochs_compatible (policy_epoch current) (status_epoch response)
               && negb (connection_requires_upgrade (policy_semantics current) advertises_v2)
               && config_identity_compatible fingerprint (response_fingerprint response)
                    (policy_enforced current || status_identity_enforced response))
    "Pre-Vote connection policy changed during preflight";;
  net_require (supports_pre_vote response) "protocol-three peer lacks required Pre-Vote support";;
  body ← net_option request "Pre-Vote encoding failed";
  net_require (N.of_nat (length body) <=? max_frame_bytes cfg)%N "Pre-Vote exceeds max_frame_bytes";;
  a ← perform (AuthorizeRaft target);
  a ← Ret (net_denied a);
  now ← perform NetClock;
  Ret (net_refused (auth_check a local target now));;
  now ← perform NetClock;
  first ← perform NetClock;
  last ← perform NetClock;
  Ret (net_refused (validate_request decode_identities a local (RaftPreVote rpc) now first last));;
  now ← perform NetClock;
  Ret (net_denied (session_check (session a) now));;
  body ← net_timed (exchange_or_fail Fresh body (max_frame_bytes cfg));
  accept_response target decode body.

(** [probe_peer_status]. *)
Definition probe_peer_status (address : Text) (target : N) (epoch : option N) : task ClusterStatusResponse :=
  net_timed (
    attempt_ev (Dial address);;
    peer ← perform (Handshake (peer_new (cfg_node_id cfg) epoch false) target);
    peer ← Ret (match peer with Ok p => Ok p | Err e => Err (FailUnauthenticated e) end);
    body ← net_option (encode_status status_request) "status encoding failed";
    reply ← exchange_or_fail Fresh body STATUS_FRAME_MAX_BYTES;
    response ← net_option (decode_status reply) "unexpected RPC operation";
    Ret (Ok (mkClusterStatusResponse (peer_replica (authenticated peer)) (supports_pre_vote response)
               (status_initialized response) (status_leader response) (member_count response) (status_epoch response)
               (supports_failover_semantics_v2 response) (response_fingerprint response)
               (supports_config_identity_v1 response) (status_identity_enforced response)))).

Context (hmac : list N → option (list N → list N)).

(** A signed record sent to the boot [target], and the body of the reply with the
    binding of the channel. *)
Definition signed_exchange {T} (encode : list N * T → option (list N)) (encode_body : SignedAdmission T → option (list N))
    (role : N) (target : ReplicaId) (payload : task T) : task (list N * list N * T) :=
  peer ← net_option (get_peer cfg (physical_id target)) "target is not configured";
  attempt_ev (Dial (raft_address peer));;
  authenticated_peer ← net_io (Handshake (for_replica local None true) (physical_id target));
  (if bool_decide (peer_replica (authenticated authenticated_peer) = Some target) then Ret (Ok tt)
   else net_fail FailBootChanged);;
  payload ← payload;
  record ← Ret (net_denied (sign hmac encode (cluster_secret cfg) role local target (binding authenticated_peer) payload));
  body ← net_option (encode_body record) "encoding failed";
  net_require (N.of_nat (length body) <=? max_frame_bytes cfg)%N "request exceeds max_frame_bytes";;
  reply ← exchange_or_fail Fresh body (max_frame_bytes cfg);
  Ret (Ok (reply, binding authenticated_peer, payload)).

(** [REQUEST_ROLE] and [RESPONSE_ROLE] of admission and management records. *)
Definition ADMISSION_REQUEST_ROLE : N := 10.
Definition ADMISSION_RESPONSE_ROLE : N := 11.
Definition MANAGEMENT_REQUEST_ROLE : N := 12.
Definition MANAGEMENT_RESPONSE_ROLE : N := 13.

Context (encode_admission : list N * AdmissionRequest → option (list N)).
Context (encode_admission_body : SignedAdmission AdmissionRequest → option (list N)).
Context (decode_admission_body : list N → option (SignedAdmission AdmissionRequest)).
Context (encode_management : list N * ManagementRequest → option (list N)).
Context (encode_management_body : SignedAdmission ManagementRequest → option (list N)).
Context (encode_answer : list N * ManagementResponse → option (list N)).
Context (decode_answer_body : list N → option (SignedAdmission ManagementResponse)).

(** [admission_rpc]; the request is checked before the connection is made. *)
Definition admission_rpc (target : ReplicaId) (request : AdmissionRequest) : task ReceivedGrant :=
  net_timed (
    net_option (get_peer cfg (physical_id target)) "admission target is not configured";;
    net_require (bool_decide (req_consumer request = local)) "admission request belongs to another boot";;
    reply ← signed_exchange encode_admission encode_admission_body ADMISSION_REQUEST_ROLE target (Ret (Ok request));
    record ← net_option (decode_admission_body reply.1.1) "unexpected RPC operation";
    Ret (net_denied (authenticate hmac encode_admission (cluster_secret cfg) target local reply.1.2 request record))).

(** [verify_response] of management. *)
Definition verify_response (from to : ReplicaId) (binding nonce : list N) (r : SignedAdmission ManagementResponse)
  : Result unit NetFailure :=
  net_denied (verify hmac encode_answer r (cluster_secret cfg) MANAGEMENT_RESPONSE_ROLE from to binding) ;?
  ensure (bool_decide (response_nonce (record_payload r) = nonce)) (FailReason "management response nonce mismatch").

(** [management_rpc]; the nonce is drawn once the channel is authenticated. *)
Definition management_rpc (target : ReplicaId) (a : ManagementAction) (budget : N) : task ManagementResponse :=
  net_require (negb (budget =? 0)%N) "management exchange timed out";;
  net_timed (
    reply ← signed_exchange encode_management encode_management_body MANAGEMENT_REQUEST_ROLE target
              (nonce ← perform Challenge;
               nonce ← net_option nonce "management challenge entropy unavailable";
               Ret (Ok (mkManagementRequest nonce a)));
    response ← match decode_answer_body reply.1.1 with
               | Some r => Ret (Ok r)
               | None => net_fail (FailRejected "unexpected RPC operation")
               end;
    Ret (verify_response target local reply.1.2 (management_nonce reply.2) response);;
    Ret (Ok (record_payload response))).
End outbound.

(** ** Errors of the checks *)

Lemma net_denied_ok {B} (r : Result B AdmissionDenied) b : net_denied r = Ok b → r = Ok b.
Proof. destruct r; by intros [= <-]. Qed.
Lemma net_refused_ok {B} (r : Result B NetError) b : net_refused r = Ok b → r = Ok b.
Proof. destruct r as [|[]]; by intros [= <-]. Qed.
