(* ===== verification/Stream.v ===== *)
(** * Inbound Raft connections
    (src/raft/network/inbound.rs, wire.rs, admission_rpc.rs, management.rs, server.rs)

    The loop that serves one authenticated connection, as a task: it reads a
    frame, passes its gates, dispatches it and writes the response in one piece,
    or closes the connection.  And the checks a connection passes before it is
    served. *)

From S2P Require Import Prelude Text Io Replica Openraft Admission Types VipLogic State StoreMembership.
From S2P Require Import StateMachine LogStore Config Fingerprint Auth Controller Lease Freshness Request Authorization.
From S2P Require Import Tasks Driver Inbound Framing Outbound.
Local Open Scope kaf_scope.

Section stream.
Context {O : Openraft}.

(** ** Events *)

(** [NextFrame] is the wait for the first byte and the read of the frame, each with its
    deadline.  [Dispatch] is [dispatch_request], [ToController] and [ToManager] the
    calls of the admission controller. *)
Inductive ServeEv : Type → Type :=
| NextFrame (max : N) : ServeEv (Result (list N) NetFailure)
| ServePolicy : ServeEv Policy
| ServeElapsed : ServeEv N
| ToController (peer : ReplicaId) (binding : list N) (request : SignedAdmission AdmissionRequest)
  : ServeEv (Result (SignedAdmission AdmissionRequest) AdmissionDenied)
| ToManager (peer : ReplicaId) (binding : list N) (request : SignedAdmission ManagementRequest)
  : ServeEv (Result (SignedAdmission ManagementResponse) NetFailure)
| Dispatch (epoch : option N) (enforced : bool) (request : RaftRequest) : ServeEv (Result (list N) NetError)
| ServeAuthorize (peer : ReplicaId) : ServeEv (Result RaftAuthorization AdmissionDenied)
| ServeClock : ServeEv Instant
| ServeTimer : ServeEv bool
| Writable : ServeEv (Result unit IoError)
| TryWrite (frame : list N) : ServeEv (Result nat IoError).

Local Abbreviation task := (task ServeEv NetFailure).

Definition serve_fail {A} (e : NetFailure) : task A := Ret (Err e).
Definition serve_require (c : bool) (reason : string) : task unit := Ret (ensure c (FailReason reason)).
Definition serve_option {A} (a : option A) (reason : string) : task A :=
  match a with Some a => Ret (Ok a) | None => serve_fail (FailReason reason) end.

(** [tokio::time::timeout]; the time that passed decides. *)
Definition serve_timed {A} (t : task A) : task A :=
  guarded (elapsed ← perform ServeTimer; if (elapsed : bool) then serve_fail FailElapsed else Ret (Ok tt)) t.

Context (cfg : Config) (local : ReplicaId) (fingerprint : ClusterConfigFingerprint) (peer : InboundPeer).
Context (hmac : list N → option (list N → list N)).
Context (encode_admission : list N * AdmissionRequest → option (list N)).
Context (encode_management : list N * ManagementRequest → option (list N)).
Context (encode_answer : list N * ManagementResponse → option (list N)).
(** The JSON decoder of a request and the encoders of the responses. *)
Context (decode_request : list N → option RaftRequest).
Context (encode_grant : SignedAdmission AdmissionRequest → option (list N)).
Context (encode_answer_body : SignedAdmission ManagementResponse → option (list N)).

(** ** Admission and management records *)

(** [admission_rpc::dispatch]. *)
Definition admission_dispatch (from : ReplicaId) (request : SignedAdmission AdmissionRequest)
  : task (SignedAdmission AdmissionRequest) :=
  Ret (net_denied (verify hmac encode_admission request (cluster_secret cfg) ADMISSION_REQUEST_ROLE from local (inbound_binding peer)));;
  serve_require (bool_decide (req_consumer (record_payload request) = from))
    "admission consumer differs from authenticated boot";;
  response ← perform (ToController from (inbound_binding peer) request);
  response ← Ret (net_denied response);
  Ret (net_denied (verify hmac encode_admission response (cluster_secret cfg) ADMISSION_RESPONSE_ROLE local from (inbound_binding peer)));;
  serve_require (bool_decide (record_payload response = record_payload request)) "admission response differs from request";;
  Ret (Ok response).

(** [verify_request] of management. *)
Definition verify_request (from : ReplicaId) (request : SignedAdmission ManagementRequest) : Result unit NetFailure :=
  net_denied (verify hmac encode_management request (cluster_secret cfg) MANAGEMENT_REQUEST_ROLE from local (inbound_binding peer)) ;?
  match action (record_payload request) with
  | ActProgress progress =>
      net_denied (progress_validate progress) ;?
      ensure (bool_decide (replica progress = from)) (FailReason "management progress differs from authenticated boot")
  | _ => Ok tt
  end.

(** [management::dispatch]. *)
Definition management_dispatch (from : ReplicaId) (request : SignedAdmission ManagementRequest) (budget : N)
  : task (SignedAdmission ManagementResponse) :=
  serve_require (negb (budget =? 0)%N) "management dispatch timed out";;
  serve_timed (
    Ret (verify_request from request);;
    response ← perform (ToManager from (inbound_binding peer) request);
    response ← Ret response;
    Ret (verify_response cfg hmac encode_answer local from (inbound_binding peer)
           (management_nonce (record_payload request)) response);;
    Ret (Ok response)).

(** ** One frame *)

(** What the loop remembers of its peer. *)
Record ServeState := mkServeState {
  peer_fingerprint : option ClusterConfigFingerprint;
  safe_rpc : bool
}.

(** [RAFT_PROCESSING_TIMEOUT], in nanoseconds. *)
Definition RAFT_PROCESSING_TIMEOUT : N := from_millis 5000.

(** The gate of a record that needs no configuration check. *)
Definition record_gate : ConfigFrameGate := mkConfigFrameGate true true None.

(** The block [processing]: [None] closes the connection. *)
Definition processing (s : ServeState) (buf : list N) : task (ServeState * option (ConfigFrameGate * list N)) :=
  policy ← perform ServePolicy;
  request ← serve_option (decode_request buf) "request decoding failed";
  match request with
  | RaftAdmissionControl record =>
      from ← serve_option (inbound_replica peer) "management peer omitted its boot identity";
      serve_require (physical_id from =? inbound_id peer)%N "authenticated physical identity mismatch";;
      spent ← perform ServeElapsed;
      response ← management_dispatch from record (RAFT_PROCESSING_TIMEOUT - spent);
      body ← serve_option (encode_answer_body response) "encoding failed";
      Ret (Ok (s, Some (record_gate, body)))
  | RaftAdmission record =>
      from ← serve_option (inbound_replica peer) "admission peer omitted its boot identity";
      response ← admission_dispatch from record;
      body ← serve_option (encode_grant response) "encoding failed";
      Ret (Ok (s, Some (record_gate, body)))
  | _ =>
      let '(known, gate) := classify_config_frame request (peer_fingerprint s) fingerprint (policy_enforced policy) in
      let s := mkServeState known (default (safe_rpc s) (peer_supports_cancellation_safe_rpc gate)) in
      if negb (peer_semantics_compatible (policy_semantics policy) (inbound_supports_v2 peer)) && negb (is_status gate)
      then Ret (Ok (s, None))
      else if negb (may_dispatch gate) then Ret (Ok (s, None))
      else
        body ← perform (Dispatch (policy_epoch policy) (policy_enforced policy) request);
        body ← Ret (net_refused body);
        Ret (Ok (s, Some (gate, body)))
  end.

(** The check before a response is written. *)
Definition response_check (status : bool) : task unit :=
  if status then Ret (Ok tt)
  else
    from ← match inbound_replica peer with
           | Some r => Ret (Ok r)
           | None => serve_fail (FailIo (mkIoError PermissionDenied "Raft peer omitted its boot identity"))
           end;
    a ← perform (ServeAuthorize from);
    a ← Ret (net_denied a);
    now ← perform ServeClock;
    Ret (net_refused (auth_check a local from now)).

(** [write_framed_tcp_checked]; [blocked] is how often the socket was not ready. *)
Fixpoint write_framed_tcp_checked (blocked : nat) (frame : list N) (check : task unit) : task unit :=
  writable ← perform Writable;
  Ret (match writable with Ok _ => Ok tt | Err e => Err (FailIo e) end);;
  check;;
  match blocked with
  | S blocked => write_framed_tcp_checked blocked frame check
  | 0 =>
      written ← perform (TryWrite frame);
      match written with
      | Ok n => Ret (match require_complete_frame_write n (length frame) with Ok _ => Ok tt | Err e => Err (FailIo e) end)
      | Err e => serve_fail (FailIo e)
      end
  end.

(** [write_response_with_budget]: a write that takes too long closes the connection. *)
Definition write_response_with_budget (blocked : nat) (safe status : bool) (elapsed budget : N) (body : list N) : task ResponseAction :=
  match response_action safe status elapsed budget with
  | DropAndClose => Ret (Ok DropAndClose)
  | WriteAndKeepOpen =>
      result ← outcome (serve_timed (
        frame ← Ret (match encode_frame body with Ok f => Ok f | Err e => Err (FailIo e) end);
        write_framed_tcp_checked blocked frame (response_check status)));
      match result with
      | Ok _ => Ret (Ok WriteAndKeepOpen)
      | Err FailElapsed => Ret (Ok DropAndClose)
      | Err e => serve_fail e
      end
  end.

(** One round of [serve_raft_stream]: [None] ends it. *)
Definition serve_frame (blocked : nat) (s : ServeState) : task (option ServeState) :=
  frame ← perform (NextFrame (max_frame_bytes cfg));
  match frame with
  | Err (FailIo e) => match error_kind e with UnexpectedEof => Ret (Ok None) | _ => serve_fail (FailIo e) end
  | Err e => serve_fail e
  | Ok buf =>
      processed ← outcome (serve_timed (outcome (processing s buf)));
      match processed with
      | Err e => serve_fail e
      | Ok (Err _) | Ok (Ok (_, None)) => Ret (Ok None)
      | Ok (Ok (s, Some (gate, body))) =>
          if negb (N.of_nat (length body) <=? max_frame_bytes cfg)%N then Ret (Ok None)
          else
            elapsed ← perform ServeElapsed;
            action ← write_response_with_budget blocked (safe_rpc s) (is_status gate) elapsed
                       (legacy_response_budget (heartbeat_interval_ms (raft cfg))) body;
            match action with
            | DropAndClose => Ret (Ok None)
            | WriteAndKeepOpen => if compatible gate then Ret (Ok (Some s)) else Ret (Ok None)
            end
      end
  end.

(** [serve_raft_stream], for as many rounds as the list has delays. *)
Fixpoint serve_raft_stream (blocked : list nat) (s : ServeState) : task unit :=
  match blocked with
  | [] => Ret (Ok tt)
  | b :: blocked =>
      next ← serve_frame b s;
      match next with
      | Some s => serve_raft_stream blocked s
      | None => Ret (Ok tt)
      end
  end.
End stream.
