(* ===== verification/TaskStates.v ===== *)
(** * Tasks over a state

    A reading of the events of a task as steps of a state: what holds of the
    state whenever the task waits, and when it returns. *)

From S2P Require Import Prelude Tasks.

Section states.
Context {Ev : Type → Type} {E S : Type} (step : ∀ X, Ev X → X → S → S) (V : S → ∀ X, Ev X → X → Prop).
Local Abbreviation task := (task Ev E).
Local Abbreviation answered := (answered Ev).

(** The state after a history. *)
Definition after (s : S) (h : list answered) : S := foldl (λ s a, step (projT1 a) (projT2 a).1 (projT2 a).2 s) s h.

Lemma after_app s h h' : after s (h ++ h') = after (after s h) h'.
Proof. apply foldl_app. Qed.

(** The answers of a history are those the state allows. *)
Fixpoint consistent (s : S) (h : list answered) : Prop :=
  match h with
  | [] => True
  | a :: h => V s (projT1 a) (projT2 a).1 (projT2 a).2 ∧ consistent (step (projT1 a) (projT2 a).1 (projT2 a).2 s) h
  end.

Lemma consistent_app s h h' : consistent s (h ++ h') ↔ consistent s h ∧ consistent (after s h) h'.
Proof. revert s. induction h as [|a h IH]; intros s; cbn; [naive_solver|]. rewrite IH. unfold after. cbn. tauto. Qed.

Lemma consistent_take s h n : consistent s h → consistent s (take n h).
Proof. rewrite <- (take_drop n h) at 1. by intros [? _]%consistent_app. Qed.

(** The task waits only for events that [I] allows, and returns in [Q]. *)
Fixpoint twp {A} (I : S → ∀ X, Ev X → Prop) (t : task A) (Q : S → Result A E → Prop) (s : S) : Prop :=
  match t with
  | Ret r => Q s r
  | Do e k => I s _ e ∧ ∀ x, V s _ e x → twp I (k x) Q (step _ e x s)
  end.

Lemma twp_waits {A} (I I' : S → ∀ X, Ev X → Prop) (t : task A) Q s :
  (∀ s X e, I s X e → I' s X e) → twp I t Q s → twp I' t Q s.
Proof. intros HI. revert s. induction t as [r|X e k IH]; intros s; cbn; [done|]. intros [He Hk]. split; eauto. Qed.

Section rules.
Context (I : S → ∀ X, Ev X → Prop).

Lemma twp_mono {A} (t : task A) (Q Q' : S → Result A E → Prop) s :
  twp I t Q s → (∀ s r, Q s r → Q' s r) → twp I t Q' s.
Proof. revert s. induction t as [r|X e k IH]; intros s; cbn; [auto|]. intros [He Hk] HQ. split; [done|]. eauto. Qed.

Lemma twp_bind {A B} (t : task A) (k : A → task B) Q s :
  twp I t (λ s r, match r with Ok a => twp I (k a) Q s | Err e => Q s (Err e) end) s → twp I (task_bind k t) Q s.
Proof. revert s. induction t as [[a|e]|X e f IH]; intros s; cbn; [done..|]. intros [He Hk]. split; [done|]. eauto. Qed.

Lemma twp_perform {A X} (e : Ev X) (k : X → task A) Q s :
  I s X e → (∀ x, V s X e x → twp I (k x) Q (step X e x s)) → twp I (perform e ≫= k) Q s.
Proof. by split. Qed.

Lemma twp_attempt {A X} (e : Ev (Result X E)) (k : X → task A) Q s :
  I s _ e → (∀ r, V s _ e r → match r with Ok x => twp I (k x) Q (step _ e r s) | Err e' => Q (step _ e r s) (Err e') end) →
  twp I (attempt_ev e ≫= k) Q s.
Proof. intros He Hk. split; [done|]. intros r Hr. specialize (Hk r Hr). by destruct r. Qed.

Lemma twp_lift {A B} (r : Result B E) (k : B → task A) Q s :
  (∀ e, r = Err e → Q s (Err e)) → (∀ b, r = Ok b → twp I (k b) Q s) → twp I (Ret r ≫= k) Q s.
Proof. destruct r; cbn; auto. Qed.

Lemma twp_outcome {A} (t : task A) Q s : twp I t (λ s r, Q s (Ok r)) s → twp I (outcome t) Q s.
Proof. revert s. induction t as [r|X e f IH]; intros s; cbn; [done|]. intros [He Hk]. split; [done|]. eauto. Qed.

(** A guard that leaves the state as it is. *)
Lemma twp_guarded {A} (guard : task unit) (t : task A) Q s :
  (∀ s X (e : Ev X), I s X e →
    twp I guard (λ s' r, s' = s ∧ match r with Ok _ => True | Err e => Q s (Err e) end) s) →
  twp I t Q s → twp I (guarded guard t) Q s.
Proof.
  intros Hg. revert s. induction t as [r|X e k IH]; intros s; [done|]. cbn [guarded twp]. intros [He Hk].
  apply twp_bind. eapply twp_mono; [by eapply Hg|]. intros s' [[]|e'] [-> Hr]; [|done]. split; [done|]. eauto.
Qed.

Lemma twp_runs {A} (t : task A) Q s h r : twp I t Q s → runs t h r → consistent s h → Q (after s h) r.
Proof.
  revert t s. induction h as [|a h IH]; intros [r'|X e k] s Ht Hr Hc; cbn in Hr; [by subst|done|done|].
  destruct Ht as [_ Hk], Hr as (x & -> & Hr), Hc as [Hx Hc]. by apply (IH (k x)); [apply Hk|..].
Qed.

(** A task that has performed a history waits for an event that [I] allows. *)
Lemma twp_reaches {A} (t : task A) Q s h X (e : Ev X) x :
  twp I t Q s → reaches t (h ++ [did e x]) → consistent s h → I (after s h) X e.
Proof.
  revert t s. induction h as [|a h IH]; intros [r'|Y e' k] s Ht Hr Hc; cbn in Hr; [done| |done|].
  - destruct Hr as (y & Heq & _). change ((λ a : answered, I s (projT1 a) (projT2 a).1) (did e x)). rewrite Heq. apply Ht.
  - destruct Ht as [_ Hk], Hr as (y & -> & Hr), Hc as [Hy Hc]. by apply (IH (k y)); [apply Hk|..].
Qed.

Lemma twp_always {A} (J : S → Prop) (t : task A) Q s h :
  (∀ s X e, I s X e → J s) → (∀ s r, Q s r → J s) → twp I t Q s → reaches t h → consistent s h → J (after s h).
Proof.
  intros HI HQ. revert t s. induction h as [|a h IH]; intros [r'|Y e' k] s Ht Hr Hc; cbn in Hr; [by eapply HQ| |done|].
  - destruct Ht as [He _]. by eapply HI.
  - destruct Ht as [_ Hk], Hr as (y & -> & Hr), Hc as [Hy Hc]. by apply (IH (k y)); [apply Hk|..].
Qed.
End rules.

(** ** Results a task can have *)

Definition can_return {A} (t : task A) (r : Result A E) : Prop := ∃ h, runs t h r.

Lemma can_return_do {A X} (e : Ev X) (k : X → task A) x r : can_return (k x) r → can_return (Do e k) r.
Proof. intros [h Hh]. exists (did e x :: h). by exists x. Qed.

Lemma twp_can_return {A} I (t : task A) Q s : twp I t Q s → twp I t (λ s r, Q s r ∧ can_return t r) s.
Proof.
  revert s. induction t as [r|X e k IH]; intros s; cbn; [intros ?; split; [done|by exists []]|].
  intros [He Hk]. split; [done|]. intros x Hx. eapply twp_mono; [by apply IH, Hk|]. intros s' r [HQ Hp].
  split; [done|]. by eapply can_return_do.
Qed.

(** ** Runs with given answers *)

(** The run in which the answer to an event depends on the state. *)
Fixpoint replay {A} (answer : S → ∀ X, Ev X → X) (s : S) (t : task A) : list answered * Result A E :=
  match t with
  | Ret r => ([], r)
  | Do e k => let x := answer s _ e in let '(h, r) := replay answer (step _ e x s) (k x) in (did e x :: h, r)
  end.

Lemma replay_runs {A} answer s (t : task A) : runs t (replay answer s t).1 (replay answer s t).2.
Proof.
  revert s. induction t as [r|X e k IH]; intros s; [done|]. cbn. specialize (IH (answer s X e) (step X e (answer s X e) s)).
  destruct (replay _ _ _) as [h r]. by exists (answer s X e).
Qed.

Lemma replay_consistent {A} answer s (t : task A) :
  (∀ s X (e : Ev X), V s X e (answer s X e)) → consistent s (replay answer s t).1.
Proof.
  intros Ha. revert s. induction t as [r|X e k IH]; intros s; [done|]. cbn.
  specialize (IH (answer s X e) (step X e (answer s X e) s)). destruct (replay _ _ _) as [h r]. split; [apply Ha|done].
Qed.
End states.

Lemma runs_reaches {Ev E A} (t : task Ev E A) h r : runs t h r → reaches t h.
Proof.
  revert t. induction h as [|a h IH]; intros [r'|X e k]; cbn; [done..|]. intros (x & -> & Hr). exists x. eauto.
Qed.

Lemma reaches_take {Ev E A} (t : task Ev E A) h n : reaches t h → reaches t (take n h).
Proof.
  revert t n. induction h as [|a h IH]; intros [r'|X e k] [|n]; cbn; try done. intros (x & -> & Hr). exists x. eauto.
Qed.
