(* ===== verification/Transport.v ===== *)
(** * Requests and responses of a connection

    A peer's cached connection over a sequence of requests, each complete or
    cancelled, and the connection as its server sees it: the response that a
    request accepts is the one the server wrote to this request. *)

From S2P Require Import Prelude Text Io Replica Openraft Admission Types VipLogic State StoreMembership.
From S2P Require Import StateMachine LogStore Config Fingerprint Auth Controller Lease Freshness Request Authorization.
From S2P Require Import Tasks TaskStates Driver Inbound Framing Outbound Stream.
Local Open Scope kaf_scope.

(** ** The client's connections *)

(** The frames written to a connection since it is authenticated, the bodies read from
    it, and whether a write or a read was cut short. *)
Record Conn := mkConn {
  sent : list (list N);
  received : list (list N);
  broken : bool
}.

(** The cached connection of a peer, one that is being set up, and whether an
    [InFlightRpcStream] holds the slot. *)
Record Link := mkLink {
  slot : option Conn;
  fresh : option Conn;
  held : bool
}.

Definition no_link : Link := mkLink None None false.

Definition on_stream (s : StreamRef) (f : Conn → Conn) (l : Link) : Link :=
  match s with
  | Cached => mkLink (f <$> slot l) (fresh l) (held l)
  | Fresh => mkLink (slot l) (f <$> fresh l) (held l)
  end.

Definition break (c : Conn) : Conn := mkConn (sent c) (received c) true.

Section client.
Context {O : Openraft}.

Definition link_event (X : Type) (e : NetEv X) : X → Link → Link :=
  match e in NetEv X return X → Link → Link with
  | Hold => λ _ l, mkLink (slot l) (fresh l) true
  | Release retain => λ _ l, mkLink (if retain then slot l else None) None false
  | Unlock => λ _ l, mkLink (slot l) None (held l)
  | ClearStream => λ _ l, mkLink None (fresh l) (held l)
  | Dial _ => λ r l, mkLink (slot l) (if is_ok r then Some (mkConn [] [] false) else None) (held l)
  | InstallStream => λ _ l, mkLink (fresh l) None (held l)
  | Send s frame => λ r, on_stream s (λ c, if is_ok r then mkConn (sent c ++ [frame]) (received c) (broken c) else break c)
  | Receive s _ => λ r, on_stream s (λ c, match r with
                                          | Ok body => mkConn (sent c) (received c ++ [body]) (broken c)
                                          | Err _ => break c
                                          end)
  | _ => λ _ l, l
  end.

(** Whether there is a cached connection is read from the slot. *)
Definition link_answer (l : Link) (X : Type) (e : NetEv X) : X → Prop :=
  match e in NetEv X return X → Prop with
  | HasStream => λ x, x = bool_decide (is_Some (slot l))
  | _ => λ _, True
  end.

(** A task that is dropped while it waits for [e]: a write or read may be done in part,
    [InFlightRpcStream] is dropped without [retain], and so is a connection being set up. *)
Definition interrupt {X} (e : NetEv X) (l : Link) : Link :=
  match e with
  | Send s _ | Receive s _ => on_stream s break l
  | _ => l
  end.
Definition cancelled (l : Link) : Link := mkLink (if held l then None else slot l) None false.

(** Every request on the connection has its response. *)
Definition framed (frame : list N) : Prop := ∃ payload, encode_frame payload = Ok frame.
Definition paired (c : Conn) : Prop :=
  broken c = false ∧ length (sent c) = length (received c) ∧ Forall framed (sent c).
Definition link_clean (l : Link) : Prop := held l = false ∧ ∀ c, slot l = Some c → paired c.

Definition waits_clean (l : Link) (X : Type) (e : NetEv X) : Prop := link_clean (cancelled (interrupt e l)).

Local Abbreviation twp := (twp (S := Link) (E := NetFailure) link_event link_answer waits_clean).

(** The last exchange of a connection is that of [request]. *)
Definition exchanged (request body : list N) (c : Conn) : Prop :=
  ∃ frame frames bodies, encode_frame request = Ok frame ∧
    c = mkConn (frames ++ [frame]) (bodies ++ [body]) false ∧ length frames = length bodies ∧ Forall framed frames.

Lemma exchanged_paired request body c : exchanged request body c → paired c.
Proof.
  intros (frame & frames & bodies & Hf & -> & Hlen & Hall). split_and!; cbn; [done|rewrite !length_app; cbn; lia|].
  apply Forall_app_2; [done|]. apply Forall_singleton. by exists request.
Qed.

Lemma waits_held l X (e : NetEv X) : held l = true → waits_clean l X e.
Proof.
  intros Hh. unfold waits_clean, cancelled. assert (held (interrupt e l) = true) as ->; [|by split].
  destruct e; try done; by destruct s.
Qed.

(** Events that leave the cached connection alone. *)
Definition spares_slot {X} (e : NetEv X) : bool :=
  match e with Send Cached _ | Receive Cached _ => false | _ => true end.

Lemma waits_spares l X (e : NetEv X) : spares_slot e = true → (∀ c, slot l = Some c → paired c) → waits_clean l X e.
Proof.
  intros He Hl. split; [done|]. cbn. intros c. destruct (held _) eqn:Hh; [done|]. assert (slot (interrupt e l) = slot l) as ->; [|apply Hl].
  destruct e; try done; by destruct s.
Qed.

(** ** The client's tasks *)

Context (cfg : Config) (local : ReplicaId) (fingerprint : ClusterConfigFingerprint).
Context (encode_status : ClusterStatusRequest → option (list N)).
Context (decode_status : list N → option ClusterStatusResponse).
Context (decode_request : list N → option RaftRequest) (decode_identities : list N → Result SnapshotIdentities string).
Context (decode_raft_response : list N → Result RaftResponse string).

(** The cached connection may be given up at any time, or is paired. *)
Definition steady (l : Link) : Prop := held l = true ∨ ∀ c, slot l = Some c → paired c.
Definition same_slot (l l' : Link) : Prop := slot l' = slot l ∧ held l' = held l.

Lemma waits_steady l0 l X (e : NetEv X) : steady l0 → same_slot l0 l → spares_slot e = true → waits_clean l X e.
Proof.
  intros [Hh|Hl] [Hs Hh'] He; [apply waits_held; congruence|]. apply waits_spares; [done|]. by rewrite Hs.
Qed.

(** While a connection is set up the cached one stays as it is. *)
Definition waits_same (l0 l : Link) (X : Type) (e : NetEv X) : Prop := same_slot l0 l ∧ spares_slot e = true.

Lemma waits_same_clean l0 l X (e : NetEv X) : steady l0 → waits_same l0 l X e → waits_clean l X e.
Proof. intros Hs [Hl He]. by eapply waits_steady. Qed.

Section steps.
Context (I : Link → ∀ X, NetEv X → Prop).
Local Abbreviation wpI := (TaskStates.twp (S := Link) (E := NetFailure) link_event link_answer I).

Lemma twp_option {A B} (b : option B) reason (k : B → task NetEv NetFailure A) Q l :
  Q l (Err (FailReason reason)) → (∀ x, b = Some x → wpI (k x) Q l) → wpI (net_option b reason ≫= k) Q l.
Proof. destruct b; cbn; auto. Qed.

Lemma twp_net_io {A B} (e : NetEv (Result B IoError)) (k : B → task NetEv NetFailure A) Q l :
  I l _ e →
  (∀ r, match r with Ok x => wpI (k x) Q (link_event _ e r l) | Err e' => Q (link_event _ e r l) (Err (FailIo e')) end) →
  wpI (net_io e ≫= k) Q l.
Proof.
  intros He Hk. split; [done|]. intros r _. specialize (Hk r). by destruct r.
Qed.

(** An exchange on a paired connection leaves it paired if a response was read. *)
Definition stream_of (s : StreamRef) (l : Link) : option Conn := match s with Cached => slot l | Fresh => fresh l end.
Definition exchange_post (s : StreamRef) (request : list N) (l0 l : Link) (r : Result (Result (list N) IoError) NetFailure) : Prop :=
  held l = held l0 ∧ (s = Fresh → slot l = slot l0) ∧
  match r with
  | Ok (Ok body) => ∃ c, stream_of s l = Some c ∧ exchanged request body c
  | Ok (Err _) => True
  | Err _ => False
  end.

Lemma twp_exchange s request max l c :
  (∀ l' X (e : NetEv X), held l' = held l → (s = Fresh → slot l' = slot l ∧ spares_slot e = true) → I l' X e) →
  stream_of s l = Some c → paired c → wpI (exchange s request max) (exchange_post s request l) l.
Proof.
  intros Hw Hc (Hb & Hlen & Hall).
  unfold exchange, send_frame. destruct (encode_frame request) as [frame|e] eqn:Hf; [|by cbn]. cbn.
  split; [apply Hw; [done|by intros ->]|]. intros [[]|e] _; cbn; [|by destruct s].
  split; [apply Hw; by destruct s|]. intros [body|e] _; cbn; [|by destruct s].
  split_and!; [by destruct s..|]. exists (mkConn (sent c ++ [frame]) (received c ++ [body]) (broken c)).
  split; [destruct s; cbn in *; by rewrite Hc|]. exists frame, (sent c), (received c). rewrite Hb. done.
Qed.
End steps.

Local Abbreviation connect_with_preflight := (connect_with_preflight cfg local fingerprint encode_status decode_status).
Local Abbreviation connect_peer_stream := (connect_peer_stream cfg local fingerprint encode_status decode_status).

Ltac twp_next tac :=
  match goal with
  | |- TaskStates.twp _ _ _ (perform _ ≫= _) _ _ => apply twp_perform; [tac|intros ? _]
  | |- TaskStates.twp _ _ _ (Ret _ ≫= _) _ _ => apply twp_lift; [intros ? _; tac|intros ? _]
  | |- TaskStates.twp _ _ _ (net_require _ _ ≫= _) _ _ => apply twp_lift; [intros ? _; tac|intros ? _]
  | |- TaskStates.twp _ _ _ (net_option _ _ ≫= _) _ _ => apply twp_option; [tac|intros ? _]
  | |- TaskStates.twp _ _ _ (attempt_ev _ ≫= _) _ _ => apply twp_attempt; [tac|intros [?|?] _; [|tac]]
  | |- TaskStates.twp _ _ _ (net_io _ ≫= _) _ _ => apply twp_net_io; [tac|intros [?|?]; [|tac]]
  | |- TaskStates.twp _ _ _ ((_ ≫= _) ≫= _) _ _ => apply twp_bind
  end.

(** A new connection has one exchange, its preflight, before it is cached. *)
Definition connect_post {A} (l0 l : Link) (r : Result A NetFailure) : Prop :=
  same_slot l0 l ∧ (is_ok r = true → ∃ c, fresh l = Some c ∧ paired c).

Lemma twp_connect_with_preflight address epoch advertises enforced l :
  TaskStates.twp link_event link_answer (waits_same l) (connect_with_preflight address epoch advertises enforced) (connect_post l) l.
Proof.
  apply twp_guarded.
  { intros l' X e [Hs _]. split; [done|]. by intros [] _. }
  twp_next done. 
  twp_next done.
  unfold write_replica_handshake. twp_next done.
  twp_next done. destruct (peer_replica _); [|done]. cbn [twp].
  twp_next done. twp_next done. unfold exchange_or_fail. twp_next done.
  apply twp_bind. eapply twp_mono; [eapply twp_exchange; [|done|done]|].
  { intros l' X e Hh Hs. destruct Hs as [Hs He]; [done|]. done. }
  intros l1 [[body|e]|e] (Hh & Hs & Hr); [|by split; [split; auto|]|done]. cbn [twp].
  destruct Hr as (c & Hc & Hx%exchanged_paired). assert (same_slot l l1) as Hl1 by (split; auto).
  repeat twp_next done. cbn. split; [done|]. intros _. by exists c.
Qed.

Lemma twp_connect_peer_stream address l :
  TaskStates.twp link_event link_answer (waits_same l) (connect_peer_stream address) (connect_post l) l.
Proof.
  unfold connect_peer_stream, connect_with_handshake. twp_next done. cbv zeta. twp_next done.
  apply twp_bind. eapply twp_mono; [apply twp_connect_with_preflight|]. intros l1 [r|e] [Hs Hc]; [|done].
  cbn [twp]. twp_next done. twp_next done. cbn. split; [done|]. done.
Qed.

Lemma twp_connect_clean address l :
  steady l → twp (connect_peer_stream address) (connect_post l) l.
Proof. intros Hs. eapply twp_waits; [|apply twp_connect_peer_stream]. intros l' X e. by apply waits_same_clean. Qed.

(** A request that holds the slot, which has a paired connection or none: if it succeeds
    its exchange is the last of the cached connection. *)
Definition rpc_post {A} (decode : list N → option A) (request : list N) (l : Link) (r : Result A NetFailure) : Prop :=
  held l = true ∧ ∀ a, r = Ok a → ∃ c body, slot l = Some c ∧ exchanged request body c ∧ decode body = Some a.

Definition slot_paired (l : Link) : Prop := ∀ c, slot l = Some c → paired c.

Ltac twp_held := first [by apply waits_held|by split].

Lemma twp_accept_response {A} target (decode : list N → option A) request body c l :
  held l = true → slot l = Some c → exchanged request body c →
  twp (accept_response local decode_raft_response target decode body) (rpc_post decode request) l.
Proof.
  intros Hh Hc Hx. unfold accept_response. repeat twp_next twp_held.
  destruct (decode body) as [a|] eqn:Hd; cbn; [|by split]. split; [done|]. intros ? [= <-]. eauto.
Qed.

Lemma twp_rpc_pass {A} target (decode : list N → option A) request again l :
  held l = true → slot_paired l →
  match again with Some t => ∀ l', held l' = true → twp t (rpc_post decode request) l' | None => True end →
  twp (rpc_pass cfg local decode_request decode_identities decode_raft_response target decode request again)
    (rpc_post decode request) l.
Proof.
  intros Hh Hl Hagain. unfold rpc_pass, validate_rpc. repeat twp_next twp_held. cbn [twp].
  destruct (net_refused _) as [[]|]; [|twp_held]. apply twp_perform; [twp_held|]. intros cached ->. cbn [link_event].
  destruct (bool_decide_reflect (is_Some (slot l))) as [[c Hc]|]; [|by split].
  apply (twp_lift _ _ _ (Ok tt)); [done|]. intros _ _. repeat twp_next twp_held.
  apply twp_bind. eapply twp_mono; [eapply (twp_exchange _ Cached); [|done|by apply Hl]|].
  { intros l' X e Hh' _. apply waits_held. by rewrite Hh'. }
  intros l' [[body|e]|e] (Hh' & _ & Hr); [| |done]; cbn in Hh'; rewrite Hh in Hh'.
  - destruct Hr as (c' & Hc' & Hx). by eapply twp_accept_response.
  - destruct again as [t|]; [|by split]. destruct (is_disconnect e); [by apply Hagain|by split].
Qed.

Lemma twp_rpc_loop {A} address target (decode : list N → option A) request l :
  held l = true → slot_paired l →
  twp (rpc_loop cfg local fingerprint encode_status decode_status decode_request decode_identities decode_raft_response
        address target decode request) (rpc_post decode request) l.
Proof.
  intros Hh Hl. apply twp_rpc_pass; [done|done|]. intros l' Hh'. twp_next twp_held.
  apply twp_bind. eapply twp_mono; [apply twp_connect_clean; by left|]. intros l1 [u|e] [[Hs Hh1] Hc].
  - destruct Hc as (c & Hc & Hp); [done|]. cbn in Hh1. rewrite Hh' in Hh1. twp_next twp_held. apply twp_rpc_pass; [done| |done].
    intros c' Hc'. cbn in Hc'. congruence.
  - cbn in Hh1. split; [congruence|done].
Qed.

(** ** Operations of a link *)

Local Abbreviation send_rpc := (send_rpc cfg local fingerprint encode_status decode_status decode_request
  decode_identities decode_raft_response).
Local Abbreviation reconnect_round := (reconnect_round cfg local fingerprint encode_status decode_status).

Definition rpc_done {A} (decode : list N → option A) (request : list N) (l : Link) (r : Result A NetFailure) : Prop :=
  link_clean l ∧ ∀ a, r = Ok a → ∃ c body, slot l = Some c ∧ exchanged request body c ∧ decode body = Some a.

Lemma twp_in_flight {A} address target (decode : list N → option A) (request : list N) l :
  slot_paired l →
  twp (in_flight (rpc_loop cfg local fingerprint encode_status decode_status decode_request decode_identities
        decode_raft_response address target decode request)) (rpc_done decode request) l.
Proof.
  intros Hl. unfold in_flight. twp_next ltac:(by apply waits_spares). apply twp_bind, twp_outcome.
  eapply twp_mono; [by apply twp_rpc_loop|]. cbn [twp]. intros l' r [Hh Hr]. twp_next twp_held. cbn. split; [split; [done|]|].
  - cbn. intros c. destruct r as [a|]; [|done]. cbn. intros Hc. destruct (Hr a eq_refl) as (c' & body & Hc' & Hx & _).
    assert (c = c') as -> by congruence. by eapply exchanged_paired.
  - intros a ->. by apply Hr.
Qed.

Lemma twp_send_rpc {A} target (decode : list N → option A) request l :
  link_clean l → twp (send_rpc target decode request) (rpc_done decode request) l.
Proof.
  intros [Hh Hl]. unfold send_rpc. destruct (negb _); [by split|]. destruct (find _ _) as [link|]; [|by split].
  do 3 (twp_next ltac:(by apply waits_spares)). apply twp_bind.
  assert (∀ l, held l = false → slot_paired l →
    twp (remote ← perform RemoteReplica;
        let rpc := in_flight (rpc_loop cfg local fingerprint encode_status decode_status decode_request decode_identities
                              decode_raft_response (raft_address link) target decode request) in
        match remote with
        | Some r => if bool_decide (r = target) then rpc else perform Unlock;; net_fail (FailReason "Raft destination boot changed")
        | None => rpc
        end) (rpc_done decode request) l) as Hrest.
  { clear l Hh Hl. intros l Hh Hl. apply twp_perform; [by apply waits_spares|]. intros [r|] _; [|by apply twp_in_flight].
    cbn zeta. destruct (bool_decide _); [by apply twp_in_flight|]. twp_next ltac:(by apply waits_spares). by split. }
  destruct (_ || _); [|by apply Hrest]. split; [by apply waits_spares|]. intros ? _. by apply Hrest.
Qed.

Lemma twp_reconnect_round address l : link_clean l → twp (reconnect_round address) (λ l _, link_clean l) l.
Proof.
  intros [Hh Hl]. unfold reconnect_round, reconnect_decision.
  assert (∀ l, held l = false → slot_paired l →
    twp (connection ← outcome (connect_peer_stream address);
        (if is_ok connection then perform InstallStream else Ret (Ok tt));; perform Unlock) (λ l _, link_clean l) l) as Hrest.
  { clear l Hh Hl. intros l Hh Hl. apply twp_bind, twp_outcome. eapply twp_mono; [apply twp_connect_clean; by right|].
    intros l1 r [[Hs Hh1] Hc]. destruct r; cbn -[link_event]; (split; [apply waits_spares; [done|]; intros c; rewrite Hs; apply Hl|]).
    - intros [] _. destruct Hc as (c & Hc & Hp); [done|].
      assert (slot_paired (link_event () InstallStream tt l1)) by (intros c' Hc'; cbn in Hc'; congruence).
      split; [by apply waits_spares|]. intros ? _. split; [cbn; congruence|]. by cbn.
    - intros ? _. split; [cbn; congruence|]. cbn. by rewrite Hs. }
  assert (∀ l decision, held l = false → slot_paired l →
    twp (match decision with
        | Keep => perform Unlock
        | Connect | Replace =>
            (match decision with Replace => perform ClearStream | _ => Ret (Ok tt) end);;
            connection ← outcome (connect_peer_stream address);
            (if is_ok connection then perform InstallStream else Ret (Ok tt));; perform Unlock
        end) (λ l _, link_clean l) l) as Hdecided.
  { clear l Hh Hl. intros l [] Hh Hl; [split; [by apply waits_spares|]; by split|by apply Hrest|].
    split; [by apply waits_spares|]. intros ? _. by apply Hrest. }
  do 2 (twp_next ltac:(by apply waits_spares)). apply twp_bind. apply twp_perform; [by apply waits_spares|]. intros [] _; [|by apply Hdecided].
  apply twp_perform; [by apply waits_spares|]. intros flags _. cbn zeta. destruct (_ || _); [by apply Hdecided|].
  split; [by apply waits_spares|]. intros ? _. by apply Hdecided.
Qed.

(** The states of a peer's link: after its requests and reconnects one after the other, as
    the lock orders them, each complete or dropped while it waits for an event. *)
Inductive link_reachable : Link → Prop :=
| link_start : link_reachable no_link
| link_rpc {A} l target (decode : list N → option A) request h r :
    link_reachable l → runs (send_rpc target decode request) h r → consistent link_event link_answer l h →
    link_reachable (after link_event l h)
| link_dropped {A} l target (decode : list N → option A) request h X (e : NetEv X) x :
    link_reachable l → reaches (send_rpc target decode request) (h ++ [did e x]) → consistent link_event link_answer l h →
    link_reachable (cancelled (interrupt e (after link_event l h)))
| link_reconnect l address h r :
    link_reachable l → runs (reconnect_round address) h r → consistent link_event link_answer l h →
    link_reachable (after link_event l h)
| link_reconnect_dropped l address h X (e : NetEv X) x :
    link_reachable l → reaches (reconnect_round address) (h ++ [did e x]) → consistent link_event link_answer l h →
    link_reachable (cancelled (interrupt e (after link_event l h))).

Lemma link_reachable_clean l : link_reachable l → link_clean l.
Proof.
  induction 1 as [|A l target decode request h r _ IH Hr Hc|A l target decode request h X e x _ IH Hr Hc
    |l address h r _ IH Hr Hc|l address h X e x _ IH Hr Hc].
  - by split.
  - by apply (twp_runs _ _ _ _ _ _ _ _ (twp_send_rpc target decode request l IH) Hr Hc).
  - by apply (twp_reaches _ _ _ _ _ _ _ _ _ _ (twp_send_rpc target decode request l IH) Hr Hc).
  - by apply (twp_runs _ _ _ _ _ _ _ _ (twp_reconnect_round address l IH) Hr Hc).
  - by apply (twp_reaches _ _ _ _ _ _ _ _ _ _ (twp_reconnect_round address l IH) Hr Hc).
Qed.

Lemma send_rpc_exchanged {A} l target (decode : list N → option A) request h a :
  link_reachable l → runs (send_rpc target decode request) h (Ok a) → consistent link_event link_answer l h →
  ∃ c body, slot (after link_event l h) = Some c ∧ exchanged request body c ∧ decode body = Some a.
Proof.
  intros Hl%link_reachable_clean Hr Hc. by eapply (twp_runs _ _ _ _ _ _ _ _ (twp_send_rpc target decode request l Hl) Hr Hc).
Qed.
End client.

(** ** The server's connection *)

(** The bodies read from a connection, the frames written in whole, and a part of a further
    one. *)
Record Served := mkServed {
  served_reads : list (list N);
  served_frames : list (list N);
  served_cut : list N
}.

Definition written (v : Served) : list N := concat (served_frames v) ++ served_cut v.

Section server.
Context {O : Openraft}.

Definition serve_event (X : Type) (e : ServeEv X) : X → Served → Served :=
  match e in ServeEv X return X → Served → Served with
  | NextFrame _ => λ r v, match r with
                          | Ok body => mkServed (served_reads v ++ [body]) (served_frames v) (served_cut v)
                          | Err _ => v
                          end
  | TryWrite frame => λ r v,
      match r with
      | Ok n => if n =? length frame then mkServed (served_reads v) (served_frames v ++ [frame]) (served_cut v)
                else mkServed (served_reads v) (served_frames v) (served_cut v ++ take n frame)
      | Err _ => v
      end
  | _ => λ _ v, v
  end.

(** [try_write] accepts no more than the frame. *)
Definition serve_answer (v : Served) (X : Type) (e : ServeEv X) : X → Prop :=
  match e in ServeEv X return X → Prop with
  | TryWrite frame => λ r, match r with Ok n => n <= length frame | Err _ => True end
  | _ => λ _, True
  end.

Context (cfg : Config) (local : ReplicaId) (fingerprint : ClusterConfigFingerprint) (peer : InboundPeer).
Context (hmac : list N → option (list N → list N)).
Context (encode_admission : list N * AdmissionRequest → option (list N)).
Context (encode_management : list N * ManagementRequest → option (list N)).
Context (encode_answer : list N * ManagementResponse → option (list N)).
Context (decode_request : list N → option RaftRequest).
Context (encode_grant : SignedAdmission AdmissionRequest → option (list N)).
Context (encode_answer_body : SignedAdmission ManagementResponse → option (list N)).

Local Abbreviation processing := (processing cfg local fingerprint peer hmac encode_admission encode_management
  encode_answer decode_request encode_grant encode_answer_body).
Local Abbreviation serve_frame := (serve_frame cfg local fingerprint peer hmac encode_admission encode_management
  encode_answer decode_request encode_grant encode_answer_body).
Local Abbreviation serve_raft_stream := (serve_raft_stream cfg local fingerprint peer hmac encode_admission encode_management
  encode_answer decode_request encode_grant encode_answer_body).

(** The body is a response of the server to the request. *)
Definition responds (request body : list N) : Prop :=
  ∃ s s' gate, can_return (processing s request) (Ok (s', Some (gate, body))).

Definition response_to (request frame : list N) : Prop := ∃ body, responds request body ∧ encode_frame body = Ok frame.

(** Between two rounds every request has its response, in order. *)
Definition served_all (v : Served) : Prop :=
  Forall2 response_to (served_reads v) (served_frames v) ∧ served_cut v = [].
Definition serving (v : Served) : Prop :=
  ∃ request reads, served_reads v = reads ++ [request] ∧ Forall2 response_to reads (served_frames v) ∧ served_cut v = [].
(** What holds at every time. *)
Definition served_inv (v : Served) : Prop :=
  (∃ reads, reads `prefix_of` served_reads v ∧ Forall2 response_to reads (served_frames v)) ∧ cut_frame (served_cut v).

Lemma served_all_inv v : served_all v → served_inv v.
Proof. intros [Hall Hcut]. unfold served_inv. rewrite Hcut. split; [by exists (served_reads v)|]. by exists [], [0; 0; 0; 0]%N, [0; 0; 0; 0]%N. Qed.

Lemma serving_inv v : serving v → served_inv v.
Proof.
  intros (request & reads & Hr & Hall & Hcut). unfold served_inv. rewrite Hcut, Hr. split; [exists reads; by split; [apply prefix_app_r|]|].
  by exists [], [0; 0; 0; 0]%N, [0; 0; 0; 0]%N.
Qed.

Local Abbreviation twp := (TaskStates.twp (S := Served) (E := NetFailure) serve_event serve_answer).
Definition waits_served (v : Served) (X : Type) (_ : ServeEv X) : Prop := served_inv v.

(** Processing a request neither reads nor writes. *)
Definition silent (v v' : Served) (X : Type) (e : ServeEv X) : Prop :=
  v' = v ∧ match e with NextFrame _ | TryWrite _ => False | _ => True end.

Lemma twp_silent_option {A B} (b : option B) reason (k : B → task ServeEv NetFailure A) v (Q : Served → Result A NetFailure → Prop) :
  Q v (Err (FailReason reason)) → (∀ x, twp (silent v) (k x) Q v) → twp (silent v) (serve_option b reason ≫= k) Q v.
Proof. destruct b; cbn; auto. Qed.

Ltac silent_next :=
  match goal with
  | |- TaskStates.twp _ _ _ (perform _ ≫= _) _ _ => apply twp_perform; [done|intros ? _]
  | |- TaskStates.twp _ _ _ (Ret _ ≫= _) _ _ => apply twp_lift; [done|intros ? _]
  | |- TaskStates.twp _ _ _ (serve_require _ _ ≫= _) _ _ => apply twp_lift; [done|intros ? _]
  | |- TaskStates.twp _ _ _ (serve_option _ _ ≫= _) _ _ => apply twp_silent_option; [done|intros ?]
  end.

Lemma twp_silent_timed {A} (t : task ServeEv NetFailure A) v :
  twp (silent v) t (λ v' _, v' = v) v → twp (silent v) (serve_timed t) (λ v' _, v' = v) v.
Proof. apply twp_guarded. intros v' X e [-> _]. split; [done|]. by intros [] _. Qed.

Lemma twp_admission_dispatch from record v :
  twp (silent v) (admission_dispatch cfg local peer hmac encode_admission from record) (λ v' _, v' = v) v.
Proof. unfold admission_dispatch. by repeat silent_next. Qed.

Lemma twp_management_dispatch from record budget v :
  twp (silent v) (management_dispatch cfg local peer hmac encode_management encode_answer from record budget) (λ v' _, v' = v) v.
Proof.
  unfold management_dispatch. silent_next. apply twp_silent_timed. by repeat silent_next.
Qed.

Lemma twp_processing s buf v : twp (silent v) (processing s buf) (λ v' _, v' = v) v.
Proof.
  unfold processing. do 2 silent_next. destruct x0.
  1: silent_next; apply twp_bind; eapply twp_mono; [apply twp_admission_dispatch|].
  2: do 3 silent_next; apply twp_bind; eapply twp_mono; [apply twp_management_dispatch|].
  1,2: intros ? [] ->; [|done]; by silent_next.
  all: cbn zeta; destruct (classify_config_frame _ _ _ _) as [known gate]; cbn zeta;
    destruct (_ && _); [done|]; destruct (negb _); [done|]; by repeat silent_next.
Qed.

(** ** Writing a response *)

Lemma twp_response_check status v :
  twp (silent v) (response_check local peer status) (λ v' _, v' = v) v.
Proof.
  unfold response_check. destruct status; [done|]. destruct (inbound_replica peer); [|done].
  apply twp_lift; [done|]. intros ? [= <-]. by repeat silent_next.
Qed.

(** A request whose response is known but not written. *)
Definition answering (request body : list N) (v : Served) : Prop :=
  ∃ reads, served_reads v = reads ++ [request] ∧ Forall2 response_to reads (served_frames v) ∧
    served_cut v = [] ∧ responds request body.

Lemma answering_inv request body v : answering request body v → served_inv v.
Proof. intros (reads & ? & ? & ? & _). apply serving_inv. by exists request, reads. Qed.

(** A response is written in whole, or the task fails. *)
Definition write_post {A} (v : Served) (r : Result A NetFailure) : Prop := served_inv v ∧ (is_ok r = true → served_all v).

Lemma twp_write_framed blocked request body frame status v :
  answering request body v → encode_frame body = Ok frame →
  twp waits_served (write_framed_tcp_checked blocked frame (response_check local peer status)) write_post v.
Proof.
  intros Hv Hf. pose proof (answering_inv _ _ _ Hv) as Hinv.
  assert (∀ k : unit → task ServeEv NetFailure unit, twp waits_served (k tt) write_post v →
    twp waits_served (writable ← perform Writable;
        Ret (match writable with Ok _ => Ok tt | Err e => Err (FailIo e) end);;
        response_check local peer status ≫= k) write_post v) as Hchecked.
  { intros k Hk. split; [done|]. intros [[]|e] _; [|done]. apply (twp_lift _ _ _ (Ok tt)); [done|]. intros _ _.
    apply twp_bind, (twp_waits _ _ (silent v)); [|eapply twp_mono; [apply twp_response_check|]].
    - by intros v' X e [-> _].
    - intros ? [[]|e] ->; [done|]. by split. }
  induction blocked as [|blocked IH]; apply Hchecked; [|done].
  split; [done|]. intros [n|e] Hn; [|by split]. cbn [serve_event]. unfold require_complete_frame_write, ensure.
  destruct Hv as (reads & Hr & Hall & Hcut & Hresp). destruct (n =? length frame) eqn:Hlen; cbn.
  - assert (served_all (mkServed (served_reads v) (served_frames v ++ [frame]) (served_cut v))) as Hv.
    { split; [|done]. cbn. rewrite Hr. apply Forall2_app; [done|]. constructor; [by exists body|done]. }
    split; [by apply served_all_inv|done].
  - split; [|by rewrite Hlen]. split; cbn; [exists reads; rewrite Hr; by split; [apply prefix_app_r|]|]. rewrite Hcut. cbn.
    exists body, frame, (drop n frame). rewrite take_drop. split_and!; [done|done|]. intros Hd.
    apply (f_equal length) in Hd. rewrite length_drop in Hd. apply Nat.eqb_neq in Hlen. cbn in Hn, Hd. lia.
Qed.

Lemma twp_write_response blocked safe status elapsed budget request body v :
  answering request body v →
  twp waits_served (write_response_with_budget local peer blocked safe status elapsed budget body)
    (λ v r, served_inv v ∧ (r = Ok WriteAndKeepOpen → served_all v)) v.
Proof.
  intros Hv. pose proof (answering_inv _ _ _ Hv) as Hinv. unfold write_response_with_budget.
  destruct (response_action _ _ _ _); [|by split]. apply twp_bind, twp_outcome.
  apply (twp_mono _ _ _ _ (λ v r, served_inv v ∧ (is_ok r = true → served_all v))).
  - apply twp_guarded.
    { intros v' X e Hw. split; [done|]. by intros [] _. }
    destruct (encode_frame body) as [frame|e] eqn:Hf; [|by split]. by eapply twp_write_framed.
  - intros v' [[]|e] [Hi Hr]; [by split; auto|]. destruct e; by split.
Qed.

Lemma twp_serve_frame blocked s v :
  served_all v →
  twp waits_served (serve_frame blocked s) (λ v r, served_inv v ∧ ∀ s', r = Ok (Some s') → served_all v) v.
Proof.
  intros Hv. pose proof (served_all_inv _ Hv) as Hinv. apply twp_perform; [done|]. intros [buf|e] _; cbn [serve_event]; cbv beta iota.
  2: { destruct e as [e| | | | | | | |]; cbn; [|by split..]. destruct (error_kind e); by split. }
  set (v1 := mkServed _ _ _). assert (serving v1) as Hs.
  { destruct Hv as [Hall Hcut]. by exists buf, (served_reads v). }
  pose proof (serving_inv _ Hs) as Hs1. apply twp_bind, twp_outcome.
  apply (twp_mono _ _ _ _ (λ v' r, v' = v1 ∧ ∀ x, r = Ok (Ok x) → can_return (processing s buf) (Ok x))).
  { apply (twp_waits _ _ (silent v1)); [by intros v' X e [-> _]|]. apply twp_guarded.
    { intros v' X e [-> _]. split; [done|]. by intros [] _. }
    apply twp_outcome. eapply twp_mono; [apply twp_can_return, twp_processing|]. intros v' r [-> Hp]. split; [done|]. by intros x [= ->]. }
  intros v' processed [-> Hp]. destruct processed as [[[s1 [[gate body]|]]|e]|e]; try by split.
  destruct (negb _); [by split|]. apply twp_perform; [done|]. intros elapsed _. cbn [serve_event].
  apply twp_bind. eapply twp_mono; [eapply (twp_write_response _ _ _ _ _ buf)|].
  { destruct Hv as [Hall Hcut]. exists (served_reads v). split_and!; [done..|]. exists s, s1, gate. by apply Hp. }
  intros v2 [[]|e] [Hi Hr]; [|by split..]. destruct (compatible gate); split; try done. intros s' _. by apply Hr.
Qed.

Lemma twp_serve_raft_stream blocked s v :
  served_all v → twp waits_served (serve_raft_stream blocked s) (λ v _, served_inv v) v.
Proof.
  revert s v. induction blocked as [|b blocked IH]; intros s v Hv; cbn [Stream.serve_raft_stream]; [by apply served_all_inv|].
  apply twp_bind. eapply twp_mono; [by apply twp_serve_frame|]. intros v' [[s'|]|e] [Hi Hr]; [|done..]. by apply IH, (Hr s').
Qed.

Definition no_served : Served := mkServed [] [] [].

Lemma serve_raft_stream_inv blocked s h :
  reaches (serve_raft_stream blocked s) h → consistent serve_event serve_answer no_served h →
  served_inv (after serve_event no_served h).
Proof.
  intros Hr Hc. eapply (twp_always _ _ waits_served served_inv); [done| |by apply twp_serve_raft_stream|exact Hr|exact Hc].
  done.
Qed.
End server.

(** ** Both ends *)

(** Reading as many frames as [bodies] has from the written bytes gives these. *)
Definition carries (bytes : list N) (bodies : list (list N)) : Prop :=
  ∃ s, read_frames u32_max (length bodies) (mkStream bytes [] 0) = (Ok bodies, s).

Lemma framed_payloads frames :
  Forall framed frames → ∃ payloads, Forall2 (λ body frame, encode_frame body = Ok frame) payloads frames.
Proof.
  induction 1 as [|frame frames [payload Hp] _ [payloads IH]]; [by exists []|]. exists (payload :: payloads). by constructor.
Qed.

Lemma carries_prefix bodies frames part got :
  Forall2 (λ body frame, encode_frame body = Ok frame) bodies frames → cut_frame part →
  carries (concat frames ++ part) got → got `prefix_of` bodies.
Proof. intros Hf Hp [s Hr]. by eapply read_frames_written. Qed.

Lemma cut_frame_nil : cut_frame [].
Proof. by exists [], [0; 0; 0; 0]%N, [0; 0; 0; 0]%N. Qed.

Lemma prefix_same_length {A} (l k : list A) : l `prefix_of` k → length k <= length l → l = k.
Proof. intros [m ->]. rewrite length_app. destruct m; [by rewrite app_nil_r|cbn; lia]. Qed.

(** Responses written in order, at most one per request, and requests and responses that
    are read in the order they are written, pair the last of both. *)
Lemma responses_pair (R : list N → list N → Prop) payloads frames request frame bodies body reads v :
  Forall2 (λ body frame, encode_frame body = Ok frame) payloads frames → encode_frame request = Ok frame →
  length payloads = length bodies →
  carries (concat (frames ++ [frame])) (served_reads v) → carries (written v) (bodies ++ [body]) →
  reads `prefix_of` served_reads v → cut_frame (served_cut v) →
  Forall2 (λ request frame, ∃ body, R request body ∧ encode_frame body = Ok frame) reads (served_frames v) → R request body.
Proof.
  intros Hp Hf Hlen Hsent Hgot Hreads Hcut Hall. assert (∃ answers, Forall2 R reads answers ∧
    Forall2 (λ body frame, encode_frame body = Ok frame) answers (served_frames v)) as (answers & HR & Ha).
  { clear -Hall. induction Hall as [|q f qs fs (b & Hb & Hf) _ (bs & Hbs & Hfs)]; [by exists []|].
    exists (b :: bs). split; by constructor. }
  assert (served_reads v `prefix_of` payloads ++ [request]) as Hr.
  { eapply (carries_prefix _ (frames ++ [frame]) []); [by apply Forall2_app, Forall2_cons|apply cut_frame_nil|]. by rewrite app_nil_r. }
  assert (bodies ++ [body] `prefix_of` answers) as Hb by by eapply carries_prefix.
  pose proof (prefix_length _ _ Hb) as L1. pose proof (prefix_length _ _ Hr) as L2. pose proof (prefix_length _ _ Hreads) as L3.
  pose proof (Forall2_length _ _ _ HR) as L4. rewrite length_app in L1, L2. cbn in L1, L2.
  assert (reads = payloads ++ [request]) as ->.
  { apply prefix_same_length; [by etrans|]. rewrite length_app. cbn. lia. }
  assert (bodies ++ [body] = answers) as <-.
  { apply prefix_same_length; [done|]. rewrite <- L4, !length_app. cbn. lia. }
  apply Forall2_app_inv in HR as [_ HR]; [|done]. by inversion HR.
Qed.
