(* ===== verification/LinkIdentity.v ===== *)
(** * The boot behind a cached connection (src/raft/network.rs, src/raft/network/reconnect.rs)

    A peer's link remembers the boot that the last handshake authenticated.  Whenever
    there is a cached connection, that boot is the one at its other end, whatever
    requests and reconnects came before and wherever they were dropped; and a request
    writes only to a connection to its own target. *)

From S2P Require Import Prelude Text Io Replica Openraft Admission Types VipLogic State StoreMembership.
From S2P Require Import StateMachine LogStore Config Fingerprint Auth Controller Lease Freshness Request Authorization.
From S2P Require Import Tasks TaskStates Driver Inbound Framing Outbound.
Local Open Scope kaf_scope.

(** The boots that the handshakes of the cached connection and of one being set up
    authenticated, the field [remote_replica], and whether an [InFlightRpcStream] holds
    the slot. *)
Record Ends := mkEnds {
  cached_end : option ReplicaId;
  fresh_end : option ReplicaId;
  remembered : option ReplicaId;
  in_use : bool
}.

Definition no_ends : Ends := mkEnds None None None false.

Section ends.
Context {O : Openraft}.

Definition ends_event (X : Type) (e : NetEv X) : X → Ends → Ends :=
  match e in NetEv X return X → Ends → Ends with
  | Hold => λ _ i, mkEnds (cached_end i) (fresh_end i) (remembered i) true
  | Release retain => λ _ i, mkEnds (if retain then cached_end i else None) None (remembered i) false
  | Unlock => λ _ i, mkEnds (cached_end i) None (remembered i) (in_use i)
  | ClearStream => λ _ i, mkEnds None (fresh_end i) (remembered i) (in_use i)
  | Dial _ => λ _ i, mkEnds (cached_end i) None (remembered i) (in_use i)
  | Handshake _ _ => λ r i, mkEnds (cached_end i)
      (match r with Ok p => peer_replica (authenticated p) | Err _ => None end) (remembered i) (in_use i)
  | StoreLink _ _ remote => λ _ i, mkEnds (cached_end i) (fresh_end i) (Some remote) (in_use i)
  | InstallStream => λ _ i, mkEnds (fresh_end i) None (remembered i) (in_use i)
  | _ => λ _ i, i
  end.

(** The link answers with its own fields. *)
Definition ends_answer (i : Ends) (X : Type) (e : NetEv X) : X → Prop :=
  match e in NetEv X return X → Prop with
  | RemoteReplica => λ x, x = remembered i
  | HasStream => λ x, x = bool_decide (is_Some (cached_end i))
  | _ => λ _, True
  end.

(** A task that is dropped drops an [InFlightRpcStream] without [retain], and a connection
    being set up. *)
Definition ends_dropped (i : Ends) : Ends :=
  mkEnds (if in_use i then None else cached_end i) None (remembered i) false.

(** The remembered boot is that of the cached connection. *)
Definition identified (i : Ends) : Prop := ∀ b, cached_end i = Some b → remembered i = Some b.

(** What a request for [target] waits for: it writes to connections to [target] only. *)
Definition writes_to (target : option ReplicaId) (i : Ends) (X : Type) (e : NetEv X) : Prop :=
  match e with Send Cached _ => cached_end i = target ∧ is_Some target | _ => True end.
Definition waits_identified (target : option ReplicaId) (i : Ends) (X : Type) (e : NetEv X) : Prop :=
  identified i ∧ writes_to target i X e.

Lemma identified_none i : cached_end i = None → identified i.
Proof. intros Hi b Hb. congruence. Qed.

Lemma identified_dropped i : identified i → identified (ends_dropped i).
Proof. intros Hi b. cbn. destruct (in_use i); [done|]. apply Hi. Qed.

Context (cfg : Config) (local : ReplicaId) (fingerprint : ClusterConfigFingerprint).
Context (encode_status : ClusterStatusRequest → option (list N)).
Context (decode_status : list N → option ClusterStatusResponse).
Context (decode_request : list N → option RaftRequest) (decode_identities : list N → Result SnapshotIdentities string).
Context (decode_raft_response : list N → Result RaftResponse string).

Local Abbreviation twp := (twp (S := Ends) (E := NetFailure) ends_event ends_answer).

Section steps.
Context (I : Ends → ∀ X, NetEv X → Prop).

Lemma twp_ends_option {A B} (b : option B) reason (k : B → task NetEv NetFailure A) Q i :
  Q i (Err (FailReason reason)) → (∀ x, b = Some x → twp I (k x) Q i) → twp I (net_option b reason ≫= k) Q i.
Proof. destruct b; cbn; auto. Qed.

Lemma twp_ends_io {A B} (e : NetEv (Result B IoError)) (k : B → task NetEv NetFailure A) Q i :
  I i _ e →
  (∀ r, match r with Ok x => twp I (k x) Q (ends_event _ e r i) | Err e' => Q (ends_event _ e r i) (Err (FailIo e')) end) →
  twp I (net_io e ≫= k) Q i.
Proof. intros He Hk. split; [done|]. intros r _. specialize (Hk r). by destruct r. Qed.

(** An exchange leaves the ends of the connections as they are. *)
Lemma twp_ends_exchange s request max i :
  (∀ frame, I i _ (Send s frame)) → I i _ (Receive s max) → twp I (exchange s request max) (λ i' r, i' = i ∧ is_ok r = true) i.
Proof.
  intros Hs Hr. unfold exchange, send_frame. destruct (encode_frame request) as [frame|e]; [|done].
  split; [apply Hs|]. intros [[]|e] _; [|done]. by split.
Qed.
End steps.

Ltac ends_next tac :=
  match goal with
  | |- TaskStates.twp _ _ _ (perform _ ≫= _) _ _ => apply twp_perform; [tac|intros ? _]
  | |- TaskStates.twp _ _ _ (Ret _ ≫= _) _ _ => apply twp_lift; [intros ? _; tac|intros ? _]
  | |- TaskStates.twp _ _ _ (net_require _ _ ≫= _) _ _ => apply twp_lift; [intros ? _; tac|intros ? _]
  | |- TaskStates.twp _ _ _ (net_option _ _ ≫= _) _ _ => apply twp_ends_option; [tac|intros ? _]
  | |- TaskStates.twp _ _ _ (attempt_ev _ ≫= _) _ _ => apply twp_attempt; [tac|intros [?|?] _; [|tac]]
  | |- TaskStates.twp _ _ _ (net_io _ ≫= _) _ _ => apply twp_ends_io; [tac|intros [?|?]; [|tac]]
  | |- TaskStates.twp _ _ _ ((_ ≫= _) ≫= _) _ _ => apply twp_bind
  end.

(** ** Connecting *)

(** A connection is set up while there is no cached one.  It is to the boot of its
    handshake, which the link remembers once it is ready. *)
Definition waits_unconnected (i : Ends) (X : Type) (e : NetEv X) : Prop :=
  cached_end i = None ∧ match e with Send Cached _ => False | _ => True end.
Definition connected_post {A} (boot : A → Ends → option ReplicaId) (i : Ends) (r : Result A NetFailure) : Prop :=
  cached_end i = None ∧ ∀ x, r = Ok x → fresh_end i = boot x i.

Lemma waits_unconnected_identified target i X (e : NetEv X) : waits_unconnected i X e → waits_identified target i X e.
Proof. intros [Hi He]. split; [by apply identified_none|]. destruct e; try done. by destruct s. Qed.

Lemma twp_ends_preflight address epoch advertises enforced i :
  cached_end i = None →
  twp waits_unconnected (connect_with_preflight cfg local fingerprint encode_status decode_status address epoch advertises enforced)
    (connected_post (λ x _, Some x.2)) i.
Proof.
  intros Hi. apply twp_guarded.
  { intros i' X e [Hn _]. split; [done|]. by intros [] _. }
  do 2 ends_next done. unfold write_replica_handshake. do 2 ends_next done.
  destruct (peer_replica _) as [remote|] eqn:Hr; [|done]. cbn [twp].
  do 2 ends_next done. unfold exchange_or_fail. ends_next done. apply twp_bind.
  eapply twp_mono; [by apply twp_ends_exchange|]. intros i' [[body|e]|e] [-> Hok]; [|done..]. cbn [twp].
  repeat ends_next done. split; [done|]. intros ? [= <-]. cbn. by rewrite Hr.
Qed.

Lemma twp_ends_connect address i :
  cached_end i = None →
  twp waits_unconnected (connect_peer_stream cfg local fingerprint encode_status decode_status address)
    (connected_post (λ _, remembered)) i.
Proof.
  intros Hi. unfold connect_peer_stream, connect_with_handshake. ends_next done. cbv zeta. ends_next done.
  apply twp_bind. eapply twp_mono; [by apply twp_ends_preflight|]. intros i1 [r|e] [Hn Hf]; [|done].
  cbn [twp]. do 2 ends_next done. split; [done|]. intros [] _. split; [done|]. intros ? [= <-]. by apply Hf.
Qed.

Lemma twp_ends_connect_to target address i :
  cached_end i = None →
  twp (waits_identified target) (connect_peer_stream cfg local fingerprint encode_status decode_status address)
    (connected_post (λ _, remembered)) i.
Proof. intros Hi. eapply twp_waits; [|by apply twp_ends_connect]. intros i' X e. apply waits_unconnected_identified. Qed.

Lemma identified_installed i r :
  connected_post (λ _ : unit, remembered) i (Ok r) → identified (ends_event _ InstallStream tt i).
Proof. intros [_ Hf] b Hb. cbn in *. by rewrite <- (Hf r eq_refl). Qed.

(** ** Requests *)

Section requests.
Context {A : Type} (target : ReplicaId) (decode : list N → option A) (request : list N).
Local Abbreviation twp_to := (twp (waits_identified (Some target))).
Local Abbreviation rpc_pass := (rpc_pass cfg local decode_request decode_identities decode_raft_response target decode request).
Local Abbreviation rpc_loop := (rpc_loop cfg local fingerprint encode_status decode_status decode_request
  decode_identities decode_raft_response).

Definition ends_post (i : Ends) (r : Result A NetFailure) : Prop :=
  identified i ∧ (is_ok r = true → cached_end i = Some target).

Lemma twp_ends_accept body i :
  identified i → cached_end i = Some target →
  twp_to (accept_response local decode_raft_response target decode body) ends_post i.
Proof. intros Hi Hto. unfold accept_response. repeat ends_next done. by destruct (decode body). Qed.

(** A pass compares the remembered boot with its target before it writes. *)
Lemma twp_ends_pass again i :
  identified i → match again with Some t => ∀ i', identified i' → twp_to t ends_post i' | None => True end →
  twp_to (rpc_pass again) ends_post i.
Proof.
  intros Hi Hagain. unfold rpc_pass, validate_rpc. do 3 ends_next done.
  apply twp_perform; [done|]. intros remote Hremote. cbn in Hremote. subst remote.
  apply twp_lift; [done|]. intros [] Hr%ensure_ok. apply bool_decide_eq_true in Hr. cbn in Hr.
  repeat ends_next done. destruct (net_refused _) as [[]|]; [|done]. apply twp_perform; [done|]. intros cached ->. cbn [ends_event].
  destruct (bool_decide_reflect (is_Some (cached_end i))) as [[boot Hb]|]; [|done].
  assert (cached_end i = Some target) as Hto by (rewrite Hb, <- Hr; symmetry; by apply Hi).
  apply (twp_lift _ _ _ (Ok tt)); [done|]. intros _ _. repeat ends_next done.
  apply twp_bind. eapply twp_mono; [apply twp_ends_exchange; [by split|done]|].
  intros i' [[body|e]|e] [-> Hok]; [by apply twp_ends_accept| |done].
  destruct again as [t|]; [|done]. destruct (is_disconnect e); [by apply Hagain|done].
Qed.

Lemma twp_ends_loop address i : identified i → twp_to (rpc_loop address target decode request) ends_post i.
Proof.
  intros Hi. apply twp_ends_pass; [done|]. intros i' Hi'. ends_next done. apply twp_bind.
  eapply twp_mono; [by apply twp_ends_connect_to|]. intros i1 [r|e] Hc; [|split; [by apply identified_none, Hc|done]].
  apply twp_perform; [split; [by apply identified_none, Hc|done]|]. intros [] _.
  apply twp_ends_pass; [by eapply identified_installed|done].
Qed.

Lemma twp_ends_in_flight address i : identified i → twp_to (in_flight (rpc_loop address target decode request)) ends_post i.
Proof.
  intros Hi. unfold in_flight. ends_next done. apply twp_bind, twp_outcome.
  eapply twp_mono; [by apply twp_ends_loop|]. intros i' r [Hi' Hto]. ends_next done.
  split; [intros b|]; cbn; by destruct r; auto.
Qed.

Lemma twp_ends_send_rpc i :
  identified i →
  twp_to (send_rpc cfg local fingerprint encode_status decode_status decode_request decode_identities decode_raft_response
            target decode request) ends_post i.
Proof.
  intros Hi. unfold send_rpc. destruct (negb _); [done|]. destruct (find _ _) as [link|]; [|done].
  do 3 ends_next done. apply twp_bind.
  eapply twp_mono with (Q := λ i _, identified i); [destruct (_ || _); [split; [done|]; by intros [] _; apply identified_none|done]|].
  intros i' [[]|e] Hi'; [|done]. apply twp_perform; [done|]. intros [r|] _; [|by apply twp_ends_in_flight].
  destruct (bool_decide _); [by apply twp_ends_in_flight|]. ends_next done. by split.
Qed.
End requests.

(** ** Operations of a link *)

Local Abbreviation send_rpc := (send_rpc cfg local fingerprint encode_status decode_status decode_request
  decode_identities decode_raft_response).
Local Abbreviation reconnect_round := (reconnect_round cfg local fingerprint encode_status decode_status).
Local Abbreviation reconnecting address := (connection ← outcome (connect_peer_stream cfg local fingerprint encode_status decode_status address);
  (if is_ok connection then perform InstallStream else Ret (Ok tt));; perform Unlock).

Lemma twp_ends_reconnecting address i :
  cached_end i = None → twp (waits_identified None) (reconnecting address) (λ i _, identified i) i.
Proof.
  intros Hi. apply twp_bind, twp_outcome. eapply twp_mono; [by apply twp_ends_connect_to|].
  intros i1 [r|e] Hc; cbn -[ends_event]; (split; [split; [by apply identified_none, Hc|done]|]).
  - intros [] _. apply identified_installed in Hc. by split.
  - intros [] _. apply identified_none, Hc.
Qed.

Lemma twp_ends_reconnect_round address i :
  identified i → twp (waits_identified None) (reconnect_round address) (λ i _, identified i) i.
Proof.
  intros Hi. unfold reconnect_round, reconnect_decision. do 2 ends_next done. apply twp_bind.
  apply twp_perform; [done|]. intros cached Hcached. cbn in Hcached. destruct cached; cbn [negb].
  - do 1 ends_next done. destruct (_ || _); cbn [twp].
    + split; [done|]. intros [] _. by apply twp_ends_reconnecting.
    + split; [done|]. intros [] _; cbn [twp]; (split; [done|]); intros [] _; [exact Hi|]. by apply twp_ends_reconnecting.
  - symmetry in Hcached. apply bool_decide_eq_false, eq_None_not_Some in Hcached. by apply twp_ends_reconnecting.
Qed.

(** The ends of a peer's link after its requests and reconnects one after the other, as the
    lock orders them, each complete or dropped while it waits for an event. *)
Inductive ends_reachable : Ends → Prop :=
| ends_start : ends_reachable no_ends
| ends_rpc {A} i target (decode : list N → option A) request h r :
    ends_reachable i → runs (send_rpc target decode request) h r → consistent ends_event ends_answer i h →
    ends_reachable (after ends_event i h)
| ends_rpc_dropped {A} i target (decode : list N → option A) request h X (e : NetEv X) x :
    ends_reachable i → reaches (send_rpc target decode request) (h ++ [did e x]) → consistent ends_event ends_answer i h →
    ends_reachable (ends_dropped (after ends_event i h))
| ends_reconnect i address h r :
    ends_reachable i → runs (reconnect_round address) h r → consistent ends_event ends_answer i h →
    ends_reachable (after ends_event i h)
| ends_reconnect_dropped i address h X (e : NetEv X) x :
    ends_reachable i → reaches (reconnect_round address) (h ++ [did e x]) → consistent ends_event ends_answer i h →
    ends_reachable (ends_dropped (after ends_event i h)).

Lemma ends_reachable_identified i : ends_reachable i → identified i.
Proof.
  induction 1 as [|A i target decode request h r _ IH Hr Hc|A i target decode request h X e x _ IH Hr Hc
    |i address h r _ IH Hr Hc|i address h X e x _ IH Hr Hc].
  - done.
  - by apply (twp_runs _ _ _ _ _ _ _ _ (twp_ends_send_rpc target decode request i IH) Hr Hc).
  - apply identified_dropped. by destruct (twp_reaches _ _ _ _ _ _ _ _ _ _ (twp_ends_send_rpc target decode request i IH) Hr Hc).
  - by apply (twp_runs _ _ _ _ _ _ _ _ (twp_ends_reconnect_round address i IH) Hr Hc).
  - apply identified_dropped. by destruct (twp_reaches _ _ _ _ _ _ _ _ _ _ (twp_ends_reconnect_round address i IH) Hr Hc).
Qed.

(** A request writes only to a connection whose handshake authenticated its target, and
    one that succeeds leaves such a connection. *)
Lemma writes_to_target {A} i target (decode : list N → option A) request h frame x :
  ends_reachable i → reaches (send_rpc target decode request) (h ++ [did (Send Cached frame) x]) →
  consistent ends_event ends_answer i h → cached_end (after ends_event i h) = Some target.
Proof.
  intros Hi%ends_reachable_identified Hr Hc.
  by destruct (twp_reaches _ _ _ _ _ _ _ _ _ _ (twp_ends_send_rpc target decode request i Hi) Hr Hc) as [_ [Ht _]].
Qed.

Lemma answered_by_target {A} i target (decode : list N → option A) request h a :
  ends_reachable i → runs (send_rpc target decode request) h (Ok a) → consistent ends_event ends_answer i h →
  cached_end (after ends_event i h) = Some target.
Proof.
  intros Hi%ends_reachable_identified Hr Hc.
  by apply (twp_runs _ _ _ _ _ _ _ _ (twp_ends_send_rpc target decode request i Hi) Hr Hc).
Qed.
End ends.
