(* ===== verification/TransportTheorems.v ===== *)
(** * The requests of a link

    What a request that succeeds has gone through, and that its result is the
    response of the server to this request. *)

From S2P Require Import Prelude Text Io Replica Openraft Admission Types VipLogic State StoreMembership.
From S2P Require Import StateMachine LogStore Config Fingerprint Auth Controller Lease Freshness Request Authorization.
From S2P Require Import Tasks TaskStates Driver Inbound InboundTheorems Framing Outbound Stream Transport LinkIdentity.
Local Open Scope kaf_scope.

(** ** What a request goes through *)

Section requests.
Context {O : Openraft} (cfg : Config) (local : ReplicaId) (fingerprint : ClusterConfigFingerprint).
Context (encode_status : ClusterStatusRequest → option (list N)).
Context (decode_status : list N → option ClusterStatusResponse).
Context (decode_request : list N → option RaftRequest) (decode_identities : list N → Result SnapshotIdentities string).
Context (decode_raft_response : list N → Result RaftResponse string).
Context {A : Type} (target : ReplicaId) (decode : list N → option A) (request : list N).

(** The driver has authorized the peer, under an admission that was in force. *)
Definition authorized (h : list (answered NetEv)) (a : RaftAuthorization) : Prop :=
  ∃ now, did (AuthorizeRaft target) (Ok a) ∈ h ∧ did NetClock now ∈ h ∧ auth_check a local target now = Ok tt.

(** Events that neither use nor exchange the cached connection. *)
Definition leaves_connection (a : answered NetEv) : Prop :=
  match (projT2 a).1 with
  | Send Cached _ | Receive Cached _ | ClearStream | InstallStream | Hold | Release _ => False
  | _ => True
  end.

(** The pass of the loop that is about to write has made all its checks on the connection
    as it is: the boot of the link is the one that is meant, and the driver has
    authorized it and the request under an admission that is in force. *)
Definition may_send (h : list (answered NetEv)) (frame : list N) : Prop :=
  encode_frame request = Ok frame ∧
  ∃ before pass a r checked now first last live deadline,
    h = before ++ did (AuthorizeRaft target) (Ok a) :: pass ∧ Forall leaves_connection pass ∧
    did RemoteReplica (Some target) ∈ pass ∧ did HasStream true ∈ pass ∧
    Forall (λ t, did NetClock t ∈ pass) [checked; now; first; last; live] ∧
    auth_check a local target checked = Ok tt ∧
    decode_request request = Some r ∧ validate_request decode_identities a local r now first last = Ok tt ∧
    session_check (session a) live = Ok deadline.

(** The response is of this connection, and one the peer may give. *)
Definition may_accept (h : list (answered NetEv)) (x : A) : Prop :=
  ∃ h1 h2 body a now, h = h1 ++ did (Receive Cached (max_frame_bytes cfg)) (Ok body) :: h2 ∧ authorized h2 a ∧ did NetClock now ∈ h2 ∧
    validate_response decode_raft_response a body now = Ok tt ∧ decode body = Some x.

Definition sends (h : list (answered NetEv)) X (e : NetEv X) : Prop :=
  match e with Send Cached frame => may_send h frame | _ => True end.
Definition accepts (h : list (answered NetEv)) (r : Result A NetFailure) : Prop :=
  match r with Ok x => may_accept h x | Err _ => True end.

Local Abbreviation safe := (safe (E := NetFailure) (λ _ _ _, True) sends).

(** Setting up a connection writes nothing to the cached one. *)
Definition spares (_ : list (answered NetEv)) X (e : NetEv X) : Prop := match e with Send Cached _ => False | _ => True end.
Local Abbreviation quiet := (quiet (E := NetFailure) (λ _ _ _, True) spares).

Lemma safe_spares {B} (t : task NetEv NetFailure B) Q h : Tasks.safe (λ _ _ _, True) spares Q h t → safe Q h t.
Proof.
  revert h. induction t as [r|X e k IH]; intros h; cbn; [done|]. intros [He Hk].
  split; [destruct e; try done; by destruct s|]. auto.
Qed.

Lemma safe_net_option {B C} (c : option C) reason (k : C → task NetEv NetFailure B) Q h :
  (∀ e, Q h (Err e)) → (∀ x, c = Some x → safe Q h (k x)) → safe Q h (net_option c reason ≫= k).
Proof. destruct c; cbn; auto. Qed.

Ltac quiet :=
  repeat first
    [ progress intros | done
    | apply quiet_guarded; [by intros ? ? ?|..]
    | apply quiet_outcome | apply quiet_bind | apply quiet_ret
    | apply quiet_do; [done|]
    | case_match ].

Lemma quiet_connect address :
  quiet _ (connect_peer_stream cfg local fingerprint encode_status decode_status address).
Proof.
  unfold connect_peer_stream, connect_with_handshake, connect_with_preflight, write_replica_handshake, exchange_or_fail,
    exchange, send_frame, net_option. quiet.
Qed.

Lemma safe_accept body h :
  safe accepts (h ++ [did (Receive Cached (max_frame_bytes cfg)) (Ok body)])
    (accept_response local decode_raft_response target decode body).
Proof.
  unfold accept_response. apply safe_perform; [done|]. intros a0 _. apply safe_lift; [done|]. intros a ->%net_denied_ok.
  apply safe_perform; [done|]. intros now _. apply safe_lift; [done|]. intros [] Hc%net_refused_ok.
  apply safe_perform; [done|]. intros now' _. apply safe_lift; [done|]. intros [] Hv%net_refused_ok.
  destruct (decode body) as [x|] eqn:Hd; [|done]. cbn. eexists h, _, body, a, now'.
  split_and!; [by rewrite <- !app_assoc| | |done|done]; [exists now; split_and!; [| |done]|]; rewrite ?elem_of_app, ?elem_of_cons; auto 10.
Qed.

Lemma safe_exchange max h :
  (∀ frame, encode_frame request = Ok frame → may_send h frame) →
  safe (λ h r, match r with Ok (Ok body) => ∃ h', h = h' ++ [did (Receive Cached max) (Ok body)] | _ => True end) h
    (exchange Cached request max).
Proof.
  intros Hs. unfold exchange, send_frame. destruct (encode_frame request) as [frame|e]; [|done].
  apply safe_perform; [by apply Hs|]. intros [[]|e] _; [|done]. split; [done|]. intros [body|e] _; [|done]. by eexists.
Qed.

Lemma safe_rpc_pass again h :
  match again with Some t => ∀ h', safe accepts h' t | None => True end →
  safe accepts h (rpc_pass cfg local decode_request decode_identities decode_raft_response target decode request again).
Proof.
  intros Hagain. unfold rpc_pass, validate_rpc. apply safe_perform; [done|]. intros a0 _. apply safe_lift; [done|]. intros a ->%net_denied_ok.
  apply safe_bind. apply safe_perform; [done|]. intros remote _. apply safe_lift; [done|]. intros [] Hremote.
  apply safe_perform; [done|]. intros now _. apply safe_lift; [done|]. intros [] Hc%net_refused_ok.
  apply safe_perform; [done|]. intros now' _. apply safe_perform; [done|]. intros first _.
  apply safe_perform; [done|]. intros last _. apply safe_net_option; [done|]. intros r Hr.
  destruct (net_refused _) as [[]|] eqn:Hv; [|done]. apply net_refused_ok in Hv. apply safe_perform; [done|]. intros [] _.
  2: done. apply (safe_lift _ _ _ (Ok tt)); [done|]. intros _ _. apply safe_perform; [done|]. intros now'' _. apply safe_lift; [done|].
  intros deadline Hlive%net_denied_ok. apply safe_bind. eapply safe_mono; [apply safe_exchange|].
  - intros frame Hf. split; [done|]. apply ensure_ok in Hremote. apply bool_decide_eq_true in Hremote as ->.
    rewrite <- !app_assoc. cbn [app]. eexists h, _, a, r, now, now', first, last, now'', deadline. split; [reflexivity|].
    split; [by repeat constructor|].
    rewrite !Forall_cons, !elem_of_cons. split_and!; auto 20; by constructor.
  - intros h' [[body|e]|e] Hb; [destruct Hb as [h1 ->]; apply safe_accept| |done]. destruct again as [t|]; [|done].
    by destruct (is_disconnect e).
Qed.

Lemma safe_send_rpc h :
  safe accepts h (send_rpc cfg local fingerprint encode_status decode_status decode_request decode_identities
                    decode_raft_response target decode request).
Proof.
  unfold send_rpc. destruct (negb _); [done|]. destruct (find _ _) as [link|]; [|done].
  apply safe_perform; [done|]. intros [] _. apply safe_perform; [done|]. intros policy _. apply safe_perform; [done|]. intros flags _.
  assert (∀ h, safe accepts h (in_flight (rpc_loop cfg local fingerprint encode_status decode_status decode_request
    decode_identities decode_raft_response (raft_address link) target decode request))) as Hrpc.
  { clear h. intros h. apply safe_perform; [done|]. intros [] _. apply safe_bind, safe_outcome.
    eapply safe_mono; [apply safe_rpc_pass|].
    - intros h'. apply safe_perform; [done|]. intros [] _. apply safe_bind. eapply safe_mono; [apply safe_spares, quiet_connect|].
      intros h2 [[]|e] _; [|done]. apply safe_perform; [done|]. intros [] _. by apply safe_rpc_pass.
    - intros h' r Hr. apply safe_perform; [done|]. intros [] _. destruct r as [x|]; [|done]. cbn in *.
      destruct Hr as (h1 & h2 & body & a & now & -> & (n & H2 & H3 & H4) & H5 & H6 & H7). eexists h1, _, body, a, now.
      split_and!; [by rewrite <- app_assoc| | |done|done]; [exists n; split_and!; [| |done]|]; rewrite ?elem_of_app; auto. }
  apply safe_bind. eapply (safe_mono _ _ _ _ (λ _ r, r = Ok tt)); [destruct (_ || _); [split; [done|by intros [] _]|done]|].
  intros h' r ->. apply safe_perform; [done|]. intros [r|] _; [|apply Hrpc]. destruct (bool_decide _); [apply Hrpc|].
  apply safe_perform; [done|]. by intros [] _.
Qed.
End requests.

(** C19: what passes the network is authorized.  At every await of a request, and
    however the environment has answered before: the frame a request writes to the
    cached connection is its own, and since that connection was installed or last used
    the driver has authorized the target and the request under an admission in force.  A
    response is accepted only if it was read from the cached connection and passes the
    checks of an authorization that the driver gave after it was read.  And in every
    state that earlier requests and reconnects, complete or dropped half-way, can leave
    a link in, the connection a request writes to, on the first attempt and on the retry,
    and the one its response came from, is the one whose handshake authenticated the
    boot the request is meant for. *)
Theorem rpc_is_authorized {O : Openraft} cfg local fingerprint encode_status decode_status decode_request
    decode_identities decode_raft_response {A} target (decode : list N → option A) request h :
  let rpc := send_rpc cfg local fingerprint encode_status decode_status decode_request decode_identities
      decode_raft_response target decode request in
  (∀ frame x, reaches rpc (h ++ [did (Send Cached frame) x]) →
    may_send local decode_request decode_identities target request h frame) ∧
  (∀ a, runs rpc h (Ok a) → may_accept cfg local decode_raft_response target decode h a) ∧
  (∀ i, ends_reachable cfg local fingerprint encode_status decode_status decode_request decode_identities
      decode_raft_response i →
    consistent ends_event ends_answer i h →
    (∃ frame x, reaches rpc (h ++ [did (Send Cached frame) x])) ∨ (∃ a, runs rpc h (Ok a)) →
    cached_end (after ends_event i h) = Some target).
Proof.
  intros rpc. split_and!.
  - intros frame x Hr. change (sends local decode_request decode_identities target request ([] ++ h) _ (Send Cached frame)).
    eapply safe_reaches; [apply safe_send_rpc|exact Hr|by apply Forall_true].
  - intros a Hr. change (accepts cfg local decode_raft_response target decode ([] ++ h) (Ok a)).
    eapply safe_runs; [apply safe_send_rpc|exact Hr|by apply Forall_true].
  - intros i Hi Hc [(frame & x & Hr)|(a & Hr)]; [by eapply writes_to_target|by eapply answered_by_target].
Qed.

(** C8: a request gets its own response.  Take any state of a peer's link that earlier
    requests, answered, failed or dropped half-way, and reconnects can leave, and a
    request on it that returns [a].  Then [a] is the decoding of a body that the server
    of the connection made for this very request: the server processes the frames it
    reads in order, writes at most one response to each and never continues a frame cut
    short, and a request that did not get its whole response does not leave its
    connection to the next. *)
Theorem rpc_gets_own_response {O : Openraft} cfg local fingerprint encode_status decode_status decode_request
    decode_identities decode_raft_response {A} l target (decode : list N → option A) request h a
    server_cfg server server_fingerprint peer hmac encode_admission encode_management encode_answer
    server_decode encode_grant encode_answer_body blocked s hs :
  let link := after link_event l h in
  let served := after serve_event no_served hs in
  link_reachable cfg local fingerprint encode_status decode_status decode_request decode_identities decode_raft_response l →
  runs (send_rpc cfg local fingerprint encode_status decode_status decode_request decode_identities decode_raft_response
          target decode request) h (Ok a) →
  consistent link_event link_answer l h →
  reaches (serve_raft_stream server_cfg server server_fingerprint peer hmac encode_admission encode_management encode_answer
             server_decode encode_grant encode_answer_body blocked s) hs →
  consistent serve_event serve_answer no_served hs →
  (∀ c, slot link = Some c → carries (concat (sent c)) (served_reads served) ∧ carries (written served) (received c)) →
  ∃ body, decode body = Some a ∧
    responds server_cfg server server_fingerprint peer hmac encode_admission encode_management encode_answer
      server_decode encode_grant encode_answer_body request body.
Proof.
  intros link served Hl Hr Hc Hs Hsc Hcarry.
  destruct (send_rpc_exchanged _ _ _ _ _ _ _ _ _ _ _ _ _ _ Hl Hr Hc) as (c & body & Hslot & Hx & Hd).
  exists body. split; [done|]. destruct (Hcarry c Hslot) as [Hsent Hgot].
  destruct Hx as (frame & frames & bodies & Hf & -> & Hlen & Hall). destruct (framed_payloads _ Hall) as [payloads Hp].
  destruct (serve_raft_stream_inv _ _ _ _ _ _ _ _ _ _ _ _ _ _ Hs Hsc) as [(reads & Hpre & Hresp) Hcut].
  eapply (responses_pair _ payloads frames request frame bodies body reads served); try done.
  by rewrite (Forall2_length _ _ _ Hp).
Qed.

(** ** An example: member 1 asks member 2 for its vote *)

Module Voting.
Local Open Scope N_scope.
Import Follower.

Definition caller : ReplicaId := member 1.
Definition voter : ReplicaId := member 2.
Definition vote_request : RaftRequest (O := model_openraft) := RaftVote (mkVoteRequest (O := model_openraft) 1 None).
Definition vote_bytes : list N := [9].
Definition vote_reply : list N := [8].
Definition status_bytes : list N := [1].
Definition status_reply : list N := [2].

(** The encodings of the example. *)
Definition encode_status (_ : ClusterStatusRequest) : option (list N) := Some status_bytes.
Definition status : ClusterStatusResponse := mkClusterStatusResponse None true true None 3 (Some 7) true None true false.
Definition decode_status (_ : list N) : option ClusterStatusResponse := Some status.
Definition decode_request (bytes : list N) : option (RaftRequest (O := model_openraft)) :=
  Some (if bool_decide (bytes = vote_bytes) then vote_request
        else RaftStatus (mkClusterStatusRequest 1 (Some fingerprint) true)).
Definition decode_response (_ : list N) : Result (RaftResponse (O := model_openraft)) string :=
  Ok (VotedResponse (mkVoteResponse (O := model_openraft) 1 true None)).
Definition decode (bytes : list N) : option (list N) := Some bytes.
Definition policy : Policy := mkPolicy (Some 7) Legacy false.

Definition authorization : Result (RaftAuthorization (O := model_openraft)) AdmissionDenied :=
  authorize_raft Demo.sock_parse tag driver store voter 10 10.
(** The voter's authorization, in its own admission. *)
Definition voter_context : AdmissionContext := mkAdmissionContext voter gen.
Definition voter_authority : RuntimeAuthority :=
  mkRuntimeAuthority voter (Active (identity tag (mkRuntimeAuthority voter Sealed None) voter_context) Lease.Voting 1000) None.
Definition as_voter (a : RaftAuthorization (O := model_openraft)) : RaftAuthorization (O := model_openraft) :=
  a <| session := mkAdmissionSession voter_context (fence_of tag voter_authority) |> <| auth_peer := caller |>.
Definition voter_authorization : Result (RaftAuthorization (O := model_openraft)) AdmissionDenied :=
  (λ r, match r with Ok a => Ok (as_voter a) | Err e => Err e end) authorization.

Definition client_answer (l : Link) (X : Type) (e : NetEv (O := model_openraft) X) : X :=
  match e in NetEv X return X with
  | Lock | Unlock | Hold | Release _ | StoreLink _ _ _ | ClearStream | InstallStream => tt
  | ReadPolicy => policy
  | LinkFlags => (true, true)
  | RemoteReplica => Some voter
  | HasStream => bool_decide (is_Some (slot l))
  | StreamUsable => true
  | Dial _ => Ok tt
  | Handshake _ _ => Ok (mkAuthenticatedPeer (for_replica voter (Some 7) true) [])
  | Send _ _ => Ok tt
  | Receive Fresh _ => Ok status_reply
  | Receive Cached _ => Ok vote_reply
  | AuthorizeRaft _ => authorization
  | NetClock => 10
  | NetTimer => false
  | Challenge => None
  end.

(** The same answers for the ends of the link. *)
Definition ends_client (i : Ends) (X : Type) (e : NetEv (O := model_openraft) X) : X :=
  match e in NetEv X return X with
  | RemoteReplica => remembered i
  | HasStream => bool_decide (is_Some (cached_end i))
  | e => client_answer no_link _ e
  end.

Definition server_answer (v : Served) (X : Type) (e : ServeEv (O := model_openraft) X) : X :=
  match e in ServeEv X return X with
  | NextFrame _ => match served_reads v with [] => Ok status_bytes | _ => Ok vote_bytes end
  | ServePolicy => policy
  | ServeElapsed => 0
  | ToController _ _ _ => Err (mkAdmissionDenied "")
  | ToManager _ _ _ => Err FailUnreachable
  | Dispatch _ _ request => Ok (match request with RaftStatus _ => status_reply | _ => vote_reply end)
  | ServeAuthorize _ => voter_authorization
  | ServeClock => 10
  | ServeTimer => false
  | Writable => Ok tt
  | TryWrite frame => Ok (length frame)
  end.

Definition address : Text := [167772162; 7000].
Definition connecting := replay link_event client_answer no_link
  (reconnect_round Demo.cfg caller fingerprint encode_status decode_status address).
Definition linked : Link := after link_event no_link connecting.1.
Definition voting := replay link_event client_answer linked
  (send_rpc Demo.cfg caller fingerprint encode_status decode_status decode_request no_snapshot decode_response
     voter decode vote_bytes).

Definition inbound : InboundPeer := mkInboundPeer [] (Some caller) 1 (Some 7) true.
Definition serving := replay serve_event server_answer no_served
  (serve_raft_stream Demo.cfg voter fingerprint inbound (λ _, None) (λ _, None) (λ _, None) (λ _, None) decode_request
     (λ _, None) (λ _, None) [0; 0]%nat (mkServeState None false)).

Definition conn : Conn := mkConn [[0; 0; 0; 1; 1]; [0; 0; 0; 1; 9]] [status_reply; vote_reply] false.

(** The run of the request up to its write, on the ends of the link. *)
Definition ends_connecting := replay ends_event ends_client no_ends
  (reconnect_round Demo.cfg caller fingerprint encode_status decode_status address).
Definition ends_linked : Ends := after ends_event no_ends ends_connecting.1.
Definition ends_voting := replay ends_event ends_client ends_linked
  (send_rpc Demo.cfg caller fingerprint encode_status decode_status decode_request no_snapshot decode_response
     voter decode vote_bytes).
Definition vote_frame : list N := [0; 0; 0; 1; 9].

Lemma vote_written : ends_voting.1 !! 13%nat = Some (did (Send Cached vote_frame) (Ok tt)).
Proof. vm_cast_no_check (eq_refl (Some (did (Send (O := model_openraft) Cached vote_frame) (Ok tt)))). Qed.
Lemma ends_client_consistent i X (e : NetEv (O := model_openraft) X) : ends_answer i X e (ends_client i X e).
Proof. by destruct e. Qed.
Lemma vote_reaches :
  reaches (send_rpc Demo.cfg caller fingerprint encode_status decode_status decode_request no_snapshot decode_response
             voter decode vote_bytes) (take 13 ends_voting.1 ++ [did (Send Cached vote_frame) (Ok tt)]).
Proof. rewrite <- (take_S_r _ _ _ vote_written). eapply reaches_take, runs_reaches, replay_runs. Qed.

Lemma voted : voting.2 = Ok vote_reply.
Proof. vm_cast_no_check (@eq_refl (Result (list N) NetFailure) (Ok vote_reply)). Qed.
Lemma voting_runs :
  runs (send_rpc Demo.cfg caller fingerprint encode_status decode_status decode_request no_snapshot decode_response
          voter decode vote_bytes) voting.1 (Ok vote_reply).
Proof.
  rewrite <- voted. exact (replay_runs link_event client_answer linked
    (send_rpc Demo.cfg caller fingerprint encode_status decode_status decode_request no_snapshot decode_response voter decode vote_bytes)).
Qed.
Lemma voted_link : slot (after link_event linked voting.1) = Some conn.
Proof. vm_cast_no_check (eq_refl (Some conn)). Qed.
Lemma served_vote :
  after serve_event no_served serving.1 = mkServed [status_bytes; vote_bytes] [[0; 0; 0; 1; 2]; [0; 0; 0; 1; 8]] [].
Proof. vm_cast_no_check (eq_refl (mkServed [status_bytes; vote_bytes] [[0; 0; 0; 1; 2]; [0; 0; 0; 1; 8]] [])). Qed.
End Voting.

Lemma rpc_gets_own_response_witness :
  ∃ body, Voting.decode body = Some Voting.vote_reply ∧
    responds Demo.cfg Voting.voter Follower.fingerprint Voting.inbound (λ _, None) (λ _, None) (λ _, None) (λ _, None)
      Voting.decode_request (λ _, None) (λ _, None) Voting.vote_bytes body.
Proof.
  apply (rpc_gets_own_response Demo.cfg Voting.caller Follower.fingerprint Voting.encode_status Voting.decode_status
    Voting.decode_request Follower.no_snapshot Voting.decode_response Voting.linked Voting.voter Voting.decode Voting.vote_bytes
    Voting.voting.1 Voting.vote_reply Demo.cfg Voting.voter Follower.fingerprint Voting.inbound (λ _, None) (λ _, None)
    (λ _, None) (λ _, None) Voting.decode_request (λ _, None) (λ _, None) [0; 0] (mkServeState None false) Voting.serving.1).
  - eapply (link_reconnect _ _ _ _ _ _ _ _ no_link Voting.address); [constructor|apply replay_runs|].
    apply replay_consistent. by intros ? ? [].
  - exact Voting.voting_runs.
  - apply replay_consistent. by intros ? ? [].
  - eapply runs_reaches, replay_runs.
  - apply replay_consistent. intros ? ? []; cbn; done.
  - intros c. rewrite Voting.voted_link, Voting.served_vote. intros [= <-].
    split; eexists; vm_compute; reflexivity.
Defined.

Lemma rpc_is_authorized_witness :
  may_accept Demo.cfg Voting.caller Voting.decode_response Voting.voter Voting.decode Voting.voting.1 Voting.vote_reply ∧
  cached_end (after ends_event Voting.ends_linked (take 13 Voting.ends_voting.1)) = Some Voting.voter.
Proof.
  split.
  - apply (rpc_is_authorized Demo.cfg Voting.caller Follower.fingerprint Voting.encode_status Voting.decode_status
      Voting.decode_request Follower.no_snapshot Voting.decode_response Voting.voter Voting.decode Voting.vote_bytes Voting.voting.1).
    exact Voting.voting_runs.
  - apply (rpc_is_authorized Demo.cfg Voting.caller Follower.fingerprint Voting.encode_status Voting.decode_status
      Voting.decode_request Follower.no_snapshot Voting.decode_response Voting.voter Voting.decode Voting.vote_bytes
      (take 13 Voting.ends_voting.1)).
    + eapply (ends_reconnect _ _ _ _ _ _ _ _ no_ends Voting.address); [constructor|apply replay_runs|].
      apply replay_consistent, Voting.ends_client_consistent.
    + apply consistent_take, replay_consistent, Voting.ends_client_consistent.
    + left. exists Voting.vote_frame, (Ok tt). exact Voting.vote_reaches.
Defined.
