(* ===== verification/Submission.v ===== *)
(** * Submission of releases (src/submit.rs, src/submit/proof.rs, src/handoff.rs)

    A node that has removed an address tells the cluster so: it writes the
    release itself if it leads, or sends it, signed, to the leader.  The requests
    of both sides are tasks; what a release needs of the committed state is
    [release_check]. *)

From S2P Require Import Prelude Text Io Replica Openraft Admission Types VipLogic State StoreMembership.
From S2P Require Import StateMachine LogStore Config Fingerprint Auth Controller Lease Freshness Request Authorization.
From S2P Require Import Tasks Driver Inbound Framing Outbound.
Local Open Scope kaf_scope.

(** ** Records *)

(** [ReleaseEnvelope]. *)
Record ReleaseEnvelope := mkReleaseEnvelope {
  envelope_genesis : Genesis;
  envelope_request : KafRequest
}.

(** [RELEASE_REQUEST_ROLE] and [RELEASE_RESPONSE_ROLE]. *)
Definition RELEASE_REQUEST_ROLE : N := 14.
Definition RELEASE_RESPONSE_ROLE : N := 15.
(** [SUBMIT_FRAME_MAX_BYTES]. *)
Definition SUBMIT_FRAME_MAX_BYTES : N := 4 * 1024.

(** [SubmitResponse], [from_applied] and [accepted]. *)
Record SubmitResponse := mkSubmitResponse {
  submit_ok : bool;
  submit_message : string;
  submit_log_id : option LogId
}.

Definition from_applied (l : LogId) (r : KafResponse) : SubmitResponse :=
  match r with
  | KafOk => mkSubmitResponse true "" (Some l)
  | Rejected message => mkSubmitResponse false message None
  end.

Definition accepted (r : SubmitResponse) : Result SubmitResponse NetFailure :=
  ensure (submit_ok r) (FailReason "leader rejected") ;? Ok r.

(** ** Sources *)

(** The address of a connection, as [canonical_socket_addr] gives it. *)
Definition canonical_source_ip (a : IpAddr) : IpAddr :=
  socket_ip (canonical_socket_addr (match a with V4 ip => SocketV4 ip 0 | V6 ip => SocketV6 ip 0 0 0 end)).

Section sources.
Context (sock_parse : Text → option SocketAddr) (cfg : Config).

Definition advertised_ip (address : Text) : option IpAddr := socket_ip ∘ canonical_socket_addr <$> sock_parse address.

(** [is_known_submit_source]. *)
Definition is_known_submit_source (source : IpAddr) : bool :=
  existsb (λ p, bool_decide (advertised_ip (client_submit_address p) = Some (canonical_source_ip source))) (peers cfg).

Definition is_release (r : KafRequest) : bool := match r with VipReleased _ _ _ => true | _ => false end.

(** [validate_and_extract]. *)
Definition validate_and_extract (from : IpAddr) (request : KafRequest) : Result KafRequest NetFailure :=
  match request_node_id request with
  | None => Err (FailReason "cluster-scoped request not accepted over client submit")
  | Some node =>
      ensure (is_release request) (FailReason "ordinary submission accepts only admitted VIP releases") ;?
      match find (λ p, (peer_id p =? node)%N) (peers cfg) with
      | None => Err (FailReason "node_id not in peers")
      | Some p =>
          match advertised_ip (client_submit_address p) with
          | None => Err (FailReason "peer has an unparseable client_submit_address")
          | Some expected =>
              ensure (bool_decide (canonical_source_ip from = expected)) (FailReason "submit came from another address") ;? Ok request
          end
      end
  end.
End sources.

(** ** What a release needs *)

Section submission.
Context {O : Openraft}.

(** The checks of [ReleaseAuthority::check] on the state, at the instant [now]. *)
Definition release_check (session : AdmissionSession) (peer : ReplicaId) (st : KafStorageState) (now : Instant)
  : Result unit NetFailure :=
  match admission st with
  | None => Err (FailReason "runtime admission is not bound")
  | Some bound =>
      net_denied (session_check bound now) ;?
      ensure (bool_decide (context bound = context session)
              && bool_decide (state_genesis st = Some (context_genesis (context session))))
        (FailReason "release admission differs from committed genesis") ;?
      ensure (forallb (λ r, bool_decide (List.filter (λ v, physical_id v =? physical_id r)%N
                                           (voter_ids (membership (last_membership st))) = [r]))
                [local_replica (context session); peer])
        (FailReason "release boot is not the unique committed voter")
  end.

(** ** Events *)

(** What [client_write] of the engine refuses. *)
Inductive SubmitRefusal := ForwardTo (leader : option ReplicaId) | WriteRefused (reason : string).

(** [SubmitState] reads the state, or fails at the deadline; [WithStateMachine] is
    [with_state_machine]; [Accept] is the handshake of a server, [TryAuthenticate] the
    change to an authenticated connection, of the listener or of the source. *)
Inductive SubmitEv : Type → Type :=
| SubmitClock : SubmitEv Instant
| SubmitTimer : SubmitEv bool
| WithStateMachine : SubmitEv (Result unit NetFailure)
| SubmitState : SubmitEv (Result KafStorageState NetFailure)
| WriteEntry (r : KafRequest) : SubmitEv (Result (LogId * KafResponse) SubmitRefusal)
| CurrentLeader : SubmitEv (option ReplicaId)
| SubmitDial (address : Text) : SubmitEv (Result unit NetFailure)
| SubmitHandshake (self : Peer) (target : N) : SubmitEv (Result AuthenticatedPeer IoError)
| Accept (self : Peer) : SubmitEv (Result AuthenticatedPeer IoError)
| SubmitSend (frame : list N) : SubmitEv (Result unit NetFailure)
| SubmitReceive (max : N) : SubmitEv (Result (list N) NetFailure)
| TryAuthenticate (source : bool) : SubmitEv bool
| CoherentSession : SubmitEv (Result AdmissionSession NetFailure)
| SubmitHealth (healthy : bool) : SubmitEv (Result unit NetFailure).

Local Abbreviation task := (task SubmitEv NetFailure).

Definition submit_fail {A} (e : NetFailure) : task A := Ret (Err e).
Definition submit_require (c : bool) (reason : string) : task unit := Ret (ensure c (FailReason reason)).
Definition submit_option {A} (a : option A) (reason : string) : task A :=
  match a with Some a => Ret (Ok a) | None => submit_fail (FailReason reason) end.
Definition submit_io {A} (e : SubmitEv (Result A IoError)) : task A :=
  r ← perform e; Ret (match r with Ok a => Ok a | Err e => Err (FailIo e) end).
Definition submit_timed {A} (t : task A) : task A :=
  guarded (elapsed ← perform SubmitTimer; if (elapsed : bool) then submit_fail FailElapsed else Ret (Ok tt)) t.

Context (sock_parse : Text → option SocketAddr) (sha256 : list N → list N).
Context (hmac : list N → option (list N → list N)).
Context (encode_release : list N * ReleaseEnvelope → option (list N)).
Context (encode_release_body : SignedAdmission ReleaseEnvelope → option (list N)).
Context (decode_release_body : list N → option (SignedAdmission ReleaseEnvelope)).
Context (encode_response : list N * SubmitResponse → option (list N)).
Context (encode_response_body : SignedAdmission SubmitResponse → option (list N)).
Context (decode_response_body : list N → option (SignedAdmission SubmitResponse)).
Context (cfg : Config) (local : ReplicaId).

(** [write_submit_frame_with_timeout]. *)
Definition write_submit_frame (body : list N) : task unit :=
  submit_require (N.of_nat (length body) <=? SUBMIT_FRAME_MAX_BYTES)%N "submit response exceeds submit frame limit";;
  submit_require (N.of_nat (length body) <=? u32_max)%N "submit response length exceeds u32";;
  attempt_ev (SubmitSend (be_bytes 4 (N.of_nat (length body)) ++ body)).

(** [session.check()] of the time. *)
Definition check_session (session : AdmissionSession) : task Instant :=
  now ← perform SubmitClock; Ret (net_denied (session_check session now)).

(** [ReleaseAuthority::check]. *)
Definition release_authority_check (session : AdmissionSession) (peer : ReplicaId) : task unit :=
  check_session session;;
  st ← attempt_ev SubmitState;
  check_session session;;
  now ← perform SubmitClock;
  Ret (release_check session peer st now).

(** [release_authority]. *)
Definition release_authority : task AdmissionSession :=
  submit_timed (
    attempt_ev WithStateMachine;;
    st ← attempt_ev SubmitState;
    session ← submit_option (admission st) "runtime has no bound admission session";
    check_session session;;
    submit_require (bool_decide (local_replica (context session) = local) && (physical_id local =? cfg_node_id cfg)%N)
      "release authority differs from local boot or configuration";;
    fingerprint ← match cluster_config_fingerprint sock_parse sha256 cfg with
                  | Ok f => Ret (Ok f)
                  | Err _ => submit_fail (FailReason "configuration has no fingerprint")
                  end;
    submit_require (bool_decide (config (context_genesis (context session)) = fingerprint))
      "release authority differs from local boot or configuration";;
    release_authority_check session local;;
    Ret (Ok session)).

(** [forward_release]. *)
Definition forward_release (session : AdmissionSession) (leader : ReplicaId) (request : KafRequest) : task SubmitResponse :=
  let self := local_replica (context session) in
  let genesis := context_genesis (context session) in
  release_authority_check session leader;;
  peer ← submit_option (get_peer cfg (physical_id leader)) "release leader is not configured";
  attempt_ev (SubmitDial (client_submit_address peer));;
  channel ← submit_io (SubmitHandshake (for_replica self (Some (epoch genesis)) true) (physical_id leader));
  submit_require (bool_decide (peer_replica (authenticated channel) = Some leader)) "submit leader boot changed";;
  release_authority_check session leader;;
  record ← Ret (net_denied (sign hmac encode_release (cluster_secret cfg) RELEASE_REQUEST_ROLE self leader
                              (binding channel) (mkReleaseEnvelope genesis request)));
  body ← submit_option (encode_release_body record) "encoding failed";
  write_submit_frame body;;
  reply ← attempt_ev (SubmitReceive SUBMIT_FRAME_MAX_BYTES);
  response ← submit_option (decode_response_body reply) "decoding failed";
  Ret (net_denied (verify hmac encode_response response (cluster_secret cfg) RELEASE_RESPONSE_ROLE leader self (binding channel)));;
  release_authority_check session leader;;
  response ← Ret (accepted (record_payload response));
  submit_require (bool_decide (is_Some (submit_log_id response))) "release acknowledgement lacks a committed log ID";;
  Ret (Ok response).

(** [submit_request]. *)
Definition submit_request (request : KafRequest) : task unit :=
  submit_require (is_release request) "ordinary submission accepts only admitted VIP releases";;
  submit_require (bool_decide (request_node_id request = Some (cfg_node_id cfg)))
    "release request belongs to another physical member";;
  session ← release_authority;
  check_session session;;
  submit_timed (
    release_authority_check session local;;
    written ← perform (WriteEntry request);
    response ← match written with
               | Ok (log_id, r) => Ret (Ok (from_applied log_id r))
               | Err (ForwardTo (Some leader)) => forward_release session leader request
               | Err (ForwardTo None) =>
                   leader ← perform CurrentLeader;
                   match leader with
                   | Some leader => forward_release session leader request
                   | None => submit_fail FailUnreachable
                   end
               | Err (WriteRefused reason) => submit_fail (FailReason reason)
               end;
    release_authority_check session local;;
    Ret (accepted response);;
    Ret (Ok tt)).

(** [handle_one_submit], of a connection from [from]. *)
Definition handle_one_submit (from : IpAddr) : task unit :=
  channel ← submit_io (Accept (for_replica local None true));
  peer ← submit_option (peer_replica (authenticated channel)) "submit peer has no exact boot identity";
  buf ← attempt_ev (SubmitReceive SUBMIT_FRAME_MAX_BYTES);
  signed ← submit_option (decode_release_body buf) "decoding failed";
  Ret (net_denied (verify hmac encode_release signed (cluster_secret cfg) RELEASE_REQUEST_ROLE peer local (binding channel)));;
  request ← Ret (validate_and_extract sock_parse cfg from (envelope_request (record_payload signed)));
  submit_require (bool_decide (request_node_id request = Some (physical_id peer)))
    "submit node_id differs from authenticated peer";;
  admitted ← perform (TryAuthenticate false);
  submit_require admitted "authenticated submit connection limit reached";;
  admitted ← perform (TryAuthenticate true);
  submit_require admitted "source authenticated submit connection limit reached";;
  session ← release_authority;
  submit_require (bool_decide (envelope_genesis (record_payload signed) = context_genesis (context session)))
    "submit genesis differs from active admission";;
  check_session session;;
  submit_timed (
    release_authority_check session peer;;
    written ← perform (WriteEntry request);
    let response := match written with
                    | Ok (log_id, r) => from_applied log_id r
                    | Err _ => mkSubmitResponse false "client write failed" None
                    end in
    release_authority_check session peer;;
    record ← Ret (net_denied (sign hmac encode_response (cluster_secret cfg) RELEASE_RESPONSE_ROLE local peer (binding channel) response));
    body ← submit_option (encode_response_body record) "encoding failed";
    write_submit_frame body).

(** ** Shutdown *)

(** [pending_releases]: the releases this node still owes, in the order of the addresses. *)
Definition pending_releases (st : KafStorageState) (node : N) : list KafRequest :=
  (λ '(vip, a), VipReleased node vip (generation a)) <$>
    List.filter (λ '(_, a), bool_decide (previous_holder a = Some node) && negb (previous_holder_released a))
      (btree_iter (vip_assignments st)).

(** The loop over the releases. *)
Fixpoint submit_all (releases : list KafRequest) : task unit :=
  match releases with
  | [] => Ret (Ok tt)
  | r :: releases => submit_request r;; submit_all releases
  end.

(** [handoff::publish]. *)
Definition publish (acknowledge_releases : bool) : task unit :=
  session ← submit_timed (attempt_ev CoherentSession);
  check_session session;;
  submit_timed (
    attempt_ev (SubmitHealth false);;
    check_session session;;
    if negb acknowledge_releases then Ret (Ok tt)
    else
      st ← attempt_ev SubmitState;
      submit_all (pending_releases st (cfg_node_id cfg))).
End submission.
