(* ===== verification/SubmissionTheorems.v ===== *)
(** * What a submitted release guarantees *)

From S2P Require Import Prelude Text Io Replica Openraft Admission Types VipLogic State StoreMembership.
From S2P Require Import StateMachine LogStore Config Fingerprint Auth Controller Lease Freshness Request Authorization.
From S2P Require Import Tasks TaskStates Driver Inbound InboundTheorems Framing Outbound Submission.
Local Open Scope kaf_scope.

Section submission.
Context {O : Openraft}.
Context (sock_parse : Text → option SocketAddr) (sha256 : list N → list N).
Context (hmac : list N → option (list N → list N)).
Context (encode_release : list N * ReleaseEnvelope → option (list N)).
Context (encode_release_body : SignedAdmission ReleaseEnvelope → option (list N)).
Context (decode_release_body : list N → option (SignedAdmission ReleaseEnvelope)).
Context (encode_response : list N * SubmitResponse → option (list N)).
Context (encode_response_body : SignedAdmission SubmitResponse → option (list N)).
Context (decode_response_body : list N → option (SignedAdmission SubmitResponse)).
Context (cfg : Config) (local : ReplicaId).

Local Abbreviation history := (list (answered SubmitEv)).

(** ** Facts of a history *)

Definition kept (h h' : history) : Prop := ∀ a, a ∈ h → a ∈ h'.

Lemma kept_trans h1 h2 h3 : kept h1 h2 → kept h2 h3 → kept h1 h3.
Proof. unfold kept. auto. Qed.
Lemma kept_prefix h h' : h `prefix_of` h' → kept h h'.
Proof. intros [l ->] a Ha. apply elem_of_app. by left. Qed.
Lemma kept_app h l : kept h (h ++ l).
Proof. apply kept_prefix. by eexists. Qed.
Lemma sublist_kept h h' : h `sublist_of` h' → kept h h'.
Proof. intros Hs a Ha. eapply elem_of_submseteq; [exact Ha|by apply sublist_submseteq]. Qed.

(** The boots of this node and of [peer] were the committed voters of their members in a
    state of the admission [session], which was in force. *)
Definition checked (session : AdmissionSession) (peer : ReplicaId) (h : history) : Prop :=
  ∃ st now, did SubmitState (Ok st) ∈ h ∧ did SubmitClock now ∈ h ∧ release_check session peer st now = Ok tt.

Lemma checked_kept session peer h h' : kept h h' → checked session peer h → checked session peer h'.
Proof. intros Hk (st & now & H1 & H2 & H3). exists st, now. auto. Qed.

(** What a release that was checked at a state says of it. *)
Lemma release_check_ok session peer st now :
  release_check session peer st now = Ok tt →
  state_genesis st = Some (context_genesis (context session)) ∧
  ∀ r, r = local_replica (context session) ∨ r = peer →
    List.filter (λ v, physical_id v =? physical_id r)%N (voter_ids (membership (last_membership st))) = [r].
Proof.
  unfold release_check. destruct (admission st) as [bound|]; [|done]. destruct (net_denied _); [|done].
  unfold ensure. destruct (_ && _) eqn:Hg; [|done]. destruct (forallb _ _) eqn:Hv; [|done]. intros _.
  apply andb_true_iff in Hg as [_ Hg%bool_decide_eq_true]. split; [done|]. intros r Hr.
  rewrite forallb_forall in Hv. apply (bool_decide_eq_true (_ = [r])). apply Hv. cbn. naive_solver.
Qed.

Section rules.
Context (P : history → ∀ X, SubmitEv X → Prop).
Local Abbreviation safe := (safe (E := NetFailure) (λ _ _ _, True) P).

(** The events of a check are never restricted. *)
Hypothesis P_clock : ∀ h, P h _ SubmitClock.
Hypothesis P_state : ∀ h, P h _ SubmitState.

Lemma safe_session_check {A} session (k : Instant → task SubmitEv NetFailure A) Q h :
  (∀ h' e, Q h' (Err e)) → (∀ now deadline, safe Q (h ++ [did SubmitClock now]) (k deadline)) →
  safe Q h (check_session session ≫= k).
Proof.
  intros He Hk. apply safe_bind. apply safe_perform; [done|]. intros now _. cbn.
  destruct (net_denied _); [apply Hk|apply He].
Qed.

Lemma safe_release_check {A} session peer (k : unit → task SubmitEv NetFailure A) Q h :
  (∀ h' e, Q h' (Err e)) → (∀ h', kept h h' → checked session peer h' → safe Q h' (k tt)) →
  safe Q h (release_authority_check session peer ≫= k).
Proof.
  intros He Hk. apply safe_bind. unfold release_authority_check.
  apply safe_session_check; [done|]. intros now1 _. apply safe_attempt; [done|done|]. intros st _.
  apply safe_session_check; [done|]. intros now2 _. apply safe_perform; [done|]. intros now _. cbn.
  destruct (release_check _ _ _ _) as [[]|] eqn:Hc; [|apply He]. apply Hk.
  - rewrite <- !app_assoc. apply kept_app.
  - exists st, now. rewrite !elem_of_app, !list_elem_of_singleton. auto 10.
Qed.

Lemma safe_submit_option {A B} (b : option B) reason (k : B → task SubmitEv NetFailure A) Q h :
  (∀ e, Q h (Err e)) → (∀ x, b = Some x → safe Q h (k x)) → safe Q h (submit_option b reason ≫= k).
Proof. destruct b; cbn; auto. Qed.

Lemma safe_submit_io {A B} (e : SubmitEv (Result B IoError)) (k : B → task SubmitEv NetFailure A) Q h :
  P h _ e → (∀ h' e', Q h' (Err e')) → (∀ x, safe Q (h ++ [did e (Ok x)]) (k x)) → safe Q h (submit_io e ≫= k).
Proof. intros He Herr Hk. split; [done|]. intros [x|e'] _; [apply Hk|apply Herr]. Qed.

Hypothesis P_monotone : ∀ X, monotone (λ h, P h X).
Hypothesis P_timer : ∀ h, P h _ SubmitTimer.
Hypothesis P_machine : ∀ h, P h _ WithStateMachine.

Lemma quiet_authority : quiet (λ _ _ _, True) P _ (release_authority sock_parse sha256 cfg local).
Proof.
  unfold release_authority, submit_timed. apply quiet_guarded; [done| |].
  - apply quiet_do; [done|]. intros []; apply quiet_ret.
  - intros h. apply safe_attempt; [done|done|]. intros [] _. apply safe_attempt; [done|done|]. intros st _.
    apply safe_submit_option; [done|]. intros session _. apply safe_session_check; [done|]. intros now deadline.
    apply safe_lift; [done|]. intros [] _. apply safe_bind. destruct (cluster_config_fingerprint _ _ _); [|done].
    apply safe_lift; [done|]. intros [] _. apply safe_release_check; [done|]. by intros h' _ _.
Qed.

Lemma safe_submit_timed {A} (t : task SubmitEv NetFailure A) Q h :
  monotone Q → (∀ h' e, Q h' (Err e)) → safe Q h t → safe Q h (submit_timed t).
Proof.
  intros HQ He. apply safe_guarded; [done|done|]. intros h'. apply safe_perform; [done|]. intros [] _; [apply He|done].
Qed.
End rules.

(** ** The leader *)

(** The release is of the boot that the channel authenticated: it signed the record for
    this node and this channel, in the genesis of the admission, from the address that
    is advertised for its member; and it was the committed voter of the member. *)
Definition attested (from : IpAddr) (channel : AuthenticatedPeer) (session : AdmissionSession) (peer : ReplicaId)
    (h : history) (r : KafRequest) : Prop :=
  did (Accept (for_replica local None true)) (Ok channel) ∈ h ∧ peer_replica (authenticated channel) = Some peer ∧
  (∃ buf signed, did (SubmitReceive SUBMIT_FRAME_MAX_BYTES) (Ok buf) ∈ h ∧ decode_release_body buf = Some signed ∧
     verify hmac encode_release signed (cluster_secret cfg) RELEASE_REQUEST_ROLE peer local (binding channel) = Ok tt ∧
     record_payload signed = mkReleaseEnvelope (context_genesis (context session)) r) ∧
  (∃ vip g, r = VipReleased (physical_id peer) vip g) ∧
  (∃ p, p ∈ peers cfg ∧ peer_id p = physical_id peer ∧
     advertised_ip sock_parse (client_submit_address p) = Some (canonical_source_ip from)) ∧
  checked session peer h.

(** The response says that the release was applied only if the engine said so. *)
Definition answered_honestly (channel : AuthenticatedPeer) (peer : ReplicaId) (h : history) (r : KafRequest)
    (frame : list N) : Prop :=
  ∃ written response record body, did (WriteEntry r) written ∈ h ∧
    sign hmac encode_response (cluster_secret cfg) RELEASE_RESPONSE_ROLE local peer (binding channel) response = Ok record ∧
    encode_response_body record = Some body ∧ frame = be_bytes 4 (N.of_nat (length body)) ++ body ∧
    (submit_ok response = true → ∃ l, written = Ok (l, KafOk) ∧ submit_log_id response = Some l).

Definition serves (from : IpAddr) (h : history) X (e : SubmitEv X) : Prop :=
  match e with
  | WriteEntry r => ∃ channel session peer, attested from channel session peer h r
  | SubmitSend frame => ∃ channel session peer r, attested from channel session peer h r ∧ answered_honestly channel peer h r frame
  | _ => True
  end.

Lemma attested_kept from channel session peer h h' r :
  kept h h' → attested from channel session peer h r → attested from channel session peer h' r.
Proof.
  intros Hk (H1 & H2 & (buf & signed & H3 & H4) & H5 & H6 & H7). split_and!; auto; [by exists buf, signed; auto|].
  by eapply checked_kept.
Qed.

Lemma serves_monotone from X : monotone (λ h, serves from h X).
Proof.
  intros h h' e Hs%sublist_kept. destruct e; cbn; try done.
  - intros (channel & session & peer & Ha). exists channel, session, peer. by eapply attested_kept.
  - intros (channel & session & peer & r & Ha & written & response & record & body & Hw & Hr).
    exists channel, session, peer, r. split; [by eapply attested_kept|]. exists written, response, record, body. auto.
Qed.

Lemma validate_and_extract_ok from request r :
  validate_and_extract sock_parse cfg from request = Ok r →
  r = request ∧ ∃ node vip g p, r = VipReleased node vip g ∧ p ∈ peers cfg ∧ peer_id p = node ∧
    advertised_ip sock_parse (client_submit_address p) = Some (canonical_source_ip from).
Proof.
  unfold validate_and_extract. destruct (request_node_id request) as [node|] eqn:Hn; [|done]. unfold ensure.
  destruct (is_release request) eqn:Hr; [|done]. destruct (find _ _) as [p|] eqn:Hp; [|done].
  destruct (advertised_ip _ _) as [ip|] eqn:Hip; [|done]. case_bool_decide as Hfrom; [|done]. intros [= <-]. split; [done|].
  destruct request; try done. cbn in Hn. injection Hn as ->. apply find_some in Hp as [Hin Hid%N.eqb_eq].
  apply list_elem_of_In in Hin. exists node, vip, generation, p. subst ip. done.
Qed.

Local Abbreviation handle_one_submit := (handle_one_submit sock_parse sha256 hmac encode_release decode_release_body
  encode_response encode_response_body cfg local).

(** The part of [handle_one_submit] after the release is attested. *)
Lemma safe_written from channel session peer r h :
  attested from channel session peer h r →
  safe (λ _ _ _, True) (serves from) (λ _ _, True) h
    (written ← perform (WriteEntry r);
     let response := match written with
                     | Ok (log_id, r) => from_applied log_id r
                     | Err _ => mkSubmitResponse false "client write failed" None
                     end in
     release_authority_check session peer;;
     record ← Ret (net_denied (sign hmac encode_response (cluster_secret cfg) RELEASE_RESPONSE_ROLE local peer (binding channel) response));
     body ← submit_option (encode_response_body record) "encoding failed";
     write_submit_frame body).
Proof.
  intros Ha. apply safe_perform; [by exists channel, session, peer|]. intros written _. cbv zeta.
  apply safe_release_check; [done..|]. intros h' Hk _. apply safe_lift; [done|]. intros record Hrecord%net_denied_ok.
  apply safe_submit_option; [done|]. intros body Hbody. unfold write_submit_frame.
  apply safe_lift; [done|]. intros [] _. apply safe_lift; [done|]. intros [] _. split; [|done].
  exists channel, session, peer, r. split; [eapply attested_kept; [|exact Ha]; by eapply kept_trans; [apply kept_app|]|].
  eexists written, _, record, body. split_and!; [|done..|].
  - apply Hk, elem_of_app. right. by apply list_elem_of_singleton.
  - destruct written as [[l [|]]|]; [|done..]. intros _. by exists l.
Qed.

Lemma safe_handle_one_submit from h :
  safe (λ _ _ _, True) (serves from) (λ _ _, True) h (handle_one_submit from).
Proof.
  unfold handle_one_submit. apply safe_submit_io; [done..|]. intros channel.
  apply safe_submit_option; [done|]. intros peer Hpeer. apply safe_attempt; [done..|]. intros buf _.
  apply safe_submit_option; [done|]. intros signed Hsigned. apply safe_lift; [done|]. intros [] Hverify%net_denied_ok.
  apply safe_lift; [done|]. intros r Hr. apply safe_lift; [done|]. intros [] Hnode.
  apply safe_perform; [done|]. intros admitted _. apply safe_lift; [done|]. intros [] _.
  apply safe_perform; [done|]. intros admitted' _. apply safe_lift; [done|]. intros [] _.
  apply safe_after; [by apply quiet_authority; [..|apply serves_monotone| |]|done|]. intros session h' Hk%kept_prefix.
  apply safe_lift; [done|]. intros [] Hgen. apply safe_session_check; [done..|]. intros now deadline.
  apply safe_submit_timed; [apply serves_monotone|done..|]. apply safe_release_check; [done..|]. intros h2 Hk2 Hc. apply safe_written.
  apply validate_and_extract_ok in Hr as (-> & node & vip & g & p & Hreq & Hp & Hid & Hip).
  apply ensure_ok, bool_decide_eq_true in Hnode. apply ensure_ok, bool_decide_eq_true in Hgen. rewrite Hreq in *. cbn in Hnode.
  injection Hnode as ->. assert (∀ a, a ∈ (h ++ [did (Accept (for_replica local None true)) (Ok channel)])
    ++ [did (SubmitReceive SUBMIT_FRAME_MAX_BYTES) (Ok buf)] → a ∈ h2) as Hin.
  { intros a Ha. apply Hk2, kept_app, Hk. rewrite <- app_assoc. apply elem_of_app. by left. }
  split_and!.
  - apply Hin. rewrite !elem_of_app, !list_elem_of_singleton. auto.
  - done.
  - exists buf, signed. split_and!; [apply Hin; rewrite !elem_of_app, !list_elem_of_singleton; auto|done|done|].
    destruct (record_payload signed). cbn in *. by subst.
  - by eexists _, _.
  - by exists p.
  - done.
Qed.

(** ** The node that releases *)

(** The engine applied the release, or the leader signed for this channel that it did, in
    reply to this release. *)
Definition acknowledged (h : history) (r : KafRequest) : Prop :=
  (∃ l, did (WriteEntry r) (Ok (l, KafOk)) ∈ h) ∨
  ∃ session leader channel record body reply signed,
    let self := local_replica (context session) in
    checked session leader h ∧ peer_replica (authenticated channel) = Some leader ∧
    did (SubmitHandshake (for_replica self (Some (epoch (context_genesis (context session)))) true) (physical_id leader))
      (Ok channel) ∈ h ∧
    sign hmac encode_release (cluster_secret cfg) RELEASE_REQUEST_ROLE self leader (binding channel)
      (mkReleaseEnvelope (context_genesis (context session)) r) = Ok record ∧
    encode_release_body record = Some body ∧
    did (SubmitSend (be_bytes 4 (N.of_nat (length body)) ++ body)) (Ok tt) ∈ h ∧
    did (SubmitReceive SUBMIT_FRAME_MAX_BYTES) (Ok reply) ∈ h ∧ decode_response_body reply = Some signed ∧
    verify hmac encode_response signed (cluster_secret cfg) RELEASE_RESPONSE_ROLE leader self (binding channel) = Ok tt ∧
    submit_ok (record_payload signed) = true ∧ is_Some (submit_log_id (record_payload signed)).

Lemma acknowledged_kept h h' r : kept h h' → acknowledged h r → acknowledged h' r.
Proof.
  intros Hk [(l & Hl)|(session & leader & channel & record & body & reply & signed & H1 & H2 & H3 & H4 & H5 & H6 & H7 & H8 & H9 & H10 & H11)].
  - left. exists l. auto.
  - right. exists session, leader, channel, record, body, reply, signed. split_and!; try done; [by eapply checked_kept|by apply Hk..].
Qed.

Local Abbreviation forward_release := (forward_release hmac encode_release encode_release_body encode_response
  decode_response_body cfg).
Local Abbreviation submit_request := (submit_request sock_parse sha256 hmac encode_release encode_release_body encode_response
  decode_response_body cfg local).

Definition any_event (_ : history) (X : Type) (_ : SubmitEv X) : Prop := True.
Local Abbreviation safe := (safe (E := NetFailure) (λ _ _ _, True) any_event).

Lemma safe_forward session leader r h :
  safe (λ h' x, match x with Ok _ => acknowledged h' r | Err _ => True end) h (forward_release session leader r).
Proof.
  unfold forward_release. cbv zeta. apply safe_release_check; [done..|]. intros h1 _ _.
  apply safe_submit_option; [done|]. intros peer _. apply safe_attempt; [done..|]. intros [] _.
  apply safe_submit_io; [done..|]. intros channel. apply safe_lift; [done|]. intros [] Hboot%ensure_ok%bool_decide_eq_true.
  apply safe_release_check; [done..|]. intros h2 Hk2 Hc2. apply safe_lift; [done|]. intros record Hrecord%net_denied_ok.
  apply safe_submit_option; [done|]. intros body Hbody. apply safe_bind. unfold write_submit_frame.
  apply safe_lift; [done|]. intros [] _. apply safe_lift; [done|]. intros [] _. split; [done|]. intros [[]|e] _; [|done].
  apply safe_attempt; [done..|]. intros reply _. apply safe_submit_option; [done|]. intros signed Hsigned.
  apply safe_lift; [done|]. intros [] Hverify%net_denied_ok. apply safe_release_check; [done..|]. intros h3 Hk3 Hc3.
  apply safe_lift; [done|]. intros response Hresponse. apply safe_lift; [done|]. intros [] Hid%ensure_ok%bool_decide_eq_true.
  unfold accepted, ensure in Hresponse. destruct (submit_ok _) eqn:Hok; [|done]. injection Hresponse as <-.
  right. exists session, leader, channel, record, body, reply, signed. split_and!; try done; apply Hk3.
  - do 2 apply kept_app. apply Hk2, elem_of_app. right. by apply list_elem_of_singleton.
  - rewrite !elem_of_app, !list_elem_of_singleton. auto.
  - rewrite !elem_of_app, !list_elem_of_singleton. auto.
Qed.

Lemma safe_submit_request r h :
  safe (λ h' x, match x with Ok _ => acknowledged h' r | Err _ => True end) h (submit_request r).
Proof.
  assert (monotone (λ (h' : history) (x : Result unit NetFailure), match x with Ok _ => acknowledged h' r | Err _ => True end)) as Hmono.
  { intros h1 h2 [] Hs; [|done]. by apply acknowledged_kept, sublist_kept. }
  unfold submit_request. apply safe_lift; [done|]. intros [] _. apply safe_lift; [done|]. intros [] _.
  apply safe_after; [by apply quiet_authority|done|]. intros session h1 _.
  apply safe_session_check; [done..|]. intros now deadline. apply safe_submit_timed; [done..|].
  apply safe_release_check; [done..|]. intros h2 _ _. apply safe_perform; [done|]. intros written _. apply safe_bind.
  apply (safe_mono _ _ _ _ (λ h' x, match x with Ok response => submit_ok response = true → acknowledged h' r | Err _ => True end)).
  - destruct written as [[l [|]]|[[leader|]|reason]]; [|done|..|done].
    + intros _. left. exists l. apply elem_of_app. right. by apply list_elem_of_singleton.
    + eapply safe_mono; [apply safe_forward|]. by intros h' [].
    + apply safe_perform; [done|]. intros [leader|] _; [|done]. eapply safe_mono; [apply safe_forward|]. by intros h' [].
  - intros h3 [response|e] Hr; [|done]. apply safe_release_check; [done..|]. intros h4 Hk _. apply safe_lift; [done|].
    intros x Hx. unfold accepted, ensure in Hx. destruct (submit_ok response); [|done]. cbn. by eapply acknowledged_kept; [|apply Hr].
Qed.

(** ** Shutdown *)

Definition owed (st : KafStorageState) (vip : IpAddr) (a : VipAssignment) : Prop :=
  vip_assignments st !! vip = Some a ∧ previous_holder a = Some (cfg_node_id cfg) ∧ previous_holder_released a = false.

Lemma owed_pending st vip a :
  owed st vip a → VipReleased (cfg_node_id cfg) vip (generation a) ∈ pending_releases st (cfg_node_id cfg).
Proof.
  intros (Hv & Hp & Hr). unfold pending_releases. apply list_elem_of_fmap. exists (vip, a). split; [done|].
  apply list_elem_of_In, List.filter_In. split; [by apply list_elem_of_In, elem_of_btree_iter|].
  rewrite Hr, bool_decide_true by done. done.
Qed.

Local Abbreviation submit_all := (submit_all sock_parse sha256 hmac encode_release encode_release_body encode_response
  decode_response_body cfg local).
Local Abbreviation publish := (publish sock_parse sha256 hmac encode_release encode_release_body encode_response
  decode_response_body cfg local).

Lemma safe_submit_all rs h :
  safe (λ h' x, match x with Ok _ => kept h h' ∧ Forall (acknowledged h') rs | Err _ => True end) h (submit_all rs).
Proof.
  revert h. induction rs as [|r rs IH]; intros h; cbn [Submission.submit_all]; [by split|].
  apply safe_bind. eapply safe_mono; [apply safe_prefix, safe_submit_request|]. intros h1 [[]|e] [Hr Hp]; [|done].
  eapply safe_mono; [apply IH|]. intros h2 [[]|e]; [|done]. intros [Hk Hrs]. split; [eapply kept_trans, Hk; by apply kept_prefix|].
  constructor; [by eapply acknowledged_kept|done].
Qed.

(** A release is submitted only after the health report is out. *)
Definition hands_off (acknowledge : bool) (h : history) X (e : SubmitEv X) : Prop :=
  match e with
  | WriteEntry _ | SubmitSend _ => acknowledge = true ∧ did (SubmitHealth false) (Ok tt) ∈ h
  | _ => True
  end.

Lemma hands_off_monotone acknowledge X : monotone (λ h, hands_off acknowledge h X).
Proof. intros h h' e Hs%sublist_kept. destruct e; try done; cbn; intros [-> Hh]; (split; [done|by apply Hs]). Qed.

Lemma safe_more_events {A} (P P' : history → ∀ X, SubmitEv X → Prop) (Q : history → Result A NetFailure → Prop) h t :
  (∀ h' X e, h `prefix_of` h' → P h' X e → P' h' X e) →
  Tasks.safe (λ _ _ _, True) P Q h t → Tasks.safe (λ _ _ _, True) P' Q h t.
Proof.
  revert h. induction t as [r|X e k IH]; intros h HP; [done|]. intros [He Hk]. split; [by apply HP|].
  intros x Hx. apply IH; [|by apply Hk]. intros h' Y e' Hp. apply HP. etrans; [|exact Hp]. by apply prefix_app_r.
Qed.

(** Every release that the state owes is acknowledged. *)
Definition handed_off (acknowledge : bool) (h : history) : Prop :=
  did (SubmitHealth false) (Ok tt) ∈ h ∧
  (acknowledge = true → ∃ st, did SubmitState (Ok st) ∈ h ∧
    ∀ vip a, owed st vip a → acknowledged h (VipReleased (cfg_node_id cfg) vip (generation a))).

Lemma safe_publish acknowledge h :
  Tasks.safe (λ _ _ _, True) (hands_off acknowledge)
    (λ h' x, match x with Ok _ => handed_off acknowledge h' | Err _ => True end) h (publish acknowledge).
Proof.
  assert (monotone (λ (h' : history) (x : Result unit NetFailure), match x with Ok _ => handed_off acknowledge h' | Err _ => True end)) as Hmono.
  { intros h1 h2 [[]|] Hs%sublist_kept; [|done]. intros [Hh Hst]. split; [auto|]. intros Ha. destruct (Hst Ha) as (st & Hin & Hall).
    exists st. split; [auto|]. intros vip a Ho. eapply acknowledged_kept; [done|auto]. }
  unfold publish. apply safe_after; [|done|].
  { apply quiet_guarded; [apply hands_off_monotone|apply quiet_do; [done|by intros []]|]. apply quiet_do; [done|]. intros x. apply quiet_ret. }
  intros session h1 _. apply safe_session_check; [done..|]. intros now deadline.
  apply safe_submit_timed; [apply hands_off_monotone|done|done|done|]. apply safe_attempt; [done..|]. intros [] _.
  apply safe_session_check; [done..|]. intros now' deadline'. set (h2 := _ ++ [did SubmitClock now']).
  assert (did (SubmitHealth false) (Ok tt) ∈ h2) as Hh by (unfold h2; rewrite !elem_of_app, !list_elem_of_singleton; auto).
  destruct acknowledge; cbn [negb]; [|by split]. apply safe_attempt; [done..|]. intros st _.
  eapply (safe_more_events any_event); [|eapply safe_mono; [apply safe_submit_all|]].
  - intros h' X e Hp _. destruct e; try done; (split; [done|]); apply (kept_prefix _ _ Hp), kept_app, Hh.
  - intros h3 [[]|e]; [|done]. intros [Hk Hall]. split; [by apply Hk, kept_app|]. intros _. exists st. split.
    + apply Hk, elem_of_app. right. by apply list_elem_of_singleton.
    + intros vip a Ho%owed_pending. by eapply Forall_forall in Hall.
Qed.
End submission.

(** C12: a leader writes only attested releases.  At every await of the handler of a
    submission: the entry it hands to the engine is the release of an address by the
    member of the boot that the channel authenticated.  That boot signed it, for this
    node and this channel, in the genesis of the admission in force; the connection
    came from the address advertised for the member; and the boot and this node are the
    only committed voters of their members.  And the response, signed for that boot and
    channel, says that the release is applied only if the engine answered so, with its
    log id. *)
Theorem release_is_attested {O : Openraft} sock_parse sha256 hmac encode_release decode_release_body encode_response
    encode_response_body cfg local from h :
  let handler := handle_one_submit sock_parse sha256 hmac encode_release decode_release_body encode_response
    encode_response_body cfg local from in
  (∀ r x, reaches handler (h ++ [did (WriteEntry r) x]) →
    ∃ channel session peer,
      attested sock_parse hmac encode_release decode_release_body cfg local from channel session peer h r) ∧
  (∀ frame x, reaches handler (h ++ [did (SubmitSend frame) x]) →
    ∃ channel session peer r,
      attested sock_parse hmac encode_release decode_release_body cfg local from channel session peer h r ∧
      answered_honestly hmac encode_response encode_response_body cfg local channel peer h r frame).
Proof.
  intros handler. assert (∀ X (e : SubmitEv X) x, reaches handler (h ++ [did e x]) →
    serves sock_parse hmac encode_release decode_release_body encode_response encode_response_body cfg local from h X e) as Hs.
  { intros X e x Hr. eapply (safe_reaches _ _ _ _ _ [] _ h); [apply safe_handle_one_submit|exact Hr|by apply Forall_true]. }
  split; intros *; apply Hs.
Qed.

(** C13: a completed shutdown handoff leaves no release open.  When [publish] returns
    successfully, the unhealthy report is committed; and if releases are acknowledged,
    then in the state it read, every address this node held before and has not released
    is released: the engine applied it, or the leader signed that it did.  No release
    is submitted before the report, and none at all if a timed-out command may still
    change an address. *)
Theorem handoff_acknowledges {O : Openraft} sock_parse sha256 hmac encode_release encode_release_body encode_response
    decode_response_body cfg local acknowledge h :
  let handoff := publish sock_parse sha256 hmac encode_release encode_release_body encode_response decode_response_body
    cfg local acknowledge in
  (runs handoff h (Ok tt) →
    handed_off hmac encode_release encode_release_body encode_response decode_response_body cfg acknowledge h) ∧
  (∀ X (e : SubmitEv X) x, reaches handoff (h ++ [did e x]) → hands_off acknowledge h X e).
Proof.
  intros handoff. split.
  - intros Hr. by apply (safe_runs _ _ _ _ _ [] _ h _ (safe_publish sock_parse sha256 hmac encode_release encode_release_body
      encode_response decode_response_body cfg local acknowledge []) Hr), Forall_true.
  - intros X e x Hr. eapply (safe_reaches _ _ _ _ _ [] _ h); [apply safe_publish|exact Hr|by apply Forall_true].
Qed.

(** ** An example: member 2 releases an address to member 1, which shuts down *)

Module Releasing.
Local Open Scope N_scope.
Import Follower.

Definition hmac (_ : list N) : option (list N → list N) := Some tag.
Definition vip : IpAddr := V4 3221226085.
Definition release : KafRequest := VipReleased 2 vip 5.
Definition channel : AuthenticatedPeer := mkAuthenticatedPeer (for_replica (member 2) None true) [9].
Definition encode_release (p : list N * ReleaseEnvelope) : option (list N) := Some (p.1 ++ [1]).
Definition encode_response (p : list N * SubmitResponse) : option (list N) := Some (p.1 ++ [2]).
Definition signed : SignedAdmission ReleaseEnvelope :=
  match sign hmac encode_release (cluster_secret Demo.cfg) RELEASE_REQUEST_ROLE (member 2) (member 1) [9]
          (mkReleaseEnvelope gen release) with
  | Ok r => r
  | Err _ => mkSignedAdmission (member 2) (member 1) [] (mkReleaseEnvelope gen release) []
  end.

(** Member 1 held the address before. *)
Definition holding : KafStorageState (O := model_openraft) :=
  store <| vip_assignments := {[vip := mkVipAssignment 2 6 (Some 1) false 0]} |>.

Definition answer (_ : unit) (X : Type) (e : SubmitEv (O := model_openraft) X) : X :=
  match e in SubmitEv X return X with
  | SubmitClock => 10
  | SubmitTimer => false
  | WithStateMachine => Ok tt
  | SubmitState => Ok holding
  | WriteEntry _ => Ok (at_index 4, KafOk)
  | CurrentLeader => None
  | SubmitDial _ => Err FailUnreachable
  | SubmitHandshake _ _ => Ok channel
  | Accept _ => Ok channel
  | SubmitSend _ => Ok tt
  | SubmitReceive _ => Ok [7]
  | TryAuthenticate _ => true
  | CoherentSession => Ok (mkAdmissionSession Follower.context (fence_of tag authority))
  | SubmitHealth _ => Ok tt
  end.

Local Abbreviation replay := (replay (λ _ _ _ s, s) answer tt).

Definition handling := replay (handle_one_submit Demo.sock_parse tag hmac encode_release (λ _, Some signed) encode_response
  (λ _, Some [3]) Demo.cfg (member 1) (V4 167772162)).
Definition leaving := replay (publish Demo.sock_parse tag hmac encode_release (λ _, Some [3]) encode_response (λ _, None)
  Demo.cfg (member 1) true).

Lemma release_written : handling.1 !! 28%nat = Some (did (WriteEntry release) (Ok (at_index 4, KafOk))).
Proof. vm_cast_no_check (eq_refl (Some (did (WriteEntry (O := model_openraft) release) (Ok (at_index 4, KafOk))))). Qed.
Lemma left_over : leaving.2 = Ok tt.
Proof. vm_cast_no_check (@eq_refl (Result unit NetFailure) (Ok tt)). Qed.
Lemma leaving_runs :
  runs (publish Demo.sock_parse tag hmac encode_release (λ _, Some [3]) encode_response (λ _, None) Demo.cfg (member 1) true)
    leaving.1 (Ok tt).
Proof.
  rewrite <- left_over. exact (replay_runs (λ _ _ _ s, s) answer tt (publish Demo.sock_parse tag hmac encode_release (λ _, Some [3])
    encode_response (λ _, None) Demo.cfg (member 1) true)).
Qed.
End Releasing.

Lemma release_is_attested_witness :
  ∃ channel session peer,
    attested Demo.sock_parse Releasing.hmac Releasing.encode_release (λ _, Some Releasing.signed) Demo.cfg (Follower.member 1)
      (V4 167772162) channel session peer (take 28 Releasing.handling.1) Releasing.release.
Proof.
  apply (proj1 (release_is_attested Demo.sock_parse Follower.tag Releasing.hmac Releasing.encode_release
    (λ _, Some Releasing.signed) Releasing.encode_response (λ _, Some [3%N]) Demo.cfg (Follower.member 1) (V4 167772162)
    (take 28 Releasing.handling.1)) Releasing.release (Ok (Follower.at_index 4, KafOk))).
  rewrite <- (take_S_r _ _ _ Releasing.release_written). eapply reaches_take, runs_reaches, replay_runs.
Defined.

Lemma handoff_acknowledges_witness :
  handed_off Releasing.hmac Releasing.encode_release (λ _, Some [3%N]) Releasing.encode_response (λ _, None) Demo.cfg true
    Releasing.leaving.1.
Proof.
  apply (handoff_acknowledges Demo.sock_parse Follower.tag Releasing.hmac Releasing.encode_release (λ _, Some [3%N])
    Releasing.encode_response (λ _, None) Demo.cfg (Follower.member 1) true Releasing.leaving.1).
  exact Releasing.leaving_runs.
Defined.
