(* ===== verification/Connections.v ===== *)
(** * Connection limits
    (src/connection_admission.rs, src/admission.rs, src/raft/network/server.rs, src/submit.rs)

    A listener admits connections in two phases: until the peer has authenticated
    and while it is served.  Each phase has a limit for the listener and one for
    every source address, and the frames of all served connections share a budget
    of bytes.  A semaphore is the number of its free permits. *)

From S2P Require Import Prelude Text Io Replica Admission Types VipLogic Config Auth Framing Outbound Submission.
Local Open Scope kaf_scope.

(** ** Phases *)

(** [connection_admission::ConnectionAdmission]: the free permits of both phases. *)
Record PhaseAdmission := mkPhaseAdmission {
  unauthenticated_free : nat;
  authenticated_free : nat
}.

(** [ConnectionAdmission::new], [try_begin] and [try_authenticate]; a connection that
    cannot authenticate keeps its permit. *)
Definition phase_new (unauthenticated_limit authenticated_limit : nat) : PhaseAdmission :=
  mkPhaseAdmission unauthenticated_limit authenticated_limit.

Definition phase_try_begin (p : PhaseAdmission) : option PhaseAdmission :=
  match unauthenticated_free p with
  | S n => Some (mkPhaseAdmission n (authenticated_free p))
  | 0 => None
  end.

Definition phase_try_authenticate (p : PhaseAdmission) : option PhaseAdmission :=
  match authenticated_free p with
  | S n => Some (mkPhaseAdmission (S (unauthenticated_free p)) n)
  | 0 => None
  end.

(** The drop of [UnauthenticatedConnection] and of [AuthenticatedConnection]. *)
Definition drop_unauthenticated (p : PhaseAdmission) : PhaseAdmission :=
  mkPhaseAdmission (S (unauthenticated_free p)) (authenticated_free p).
Definition drop_authenticated (p : PhaseAdmission) : PhaseAdmission :=
  mkPhaseAdmission (unauthenticated_free p) (S (authenticated_free p)).

(** ** Sources *)

(** [CONNECTIONS_PER_PEER]. *)
Definition CONNECTIONS_PER_PEER : nat := 8.

(** [IpAddr::to_canonical]. *)
Definition to_canonical (a : IpAddr) : IpAddr :=
  match a with
  | V4 _ => a
  | V6 ip => match to_ipv4_mapped ip with Some v4 => V4 v4 | None => a end
  end.

(** [admission::ConnectionAdmission::new]: peers that share an address share its limit. *)
Definition source_limits (addresses : list SocketAddr) : gmap IpAddr nat :=
  foldl (λ limits a, let ip := to_canonical (socket_ip a) in
                     <[ip := default 0 (limits !! ip) + CONNECTIONS_PER_PEER]> limits) ∅ addresses.
Definition source_new (addresses : list SocketAddr) : gmap IpAddr PhaseAdmission :=
  (λ limit, phase_new limit limit) <$> source_limits addresses.

(** [admission::ConnectionAdmission::try_begin]. *)
Definition source_try_begin (ip : IpAddr) (peers : gmap IpAddr PhaseAdmission) : option (gmap IpAddr PhaseAdmission) :=
  p ← peers !! to_canonical ip;
  p ← phase_try_begin p;
  Some (<[to_canonical ip := p]> peers).

(** [try_authenticate] and the drop of a permit of a source. *)
Definition source_try_authenticate (ip : IpAddr) (peers : gmap IpAddr PhaseAdmission)
  : option (gmap IpAddr PhaseAdmission) :=
  p ← peers !! to_canonical ip;
  p ← phase_try_authenticate p;
  Some (<[to_canonical ip := p]> peers).
Definition source_drop (f : PhaseAdmission → PhaseAdmission) (ip : IpAddr) (peers : gmap IpAddr PhaseAdmission)
  : gmap IpAddr PhaseAdmission := alter f (to_canonical ip) peers.

(** [is_known_raft_source] and [raft_source_matches_peer]. *)
Definition is_known_raft_source (sock_parse : Text → option SocketAddr) (cfg : Config) (source : IpAddr) : bool :=
  existsb (λ p, bool_decide (advertised_ip sock_parse (raft_address p) = Some (canonical_source_ip source))) (peers cfg).
Definition raft_source_matches_peer (sock_parse : Text → option SocketAddr) (cfg : Config) (id : N) (source : IpAddr) : bool :=
  bool_decide ((p ← get_peer cfg id; advertised_ip sock_parse (raft_address p)) = Some (canonical_source_ip source)).

(** [connect_from_advertised]: the address a connection is made from, and to. *)
Definition connect_from_advertised (sock_parse : Text → option SocketAddr) (local remote : Text)
  : Result (SocketAddr * SocketAddr) NetFailure :=
  match sock_parse local with
  | None => Err (FailReason "invalid local address")
  | Some l =>
      let l := match canonical_socket_addr l with
               | SocketV4 ip _ => SocketV4 ip 0
               | SocketV6 ip _ flowinfo scope_id => SocketV6 ip 0 flowinfo scope_id
               end in
      match sock_parse remote with
      | None => Err (FailReason "invalid remote address")
      | Some r =>
          let r := canonical_socket_addr r in
          ensure (Bool.eqb (socket_is_ipv4 l) (socket_is_ipv4 r))
            (FailReason "local advertised address and remote address use different families") ;?
          Ok (l, r)
      end
  end.

(** ** Listeners *)

(** A listener: the address of each peer as [listener_address] of it, the limits of the
    phases, and the largest frame it reserves bytes for, if it does. *)
Record ConnectionListener := mkConnectionListener {
  listener_peers : list PeerConfig;
  listener_address : PeerConfig → Text;
  unauthenticated_limit : nat;
  authenticated_limit : nat;
  reserves : option N
}.

(** [RAFT_UNAUTHENTICATED_CONNECTION_LIMIT], [RAFT_AUTHENTICATED_CONNECTION_LIMIT] and
    [RAFT_INFLIGHT_FRAME_BYTE_LIMIT], and the limits of the submit server. *)
Definition RAFT_UNAUTHENTICATED_CONNECTION_LIMIT : nat := 32.
Definition RAFT_AUTHENTICATED_CONNECTION_LIMIT : nat := 64.
Definition RAFT_INFLIGHT_FRAME_BYTE_LIMIT : N := 128 * 1024 * 1024.
Definition SUBMIT_UNAUTHENTICATED_CONNECTION_LIMIT : nat := 32.
Definition SUBMIT_AUTHENTICATED_CONNECTION_LIMIT : nat := 64.

Definition raft_listener (cfg : Config) : ConnectionListener :=
  mkConnectionListener (peers cfg) raft_address RAFT_UNAUTHENTICATED_CONNECTION_LIMIT
    RAFT_AUTHENTICATED_CONNECTION_LIMIT (Some (max_frame_bytes cfg)).
Definition submit_listener (cfg : Config) : ConnectionListener :=
  mkConnectionListener (peers cfg) client_submit_address SUBMIT_UNAUTHENTICATED_CONNECTION_LIMIT
    SUBMIT_AUTHENTICATED_CONNECTION_LIMIT None.

(** A connection: until it is authenticated, or served as the peer [id], with the permit
    of the frame that is being processed. *)
Inductive Stage := Handshaking | Serving (id : N) (frame : option (option N)).
Record Connection := mkConnection { from : IpAddr; stage : Stage }.

(** The accept task of a listener. *)
Record Listening := mkListening {
  phase : PhaseAdmission;
  sources : gmap IpAddr PhaseAdmission;
  byte_budget : N;
  connections : list Connection
}.

Section listening.
Context (sock_parse : Text → option SocketAddr) (l : ConnectionListener).

Definition addresses : list SocketAddr := omap (λ p, sock_parse (listener_address l p)) (listener_peers l).

Definition listening_new : Listening :=
  mkListening (phase_new (unauthenticated_limit l) (authenticated_limit l)) (source_new addresses)
    RAFT_INFLIGHT_FRAME_BYTE_LIMIT [].

(** [is_known_raft_source] or [is_known_submit_source]. *)
Definition known_source (source : IpAddr) : bool :=
  existsb (λ p, bool_decide (advertised_ip sock_parse (listener_address l p) = Some (canonical_source_ip source))) (listener_peers l).

(** The address that is expected of the peer [id]. *)
Definition source_matches (id : N) (source : IpAddr) : bool :=
  bool_decide ((p ← find (λ p, (peer_id p =? id)%N) (listener_peers l); advertised_ip sock_parse (listener_address l p))
               = Some (canonical_source_ip source)).

(** An accepted connection ([spawn_inbound_stream], the loop of [serve_submit_listener]). *)
Definition accept_connection (source : IpAddr) (s : Listening) : Listening :=
  if negb (known_source source) then s
  else
    match phase_try_begin (phase s) with
    | None => s
    | Some p =>
        match source_try_begin source (sources s) with
        | None => mkListening (drop_unauthenticated p) (sources s) (byte_budget s) (connections s)
        | Some srcs => mkListening p srcs (byte_budget s) (connections s ++ [mkConnection source Handshaking])
        end
    end.

(** A connection whose peer authenticated as [id]: the permits, and its stage if it goes on. *)
Definition authenticate_connection (id : N) (source : IpAddr) (p : PhaseAdmission) (srcs : gmap IpAddr PhaseAdmission)
  : PhaseAdmission * gmap IpAddr PhaseAdmission * option Stage :=
  let refused p := (p, source_drop drop_unauthenticated source srcs, None) in
  if negb (source_matches id source) then refused (drop_unauthenticated p)
  else
    match phase_try_authenticate p with
    | None => refused (drop_unauthenticated p)
    | Some p =>
        match source_try_authenticate source srcs with
        | None => refused (drop_authenticated p)
        | Some srcs => (p, srcs, Some (Serving id None))
        end
    end.

(** The permits of a connection that ends. *)
Definition end_connection (c : Connection) (s : Listening) : Listening :=
  match stage c with
  | Handshaking =>
      mkListening (drop_unauthenticated (phase s)) (source_drop drop_unauthenticated (from c) (sources s))
        (byte_budget s) (connections s)
  | Serving _ frame =>
      mkListening (drop_authenticated (phase s)) (source_drop drop_authenticated (from c) (sources s))
        (byte_budget s + permit_bytes (default None frame))%N (connections s)
  end.

Definition with_connections (cs : list Connection) (s : Listening) : Listening :=
  mkListening (phase s) (sources s) (byte_budget s) cs.

(** The steps of the accept task and of the tasks of its connections. *)
Inductive listen_step : Listening → Listening → Prop :=
| step_accept source s : listen_step s (accept_connection source s)
| step_authenticate id s l1 source l2 :
    connections s = l1 ++ mkConnection source Handshaking :: l2 →
    listen_step s
      (let '(p, srcs, next) := authenticate_connection id source (phase s) (sources s) in
       mkListening p srcs (byte_budget s)
         (l1 ++ match next with Some st => mkConnection source st :: l2 | None => l2 end))
| step_read s l1 source id l2 max len permit :
    connections s = l1 ++ mkConnection source (Serving id None) :: l2 →
    reserves l = Some max → (len <= max)%N → try_reserve (byte_budget s) len = Ok permit →
    listen_step s (mkListening (phase s) (sources s) (byte_budget s - permit_bytes permit)
                     (l1 ++ mkConnection source (Serving id (Some permit)) :: l2))
| step_processed s l1 source id permit l2 :
    connections s = l1 ++ mkConnection source (Serving id (Some permit)) :: l2 →
    listen_step s (mkListening (phase s) (sources s) (byte_budget s + permit_bytes permit)
                     (l1 ++ mkConnection source (Serving id None) :: l2))
| step_end s l1 c l2 :
    connections s = l1 ++ c :: l2 → listen_step s (with_connections (l1 ++ l2) (end_connection c s)).

Definition listening (s : Listening) : Prop := rtc listen_step listening_new s.

(** ** Counts *)

Definition handshaking (c : Connection) : bool := match stage c with Handshaking => true | _ => false end.
Definition serving (c : Connection) : bool := match stage c with Serving _ _ => true | _ => false end.
Definition from_source (ip : IpAddr) (c : Connection) : bool := bool_decide (to_canonical (from c) = ip).
Definition held_bytes (c : Connection) : N :=
  match stage c with Serving _ frame => permit_bytes (default None frame) | Handshaking => 0%N end.

Definition count (P : Connection → bool) (cs : list Connection) : nat := length (List.filter P cs).
Definition total_bytes (cs : list Connection) : N := foldr (λ c n, held_bytes c + n)%N 0%N cs.

(** The peers that a source address stands for. *)
Definition peers_at (ip : IpAddr) : nat := length (List.filter (λ a, bool_decide (to_canonical (socket_ip a) = ip)) addresses).
End listening.
