(* ===== verification/ConnectionTheorems.v ===== *)
(** * Limits hold, and permits are never lost *)

From S2P Require Import Prelude Text Io Replica Admission Types VipLogic Config Auth Framing Outbound Submission Connections.
From stdpp Require Import gmultiset.
Local Open Scope kaf_scope.

(** ** Counts *)

Lemma count_app P l1 l2 : count P (l1 ++ l2) = count P l1 + count P l2.
Proof. unfold count. by rewrite List.filter_app, length_app. Qed.
Lemma count_cons P c l : count P (c :: l) = (if P c then 1 else 0) + count P l.
Proof. unfold count. cbn. by destruct (P c). Qed.
Lemma total_bytes_app l1 l2 : total_bytes (l1 ++ l2) = (total_bytes l1 + total_bytes l2)%N.
Proof. induction l1 as [|c l1 IH]; [done|].
  change (held_bytes c + total_bytes (l1 ++ l2) = held_bytes c + total_bytes l1 + total_bytes l2)%N. rewrite IH. lia.
Qed.

Lemma elem_of_middle {A} (x : A) l1 l2 : x ∈ l1 ++ x :: l2.
Proof. apply elem_of_app. right. apply list_elem_of_here. Qed.

Lemma source_drop_insert f source srcs ps :
  srcs !! to_canonical source = Some ps → source_drop f source srcs = <[to_canonical source := f ps]> srcs.
Proof.
  intros Hps. apply map_eq. intros i. unfold source_drop. destruct (decide (i = to_canonical source)) as [->|Hne].
  - by rewrite lookup_alter_eq, lookup_insert_eq, Hps.
  - by rewrite lookup_alter_ne, lookup_insert_ne.
Qed.

(** Of the connections that satisfy [P], those from [ip]. *)
Definition count_from (ip : IpAddr) (P : Connection → bool) : list Connection → nat := count (λ c, P c && from_source ip c).

Lemma count_mono (P Q : Connection → bool) cs : (∀ c, P c = true → Q c = true) → count P cs <= count Q cs.
Proof.
  intros HPQ. induction cs as [|c cs IH]; [done|]. rewrite !count_cons. specialize (HPQ c).
  destruct (P c); [rewrite HPQ by done|destruct (Q c)]; lia.
Qed.

(** ** Addresses *)

Lemma canonical_socket_ip a : socket_ip (canonical_socket_addr a) = to_canonical (socket_ip a).
Proof. destruct a as [|ip port f sc]; cbn; [done|]. by destruct (to_ipv4_mapped ip). Qed.
Lemma canonical_ip_to_canonical a : canonical_source_ip a = to_canonical a.
Proof. unfold canonical_source_ip. rewrite canonical_socket_ip. by destruct a. Qed.

(** The listeners check their sources with the functions of their servers. *)
Lemma known_raft_source sock_parse cfg source :
  known_source sock_parse (raft_listener cfg) source = is_known_raft_source sock_parse cfg source.
Proof. reflexivity. Qed.
Lemma known_submit_source sock_parse cfg source :
  known_source sock_parse (submit_listener cfg) source = is_known_submit_source sock_parse cfg source.
Proof. reflexivity. Qed.
Lemma raft_source_matches sock_parse cfg id source :
  source_matches sock_parse (raft_listener cfg) id source = raft_source_matches_peer sock_parse cfg id source.
Proof. reflexivity. Qed.

Section limits.
Context (sock_parse : Text → option SocketAddr) (l : ConnectionListener).
Local Abbreviation peers_at := (peers_at sock_parse l).
Local Abbreviation listen_step := (listen_step sock_parse l).

Lemma source_limits_lookup as_ ip :
  source_limits as_ !! ip =
    let n := length (List.filter (λ a, bool_decide (to_canonical (socket_ip a) = ip)) as_) in
    if n =? 0 then None else Some (CONNECTIONS_PER_PEER * n).
Proof.
  unfold source_limits. induction as_ as [|a as_ IH] using rev_ind; [done|]. rewrite foldl_app, List.filter_app, length_app.
  cbn -[CONNECTIONS_PER_PEER Nat.mul]. case_bool_decide as Ha.
  - subst ip. rewrite lookup_insert_eq, IH. cbn -[CONNECTIONS_PER_PEER Nat.mul].
    destruct (length _) as [|n]; cbn -[CONNECTIONS_PER_PEER Nat.mul]; f_equal; lia.
  - rewrite lookup_insert_ne by done. rewrite IH. cbn -[CONNECTIONS_PER_PEER Nat.mul]. by rewrite Nat.add_0_r.
Qed.

(** ** The invariant *)

(** The permits of a source and those its connections hold. *)
Definition source_balance (s : Listening) (ip : IpAddr) : Prop :=
  match sources s !! ip with
  | Some p =>
      peers_at ip ≠ 0 ∧
      unauthenticated_free p + count_from ip handshaking (connections s) = CONNECTIONS_PER_PEER * peers_at ip ∧
      authenticated_free p + count_from ip serving (connections s) = CONNECTIONS_PER_PEER * peers_at ip
  | None => peers_at ip = 0 ∧ count (from_source ip) (connections s) = 0
  end.

Record balanced (s : Listening) : Prop := mkBalanced {
  balance_unauthenticated :
    unauthenticated_free (phase s) + count handshaking (connections s) = unauthenticated_limit l;
  balance_authenticated : authenticated_free (phase s) + count serving (connections s) = authenticated_limit l;
  balance_sources : ∀ ip, source_balance s ip;
  balance_bytes : (byte_budget s + total_bytes (connections s) = RAFT_INFLIGHT_FRAME_BYTE_LIMIT)%N;
  balance_served : ∀ c id frame,
    c ∈ connections s → stage c = Serving id frame → source_matches sock_parse l id (from c) = true
}.

Lemma balanced_new : balanced (listening_new sock_parse l).
Proof.
  split; cbn; [by rewrite Nat.add_0_r..| |done|by intros c ? ? ?%elem_of_nil].
  intros ip. unfold source_balance. cbn -[CONNECTIONS_PER_PEER Nat.mul]. unfold source_new. rewrite lookup_fmap, source_limits_lookup.
  fold (peers_at ip). cbn -[CONNECTIONS_PER_PEER Nat.mul]. destruct (peers_at ip) as [|n] eqn:Hn; [done|].
  cbn -[CONNECTIONS_PER_PEER Nat.mul]. by rewrite !Nat.add_0_r.
Qed.

(** The free permits and the connections that hold one. *)
Definition same_total (p p' : PhaseAdmission) (cs cs' : list Connection) : Prop :=
  unauthenticated_free p' + count handshaking cs' = unauthenticated_free p + count handshaking cs ∧
  authenticated_free p' + count serving cs' = authenticated_free p + count serving cs.

Lemma count_from_app ip P l1 l2 : count_from ip P (l1 ++ l2) = count_from ip P l1 + count_from ip P l2.
Proof. apply count_app. Qed.

Lemma count_from_here ip P cs : Forall (λ c, to_canonical (from c) = ip) cs → count_from ip P cs = count P cs.
Proof.
  unfold count_from. induction 1 as [|c cs Hc _ IH]; [done|]. rewrite !count_cons, IH. unfold from_source.
  rewrite bool_decide_true by done. by rewrite andb_true_r.
Qed.
Lemma count_from_elsewhere ip P cs : Forall (λ c, to_canonical (from c) ≠ ip) cs → count_from ip P cs = 0.
Proof.
  unfold count_from. induction 1 as [|c cs Hc _ IH]; [done|]. rewrite count_cons, IH. unfold from_source.
  rewrite bool_decide_false by done. by rewrite andb_false_r.
Qed.

(** Connections [cs] from one source, in between the others, become [cs']. *)
Lemma balanced_change s source l1 cs cs' l2 p' srcs' b' ps ps' :
  balanced s → connections s = l1 ++ cs ++ l2 →
  Forall (λ c, to_canonical (from c) = to_canonical source) cs → Forall (λ c, to_canonical (from c) = to_canonical source) cs' →
  same_total (phase s) p' cs cs' → sources s !! to_canonical source = Some ps → srcs' = <[to_canonical source := ps']> (sources s) →
  same_total ps ps' cs cs' → (b' + total_bytes cs' = byte_budget s + total_bytes cs)%N →
  (∀ c id frame, c ∈ cs' → stage c = Serving id frame → source_matches sock_parse l id (from c) = true) →
  balanced (mkListening p' srcs' b' (l1 ++ cs' ++ l2)).
Proof.
  intros [Hu Ha Hs Hb Hm] Hcs Hfrom Hfrom' [Hpu Hpa] Hps -> [Hsu Hsa] Hbytes Hserved.
  rewrite Hcs, !count_app in Hu, Ha. rewrite Hcs, !total_bytes_app in Hb. split; cbn [phase sources byte_budget connections].
  - rewrite !count_app. lia.
  - rewrite !count_app. lia.
  - intros ip. specialize (Hs ip). unfold source_balance in *. cbn [phase sources byte_budget connections]. rewrite Hcs in Hs. destruct (decide (ip = to_canonical source)) as [->|Hne].
    + rewrite lookup_insert_eq. rewrite Hps, !count_from_app, !(count_from_here _ _ cs) in Hs by done.
      rewrite !count_from_app, !(count_from_here _ _ cs') by done. lia.
    + rewrite lookup_insert_ne by done. assert (∀ P, count_from ip P cs = 0 ∧ count_from ip P cs' = 0) as Hz.
      { intros P. split; apply count_from_elsewhere; eapply Forall_impl; try done; intros c ->; congruence. }
      change (count (from_source ip)) with (count_from ip (λ _, true)) in *. rewrite !count_from_app in Hs. rewrite !count_from_app.
      pose proof (Hz handshaking). pose proof (Hz serving). pose proof (Hz (λ _, true)). destruct (sources s !! ip); lia.
  - rewrite !total_bytes_app. lia.
  - intros c id frame Hc. rewrite !elem_of_app in Hc. destruct Hc as [Hc|[Hc|Hc]]; [|by eapply Hserved|]; apply Hm;
      rewrite Hcs, !elem_of_app; auto.
Qed.

Lemma balanced_source s c : balanced s → c ∈ connections s → is_Some (sources s !! to_canonical (from c)).
Proof.
  intros Hb Hc. pose proof (balance_sources _ Hb (to_canonical (from c))) as Hs. unfold source_balance in Hs.
  destruct (sources s !! _); [by eexists|]. destruct Hs as [_ Hz%nil_length_inv]. exfalso.
  assert (In c []) as []. rewrite <- Hz. apply List.filter_In. split; [by apply list_elem_of_In|by apply bool_decide_true].
Qed.

Lemma balanced_accept source s : balanced s → balanced (accept_connection sock_parse l source s).
Proof.
  intros Hb. unfold accept_connection. destruct (known_source _ _ _); [|done]. cbn [negb].
  destruct s as [[u a] srcs b cs]. unfold phase_try_begin. cbn. destruct u as [|u]; [done|]. unfold source_try_begin, phase_try_begin.
  destruct (srcs !! to_canonical source) as [[su sa]|] eqn:Hsrc; [|done]. cbn. destruct su as [|su]; [done|]. cbn.
  pose proof (balanced_change _ source cs [] [mkConnection source Handshaking] [] (mkPhaseAdmission u a)
    (<[to_canonical source := mkPhaseAdmission su sa]> srcs) b (mkPhaseAdmission (S su) sa)
    (mkPhaseAdmission su sa) Hb) as Hc. cbn in Hc. rewrite !app_nil_r in Hc. apply Hc;
    first [done|by repeat constructor|by split; cbn; lia|by intros c id frame ->%list_elem_of_singleton].
Qed.

(** One connection changes or ends. *)
Lemma balanced_one s source st st' l1 l2 p' b' ps ps' :
  balanced s → connections s = l1 ++ mkConnection source st :: l2 → sources s !! to_canonical source = Some ps →
  let next := match st' with Some st' => [mkConnection source st'] | None => [] end in
  same_total (phase s) p' [mkConnection source st] next → same_total ps ps' [mkConnection source st] next →
  (b' + total_bytes next = byte_budget s + total_bytes [mkConnection source st])%N →
  (∀ id frame, st' = Some (Serving id frame) → source_matches sock_parse l id source = true) →
  balanced (mkListening p' (<[to_canonical source := ps']> (sources s)) b' (l1 ++ next ++ l2)).
Proof.
  intros Hb Hcs Hps next Hp Hs Hbytes Hm. eapply (balanced_change s source l1 [mkConnection source st]); try done.
  - by repeat constructor.
  - unfold next. destruct st'; by repeat constructor.
  - intros c id frame Hc Hst. unfold next in Hc. destruct st' as [st'|]; [|by apply elem_of_nil in Hc].
    apply list_elem_of_singleton in Hc as ->. cbn in Hst |- *. subst st'. by eapply Hm.
Qed.

Lemma balanced_authenticate id s l1 source l2 p srcs next :
  balanced s → connections s = l1 ++ mkConnection source Handshaking :: l2 →
  authenticate_connection sock_parse l id source (phase s) (sources s) = (p, srcs, next) →
  balanced (mkListening p srcs (byte_budget s) (l1 ++ match next with Some st => mkConnection source st :: l2 | None => l2 end)).
Proof.
  intros Hb Hcs. destruct (balanced_source s (mkConnection source Handshaking) Hb) as [ps Hps].
  { rewrite Hcs. apply elem_of_middle. }
  cbn in Hps. unfold authenticate_connection. rewrite (source_drop_insert _ _ _ _ Hps).
  assert (∀ p', same_total (phase s) p' [mkConnection source Handshaking] [] →
    balanced (mkListening p' (<[to_canonical source := drop_unauthenticated ps]> (sources s)) (byte_budget s) (l1 ++ l2))) as Hrefused.
  { intros p' Hp'. apply (balanced_one s source Handshaking None l1 l2 p' _ ps); try done. split; cbn; lia. }
  destruct (source_matches _ _ _ _) eqn:Hm; cbn [negb]; [|intros [= <- <- <-]; apply Hrefused; split; cbn; lia].
  unfold phase_try_authenticate, source_try_authenticate. destruct (authenticated_free (phase s)) as [|a] eqn:Ha.
  { intros [= <- <- <-]. apply Hrefused. split; cbn; lia. }
  rewrite Hps. cbn. unfold phase_try_authenticate. destruct (authenticated_free ps) as [|sa] eqn:Hsa; cbn.
  - intros [= <- <- <-]. apply Hrefused. split; cbn; lia.
  - intros [= <- <- <-]. apply (balanced_one s source Handshaking (Some (Serving id None)) l1 l2 _ _ ps); try done.
    + split; cbn; lia.
    + split; cbn; lia.
    + by intros ? ? [= <- <-].
Qed.

Lemma balanced_end s l1 c l2 :
  balanced s → connections s = l1 ++ c :: l2 → balanced (with_connections (l1 ++ l2) (end_connection c s)).
Proof.
  intros Hb Hcs. destruct (balanced_source s c Hb) as [ps Hps].
  { rewrite Hcs. apply elem_of_middle. }
  destruct c as [source st]. cbn in Hps.
  destruct st as [|id frame]; unfold with_connections, end_connection; cbn; rewrite (source_drop_insert _ _ _ _ Hps).
  - apply (balanced_one s source Handshaking None l1 l2 _ _ ps); try done; split; cbn; lia.
  - apply (balanced_one s source (Serving id frame) None l1 l2 _ _ ps); try done; [split; cbn; lia..|unfold permit_bytes; cbn; unfold permit_bytes; lia].
Qed.

Lemma balanced_step s s' : listen_step s s' → balanced s → balanced s'.
Proof.
  intros [source s0|id s0 l1 source l2 Hcs|s0 l1 source id l2 max len permit Hcs _ _ Hr|s0 l1 source id permit l2 Hcs|s0 l1 c l2 Hcs] Hb.
  - by apply balanced_accept.
  - destruct (authenticate_connection _ _ _ _ _ _) as [[p srcs] next] eqn:Ha. by eapply balanced_authenticate.
  - destruct (balanced_source s0 (mkConnection source (Serving id None)) Hb) as [ps Hps].
    { rewrite Hcs. apply elem_of_middle. }
    cbn in Hps. rewrite <- (insert_id (sources s0) (to_canonical source) ps) by done.
    apply (balanced_one s0 source (Serving id None) (Some (Serving id (Some permit))) l1 l2 _ _ ps); try done.
    + unfold try_reserve in Hr. destruct (len =? 0)%N; [injection Hr as <-; cbn; lia|].
      destruct (N.leb_spec len (byte_budget s0)); [|done]. injection Hr as <-. cbn. lia.
    + intros ? ? [= <- <-]. eapply (balance_served _ Hb (mkConnection source (Serving id None))); [|done].
      rewrite Hcs. apply elem_of_middle.
  - destruct (balanced_source s0 (mkConnection source (Serving id (Some permit))) Hb) as [ps Hps].
    { rewrite Hcs. apply elem_of_middle. }
    cbn in Hps. rewrite <- (insert_id (sources s0) (to_canonical source) ps) by done.
    apply (balanced_one s0 source (Serving id (Some permit)) (Some (Serving id None)) l1 l2 _ _ ps); try done.
    + unfold permit_bytes. cbn. lia.
    + intros ? ? [= <- <-]. eapply (balance_served _ Hb (mkConnection source (Serving id (Some permit)))); [|done].
      rewrite Hcs. apply elem_of_middle.
  - by apply balanced_end.
Qed.

Lemma listening_balanced s : listening sock_parse l s → balanced s.
Proof.
  unfold listening. intros Hs. assert (balanced (listening_new sock_parse l)) as Hn by apply balanced_new.
  induction Hs as [|s1 s2 s3 H12 _ IH]; [done|]. apply IH. by eapply balanced_step.
Qed.

(** ** All sources together *)

Lemma multiplicity_keys {A} (f : A → IpAddr) (xs : list A) ip :
  multiplicity ip (list_to_set_disj (f <$> xs)) = length (List.filter (λ x, bool_decide (f x = ip)) xs).
Proof.
  induction xs as [|x xs IH]; [done|]. rewrite fmap_cons, list_to_set_disj_cons, multiplicity_disj_union, IH. cbn [List.filter].
  rewrite multiplicity_singleton. case_bool_decide as Hx.
  - subst. by rewrite decide_True.
  - by rewrite decide_False by congruence.
Qed.

Lemma size_keys (ks : list IpAddr) : size (list_to_set_disj ks : gmultiset IpAddr) = length ks.
Proof.
  induction ks as [|k ks IH]; [done|]. rewrite list_to_set_disj_cons, gmultiset_size_disj_union, gmultiset_size_singleton, IH. done.
Qed.

(** If no source has more connections than its peers allow, neither have all together. *)
Lemma sources_total cs n :
  (∀ ip, length (List.filter (from_source ip) cs) <= n * peers_at ip) → length cs <= n * length (listener_peers l).
Proof.
  intros Hip. set (keys := (λ a, to_canonical (socket_ip a)) <$> addresses sock_parse l).
  assert (size (list_to_set_disj ((λ c, to_canonical (from c)) <$> cs) : gmultiset IpAddr)
    <= size (n *: (list_to_set_disj keys : gmultiset IpAddr))) as Hsize.
  { apply gmultiset_subseteq_size. intros ip. unfold keys. rewrite multiplicity_scalar_mul, !multiplicity_keys. apply Hip. }
  rewrite gmultiset_size_scalar_mul, !size_keys, length_fmap in Hsize. unfold keys in Hsize. rewrite length_fmap in Hsize.
  etrans; [exact Hsize|]. apply Nat.mul_le_mono_l. unfold addresses. induction (listener_peers l) as [|p ps IH]; [done|]. cbn.
  destruct (sock_parse _); cbn; lia.
Qed.
End limits.

(** C20: connections stay within their limits.  In every state of a listener, however
    connections are accepted, authenticate, read frames and end: at most its limit of
    connections wait for their authentication, and at most its limit are served; each
    source address has at most eight per phase for every peer that advertises it; the
    frames in processing hold no more than the byte budget; and what is not held is
    free, so a listener without connections has all its permits.  A connection that is
    served came from the address advertised for the peer it authenticated as. *)
Theorem connections_bounded sock_parse l s :
  listening sock_parse l s →
  let cs := connections s in
  count handshaking cs <= unauthenticated_limit l ∧ count serving cs <= authenticated_limit l ∧
  (∀ ip, count_from ip handshaking cs <= CONNECTIONS_PER_PEER * peers_at sock_parse l ip ∧
         count_from ip serving cs <= CONNECTIONS_PER_PEER * peers_at sock_parse l ip) ∧
  (total_bytes cs <= RAFT_INFLIGHT_FRAME_BYTE_LIMIT)%N ∧
  (∀ c id frame, c ∈ cs → stage c = Serving id frame → source_matches sock_parse l id (from c) = true) ∧
  (cs = [] → s = listening_new sock_parse l).
Proof.
  intros Hs%listening_balanced cs. destruct Hs as [Hu Ha Hsrc Hb Hm]. fold cs in Hu, Ha, Hsrc, Hb, Hm.
  split_and!; [lia|lia| |lia|done|].
  - intros ip. specialize (Hsrc ip). unfold source_balance in Hsrc. fold cs in Hsrc. destruct (sources s !! ip); [lia|].
    destruct Hsrc as [_ Hz]. assert (∀ P, count_from ip P cs <= 0) as Hle; [|pose proof (Hle handshaking); pose proof (Hle serving); lia].
    intros P. rewrite <- Hz. apply count_mono. by intros c [_ ?]%andb_prop.
  - intros Hnil. destruct s as [[u a] srcs b cs0]. cbn in *. subst cs cs0. cbn in *. unfold listening_new, phase_new.
    f_equal; [f_equal; lia| |lia]. apply map_eq. intros ip. specialize (Hsrc ip). unfold source_balance in Hsrc. cbn -[Nat.mul CONNECTIONS_PER_PEER] in Hsrc.
    unfold source_new. rewrite lookup_fmap, source_limits_lookup. fold (peers_at sock_parse l ip). cbv zeta.
    destruct (srcs !! ip) as [[su sa]|]; destruct (Nat.eqb_spec (peers_at sock_parse l ip) 0) as [Hz|Hz]; try tauto.
    destruct Hsrc as (_ & Hsu & Hsa). cbn -[Nat.mul CONNECTIONS_PER_PEER] in *. rewrite Nat.add_0_r in Hsu, Hsa. by subst.
Qed.

Lemma count_filter P Q cs : count Q (List.filter P cs) = count (λ c, P c && Q c) cs.
Proof.
  induction cs as [|c cs IH]; [done|]. cbn [List.filter]. rewrite count_cons, <- IH.
  destruct (P c); [by rewrite count_cons|done].
Qed.

(** C33: no source keeps another one out.  If the limit of the listener covers the limits
    of all peers (up to four peers with the limits of both servers), then a connection
    from a configured address is admitted whenever fewer connections from that address
    wait for their authentication than it may have, whatever the other sources do. *)
Theorem source_not_crowded_out sock_parse l s source :
  listening sock_parse l s → CONNECTIONS_PER_PEER * length (listener_peers l) <= unauthenticated_limit l →
  known_source sock_parse l source = true →
  count_from (to_canonical source) handshaking (connections s) < CONNECTIONS_PER_PEER * peers_at sock_parse l (to_canonical source) →
  connections (accept_connection sock_parse l source s) = connections s ++ [mkConnection source Handshaking].
Proof.
  intros Hs%listening_balanced Hlimit Hknown Hfree. destruct Hs as [Hu _ Hsrc _ _].
  assert (length (mkConnection source Handshaking :: List.filter handshaking (connections s))
    <= CONNECTIONS_PER_PEER * length (listener_peers l)) as Htotal.
  { apply (sources_total sock_parse). intros ip. change (length (List.filter (from_source ip) ?k)) with (count (from_source ip) k).
    rewrite count_cons, count_filter. fold (count_from ip handshaking (connections s)). unfold from_source at 1. cbn [from].
    case_bool_decide as Hip; [subst ip; lia|]. specialize (Hsrc ip). unfold source_balance in Hsrc. destruct (sources s !! ip); [lia|].
    destruct Hsrc as [_ Hz]. assert (count_from ip handshaking (connections s) <= 0); [|lia].
    rewrite <- Hz. apply count_mono. by intros c [_ ?]%andb_prop. }
  cbn [length] in Htotal. fold (count handshaking (connections s)) in Htotal.
  unfold accept_connection, phase_try_begin, source_try_begin. rewrite Hknown. cbn [negb].
  destruct (unauthenticated_free (phase s)) as [|u]; [lia|]. specialize (Hsrc (to_canonical source)). unfold source_balance in Hsrc.
  destruct (sources s !! to_canonical source) as [ps|]; [|destruct Hsrc; lia]. cbn. unfold phase_try_begin.
  destruct (unauthenticated_free ps); [lia|done].
Qed.

(** ** An example: a peer connects and sends a frame *)

Module Busy.
Local Open Scope N_scope.
Definition l : ConnectionListener := raft_listener Demo.cfg.
Definition source : IpAddr := V4 167772162.
Definition accepted : Listening := accept_connection Demo.sock_parse l source (listening_new Demo.sock_parse l).
Definition served : Listening :=
  let '(p, srcs, next) := authenticate_connection Demo.sock_parse l 2 source (phase accepted) (sources accepted) in
  mkListening p srcs (byte_budget accepted) (match next with Some st => [mkConnection source st] | None => [] end).
Definition reading : Listening :=
  mkListening (phase served) (sources served) (byte_budget served - 1000)
    [mkConnection source (Serving 2 (Some (Some 1000)))].

Lemma served_one : connections served = [mkConnection source (Serving 2 None)].
Proof. vm_compute. reflexivity. Qed.

Lemma reached : listening Demo.sock_parse l reading.
Proof.
  eapply rtc_l; [exact (step_accept Demo.sock_parse l source _)|].
  eapply rtc_l; [exact (step_authenticate Demo.sock_parse l 2 accepted [] source [] (eq_refl _))|].
  apply rtc_once. apply (step_read Demo.sock_parse l served [] source 2 [] (max_frame_bytes Demo.cfg) 1000 (Some 1000));
    [apply served_one|done..].
Qed.
End Busy.

Lemma connections_bounded_witness :
  count serving (connections Busy.reading) <= 64 ∧ total_bytes (connections Busy.reading) = 1000%N.
Proof.
  split; [|vm_compute; reflexivity].
  apply (connections_bounded Demo.sock_parse Busy.l Busy.reading Busy.reached).
Defined.

Lemma source_not_crowded_out_witness :
  connections (accept_connection Demo.sock_parse Busy.l Busy.source Busy.reading)
  = connections Busy.reading ++ [mkConnection Busy.source Handshaking].
Proof.
  apply (source_not_crowded_out Demo.sock_parse Busy.l Busy.reading Busy.source Busy.reached).
  - vm_compute. lia.
  - vm_compute. reflexivity.
  - vm_compute. lia.
Defined.
