(* ===== verification/Guard.v ===== *)
(** * The cluster guard and the end of the daemon
    (src/raft/guard.rs, src/raft/probe.rs, src/raft/control.rs, src/raft/mod.rs, src/raft/tasks.rs, src/main.rs)

    Every second a node asks its peers for their configuration and incarnation; if
    a majority of the roster agrees on another one for three rounds, the node
    stops.  And how the outcome of a supervised task and of the shutdown becomes
    the result of the daemon. *)

From S2P Require Import Prelude Text Io Replica Admission Types VipLogic Config Request Outbound.

(** ** Groups of peers (probe.rs) *)

#[global] Instance ClusterConfigFingerprint_countable : Countable ClusterConfigFingerprint.
Proof.
  by apply (inj_countable' (λ f, (version f, config_digest f)) (λ p, mkClusterConfigFingerprint p.1 p.2)); intros [].
Defined.

Section groups.
Context {K : Type} `{Countable K}.

(** The loop [*groups.entry(identity).or_default() += 1]. *)
Definition groups (l : list K) : gmap K nat := foldl (λ m k, <[k := S (default 0 (m !! k))]> m) ∅ l.

(** [groups.values().copied().max().unwrap_or(0)]. *)
Definition largest_group (l : list K) : nat := foldr Nat.max 0 (map_to_list (groups l)).*2.

Definition occurrences (k : K) (l : list K) : nat := length (List.filter (λ x, bool_decide (x = k)) l).

Lemma groups_lookup l k : groups l !! k = let n := occurrences k l in if n =? 0 then None else Some n.
Proof.
  unfold groups, occurrences. induction l as [|x l IH] using rev_ind; [done|]. rewrite foldl_app, List.filter_app, length_app. cbn.
  case_bool_decide as Hx.
  - subst x. rewrite lookup_insert_eq, IH. cbn. rewrite Nat.add_1_r. by destruct (length _).
  - rewrite lookup_insert_ne by done. rewrite IH. cbn. by rewrite Nat.add_0_r.
Qed.

Lemma foldr_max_le (ns : list nat) m : (∀ n, n ∈ ns → n <= m) → foldr Nat.max 0 ns <= m.
Proof. induction ns as [|n ns IH]; cbn; intros Hm; [lia|]. pose proof (Hm n (list_elem_of_here _ _)).
  apply Nat.max_lub; [done|]. apply IH. intros k Hk. apply Hm. by apply list_elem_of_further. Qed.
Lemma foldr_max_ge (ns : list nat) n : n ∈ ns → n <= foldr Nat.max 0 ns.
Proof. induction 1; cbn; lia. Qed.
Lemma foldr_max_in (ns : list nat) m : 0 < m → m <= foldr Nat.max 0 ns → ∃ n, n ∈ ns ∧ m <= n.
Proof.
  intros Hm. induction ns as [|n ns IH]; cbn; [lia|]. intros Hle. destruct (decide (m <= n)).
  - exists n. split; [apply list_elem_of_here|done].
  - destruct IH as (k & Hk & Hmk); [lia|]. exists k. split; [by apply list_elem_of_further|done].
Qed.

(** The largest group has [m] members iff one value occurs [m] times. *)
Lemma largest_group_spec l m : 0 < m → m <= largest_group l ↔ ∃ k, m <= occurrences k l.
Proof.
  intros Hm. unfold largest_group. split.
  - intros (n & Hn & Hmn)%foldr_max_in; [|done]. apply list_elem_of_fmap in Hn as ([k n'] & -> & Hk%elem_of_map_to_list).
    exists k. rewrite groups_lookup in Hk. cbn in Hk, Hmn. destruct (occurrences k l =? 0); [done|]. injection Hk as <-. done.
  - intros (k & Hk). etrans; [exact Hk|]. apply foldr_max_ge, list_elem_of_fmap. exists (k, occurrences k l). split; [done|].
    apply elem_of_map_to_list. rewrite groups_lookup. cbn. destruct (Nat.eqb_spec (occurrences k l) 0); [lia|done].
Qed.
End groups.

(** [largest_foreign_identity_group]. *)
Definition largest_foreign_identity_group (local : ClusterConfigFingerprint)
    (identities : list (option ClusterConfigFingerprint)) : nat :=
  largest_group (List.filter (λ f, negb (bool_decide (f = local))) (omap id identities)).

(** [largest_foreign_epoch_group]. *)
Definition largest_foreign_epoch_group (local : option N) (epochs : list (option N)) : nat :=
  match local with
  | None => 0
  | Some local => largest_group (List.filter (λ e, negb (e =? local)%N) (omap id epochs))
  end.

(** [ConsecutiveMajority] and its [observe]; the count saturates at [u32::MAX]. *)
Record ConsecutiveMajority := mkConsecutiveMajority { strikes : N; required : N }.

Definition consecutive_new (required : N) : ConsecutiveMajority := mkConsecutiveMajority 0 required.
Definition consecutive_observe (c : ConsecutiveMajority) (largest majority : nat) : ConsecutiveMajority * bool :=
  let strikes := if majority <=? largest then N.min (strikes c + 1) u32_max else 0%N in
  (mkConsecutiveMajority strikes (required c), (required c <=? strikes)%N).

(** ** The guard (guard.rs, control.rs) *)

Record GuardRound := mkGuardRound {
  local_epoch_known : bool;
  foreign_config : nat;
  foreign_epoch : nat
}.

Inductive GuardVerdict := Continue | FenceConfig | FenceEpoch.

Record ClusterGuard := mkClusterGuard {
  majority : nat;
  guard_config : ConsecutiveMajority;
  guard_epoch : ConsecutiveMajority
}.

(** [ClusterGuard::new] and [observe]. *)
Definition guard_new (roster_size : nat) (required_strikes : N) : ClusterGuard :=
  mkClusterGuard (roster_size / 2 + 1) (consecutive_new required_strikes) (consecutive_new required_strikes).

Definition guard_observe (g : ClusterGuard) (r : GuardRound) : ClusterGuard * GuardVerdict :=
  let '(c, fence) := consecutive_observe (guard_config g) (foreign_config r) (majority g) in
  if fence then (mkClusterGuard (majority g) c (guard_epoch g), FenceConfig)
  else
    let foreign := if local_epoch_known r then foreign_epoch r else 0 in
    let '(e, fence) := consecutive_observe (guard_epoch g) foreign (majority g) in
    (mkClusterGuard (majority g) c e, if fence then FenceEpoch else Continue).

(** [GUARD_STRIKES_TO_RESET]. *)
Definition GUARD_STRIKES_TO_RESET : N := 3.

(** [FatalReason] and [exit_code]. *)
Inductive FatalReason := StaleSurvivor | ConfigMismatch.
Definition exit_code (r : FatalReason) : N := match r with StaleSurvivor => 3 | ConfigMismatch => 4 end.

(** What a round of [run_cluster_guard] learns: the epoch of the node and the answers. *)
Record Probed := mkProbed { probed_epoch : option N; answers : list ClusterStatusResponse }.

Definition guard_round (fingerprint : ClusterConfigFingerprint) (p : Probed) : GuardRound :=
  mkGuardRound (bool_decide (is_Some (probed_epoch p)))
    (largest_foreign_identity_group fingerprint (response_fingerprint <$> answers p))
    (largest_foreign_epoch_group (probed_epoch p) (status_epoch <$> answers p)).

(** The rounds of [run_cluster_guard]: the reason it sends, if it does. *)
Fixpoint guard_rounds (fingerprint : ClusterConfigFingerprint) (g : ClusterGuard) (ps : list Probed) : option FatalReason :=
  match ps with
  | [] => None
  | p :: ps =>
      match guard_observe g (guard_round fingerprint p) with
      | (g, Continue) => guard_rounds fingerprint g ps
      | (_, FenceConfig) => Some ConfigMismatch
      | (_, FenceEpoch) => Some StaleSurvivor
      end
  end.
Definition run_cluster_guard (cfg : Config) (fingerprint : ClusterConfigFingerprint) (ps : list Probed) : option FatalReason :=
  guard_rounds fingerprint (guard_new (length (peers cfg)) GUARD_STRIKES_TO_RESET) ps.

(** ** Supervision and the end (tasks.rs, main.rs) *)

(** How a future of a task ends. *)
Inductive TaskEnd := Finished | TaskFailed (reason : string) | Panicked (message : string).
Inductive CleanExit := Allowed | Unexpected.

(** [spawn_supervised_task]: the result, which is sent as a failure if it is an error. *)
Definition supervised (name : string) (shutdown : bool) (clean_exit : CleanExit) (e : TaskEnd) : Result unit string :=
  match e with
  | Finished =>
      if shutdown then Ok tt
      else match clean_exit with Allowed => Ok tt | Unexpected => Err (name ++ " exited unexpectedly")%string end
  | TaskFailed reason => Err (name ++ ": " ++ reason)%string
  | Panicked message => Err (name ++ " panicked: " ++ message)%string
  end.

(** How a task that was aborted is joined, and [stop_supervised_tasks]: its failures. *)
Inductive Joined := Returned (r : Result unit string) | Cancelled | JoinFailed (reason : string) | NotStopped.
Definition stop_supervised_tasks (tasks : list (string * Joined)) : list string :=
  omap (λ '(name, j), match j with
                      | Returned (Ok _) | Cancelled => None
                      | Returned (Err e) => Some (name ++ ": " ++ e)%string
                      | JoinFailed e => Some (name ++ " join: " ++ e)%string
                      | NotStopped => Some (name ++ " did not stop")%string
                      end) tasks.

(** [StopReason] and [finish_daemon_run]. *)
Inductive StopReason := Complete (reason : option FatalReason) | RestartRequested (error : string) | DaemonFailed (error : string).
Definition finish_daemon_run (stop : StopReason) (failures : list string) : Result (option FatalReason) string :=
  match stop, failures with
  | Complete reason, [] => Ok reason
  | Complete _, _ => Err ("daemon shutdown failed: " ++ String.concat "; " failures)%string
  | (RestartRequested error | DaemonFailed error), [] => Err error
  | (RestartRequested error | DaemonFailed error), _ =>
      Err ("additional daemon shutdown failures: " ++ String.concat "; " failures ++ ": " ++ error)%string
  end.

(** ** When the guard stops the node *)

(** A majority of the roster reports one configuration, or one incarnation, that differs
    from that of the node. *)
Definition foreign_config_majority (cfg : Config) (fingerprint : ClusterConfigFingerprint) (p : Probed) : Prop :=
  ∃ f, f ≠ fingerprint ∧
    length (peers cfg) / 2 + 1 <= length (List.filter (λ r, bool_decide (response_fingerprint r = Some f)) (answers p)).
Definition foreign_epoch_majority (cfg : Config) (p : Probed) : Prop :=
  ∃ mine e, probed_epoch p = Some mine ∧ e ≠ mine ∧
    length (peers cfg) / 2 + 1 <= length (List.filter (λ r, bool_decide (status_epoch r = Some e)) (answers p)).

Section counting.
Context {K : Type} `{Countable K}.

Lemma occurrences_foreign (value : ClusterStatusResponse → option K) (foreign : K → bool) k rs :
  occurrences k (List.filter foreign (omap id (value <$> rs)))
  = if foreign k then length (List.filter (λ r, bool_decide (value r = Some k)) rs) else 0.
Proof.
  unfold occurrences. induction rs as [|r rs IH]; [by destruct (foreign k)|]. cbn. destruct (value r) as [x|] eqn:Hv; cbn.
  - destruct (foreign x) eqn:Hf; cbn.
    + case_bool_decide as Hx; [subst; rewrite Hf in *; rewrite bool_decide_true by done; cbn; by rewrite IH|].
      rewrite bool_decide_false by congruence. done.
    + case_bool_decide as Hx; [|done]. injection Hx as ->. by rewrite Hf in *.
  - rewrite bool_decide_false by done. done.
Qed.
End counting.

Lemma foreign_config_spec cfg fingerprint p :
  length (peers cfg) / 2 + 1 <= foreign_config (guard_round fingerprint p) ↔ foreign_config_majority cfg fingerprint p.
Proof.
  cbn. unfold largest_foreign_identity_group, foreign_config_majority. rewrite largest_group_spec by lia. split.
  - intros (k & Hk). rewrite occurrences_foreign in Hk. case_bool_decide; cbn in Hk; [lia|]. by exists k.
  - intros (f & Hf & Hle). exists f. rewrite occurrences_foreign. by rewrite bool_decide_false.
Qed.

Lemma foreign_epoch_spec cfg fingerprint p :
  let r := guard_round fingerprint p in
  length (peers cfg) / 2 + 1 <= (if local_epoch_known r then foreign_epoch r else 0) ↔ foreign_epoch_majority cfg p.
Proof.
  cbn. unfold largest_foreign_epoch_group, foreign_epoch_majority. destruct (probed_epoch p) as [mine|]; cbn.
  - rewrite largest_group_spec by lia. split.
    + intros (k & Hk). rewrite occurrences_foreign in Hk. destruct (N.eqb_spec k mine); cbn in Hk; [lia|]. by exists mine, k.
    + intros (m & e & [= <-] & He & Hle). exists e. rewrite occurrences_foreign. destruct (N.eqb_spec e mine); done.
  - split; [lia|]. by intros (m & e & ? & _).
Qed.

(** Three rounds in a row that satisfy [P]. *)
Definition three_rounds (P : Probed → Prop) (ps : list Probed) : Prop :=
  ∃ before streak later, ps = before ++ streak ++ later ∧ length streak = 3 ∧ Forall P streak.

(** The same as a count, with [s] such rounds before the list. *)
Fixpoint streaks (c : Probed → bool) (s : nat) (ps : list Probed) : bool :=
  match ps with
  | [] => false
  | p :: ps => if c p then (s =? 2) || streaks c (S s) ps else streaks c 0 ps
  end.

Lemma streaks_three c s ps (P : Probed → Prop) :
  (∀ p, c p = true ↔ P p) → s <= 2 →
  streaks c s ps = true ↔
    three_rounds P ps ∨ ∃ streak later, ps = streak ++ later ∧ length streak = 3 - s ∧ Forall P streak.
Proof.
  intros Hc. revert s. induction ps as [|p ps IH]; intros s Hs; cbn.
  - split; [done|]. intros [(b & k & l & Heq & Hl & _)|(k & l & Heq & Hl & _)]; exfalso;
      apply (f_equal length) in Heq; rewrite !length_app in Heq; cbn in Heq; lia.
  - destruct (c p) eqn:Hp.
    + apply Hc in Hp. destruct (Nat.eqb_spec s 2) as [->|Hne]; cbn.
      { split; [intros _; right; exists [p], ps; by repeat constructor|done]. }
      rewrite IH by lia. split.
      * intros [(b & k & l & -> & Hl & Hk)|(k & l & -> & Hl & Hk)]; [left; by exists (p :: b), k, l|].
        right. exists (p :: k), l. split_and!; [done|cbn; lia|by constructor].
      * intros [(b & k & l & Heq & Hl & Hk)|(k & l & Heq & Hl & Hk)].
        -- destruct b as [|x b]; [|injection Heq as <- ->; left; by exists b, k, l].
           destruct k as [|x k]; [done|]. injection Heq as <- ->. apply Forall_cons in Hk as [_ Hk].
           right. exists (take (3 - S s) k), (drop (3 - S s) k ++ l). split_and!; [by rewrite app_assoc, take_drop| |by apply Forall_take].
           rewrite length_take. cbn in Hl. lia.
        -- destruct k as [|x k]; [cbn in Hl; lia|]. injection Heq as <- ->. apply Forall_cons in Hk as [_ Hk].
           right. exists k, l. split_and!; [done|cbn in Hl; lia|done].
    + assert (¬ P p) as HnP by (intros H%Hc; congruence). rewrite IH by lia. split.
      * intros [(b & k & l & -> & Hl & Hk)|(k & l & -> & Hl & Hk)]; left; [by exists (p :: b), k, l|by exists [p], k, l].
      * intros [(b & k & l & Heq & Hl & Hk)|(k & l & Heq & Hl & Hk)].
        -- destruct b as [|x b]; [|injection Heq as <- ->; left; by exists b, k, l].
           destruct k as [|x k]; [done|]. injection Heq as <- ->. by apply Forall_cons in Hk as [? _].
        -- destruct k as [|x k]; [cbn in Hl; lia|]. injection Heq as <- ->. by apply Forall_cons in Hk as [? _].
Qed.

Lemma streaks_new c ps (P : Probed → Prop) : (∀ p, c p = true ↔ P p) → streaks c 0 ps = true ↔ three_rounds P ps.
Proof.
  intros Hc. rewrite (streaks_three c 0 ps P) by (done || lia). split; [|by left].
  intros [?|(k & l & -> & Hl & Hk)]; [done|]. by exists [], k, l.
Qed.

(** The guard with [s] and [s'] strikes counts such rounds. *)
Lemma guard_rounds_spec fingerprint m s s' ps :
  s <= 2 → s' <= 2 →
  let c p := m <=? foreign_config (guard_round fingerprint p) in
  let e p := m <=? (if local_epoch_known (guard_round fingerprint p) then foreign_epoch (guard_round fingerprint p) else 0) in
  match guard_rounds fingerprint (mkClusterGuard m (mkConsecutiveMajority (N.of_nat s) GUARD_STRIKES_TO_RESET)
          (mkConsecutiveMajority (N.of_nat s') GUARD_STRIKES_TO_RESET)) ps with
  | Some ConfigMismatch => streaks c s ps = true
  | Some StaleSurvivor => streaks e s' ps = true
  | None => streaks c s ps = false ∧ streaks e s' ps = false
  end.
Proof.
  intros Hs Hs' c e. revert s s' Hs Hs'. induction ps as [|p ps IH]; intros s s' Hs Hs'; [done|].
  cbn -[guard_round Nat.leb]. unfold guard_observe, consecutive_observe. cbn -[guard_round Nat.leb N.leb N.min N.add].
  fold (c p). fold (e p). assert (∀ b n, n <= 2 → (if (b : bool) then N.min (N.of_nat n + 1) u32_max else 0%N)
    = N.of_nat (if b then S n else 0)) as Hn.
  { intros [] n Hle; [|done]. unfold u32_max. lia. }
  rewrite !Hn by done. assert (∀ n, (GUARD_STRIKES_TO_RESET <=? N.of_nat n)%N = (3 <=? n)) as H3.
  { intros n. unfold GUARD_STRIKES_TO_RESET. destruct (N.leb_spec 3 (N.of_nat n)), (Nat.leb_spec 3 n); try done; lia. }
  rewrite !H3. destruct (c p).
  - destruct (Nat.eqb_spec s 2) as [->|Hne]; [done|]. rewrite (proj2 (Nat.leb_gt 3 (S s))) by lia. cbn [orb].
    destruct (e p).
    + destruct (Nat.eqb_spec s' 2) as [->|Hne']; [done|]. rewrite (proj2 (Nat.leb_gt 3 (S s'))) by lia. cbn [orb]. apply IH; lia.
    + apply (IH (S s) 0); lia.
  - change (3 <=? 0) with false. cbn [orb]. destruct (e p).
    + destruct (Nat.eqb_spec s' 2) as [->|Hne']; [done|]. rewrite (proj2 (Nat.leb_gt 3 (S s'))) by lia. cbn [orb]. apply (IH 0 (S s')); lia.
    + apply (IH 0 0); lia.
Qed.

(** C21: the guard stops exactly a proven minority.  The guard ends the daemon for its
    configuration only after three consecutive rounds in each of which a majority of
    the roster reports one and the same configuration that differs from its own, and
    for its incarnation only after three such rounds for an incarnation, which the node
    must have itself; and if there are three such rounds in a row it does end it. *)
Theorem guard_stops_minority cfg fingerprint ps :
  let stopped := run_cluster_guard cfg fingerprint ps in
  (stopped = Some ConfigMismatch → three_rounds (foreign_config_majority cfg fingerprint) ps) ∧
  (stopped = Some StaleSurvivor → three_rounds (foreign_epoch_majority cfg) ps) ∧
  (three_rounds (foreign_config_majority cfg fingerprint) ps ∨ three_rounds (foreign_epoch_majority cfg) ps → is_Some stopped).
Proof.
  pose proof (guard_rounds_spec fingerprint (length (peers cfg) / 2 + 1) 0 0 ps ltac:(lia) ltac:(lia)) as Hr. cbv zeta in Hr |- *.
  rewrite <- (streaks_new (λ p, length (peers cfg) / 2 + 1 <=? foreign_config (guard_round fingerprint p)) ps
    (foreign_config_majority cfg fingerprint)) by (intros p; rewrite Nat.leb_le; apply foreign_config_spec).
  rewrite <- (streaks_new (λ p, length (peers cfg) / 2 + 1 <=? (if local_epoch_known (guard_round fingerprint p)
    then foreign_epoch (guard_round fingerprint p) else 0)) ps (foreign_epoch_majority cfg))
    by (intros p; rewrite Nat.leb_le; apply foreign_epoch_spec).
  change (run_cluster_guard cfg fingerprint ps) with (guard_rounds fingerprint
    (mkClusterGuard (length (peers cfg) / 2 + 1) (mkConsecutiveMajority (N.of_nat 0) GUARD_STRIKES_TO_RESET)
       (mkConsecutiveMajority (N.of_nat 0) GUARD_STRIKES_TO_RESET)) ps).
  destruct (guard_rounds _ _ _) as [[]|]; split_and!; try done; intros; [by eexists..|].
  destruct Hr as [Hc He]. rewrite Hc, He in *. naive_solver.
Qed.

(** ** An example: two of three peers have formed another cluster *)

Module Minority.
Local Open Scope N_scope.
Definition fingerprint : ClusterConfigFingerprint := mkClusterConfigFingerprint 1 [].
Definition answer (e : N) : ClusterStatusResponse :=
  mkClusterStatusResponse None true true None 2 (Some e) true (Some fingerprint) true true.
Definition round : Probed := mkProbed (Some 7) [answer 8; answer 8].
Definition rounds : list Probed := [mkProbed (Some 7) [answer 8; answer 9]; round; round; round].
End Minority.

Lemma guard_stops_minority_witness : three_rounds (foreign_epoch_majority Demo.cfg) Minority.rounds.
Proof.
  apply (guard_stops_minority Demo.cfg Minority.fingerprint Minority.rounds). vm_compute. reflexivity.
Defined.
