(* ===== verification/Health.v ===== *)
(** * Health probing and publication (src/health.rs, src/health_publication.rs)

    The probe command, the delay before its failure counts, and the loop that
    publishes the effective health and renews the freshness of the node. *)

From S2P Require Import Prelude Text Io Replica Openraft Admission Types VipLogic State StoreMembership.
From S2P Require Import StateMachine LogStore Config Fingerprint Auth Controller Lease Freshness Request Authorization.
From S2P Require Import Tasks TaskStates Driver.

(** ** The probe *)

(** How the child of a probe ends ([Completion]), with what the cleanup of its group said. *)
Inductive Completion :=
| ProbeExited (success : bool)
| ProbeWaitFailed
| ProbeTimedOut.
Record CapturedRun := mkCapturedRun { completion : Completion; cleanup_failed : bool }.

(** [run_health_check]: [spawned] is the run of the command, if it starts. *)
Definition run_health_check (command : list Text) (spawned : option CapturedRun) : bool :=
  match command, spawned with
  | [], _ | _, None => false
  | _ :: _, Some run =>
      match completion run with
      | ProbeExited success => negb (cleanup_failed run) && success
      | ProbeWaitFailed | ProbeTimedOut => false
      end
  end.

(** ** Dampening *)

(** [FailureDampener], [new] and [observe]. *)
Record FailureDampener := mkFailureDampener {
  delay_ticks : N;
  failure_ticks : N;
  effective_healthy : bool
}.

Definition dampener_new (delay_ticks : N) : FailureDampener := mkFailureDampener delay_ticks 0 false.

Definition dampener_observe (d : FailureDampener) (raw_healthy : bool) : FailureDampener * bool :=
  if raw_healthy then (mkFailureDampener (delay_ticks d) 0 true, true)
  else if negb (effective_healthy d) then (d, false)
  else
    let ticks := u64_saturating_add (failure_ticks d) 1 in
    let healthy := negb (delay_ticks d <? ticks)%N in
    (mkFailureDampener (delay_ticks d) ticks healthy, healthy).

(** The results of the probes, newest first: was there a success among the last ones? *)
Definition recently_healthy (delay : N) (results : list bool) : bool := existsb (λ b, b) (take (S (N.to_nat delay)) results).

Record dampens (d : FailureDampener) (results : list bool) : Prop := mkDampens {
  dampens_healthy : effective_healthy d = recently_healthy (delay_ticks d) results;
  dampens_ticks : effective_healthy d = true →
    (failure_ticks d <= delay_ticks d)%N ∧
    ∃ rest, results = replicate (N.to_nat (failure_ticks d)) false ++ true :: rest
}.

Lemma recently_healthy_failures delay n rest :
  recently_healthy delay (replicate n false ++ true :: rest) = (n <=? N.to_nat delay).
Proof.
  unfold recently_healthy. generalize (N.to_nat delay). clear delay. induction n as [|n IH]; intros m; [done|].
  cbn [replicate app take existsb]. destruct m as [|m]; [done|]. rewrite IH. done.
Qed.

Lemma dampens_new delay : dampens (dampener_new delay) [].
Proof. by split. Qed.

Lemma dampens_observe d results raw :
  (delay_ticks d < u64_max)%N → dampens d results → dampens (dampener_observe d raw).1 (raw :: results).
Proof.
  intros Hmax [Hh Ht]. unfold dampener_observe. destruct raw; cbn; [split; [done|intros _; cbn; split; [lia|by exists results]]|].
  destruct d as [delay ticks []]; cbn in *.
  - destruct (Ht eq_refl) as [Hle [rest ->]]. rewrite u64_saturating_add_exact by lia.
    change (false :: replicate (N.to_nat ticks) false ++ true :: rest) with (replicate (S (N.to_nat ticks)) false ++ true :: rest).
    assert (S (N.to_nat ticks) = N.to_nat (ticks + 1)) as -> by lia. split; cbn.
    + rewrite recently_healthy_failures. destruct (N.ltb_spec delay (ticks + 1)), (Nat.leb_spec (N.to_nat (ticks + 1)) (N.to_nat delay)); try done; lia.
    + destruct (N.ltb_spec delay (ticks + 1)); [done|]. intros _. split; [lia|]. by exists rest.
  - split; [|done]. cbn. unfold recently_healthy in *. cbn [take existsb]. cbn [orb]. symmetry in Hh |- *.
    revert Hh. generalize (N.to_nat delay). intros n. revert results Ht. clear. revert n.
    intros n results _. revert n. induction results as [|r results IH]; intros [|n]; cbn; [done..|].
    intros [-> H]%orb_false_iff. cbn. by apply IH.
Qed.

Lemma dampener_observe_value d raw : (dampener_observe d raw).2 = effective_healthy (dampener_observe d raw).1.
Proof. unfold dampener_observe. destruct raw; [done|]. by destruct (effective_healthy d) eqn:He. Qed.
Lemma dampener_observe_delay d raw : delay_ticks (dampener_observe d raw).1 = delay_ticks d.
Proof. unfold dampener_observe. destruct raw; [done|]. by destruct (effective_healthy d). Qed.

(** ** Publication *)

Section publication.
Context {O : Openraft}.

(** What ends the wait of a round. *)
Inductive Wakeup := ProbeDone (raw : bool) | BindFaultSeen | WatchClosed.

(** [NextProbe] is the select of the loop, which waits for a bind fault until one is
    reported. *)
Inductive HealthEv : Type → Type :=
| NextProbe (bind_fault_reported : bool) : HealthEv Wakeup
| ObserveProbe (healthy : bool) : HealthEv bool
| IsHealthy : HealthEv bool
| InvalidateFreshness : HealthEv unit
| MarkUnavailable : HealthEv unit
| Readiness : HealthEv (option PublicationReadiness)
| ActivationReady : HealthEv bool
| PublishHealth (healthy : bool) : HealthEv (Result VerifiedProgress FailureKind)
| RecordApplied (proof : VerifiedProgress) : HealthEv (Result unit string).

Local Abbreviation task := (task HealthEv unit).

Record PublicationState := mkPublicationState {
  dampener : FailureDampener;
  bind_fault_reported : bool;
  bind_fault_committed : bool
}.

(** [record_probe]. *)
Definition record_probe (activation_ready : bool) (proof : VerifiedProgress) : task unit :=
  if activation_ready then
    r ← perform (RecordApplied proof);
    match r with Ok _ => Ret (Ok tt) | Err _ => perform InvalidateFreshness end
  else perform InvalidateFreshness.

(** A round after its probe. *)
Definition publish_round (s : PublicationState) (raw_ok : bool) : task PublicationState :=
  let observed := dampener_observe (dampener s) raw_ok in
  let s := mkPublicationState observed.1 (bind_fault_reported s) (bind_fault_committed s) in
  perform (ObserveProbe observed.2);;
  ok ← perform IsHealthy;
  (if (ok : bool) then Ret (Ok tt) else perform InvalidateFreshness);;
  readiness ← perform Readiness;
  match readiness with
  | Some PublicationReady =>
      placement_healthy ← (if (ok : bool) then perform ActivationReady else Ret (Ok false));
      published ← perform (PublishHealth placement_healthy);
      match published with
      | Ok proof =>
          ready ← perform ActivationReady;
          record_probe ready proof;;
          Ret (Ok (if bind_fault_reported s && negb (bind_fault_committed s) && negb ok
                   then mkPublicationState (dampener s) true true else s))
      | Err PublicationUnavailable => perform MarkUnavailable;; Ret (Ok s)
      | Err PublicationRejected => perform InvalidateFreshness;; Ret (Ok s)
      end
  | Some PublicationPending | None => perform InvalidateFreshness;; Ret (Ok s)
  end.

(** [run_with_probe], for a number of rounds. *)
Fixpoint run_rounds (rounds : nat) (s : PublicationState) : task unit :=
  match rounds with
  | 0 => Ret (Ok tt)
  | S rounds =>
      wakeup ← perform (NextProbe (bind_fault_reported s));
      match wakeup with
      | WatchClosed => Ret (Ok tt)
      | BindFaultSeen =>
          s ← publish_round (mkPublicationState (dampener s) true (bind_fault_committed s)) false;
          run_rounds rounds s
      | ProbeDone raw_ok => s ← publish_round s raw_ok; run_rounds rounds s
      end
  end.
Definition run_with_probe (rounds : nat) (cfg : Config) : task unit :=
  run_rounds rounds (mkPublicationState (dampener_new (effective_failover_delay_ticks cfg)) false false).

(** ** What is published *)

(** What the loop has seen: the results of the probes, newest first, and of this round the
    health it reported and read, and what followed. *)
Record Watched := mkWatched {
  results : list bool;
  reported : bool;
  seen : option bool;
  activation : bool;
  invalidated : bool;
  published : option VerifiedProgress
}.

Definition watch_event (X : Type) (e : HealthEv X) : X → Watched → Watched :=
  match e in HealthEv X return X → Watched → Watched with
  | NextProbe _ => λ x w,
      let raw := match x with ProbeDone raw => raw | _ => false end in
      mkWatched (raw :: results w) (reported w) None false false None
  | ObserveProbe healthy => λ _ w, mkWatched (results w) healthy (seen w) (activation w) (invalidated w) (published w)
  | IsHealthy => λ x w, mkWatched (results w) (reported w) (Some x) (activation w) (invalidated w) (published w)
  | ActivationReady => λ x w, mkWatched (results w) (reported w) (seen w) x (invalidated w) (published w)
  | InvalidateFreshness => λ _ w, mkWatched (results w) (reported w) (seen w) (activation w) true (published w)
  | PublishHealth _ => λ x w,
      mkWatched (results w) (reported w) (seen w) false (invalidated w) (match x with Ok p => Some p | Err _ => None end)
  | _ => λ _ w, w
  end.

(** The node is healthy only if the loop has reported so; see [healthy_was_reported]. *)
Definition watch_answer (w : Watched) (X : Type) (e : HealthEv X) : X → Prop :=
  match e in HealthEv X return X → Prop with
  | IsHealthy => λ x, x = true → reported w = true
  | _ => λ _, True
  end.

(** What the loop may do next. *)
Definition watch_allows (delay : N) (w : Watched) (X : Type) (e : HealthEv X) : Prop :=
  match e with
  | Readiness => seen w = Some true ∨ invalidated w = true
  | PublishHealth true => seen w = Some true ∧ activation w = true ∧ recently_healthy delay (results w) = true
  | RecordApplied p => published w = Some p ∧ activation w = true
  | _ => True
  end.

Lemma healthy_was_reported s healthy faults :
  status_healthy (foldl health_step (observe_probe s healthy).1 (EffectFault <$> faults)) = true → healthy = true.
Proof.
  assert (probe_healthy (observe_probe s healthy).1 = healthy) as Hp by (unfold observe_probe; cbn; by case_match).
  revert Hp. generalize (observe_probe s healthy).1. clear s. induction faults as [|f faults IH]; intros s Hp; cbn.
  - unfold status_healthy. by rewrite Hp; intros [? _]%andb_prop.
  - apply IH. unfold fail_binding. destruct (bind_fault s); [done|]. by destruct (status_healthy s).
Qed.

Local Abbreviation twp delay := (twp (E := unit) watch_event watch_answer (watch_allows delay)).

Definition round_ready (delay : N) (s : PublicationState) (w : Watched) : Prop :=
  delay_ticks (dampener s) = delay ∧ dampens (dampener s) (results w).

Lemma twp_record_probe delay ready p w :
  published w = Some p → activation w = ready →
  twp delay (record_probe ready p) (λ w' r, r = Ok tt ∧ results w' = results w) w.
Proof.
  intros Hp Ha. unfold record_probe. destruct ready; cbn; (split; [done|]); [|by intros []].
  intros [] _; cbn; [done|]. split; [done|]. by intros [].
Qed.

Lemma twp_publish_round delay s raw w :
  (delay < u64_max)%N → delay_ticks (dampener s) = delay → seen w = None →
  dampens (dampener_observe (dampener s) raw).1 (results w) →
  twp delay (publish_round s raw) (λ w' r, ∃ s', r = Ok s' ∧ round_ready delay s' w') w.
Proof.
  intros Hmax Hd Hseen Hdamp. unfold publish_round. set (d := dampener_observe (dampener s) raw). cbv zeta.
  apply twp_perform; [done|]. intros previous _. apply twp_perform; [done|]. intros ok Hok. cbn in Hok.
  apply twp_bind. eapply (twp_mono _ _ _ _ (λ w' r, r = Ok tt ∧ results w' = results w ∧ seen w' = Some ok ∧
    (ok = true → d.2 = true) ∧ (ok = true ∨ invalidated w' = true))).
  { destruct ok; cbn; [split_and!; auto|]. split; [done|]. intros [] _. split_and!; auto. }
  intros w1 r (-> & Hr1 & Hs1 & Hv & Hi). apply twp_perform; [destruct Hi as [->|]; [by left|by right]|].
  assert (∀ w', results w' = results w → ∀ s', dampener s' = d.1 → round_ready delay s' w') as Hready.
  { intros w' Hw s' Hs'. split; [rewrite Hs'; unfold d; by rewrite dampener_observe_delay|]. by rewrite Hs', Hw. }
  intros [[]|] _; [by split; [|intros ? _; eexists; split; [done|apply Hready]]| |by split; [|intros ? _; eexists; split; [done|apply Hready]]].
  apply twp_bind. eapply (twp_mono _ _ _ _ (λ w' r, ∃ placement, r = Ok placement ∧ results w' = results w ∧
    (placement = true → seen w' = Some true ∧ activation w' = true ∧ d.2 = true))).
  { destruct ok; cbn; [|by exists false]. split; [done|]. intros x _. exists x. split_and!; [done|done|]. intros ->. auto. }
  intros w2 r (placement & -> & Hr2 & Hp). apply twp_perform.
  { destruct placement; [|done]. destruct (Hp eq_refl) as (H1 & H2 & H3). split_and!; [done|done|]. rewrite Hr2.
    unfold d in H3. rewrite dampener_observe_value in H3. destruct Hdamp as [Hh _]. rewrite dampener_observe_delay, Hd in Hh. by rewrite <- Hh. }
  intros [proof|[]] _; cbn.
  - split; [done|]. intros ready _. apply twp_bind. eapply twp_mono; [by apply twp_record_probe|].
    intros w3 r [-> Hr3]. eexists. split; [done|]. apply Hready; [by rewrite Hr3|]. by destruct (_ && _).
  - split; [done|]. intros ? _. eexists. split; [done|]. by apply Hready.
  - split; [done|]. intros ? _. eexists. split; [done|]. by apply Hready.
Qed.

Lemma twp_run_rounds delay rounds s w :
  (delay < u64_max)%N → round_ready delay s w → twp delay (run_rounds rounds s) (λ _ _, True) w.
Proof.
  intros Hmax. revert s w. induction rounds as [|rounds IH]; intros s w [Hd Hdamp]; [done|]. cbn [run_rounds].
  assert (∀ raw s', dampener s' = dampener s → twp delay (s' ← publish_round s' raw; run_rounds rounds s') (λ _ _, True)
    (mkWatched (raw :: results w) (reported w) None false false None)) as Hround.
  { intros raw s' Hs'. apply twp_bind. eapply twp_mono.
    - apply twp_publish_round; [done|by rewrite Hs'|done|]. rewrite Hs'. apply dampens_observe; [by rewrite Hd|done].
    - intros w' r (s2 & -> & Hr). by apply IH. }
  apply twp_perform; [done|]. intros [raw| |] _; [by apply Hround..|done].
Qed.

Definition nothing_watched : Watched := mkWatched [] false None false false None.
End publication.

(** C22: a node is published as healthy only while its probe succeeds.  At every await of
    the publication loop: it publishes the node as healthy only if the node was found
    healthy in this round, its addresses can be activated, and one of its last probes
    succeeded, not counting more failures in a row than the failover delay allows.  It
    renews the freshness only with the proof of the report it published in this round,
    and only if the addresses can still be activated; and it goes on with an unhealthy
    node only after the freshness is invalidated. *)
Theorem published_health_is_probed {O : Openraft} cfg rounds h X (e : HealthEv X) x :
  (effective_failover_delay_ticks cfg < u64_max)%N →
  reaches (run_with_probe rounds cfg) (h ++ [did e x]) → consistent watch_event watch_answer nothing_watched h →
  watch_allows (effective_failover_delay_ticks cfg) (after watch_event nothing_watched h) X e.
Proof.
  intros Hmax Hr Hc. eapply (twp_reaches _ _ _ _ _ _ _ _ _ _); [|exact Hr|exact Hc].
  apply twp_run_rounds; [done|]. split; [done|]. apply dampens_new.
Qed.

(** ** An example: the first report of a healthy node *)

Module Reporting.
Definition answer (w : Watched) (X : Type) (e : HealthEv X) : X :=
  match e in HealthEv X return X with
  | NextProbe _ => ProbeDone true
  | ObserveProbe _ => false
  | IsHealthy => reported w
  | InvalidateFreshness | MarkUnavailable => tt
  | Readiness => Some PublicationReady
  | ActivationReady => true
  | PublishHealth _ => Err PublicationUnavailable
  | RecordApplied _ => Ok tt
  end.
Definition reporting := replay watch_event answer nothing_watched (run_with_probe 1 Demo.cfg).

Lemma publishes : reporting.1 !! 5 = Some (did (PublishHealth true) (Err PublicationUnavailable)).
Proof. vm_compute. reflexivity. Qed.
End Reporting.

Lemma published_health_is_probed_witness :
  watch_allows (effective_failover_delay_ticks Demo.cfg) (after watch_event nothing_watched (take 5 Reporting.reporting.1)) _
    (PublishHealth true).
Proof.
  apply (published_health_is_probed Demo.cfg 1 (take 5 Reporting.reporting.1) _ (PublishHealth true) (Err PublicationUnavailable)).
  - vm_compute. reflexivity.
  - rewrite <- (take_S_r _ _ _ Reporting.publishes). eapply reaches_take, runs_reaches, replay_runs.
  - eapply consistent_take, replay_consistent. intros w X []; cbn; done.
Defined.
