(* ===== verification/Notifications.v ===== *)
(** * Notifications (src/vip/notify.rs)

    The hooks that tell a script of a transition: one worker runs them in the
    order they are accepted; at most sixty-four wait, and none is accepted once
    the notifications are closed. *)

From S2P Require Import Prelude Text.

(** [QUEUE_CAPACITY]. *)
Definition QUEUE_CAPACITY : nat := 64.

(** [VipState], [as_str] and [release_notify_state]. *)
Inductive VipState := Master | Backup | Fault.
Definition as_str (s : VipState) : string :=
  match s with Master => "MASTER" | Backup => "BACKUP" | Fault => "FAULT" end.
Definition release_notify_state (local_ok : bool) : VipState := if local_ok then Backup else Fault.

(** A hook: the arguments of [run_notify_script], and whether it is bound to an effect that
    must be live when it starts. *)
Record Hook := mkHook { script : Text; hook_vip : Text; hook_state : VipState; bound_to_effect : bool }.
Definition notify_args (h : Hook) : list Text := [text "INSTANCE"; hook_vip h; text (as_str (hook_state h))].

(** [Rejected]. *)
Inductive HookRejected := Full | Closed.

(** [Notifications]: whether it is closed, the channel of the worker once it is started,
    and the hooks the worker has taken from it, newest last. *)
Record Notifications := mkNotifications {
  closed : bool;
  channel : option (list Hook);
  taken : list Hook;
  failure : bool
}.

Definition notifications_new : Notifications := mkNotifications false None [] false.

(** [enqueue]: the first hook starts the worker; a worker that has failed has dropped its
    end of the channel. *)
Definition enqueue (h : Hook) (n : Notifications) : Notifications * Result unit HookRejected :=
  if closed n then (n, Err Closed)
  else
    let n := match channel n with None => mkNotifications false (Some []) (taken n) (failure n) | Some _ => n end in
    match channel n with
    | Some queue =>
        if failure n then (n, Err Closed)
        else if QUEUE_CAPACITY <=? length queue then (n, Err Full)
        else (mkNotifications false (Some (queue ++ [h])) (taken n) (failure n), Ok tt)
    | None => (n, Err Closed)
    end.

(** [send_authorized] and [send]: what is given to the queue, or nothing. *)
Definition send_authorized (live dry_run : bool) (script vip : Text) (n : Notifications) : Notifications * option (Result unit HookRejected) :=
  if negb live || dry_run then (n, None)
  else let r := enqueue (mkHook script vip Master true) n in (r.1, Some r.2).
Definition send (dry_run : bool) (script vip : Text) (s : VipState) (n : Notifications) : Notifications * option (Result unit HookRejected) :=
  if dry_run then (n, None) else let r := enqueue (mkHook script vip s false) n in (r.1, Some r.2).

(** The worker takes the next hook, or fails; [shutdown] drops the sender. *)
Definition take_hook (n : Notifications) : option (Hook * Notifications) :=
  match channel n with
  | Some (h :: queue) => if failure n then None else Some (h, mkNotifications (closed n) (Some queue) (taken n ++ [h]) false)
  | _ => None
  end.
Definition worker_failed (n : Notifications) : Notifications := mkNotifications (closed n) (Some []) (taken n) true.
Definition notifications_shutdown (n : Notifications) : Notifications := mkNotifications true (channel n) (taken n) (failure n).

(** What can happen, with the hooks that were accepted. *)
Inductive notify_step : Notifications → list Hook → Notifications → Prop :=
| notify_accept h n n' : enqueue h n = (n', Ok tt) → notify_step n [h] n'
| notify_reject h n n' e : enqueue h n = (n', Err e) → notify_step n [] n'
| notify_take h n n' : take_hook n = Some (h, n') → notify_step n [] n'
| notify_fail n : is_Some (channel n) → notify_step n [] (worker_failed n)
| notify_shutdown n : notify_step n [] (notifications_shutdown n).

Inductive notified : list Hook → Notifications → Prop :=
| notified_new : notified [] notifications_new
| notified_step hs n hs' n' : notified hs n → notify_step n hs' n' → notified (hs ++ hs') n'.

Definition waiting (n : Notifications) : list Hook := default [] (channel n).

(** The hooks run in the order they were accepted, none twice and, unless the worker
    failed, none is lost; at most sixty-four wait. *)
Theorem hooks_run_in_order hs n :
  notified hs n →
  length (waiting n) <= QUEUE_CAPACITY ∧ taken n `prefix_of` hs ∧ (failure n = false → hs = taken n ++ waiting n).
Proof.
  induction 1 as [|hs n hs' n' _ (Hlen & Hpre & Hall) Hstep]; [by split_and!; [cbn; lia|..]|].
  assert (taken n `prefix_of` hs ++ hs') as Hpre' by by apply prefix_app_r.
  destruct Hstep as [h n n' He|h n n' e He|h n n' Ht|n _|n]; rewrite ?app_nil_r in *.
  - unfold enqueue in He. destruct n as [[] [queue|] tk []]; cbn -[Nat.leb QUEUE_CAPACITY] in *; try done.
    + destruct (_ <=? _) eqn:Hfull; [done|]. injection He as <-. apply Nat.leb_gt in Hfull. cbn. rewrite length_app. cbn.
      split_and!; [unfold QUEUE_CAPACITY in *; lia|done|]. intros _. rewrite (Hall eq_refl). by rewrite app_assoc.
    + injection He as <-. cbn. split_and!; [unfold QUEUE_CAPACITY; lia|done|]. intros _. rewrite (Hall eq_refl). by rewrite app_nil_r.
  - unfold enqueue in He. destruct n as [[] [queue|] tk []]; cbn -[Nat.leb QUEUE_CAPACITY] in *; try (injection He as <- <-; done).
    + destruct (_ <=? _); [|done]. by injection He as <- <-.
    + done.
  - unfold take_hook in Ht. destruct n as [c [[|h' queue]|] tk []]; cbn in *; try done. injection Ht as -> <-. cbn.
    rewrite (Hall eq_refl) in *. split_and!; [lia|exists queue; by rewrite <- app_assoc|]. intros _. by rewrite <- app_assoc.
  - split_and!; [cbn; lia|done|done].
  - done.
Qed.
